(* ===== verification/_CoqProject ===== *)
-Q . S2P
Prelude.v
StickyCounter.v
CountedObject.v
MemoryManager.v
Accounting.v
ManagerSafety.v
AtomicLoc.v
Frame.v
Backend.v
MarkedPtr.v
EpochTracker.v
DeferredLists.v
AcquireRetire.v
AcquireRetireEBR.v
AcquireRetireIBR.v
InvCheck.v
Reclamation.v
RcPtr.v
SnapshotPtr.v
AtomicRcPtr.v
SharedCas.v
Held.v
Stack.v
StackProgram.v
LinkedList.v
LinkedListOk.v
LinkedListOps.v
LinkedListProgram.v
AtomicWeakPtr.v
Client.v
Utils.v
HpMachine.v
HpInvariant.v
HpFacts.v
HpEffects.v
HpFrames.v
HpOps.v
HpOpSteps.v
HpCalls.v
HpProps.v
HpProgress.v
HpRoom.v
HpBounds.v
StackMachine.v
StackStable.v
StackSim.v
StackSteps.v
StackCalls.v
StackLin.v
StackAlone.v
HpDemos.v
StackDemos.v
Hyaline.v
HyalineRefine.v
HyalineProps.v
HyalineShutdown.v
HyalineManager.v
Demos.v
ExampleDemos.v
