(* ===== verification/Prelude.v ===== *)
(** * A verification development for concurrent deferred reference counting

    The program is the C++ library CDRC (src/include/cdrc): smart pointers with
    reference counts that may be shared between threads.  A pointer in shared
    memory is an [atomic_rc_ptr] or an [atomic_weak_ptr]; the decrement of the
    reference it gives up is not applied but retired, and a memory manager
    applies ("ejects") it when no thread protects the object any more.  So a
    reader can take a [snapshot_ptr], a protected pointer, without touching the
    count.  Four managers implement the protection: hazard pointers, epochs,
    intervals and Hyaline.  Two example structures (src/examples) use the
    library.

    ** The parts and where they are modelled

    Prelude.v: the state and error monad [M], its weakest precondition [wp] with
    the tactic [wp_step], words of a width, sums over finite maps.

    StickyCounter.v (internal/utils.h): the reference counter that sticks at
    zero, as functions on a word and as the atomic instructions of its
    operations that any number of threads interleave.

    CountedObject.v (internal/counted_object.h): an object in memory with its
    value, a datum and the smart pointers that are its members, and its two
    counters.

    MemoryManager.v (internal/memory_manager_base.h and the parts that the
    managers share): the state of the whole program (heap, cells for the atomic
    pointers outside the objects, allocation counters, announcements, deferred
    lists), [eject], [retire] and the loop that applies deferred actions,
    [shutdown], the destructor.  [Scheme] is what differs between managers: the
    announcements, the stamp of a deferred action and which actions are kept.
    Calls that go through the derived class, the recursion of destructors
    included, are tied by [manager n], where [n] bounds their depth.

    Accounting.v, ManagerSafety.v: every reference that anybody owes (an owning
    pointer, an atomic one, a deferred action, the running code) is an
    obligation on an object; [Inv] says that the counters of each object are its
    obligations and that what a snapshot protects is not going to be destroyed.
    [SchemeLaws] is what a scheme promises for that.  The lemmas show that the
    manager's operations keep [Inv] and terminate, by induction on a potential
    that every applied action decreases.

    AtomicLoc.v: locations (a cell or a member of an object) and the atomic
    loads, stores, exchanges and compare-exchanges on them.  Frame.v: code that
    does not look at a location does the same whatever it holds.

    Backend.v: [Backend], the operations of a manager that the pointer classes
    call, and [BackendLaws], what they promise; AcquireRetire.v,
    AcquireRetireEBR.v with EpochTracker.v and DeferredLists.v, and
    AcquireRetireIBR.v are the instances (internal/smr/acquire_retire.h,
    acquire_retire_ebr.h, acquire_retire_ibr.h, internal/epoch_tracker.h).
    Hyaline.v (internal/smr/acquire_retire_hyaline.h) is the fourth manager with
    its linked batches, HyalineRefine.v and HyalineProps.v its refinement proof,
    HyalineShutdown.v its destructor under actions that retire more, HyalineManager.v
    the manager on top; it has a [Backend] but keeps no
    [BackendLaws], for the reason that [hyaline_weak_unsafe] shows.

    MarkedPtr.v (marked_arc_ptr.h, internal/fwd_decl.h): pointers with two mark
    bits in a 64-bit word and the two pointer policies.  RcPtr.v (rc_ptr.h,
    weak_ptr.h), SnapshotPtr.v (snapshot_ptr.h, weak_snapshot_ptr.h),
    AtomicRcPtr.v and AtomicWeakPtr.v (atomic_rc_ptr.h, atomic_weak_ptr.h): the
    pointer classes, against the interface.  SharedCas.v: [compare_and_swap]
    with a desired pointer that the caller does not own.

    Client.v: any number of threads that call the pointer classes on registers.
    Held.v: what a thread holds between calls (snapshots, references) as one
    assertion, [held], with a rule for each call; Stack.v and StackProgram.v
    (examples/stack.h), LinkedList.v, LinkedListOk.v, LinkedListOps.v and
    LinkedListProgram.v (examples/linked_list.h) are proved with it.

    HpMachine.v: the strong pointers over hazard pointers one instruction at a
    time (internal/smr/acquire_retire.h, internal/memory_manager_base.h,
    internal/counted_object.h, atomic_rc_ptr.h, rc_ptr.h, snapshot_ptr.h, and as
    much of weak_ptr.h as locking one takes), a machine of any number of threads
    whose steps each make at most one access to shared memory.  A thread is at an
    instruction of a call of a pointer class ([op], [exec_op]), with a stack of
    the calls into the manager that it is in ([frame], [exec_frame]); [cstep] is
    a step of any thread.  HpInvariant.v: the invariant [minv], which counts the
    references wherever they are at the moment, those that no scan can apply
    among them ([robust]).  HpFacts.v and HpEffects.v: what it gives, and what
    each kind of change needs to keep it; HpFrames.v, HpOps.v, HpOpSteps.v and
    HpCalls.v: every instruction keeps it.  HpProps.v: the theorems;
    HpProgress.v and HpRoom.v: a thread that runs alone finishes; HpBounds.v: how
    much a thread defers; HpDemos.v: a scheduler for given interleavings and what
    it shows.

    StackMachine.v: the stack (examples/stack.h) on that machine.  A thread is at
    a place of a method ([phase]), in the middle of a pointer call or between two;
    [proceed] is what the method does next, [tstep] a step of one thread, [sstep]
    of any, and [astep] the specification, a stack whose methods are atomic.
    StackStable.v: which objects an instruction of a thread can change, and that
    the nodes another thread refers to are not among them.  StackSim.v: the
    relation between a thread at a place and the state of its call in the
    specification; StackSteps.v and StackCalls.v: instructions and pointer calls
    keep it; StackLin.v: the theorems; StackAlone.v: a thread that runs alone
    finishes its method; StackDemos.v: runs in which methods overlap.

    Utils.v (internal/utils.h): thread ids, hashing, random numbers.
    Reclamation.v: what ejecting, retiring and shutting down mean for the
    objects.  InvCheck.v: an executable check of [Inv].  Demos.v and
    ExampleDemos.v: concrete runs.

    ** What the theorems show

    Every interleaving of instructions of the strong-pointer calls of HpMachine.v
    ([strong_cmd]: [make_shared], copies, moves, drops, [load], [store],
    [compare_and_swap], snapshots and member assignment, over hazard pointers, with
    room in the counters): no instruction of any thread accesses null, freed memory or a destroyed value or
    fails an assertion ([hp_interleaved_safe]); the object of a snapshot is alive
    as long as the snapshot is held ([hp_interleaved_snapshot]), in slots that
    nobody shares ([hp_interleaved_slots]); counters are exact between calls
    ([hp_interleaved_counts]) and no object is forgotten, inside them
    ([hp_interleaved_no_garbage]); a thread finishes its call wherever the others
    have stopped ([hp_alone_finishes]); and what it defers is bounded
    ([hp_deferred_bounded]).

    Every interleaving of instructions of the methods of the stack: it is
    linearizable ([stack_linearizable]), no step of it fails
    ([stack_never_fails]), and a thread finishes its method wherever the others
    have stopped ([stack_alone_finishes]).  Methods take effect at the [compare_exchange] that
    succeeds, or where the snapshot of [head] is taken.

    Safety of the library, whole calls taking turns and, with epochs and intervals,
    every thread inside a guard throughout: no program on the pointer classes fails
    an assertion, dereferences null or freed memory or reads a destroyed value
    ([client_safe]); ejecting and retiring keep everything that is referenced or
    protected ([eject_safe], [retire_safe]); the operations of the pointer
    classes do what they say ([compare_and_swap_correct] and the others of
    AtomicRcPtr.v and AtomicWeakPtr.v).

    Reclamation: when nobody holds a pointer, the destructor of the manager ends and
    leaves only objects that an atomic pointer outside them or a cycle of references
    leads to ([shutdown_frees_all]); the allocation counter is exact
    ([currently_allocated_exact]); how much the hazard-pointer scan defers ([hp_scan_exact]).

    Counters: one decrement reports zero, for ever, within three instructions,
    and the word implements a number that sticks at zero (StickyCounter.v).

    Backends: which deferred actions [retire] applies and which it keeps, with
    epochs and with intervals ([ebr_retire_exact], [ibr_retire_exact]; that the
    loops of both compute the shared ones of MemoryManager.v is [ebr_is_manager] and
    [ibr_is_manager]); guards ([with_epoch_guard_correct]); Hyaline implements a
    specification without nodes and counters ([hyaline_refines]) and protects the
    readers ([hyaline_protects]), for actions that retire nothing themselves; its
    destructor also applies what the actions retire ([hyaline_shutdown_complete]).

    Example structures: the stack is a list and the linked list is a set, for
    every backend with [BackendLaws], and neither leaks ([stack_refines],
    [stack_no_leak], [linked_list_refines], [linked_list_no_leak]).

    Where the code does not do what it means to: [exchange_frees_snapshot],
    [weak_lock_race] (a [weak_ptr] is locked while the last reference is dropped,
    and the counter is accessed after the object has been freed),
    [hyaline_weak_unsafe], [linked_list_sentinel_removable],
    [sticky_failed_increments_revive].

    ** Bounds and fuel

    Counters are 32-bit words with two flag bits, so theorems that take
    references ask that there is room for them: [fits n] says that [n] and a
    constant are below 2^30.  [manager n] unfolds the recursion through
    destructors [n] deep, and [n] at least the potential is enough: the
    potential counts the actions that can still be applied, and each level
    applies one.  Loops that retry after interference take [rounds] and loops
    over a list [fuel]; each theorem says how much is enough and that the call
    returns, and without interference one round is.  A client program must have
    timestamps left where the scheme uses them ([can_create]).  The machine of
    HpMachine.v has no fuel: it is a relation, whose runs may be infinite; an
    instruction is executed while every counter has room for one more reference
    ([has_room]); [spare k] is room for [k], of which a call takes one and a method
    of the stack that runs alone at most twelve.

    ** What is not modelled

    Memory is sequentially consistent.  The instructions of different threads
    interleave in StickyCounter.v, in Utils.v and, for the strong pointers over
    hazard pointers, in HpMachine.v, which leaves out [exchange], [swap] and
    [store_non_racy] of [atomic_rc_ptr] (see [exchange_frees_snapshot]), the
    destruction of roots, the atomic weak pointers and, in the theorems, [weak_ptr]
    (see [weak_lock_race]).  The methods of the stack interleave on
    that machine in StackMachine.v, its constructor and destructor, which other
    threads must not overlap, only in Stack.v.  Elsewhere calls of different
    threads interleave at the boundaries of calls of the pointer classes
    (Client.v) or of the structure's operations (StackProgram.v,
    LinkedListProgram.v), so the theorems about epochs, intervals, Hyaline and
    weak pointers, and about the linked list, say nothing about a thread that is
    interrupted inside a call, except that the list may start with nodes that
    an interrupted [remove] has marked.  Client.v has no calls that enter or leave a
    guard.  The theorems of HyalineProps.v are about actions that retire nothing; those
    of HyalineShutdown.v, and the runs of HyalineManager.v in Demos.v, have actions
    that do.  The counts of announcements in a scan are natural numbers where the
    code has [unsigned int].  The allocator is a parameter that returns fresh
    aligned addresses.  Padding, alignment, exceptions of constructors and the alias
    templates have no counterpart.  The benchmarks, their data structures, trackers
    and harness, the vendored code and the tests are not part of the library and not
    modelled. *)

From stdpp Require Export base tactics numbers option list gmap fin_maps.
From Stdlib Require Export ZArith Lia.

#[export] Set Default Goal Selector "!".

(** ** Machine words

    A [w]-bit unsigned integer is a [Z] in [[0, 2^w)]; every arithmetic
    operation of the source that may wrap is followed by [wrap w]. *)

Definition wrap (w : Z) (z : Z) : Z := z mod 2 ^ w.

Definition in_word (w : Z) (z : Z) : Prop := (0 ≤ z < 2 ^ w)%Z.

Declare Scope cdrc_scope.
Delimit Scope cdrc_scope with cdrc.

(** ** Errors and the state-error monad

    [AssertionFailed] is a failed [assert] (the debug build), [NullDereference]
    and [UseAfterFree] are accesses through a null pointer or to memory that is
    not currently an object, [DestroyedObject] is an access to the managed
    value after its destructor started, [OutOfRange] an index past the end of a
    vector, [ProcessExit] a call of [std::exit].  [OutOfFuel] is the model's
    own: the bound on the recursion depth was reached. *)

Inductive error :=
  | AssertionFailed
  | NullDereference
  | UseAfterFree
  | DestroyedObject
  | OutOfRange
  | ProcessExit
  | OutOfFuel.

#[export] Instance error_eq_dec : EqDecision error.
Proof. solve_decision. Defined.

Inductive result (A : Type) :=
  | Ok (a : A)
  | Err (e : error).
Arguments Ok {A} _.
Arguments Err {A} _.

Definition M (S A : Type) : Type := S → result (A * S).

#[export] Instance M_ret S : MRet (M S) := λ A a s, Ok (a, s).
#[export] Instance M_bind S : MBind (M S) := λ A B f m s,
  match m s with
  | Ok (a, s') => f a s'
  | Err e => Err e
  end.

Definition fail {S A} (e : error) : M S A := λ _, Err e.
Definition get {S} : M S S := λ s, Ok (s, s).
Definition gets {S A} (f : S → A) : M S A := λ s, Ok (f s, s).
Definition put {S} (s : S) : M S unit := λ _, Ok (tt, s).
Definition modify {S} (f : S → S) : M S unit := λ s, Ok (tt, f s).

(** [assert(b)] *)
Definition assert_ {S} (b : bool) : M S unit :=
  if b then mret tt else fail AssertionFailed.

(** [if (b) m] *)
Definition when {S} (b : bool) (m : M S unit) : M S unit :=
  if b then m else mret tt.

(** [v[i]] on a [std::vector]: out of range is undefined behaviour. *)
Definition at_ {S A} (l : list A) (i : nat) : M S A :=
  match l !! i with Some a => mret a | None => fail OutOfRange end.

(** A range-for over a list. *)
Fixpoint for_each {S A} (f : A → M S unit) (l : list A) : M S unit :=
  match l with
  | [] => mret tt
  | a :: l' => f a;; for_each f l'
  end.

(** [wp m Q s]: from [s], [m] returns (it neither fails nor runs out of fuel)
    and the value and the state it returns satisfy [Q].  This is total
    correctness: a computation that does not return satisfies no [wp]. *)
Definition wp {S A} (m : M S A) (Q : A → S → Prop) (s : S) : Prop :=
  match m s with
  | Ok (a, s') => Q a s'
  | Err _ => False
  end.

Create HintDb cdrc.

Section wp.
Context {S : Type}.
Implicit Types s : S.

Lemma wp_ret {A} (a : A) (Q : A → S → Prop) s : Q a s → wp (mret a) Q s.
Proof. done. Qed.

Lemma wp_bind {A B} (m : M S A) (f : A → M S B) Q s :
  wp m (λ a, wp (f a) Q) s → wp (m ≫= f) Q s.
Proof.
  unfold wp, mbind, M_bind. by destruct (m s) as [[a s']|e].
Qed.

Lemma wp_unbind {A B} (m : M S A) (f : A → M S B) Q s :
  wp (m ≫= f) Q s → wp m (λ a, wp (f a) Q) s.
Proof.
  unfold wp, mbind, M_bind. by destruct (m s) as [[a s']|e].
Qed.

Lemma wp_mono {A} (m : M S A) (P Q : A → S → Prop) s :
  wp m P s → (∀ a s', P a s' → Q a s') → wp m Q s.
Proof. unfold wp. destruct (m s) as [[a s']|e]; naive_solver. Qed.

Lemma wp_get (Q : S → S → Prop) s : Q s s → wp get Q s.
Proof. done. Qed.

Lemma wp_gets {A} (f : S → A) (Q : A → S → Prop) s : Q (f s) s → wp (gets f) Q s.
Proof. done. Qed.

Lemma wp_put (s' : S) (Q : unit → S → Prop) s : Q tt s' → wp (put s') Q s.
Proof. done. Qed.

Lemma wp_modify (f : S → S) (Q : unit → S → Prop) s : Q tt (f s) → wp (modify f) Q s.
Proof. done. Qed.

Lemma wp_assert (b : bool) (Q : unit → S → Prop) s :
  b = true → Q tt s → wp (assert_ b) Q s.
Proof. by intros ->. Qed.

Lemma wp_when (b : bool) (m : M S unit) (Q : unit → S → Prop) s :
  (b = true → wp m Q s) → (b = false → Q tt s) → wp (when b m) Q s.
Proof. destruct b; intros H1 H2; [by apply H1|by apply H2]. Qed.

Lemma wp_at {A} (l : list A) (i : nat) a (Q : A → S → Prop) s :
  l !! i = Some a → Q a s → wp (at_ l i) Q s.
Proof. unfold at_. by intros ->. Qed.

Lemma wp_ok {A} (m : M S A) Q s :
  wp m Q s ↔ ∃ a s', m s = Ok (a, s') ∧ Q a s'.
Proof.
  unfold wp. split.
  - destruct (m s) as [[a s']|e]; naive_solver.
  - by intros (a & s' & -> & ?).
Qed.

Lemma wp_eq {A} (m m' : M S A) Q s s' : m s = m' s' → wp m' Q s' → wp m Q s.
Proof. unfold wp. by intros ->. Qed.

(** The rule for a range-for: an invariant indexed by what is left. *)
Lemma wp_for_each {A} (f : A → M S unit) (I : list A → S → Prop) l s :
  I l s →
  (∀ a l' s', I (a :: l') s' → wp (f a) (λ _, I l') s') →
  wp (for_each f l) (λ _, I []) s.
Proof.
  intros HI Hstep. revert s HI. induction l as [|a l IH]; intros s HI; simpl.
  - by apply wp_ret.
  - apply wp_bind. eapply wp_mono; [by apply Hstep|]. eauto.
Qed.
End wp.

(** One symbolic step of a monadic program. *)
Ltac wp_step :=
  cbv beta;
  lazymatch goal with
  | |- wp (_ ≫= _) _ _ => apply wp_bind
  | |- wp (mret _) _ _ => apply wp_ret
  | |- wp get _ _ => apply wp_get
  | |- wp (gets _) _ _ => apply wp_gets
  | |- wp (put _) _ _ => apply wp_put
  | |- wp (modify _) _ _ => apply wp_modify
  | |- wp (assert_ _) _ _ => apply wp_assert
  | |- wp (when _ _) _ _ => apply wp_when
  | |- wp (at_ _ _) _ _ => eapply wp_at
  end.

Ltac wp_steps := repeat (wp_step; simpl).

(** ** Bits of a word *)

Lemma testbit_div (x n : Z) : (0 ≤ n)%Z → Z.testbit x n = Z.odd (x / 2 ^ n).
Proof.
  intros Hn. rewrite Z.testbit_odd, Z.shiftr_div_pow2 by lia. done.
Qed.

Lemma land_pow2 (x n : Z) :
  (0 ≤ n)%Z → Z.land x (2 ^ n) = if Z.testbit x n then (2 ^ n)%Z else 0%Z.
Proof.
  intros Hn. apply Z.bits_inj'. intros k Hk. rewrite Z.land_spec, Z.pow2_bits_eqb by lia.
  destruct (Z.eqb_spec n k) as [->|Hne].
  - destruct (Z.testbit x k) eqn:E; simpl.
    + by rewrite Z.pow2_bits_true by lia.
    + by rewrite Z.bits_0.
  - rewrite andb_false_r. destruct (Z.testbit x n); [|by rewrite Z.bits_0].
    by rewrite Z.pow2_bits_false by lia.
Qed.

(** The test [x & (1 << n)] of the source, as an inequality on the value. *)
Lemma land_pow2_low (x n : Z) :
  (0 ≤ n)%Z → (0 ≤ x < 2 ^ n)%Z → Z.land x (2 ^ n) = 0%Z.
Proof.
  intros Hn Hx. rewrite land_pow2, testbit_div by done. by rewrite Z.div_small.
Qed.

Lemma land_pow2_high (x n : Z) :
  (0 ≤ n)%Z → (2 ^ n ≤ x < 2 * 2 ^ n)%Z → Z.land x (2 ^ n) = (2 ^ n)%Z.
Proof.
  intros Hn Hx. rewrite land_pow2, testbit_div by done.
  replace (x / 2 ^ n)%Z with 1%Z; [done|].
  apply Z.div_unique with (x - 2 ^ n)%Z; lia.
Qed.

(** ** Sums over a list *)

Fixpoint sumZ {A} (f : A → Z) (l : list A) : Z :=
  match l with [] => 0%Z | a :: l' => (f a + sumZ f l')%Z end.

Lemma sumZ_app {A} (f : A → Z) l1 l2 : sumZ f (l1 ++ l2) = (sumZ f l1 + sumZ f l2)%Z.
Proof. induction l1; simpl; lia. Qed.

Lemma sumZ_insert {A} (f : A → Z) (l : list A) i a b :
  l !! i = Some a → sumZ f (<[i:=b]> l) = (sumZ f l - f a + f b)%Z.
Proof.
  revert i. induction l as [|c l IH]; intros [|i] Hi; simplify_eq/=; [lia|].
  rewrite (IH _ Hi). lia.
Qed.

Lemma sumZ_nonneg {A} (f : A → Z) (l : list A) :
  Forall (λ a, (0 ≤ f a)%Z) l → (0 ≤ sumZ f l)%Z.
Proof. induction 1; simpl; lia. Qed.

Lemma sumZ_lookup_le {A} (f : A → Z) (l : list A) i a :
  Forall (λ a, (0 ≤ f a)%Z) l → l !! i = Some a → (f a ≤ sumZ f l)%Z.
Proof.
  intros Hf. revert i. induction Hf as [|c l Hc Hf IH]; intros [|i] Hi; simplify_eq/=.
  - pose proof (sumZ_nonneg f l Hf). lia.
  - specialize (IH _ Hi). lia.
Qed.

Lemma sumZ_zero {A} (f : A → Z) (l : list A) :
  (∀ i a, l !! i = Some a → f a = 0%Z) → sumZ f l = 0%Z.
Proof.
  induction l as [|c l IH]; intros H; [done|]. simpl.
  rewrite (H 0 c), IH; [done| |done]. intros i a Hi. by apply (H (S i)).
Qed.

(** ** Updating one element of a list *)

Lemma elem_of_insert_keep {A} (l : list A) i a b c :
  l !! i = Some a → c ∈ l → c ≠ a → c ∈ <[i:=b]> l.
Proof.
  intros Hi Hc Hne. apply list_elem_of_lookup in Hc as [j Hj].
  apply list_elem_of_lookup. exists j. rewrite list_lookup_insert_ne; [done|].
  intros ->. congruence.
Qed.

Lemma elem_of_insert_new {A} (l : list A) i a b : l !! i = Some a → b ∈ <[i:=b]> l.
Proof.
  intros Hi. apply list_elem_of_lookup. exists i.
  apply list_lookup_insert_eq. by eapply lookup_lt_Some.
Qed.

Lemma not_elem_of_insert {A} (l : list A) i b c : c ∉ l → c ≠ b → c ∉ <[i:=b]> l.
Proof.
  intros Hc Hne [j Hj]%list_elem_of_lookup.
  destruct (decide (i = j)) as [->|].
  - assert (j < length l) by (apply lookup_lt_Some in Hj; by rewrite length_insert in Hj).
    rewrite list_lookup_insert_eq in Hj by done. congruence.
  - rewrite list_lookup_insert_ne in Hj by done. apply Hc, list_elem_of_lookup. eauto.
Qed.

#[export] Hint Resolve elem_of_insert_new elem_of_insert_keep not_elem_of_insert : cdrc.

(** ** Counting with a boolean test *)

Section countb.
  Context {A : Type}.
  Implicit Types g : A → bool.

Fixpoint countb g (l : list A) : nat :=
  match l with
  | [] => 0
  | a :: l' => Nat.b2n (g a) + countb g l'
  end.

Lemma countb_app g l1 l2 : countb g (l1 ++ l2) = countb g l1 + countb g l2.
Proof. induction l1; simpl; lia. Qed.

Lemma countb_perm g l1 l2 : l1 ≡ₚ l2 → countb g l1 = countb g l2.
Proof. induction 1; simpl; lia. Qed.

Lemma countb_pos g l : 0 < countb g l ↔ ∃ a, a ∈ l ∧ g a = true.
Proof.
  induction l as [|b l IH]; simpl.
  - split; [lia|]. intros (a & Ha & _). by apply elem_of_nil in Ha.
  - destruct (g b) eqn:Hb; simpl.
    + split; [|lia]. intros _. exists b. by split; [left|].
    + rewrite IH. split.
      * intros (a & ? & ?). exists a. by split; [right|].
      * intros (a & [-> | ?]%elem_of_cons & Ha); [congruence|]. eauto.
Qed.

Lemma countb_le g g' l : (∀ a, g a = true → g' a = true) → countb g l ≤ countb g' l.
Proof.
  intros Hg. induction l as [|a l IH]; simpl; [lia|].
  specialize (Hg a). destruct (g a), (g' a); simpl in *; naive_solver lia.
Qed.

Lemma countb_length g l : countb g l ≤ length l.
Proof. induction l as [|a l IH]; simpl; [lia|]. destruct (g a); simpl; lia. Qed.
End countb.

(** ** Sums over a finite map *)

Section msum.
  Context {K A : Type} `{Countable K}.
  Implicit Types (f : A → nat) (m : gmap K A).

Definition msum f m : nat := sum_list_with (f ∘ snd) (map_to_list m).

Lemma sum_list_with_perm {B} (f : B → nat) l1 l2 :
  l1 ≡ₚ l2 → sum_list_with f l1 = sum_list_with f l2.
Proof. induction 1; simpl; lia. Qed.

Lemma msum_empty f : msum f ∅ = 0.
Proof. unfold msum. by rewrite map_to_list_empty. Qed.

Lemma msum_insert_new f m i a : m !! i = None → msum f (<[i:=a]> m) = f a + msum f m.
Proof.
  intros Hi. unfold msum.
  by rewrite (sum_list_with_perm _ _ _ (map_to_list_insert m i a Hi)).
Qed.

Lemma msum_delete f m i a : m !! i = Some a → msum f m = f a + msum f (delete i m).
Proof.
  intros Hi. rewrite <-(insert_delete_id m i a Hi) at 1.
  by rewrite msum_insert_new by apply lookup_delete_eq.
Qed.

Lemma msum_insert f m i a b :
  m !! i = Some a → msum f (<[i:=b]> m) + f a = msum f m + f b.
Proof.
  intros Hi. rewrite (msum_delete f m i a Hi).
  rewrite <-(insert_delete_eq m), msum_insert_new by apply lookup_delete_eq. lia.
Qed.

Lemma msum_fmap {B} (h : B → A) f (m : gmap K B) : msum f (h <$> m) = sum_list_with (f ∘ h ∘ snd) (map_to_list m).
Proof.
  unfold msum. rewrite map_to_list_fmap. induction (map_to_list m) as [|[k b] l IH]; csimpl; [done|].
  by rewrite IH.
Qed.

Lemma msum_insert_same f m i a b :
  m !! i = Some a → f a = f b → msum f (<[i:=b]> m) = msum f m.
Proof. intros Hi Hf. pose proof (msum_insert f m i a b Hi). lia. Qed.
End msum.
