(* ===== verification/StickyCounter.v ===== *)
(** * The sticky counter ([StickyCounter<T>] of src/include/cdrc/internal/utils.h)

    The counter is a [w]-bit word whose two top bits are flags.  Each operation
    is given twice: as the function it computes when no other thread interferes
    ([increment], [decrement], [load], [reset]), and, in [thread_step], as the
    sequence of atomic instructions a thread executes, so that the interleavings
    of any number of threads are the runs of [step].  Memory orders weaker than
    sequential consistency are not modelled. *)

From S2P Require Import Prelude.
Local Open Scope Z_scope.

Section StickyCounter.
  (** The width of [T] in bits, [sizeof(T)*8]. *)
  Context (w : Z).

Definition zero_flag : Z := Z.shiftl 1 (w - 1).
Definition zero_pending_flag : Z := Z.shiftl 1 (w - 2).
Definition max_value : Z := zero_pending_flag - 1.

(** [StickyCounter(T desired)]; the default constructor is [init 1]. *)
Definition init (desired : Z) : Z := if desired =? 0 then zero_flag else desired.

(** ** The operations without interference: result and new word *)

Definition increment (x arg : Z) : bool * Z :=
  (Z.land x zero_flag =? 0, wrap w (x + arg)).

Definition decrement (x arg : Z) : bool * Z :=
  let x1 := wrap w (x - arg) in
  if x =? arg then
    if x1 =? 0 then (true, zero_flag)
    else if negb (Z.land x1 zero_pending_flag =? 0)
         then (negb (Z.land x1 zero_pending_flag =? 0), zero_flag)
         else (false, x1)
  else (false, x1).

Definition load (x : Z) : Z * Z :=
  if x =? 0 then (0, Z.lor zero_flag zero_pending_flag)
  else (if Z.land x zero_flag =? 0 then x else 0, x).

Definition reset (desired : Z) : Z := if desired =? 0 then zero_flag else desired.

(** ** The operations as atomic instructions *)

Inductive op_result :=
  | RInc (b : bool)
  | RDec (b : bool)
  | RLoad (v : Z).

(** Where a thread is.  [IncAdd arg] is about to execute the [fetch_add] of
    [increment(arg)], [DecSub arg] the [fetch_sub] of [decrement(arg)],
    [DecCas] its [compare_exchange_strong] from [0], [DecXchg] its [exchange];
    [LoadRead] the first load of [load()] and [LoadCas] its
    [compare_exchange_strong]. *)
Inductive pc :=
  | Idle
  | IncAdd (arg : Z)
  | DecSub (arg : Z)
  | DecCas
  | DecXchg
  | LoadRead
  | LoadCas
  | Returned (r : op_result).

Definition thread_step (p : pc) (x : Z) : option (pc * Z) :=
  match p with
  | Idle | Returned _ => None
  | IncAdd arg => Some (Returned (RInc (Z.land x zero_flag =? 0)), wrap w (x + arg))
  | DecSub arg =>
      if x =? arg then Some (DecCas, wrap w (x - arg))
      else Some (Returned (RDec false), wrap w (x - arg))
  | DecCas =>
      if x =? 0 then Some (Returned (RDec true), zero_flag)
      else if negb (Z.land x zero_pending_flag =? 0) then Some (DecXchg, x)
      else Some (Returned (RDec false), x)
  | DecXchg =>
      Some (Returned (RDec (negb (Z.land x zero_pending_flag =? 0))), zero_flag)
  | LoadRead =>
      if x =? 0 then Some (LoadCas, x)
      else Some (Returned (RLoad (if Z.land x zero_flag =? 0 then x else 0)), x)
  | LoadCas =>
      if x =? 0 then Some (Returned (RLoad 0), Z.lor zero_flag zero_pending_flag)
      else Some (Returned (RLoad (if Z.land x zero_flag =? 0 then x else 0)), x)
  end.

(** A thread runs alone for [n] instructions. *)
Fixpoint run_alone (n : nat) (p : pc) (x : Z) : pc * Z :=
  match n with
  | O => (p, x)
  | S n' => match thread_step p x with
            | Some (p', x') => run_alone n' p' x'
            | None => (p, x)
            end
  end.

(** ** Any number of threads

    [tokens] is the number of references the clients own: the initial value
    plus what successful increments returned minus what was handed to
    [decrement].  A client may only call [decrement(arg)] when it owns [arg]
    of them (the assumption of the class: the counter never goes negative).
    [trues] counts the decrements that returned [true]. *)
Record config := Config {
  cx : Z;
  pcs : list pc;
  tokens : Z;
  trues : nat
}.

(** The part of the word below the two flags. *)
Definition low (x : Z) : Z := x mod 2 ^ (w - 2).

(** The bound of the class on what the counter can represent: the additions
    never carry into the flag bits. *)
Definition no_overflow (p : pc) (x : Z) : Prop :=
  match p with IncAdd arg => low x + arg < 2 ^ (w - 2) | _ => True end.

Inductive step : config → config → Prop :=
  | step_call_increment c i arg :
      pcs c !! i = Some Idle → 0 < arg →
      step c (Config (cx c) (<[i:=IncAdd arg]> (pcs c)) (tokens c) (trues c))
  | step_call_decrement c i arg :
      pcs c !! i = Some Idle → 0 < arg ≤ tokens c →
      step c (Config (cx c) (<[i:=DecSub arg]> (pcs c)) (tokens c - arg) (trues c))
  | step_call_load c i :
      pcs c !! i = Some Idle →
      step c (Config (cx c) (<[i:=LoadRead]> (pcs c)) (tokens c) (trues c))
  | step_run c i p p' x' :
      pcs c !! i = Some p → thread_step p (cx c) = Some (p', x') →
      no_overflow p (cx c) →
      step c (Config x' (<[i:=p']> (pcs c))
                (tokens c + match p, p' with
                            | IncAdd arg, Returned (RInc true) => arg
                            | _, _ => 0
                            end)
                (trues c + match p' with Returned (RDec true) => 1 | _ => 0 end))
  | step_return c i r :
      pcs c !! i = Some (Returned r) →
      step c (Config (cx c) (<[i:=Idle]> (pcs c)) (tokens c) (trues c)).

Definition initial (n : Z) (threads : nat) : config :=
  Config (init n) (replicate threads Idle) n 0.

(** ** The flag tests as intervals of the word *)

Context (Hw : 8 ≤ w).

(** One unit of the flag arithmetic: the pending flag. *)
Local Abbreviation P := (2 ^ (w - 2)).

Lemma unit_pos : 64 ≤ P.
Proof. change 64 with (2 ^ 6). apply Z.pow_le_mono_r; lia. Qed.

Lemma zero_flag_eq : zero_flag = 2 * P.
Proof.
  unfold zero_flag. rewrite Z.shiftl_1_l. rewrite <-(Z.pow_succ_r 2) by lia. f_equal. lia.
Qed.

Lemma zero_pending_flag_eq : zero_pending_flag = P.
Proof. unfold zero_pending_flag. by rewrite Z.shiftl_1_l. Qed.

Lemma word_eq : 2 ^ w = 4 * P.
Proof.
  replace w with (Z.succ (Z.succ (w - 2))) at 1 by lia.
  rewrite !Z.pow_succ_r by lia. lia.
Qed.

Lemma flags_lor : Z.lor zero_flag zero_pending_flag = 3 * P.
Proof.
  rewrite zero_flag_eq, zero_pending_flag_eq.
  pose proof (Z.add_lor_land (2 * P) P) as E.
  rewrite land_pow2, testbit_div, Z.div_mul in E by (pose proof unit_pos; lia).
  simpl in E. lia.
Qed.

Lemma land_zero_flag_clear x : 0 ≤ x < 2 * P → Z.land x zero_flag = 0.
Proof.
  intros Hx. unfold zero_flag. rewrite Z.shiftl_1_l. apply land_pow2_low; [lia|].
  rewrite <-(Z.shiftl_1_l (w - 1)). fold zero_flag. rewrite zero_flag_eq. lia.
Qed.

Lemma land_zero_flag_set x : 2 * P ≤ x < 4 * P → Z.land x zero_flag = 2 * P.
Proof.
  intros Hx. rewrite <-zero_flag_eq. unfold zero_flag. rewrite Z.shiftl_1_l.
  apply land_pow2_high; [lia|].
  rewrite <-(Z.shiftl_1_l (w - 1)). fold zero_flag. rewrite zero_flag_eq. lia.
Qed.

Lemma land_pending_clear x :
  0 ≤ x < P ∨ 2 * P ≤ x < 3 * P → Z.land x zero_pending_flag = 0.
Proof.
  intros Hx. rewrite zero_pending_flag_eq. rewrite land_pow2, testbit_div by lia.
  pose proof unit_pos. destruct Hx as [Hx|Hx].
  - by rewrite Z.div_small.
  - replace (x / P) with 2; [done|]. apply Z.div_unique with (x - 2 * P); lia.
Qed.

Lemma land_pending_set x : 3 * P ≤ x < 4 * P → Z.land x zero_pending_flag = P.
Proof.
  intros Hx. rewrite zero_pending_flag_eq. rewrite land_pow2, testbit_div by lia.
  replace (x / P) with 3; [done|]. apply Z.div_unique with (x - 3 * P); lia.
Qed.

Lemma wrap_small x : 0 ≤ x < 4 * P → wrap w x = x.
Proof. intros. unfold wrap. rewrite word_eq. by apply Z.mod_small. Qed.

Lemma low_eq x k : 0 ≤ x - k * P < P → low x = x - k * P.
Proof.
  intros Hx. unfold low. symmetry. apply Z.mod_unique with k; lia.
Qed.

(** ** The counter without interference is a natural number stuck at zero *)

(** [sticky_rep x n]: the word [x] stands for the value [n].  Zero is any word
    with the zero flag and not the pending one, since failed increments leave
    their trace in the low bits. *)
Definition sticky_rep (x n : Z) : Prop :=
  (n = 0 ∧ 2 * P ≤ x < 3 * P) ∨ (0 < n < P ∧ x = n).

(** [arg] can be added without touching the flag bits. *)
Definition can_add (x arg : Z) : Prop := 0 < arg ∧ low x + arg < P.

Lemma sticky_rep_init n : 0 ≤ n < P → sticky_rep (init n) n.
Proof.
  intros Hn. pose proof unit_pos. unfold init, sticky_rep.
  destruct (Z.eqb_spec n 0) as [->|]; [left|right; lia]. rewrite zero_flag_eq. lia.
Qed.

Lemma sticky_rep_low x n : sticky_rep x n → low x = if n =? 0 then x - 2 * P else n.
Proof.
  intros [[-> Hx]|[Hn ->]]; simpl.
  - rewrite (low_eq x 2); lia.
  - destruct (Z.eqb_spec n 0); [lia|]. rewrite (low_eq n 0); lia.
Qed.

(** Incrementing a live counter adds; incrementing zero fails and stays zero. *)
Lemma increment_rep x n arg :
  sticky_rep x n → can_add x arg →
  fst (increment x arg) = negb (n =? 0) ∧
  sticky_rep (snd (increment x arg)) (if n =? 0 then 0 else n + arg).
Proof.
  intros Hrep [Harg Hcan]. pose proof unit_pos. rewrite (sticky_rep_low _ _ Hrep) in Hcan.
  unfold increment; simpl. destruct Hrep as [[-> Hx]|[Hn ->]]; simpl in *.
  - rewrite land_zero_flag_set by lia. split; [apply Z.eqb_neq; lia|].
    rewrite wrap_small by lia. left. lia.
  - destruct (Z.eqb_spec n 0); [lia|]. simpl. rewrite land_zero_flag_clear by lia.
    split; [done|]. rewrite wrap_small by lia. right. lia.
Qed.

(** Decrementing returns [true] exactly when it reaches zero. *)
Lemma decrement_rep x n arg :
  sticky_rep x n → 0 < arg ≤ n →
  fst (decrement x arg) = (n =? arg) ∧ sticky_rep (snd (decrement x arg)) (n - arg).
Proof.
  intros [[-> Hx]|[Hn ->]] Harg; [lia|]. pose proof unit_pos. unfold decrement.
  rewrite wrap_small by lia. destruct (Z.eqb_spec n arg) as [->|]; simpl.
  - rewrite Z.sub_diag. simpl. split; [done|]. left. rewrite zero_flag_eq. lia.
  - split; [done|]. right. lia.
Qed.

Lemma load_rep x n : sticky_rep x n → load x = (n, x).
Proof.
  intros Hrep. pose proof unit_pos. unfold load. destruct Hrep as [[-> Hx]|[Hn ->]].
  - destruct (Z.eqb_spec x 0); [lia|]. rewrite land_zero_flag_set by lia.
    destruct (Z.eqb_spec (2 * P) 0); [lia|done].
  - destruct (Z.eqb_spec n 0); [lia|]. by rewrite land_zero_flag_clear by lia.
Qed.

(** ** Any number of threads: the invariant *)

(** What the decrements that have not subtracted yet will subtract. *)
Definition dec_arg (p : pc) : Z := match p with DecSub arg => arg | _ => 0 end.

Definition args_pos (p : pc) : Prop :=
  match p with IncAdd arg | DecSub arg => 0 < arg | _ => True end.

Definition resolver (p : pc) : Prop := p = DecCas ∨ p = DecXchg.

Record live (c : config) : Prop := {
  live_word : 0 ≤ cx c < P;
  live_sum : cx c = tokens c + sumZ dec_arg (pcs c);
  live_xchg : DecXchg ∉ pcs c;
  live_trues : trues c = 0%nat;
  live_zero : cx c = 0 → DecCas ∈ pcs c
}.

Record zero_pending (c : config) : Prop := {
  pending_word : 3 * P ≤ cx c < 4 * P;
  pending_sum : tokens c + sumZ dec_arg (pcs c) = 0;
  pending_trues : trues c = 0%nat;
  pending_resolver : ∃ p, p ∈ pcs c ∧ resolver p
}.

Record dead (c : config) : Prop := {
  dead_word : 2 * P ≤ cx c < 3 * P;
  dead_sum : tokens c + sumZ dec_arg (pcs c) = 0;
  dead_trues : trues c = 1%nat
}.

Record counter_inv (c : config) : Prop := {
  inv_args : Forall args_pos (pcs c);
  inv_tokens : 0 ≤ tokens c;
  inv_phase : live c ∨ zero_pending c ∨ dead c
}.

Lemma dec_args_nonneg l : Forall args_pos l → Forall (λ p, 0 ≤ dec_arg p) l.
Proof. intros H. eapply Forall_impl; [exact H|]. intros []; simpl; lia. Qed.

Lemma initial_inv n threads : 0 < n < P → counter_inv (initial n threads).
Proof.
  intros Hn. assert (sumZ dec_arg (replicate threads Idle) = 0) as Hsum.
  { apply sumZ_zero. intros i a [-> _]%lookup_replicate_1. done. }
  assert (init n = n) as Hi by (unfold init; destruct (Z.eqb_spec n 0); lia).
  constructor; simpl; [|lia|].
  - apply Forall_replicate. done.
  - left. constructor; simpl; try lia.
    by intros [j [? _]%lookup_replicate_1]%list_elem_of_lookup.
Qed.

(** The clients' calls and returns do not touch the word. *)
Lemma call_inv c i p q t :
  counter_inv c → pcs c !! i = Some p → (∀ r, resolver r → p ≠ r) → args_pos q →
  q ≠ DecXchg → dec_arg p = 0 → 0 ≤ t → t + dec_arg q = tokens c →
  counter_inv (Config (cx c) (<[i:=q]> (pcs c)) t (trues c)).
Proof.
  intros [Hargs Htok Hphase] Hi Hp Hq Hqx Hp0 Ht Hsum.
  pose proof (sumZ_insert dec_arg _ _ _ q Hi) as Hs.
  assert (DecCas ≠ p) by (intros <-; eapply Hp; [by left|done]).
  constructor; simpl; [by apply Forall_insert|done|].
  destruct Hphase as [[]|[[?? ? (r & Hr & Hres)]|[]]].
  - left. constructor; simpl; try lia; [by apply not_elem_of_insert|].
    intros Hz. eapply elem_of_insert_keep; eauto.
  - right; left. constructor; simpl; try lia. exists r. split; [|done].
    eapply elem_of_insert_keep; eauto. intros ->. by eapply Hp.
  - right; right. constructor; simpl; lia.
Qed.

Lemma run_live c i p p' x' :
  counter_inv c → live c → pcs c !! i = Some p → thread_step p (cx c) = Some (p', x') →
  no_overflow p (cx c) →
  counter_inv (Config x' (<[i:=p']> (pcs c))
    (tokens c + match p, p' with IncAdd arg, Returned (RInc true) => arg | _, _ => 0 end)
    (trues c + match p' with Returned (RDec true) => 1 | _ => 0 end)).
Proof.
  intros [Hargs Htok _] [Hw1 Hsum Hx Htr Hz] Hi Hstep Hno.
  pose proof (Forall_lookup_1 _ _ _ _ Hargs Hi) as Hp.
  pose proof (sumZ_insert dec_arg _ _ _ p' Hi) as Hs.
  pose proof (sumZ_lookup_le dec_arg _ _ _ (dec_args_nonneg _ Hargs) Hi) as Hle.
  pose proof (sumZ_nonneg dec_arg _ (dec_args_nonneg _ Hargs)) as Hnn.
  pose proof unit_pos. pose proof (low_eq (cx c) 0 ltac:(lia)) as Hlow.
  assert (p ≠ DecXchg) by (intros ->; by eapply Hx, list_elem_of_lookup_2).
  destruct p; simplify_eq/=.
  - (* fetch_add *)
    rewrite land_zero_flag_clear in * by lia. simpl in *. rewrite wrap_small by lia.
    constructor; simpl; [by apply Forall_insert|lia|].
    left. constructor; simpl; try lia. by apply not_elem_of_insert.
  - (* fetch_sub *)
    rewrite wrap_small in Hstep by lia.
    destruct (Z.eqb_spec (cx c) arg); simplify_eq/=;
      (constructor; simpl; [by apply Forall_insert|lia|]);
      left; constructor; simpl; try lia; eauto with cdrc; by apply not_elem_of_insert.
  - (* compare_exchange *)
    destruct (Z.eqb_spec (cx c) 0) as [E|E]; simplify_eq/=.
    + constructor; simpl; [by apply Forall_insert|lia|].
      right; right. constructor; simpl; rewrite ?zero_flag_eq; lia.
    + rewrite land_pending_clear in Hstep by lia. simplify_eq/=.
      constructor; simpl; [by apply Forall_insert|lia|].
      left. constructor; simpl; try lia. by apply not_elem_of_insert.
  - (* first read of load *)
    destruct (Z.eqb_spec (cx c) 0) as [E|E]; simplify_eq/=.
    + constructor; simpl; [by apply Forall_insert|lia|].
      left. constructor; simpl; try lia; [by apply not_elem_of_insert|].
      intros _. eapply elem_of_insert_keep; eauto.
    + constructor; simpl; [by apply Forall_insert|lia|].
      left. constructor; simpl; try lia. by apply not_elem_of_insert.
  - (* compare_exchange of load *)
    destruct (Z.eqb_spec (cx c) 0) as [E|E]; simplify_eq/=.
    + constructor; simpl; [by apply Forall_insert|lia|].
      right; left. constructor; simpl; rewrite ?flags_lor; try lia.
      exists DecCas. split; [|by left]. eapply elem_of_insert_keep; eauto.
    + constructor; simpl; [by apply Forall_insert|lia|].
      left. constructor; simpl; try lia. by apply not_elem_of_insert.
Qed.

(** Past zero no decrement is left to subtract, so the only changes are failed
    increments and the hand-over of the [true] result. *)
Lemma run_zero_pending c i p p' x' :
  counter_inv c → zero_pending c → pcs c !! i = Some p →
  thread_step p (cx c) = Some (p', x') → no_overflow p (cx c) →
  counter_inv (Config x' (<[i:=p']> (pcs c))
    (tokens c + match p, p' with IncAdd arg, Returned (RInc true) => arg | _, _ => 0 end)
    (trues c + match p' with Returned (RDec true) => 1 | _ => 0 end)).
Proof.
  intros [Hargs Htok _] [Hw1 Hsum Htr (r & Hr & Hres)] Hi Hstep Hno.
  pose proof (Forall_lookup_1 _ _ _ _ Hargs Hi) as Hp.
  pose proof (sumZ_insert dec_arg _ _ _ p' Hi) as Hs.
  pose proof (sumZ_lookup_le dec_arg _ _ _ (dec_args_nonneg _ Hargs) Hi) as Hle.
  pose proof unit_pos. pose proof (low_eq (cx c) 3 ltac:(lia)) as Hlow.
  assert (¬ resolver p → ∃ q, q ∈ <[i:=p']> (pcs c) ∧ resolver q) as Hkeep.
  { intros Hnr. exists r. split; [|done]. eapply elem_of_insert_keep; eauto. by intros ->. }
  destruct p; simplify_eq/=.
  - rewrite land_zero_flag_set in * by lia.
    replace (2 * P =? 0) with false in * by (symmetry; apply Z.eqb_neq; lia).
    rewrite wrap_small by lia. constructor; simpl; [by apply Forall_insert|lia|].
    right; left. constructor; simpl; try lia. apply Hkeep. by intros [|].
  - lia.
  - destruct (Z.eqb_spec (cx c) 0); [lia|]. rewrite land_pending_set in Hstep by lia.
    destruct (Z.eqb_spec P 0); [lia|]. simplify_eq/=.
    constructor; simpl; [by apply Forall_insert|lia|].
    right; left. constructor; simpl; try lia. exists DecXchg. split; [|by right].
    by eapply elem_of_insert_new.
  - rewrite land_pending_set in * by lia. destruct (Z.eqb_spec P 0); [lia|].
    simplify_eq/=. constructor; simpl; [by apply Forall_insert|lia|].
    right; right. constructor; simpl; rewrite ?zero_flag_eq; lia.
  - destruct (Z.eqb_spec (cx c) 0); [lia|]. simplify_eq/=.
    constructor; simpl; [by apply Forall_insert|lia|].
    right; left. constructor; simpl; try lia. apply Hkeep. by intros [|].
  - destruct (Z.eqb_spec (cx c) 0); [lia|]. simplify_eq/=.
    constructor; simpl; [by apply Forall_insert|lia|].
    right; left. constructor; simpl; try lia. apply Hkeep. by intros [|].
Qed.

Lemma run_dead c i p p' x' :
  counter_inv c → dead c → pcs c !! i = Some p →
  thread_step p (cx c) = Some (p', x') → no_overflow p (cx c) →
  counter_inv (Config x' (<[i:=p']> (pcs c))
    (tokens c + match p, p' with IncAdd arg, Returned (RInc true) => arg | _, _ => 0 end)
    (trues c + match p' with Returned (RDec true) => 1 | _ => 0 end)).
Proof.
  intros [Hargs Htok _] [Hw1 Hsum Htr] Hi Hstep Hno.
  pose proof (Forall_lookup_1 _ _ _ _ Hargs Hi) as Hp.
  pose proof (sumZ_insert dec_arg _ _ _ p' Hi) as Hs.
  pose proof (sumZ_lookup_le dec_arg _ _ _ (dec_args_nonneg _ Hargs) Hi) as Hle.
  pose proof unit_pos. pose proof (low_eq (cx c) 2 ltac:(lia)) as Hlow.
  assert (args_pos p' → dec_arg p' = 0 → dec_arg p = 0 → 2 * P ≤ x' < 3 * P →
          ∀ t k, t = 0 → k = 0%nat →
          counter_inv (Config x' (<[i:=p']> (pcs c)) (tokens c + t) (trues c + k)))
    as Hdead.
  { intros ???? t k -> ->. constructor; simpl; [by apply Forall_insert|lia|].
    right; right. constructor; simpl; lia. }
  destruct p; simplify_eq/=.
  - rewrite land_zero_flag_set in * by lia. rewrite wrap_small in * by lia.
    destruct (Z.eqb_spec (2 * P) 0); [lia|]. apply Hdead; done || lia.
  - lia.
  - destruct (Z.eqb_spec (cx c) 0); [lia|]. rewrite land_pending_clear in Hstep by lia.
    simplify_eq/=. apply Hdead; done || lia.
  - rewrite land_pending_clear in * by lia. rewrite zero_flag_eq in *. simpl in *.
    apply Hdead; done || lia.
  - destruct (Z.eqb_spec (cx c) 0); [lia|]. simplify_eq/=. apply Hdead; done || lia.
  - destruct (Z.eqb_spec (cx c) 0); [lia|]. simplify_eq/=. apply Hdead; done || lia.
Qed.

Lemma step_inv c c' : counter_inv c → step c c' → counter_inv c'.
Proof.
  intros Hinv Hstep. destruct Hstep as [c i arg Hi Harg|c i arg Hi Harg|c i Hi|c i p p' x' Hi Hp Hno|c i r Hi].
  - eapply call_inv; eauto; simpl; try lia; [by intros ? [-> | ->]|by destruct Hinv].
  - eapply call_inv; eauto; simpl; try lia. by intros ? [-> | ->].
  - eapply call_inv; eauto; simpl; try lia; [by intros ? [-> | ->]|by destruct Hinv].
  - destruct (inv_phase _ Hinv) as [?|[?|?]];
      eauto using run_live, run_zero_pending, run_dead.
  - eapply call_inv; eauto; simpl; try lia; [by intros ? [-> | ->]|by destruct Hinv].
Qed.

Lemma reachable_inv n threads c :
  0 < n < P → rtc step (initial n threads) c → counter_inv c.
Proof.
  intros Hn Hr. pose proof (initial_inv n threads Hn) as Hi.
  induction Hr; eauto using step_inv.
Qed.

(** A flagged word stays flagged, whatever the threads do. *)
Definition flagged (c : config) : Prop := 2 * P ≤ cx c < 4 * P.

Lemma inv_flagged c : counter_inv c → flagged c → zero_pending c ∨ dead c.
Proof. intros [_ _ [[]|[|]]] Hf; [unfold flagged in Hf; lia|by left|by right]. Qed.

Lemma zeroed_flagged c : zero_pending c ∨ dead c → flagged c.
Proof. pose proof unit_pos. intros [[]|[]]; unfold flagged; lia. Qed.

Lemma run_flagged c i p p' x' :
  counter_inv c → flagged c → pcs c !! i = Some p → no_overflow p (cx c) →
  thread_step p (cx c) = Some (p', x') →
  2 * P ≤ x' < 4 * P ∧ p' ≠ Returned (RInc true) ∧ ∀ v, p' = Returned (RLoad v) → v = 0.
Proof.
  intros Hinv Hf Hi Hno Hstep. pose proof unit_pos. pose proof Hf as Hf'. unfold flagged in Hf'.
  assert (low (cx c) = cx c - 2 * P ∨ low (cx c) = cx c - 3 * P) as Hlow.
  { destruct (inv_flagged c Hinv Hf) as [[]|[]]; [right|left]; apply low_eq; lia. }
  assert (low (cx c) = cx c - 3 * P ∨ cx c < 3 * P) as Hlow'.
  { destruct (inv_flagged c Hinv Hf) as [[]|[]]; [left|right]; [apply low_eq; lia|lia]. }
  destruct (Z.eqb_spec (cx c) 0) as [|Hx0]; [lia|].
  pose proof (land_zero_flag_set _ Hf') as Hzf.
  destruct (Z.eqb_spec (2 * P) 0) as [|H2P]; [lia|].
  pose proof (Forall_lookup_1 _ _ _ _ (inv_args _ Hinv) Hi) as Hp.
  destruct p; simplify_eq/=.
  - rewrite Hzf in *. rewrite wrap_small by lia.
    split; [lia|]. split; [|done]. intros [= E]. apply Z.eqb_eq in E. lia.
  - exfalso. pose proof (inv_args _ Hinv) as Hargs.
    pose proof (sumZ_lookup_le dec_arg _ _ _ (dec_args_nonneg _ Hargs) Hi).
    pose proof (Forall_lookup_1 _ _ _ _ Hargs Hi). pose proof (inv_tokens _ Hinv).
    simpl in *. destruct (inv_flagged c Hinv Hf) as [[]|[]]; lia.
  - rewrite (proj2 (Z.eqb_neq _ _) Hx0) in Hstep. case_match; simplify_eq; done.
  - rewrite zero_flag_eq. split; [lia|done].
  - rewrite (proj2 (Z.eqb_neq _ _) Hx0), Hzf, (proj2 (Z.eqb_neq _ _) H2P) in Hstep.
    simplify_eq/=. split; [lia|]. split; [done|congruence].
  - rewrite (proj2 (Z.eqb_neq _ _) Hx0), Hzf, (proj2 (Z.eqb_neq _ _) H2P) in Hstep.
    simplify_eq/=. split; [lia|]. split; [done|congruence].
Qed.

Lemma step_flagged c c' : counter_inv c → flagged c → step c c' → flagged c'.
Proof.
  intros Hinv Hf Hstep. destruct Hstep; try done.
  unfold flagged; simpl. eapply run_flagged; eauto.
Qed.

Lemma rtc_flagged c c' :
  counter_inv c → flagged c → rtc step c c' → counter_inv c' ∧ flagged c'.
Proof. intros ??. induction 1; eauto using step_inv, step_flagged. Qed.

(** A load that returns zero, and a decrement that returns [true], leave the
    zero flag set. *)
Lemma zero_result_flags c i p p' x' :
  counter_inv c → pcs c !! i = Some p → no_overflow p (cx c) →
  thread_step p (cx c) = Some (p', x') →
  p' = Returned (RLoad 0) ∨ p' = Returned (RDec true) → 2 * P ≤ x' < 4 * P.
Proof.
  intros Hinv Hi Hno Hstep Hp'. pose proof unit_pos. pose proof (inv_phase _ Hinv) as Hph.
  destruct Hph as [[Hx ?? ? ?]|Hz].
  - destruct p; simplify_eq/=; try by destruct Hp'.
    + case_match; destruct Hp'; simplify_eq.
    + destruct (Z.eqb_spec (cx c) 0); simplify_eq/=; [rewrite zero_flag_eq; lia|].
      case_match; destruct Hp'; simplify_eq.
    + rewrite zero_flag_eq. lia.
    + destruct (Z.eqb_spec (cx c) 0); simplify_eq/=; [by destruct Hp'|].
      rewrite land_zero_flag_clear in Hp' by lia. destruct Hp'; simplify_eq/=; lia.
    + destruct (Z.eqb_spec (cx c) 0); simplify_eq/=; [rewrite flags_lor; lia|].
      rewrite land_zero_flag_clear in Hp' by lia. destruct Hp'; simplify_eq/=; lia.
  - apply zeroed_flagged in Hz. by eapply run_flagged.
Qed.

(** The number of instructions a thread still has to execute. *)
Definition rank (p : pc) : nat :=
  match p with
  | Idle | Returned _ => 0
  | DecSub _ => 3
  | DecCas | LoadRead => 2
  | IncAdd _ | DecXchg | LoadCas => 1
  end.

Lemma thread_step_rank p x p' x' : thread_step p x = Some (p', x') → (rank p' < rank p)%nat.
Proof. destruct p; simpl; intros; repeat case_match; simplify_eq/=; lia. Qed.

Lemma thread_step_total p x :
  p = Idle ∨ (∃ r, p = Returned r) ∨ ∃ p' x', thread_step p x = Some (p', x') ∧ p' ≠ Idle.
Proof. destruct p; simpl; eauto; right; right; repeat case_match; by eexists _, _. Qed.

(** The instructions of one thread, the word before each being whatever the
    other threads left there. *)
Fixpoint run_interfered (xs : list Z) (p : pc) : pc :=
  match xs with
  | [] => p
  | x :: xs' => match thread_step p x with
                | Some (p', _) => run_interfered xs' p'
                | None => p
                end
  end.

Lemma run_interfered_returns xs p :
  p ≠ Idle → (rank p ≤ length xs)%nat → ∃ r, run_interfered xs p = Returned r.
Proof.
  revert p. induction xs as [|x xs IH]; intros p Hp Hr; simpl in *.
  - destruct p; simpl in *; try lia; eauto. done.
  - destruct (thread_step_total p x) as [?|[[r ->]|(p' & x' & Hs & Hp')]]; [done|by exists r|].
    rewrite Hs. apply IH; [done|]. apply thread_step_rank in Hs. lia.
Qed.

Lemma iterate_increment k x :
  Nat.iter k (λ y, snd (increment y 1)) (wrap w x) = wrap w (x + Z.of_nat k).
Proof.
  induction k as [|k IH]; [simpl; f_equal; lia|].
  rewrite Nat.iter_succ, IH. simpl. unfold wrap.
  rewrite Z.add_mod_idemp_l by (rewrite word_eq; pose proof unit_pos; lia). f_equal. lia.
Qed.

End StickyCounter.

(** ** The theorems *)

(** C23. Among all interleavings of any number of threads, at most one decrement
    ever returns [true]; and once one has, no client owns a reference and no
    decrement is still to be subtracted, so the thread that was told [true] is
    the only one that may dispose of the object. *)
Theorem sticky_true_unique w (Hw : 8 ≤ w) n threads c :
  0 < n ≤ max_value w → rtc (step w) (initial w n threads) c →
  (trues c ≤ 1)%nat ∧
  (trues c = 1%nat → tokens c = 0 ∧ ∀ arg, DecSub arg ∉ pcs c).
Proof.
  intros Hn Hr. assert (0 < n < 2 ^ (w - 2)) as Hn'
    by (unfold max_value in Hn; rewrite zero_pending_flag_eq in Hn; lia).
  pose proof (reachable_inv w Hw _ _ _ Hn' Hr) as [Hargs Htok Hph].
  split; [destruct Hph as [[]|[[]|[]]]; lia|].
  intros Ht. assert (tokens c + sumZ dec_arg (pcs c) = 0) as Hsum
    by (destruct Hph as [[]|[[]|[]]]; lia).
  pose proof (sumZ_nonneg _ _ (dec_args_nonneg _ Hargs)).
  split; [lia|]. intros arg [i Hi]%list_elem_of_lookup.
  pose proof (sumZ_lookup_le _ _ _ _ (dec_args_nonneg _ Hargs) Hi).
  pose proof (Forall_lookup_1 _ _ _ _ Hargs Hi). simpl in *. lia.
Qed.

(** C26. No zero is lost: when every thread is between operations and no client
    owns a reference, exactly one decrement returned [true] and the word
    carries the zero flag. *)
Theorem sticky_zero_reported w (Hw : 8 ≤ w) n threads c :
  0 < n ≤ max_value w → rtc (step w) (initial w n threads) c →
  tokens c = 0 → Forall (λ p, rank p = 0%nat) (pcs c) →
  trues c = 1%nat ∧ fst (load w (cx c)) = 0.
Proof.
  intros Hn Hr Ht Hq. assert (0 < n < 2 ^ (w - 2)) as Hn'
    by (unfold max_value in Hn; rewrite zero_pending_flag_eq in Hn; lia).
  pose proof (reachable_inv w Hw _ _ _ Hn' Hr) as [Hargs Htok Hph].
  assert (∀ p, p ∈ pcs c → rank p = 0%nat) as Hq' by (by rewrite <-Forall_forall).
  assert (sumZ dec_arg (pcs c) = 0) as Hs.
  { apply sumZ_zero. intros i p Hi. specialize (Hq' p (list_elem_of_lookup_2 _ _ _ Hi)).
    by destruct p. }
  destruct Hph as [[Hx Hsum _ _ Hz]|[[_ _ _ (p & Hp & [-> | ->])]|[]]].
  - specialize (Hq' DecCas (Hz ltac:(lia))). done.
  - by specialize (Hq' _ Hp).
  - by specialize (Hq' _ Hp).
  - split; [done|]. rewrite (load_rep w Hw _ 0); [done|]. by left.
Qed.

(** Zero is sticky: after a load returned zero, or a decrement returned
    [true], no increment succeeds and every load returns zero, in every
    continuation of the run by any threads. *)
Theorem sticky_zero_forever w (Hw : 8 ≤ w) n threads c i p p' x' c' j q q' y' :
  0 < n ≤ max_value w → rtc (step w) (initial w n threads) c →
  pcs c !! i = Some p → no_overflow w p (cx c) →
  thread_step w p (cx c) = Some (p', x') →
  p' = Returned (RLoad 0) ∨ p' = Returned (RDec true) →
  rtc (step w) (Config x' (<[i:=p']> (pcs c)) (tokens c)
                  (trues c + match p' with Returned (RDec true) => 1 | _ => 0 end)) c' →
  pcs c' !! j = Some q → no_overflow w q (cx c') →
  thread_step w q (cx c') = Some (q', y') →
  q' ≠ Returned (RInc true) ∧ ∀ v, q' = Returned (RLoad v) → v = 0.
Proof.
  intros Hn Hr Hi Hno Hstep Hp' Hr' Hj Hno' Hstep'.
  assert (0 < n < 2 ^ (w - 2)) as Hn'
    by (unfold max_value in Hn; rewrite zero_pending_flag_eq in Hn; lia).
  pose proof (reachable_inv w Hw _ _ _ Hn' Hr) as Hinv.
  set (c1 := Config x' _ _ _) in *.
  assert (counter_inv w c1) as Hinv1.
  { pose proof (step_run w c i p p' x' Hi Hstep Hno) as Hs. eapply step_inv in Hs; [|done..].
    assert (match p, p' with IncAdd arg, Returned (RInc true) => arg | _, _ => 0 end = 0) as E
      by (destruct Hp' as [-> | ->]; by destruct p).
    rewrite E, Z.add_0_r in Hs. exact Hs. }
  assert (flagged w c1) as Hf1.
  { exact (zero_result_flags w Hw c i p p' x' Hinv Hi Hno Hstep Hp'). }
  destruct (rtc_flagged w Hw _ _ Hinv1 Hf1 Hr') as [Hinv' Hf'].
  eapply (run_flagged w Hw); eauto.
Qed.

(** C28. The operations are wait-free: whatever the other threads do to the word
    between its instructions, a thread inside an operation returns after at
    most three instructions of its own. *)
Theorem sticky_wait_free w (p : pc) (x1 x2 x3 : Z) :
  p ≠ Idle → ∃ r, run_interfered w [x1; x2; x3] p = Returned r.
Proof.
  intros Hp. apply run_interfered_returns; [done|]. destruct p; simpl; lia.
Qed.

(** Without interference the instruction sequences compute the functional
    descriptions of the operations. *)
Theorem sticky_run_alone w x arg :
  run_alone w 3 (IncAdd arg) x =
    (Returned (RInc (fst (increment w x arg))), snd (increment w x arg)) ∧
  run_alone w 3 (DecSub arg) x =
    (Returned (RDec (fst (decrement w x arg))), snd (decrement w x arg)) ∧
  run_alone w 3 LoadRead x = (Returned (RLoad (fst (load w x))), snd (load w x)).
Proof.
  split_and!; simpl.
  - done.
  - unfold decrement. destruct (x =? arg); [|done]. simpl.
    destruct (wrap w (x - arg) =? 0); [done|].
    destruct (Z.land (wrap w (x - arg)) (zero_pending_flag w) =? 0) eqn:E; simpl; [done|].
    by rewrite E.
  - unfold load. destruct (x =? 0) eqn:E; simpl; rewrite ?E; [|done].
    by apply Z.eqb_eq in E as ->.
Qed.

(** C29. Between operations the word stands for a natural number that cannot
    leave zero: [increment] adds and returns [true] unless the value is zero,
    [decrement] subtracts and returns [true] exactly when it reaches zero,
    [load] returns the value. *)
Theorem sticky_refines w (Hw : 8 ≤ w) x n arg :
  sticky_rep w x n →
  load w x = (n, x) ∧
  (can_add w x arg →
     fst (increment w x arg) = negb (n =? 0) ∧
     sticky_rep w (snd (increment w x arg)) (if n =? 0 then 0 else n + arg)) ∧
  (0 < arg ≤ n →
     fst (decrement w x arg) = (n =? arg) ∧
     sticky_rep w (snd (decrement w x arg)) (n - arg)).
Proof. auto using load_rep, increment_rep, decrement_rep. Qed.

(** C30. The stickiness is bounded by the width: a failed increment still adds to
    the word, so after [2^(w-1)] of them the zero flag is gone, the word is
    [0], and the next increment of the dead counter succeeds. *)
Theorem sticky_failed_increments_revive w (Hw : 8 ≤ w) :
  let y := Nat.iter (Z.to_nat (2 ^ (w - 1))) (λ x, snd (increment w x 1)) (init w 0) in
  y = 0 ∧ fst (increment w y 1) = true.
Proof.
  cbv zeta. assert (init w 0 = wrap w (init w 0)) as ->.
  { unfold init; simpl. rewrite zero_flag_eq by done. rewrite wrap_small; [done..|].
    pose proof (unit_pos w Hw). lia. }
  rewrite iterate_increment by done.
  replace (init w 0 + Z.of_nat (Z.to_nat (2 ^ (w - 1)))) with (1 * 2 ^ w).
  - unfold wrap. rewrite Z_mod_mult. done.
  - rewrite Z2Nat.id by lia. unfold init, zero_flag; simpl. rewrite Z.shiftl_1_l.
    replace w with (Z.succ (w - 1)) at 1 by lia. rewrite Z.pow_succ_r by lia. lia.
Qed.

(** ** Witnesses: an 8-bit counter, two threads *)

(** One thread decrements to zero while the other is about to load. *)
Lemma run_to_zero :
  rtc (step 8) (initial 8 1 2) (Config 128 [Returned (RDec true); Idle] 0 1).
Proof.
  eapply rtc_l; [apply (step_call_decrement 8 _ 0 1); [reflexivity|simpl; lia]|].
  eapply rtc_l; [apply (step_run 8 _ 0 (DecSub 1) DecCas 0); [reflexivity..|exact I]|].
  eapply rtc_l; [apply (step_run 8 _ 0 DecCas (Returned (RDec true)) 128); [reflexivity..|exact I]|].
  apply rtc_refl.
Defined.

Lemma sticky_true_unique_witness :
  (1 ≤ 1)%nat ∧ (1%nat = 1%nat → 0 = 0 ∧ ∀ arg, DecSub arg ∉ [Returned (RDec true); Idle]).
Proof.
  exact (sticky_true_unique 8 ltac:(lia) 1 2 _ ltac:(split; [lia|by vm_compute]) run_to_zero).
Defined.

Lemma sticky_zero_reported_witness : 1%nat = 1%nat ∧ fst (load 8 128) = 0.
Proof.
  exact (sticky_zero_reported 8 ltac:(lia) 1 2 _ ltac:(split; [lia|by vm_compute]) run_to_zero
           ltac:(reflexivity) ltac:(repeat constructor)).
Defined.

(** The second thread tries to increment the dead counter. *)
Lemma sticky_zero_forever_witness :
  Returned (RInc false) ≠ Returned (RInc true) ∧
  ∀ v, Returned (RInc false) = Returned (RLoad v) → v = 0.
Proof.
  apply (sticky_zero_forever 8 ltac:(lia) 1 2
           (Config 0 [DecCas; Idle] 0 0) 0 DecCas (Returned (RDec true)) 128
           (Config 128 [Returned (RDec true); IncAdd 1] 0 1) 1 (IncAdd 1) _ 129).
  - split; [lia|by vm_compute].
  - eapply rtc_l; [apply (step_call_decrement 8 _ 0 1); [reflexivity|simpl; lia]|].
    eapply rtc_l; [apply (step_run 8 _ 0 (DecSub 1) DecCas 0); [reflexivity..|exact I]|].
    apply rtc_refl.
  - reflexivity.
  - exact I.
  - reflexivity.
  - by right.
  - eapply rtc_l; [apply (step_call_increment 8 _ 1 1); [reflexivity|simpl; lia]|].
    apply rtc_refl.
  - reflexivity.
  - by vm_compute.
  - reflexivity.
Defined.

Lemma sticky_wait_free_witness : ∃ r, run_interfered 8 [1; 0; 7] (DecSub 1) = Returned r.
Proof. by apply (sticky_wait_free 8 (DecSub 1) 1 0 7). Defined.

Lemma sticky_refines_witness :
  load 8 5 = (5, 5) ∧
  (can_add 8 5 2 → fst (increment 8 5 2) = true ∧ sticky_rep 8 (snd (increment 8 5 2)) 7) ∧
  (0 < 2 ≤ 5 → fst (decrement 8 5 2) = false ∧ sticky_rep 8 (snd (decrement 8 5 2)) 3).
Proof. apply (sticky_refines 8 ltac:(lia) 5 5 2). right. split; [split; by vm_compute|done]. Defined.

Lemma sticky_failed_increments_revive_witness :
  Nat.iter 128 (λ x, snd (increment 8 x 1)) (init 8 0) = 0.
Proof. exact (proj1 (sticky_failed_increments_revive 8 ltac:(lia))). Defined.
