(* ===== verification/CountedObject.v ===== *)
(** * Reference-counted objects
    (src/include/cdrc/internal/counted_object.h)

    A [counted_object<T>] is the managed value with a strong and a weak
    [StickyCounter<uint32_t>].  The managed type [T] is the client's; the model
    keeps what the library can see of it: the value and the smart pointers among
    its members, which its destructor destroys.  The pure operations on the
    object are here; [dispose] and [release_refs], which run the destructor of
    [T], are in [MemoryManager]. *)

From S2P Require Import Prelude StickyCounter.
Local Open Scope Z_scope.

(** The smart-pointer members a [T] can have, each with the pointer word it
    holds (a [counted_ptr_t], mark bits included). *)
Inductive member :=
  | MRc (p : Z)         (* rc_ptr *)
  | MWeak (p : Z)       (* weak_ptr *)
  | MAtomicRc (p : Z)   (* atomic_rc_ptr *)
  | MAtomicWeak (p : Z) (* atomic_weak_ptr *).

#[export] Instance member_eq_dec : EqDecision member.
Proof. solve_decision. Defined.

Definition member_word (m : member) : Z :=
  match m with MRc p | MWeak p | MAtomicRc p | MAtomicWeak p => p end.

(** A value of type [T]. *)
Record payload (V : Type) := Payload { data : V; members : list member }.
Arguments Payload {V} _ _.
Arguments data {V} _.
Arguments members {V} _.

(** [storage] is [None] once the destructor of the managed value has started.
    [birthTS] is the field that [stamped_counted_object] of
    acquire_retire_ibr.h adds; the other backends leave it [0]. *)
Record counted_object (V : Type) := CountedObject {
  storage : option (payload V);
  ref_cnt : Z;
  weak_cnt : Z;
  disposed : bool;
  birthTS : Z
}.
Arguments CountedObject {V} _ _ _ _ _.
Arguments storage {V} _.
Arguments ref_cnt {V} _.
Arguments weak_cnt {V} _.
Arguments disposed {V} _.
Arguments birthTS {V} _.

(** [uint32_t] *)
Definition cnt_width : Z := 32.

Section counted_object.
  Context {V : Type}.
  Implicit Types o : counted_object V.

Definition set_storage (st : option (payload V)) o : counted_object V :=
  CountedObject st (ref_cnt o) (weak_cnt o) (disposed o) (birthTS o).
Definition set_ref_cnt (x : Z) o : counted_object V :=
  CountedObject (storage o) x (weak_cnt o) (disposed o) (birthTS o).
Definition set_weak_cnt (x : Z) o : counted_object V :=
  CountedObject (storage o) (ref_cnt o) x (disposed o) (birthTS o).
Definition set_disposed (b : bool) o : counted_object V :=
  CountedObject (storage o) (ref_cnt o) (weak_cnt o) b (birthTS o).

(** The constructor: both counts are one. *)
Definition new_counted_object (ts : Z) (v : payload V) : counted_object V :=
  CountedObject (Some v) (init cnt_width 1) (init cnt_width 1) false ts.

Definition get_use_count o : Z * counted_object V :=
  let '(v, x) := load cnt_width (ref_cnt o) in (v, set_ref_cnt x o).

Definition get_weak_count o : Z * counted_object V :=
  let '(v, x) := load cnt_width (weak_cnt o) in (v, set_weak_cnt x o).

Definition add_refs (count : Z) o : bool * counted_object V :=
  let '(b, x) := increment cnt_width (ref_cnt o) (wrap cnt_width count) in
  (b, set_ref_cnt x o).

(** The [ref_cnt.decrement] at the head of [release_refs]. *)
Definition sub_refs (count : Z) o : bool * counted_object V :=
  let '(b, x) := decrement cnt_width (ref_cnt o) (wrap cnt_width count) in
  (b, set_ref_cnt x o).

Definition add_weak_refs (count : Z) o : bool * counted_object V :=
  let '(b, x) := increment cnt_width (weak_cnt o) (wrap cnt_width count) in
  (b, set_weak_cnt x o).

Definition release_weak_refs (count : Z) o : bool * counted_object V :=
  let '(b, x) := decrement cnt_width (weak_cnt o) (wrap cnt_width count) in
  (b, set_weak_cnt x o).

End counted_object.

(** What [release_refs] tells its caller to do. *)
Inductive EjectAction := nothing | delay | destroy_now.

(** ** The counters as numbers *)

Section counts.
  Context {V : Type}.
  Implicit Types o : counted_object V.

(** [strong_is o n]: the strong count of [o] is [n]; likewise [weak_is]. *)
Definition strong_is o (n : nat) : Prop := sticky_rep cnt_width (ref_cnt o) (Z.of_nat n).
Definition weak_is o (n : nat) : Prop := sticky_rep cnt_width (weak_cnt o) (Z.of_nat n).

(** There is room for one more reference. *)
Definition strong_room o : Prop := can_add cnt_width (ref_cnt o) 1.
Definition weak_room o : Prop := can_add cnt_width (weak_cnt o) 1.

Lemma cnt_width_ok : 8 ≤ cnt_width.
Proof. done. Qed.

Lemma of_nat_succ_eqb_1 n : (Z.of_nat (S n) =? 1) = (n =? 0)%nat.
Proof. destruct n as [|n]; [done|]. rewrite (proj2 (Z.eqb_neq _ _)); [done|lia]. Qed.

Lemma strong_new ts (v : payload V) : strong_is (new_counted_object ts v) 1.
Proof. right. split; [split; by vm_compute|done]. Qed.

Lemma weak_new ts (v : payload V) : weak_is (new_counted_object ts v) 1.
Proof. right. split; [split; by vm_compute|done]. Qed.

Lemma get_use_count_is o n : strong_is o n → get_use_count o = (Z.of_nat n, o).
Proof.
  intros H. unfold get_use_count. rewrite (load_rep _ cnt_width_ok _ _ H). by destruct o.
Qed.

Lemma get_weak_count_is o n : weak_is o n → get_weak_count o = (Z.of_nat n, o).
Proof.
  intros H. unfold get_weak_count. rewrite (load_rep _ cnt_width_ok _ _ H). by destruct o.
Qed.

Lemma add_refs_is o n :
  strong_is o n → strong_room o →
  ∃ x, add_refs 1 o = (negb (n =? 0)%nat, set_ref_cnt x o) ∧
       strong_is (set_ref_cnt x o) (if (n =? 0)%nat then 0 else S n).
Proof.
  intros H Hr. destruct (increment_rep _ cnt_width_ok _ _ 1 H Hr) as [Hb Hx].
  unfold add_refs. change (wrap cnt_width 1) with 1.
  destruct (increment _ _ _) as [b x]; simpl in *. exists x. subst b. destruct n as [|n]; simpl in *; [done|].
  split; [done|]. unfold strong_is; simpl.
  replace (Z.of_nat (S (S n))) with (Z.of_nat (S n) + 1) by lia. exact Hx.
Qed.

Lemma add_weak_refs_is o n :
  weak_is o n → weak_room o →
  ∃ x, add_weak_refs 1 o = (negb (n =? 0)%nat, set_weak_cnt x o) ∧
       weak_is (set_weak_cnt x o) (if (n =? 0)%nat then 0 else S n).
Proof.
  intros H Hr. destruct (increment_rep _ cnt_width_ok _ _ 1 H Hr) as [Hb Hx].
  unfold add_weak_refs. change (wrap cnt_width 1) with 1.
  destruct (increment _ _ _) as [b x]; simpl in *. exists x. subst b. destruct n as [|n]; simpl in *; [done|].
  split; [done|]. unfold weak_is; simpl.
  replace (Z.of_nat (S (S n))) with (Z.of_nat (S n) + 1) by lia. exact Hx.
Qed.

Lemma sub_refs_is o n :
  strong_is o (S n) →
  ∃ x, sub_refs 1 o = ((n =? 0)%nat, set_ref_cnt x o) ∧ strong_is (set_ref_cnt x o) n.
Proof.
  intros H. destruct (decrement_rep _ cnt_width_ok _ _ 1 H ltac:(lia)) as [Hb Hx].
  rewrite of_nat_succ_eqb_1 in Hb.
  unfold sub_refs. change (wrap cnt_width 1) with 1.
  destruct (decrement _ _ _) as [b x]; simpl in *. exists x. subst b. split.
  - done.
  - unfold strong_is; simpl. by replace (Z.of_nat n) with (Z.of_nat (S n) - 1) by lia.
Qed.

Lemma release_weak_refs_is o n :
  weak_is o (S n) →
  ∃ x, release_weak_refs 1 o = ((n =? 0)%nat, set_weak_cnt x o) ∧ weak_is (set_weak_cnt x o) n.
Proof.
  intros H. destruct (decrement_rep _ cnt_width_ok _ _ 1 H ltac:(lia)) as [Hb Hx].
  rewrite of_nat_succ_eqb_1 in Hb.
  unfold release_weak_refs. change (wrap cnt_width 1) with 1.
  destruct (decrement _ _ _) as [b x]; simpl in *. exists x. subst b. split.
  - done.
  - unfold weak_is; simpl. by replace (Z.of_nat n) with (Z.of_nat (S n) - 1) by lia.
Qed.

End counts.
