(* ===== verification/MemoryManager.v ===== *)
(** * The memory manager
    (src/include/cdrc/internal/memory_manager_base.h, the part of
    src/include/cdrc/internal/counted_object.h that runs destructors, and the
    deferred-destruct lists that acquire_retire.h, acquire_retire_ebr.h and
    acquire_retire_ibr.h share)

    [memory_manager_base<T, Derived>] and its derived class call each other: a
    decrement that reaches zero retires or destroys, destroying a value destroys
    its smart-pointer members, which decrement again, and [retire] ejects what
    is no longer protected, which decrements again.  The model keeps the
    structure of the code: the base functions take the derived class's
    operations as a record [derived], [retire] takes the base's [eject], and
    [manager n] ties the knot to nesting depth [n]. *)

From S2P Require Import Prelude StickyCounter CountedObject.
Local Open Scope Z_scope.

Inductive RetireType :=
  | decrement_strong_count
  | decrement_weak_count
  | retire_dispose.

#[export] Instance RetireType_eq_dec : EqDecision RetireType.
Proof. solve_decision. Defined.

Definition num_retire_types : nat := 3.

(** A pointer policy ([default_pointer_policy] of fwd_decl.h,
    [marked_ptr_policy] of marked_arc_ptr.h): the conversion of a
    [counted_ptr_t] to the address of the object. *)
Class Policy := {
  raw : Z → Z;
  raw_aligned : ∀ p, p mod 4 = 0 → raw p = p;
  raw_idemp : ∀ p, raw (raw p) = raw p
}.

(** [operator new]: an address that is not in use, not null and aligned.
    Addresses may be reused. *)
Class Allocator := {
  malloc : gset Z → Z;
  malloc_fresh : ∀ used, malloc used ∉ used;
  malloc_nonnull : ∀ used, malloc used ≠ 0;
  malloc_aligned : ∀ used, malloc used mod 4 = 0
}.

(** ** The state

    [heap] is the memory that currently holds objects; [cells] are the atomic
    pointers that live outside the managed objects (the roots of the client's
    data structures); the rest is the memory manager singleton, of which
    [announcements] is the part that depends on the reclamation scheme. *)
Record state (V X En : Type) := State {
  heap : gmap Z (counted_object V);
  cells : gmap nat member;
  num_allocated : list Z;
  announcements : X;
  in_progress : list bool;
  deferred_destructs : list (list En);
  amortized_work : list Z
}.
Arguments State {V X En} _ _ _ _ _ _ _.
Arguments heap {V X En} _.
Arguments cells {V X En} _.
Arguments num_allocated {V X En} _.
Arguments announcements {V X En} _.
Arguments in_progress {V X En} _.
Arguments deferred_destructs {V X En} _.
Arguments amortized_work {V X En} _.

(** A reclamation scheme: the entries of the deferred lists, how [retire] makes
    one ([make_entry]), what the eject loop reads from the announcements before
    it goes through the list ([scan]), and its verdict on an entry ([check]:
    [true] keeps the entry), with the scan result threaded through. *)
Class Scheme (V X En : Type) := {
  scan_t : Type;
  e_obj : En → Z;
  e_type : En → RetireType;
  make_entry : X → gmap Z (counted_object V) → Z → RetireType → result En;
  scan : X → scan_t;
  check : scan_t → En → bool * scan_t;
  eject_delay : Z
}.

Section memory_manager.
  Context {V X En : Type} `{!Policy} `{!Scheme V X En}.

Local Abbreviation M := (M (state V X En)).

Definition set_heap (h : gmap Z (counted_object V)) (s : state V X En) : state V X En :=
  State h (cells s) (num_allocated s) (announcements s) (in_progress s)
    (deferred_destructs s) (amortized_work s).
Definition set_cells (c : gmap nat member) (s : state V X En) : state V X En :=
  State (heap s) c (num_allocated s) (announcements s) (in_progress s)
    (deferred_destructs s) (amortized_work s).
Definition set_num_allocated (l : list Z) (s : state V X En) : state V X En :=
  State (heap s) (cells s) l (announcements s) (in_progress s)
    (deferred_destructs s) (amortized_work s).
Definition set_announcements (x : X) (s : state V X En) : state V X En :=
  State (heap s) (cells s) (num_allocated s) x (in_progress s)
    (deferred_destructs s) (amortized_work s).
Definition set_in_progress (l : list bool) (s : state V X En) : state V X En :=
  State (heap s) (cells s) (num_allocated s) (announcements s) l
    (deferred_destructs s) (amortized_work s).
Definition set_deferred (l : list (list En)) (s : state V X En) : state V X En :=
  State (heap s) (cells s) (num_allocated s) (announcements s) (in_progress s)
    l (amortized_work s).
Definition set_work (l : list Z) (s : state V X En) : state V X En :=
  State (heap s) (cells s) (num_allocated s) (announcements s) (in_progress s)
    (deferred_destructs s) l.

(** ** Access to objects through a pointer *)

Definition deref (p : Z) : M (counted_object V) :=
  h ← gets heap;
  if p =? 0 then fail NullDereference
  else match h !! p with Some o => mret o | None => fail UseAfterFree end.

Definition set_obj (p : Z) (o : counted_object V) : M unit :=
  modify (λ s, set_heap (<[p:=o]> (heap s)) s).

(** [ptr->f()] for an operation [f] of the object. *)
Definition with_obj {A} (p : Z) (f : counted_object V → A * counted_object V) : M A :=
  o ← deref p;
  let '(a, o') := f o in
  set_obj p o';;
  mret a.

(** ** Allocation counts *)

Definition decrement_allocations (tid : nat) : M unit :=
  l ← gets num_allocated;
  n ← at_ l tid;
  modify (set_num_allocated (<[tid := n - 1]> l)).

Definition increment_allocations (tid : nat) : M unit :=
  l ← gets num_allocated;
  n ← at_ l tid;
  modify (set_num_allocated (<[tid := n + 1]> l)).

(** The sum is a [size_t]. *)
Definition currently_allocated : M Z :=
  l ← gets num_allocated;
  mret (foldl (λ total n, wrap 64 (total + n)) 0 l).

(** [delete p]: the destructor of [counted_object] asserts that the value was
    disposed of. *)
Definition delete_object (tid : nat) (p : Z) : M unit :=
  o ← deref p;
  assert_ (disposed o);;
  modify (λ s, set_heap (delete p (heap s)) s);;
  decrement_allocations tid.

(** [new counted_object_t(args...)] *)
Definition new_object `{!Allocator} (ts : Z) (v : payload V) : M Z :=
  h ← gets heap;
  let p := malloc (dom h) in
  set_obj p (new_counted_object ts v);;
  mret p.

(** ** The base class *)

(** What the base class calls in the derived class, and the destructor of the
    managed values. *)
Record derived := Derived {
  d_retire : nat → Z → RetireType → M unit;
  d_destruct : nat → list member → M unit
}.

Section base.
  Context (self : derived) (tid : nat).

(** [counted_object::dispose] *)
Definition dispose_object (p : Z) : M unit :=
  o ← deref p;
  match storage o with
  | None => fail DestroyedObject
  | Some v =>
      set_obj p (set_storage None o);;
      d_destruct self tid (members v);;
      with_obj p (λ o, (tt, set_disposed true o))
  end.

(** [counted_object::release_refs] *)
Definition release_refs (p : Z) (count : Z) : M EjectAction :=
  b ← with_obj p (sub_refs count);
  if b : bool then
    wc ← with_obj p get_weak_count;
    if wc =? 1 then
      dispose_object p;;
      mret destroy_now
    else mret delay
  else mret nothing.

Definition destroy (p : Z) : M unit :=
  n ← with_obj p get_use_count;
  assert_ (n =? 0);;
  o ← deref p;
  assert_ (disposed o);;
  delete_object tid p.

Definition dispose (p : Z) : M unit :=
  n ← with_obj p get_use_count;
  assert_ (n =? 0);;
  dispose_object p;;
  b ← with_obj p (release_weak_refs 1);
  when b (destroy p).

Definition increment_ref_cnt (p : Z) : M bool :=
  assert_ (negb (p =? 0));;
  with_obj p (add_refs 1).

Definition increment_weak_cnt (p : Z) : M bool :=
  assert_ (negb (p =? 0));;
  with_obj p (add_weak_refs 1).

Definition decrement_ref_cnt (p : Z) : M unit :=
  assert_ (negb (p =? 0));;
  n ← with_obj p get_use_count;
  assert_ (1 <=? n);;
  r ← release_refs p 1;
  match r with
  | destroy_now => destroy p
  | delay => d_retire self tid p retire_dispose
  | nothing => mret tt
  end.

Definition decrement_weak_cnt (p : Z) : M unit :=
  assert_ (negb (p =? 0));;
  n ← with_obj p get_weak_count;
  assert_ (1 <=? n);;
  b ← with_obj p (release_weak_refs 1);
  when b (destroy p).

Definition delayed_decrement_ref_cnt (p : Z) : M unit :=
  n ← with_obj p get_use_count;
  assert_ (1 <=? n);;
  d_retire self tid p decrement_strong_count.

Definition delayed_decrement_weak_cnt (p : Z) : M unit :=
  n ← with_obj p get_weak_count;
  assert_ (1 <=? n);;
  d_retire self tid p decrement_weak_count.

Definition eject (p : Z) (type : RetireType) : M unit :=
  assert_ (negb (p =? 0));;
  match type with
  | decrement_strong_count => decrement_ref_cnt p
  | decrement_weak_count => decrement_weak_cnt p
  | retire_dispose => dispose p
  end.

(** The destructors of the four pointer types, which destroying a value of type
    [T] runs on its members: [~rc_ptr] and [~weak_ptr] decrement at once,
    [~atomic_rc_ptr] and [~atomic_weak_ptr] defer. *)
Definition destruct_member (m : member) : M unit :=
  match m with
  | MRc p => when (negb (raw p =? 0)) (decrement_ref_cnt (raw p))
  | MWeak p => when (negb (raw p =? 0)) (decrement_weak_cnt (raw p))
  | MAtomicRc p => when (negb (raw p =? 0)) (delayed_decrement_ref_cnt (raw p))
  | MAtomicWeak p => when (negb (raw p =? 0)) (delayed_decrement_weak_cnt (raw p))
  end.

(** Members are destroyed in the reverse of their declaration order. *)
Definition destruct_members (ms : list member) : M unit :=
  for_each destruct_member (reverse ms).

End base.

(** ** The deferred lists *)

Definition push_deferred (tid : nat) (e : En) : M unit :=
  d ← gets deferred_destructs;
  l ← at_ d tid;
  modify (set_deferred (<[tid := l ++ [e]]> d)).

(** [erase(remove_if(...))] with the predicate that ejects what the scan does
    not protect: the kept entries, in order. *)
Fixpoint remove_applied (ejectf : Z → RetireType → M unit) (sc : scan_t)
    (l : list En) : M (list En) :=
  match l with
  | [] => mret []
  | x :: l' =>
      let '(keep, sc') := check sc x in
      if keep : bool then
        kept ← remove_applied ejectf sc' l';
        mret (x :: kept)
      else
        ejectf (e_obj x) (e_type x);;
        remove_applied ejectf sc' l'
  end.

(** At least 30 deferred actions before an attempt to eject. *)
Definition threshold (num_threads : nat) : Z :=
  Z.max 30 (eject_delay * Z.of_nat num_threads).

(** The [while] loop of [work_toward_deferred_decrements]. *)
Fixpoint eject_loop (ejectf : Z → RetireType → M unit) (fuel : nat) (tid : nat) : M unit :=
  match fuel with
  | O => fail OutOfFuel
  | S fuel' =>
      ip ← gets in_progress;
      busy ← at_ ip tid;
      work ← gets amortized_work;
      k ← at_ work tid;
      if negb busy && (threshold (length work) <=? k) then
        modify (set_work (<[tid := 0]> work));;
        d ← gets deferred_destructs;
        deferred ← at_ d tid;
        if (length deferred =? 0)%nat then mret tt
        else
          modify (set_in_progress (<[tid := true]> ip));;
          modify (set_deferred (<[tid := []]> d));;
          sc ← gets (λ s, scan (announcements s));
          kept ← remove_applied ejectf sc deferred;
          d' ← gets deferred_destructs;
          later ← at_ d' tid;
          modify (set_deferred (<[tid := later ++ kept]> d'));;
          ip' ← gets in_progress;
          modify (set_in_progress (<[tid := false]> ip'));;
          eject_loop ejectf fuel' tid
      else mret tt
  end.

(** [amortized_work] is an [unsigned int]. *)
Definition work_toward_deferred_decrements (ejectf : Z → RetireType → M unit)
    (fuel : nat) (tid : nat) (work : Z) : M unit :=
  l ← gets amortized_work;
  k ← at_ l tid;
  modify (set_work (<[tid := wrap 32 (k + work)]> l));;
  eject_loop ejectf fuel tid.

Definition lift_result {A} (r : result A) : M A :=
  match r with Ok a => mret a | Err e => fail e end.

Definition retire (ejectf : Z → RetireType → M unit) (fuel : nat)
    (tid : nat) (p : Z) (type : RetireType) : M unit :=
  s ← get;
  e ← lift_result (make_entry (announcements s) (heap s) p type);
  push_deferred tid e;;
  work_toward_deferred_decrements ejectf fuel tid 1.

(** The loop of the destructor [~acquire_retire] (and of the EBR and IBR ones):
    until every list is empty, move all the lists into one and eject it. *)
Fixpoint shutdown_loop (ejectf : Z → RetireType → M unit) (fuel : nat) : M unit :=
  match fuel with
  | O => fail OutOfFuel
  | S fuel' =>
      d ← gets deferred_destructs;
      if existsb (λ v, negb (length v =? 0)%nat) d then
        let destructs := concat d in
        modify (set_deferred (replicate (length d) []));;
        for_each (λ x, ejectf (e_obj x) (e_type x)) destructs;;
        shutdown_loop ejectf fuel'
      else mret tt
  end.

Definition shutdown (ejectf : Z → RetireType → M unit) (fuel : nat) : M unit :=
  ip ← gets in_progress;
  modify (set_in_progress (replicate (length ip) true));;
  shutdown_loop ejectf fuel.

(** ** The whole manager, to nesting depth [n] *)

Fixpoint manager (n : nat) : derived :=
  match n with
  | O => Derived (λ _ _ _, fail OutOfFuel) (λ _ _, fail OutOfFuel)
  | S n' =>
      Derived (λ tid, retire (eject (manager n') tid) (S n) tid)
              (destruct_members (manager n'))
  end.

End memory_manager.

Arguments derived V X En : clear implicits.
