(* ===== verification/Accounting.v ===== *)
(** * Accounting of references

    The invariant that makes the memory manager correct.  Every reference to an
    object is an _obligation_ somebody has: a smart pointer that will decrement
    it, an atomic pointer that will retire it, an entry of a deferred list.  The
    strong and weak counts of every object are the numbers of obligations on it,
    and an object is in memory exactly while something is left to be done with
    it.  On top of the counts, [snaps_ok] states what the announcements of the
    reclamation scheme add: for every snapshot in use there is a deferred
    obligation that the eject loop will not apply. *)

From S2P Require Import Prelude StickyCounter CountedObject MemoryManager.

(** An obligation on the object at an address.  [OStrong] and [OWeak] are the
    references of [rc_ptr] and [weak_ptr] (decremented at once), [ODispose] an
    object whose strong count is zero and whose value is about to be destroyed,
    [ODestroying] one whose value is being destroyed, [OPend] the reference of
    an atomic pointer, which goes through [retire], and [OEntry] an entry of a
    deferred list. *)
Inductive obl (En : Type) :=
  | OStrong (p : Z)
  | OWeak (p : Z)
  | ODispose (p : Z)
  | ODestroying (p : Z)
  | OPend (p : Z) (ty : RetireType)
  | OEntry (e : En).
Arguments OStrong {En} _.
Arguments OWeak {En} _.
Arguments ODispose {En} _.
Arguments ODestroying {En} _.
Arguments OPend {En} _ _.
Arguments OEntry {En} _.

(** The entries that going through a list keeps. *)
Fixpoint kept_of {V X En : Type} `{!Scheme V X En} (sc : scan_t) (l : list En) : list En :=
  match l with
  | [] => []
  | x :: l' =>
      let '(keep, sc') := check sc x in
      if keep : bool then x :: kept_of sc' l' else kept_of sc' l'
  end.

(** What a reclamation scheme promises.  A snapshot is protected by an
    announcement ([snap_ok]), which pins some of the entries for its object
    ([pinned]): a new entry is pinned by every announcement in force for its
    object, and going through a list keeps a pinned entry of each action for
    which there was one. *)
Class SchemeLaws (V X En : Type) `{!Scheme V X En} := {
  snap : Type;
  snap_ptr : snap → Z;
  snap_ok : X → snap → Prop;
  snap_born : snap → Z → Prop;
  born_in : X → Z → Prop;
  pinned : X → snap → En → bool;
  make_entry_ok x (h : gmap Z (counted_object V)) p o ty :
    h !! p = Some o →
    ∃ e, make_entry x h p ty = Ok e ∧ e_obj e = p ∧ e_type e = ty ∧
         ∀ t, snap_ok x t → snap_ptr t = p → snap_born t (birthTS o) → pinned x t e = true;
  make_entry_ext x (h h' : gmap Z (counted_object V)) p ty :
    birthTS <$> h !! p = birthTS <$> h' !! p → make_entry x h p ty = make_entry x h' p ty;
  scan_keeps x t ty (l : list En) e :
    snap_ok x t → e ∈ l → e_obj e = snap_ptr t → e_type e = ty → pinned x t e = true →
    ∃ e', e' ∈ kept_of (scan x) l ∧ e_obj e' = snap_ptr t ∧ e_type e' = ty ∧
          pinned x t e' = true
}.

(** Solves the condition of [snaps_ok_ext] on the birth timestamps. *)
Ltac births :=
  let p := fresh in let o := fresh in let H := fresh in
  intros p o H; left; simpl in H; rewrite ?lookup_insert, ?lookup_delete in H;
  repeat case_decide; simplify_eq; solve [eauto].

Section accounting.
  Context {V X En : Type} `{Pol : !Policy} `{Sch : !Scheme V X En} `{Laws : !SchemeLaws V X En}.
  Local Abbreviation st := (state V X En).
  Local Abbreviation obl := (obl En).

(** The action an obligation will eventually perform. *)
Definition target (o : obl) : option (Z * RetireType) :=
  match o with
  | OStrong p => Some (p, decrement_strong_count)
  | OWeak p => Some (p, decrement_weak_count)
  | ODispose p => Some (p, retire_dispose)
  | ODestroying _ => None
  | OPend p ty => Some (p, ty)
  | OEntry e => Some (e_obj e, e_type e)
  end.

Definition on (p : Z) (ty : RetireType) (o : obl) : bool :=
  bool_decide (target o = Some (p, ty)).

Definition destroying (p : Z) (o : obl) : bool :=
  match o with ODestroying q => bool_decide (q = p) | _ => false end.

(** Obligations that still cost a step: all but [ODestroying]. *)
Definition active (o : obl) : bool :=
  match o with ODestroying _ => false | _ => true end.

(** Obligations still to be retired, which costs one step more. *)
Definition pending (o : obl) : bool :=
  match o with OPend _ _ => true | _ => false end.

(** Obligations that keep the object of snapshot [t] from the action [ty]. *)
Definition pins (x : X) (t : snap) (ty : RetireType) (o : obl) : bool :=
  match o with
  | OPend p ty' => bool_decide (p = snap_ptr t ∧ ty' = ty)
  | OEntry e => bool_decide (e_obj e = snap_ptr t ∧ e_type e = ty) && pinned x t e
  | _ => false
  end.

(** The obligation of a smart-pointer member. *)
Definition member_obls (m : member) : list obl :=
  let p := raw (member_word m) in
  if (p =? 0)%Z then []
  else [match m with
        | MRc _ => OStrong p
        | MWeak _ => OWeak p
        | MAtomicRc _ => OPend p decrement_strong_count
        | MAtomicWeak _ => OPend p decrement_weak_count
        end].

Definition members_obls (ms : list member) : list obl := concat (member_obls <$> ms).

Definition obj_obls (o : counted_object V) : list obl :=
  match storage o with Some v => members_obls (members v) | None => [] end.

(** How many obligations satisfy [g]: the ones listed in [E] (owned by the
    running code and by the clients), the entries of the deferred lists, the
    members of the objects and the cells. *)
Definition total (g : obl → bool) (E : list obl) (s : st) : nat :=
  countb g E + countb g (OEntry <$> concat (deferred_destructs s)) +
  msum (λ o, countb g (obj_obls o)) (heap s) +
  msum (λ m, countb g (member_obls m)) (cells s).

Definition alive (o : counted_object V) : nat :=
  match storage o with Some _ => 1 | None => 0 end.

(** The counters of an object on which there are [S] strong, [W] weak and [D]
    dispose obligations, and [K] destructors at work. *)
Record obj_counts (o : counted_object V) (S W D K : nat) : Prop := {
  oc_strong : strong_is o S;
  oc_weak : weak_is o (W + alive o + K);
  oc_weak_pos : 0 < W + alive o + K;
  oc_alive : alive o = 1 → K = 0 ∧ D = (if (S =? 0)%nat then 1 else 0);
  oc_dead : alive o = 0 → S = 0 ∧ D = 0 ∧ K ≤ 1 ∧ (K = 0 → disposed o = true)
}.

Definition obj_ok (E : list obl) (s : st) (p : Z) : Prop :=
  let S := total (on p decrement_strong_count) E s in
  let W := total (on p decrement_weak_count) E s in
  let D := total (on p retire_dispose) E s in
  let K := total (destroying p) E s in
  match heap s !! p with
  | Some o => obj_counts o S W D K
  | None => S = 0 ∧ W = 0 ∧ D = 0 ∧ K = 0
  end.

Record base_ok (s : st) : Prop := {
  base_null : heap s !! 0%Z = None;
  base_alloc : sumZ id (num_allocated s) = Z.of_nat (size (heap s));
  base_in_progress : length (in_progress s) = length (num_allocated s);
  base_deferred : length (deferred_destructs s) = length (num_allocated s);
  base_work : length (amortized_work s) = length (num_allocated s)
}.

(** The snapshot is announced, and for the object it was taken of. *)
Definition snap_valid (s : st) (t : snap) : Prop :=
  snap_ok (announcements s) t ∧ ∀ o, heap s !! snap_ptr t = Some o → snap_born t (birthTS o).

(** [strongs] are the snapshots taken from an [atomic_rc_ptr], [weaks] those
    taken from an [atomic_weak_ptr]. *)
Record snaps_ok (strongs weaks : list snap) (E : list obl) (s : st) : Prop := {
  snaps_births p o : heap s !! p = Some o → born_in (announcements s) (birthTS o);
  snaps_strong t : t ∈ strongs →
    snap_valid s t ∧
    0 < total (pins (announcements s) t decrement_strong_count) E s;
  snaps_weak t : t ∈ weaks →
    snap_valid s t ∧
    0 < total (pins (announcements s) t decrement_weak_count) E s ∧
    (0 < total (on (snap_ptr t) decrement_strong_count) E s ∨
     0 < total (pins (announcements s) t retire_dispose) E s)
}.

Record Inv (strongs weaks : list snap) (E : list obl) (s : st) : Prop := {
  inv_base : base_ok s;
  inv_obj p : obj_ok E s p;
  inv_snaps : snaps_ok strongs weaks E s
}.

(** ** The potential: how much there is left to do *)

Definition strong_nonzero (o : counted_object V) : nat :=
  if (fst (load cnt_width (ref_cnt o)) =? 0)%Z then 0 else 1.

Definition potential (E : list obl) (s : st) : nat :=
  total active E s + total pending E s + msum strong_nonzero (heap s).

(** What the manager's operations leave alone: the announcements, the
    reentrancy flags, the cells; and they neither create objects nor change the
    value of a live one. *)
Record stable (s s' : st) : Prop := {
  stable_ann : announcements s' = announcements s;
  stable_in_progress : in_progress s' = in_progress s;
  stable_cells : cells s' = cells s;
  stable_threads : length (num_allocated s') = length (num_allocated s);
  stable_heap p o' : heap s' !! p = Some o' →
    ∃ o, heap s !! p = Some o ∧ birthTS o' = birthTS o ∧
         (storage o' = None ∨ storage o' = storage o)
}.

#[export] Instance stable_preorder : PreOrder stable.
Proof.
  split.
  - intros s. constructor; eauto.
  - intros s1 s2 s3 [A1 B1 C1 D1 H1] [A2 B2 C2 D2 H2]. constructor; try congruence.
    intros p o3 (o2 & Ho2 & Hb2 & Hs2)%H2.
    destruct (H1 p o2 Ho2) as (o1 & Ho1 & Hb1 & Hs1).
    exists o1. split; [done|]. split; [congruence|]. destruct Hs2, Hs1; intuition congruence.
Qed.

(** ** Algebra of [total] *)

Lemma total_cons g o E s : total g (o :: E) s = Nat.b2n (g o) + total g E s.
Proof. unfold total. simpl. lia. Qed.

Lemma total_app g E1 E2 s : total g (E1 ++ E2) s = countb g E1 + total g E2 s.
Proof. unfold total. rewrite countb_app. lia. Qed.

Lemma total_perm g E1 E2 s : E1 ≡ₚ E2 → total g E1 s = total g E2 s.
Proof. intros HE. unfold total. by rewrite (countb_perm _ _ _ HE). Qed.

Lemma total_set_obj g E s p o o' :
  heap s !! p = Some o →
  total g E (set_heap (<[p:=o']> (heap s)) s) + countb g (obj_obls o) =
  total g E s + countb g (obj_obls o').
Proof.
  intros Ho. unfold total; simpl.
  pose proof (msum_insert (λ o, countb g (obj_obls o)) (heap s) p o o' Ho). simpl in *. lia.
Qed.

Lemma total_set_obj_same g E s p o o' :
  heap s !! p = Some o → storage o' = storage o →
  total g E (set_heap (<[p:=o']> (heap s)) s) = total g E s.
Proof.
  intros Ho Hst. pose proof (total_set_obj g E s p o o' Ho) as H.
  unfold obj_obls in H. rewrite Hst in H. lia.
Qed.

Lemma total_delete g E s p o :
  heap s !! p = Some o →
  total g E (set_heap (delete p (heap s)) s) + countb g (obj_obls o) = total g E s.
Proof.
  intros Ho. unfold total; simpl.
  pose proof (msum_delete (λ o, countb g (obj_obls o)) (heap s) p o Ho). simpl in *. lia.
Qed.

(** ** Transfer of the parts of the invariant *)

Lemma obj_ok_ext E s E' s' q :
  heap s' !! q = heap s !! q →
  (∀ ty, total (on q ty) E' s' = total (on q ty) E s) →
  total (destroying q) E' s' = total (destroying q) E s →
  obj_ok E s q → obj_ok E' s' q.
Proof. intros Hh Ht Hd. unfold obj_ok. by rewrite Hh, !Ht, Hd. Qed.

Lemma snaps_ok_ext Ss Ws E s E' s' :
  snaps_ok Ss Ws E s → announcements s' = announcements s →
  (∀ p o', heap s' !! p = Some o' →
           (∃ o, heap s !! p = Some o ∧ birthTS o' = birthTS o) ∨
           ((∀ t, t ∈ Ss ∨ t ∈ Ws → snap_ptr t ≠ p) ∧ born_in (announcements s) (birthTS o'))) →
  (∀ t ty, 0 < total (pins (announcements s) t ty) E s →
           0 < total (pins (announcements s) t ty) E' s') →
  (∀ t, t ∈ Ws → 0 < total (on (snap_ptr t) decrement_strong_count) E s →
        0 < total (on (snap_ptr t) decrement_strong_count) E' s' ∨
        0 < total (pins (announcements s) t retire_dispose) E' s') →
  snaps_ok Ss Ws E' s'.
Proof.
  intros [Hbr Hs Hw] Ha Hb Hp Ho.
  assert (∀ t, t ∈ Ss ∨ t ∈ Ws → snap_valid s t → snap_valid s' t) as Hval.
  { intros t Ht [Hok Hborn]. split; [by rewrite Ha|]. intros o' Ho'.
    destruct (Hb _ o' Ho') as [(o & Ho0 & ->)|[Hne _]]; [auto|]. by destruct (Hne t Ht). }
  split; rewrite Ha.
  { intros p o' Ho'. destruct (Hb p o' Ho') as [(o & Ho0 & ->)|[_ ?]]; eauto. }
  all: intros t Ht.
  - destruct (Hs t Ht). eauto.
  - destruct (Hw t Ht) as (? & ? & [?|?]); eauto 10.
Qed.

Lemma pins_on x t ty o : pins x t ty o = true → on (snap_ptr t) ty o = true.
Proof.
  destruct o; simpl; try done; unfold on; simpl.
  - intros [-> ->]%bool_decide_eq_true. by apply bool_decide_eq_true_2.
  - intros [[-> ->]%bool_decide_eq_true _]%andb_true_iff. by apply bool_decide_eq_true_2.
Qed.

Lemma total_le (g g' : obl → bool) E s :
  (∀ o, g o = true → g' o = true) → total g E s ≤ total g' E s.
Proof.
  intros Hg. unfold total.
  assert (∀ K A (f f' : A → nat) `{Countable K} (m : gmap K A),
            (∀ a, f a ≤ f' a) → msum f m ≤ msum f' m) as Hm.
  { intros K A f f' ?? m Hf. unfold msum. induction (map_to_list m) as [|[k a] l IH]; simpl; [lia|].
    specialize (Hf a). lia. }
  pose proof (countb_le g g' E Hg).
  pose proof (countb_le g g' (OEntry <$> concat (deferred_destructs s)) Hg).
  pose proof (Hm Z _ (λ o, countb g (obj_obls o)) (λ o, countb g' (obj_obls o)) _ _ (heap s)
                (λ o, countb_le g g' _ Hg)).
  pose proof (Hm nat _ (λ o, countb g (member_obls o)) (λ o, countb g' (member_obls o)) _ _ (cells s)
                (λ o, countb_le g g' _ Hg)).
  lia.
Qed.

Lemma Inv_perm Ss Ws E E' s : E ≡ₚ E' → Inv Ss Ws E s → Inv Ss Ws E' s.
Proof.
  intros HE [Hb Ho Hs]. split; [done| |].
  - intros p. eapply obj_ok_ext; [done|intros; symmetry..|apply Ho]; by apply total_perm.
  - eapply snaps_ok_ext; [done|done|births|..]; intros; [|left]; by rewrite <-(total_perm _ _ _ _ HE).
Qed.

Lemma potential_perm E E' s : E ≡ₚ E' → potential E s = potential E' s.
Proof. intros HE. unfold potential. by rewrite !(total_perm _ _ _ _ HE). Qed.

(** Replacing the counters of the object at [p]. *)
Lemma Inv_set_obj Ss Ws E s p o o' :
  base_ok s → heap s !! p = Some o → storage o' = storage o → birthTS o' = birthTS o →
  (∀ q, q ≠ p → obj_ok E s q) →
  obj_counts o' (total (on p decrement_strong_count) E s)
    (total (on p decrement_weak_count) E s) (total (on p retire_dispose) E s)
    (total (destroying p) E s) →
  snaps_ok Ss Ws E s →
  Inv Ss Ws E (set_heap (<[p:=o']> (heap s)) s).
Proof.
  intros Hb Ho Hst Hbirth Hother Hcounts Hsn.
  pose proof (λ g, total_set_obj_same g E s p o o' Ho Hst) as Htot.
  split.
  - destruct Hb. constructor; simpl; try done.
    + rewrite lookup_insert_ne; [done|]. congruence.
    + by rewrite map_size_insert_Some.
  - intros q. destruct (decide (q = p)) as [->|Hne].
    + unfold obj_ok. rewrite !Htot; simpl. by rewrite lookup_insert_eq.
    + eapply obj_ok_ext; [|intros; apply Htot|apply Htot|by apply Hother]. simpl.
      by rewrite lookup_insert_ne.
  - eapply snaps_ok_ext; [done|done|births|..]; intros; [|left]; by rewrite Htot.
Qed.

Lemma potential_set_obj E s p o o' :
  heap s !! p = Some o → storage o' = storage o →
  potential E (set_heap (<[p:=o']> (heap s)) s) + strong_nonzero o =
  potential E s + strong_nonzero o'.
Proof.
  intros Ho Hst. unfold potential. rewrite !(total_set_obj_same _ _ _ _ _ _ Ho Hst). simpl.
  pose proof (msum_insert strong_nonzero (heap s) p o o' Ho). lia.
Qed.

Lemma stable_set_obj s p o o' :
  heap s !! p = Some o → birthTS o' = birthTS o →
  storage o' = None ∨ storage o' = storage o →
  stable s (set_heap (<[p:=o']> (heap s)) s).
Proof.
  intros Ho Hb Hst. constructor; try done. simpl. intros q oq. rewrite lookup_insert.
  case_decide as Hq; intros; simplify_eq; eauto.
Qed.

Lemma strong_nonzero_is o n : strong_is o n → strong_nonzero o = if (n =? 0)%nat then 0 else 1.
Proof.
  intros H. unfold strong_nonzero. rewrite (load_rep _ cnt_width_ok _ _ H). simpl.
  by destruct n.
Qed.

End accounting.
