(* ===== verification/ManagerSafety.v ===== *)
(** * The memory manager keeps the accounts

    Total correctness of every operation of [memory_manager_base] and of the
    deferred lists with respect to the invariant of [Accounting]: no operation
    touches memory that is not an object, fails an assertion or runs out of
    fuel, each consumes exactly the obligation it is given, and the potential
    bounds the depth of the recursion. *)

From S2P Require Import Prelude StickyCounter CountedObject MemoryManager Accounting.

Section safety.
  Context {V X En : Type} `{Pol : !Policy} `{Sch : !Scheme V X En} `{Laws : !SchemeLaws V X En}.
  Context (Ss Ws : list snap).
  Local Abbreviation st := (state V X En).
  Local Abbreviation Inv := (Inv Ss Ws).
  Local Abbreviation strong := decrement_strong_count.
  Local Abbreviation weak := decrement_weak_count.
  Implicit Types (s : st) (E : list (obl En)) (p : Z) (tid : nat).

Lemma total_on_cons p ty (a : obl En) E s :
  total (on p ty) (a :: E) s =
  (if decide (target a = Some (p, ty)) then 1 else 0) + total (on p ty) E s.
Proof. rewrite total_cons. unfold on. case_bool_decide; by case_decide. Qed.

Lemma total_destroying_eq p E s :
  total (destroying p) (ODestroying p :: E) s = S (total (destroying p) E s).
Proof. rewrite total_cons. simpl. by rewrite bool_decide_eq_true_2. Qed.

Lemma total_destroying_target p (a : obl En) E s :
  target a ≠ None → total (destroying p) (a :: E) s = total (destroying p) E s.
Proof. rewrite total_cons. by destruct a. Qed.

(** Computes the totals of a list of obligations with a known head. *)
Ltac tot :=
  repeat rewrite total_on_cons in *; repeat rewrite total_destroying_eq in *;
  repeat rewrite total_destroying_target in * by done;
  simpl target in *; repeat case_decide; simplify_eq/=.

(** ** Access to objects *)

Lemma wp_deref p o (Q : counted_object V → st → Prop) s :
  heap s !! p = Some o → p ≠ 0%Z → Q o s → wp (deref p) Q s.
Proof.
  intros Ho Hp HQ. unfold deref. wp_steps. rewrite (proj2 (Z.eqb_neq _ _) Hp), Ho. by wp_steps.
Qed.

Lemma wp_with_obj {A} p o (f : counted_object V → A * counted_object V) a o' Q s :
  heap s !! p = Some o → p ≠ 0%Z → f o = (a, o') →
  Q a (set_heap (<[p:=o']> (heap s)) s) → wp (with_obj p f) Q s.
Proof.
  intros Ho Hp Hf HQ. unfold with_obj. wp_step. eapply wp_deref; [done..|].
  rewrite Hf. unfold set_obj. by wp_steps.
Qed.

Lemma set_heap_id s p o : heap s !! p = Some o → set_heap (<[p:=o]> (heap s)) s = s.
Proof. intros Ho. rewrite insert_id by done. by destruct s. Qed.

(** Reading a count does not change a counter that stands for a number. *)
Lemma wp_use_count p o n Q s :
  heap s !! p = Some o → p ≠ 0%Z → strong_is o n → Q (Z.of_nat n) s →
  wp (with_obj p get_use_count) Q s.
Proof.
  intros Ho Hp Hn HQ. eapply wp_with_obj; [done|done|by apply get_use_count_is|].
  by rewrite set_heap_id.
Qed.

Lemma wp_weak_count p o n Q s :
  heap s !! p = Some o → p ≠ 0%Z → weak_is o n → Q (Z.of_nat n) s →
  wp (with_obj p get_weak_count) Q s.
Proof.
  intros Ho Hp Hn HQ. eapply wp_with_obj; [done|done|by apply get_weak_count_is|].
  by rewrite set_heap_id.
Qed.

(** ** Objects with an obligation are in memory *)

Lemma Inv_nonnull E s p o : Inv E s → heap s !! p = Some o → p ≠ 0%Z.
Proof. intros [[Hn]] Ho ->. congruence. Qed.

Lemma Inv_counts E s p o :
  Inv E s → heap s !! p = Some o →
  obj_counts o (total (on p strong) E s) (total (on p weak) E s)
    (total (on p retire_dispose) E s) (total (destroying p) E s).
Proof. intros [_ Hobj _] Ho. specialize (Hobj p). unfold obj_ok in Hobj. by rewrite Ho in Hobj. Qed.

Lemma Inv_on_heap E s p ty : Inv E s → 0 < total (on p ty) E s → ∃ o, heap s !! p = Some o.
Proof.
  intros [_ Hobj _] Ht. specialize (Hobj p). unfold obj_ok in Hobj.
  destruct (heap s !! p); [eauto|]. destruct ty; lia.
Qed.

Lemma Inv_destroying_heap E s p :
  Inv E s → 0 < total (destroying p) E s → ∃ o, heap s !! p = Some o ∧ storage o = None.
Proof.
  intros Hinv Ht. pose proof Hinv as [_ Hobj _]. specialize (Hobj p). unfold obj_ok in Hobj.
  destruct (heap s !! p) as [o|]; [|lia]. exists o. split; [done|].
  destruct Hobj as [_ _ _ Halive _]. unfold alive in Halive.
  destruct (storage o); [|done]. destruct (Halive eq_refl). lia.
Qed.

(** ** The end of an object: [destroy] *)

(** Nothing is left on the object at [p], which holds no value. *)
Record ready (p : Z) E s : Prop := {
  ready_base : base_ok s;
  ready_obj : ∃ o, heap s !! p = Some o ∧ strong_is o 0 ∧ disposed o = true ∧ storage o = None;
  ready_none : (∀ ty, total (on p ty) E s = 0) ∧ total (destroying p) E s = 0;
  ready_other q : q ≠ p → obj_ok E s q;
  ready_snaps : snaps_ok Ss Ws E s
}.

(** The postcondition of the operations: they turn the obligations [E0] of [s0]
    into [E], the potential is at most [k], and no weak reference was made. *)
Record after E0 E (k : nat) s0 (u : unit) s' : Prop := {
  after_inv : Inv E s';
  after_potential : potential E s' ≤ k;
  after_stable : stable s0 s';
  after_weak q : total (on q weak) E s' ≤ total (on q weak) E0 s0
}.

Lemma after_mono E0 E1 E k k' s0 s1 u s' :
  after E1 E k s1 u s' → k ≤ k' → stable s0 s1 →
  (∀ q, total (on q weak) E1 s1 ≤ total (on q weak) E0 s0) → after E0 E k' s0 u s'.
Proof.
  intros [Hi Hp Hs Hw] ?? Hw'. split; [done|lia|by etrans|].
  intros q. specialize (Hw q). specialize (Hw' q). lia.
Qed.

Lemma destroy_ok E tid p s :
  tid < length (num_allocated s) → ready p E s →
  wp (destroy tid p) (after E E (potential E s) s) s.
Proof.
  intros Htid [Hb (o & Ho & Hst & Hd & Hsto) [Hon Hk] Hother Hsn].
  assert (p ≠ 0%Z) as Hp by (intros ->; destruct Hb; congruence).
  apply lookup_lt_is_Some_2 in Htid as [n Hn].
  unfold destroy, delete_object, decrement_allocations.
  wp_step. eapply wp_use_count; [done..|]. wp_steps; [done..|]. eapply wp_deref; [done..|]. wp_steps; [done..|].
  eapply wp_deref; [done..|]. wp_steps; [done..|]. wp_steps; [done..|]. wp_steps.
  pose proof (λ g, total_delete g E s p o Ho) as Htot.
  unfold obj_obls in Htot. rewrite Hsto in Htot. simpl in Htot.
  set (s' := set_num_allocated _ _).
  assert (∀ g, total g E s' = total g E s) as Htot' by (intros g; rewrite <-Htot; unfold s', total; simpl; lia).
  split; [split| | |].
  - destruct Hb as [H0 Hal Hip Hdf Hwk]. constructor; simpl; rewrite ?length_insert; try done.
    + by rewrite lookup_delete_ne.
    + rewrite (sumZ_insert id _ _ _ _ Hn), map_size_delete_Some by eauto. unfold id.
      assert (size (heap s) ≠ 0) by (intros Hz%map_size_empty_inv; rewrite Hz, lookup_empty in Ho; done).
      unfold id in Hal. lia.
  - intros q. destruct (decide (q = p)) as [->|Hne].
    + unfold obj_ok. rewrite !Htot'. unfold s'; simpl. rewrite lookup_delete_eq. by rewrite !Hon.
    + eapply obj_ok_ext; [|intros; apply Htot'|apply Htot'|by apply Hother]. simpl.
      by rewrite lookup_delete_ne.
  - eapply snaps_ok_ext; [done|done|births|..]; intros; [|left]; by rewrite Htot'.
  - unfold potential. rewrite !Htot'. simpl. pose proof (msum_delete strong_nonzero _ _ _ Ho). lia.
  - constructor; simpl; rewrite ?length_insert; try done.
    intros q oq. rewrite lookup_delete. case_decide; [done|]. eauto.
  - intros q. by rewrite Htot'.
Qed.

(** ** Dropping the obligation that an operation consumes *)

Definition about (p : Z) (a : obl En) : Prop :=
  (∀ q ty, q ≠ p → on q ty a = false) ∧ (∀ q, q ≠ p → destroying q a = false).

Lemma about_target p ty a : target a = Some (p, ty) → about p a.
Proof.
  intros Ha. split; intros q.
  - intros ty' Hq. unfold on. rewrite Ha. apply bool_decide_eq_false_2. congruence.
  - by destruct a.
Qed.

Lemma about_destroying p : about p (ODestroying p).
Proof.
  split; intros q; simpl; [done|]. intros Hq. by apply bool_decide_eq_false_2.
Qed.

Lemma obj_ok_cons p a E s q : about p a → q ≠ p → obj_ok (a :: E) s q ↔ obj_ok E s q.
Proof.
  intros [H1 H2] Hq.
  split; apply obj_ok_ext; try done; intros; rewrite total_cons, ?H1, ?H2 by done; done.
Qed.

Lemma snaps_ok_add a E s : snaps_ok Ss Ws E s → snaps_ok Ss Ws (a :: E) s.
Proof.
  intros H. eapply snaps_ok_ext; [done|done|births|..]; intros; [|left]; rewrite total_cons; lia.
Qed.

(** An obligation that pins nothing and holds no strong reference. *)
Definition unpinning (a : obl En) : Prop :=
  (∀ x t ty, pins x t ty a = false) ∧ ∀ q, on q strong a = false.

Lemma snaps_ok_drop a E s : unpinning a → snaps_ok Ss Ws (a :: E) s → snaps_ok Ss Ws E s.
Proof.
  intros [Hp Ho] H. eapply snaps_ok_ext; [done|done|births|..].
  - intros t ty. rewrite total_cons, Hp. done.
  - intros t _. rewrite total_cons, Ho. by left.
Qed.

Lemma unpinning_weak p : unpinning (OWeak p).
Proof. split; intros; [done|]. by apply bool_decide_eq_false_2. Qed.
Lemma unpinning_dispose p : unpinning (ODispose p).
Proof. split; intros; [done|]. by apply bool_decide_eq_false_2. Qed.
Lemma unpinning_destroying p : unpinning (ODestroying p).
Proof. split; intros; [done|]. by apply bool_decide_eq_false_2. Qed.

Lemma potential_cons a E s :
  potential (a :: E) s = Nat.b2n (active a) + Nat.b2n (pending a) + potential E s.
Proof. unfold potential. rewrite !total_cons. lia. Qed.

Lemma potential_app E1 E2 s :
  potential (E1 ++ E2) s = countb active E1 + countb pending E1 + potential E2 s.
Proof. unfold potential. rewrite !total_app. lia. Qed.

(** ** Weak decrements *)

(** The common end of [decrement_weak_cnt] and [dispose]: release one weak
    reference of an object on which [a] is the obligation that owns it. *)
Lemma release_weak_ok E tid p a s :
  tid < length (num_allocated s) → Inv (a :: E) s → about p a → unpinning a →
  total (on p strong) (a :: E) s = total (on p strong) E s →
  total (on p retire_dispose) (a :: E) s = total (on p retire_dispose) E s →
  total (on p weak) (a :: E) s + total (destroying p) (a :: E) s =
    S (total (on p weak) E s + total (destroying p) E s) →
  (total (destroying p) (a :: E) s = S (total (destroying p) E s) →
     ∃ o, heap s !! p = Some o ∧ disposed o = true) →
  wp (with_obj p (release_weak_refs 1))
     (λ b, wp (when b (destroy tid p)) (after E E (potential E s) s)) s.
Proof.
  intros Htid Hinv Hab Hun HS HD HWK Hdis.
  assert (∃ o, heap s !! p = Some o) as [o Ho].
  { pose proof Hinv as [_ Hobj _]. specialize (Hobj p). unfold obj_ok in Hobj.
    destruct (heap s !! p); [eauto|]. lia. }
  pose proof (Inv_counts _ _ _ _ Hinv Ho) as [Hcs Hcw Hpos Hal Hdead].
  pose proof (Inv_nonnull _ _ _ _ Hinv Ho) as Hp. pose proof Hinv as [Hb Hobj Hsn].
  rewrite HS, HD in *.
  pose proof (total_cons (destroying p) a E s) as HcK.
  pose proof (total_cons (on p weak) a E s) as HcW.
  set (k := total (on p weak) E s + alive o + total (destroying p) E s).
  replace (total (on p weak) (a :: E) s + alive o + total (destroying p) (a :: E) s) with (S k) in Hcw by lia.
  destruct (release_weak_refs_is _ _ Hcw) as (x & Hrel & Hcw').
  eapply wp_with_obj; [done..|]. set (o' := set_weak_cnt x o) in *.
  pose proof (potential_set_obj E s p o o' Ho eq_refl) as Hpot.
  change (strong_nonzero o') with (strong_nonzero o) in Hpot.
  pose proof (stable_set_obj s p o o' Ho eq_refl (or_intror eq_refl)) as Hstab.
  pose proof (λ g, total_set_obj_same g E s p o o' Ho eq_refl) as Htot.
  wp_step.
  - intros Hk%Nat.eqb_eq. eapply wp_mono.
    { apply (destroy_ok E); [done|].
      assert (alive o = 0 ∧ total (on p weak) E s = 0 ∧ total (destroying p) E s = 0) as (Ha0 & HW0 & HK0) by (unfold k in Hk; lia).
      destruct (Hdead Ha0) as (HS0 & HD0 & HKle & Hdisp).
      assert (disposed o = true) as Hd.
      { destruct (decide (total (destroying p) (a :: E) s = 0)) as [|]; [by apply Hdisp|].
        destruct Hdis as (o2 & Ho2 & ?); [lia|]. by simplify_eq. }
      split.
      - destruct Hb. constructor; simpl; try done; [by rewrite lookup_insert_ne|by rewrite map_size_insert_Some].
      - exists o'. simpl. rewrite lookup_insert_eq. split; [done|]. rewrite HS0 in Hcs. split; [done|]. split; [done|].
        unfold alive in Ha0. by destruct (storage o).
      - rewrite Htot. split; [|done]. intros ty. rewrite Htot. by destruct ty.
      - intros q Hq. eapply obj_ok_ext; [|intros; apply Htot|apply Htot|].
        + simpl. by rewrite lookup_insert_ne.
        + by eapply obj_ok_cons.
      - eapply snaps_ok_ext; [by eapply snaps_ok_drop|done|births|..]; intros; [|left]; by rewrite Htot. }
    intros u s' Ha. eapply after_mono; [done|lia|done|]. intros q. by rewrite Htot.
  - intros Hk%Nat.eqb_neq. split; [|lia|done|intros q; by rewrite Htot].
    eapply Inv_set_obj; [done|done|done|done| | |by eapply snaps_ok_drop].
    + intros q Hq. by eapply obj_ok_cons.
    + split; [done|exact Hcw'|unfold k in *; change (alive o') with (alive o); lia| |];
        change (alive o') with (alive o); intros Ha.
      * destruct (Hal Ha). split; [lia|done].
      * destruct (Hdead Ha) as (? & ? & ? & Hd). split_and!; try done; try lia.
        intros HK. destruct (decide (total (destroying p) (a :: E) s = 0)); [by apply Hd|].
        destruct Hdis as (o2 & Ho2 & ?); [lia|]. by simplify_eq.
Qed.

Lemma decrement_weak_ok E tid p s :
  tid < length (num_allocated s) → Inv (OWeak p :: E) s →
  wp (decrement_weak_cnt tid p) (after E E (potential E s) s) s.
Proof.
  intros Htid Hinv.
  destruct (Inv_on_heap _ _ p weak Hinv) as [o Ho]; [tot; try done; lia|].
  pose proof (Inv_nonnull _ _ _ _ Hinv Ho) as Hp.
  pose proof (Inv_counts _ _ _ _ Hinv Ho) as [_ Hcw Hpos _ _].
  unfold decrement_weak_cnt. wp_steps; [by apply negb_true_iff, Z.eqb_neq|].
  eapply wp_weak_count; [done..|]. wp_steps; [apply Z.leb_le; lia|].
  eapply release_weak_ok; [done|done|by eapply about_target|apply unpinning_weak|..];
    try (tot; done || lia).
Qed.

(** ** Operations that call back into the derived class *)

(** The derived class is correct as long as the potential is below [n]. *)
Record self_ok (n : nat) (self : derived V X En) : Prop := {
  self_retire E tid p ty s :
    tid < length (num_allocated s) → Inv (OPend p ty :: E) s →
    S (potential E s) < n →
    wp (d_retire self tid p ty) (after (OPend p ty :: E) E (S (potential E s)) s) s;
  self_destruct E tid ms s :
    tid < length (num_allocated s) → Inv (members_obls ms ++ E) s →
    potential (members_obls ms ++ E) s < n →
    wp (d_destruct self tid ms)
       (after (members_obls ms ++ E) E (potential (members_obls ms ++ E) s) s) s
}.

Section with_self.
  Context (n : nat) (self : derived V X En) (Hself : self_ok n self).

(** Starting to destroy the value of [p]: its members' obligations pass to the
    destructor. *)
Lemma start_destruct_ok E p o v s :
  Inv (ODispose p :: E) s → heap s !! p = Some o → storage o = Some v →
  let s1 := set_heap (<[p:=set_storage None o]> (heap s)) s in
  Inv (members_obls (members v) ++ ODestroying p :: E) s1 ∧
  potential (members_obls (members v) ++ ODestroying p :: E) s1 < potential (ODispose p :: E) s ∧
  ∀ q, total (on q weak) (members_obls (members v) ++ ODestroying p :: E) s1 = total (on q weak) E s.
Proof.
  intros Hinv Ho Hst s1.
  pose proof (Inv_counts _ _ _ _ Hinv Ho) as [Hcs Hcw Hpos Hal Hdead].
  pose proof Hinv as [Hb Hobj Hsn].
  assert (alive o = 1) as Ha by (unfold alive; by rewrite Hst).
  destruct (Hal Ha) as [HK HD].
  assert (∀ g, total g (members_obls (members v) ++ ODestroying p :: E) s1 =
               Nat.b2n (g (ODestroying p)) + total g E s) as Htot.
  { intros g. rewrite total_app, total_cons.
    pose proof (total_set_obj g E s p o (set_storage None o) Ho) as Hg.
    unfold obj_obls in Hg. rewrite Hst in Hg. simpl in Hg. unfold s1. lia. }
  rewrite Ha, HK in Hcw, Hpos. clear Hal Hdead. tot. rewrite Nat.add_0_r in Hcw.
  split; [split|split; [|intros q; by rewrite Htot]].
  - destruct Hb. constructor; simpl; try done.
    + rewrite lookup_insert_ne; [done|]. congruence.
    + by rewrite map_size_insert_Some.
  - intros q. destruct (decide (q = p)) as [->|Hne].
    + unfold obj_ok. rewrite !Htot. unfold s1; simpl. rewrite lookup_insert_eq.
      rewrite bool_decide_eq_true_2 by done. simpl.
      split; [exact Hcs| |simpl; lia|done|].
      * change (alive (set_storage None o)) with 0. rewrite HK, Nat.add_0_r. exact Hcw.
      * intros _. destruct (Nat.eqb_spec (total (on p strong) E s) 0); split_and!; lia.
    + eapply obj_ok_ext; [|intros; rewrite Htot; simpl; reflexivity| |].
      * simpl. by rewrite lookup_insert_ne.
      * rewrite Htot. simpl. by rewrite bool_decide_eq_false_2.
      * rewrite <-(obj_ok_cons p (ODispose p)); [done|by eapply about_target|done].
  - apply (snaps_ok_drop _ _ _ (unpinning_dispose p)) in Hsn.
    eapply snaps_ok_ext; [done|done|births|..]; intros; [|left]; rewrite Htot; simpl; done.
  - unfold potential. rewrite !Htot, !total_cons. simpl.
    rewrite (msum_insert_same strong_nonzero (heap s) p o (set_storage None o)) by done. lia.
Qed.

Lemma dispose_object_ok E tid p s :
  tid < length (num_allocated s) → Inv (ODispose p :: E) s →
  potential (ODispose p :: E) s ≤ n →
  wp (dispose_object self tid p)
     (λ u s', after E (ODestroying p :: E) (potential E s) s u s' ∧
              ∃ o, heap s' !! p = Some o ∧ disposed o = true) s.
Proof.
  intros Htid Hinv Hpot.
  destruct (Inv_on_heap _ _ p retire_dispose Hinv) as [o Ho]; [tot; try done; lia|].
  pose proof (Inv_nonnull _ _ _ _ Hinv Ho) as Hp.
  pose proof (Inv_counts _ _ _ _ Hinv Ho) as [_ _ _ Hal Hdead].
  destruct (storage o) as [v|] eqn:Hst; last first.
  { destruct Hdead as (_ & HD & _); [unfold alive; by rewrite Hst|]. tot; done || lia. }
  destruct (start_destruct_ok E p o v s Hinv Ho Hst) as (Hinv1 & Hpot1 & Hweak1).
  set (s1 := set_heap _ s) in *.
  assert (stable s s1) as Hstab1 by (eapply stable_set_obj; [done|done|by left]).
  unfold dispose_object. wp_step. eapply wp_deref; [done..|]. rewrite Hst.
  unfold set_obj. wp_steps. fold s1.
  eapply wp_mono; [apply (self_destruct _ _ Hself); [done|exact Hinv1|lia]|].
  intros u s2 [Hinv2 Hpot2 Hstab2 Hweak2].
  destruct (Inv_destroying_heap _ _ p Hinv2) as (o2 & Ho2 & Hst2); [tot; try done; lia|].
  pose proof (Inv_counts _ _ _ _ Hinv2 Ho2) as [Hcs2 Hcw2 Hpos2 Hal2 Hdead2].
  eapply wp_with_obj; [done|by eapply Inv_nonnull|done|].
  set (o3 := set_disposed true o2).
  split; [split|].
  - eapply Inv_set_obj; [by destruct Hinv2|done|done|done|by intros; apply Hinv2| |by destruct Hinv2].
    split; [done|exact Hcw2|done|done|]. intros Ha. destruct (Hdead2 Ha) as (? & ? & ? & ?). done.
  - pose proof (potential_set_obj (ODestroying p :: E) s2 p o2 o3 Ho2 eq_refl) as Hp3.
    change (strong_nonzero o3) with (strong_nonzero o2) in Hp3.
    rewrite (potential_cons (ODispose p)) in Hpot1. simpl in *. lia.
  - etrans; [exact Hstab1|]. etrans; [exact Hstab2|].
    eapply stable_set_obj; [done|done|by right].
  - intros q. rewrite (total_set_obj_same _ _ _ _ _ _ Ho2) by done. by rewrite <-Hweak1.
  - exists o3. simpl. by rewrite lookup_insert_eq.
Qed.

Lemma dispose_ok E tid p s :
  tid < length (num_allocated s) → Inv (ODispose p :: E) s →
  potential (ODispose p :: E) s ≤ n →
  wp (dispose self tid p) (after E E (potential E s) s) s.
Proof.
  intros Htid Hinv Hpot.
  destruct (Inv_on_heap _ _ p retire_dispose Hinv) as [o Ho]; [tot; try done; lia|].
  pose proof (Inv_nonnull _ _ _ _ Hinv Ho) as Hp.
  pose proof (Inv_counts _ _ _ _ Hinv Ho) as [Hcs _ _ Hal Hdead].
  assert (total (on p strong) (ODispose p :: E) s = 0) as HS.
  { assert (alive o = 0 ∨ alive o = 1) as [Ha|Ha] by (unfold alive; destruct (storage o); lia).
    - by destruct (Hdead Ha).
    - destruct (Hal Ha) as [_ HD]. tot. destruct (Nat.eqb_spec (total (on p strong) E s) 0); lia. }
  rewrite HS in Hcs. unfold dispose. wp_step. eapply wp_use_count; [done..|].
  wp_steps. eapply wp_mono; [by apply dispose_object_ok|].
  intros u s1 [[Hinv1 Hpot1 Hstab1 Hweak1] (o1 & Ho1 & Hdis1)].
  wp_steps. eapply wp_mono.
  { eapply (release_weak_ok E tid p (ODestroying p)); [by rewrite (stable_threads _ _ Hstab1)|done|
      apply about_destroying|apply unpinning_destroying|tot; done|tot; done|tot; lia|eauto]. }
  intros b s2 Hb. eapply wp_mono; [exact Hb|]. intros [] s3 H3.
  rewrite potential_cons in Hpot1. simpl in Hpot1.
  eapply after_mono; [exact H3|lia|done|]. intros q. specialize (Hweak1 q). tot; lia.
Qed.

(** The decrement of the strong count, when references remain. *)
Lemma sub_refs_some_ok E p s o x k :
  Inv (OStrong p :: E) s → heap s !! p = Some o →
  total (on p strong) E s = S k → strong_is (set_ref_cnt x o) (S k) →
  after E E (potential E s) s tt (set_heap (<[p:=set_ref_cnt x o]> (heap s)) s).
Proof.
  intros Hinv Ho Hk Hx. pose proof (Inv_counts _ _ _ _ Hinv Ho) as [Hcs Hcw Hpos Hal Hdead].
  pose proof Hinv as [Hb Hobj Hsn]. pose proof (potential_set_obj E s p o (set_ref_cnt x o) Ho eq_refl) as Hpot.
  rewrite (strong_nonzero_is _ _ Hx), (strong_nonzero_is _ _ Hcs) in Hpot. tot.
  rewrite Hk in *. simpl in *.
  split; [|lia|by eapply stable_set_obj; eauto|intros q; by rewrite (total_set_obj_same _ _ _ _ _ _ Ho)].
  eapply Inv_set_obj; [done|done|done|done| | |].
  - intros q Hq. rewrite <-obj_ok_cons; [apply Hobj|by eapply about_target|done].
  - rewrite Hk. split; [done|exact Hcw|exact Hpos|exact Hal|]. intros Ha. by destruct (Hdead Ha).
  - eapply snaps_ok_ext; [done|done|births|..].
    + intros t ty. rewrite total_cons. done.
    + intros t _. rewrite total_on_cons. simpl. intros Ht. left.
      case_decide; simplify_eq; lia.
Qed.

(** ... and when it reaches zero: the object is to be disposed of. *)
Lemma sub_refs_zero_ok E p s o x a :
  Inv (OStrong p :: E) s → heap s !! p = Some o →
  total (on p strong) E s = 0 → strong_is (set_ref_cnt x o) 0 →
  target a = Some (p, retire_dispose) →
  (∀ t, t ∈ Ws → snap_ptr t = p → 0 < total (pins (announcements s) t retire_dispose) (a :: E) s) →
  let s1 := set_heap (<[p:=set_ref_cnt x o]> (heap s)) s in
  after E (a :: E) (potential (a :: E) s1) s tt s1 ∧ S (potential E s1) ≤ potential E s.
Proof.
  intros Hinv Ho HS Hx Ha Hpin. pose proof (Inv_counts _ _ _ _ Hinv Ho) as [Hcs Hcw Hpos Hal Hdead].
  pose proof Hinv as [Hb Hobj Hsn]. pose proof (potential_set_obj E s p o (set_ref_cnt x o) Ho eq_refl) as Hpot.
  rewrite (strong_nonzero_is _ _ Hx), (strong_nonzero_is _ _ Hcs) in Hpot. tot.
  rewrite HS in *. simpl in *.
  assert (target a ≠ None) as HaN by congruence.
  split; [|lia]. split.
  - eapply Inv_set_obj; [done|done|done|done| | |].
    + intros q Hq. rewrite obj_ok_cons; [|by eapply about_target|done].
      rewrite <-obj_ok_cons; [apply Hobj|by eapply about_target|done].
    + rewrite !total_on_cons, total_destroying_target, Ha by done.
      destruct (decide (Some (p, retire_dispose) = Some (p, strong))); [done|].
      destruct (decide (Some (p, retire_dispose) = Some (p, weak))); [done|].
      destruct (decide (Some (p, retire_dispose) = Some (p, retire_dispose))); [|done].
      rewrite HS. split; [done|exact Hcw|exact Hpos| |].
      * intros Hal'. destruct (Hal Hal') as [? ->]. simpl. done.
      * intros Ha0. by destruct (Hdead Ha0).
    + eapply snaps_ok_ext; [done|done|births|..].
      * intros t ty. rewrite !total_cons. simpl. lia.
      * intros t Ht. rewrite total_on_cons. simpl. case_decide; simplify_eq; [by right; apply Hpin|].
        left. rewrite total_cons. lia.
  - done.
  - eapply stable_set_obj; [done|done|by right].
  - intros q. rewrite (total_set_obj_same _ _ _ _ _ _ Ho) by done. rewrite total_on_cons, Ha.
    by case_decide.
Qed.

Lemma decrement_ref_ok E tid p s :
  tid < length (num_allocated s) → Inv (OStrong p :: E) s →
  potential (OStrong p :: E) s ≤ n →
  wp (decrement_ref_cnt self tid p) (after E E (potential E s) s) s.
Proof.
  intros Htid Hinv Hpot. rewrite potential_cons in Hpot. simpl in Hpot.
  destruct (Inv_on_heap _ _ p strong Hinv) as [o Ho]; [tot; try done; lia|].
  pose proof (Inv_nonnull _ _ _ _ Hinv Ho) as Hp.
  pose proof (Inv_counts _ _ _ _ Hinv Ho) as [Hcs Hcw Hpos Hal Hdead].
  assert (alive o = 1) as Halive.
  { assert (alive o = 0 ∨ alive o = 1) as [Ha|Ha] by (unfold alive; destruct (storage o); lia); [|done].
    destruct (Hdead Ha). tot; done || lia. }
  destruct (Hal Halive) as [HK _]. rewrite Halive, HK in Hcw. clear Hal Hdead Hpos. tot.
  destruct (sub_refs_is _ _ Hcs) as (x & Hsub & Hx).
  unfold decrement_ref_cnt. wp_steps; [by apply negb_true_iff, Z.eqb_neq|].
  eapply wp_use_count; [done..|]. wp_steps; [apply Z.leb_le; lia|].
  unfold release_refs. wp_steps. eapply wp_with_obj; [done..|].
  destruct (total (on p strong) E s) as [|k] eqn:HS; simpl; last first.
  { wp_steps. by eapply sub_refs_some_ok. }
  set (s1 := set_heap _ s).
  assert (heap s1 !! p = Some (set_ref_cnt x o)) as Ho1 by (simpl; apply lookup_insert_eq).
  wp_steps. eapply wp_weak_count; [done|done|exact Hcw|].
  destruct (total (on p weak) E s) as [|kw] eqn:HW; cbv beta.
  - assert (after E (ODispose p :: E) (potential (ODispose p :: E) s1) s tt s1 ∧
            S (potential E s1) ≤ potential E s) as [[Hinv1 _ Hstab1 Hweak1] Hpot1].
    { eapply sub_refs_zero_ok; [done..|]. intros t Ht Htp. exfalso.
      destruct Hinv as [_ _ [_ _ Hsw]]. destruct (Hsw t Ht) as (_ & Hpw & _).
      rewrite total_cons in Hpw. simpl in Hpw.
      pose proof (total_le (pins (announcements s) t weak) (on (snap_ptr t) weak) E s (pins_on _ _ _)).
      rewrite Htp in *. lia. }
    simpl. wp_steps. eapply wp_mono; [apply dispose_object_ok; [by rewrite (stable_threads _ _ Hstab1)|done|rewrite potential_cons; simpl; lia]|].
    intros u s2 [[Hinv2 Hpot2 Hstab2 Hweak2] (o2 & Ho2 & Hdis2)]. wp_steps.
    rewrite potential_cons in Hpot2. simpl in Hpot2.
    eapply wp_mono; [apply (destroy_ok E)|].
    + by rewrite (stable_threads _ _ Hstab2), (stable_threads _ _ Hstab1).
    + pose proof (Inv_counts _ _ _ _ Hinv2 Ho2) as [Hcs2 _ _ Hal2 Hdead2].
      destruct (Inv_destroying_heap _ _ p Hinv2) as (o3 & Ho3 & Hst3); [tot; try done; lia|].
      simplify_eq. assert (alive o2 = 0) as Ha2 by (unfold alive; by rewrite Hst3).
      destruct (Hdead2 Ha2) as (HS2 & HD2 & HK2 & _). rewrite HS2 in Hcs2. pose proof Hinv2 as [Hb2 Hobj2 Hsn2].
      specialize (Hweak2 p). specialize (Hweak1 p). tot. split; [done|by eauto 10| | |].
      * split; [|lia]. intros []; lia.
      * intros q Hq. rewrite <-obj_ok_cons; [apply Hobj2|apply about_destroying|done].
      * by apply (snaps_ok_drop _ _ _ (unpinning_destroying p)).
    + intros [] s3 H3. eapply after_mono; [exact H3|lia|by etrans|].
      intros q. specialize (Hweak2 q). specialize (Hweak1 q). tot; lia.
  - assert (after E (OPend p retire_dispose :: E) (potential (OPend p retire_dispose :: E) s1) s tt s1 ∧
            S (potential E s1) ≤ potential E s) as [[Hinv1 _ Hstab1 Hweak1] Hpot1].
    { eapply sub_refs_zero_ok; [done..|]. intros t Ht Htp. rewrite total_cons. simpl.
      rewrite bool_decide_eq_true_2 by done. simpl. lia. }
    rewrite (proj2 (Z.eqb_neq (Z.of_nat (S kw + 1 + 0)) 1)) by lia. wp_steps.
    eapply wp_mono; [apply (self_retire _ _ Hself); [by rewrite (stable_threads _ _ Hstab1)|done|lia]|].
    intros [] s2 H2. eapply after_mono; [exact H2|lia|done|]. intros q. apply Hweak1.
Qed.

(** The delayed decrements only retire. *)
Lemma delayed_decrement_ref_ok E tid p s :
  tid < length (num_allocated s) → Inv (OPend p strong :: E) s → S (potential E s) < n →
  wp (delayed_decrement_ref_cnt self tid p) (after (OPend p strong :: E) E (S (potential E s)) s) s.
Proof.
  intros Htid Hinv Hpot.
  destruct (Inv_on_heap _ _ p strong Hinv) as [o Ho]; [tot; try done; lia|].
  pose proof (Inv_nonnull _ _ _ _ Hinv Ho) as Hp.
  pose proof (Inv_counts _ _ _ _ Hinv Ho) as [Hcs _ _ _ _].
  unfold delayed_decrement_ref_cnt. wp_step. eapply wp_use_count; [done..|].
  wp_steps; [apply Z.leb_le; tot; done || lia|]. by apply (self_retire _ _ Hself).
Qed.

Lemma delayed_decrement_weak_ok E tid p s :
  tid < length (num_allocated s) → Inv (OPend p weak :: E) s → S (potential E s) < n →
  wp (delayed_decrement_weak_cnt self tid p) (after (OPend p weak :: E) E (S (potential E s)) s) s.
Proof.
  intros Htid Hinv Hpot.
  destruct (Inv_on_heap _ _ p weak Hinv) as [o Ho]; [tot; try done; lia|].
  pose proof (Inv_nonnull _ _ _ _ Hinv Ho) as Hp.
  pose proof (Inv_counts _ _ _ _ Hinv Ho) as [_ Hcw Hpos _ _].
  unfold delayed_decrement_weak_cnt. wp_step. eapply wp_weak_count; [done..|].
  wp_steps; [apply Z.leb_le; lia|]. by apply (self_retire _ _ Hself).
Qed.

(** The obligation [eject] applies. *)
Definition eject_obl (p : Z) (ty : RetireType) : obl En :=
  match ty with
  | decrement_strong_count => OStrong p
  | decrement_weak_count => OWeak p
  | retire_dispose => ODispose p
  end.

Lemma Inv_target_nonnull a E s p ty : Inv (a :: E) s → target a = Some (p, ty) → p ≠ 0%Z.
Proof.
  intros Hinv Ha. destruct (Inv_on_heap _ _ p ty Hinv) as [o Ho].
  - rewrite total_on_cons, Ha, decide_True by done. lia.
  - by eapply Inv_nonnull.
Qed.

Lemma eject_ok E tid p ty s :
  tid < length (num_allocated s) → Inv (eject_obl p ty :: E) s →
  potential (eject_obl p ty :: E) s ≤ n →
  wp (eject self tid p ty) (after E E (potential E s) s) s.
Proof.
  intros Htid Hinv Hpot. unfold eject.
  assert (p ≠ 0%Z) by (eapply Inv_target_nonnull; [exact Hinv|by destruct ty]).
  wp_steps; [by apply negb_true_iff, Z.eqb_neq|].
  destruct ty; [by apply decrement_ref_ok|by apply decrement_weak_ok|by apply dispose_ok].
Qed.

Lemma weak_add a E s q : total (on q weak) E s ≤ total (on q weak) (a :: E) s.
Proof. rewrite total_cons. lia. Qed.

Lemma destruct_member_ok E tid m s :
  tid < length (num_allocated s) → Inv (member_obls m ++ E) s →
  potential (member_obls m ++ E) s ≤ n →
  wp (destruct_member self tid m) (after (member_obls m ++ E) E (potential (member_obls m ++ E) s) s) s.
Proof.
  intros Htid Hinv Hpot. unfold member_obls in *.
  destruct (raw (member_word m) =? 0)%Z eqn:E0.
  { destruct m; simpl in *; rewrite E0; simpl; by apply wp_ret. }
  destruct m; simpl in *; rewrite E0; simpl; rewrite potential_cons in *; simpl in *.
  - eapply wp_mono; [apply decrement_ref_ok; [done|done|by rewrite potential_cons]|].
    intros u s' H. eapply after_mono; [exact H|lia|done|]. intros q. apply weak_add.
  - eapply wp_mono; [by apply decrement_weak_ok|].
    intros u s' H. eapply after_mono; [exact H|lia|done|]. intros q. apply weak_add.
  - eapply wp_mono; [apply delayed_decrement_ref_ok; [done|done|lia]|].
    intros u s' H. eapply after_mono; [exact H|lia|done|done].
  - eapply wp_mono; [apply delayed_decrement_weak_ok; [done|done|lia]|].
    intros u s' H. eapply after_mono; [exact H|lia|done|done].
Qed.

Lemma members_obls_app ms1 ms2 :
  members_obls (ms1 ++ ms2) = members_obls (En := En) ms1 ++ members_obls ms2.
Proof. unfold members_obls. by rewrite fmap_app, concat_app. Qed.

Lemma members_obls_reverse ms : members_obls (reverse ms) ≡ₚ members_obls (En := En) ms.
Proof.
  unfold members_obls. induction ms as [|m ms IH]; [done|].
  rewrite reverse_cons, fmap_app, concat_app. simpl. rewrite app_nil_r, IH.
  apply Permutation_app_comm.
Qed.

Lemma destruct_members_ok E tid ms s :
  tid < length (num_allocated s) → Inv (members_obls ms ++ E) s →
  potential (members_obls ms ++ E) s ≤ n →
  wp (destruct_members self tid ms)
     (after (members_obls ms ++ E) E (potential (members_obls ms ++ E) s) s) s.
Proof.
  intros Htid Hinv Hpot. unfold destruct_members.
  pose proof (members_obls_reverse ms) as Hperm.
  eapply wp_mono.
  - apply (wp_for_each _ (λ l, after (members_obls ms ++ E) (members_obls l ++ E)
                                  (potential (members_obls ms ++ E) s) s tt)).
    + split; [|by rewrite (potential_perm _ (members_obls ms ++ E)) by (by rewrite Hperm)|done|].
      * eapply Inv_perm; [|exact Hinv]. by rewrite Hperm.
      * intros q. by rewrite (total_perm _ _ (members_obls ms ++ E)) by (by rewrite Hperm).
    + intros m l s' [Hi Hp Hst Hw]. change (members_obls (m :: l)) with (member_obls (En := En) m ++ members_obls l) in *.
      rewrite <-app_assoc in *. eapply wp_mono.
      { apply destruct_member_ok; [by rewrite (stable_threads _ _ Hst)|exact Hi|lia]. }
      intros [] s'' H. eapply after_mono; [exact H|done|done|done].
  - intros [] s' H. exact H.
Qed.

End with_self.

(** ** The deferred lists *)

(** Moving obligations between the running code and the deferred lists. *)
Lemma Inv_ext E s E' s' :
  Inv E s → heap s' = heap s → num_allocated s' = num_allocated s →
  announcements s' = announcements s →
  length (in_progress s') = length (in_progress s) →
  length (deferred_destructs s') = length (deferred_destructs s) →
  length (amortized_work s') = length (amortized_work s) →
  (∀ g, total g E' s' = total g E s) → Inv E' s'.
Proof.
  intros [[] Hobj Hsn] Hh Hn Ha Hip Hd Hwk Htot. split.
  - constructor; rewrite ?Hh, ?Hn; congruence.
  - intros p. eapply obj_ok_ext; [by rewrite Hh|intros; apply Htot..|apply Hobj].
  - eapply snaps_ok_ext; [done|done|rewrite Hh; births|..]; intros; [|left]; by rewrite Htot.
Qed.

Lemma potential_ext E s E' s' :
  heap s' = heap s → (∀ g, total g E' s' = total g E s) → potential E' s' = potential E s.
Proof. intros Hh Ht. unfold potential. by rewrite !Ht, Hh. Qed.

Lemma total_set_deferred g E s tid l l' :
  deferred_destructs s !! tid = Some l →
  total g E (set_deferred (<[tid:=l']> (deferred_destructs s)) s) + countb g (OEntry <$> l) =
  total g E s + countb g (OEntry <$> l').
Proof.
  intros Hl. unfold total; simpl.
  assert (∀ d : list (list En), d !! tid = Some l →
    countb g (OEntry <$> concat (<[tid:=l']> d)) + countb g (OEntry <$> l) =
    countb g (OEntry <$> concat d) + countb g (OEntry <$> l')) as Hc.
  { clear Hl. revert tid. intros i d. revert i.
    induction d as [|a d IH]; intros [|i] Hi; simplify_eq/=; rewrite !fmap_app, !countb_app.
    - lia.
    - specialize (IH _ Hi). lia. }
  specialize (Hc _ Hl). lia.
Qed.

Lemma after_refl E s : Inv E s → after E E (potential E s) s tt s.
Proof. intros H. by split. Qed.

Section with_eject.
  Context (n : nat) (tid : nat) (ejectf : Z → RetireType → M (state V X En) unit).

Definition ejectf_ok : Prop := ∀ E p ty s,
  tid < length (num_allocated s) → Inv (eject_obl p ty :: E) s →
  potential (eject_obl p ty :: E) s ≤ n →
  wp (ejectf p ty) (after E E (potential E s) s) s.

Context (Hej : ejectf_ok).

(** What is pinned among [l] stays pinned by the entries kept so far or by the
    ones that will be kept. *)
Definition keeps_pinned (x : X) (sc : scan_t) (K l : list En) : Prop :=
  ∀ t ty e, snap_ok x t → e ∈ l → e_obj e = snap_ptr t → e_type e = ty → pinned x t e = true →
  ∃ e', e' ∈ K ++ kept_of sc l ∧ e_obj e' = snap_ptr t ∧ e_type e' = ty ∧ pinned x t e' = true.

Lemma kept_of_incl sc (l : list En) e : e ∈ kept_of sc l → e ∈ l.
Proof.
  revert sc. induction l as [|x l IH]; intros sc; simpl; [done|].
  destruct (check sc x) as [[] sc']; [rewrite !elem_of_cons|rewrite elem_of_cons]; naive_solver.
Qed.

Lemma total_pins_pos x t ty L E s e :
  e ∈ L → e_obj e = snap_ptr t → e_type e = ty → pinned x t e = true →
  0 < total (pins x t ty) ((OEntry <$> L) ++ E) s.
Proof.
  intros He Ho Ht Hp. rewrite total_app.
  assert (0 < countb (pins x t ty) (OEntry <$> L)); [|lia].
  apply countb_pos. exists (OEntry e). split; [by apply list_elem_of_fmap_2|]. simpl.
  by rewrite bool_decide_eq_true_2.
Qed.

(** Taking an unprotected entry out of the list keeps every snapshot pinned. *)
Lemma eject_entry_inv x l K E sc sc' s :
  check sc x = (false, sc') →
  keeps_pinned (announcements s) sc K (x :: l) →
  Inv ((OEntry <$> x :: l) ++ (OEntry <$> K) ++ E) s →
  Inv (eject_obl (e_obj x) (e_type x) :: (OEntry <$> l) ++ (OEntry <$> K) ++ E) s.
Proof.
  intros Hc Hkp [Hb Hobj Hsn]. simpl in *.
  assert (∀ g, g (eject_obl (e_obj x) (e_type x)) = g (OEntry x) →
    total g (eject_obl (e_obj x) (e_type x) :: (OEntry <$> l) ++ (OEntry <$> K) ++ E) s =
    total g (OEntry x :: (OEntry <$> l) ++ (OEntry <$> K) ++ E) s) as Htot.
  { intros g Hg. rewrite !total_cons. by rewrite Hg. }
  assert (∀ q ty, on q ty (eject_obl (e_obj x) (e_type x)) = on q ty (OEntry x)) as Hon.
  { intros q ty. unfold on. simpl. by destruct (e_type x). }
  split; [done| |].
  - intros q. eapply obj_ok_ext; [done|intros; by apply Htot| |apply Hobj].
    apply Htot. by destruct (e_type x).
  - assert (∀ t ty, snap_ok (announcements s) t →
      0 < total (pins (announcements s) t ty) (OEntry x :: (OEntry <$> l) ++ (OEntry <$> K) ++ E) s →
      0 < total (pins (announcements s) t ty)
            (eject_obl (e_obj x) (e_type x) :: (OEntry <$> l) ++ (OEntry <$> K) ++ E) s) as Hpins.
    { intros t ty Hok. rewrite !total_cons. simpl.
      destruct (bool_decide (e_obj x = snap_ptr t ∧ e_type x = ty) && pinned (announcements s) t x) eqn:Hx;
        simpl; [|lia]. intros _.
      apply andb_true_iff in Hx as [[Hxo Hxt]%bool_decide_eq_true Hxp].
      destruct (Hkp t ty x Hok ltac:(by left) Hxo Hxt Hxp) as (e' & He' & ? & ? & ?).
      simpl in He'. rewrite Hc in He'.
      assert (e' ∈ l ++ K) as Hin.
      { apply elem_of_app in He' as [?|?%kept_of_incl]; apply elem_of_app; auto. }
      pose proof (total_pins_pos _ t ty (l ++ K) E s e' Hin ltac:(done) ltac:(done) ltac:(done)) as Hpos.
      rewrite fmap_app, <-app_assoc in Hpos. lia. }
    destruct Hsn as [Hs0 Hs1 Hs2]. split; [done|..]; intros t Ht.
    + destruct (Hs1 t Ht) as [[? ?] ?]. split; [by split|auto].
    + destruct (Hs2 t Ht) as ([? ?] & ? & [Hso|Hpd]); (split; [by split|]); (split; [by apply Hpins|]).
      * left. by rewrite Htot.
      * right. by apply Hpins.
Qed.

Lemma remove_applied_ok l sc K E s :
  tid < length (num_allocated s) →
  keeps_pinned (announcements s) sc K l →
  Inv ((OEntry <$> l) ++ (OEntry <$> K) ++ E) s →
  potential ((OEntry <$> l) ++ (OEntry <$> K) ++ E) s ≤ n →
  wp (remove_applied ejectf sc l)
     (λ R s', after ((OEntry <$> l) ++ (OEntry <$> K) ++ E) ((OEntry <$> R) ++ (OEntry <$> K) ++ E)
                (potential ((OEntry <$> l) ++ (OEntry <$> K) ++ E) s) s tt s' ∧
              ((R = l ∧ s' = s) ∨
               potential ((OEntry <$> R) ++ (OEntry <$> K) ++ E) s' <
               potential ((OEntry <$> l) ++ (OEntry <$> K) ++ E) s)) s.
Proof.
  revert sc K s. induction l as [|x l IH]; intros sc K s Htid Hkp Hinv Hpot; simpl remove_applied.
  { apply wp_ret. split; [by apply after_refl|by left]. }
  destruct (check sc x) as [keep sc'] eqn:Hc. destruct keep.
  - (* still protected: kept *)
    assert ((OEntry <$> l) ++ (OEntry <$> x :: K) ++ E ≡ₚ
            (OEntry <$> x :: l) ++ (OEntry <$> K) ++ E) as Hperm
      by (simpl; by rewrite <-Permutation_middle).
    wp_step. eapply wp_mono.
    { apply (IH sc' (x :: K)).
      - done.
      - intros t ty e Hok He Ho Ht Hp.
        destruct (Hkp t ty e Hok ltac:(by right) Ho Ht Hp) as (e' & He' & ?).
        exists e'. split; [|done]. simpl in He'. rewrite Hc in He'.
        revert He'. rewrite !elem_of_app, !elem_of_cons. tauto.
      - eapply Inv_perm; [|exact Hinv]. by rewrite Hperm.
      - by rewrite (potential_perm _ _ _ Hperm). }
    intros R s' [[Hi Hp Hst Hw] Hdec]. wp_steps.
    assert ((OEntry <$> R) ++ (OEntry <$> x :: K) ++ E ≡ₚ
            (OEntry <$> x :: R) ++ (OEntry <$> K) ++ E) as HpermR
      by (simpl; by rewrite <-Permutation_middle).
    rewrite (potential_perm _ _ _ Hperm), (potential_perm _ _ _ HpermR) in *.
    split; [split|].
    + by eapply Inv_perm.
    + done.
    + done.
    + intros q. rewrite <-(total_perm _ _ _ _ HpermR), <-(total_perm _ _ _ _ Hperm). apply Hw.
    + destruct Hdec as [[-> ->]|?]; [by left|by right].
  - (* not announced: ejected *)
    pose proof (eject_entry_inv x l K E sc sc' s Hc Hkp Hinv) as Hinv1.
    assert (potential (eject_obl (e_obj x) (e_type x) :: (OEntry <$> l) ++ (OEntry <$> K) ++ E) s =
            potential ((OEntry <$> x :: l) ++ (OEntry <$> K) ++ E) s) as Hpe.
    { simpl. rewrite !potential_cons. simpl. by destruct (e_type x). }
    assert (potential ((OEntry <$> x :: l) ++ (OEntry <$> K) ++ E) s =
            1 + potential ((OEntry <$> l) ++ (OEntry <$> K) ++ E) s) as Hpx
      by apply (potential_cons (OEntry x)).
    wp_step. eapply wp_mono; [apply Hej; [done|exact Hinv1|lia]|].
    intros [] s1 [Hi1 Hp1 Hst1 Hw1].
    eapply wp_mono.
    { apply (IH sc' K); [by rewrite (stable_threads _ _ Hst1)| |done|lia].
      rewrite (stable_ann _ _ Hst1). intros t ty e Hok He Ho Ht Hp.
      destruct (Hkp t ty e Hok ltac:(by right) Ho Ht Hp) as (e' & He' & ?).
      exists e'. split; [|done]. simpl in He'. by rewrite Hc in He'. }
    intros R s2 [H2 Hdec]. rewrite Hpx. split.
    + eapply after_mono; [exact H2|lia|done|]. intros q. etrans; [apply Hw1|]. apply weak_add.
    + right. destruct H2 as [_ Hp2 _ _]. lia.
Qed.

(** The loop with nothing to do. *)
Lemma eject_loop_idle fuel s E k :
  amortized_work s !! tid = Some 0%Z → tid < length (in_progress s) →
  after E E k s tt s → wp (eject_loop ejectf (S fuel) tid) (after E E k s) s.
Proof.
  intros Hwk Hip Hs. apply lookup_lt_is_Some_2 in Hip as [b Hb]. simpl eject_loop.
  wp_step. wp_step. wp_step. wp_step; [done|]. wp_step. wp_step. wp_step. wp_step; [done|].
  assert ((threshold (length (amortized_work s)) <=? 0)%Z = false) as ->.
  { apply Z.leb_gt. unfold threshold. lia. }
  rewrite andb_false_r. by wp_step.
Qed.

Lemma eject_loop_ok fuel E s :
  tid < length (num_allocated s) → Inv E s →
  potential E s ≤ n → potential E s + 2 ≤ fuel →
  wp (eject_loop ejectf fuel tid) (after E E (potential E s) s) s.
Proof.
  revert s. induction fuel as [|fuel IH]; intros s Htid Hinv Hpot Hfuel; [lia|].
  pose proof Hinv as [[_ _ Hlip Hld Hlw] _ _].
  destruct (lookup_lt_is_Some_2 (in_progress s) tid) as [busy Hbusy]; [lia|].
  destruct (lookup_lt_is_Some_2 (amortized_work s) tid) as [k Hk]; [lia|].
  destruct (lookup_lt_is_Some_2 (deferred_destructs s) tid) as [l Hl]; [lia|].
  simpl eject_loop. wp_step. wp_step. wp_step. wp_step; [done|].
  wp_step. wp_step. wp_step. wp_step; [done|].
  destruct (negb busy && _) eqn:Hgo; last first.
  { wp_step. by apply after_refl. }
  apply andb_true_iff in Hgo as [Hbf _]. apply negb_true_iff in Hbf. subst busy.
  wp_step. wp_step. wp_step. wp_step. wp_step. wp_step; [done|].
  destruct (Nat.eqb_spec (length l) 0) as [Hl0|Hl0].
  { wp_step. split; [|by rewrite (potential_ext E s)|by split; eauto|done].
    apply (Inv_ext E s); simpl; rewrite ?length_insert; done. }
  wp_steps.
  set (s1 := set_deferred _ _).
  assert (∀ g, total g ((OEntry <$> l) ++ (OEntry <$> []) ++ E) s1 = total g E s) as Htot1.
  { intros g. rewrite total_app. pose proof (total_set_deferred g E s tid l [] Hl) as Ht. simpl in Ht.
    change (total g ((OEntry <$> []) ++ E) s1)
      with (total g E (set_deferred (<[tid:=[]]> (deferred_destructs s)) s)). lia. }
  assert (Inv ((OEntry <$> l) ++ (OEntry <$> []) ++ E) s1) as Hinv1
    by (apply (Inv_ext E s); simpl; rewrite ?length_insert; done).
  assert (potential ((OEntry <$> l) ++ (OEntry <$> []) ++ E) s1 = potential E s) as Hpot1
    by (by apply potential_ext).
  eapply wp_mono.
  { apply (remove_applied_ok l (scan (announcements s)) [] E s1); [done| |done|lia].
    intros t ty e Hok He Ho Ht Hp. simpl. by eapply scan_keeps. }
  intros R s2 [[Hinv2 Hpot2 Hst2 Hw2] Hdec]. rewrite Hpot1 in Hpot2, Hdec.
  pose proof Hinv2 as [[_ _ Hlip2 Hld2 Hlw2] _ _].
  assert (length (num_allocated s2) = length (num_allocated s)) as Hn2 by apply (stable_threads _ _ Hst2).
  destruct (lookup_lt_is_Some_2 (deferred_destructs s2) tid) as [later Hlater]; [lia|].
  wp_step. wp_step. wp_step. wp_step; [done|].
  wp_step. wp_step. wp_step. wp_step. wp_step. wp_step.
  set (s3 := set_in_progress _ _).
  assert (∀ g, total g E s3 = total g ((OEntry <$> R) ++ (OEntry <$> []) ++ E) s2) as Htot3.
  { intros g. rewrite total_app. pose proof (total_set_deferred g E s2 tid later (later ++ R) Hlater) as Ht.
    rewrite fmap_app, countb_app in Ht.
    change (total g E s3)
      with (total g E (set_deferred (<[tid:=later ++ R]> (deferred_destructs s2)) s2)).
    change ((OEntry <$> []) ++ E) with E. lia. }
  assert (Inv E s3) as Hinv3 by (eapply Inv_ext; [exact Hinv2|..]; simpl; rewrite ?length_insert; done).
  assert (potential E s3 = potential ((OEntry <$> R) ++ (OEntry <$> []) ++ E) s2) as Hpot3
    by (by apply potential_ext).
  assert (stable s s3) as Hst3.
  { destruct Hst2 as [Ha2 Hip2 Hc2 Hn2' Hh2]. split; simpl in *; try done.
    rewrite Hip2, list_insert_insert_eq. by apply list_insert_id. }
  assert (after E E (potential E s) s tt s3) as H3.
  { split; [done|lia|done|]. intros q. rewrite Htot3. etrans; [apply Hw2|]. by rewrite Htot1. }
  destruct Hdec as [[-> ->]|Hlt].
  - destruct fuel as [|fuel]; [lia|]. eapply wp_mono.
    { apply (eject_loop_idle fuel s3 E (potential E s3)); [|simpl; rewrite !length_insert; lia|by apply after_refl].
      simpl. apply list_lookup_insert_eq. lia. }
    intros [] s4 H4. eapply after_mono; [exact H4|lia|done|]. apply H3.
  - eapply wp_mono; [apply IH; [by rewrite (stable_threads _ _ Hst3)|done|lia|lia]|].
    intros [] s4 H4. eapply after_mono; [exact H4|lia|done|]. apply H3.
Qed.

(** A pending obligation becomes an entry of the list. *)
Lemma push_entry_inv E p ty e l s :
  deferred_destructs s !! tid = Some l → Inv (OPend p ty :: E) s →
  e_obj e = p → e_type e = ty →
  (∀ t, snap_valid s t → snap_ptr t = p → pinned (announcements s) t e = true) →
  let s1 := set_deferred (<[tid:=l ++ [e]]> (deferred_destructs s)) s in
  Inv E s1 ∧ potential E s1 = S (potential E s) ∧
  (∀ q, total (on q weak) E s1 = total (on q weak) (OPend p ty :: E) s).
Proof.
  intros Hl Hinv Heo Het Hpin s1.
  assert (∀ g, total g E s1 = Nat.b2n (g (OEntry e)) + total g E s) as Htot.
  { intros g. pose proof (total_set_deferred g E s tid l (l ++ [e]) Hl) as Ht.
    rewrite fmap_app, countb_app in Ht. simpl in Ht. unfold s1. lia. }
  assert (∀ q ty', total (on q ty') E s1 = total (on q ty') (OPend p ty :: E) s) as Hon.
  { intros q ty'. rewrite Htot, total_cons. unfold on. simpl. by rewrite Heo, Het. }
  split; [|split; [|done]].
  - destruct Hinv as [[] Hobj [Hs0 Hs1 Hs2]]. split.
    + constructor; simpl; rewrite ?length_insert; done.
    + intros q. apply (obj_ok_ext (OPend p ty :: E) s); [done|intros; apply Hon| |apply Hobj].
      rewrite Htot, total_cons. done.
    + assert (∀ t ty', snap_valid s t →
        0 < total (pins (announcements s) t ty') (OPend p ty :: E) s →
        0 < total (pins (announcements s) t ty') E s1) as Hpins.
      { intros t ty' Hok. rewrite Htot, total_cons. simpl. rewrite Heo, Het.
        destruct (bool_decide (p = snap_ptr t ∧ ty = ty')) eqn:Hb; simpl; [|lia].
        apply bool_decide_eq_true in Hb as [Hb _]. rewrite Hpin by done. simpl. lia. }
      split; simpl; [done|..]; intros t Ht.
      * destruct (Hs1 t Ht). eauto.
      * destruct (Hs2 t Ht) as (? & ? & [?|?]); (split; [done|]); (split; [by apply Hpins|]).
        -- left. by rewrite Hon.
        -- right. by apply Hpins.
  - unfold potential. rewrite !Htot. simpl. lia.
Qed.

Lemma retire_ok fuel E p ty s :
  tid < length (num_allocated s) → Inv (OPend p ty :: E) s →
  S (potential E s) ≤ n → S (potential E s) + 2 ≤ fuel →
  wp (retire ejectf fuel tid p ty) (after (OPend p ty :: E) E (S (potential E s)) s) s.
Proof.
  intros Htid Hinv Hpot Hfuel. pose proof Hinv as [[_ _ Hlip Hld Hlw] _ _].
  destruct (lookup_lt_is_Some_2 (amortized_work s) tid) as [k Hk]; [lia|].
  destruct (lookup_lt_is_Some_2 (deferred_destructs s) tid) as [l Hl]; [lia|].
  destruct (Inv_on_heap _ _ p ty Hinv) as [o Ho].
  { rewrite total_on_cons, decide_True by done. lia. }
  destruct (make_entry_ok (announcements s) (heap s) p o ty Ho) as (e & He & Heo & Het & Hpin).
  destruct (push_entry_inv E p ty e l s Hl Hinv Heo Het) as (Hinv1 & Hpot1 & Hw1).
  { intros t [Hok Hborn] Hp. apply Hpin; [done|done|]. apply Hborn. by rewrite Hp. }
  set (s1 := set_deferred _ s) in *.
  unfold retire, push_deferred, work_toward_deferred_decrements. wp_step. wp_step. rewrite He.
  wp_step. apply wp_ret. wp_step. wp_step. wp_step. wp_step. wp_step; [done|]. wp_step. fold s1.
  wp_step. wp_step. wp_step. wp_step; [done|]. wp_step. wp_step.
  set (s2 := set_work _ s1).
  assert (Inv E s2) as Hinv2 by (apply (Inv_ext E s1); simpl; rewrite ?length_insert; done).
  assert (potential E s2 = S (potential E s)) as Hpot2 by (rewrite <-Hpot1; by apply potential_ext).
  eapply wp_mono; [apply eject_loop_ok; [done|done|lia|lia]|].
  intros [] s' H'. eapply after_mono; [exact H'|lia| |].
  - split; simpl; eauto.
  - intros q. by rewrite <-Hw1.
Qed.

(** The destructor of the manager runs when no snapshot is left; every list
    ends up empty. *)
Lemma eject_all_ok l E s :
  Ss = [] → Ws = [] → tid < length (num_allocated s) → Inv ((OEntry <$> l) ++ E) s →
  potential ((OEntry <$> l) ++ E) s ≤ n →
  wp (for_each (λ x, ejectf (e_obj x) (e_type x)) l)
     (λ u s', after ((OEntry <$> l) ++ E) E (potential E s) s u s') s.
Proof.
  intros HSs HWs. revert s. induction l as [|x l IH]; intros s Htid Hinv Hpot; simpl for_each.
  { wp_step. by apply after_refl. }
  assert (potential ((OEntry <$> x :: l) ++ E) s = 1 + potential ((OEntry <$> l) ++ E) s) as Hpx
    by apply (potential_cons (OEntry x)).
  assert (Inv (eject_obl (e_obj x) (e_type x) :: (OEntry <$> l) ++ E) s) as Hinv1.
  { destruct Hinv as [Hb Hobj [Hs0 _ _]]. split; [done| |rewrite HSs, HWs; split; [done|..]; intros t Ht; by apply elem_of_nil in Ht].
    intros q. eapply obj_ok_ext; [done| | |apply Hobj].
    - intros ty. simpl. rewrite !total_cons. f_equal. unfold on. simpl. by destruct (e_type x).
    - simpl. rewrite !total_cons. f_equal. by destruct (e_type x). }
  assert (Nat.b2n (active (eject_obl (e_obj x) (e_type x))) = 1 ∧
          Nat.b2n (pending (eject_obl (e_obj x) (e_type x))) = 0) as [Ha Hpd] by (by destruct (e_type x)).
  wp_step. eapply wp_mono; [apply Hej; [done|exact Hinv1|rewrite potential_cons, Ha, Hpd; lia]|].
  intros [] s1 [Hi1 Hp1 Hst1 Hw1]. eapply wp_mono.
  { apply IH; [by rewrite (stable_threads _ _ Hst1)|done|lia]. }
  intros [] s2 H2. rewrite !potential_app in Hp1. eapply after_mono; [exact H2|lia|done|].
  intros q. etrans; [apply Hw1|]. apply (weak_add (OEntry x)).
Qed.

Lemma shutdown_loop_ok fuel E s :
  Ss = [] → Ws = [] → tid < length (num_allocated s) → Inv E s →
  potential E s ≤ n → potential E s < fuel →
  wp (shutdown_loop ejectf fuel)
     (λ u s', after E E (potential E s) s u s' ∧ concat (deferred_destructs s') = []) s.
Proof.
  intros HSs HWs. revert s. induction fuel as [|fuel IH]; intros s Htid Hinv Hpot Hfuel; [lia|].
  simpl shutdown_loop. wp_step. wp_step.
  destruct (existsb _ _) eqn:Hex; last first.
  { wp_step. split; [by apply after_refl|]. apply not_true_iff_false in Hex.
    assert (∀ v, v ∈ deferred_destructs s → v = []) as Hv.
    { intros v Hv. destruct v as [|e v]; [done|]. destruct Hex. apply existsb_exists.
      exists (e :: v). by rewrite <-list_elem_of_In. }
    clear -Hv. induction (deferred_destructs s) as [|v d IH]; [done|]. simpl.
    rewrite (Hv v) by (by left). apply IH. intros w Hw. apply Hv. by right. }
  wp_step. wp_step. set (d := deferred_destructs s). set (s1 := set_deferred _ s).
  assert (∀ g, total g ((OEntry <$> concat d) ++ E) s1 = total g E s) as Htot1.
  { intros g. rewrite total_app. unfold total, s1; simpl.
    assert (∀ k, concat (replicate k ([] : list En)) = []) as -> by (induction k; done).
    simpl. unfold d. lia. }
  assert (Inv ((OEntry <$> concat d) ++ E) s1) as Hinv1
    by (apply (Inv_ext E s); simpl; rewrite ?length_replicate; done).
  assert (potential ((OEntry <$> concat d) ++ E) s1 = potential E s) as Hpot1 by (by apply potential_ext).
  wp_step. eapply wp_mono; [apply eject_all_ok; [done..|lia]|].
  intros [] s2 [Hi2 Hp2 Hst2 Hw2].
  rewrite potential_app in Hpot1.
  assert (0 < countb active (OEntry <$> concat d)) as Hpos.
  { apply existsb_exists in Hex as (v & Hv & Hlen). destruct v as [|e v]; [done|].
    apply countb_pos. exists (OEntry e). split; [|done]. apply list_elem_of_fmap_2.
    apply list_elem_of_In, in_concat. exists (e :: v). split; [done|by left]. }
  eapply wp_mono; [apply IH; [by rewrite (stable_threads _ _ Hst2)|done|lia|lia]|].
  intros [] s3 [H3 Hc]. split; [|done]. eapply after_mono; [exact H3|lia| |].
  - etrans; [|exact Hst2]. split; simpl; eauto.
  - intros q. etrans; [apply Hw2|]. by rewrite Htot1.
Qed.

End with_eject.

(** ** The knot *)

Lemma manager_ok n : self_ok n (manager n).
Proof.
  induction n as [|n IH]; split; [lia..| |].
  - intros E tid p ty s Htid Hinv Hpot. simpl manager.
    apply (retire_ok n); [|done|done|lia|lia].
    intros E' q ty' s' ???. by apply (eject_ok n).
  - intros E tid ms s Htid Hinv Hpot. simpl manager.
    apply (destruct_members_ok n); [done|done|done|lia].
Qed.

Lemma manager_ejectf_ok n tid : ejectf_ok n tid (eject (manager n) tid).
Proof. intros E p ty s ???. apply (eject_ok n); [apply manager_ok|done..]. Qed.

End safety.
