(* ===== verification/AtomicLoc.v ===== *)
(** * Atomic pointers in memory

    The [std::atomic<counted_ptr_t>] inside every [atomic_rc_ptr] and
    [atomic_weak_ptr]: it lives either outside the managed objects (a cell) or
    in a member of a managed object.  Each function is one atomic instruction
    ([load], [store], [exchange], [compare_exchange]) on the location. *)

From S2P Require Import Prelude StickyCounter CountedObject MemoryManager Accounting ManagerSafety.

Inductive loc :=
  | LCell (i : nat)
  | LField (p : Z) (k : nat).

#[export] Instance loc_eq_dec : EqDecision loc.
Proof. solve_decision. Defined.

(** Replacing the pointer word of a member. *)
Definition member_set_word (w : Z) (m : member) : member :=
  match m with
  | MRc _ => MRc w
  | MWeak _ => MWeak w
  | MAtomicRc _ => MAtomicRc w
  | MAtomicWeak _ => MAtomicWeak w
  end.

Definition is_atomic (m : member) : bool :=
  match m with MAtomicRc _ | MAtomicWeak _ => true | _ => false end.

Section atomic_loc.
  Context {V X En : Type}.
  Local Abbreviation M := (M (state V X En)).

(** The member at a location.  A location inside an object can only be reached
    while the value of the object is alive. *)
Definition read_member (l : loc) : M member :=
  match l with
  | LCell i =>
      c ← gets cells;
      match c !! i with Some m => mret m | None => fail UseAfterFree end
  | LField p k =>
      o ← deref p;
      match storage o with
      | None => fail DestroyedObject
      | Some v => at_ (members v) k
      end
  end.

Definition write_member (l : loc) (m : member) : M unit :=
  match l with
  | LCell i => modify (λ s, set_cells (<[i:=m]> (cells s)) s)
  | LField p k =>
      o ← deref p;
      match storage o with
      | None => fail DestroyedObject
      | Some v => set_obj p (set_storage (Some (Payload (data v) (<[k:=m]> (members v)))) o)
      end
  end.

(** [p->load()] *)
Definition loc_load (l : loc) : M Z :=
  m ← read_member l;
  if is_atomic m then mret (member_word m) else fail OutOfRange.

(** [p->exchange(w)] *)
Definition loc_exchange (l : loc) (w : Z) : M Z :=
  m ← read_member l;
  if is_atomic m then
    write_member l (member_set_word w m);;
    mret (member_word m)
  else fail OutOfRange.

(** [p->store(w)] *)
Definition loc_store (l : loc) (w : Z) : M unit :=
  loc_exchange l w;; mret tt.

(** [p->compare_exchange_strong(expected, desired)]: the result and what
    [expected] holds afterwards. *)
Definition loc_compare_exchange (l : loc) (expected desired : Z) : M (bool * Z) :=
  cur ← loc_load l;
  if (cur =? expected)%Z then
    loc_store l desired;;
    mret (true, expected)
  else mret (false, cur).

Lemma deref_state p (s : state V X En) o s' : deref p s = Ok (o, s') → s' = s ∧ heap s !! p = Some o.
Proof.
  unfold deref, mbind, M_bind, gets. simpl. destruct (p =? 0)%Z; [done|].
  destruct (heap s !! p) as [o'|] eqn:Ho; [|done]. by intros [= <- <-].
Qed.

Lemma read_member_state l (s : state V X En) m s' : read_member l s = Ok (m, s') → s' = s.
Proof.
  destruct l as [i|p k]; simpl; unfold mbind, M_bind.
  - simpl. destruct (cells s !! i); [|done]. by intros [= _ <-].
  - destruct (deref p s) as [[o s1]|] eqn:Ho; [|done]. apply deref_state in Ho as [-> _].
    destruct (storage o) as [v|]; [|done]. unfold at_. destruct (_ !! k); [|done]. by intros [= _ <-].
Qed.

Lemma loc_load_state l (s : state V X En) w s' : loc_load l s = Ok (w, s') → s' = s.
Proof.
  unfold loc_load, mbind, M_bind. destruct (read_member l s) as [[m s1]|] eqn:Hr; [|done].
  apply read_member_state in Hr as ->. destruct (is_atomic m); [|done]. by intros [= _ <-].
Qed.

End atomic_loc.

(** ** Accounting *)

Section atomic_loc_ok.
  Context {V X En : Type} `{Pol : !Policy} `{Sch : !Scheme V X En} `{Laws : !SchemeLaws V X En}.
  Local Abbreviation st := (state V X En).
  Implicit Types (s : st) (E : list (obl En)).

(** [member_at s l m]: the location [l] exists and holds the member [m]. *)
Definition member_at s (l : loc) (m : member) : Prop :=
  match l with
  | LCell i => cells s !! i = Some m
  | LField p k =>
      p ≠ 0%Z ∧ ∃ o v, heap s !! p = Some o ∧ storage o = Some v ∧ members v !! k = Some m
  end.

Lemma wp_read_member l m (Q : member → st → Prop) s :
  member_at s l m → Q m s → wp (read_member l) Q s.
Proof.
  destruct l as [i|p k]; simpl.
  - intros Hm HQ. wp_steps. rewrite Hm. by wp_step.
  - intros (Hp & o & v & Ho & Hv & Hm) HQ. wp_step. eapply wp_deref; [done..|]. rewrite Hv.
    by eapply wp_at.
Qed.

(** The state after writing [m] to [l]. *)
Definition put_member (l : loc) (m : member) s : st :=
  match l with
  | LCell i => set_cells (<[i:=m]> (cells s)) s
  | LField p k =>
      match heap s !! p with
      | Some o =>
          match storage o with
          | Some v => set_heap (<[p:=set_storage (Some (Payload (data v) (<[k:=m]> (members v)))) o]> (heap s)) s
          | None => s
          end
      | None => s
      end
  end.

Lemma wp_write_member l m m' (Q : unit → st → Prop) s :
  member_at s l m → Q tt (put_member l m' s) → wp (write_member l m') Q s.
Proof.
  destruct l as [i|p k]; simpl.
  - intros Hm HQ. by wp_steps.
  - intros (Hp & o & v & Ho & Hv & Hm) HQ. rewrite Ho, Hv in HQ.
    wp_step. eapply wp_deref; [done..|]. rewrite Hv. unfold set_obj. by wp_steps.
Qed.

Lemma countb_members_insert (g : obl En → bool) ms k m m' :
  ms !! k = Some m →
  countb g (members_obls (<[k:=m']> ms)) + countb g (member_obls m) =
  countb g (members_obls ms) + countb g (member_obls m').
Proof.
  unfold members_obls. revert k. induction ms as [|a ms IH]; intros [|k] Hk; simplify_eq/=;
    rewrite !countb_app; [lia|]. specialize (IH _ Hk). lia.
Qed.

Lemma total_put_member (g : obl En → bool) E s l m m' :
  member_at s l m →
  total g E (put_member l m' s) + countb g (member_obls m) =
  total g E s + countb g (member_obls m').
Proof.
  destruct l as [i|p k]; simpl.
  - intros Hm. unfold total; simpl.
    pose proof (msum_insert (λ m, countb g (member_obls m)) (cells s) i m m' Hm). simpl in *. lia.
  - intros (_ & o & v & Ho & Hv & Hm). rewrite Ho, Hv.
    pose proof (total_set_obj g E s p o (set_storage (Some (Payload (data v) (<[k:=m']> (members v)))) o) Ho) as Ht.
    unfold obj_obls in Ht. simpl in Ht. rewrite Hv in Ht.
    pose proof (countb_members_insert g (members v) k m m' Hm). lia.
Qed.

Lemma put_member_heap s l m p o' :
  heap (put_member l m s) !! p = Some o' →
  ∃ o, heap s !! p = Some o ∧ ref_cnt o' = ref_cnt o ∧ weak_cnt o' = weak_cnt o ∧
       disposed o' = disposed o ∧ alive o' = alive o ∧ birthTS o' = birthTS o.
Proof.
  destruct l as [i|q k]; simpl; [eauto 10|].
  destruct (heap s !! q) as [o|] eqn:Ho; [|eauto 10].
  destruct (storage o) as [v|] eqn:Hv; [|eauto 10]. simpl. rewrite lookup_insert.
  case_decide as Hd; [|eauto 10]. intros [= <-]. subst q. exists o. unfold alive; simpl. by rewrite Hv.
Qed.

Lemma put_member_dom s l m p : heap (put_member l m s) !! p = None ↔ heap s !! p = None.
Proof.
  destruct l as [i|q k]; simpl; [done|].
  destruct (heap s !! q) as [o|] eqn:Ho; [|done].
  destruct (storage o) as [v|] eqn:Hv; [|done]. simpl.
  rewrite lookup_insert_None. split; [by intros []|]. intros Hp. split; [done|congruence].
Qed.

Lemma put_member_size s l m : size (heap (put_member l m s)) = size (heap s).
Proof.
  destruct l as [i|q k]; simpl; [done|].
  destruct (heap s !! q) as [o|] eqn:Ho; [|done].
  destruct (storage o) as [v|] eqn:Hv; [|done]. simpl. by rewrite map_size_insert_Some.
Qed.

Lemma put_member_nonzero s l m :
  msum strong_nonzero (heap (put_member l m s)) = msum strong_nonzero (heap s).
Proof.
  destruct l as [i|q k]; simpl; [done|].
  destruct (heap s !! q) as [o|] eqn:Ho; [|done].
  destruct (storage o) as [v|] eqn:Hv; [|done]. simpl. by erewrite msum_insert_same.
Qed.

Lemma put_member_rest s l m :
  announcements (put_member l m s) = announcements s ∧
  num_allocated (put_member l m s) = num_allocated s ∧
  in_progress (put_member l m s) = in_progress s ∧
  deferred_destructs (put_member l m s) = deferred_destructs s ∧
  amortized_work (put_member l m s) = amortized_work s.
Proof. destruct l; simpl; repeat case_match; done. Qed.

(** Writing a member exchanges its obligation with one of the running code. *)
Lemma put_member_inv Ss Ws E E' s l m m' :
  Inv Ss Ws E s → member_at s l m →
  (∀ g, countb g E' + countb g (member_obls m') = countb g E + countb g (member_obls m)) →
  Inv Ss Ws E' (put_member l m' s) ∧ potential E' (put_member l m' s) = potential E s ∧
  ∀ g, total g E' (put_member l m' s) = total g E s.
Proof.
  intros Hinv Hm HE. set (s' := put_member l m' s).
  destruct (put_member_rest s l m') as (Ha & Hn & Hip & Hd & Hw).
  assert (∀ g, total g E' s' = total g E s) as Htot.
  { intros g. pose proof (total_put_member g [] s l m m' Hm) as Ht. specialize (HE g).
    rewrite <-(app_nil_r E), <-(app_nil_r E'), !total_app. unfold s'.
    simpl in *. lia. }
  split; [|split; [|done]].
  - destruct Hinv as [[] Hobj Hsn]. split.
    + constructor; unfold s'; rewrite ?Hn, ?Hip, ?Hd, ?Hw, ?put_member_size; try done.
      by apply put_member_dom.
    + intros p. specialize (Hobj p). unfold obj_ok in *. rewrite !Htot.
      destruct (heap s' !! p) as [o'|] eqn:Ho'.
      * destruct (put_member_heap s l m' p o' Ho') as (o & Ho & Hr & Hwk & Hds & Hal & _).
        rewrite Ho in Hobj. destruct Hobj as [H1 H2 H3 H4 H5].
        split; unfold strong_is, weak_is in *; rewrite ?Hr, ?Hwk, ?Hal, ?Hds; done.
      * apply put_member_dom in Ho'. by rewrite Ho' in Hobj.
    + eapply snaps_ok_ext; [done|done| |..].
      { intros q o' Ho'. left. destruct (put_member_heap s l m' _ o' Ho') as (o & ? & _ & _ & _ & _ & ?). eauto. }
      * intros. by rewrite Htot.
      * intros. left. by rewrite Htot.
  - unfold potential. rewrite !Htot. f_equal. apply put_member_nonzero.
Qed.

(** [exchange] on an atomic member: the obligation of the new word goes in, the
    one of the old word comes out. *)
Lemma loc_exchange_ok Ss Ws E s l m w (Q : Z → st → Prop) :
  Inv Ss Ws (member_obls (member_set_word w m) ++ E) s → member_at s l m → is_atomic m = true →
  (Inv Ss Ws (member_obls m ++ E) (put_member l (member_set_word w m) s) →
   potential (member_obls m ++ E) (put_member l (member_set_word w m) s) =
     potential (member_obls (member_set_word w m) ++ E) s →
   Q (member_word m) (put_member l (member_set_word w m) s)) →
  wp (loc_exchange l w) Q s.
Proof.
  intros Hinv Hm Hat HQ. unfold loc_exchange. wp_step. eapply wp_read_member; [done|].
  rewrite Hat. wp_step. eapply wp_write_member; [done|]. wp_step.
  destruct (put_member_inv Ss Ws _ (member_obls m ++ E) s l m (member_set_word w m) Hinv Hm) as (? & ? & _);
    [|by apply HQ].
  intros g. rewrite !countb_app. lia.
Qed.

Lemma loc_load_ok s l m (Q : Z → st → Prop) :
  member_at s l m → is_atomic m = true → Q (member_word m) s → wp (loc_load l) Q s.
Proof.
  intros Hm Hat HQ. unfold loc_load. wp_step. eapply wp_read_member; [done|].
  rewrite Hat. by wp_step.
Qed.

Lemma wp_exchange s l m w (Q : Z → st → Prop) :
  member_at s l m → is_atomic m = true →
  Q (member_word m) (put_member l (member_set_word w m) s) → wp (loc_exchange l w) Q s.
Proof.
  intros Hm Hat HQ. unfold loc_exchange. wp_step. eapply wp_read_member; [done|].
  rewrite Hat. wp_step. eapply wp_write_member; [done|]. by wp_step.
Qed.

Lemma wp_compare_exchange s l m e w (Q : bool * Z → st → Prop) :
  member_at s l m → is_atomic m = true →
  (if (member_word m =? e)%Z then Q (true, e) (put_member l (member_set_word w m) s)
   else Q (false, member_word m) s) →
  wp (loc_compare_exchange l e w) Q s.
Proof.
  intros Hm Hat HQ. unfold loc_compare_exchange. wp_step. eapply loc_load_ok; [done..|].
  destruct (_ =? _)%Z; [|by wp_step]. wp_step. unfold loc_store. wp_step.
  eapply wp_exchange; [done..|]. by wp_steps.
Qed.

Lemma member_at_put s l m m' : member_at s l m → member_at (put_member l m' s) l m'.
Proof.
  destruct l as [i|p k]; simpl; [by rewrite lookup_insert_eq|].
  intros (Hp & o & v & Ho & Hv & Hm). rewrite Ho, Hv. split; [done|]. simpl. rewrite lookup_insert_eq.
  eexists _, _. split; [done|]. split; [done|]. simpl. apply list_lookup_insert_eq. by eapply lookup_lt_Some.
Qed.

End atomic_loc_ok.
