(* ===== verification/Frame.v ===== *)
(** * What the memory manager does not look at

    The manager reads and writes the counters of the objects and its own lists.
    It never reads the pointer word of a location, except when it destroys the
    object that contains the location.  So its operations commute with a write
    to a location whose object survives ([framed]).  Clients use this when a
    location holds a word whose reference is counted only later, as between the
    two halves of [compare_and_swap]. *)

From S2P Require Import Prelude StickyCounter CountedObject MemoryManager Accounting ManagerSafety AtomicLoc.

(** A change of the counters of an object that does not depend on its value. *)
Definition counters_only {V A : Type} (f : counted_object V → A * counted_object V) : Prop :=
  ∀ o, storage (snd (f o)) = storage o ∧
       ∀ x, f (set_storage x o) = (fst (f o), set_storage x (snd (f o))).

Create HintDb frame.

Section frame.
  Context {V X En : Type} `{Pol : !Policy} `{Sch : !Scheme V X En} `{Laws : !SchemeLaws V X En}.
  Local Abbreviation st := (state V X En).
  Local Abbreviation M := (M st).
  Context (l : loc) (m : member).
  Implicit Types (s : st).

(** The location exists. *)
Definition loc_live s : Prop :=
  match l with LCell _ => True | LField p _ => ∃ o v, heap s !! p = Some o ∧ storage o = Some v end.

Definition framed {A} (c : M A) : Prop :=
  ∀ s a s', c s = Ok (a, s') → loc_live s' →
    loc_live s ∧ c (put_member l m s) = Ok (a, put_member l m s').

Lemma framed_ret {A} (a : A) : framed (mret a).
Proof. by intros s b s' [= <- <-]. Qed.

Lemma framed_fail {A} e : framed (A := A) (fail e).
Proof. done. Qed.

Lemma framed_bind {A B} (c : M A) (f : A → M B) :
  framed c → (∀ a, framed (f a)) → framed (c ≫= f).
Proof.
  intros Hc Hf s b s' H Hl. unfold mbind, M_bind in *. destruct (c s) as [[a s1]|e] eqn:Ha; [|done].
  destruct (Hf a s1 b s' H Hl) as [Hl1 Hb]. destruct (Hc s a s1 Ha Hl1) as [Hl0 Hp]. by rewrite Hp.
Qed.

Lemma framed_assert b : framed (assert_ b).
Proof. destruct b; [apply framed_ret|apply framed_fail]. Qed.

Lemma framed_when b (c : M unit) : framed c → framed (when b c).
Proof. destruct b; [done|intros _; apply framed_ret]. Qed.

Lemma framed_at {A} (v : list A) i : framed (at_ v i).
Proof. unfold at_. destruct (v !! i); [apply framed_ret|apply framed_fail]. Qed.

Lemma framed_lift {A} (r : result A) : framed (lift_result r).
Proof. destruct r; [apply framed_ret|apply framed_fail]. Qed.

Lemma framed_gets {A} (f : st → A) : (∀ s, f (put_member l m s) = f s) → framed (gets f).
Proof. intros Hf s a s' [= <- <-] Hl. split; [done|]. unfold gets. by rewrite Hf. Qed.

Lemma framed_modify (f : st → st) :
  (∀ s, loc_live (f s) → loc_live s ∧ f (put_member l m s) = put_member l m (f s)) → framed (modify f).
Proof. intros Hf s a s' [= <- <-] Hl. destruct (Hf s Hl) as [? Heq]. split; [done|]. unfold modify. by rewrite Heq. Qed.

Lemma framed_for_each {A} (f : A → M unit) (v : list A) : (∀ a, framed (f a)) → framed (for_each f v).
Proof. intros Hf. induction v; simpl; [apply framed_ret|]. by apply framed_bind. Qed.

(** ** Objects *)

Lemma put_member_lookup s p :
  heap (put_member l m s) !! p = heap s !! p ∨
  ∃ o x, heap s !! p = Some o ∧ heap (put_member l m s) !! p = Some (set_storage x o).
Proof.
  destruct l as [i|q k]; simpl; [by left|].
  destruct (heap s !! q) as [o|] eqn:Ho; [|by left]. destruct (storage o) as [v|]; [|by left].
  simpl. rewrite lookup_insert. case_decide; [subst; right; eauto|by left].
Qed.

Lemma framed_deref {A} p (g : counted_object V → M A) :
  (∀ o, framed (g o)) → (∀ o x, g (set_storage x o) = g o) → framed (o ← deref p; g o).
Proof.
  intros Hg Hx s a s' H Hl. unfold deref, mbind, M_bind, gets in *. simpl in *.
  destruct (p =? 0)%Z; [done|]. destruct (heap s !! p) as [o|] eqn:Ho; [|done]. simpl in *.
  destruct (Hg o s a s' H Hl) as [? Hp]. split; [done|].
  destruct (put_member_lookup s p) as [Hpm|(o1 & x & Ho1 & Hpm)]; rewrite Hpm; [by rewrite Ho|].
  simplify_eq. simpl. by rewrite Hx.
Qed.

(** Changing an object without its value. *)
Lemma put_member_set_obj s p o o' :
  heap s !! p = Some o → storage o' = storage o →
  (loc_live (set_heap (<[p:=o']> (heap s)) s) → loc_live s) ∧
  ∀ o1, heap (put_member l m s) !! p = Some o1 →
    put_member l m (set_heap (<[p:=o']> (heap s)) s) =
    set_heap (<[p:=set_storage (storage o1) o']> (heap (put_member l m s))) (put_member l m s).
Proof.
  intros Ho Hst. unfold loc_live. destruct l as [i|q k]; simpl.
  - split; [done|]. intros o1. rewrite Ho. intros [= <-]. f_equal. unfold set_heap, set_cells. simpl. f_equal.
    f_equal. destruct o'. simpl in *. by rewrite <-Hst.
  - split.
    + intros (o2 & v & Ho2 & Hv). simpl in Ho2. rewrite lookup_insert in Ho2. case_decide; simplify_eq.
      * exists o, v. split; [done|congruence].
      * by exists o2, v.
    + intros o1 Ho1. rewrite lookup_insert.
      assert (∀ x, x = storage o → set_storage x o' = o') as Hid by (intros x ->; destruct o'; simpl in *; by rewrite <-Hst).
      case_decide as Hd; [subst q; rewrite Ho in *|destruct (heap s !! q) as [oq|] eqn:Hq].
      * rewrite Hst. destruct (storage o) as [v|] eqn:Hv; simpl in *.
        { rewrite lookup_insert_eq in Ho1. injection Ho1 as <-. unfold set_heap. simpl. by rewrite !insert_insert_eq. }
        { rewrite Hid; [done|congruence]. }
      * destruct (storage oq) as [vq|] eqn:Hvq; simpl in *.
        { rewrite lookup_insert_ne, Ho in Ho1 by done. injection Ho1 as <-. unfold set_heap. simpl. f_equal.
          rewrite insert_insert_ne, Hid by done. done. }
        { rewrite Hid; [done|congruence]. }
      * rewrite Hid; [done|congruence].
Qed.

Lemma framed_with_obj {A} p (f : counted_object V → A * counted_object V) :
  counters_only f → framed (with_obj p f).
Proof.
  intros Hf s a s' H Hl. unfold with_obj, deref, set_obj, mbind, M_bind, gets, modify in *. simpl in *.
  destruct (p =? 0)%Z; [done|]. destruct (heap s !! p) as [o|] eqn:Ho; [|done]. simpl in *.
  destruct (Hf o) as [Hst Hx]. destruct (f o) as [b o'] eqn:Hfo. simpl in *. injection H as <- <-.
  destruct (put_member_set_obj s p o o' Ho Hst) as [Hl0 Hput]. split; [by apply Hl0|].
  destruct (put_member_lookup s p) as [Hpm|(o1 & x & Ho1 & Hpm)]; rewrite Hpm.
  - rewrite Ho. simpl. rewrite Hfo. simpl. rewrite (Hput o) by congruence. repeat f_equal.
    rewrite <-Hst. by destruct o'.
  - simplify_eq. simpl. rewrite Hx. simpl. by rewrite (Hput _ Hpm).
Qed.

(** Destroying the value of an object: the location was in another one. *)
Lemma put_member_kill s p o :
  heap s !! p = Some o →
  let s' := set_heap (<[p:=set_storage None o]> (heap s)) s in
  loc_live s' →
  loc_live s ∧ heap (put_member l m s) !! p = Some o ∧
  put_member l m s' = set_heap (<[p:=set_storage None o]> (heap (put_member l m s))) (put_member l m s).
Proof.
  intros Ho s' Hl. unfold loc_live in *. destruct l as [i|q k]; simpl; [done|].
  destruct Hl as (oq & vq & Hq & Hvq). simpl in Hq. rewrite lookup_insert in Hq.
  case_decide as Hd; [by simplify_eq|]. rewrite lookup_insert_ne, Hq, Hvq by done. split; [eauto|]. simpl.
  rewrite lookup_insert_ne by done. split; [done|]. unfold set_heap. simpl. f_equal. by rewrite insert_insert_ne.
Qed.

Lemma framed_delete p : framed (modify (λ s, set_heap (delete p (heap s)) s)).
Proof.
  apply framed_modify. intros s Hl. unfold loc_live in *. destruct l as [i|q k]; simpl; [done|].
  destruct Hl as (o & v & Ho & Hv). simpl in Ho. apply lookup_delete_Some in Ho as [Hne Ho].
  split; [eauto|]. rewrite Ho, Hv, lookup_delete_ne, Ho, Hv by done. unfold set_heap. simpl. f_equal.
  by rewrite delete_insert_ne.
Qed.

(** Changes of the manager's own fields. *)
Lemma framed_own (f : st → st) :
  (∀ s h c, f (set_cells c (set_heap h s)) = set_cells c (set_heap h (f s)) ∧ heap (f s) = heap s ∧ cells (f s) = cells s) →
  framed (modify f).
Proof.
  intros Hf. apply framed_modify. intros s. destruct (Hf s (heap s) (cells s)) as (_ & Hh & Hc).
  unfold loc_live. destruct l as [i|q k]; simpl.
  - intros _. split; [done|]. rewrite Hc. destruct (Hf s (heap s) (<[i:=m]> (cells s))) as (Heq & _).
    replace (set_cells (<[i:=m]> (cells s)) (set_heap (heap s) s)) with (set_cells (<[i:=m]> (cells s)) s) in Heq by by destruct s.
    rewrite Heq. rewrite <-Hh. by destruct (f s).
  - intros (o & v & Ho & Hv). rewrite Hh in *. split; [eauto|]. rewrite Ho, Hv.
    set (h := <[q := _]> (heap s)). destruct (Hf s h (cells s)) as (Heq & _).
    replace (set_cells (cells s) (set_heap h s)) with (set_heap h s) in Heq by by destruct s.
    rewrite Heq, <-Hc. by destruct (f s).
Qed.

(** ** The operations of the manager *)

Lemma counters_use_count : counters_only (V := V) get_use_count.
Proof. intros o. unfold get_use_count. simpl. by destruct (load _ _). Qed.
Lemma counters_weak_count : counters_only (V := V) get_weak_count.
Proof. intros o. unfold get_weak_count. simpl. by destruct (load _ _). Qed.
Lemma counters_add_refs k : counters_only (V := V) (add_refs k).
Proof. done. Qed.
Lemma counters_sub_refs k : counters_only (V := V) (sub_refs k).
Proof. intros o. unfold sub_refs. cbn [set_storage ref_cnt]. by destruct (decrement cnt_width (ref_cnt o) (wrap cnt_width k)). Qed.
Lemma counters_add_weak_refs k : counters_only (V := V) (add_weak_refs k).
Proof. done. Qed.
Lemma counters_release_weak k : counters_only (V := V) (release_weak_refs k).
Proof. intros o. unfold release_weak_refs. cbn [set_storage weak_cnt]. by destruct (decrement cnt_width (weak_cnt o) (wrap cnt_width k)). Qed.
Lemma counters_disposed : counters_only (V := V) (λ o, (tt, set_disposed true o)).
Proof. done. Qed.

Hint Resolve framed_ret framed_fail framed_bind framed_assert framed_when framed_at framed_lift
  framed_for_each framed_with_obj framed_delete counters_use_count counters_weak_count counters_add_refs
  counters_sub_refs counters_add_weak_refs counters_release_weak counters_disposed : frame.

(** Reading a field of the manager. *)
Lemma framed_field {A} (f : st → A) :
  (∀ s h c, f (set_cells c (set_heap h s)) = f s) → framed (gets f).
Proof.
  intros Hf. apply framed_gets. intros s. destruct l as [i|q k]; simpl.
  - replace (set_cells (<[i:=m]> (cells s)) s) with (set_cells (<[i:=m]> (cells s)) (set_heap (heap s) s)) by by destruct s.
    apply Hf.
  - repeat case_match; try done. set (h := <[q := _]> (heap s)).
    replace (set_heap h s) with (set_cells (cells s) (set_heap h s)) by by destruct s. apply Hf.
Qed.

Ltac frame :=
  repeat match goal with
  | |- framed (gets _) => by apply framed_field
  | |- framed (modify _) => first [apply framed_delete | by apply framed_own]
  | |- framed (deref _ ≫= _) => apply framed_deref; [intros ?|done]
  | |- framed (_ ≫= _) => apply framed_bind; [|intros ?]
  | |- framed (if ?b then _ else _) => destruct b
  | |- framed (match ?x with _ => _ end) => destruct x
  | |- framed (let '(_, _) := ?x in _) => destruct x
  | |- framed _ => progress auto with frame
  end.

Section base.
  Context (self : derived V X En) (tid : nat).
  Hypothesis retire_framed : ∀ tid p ty, framed (d_retire self tid p ty).
  Hypothesis destruct_framed : ∀ tid ms, framed (d_destruct self tid ms).
  Local Hint Resolve retire_framed destruct_framed : frame.

Lemma dispose_object_framed p : framed (dispose_object self tid p).
Proof.
  intros s a s' H Hl. unfold dispose_object, set_obj in *. unfold deref, mbind, M_bind, gets in *. simpl in *.
  destruct (p =? 0)%Z; [done|]. destruct (heap s !! p) as [o|] eqn:Ho; [|done]. simpl in *.
  destruct (storage o) as [v|] eqn:Hv; [|done]. unfold modify in *. simpl in *.
  assert (framed (d_destruct self tid (members v);; with_obj p (λ o, (tt, set_disposed true o)))) as Hrest by frame.
  destruct (Hrest _ _ _ H Hl) as [Hl1 Hput].
  destruct (put_member_kill s p o Ho Hl1) as (Hl0 & Hp & Hk). split; [done|].
  rewrite Hp. simpl. rewrite Hv. rewrite Hk in Hput. exact Hput.
Qed.

Lemma decrement_allocations_framed : framed (decrement_allocations tid).
Proof. unfold decrement_allocations. frame. Qed.

Lemma destroy_framed p : framed (destroy tid p).
Proof. unfold destroy, delete_object. frame. all: apply decrement_allocations_framed. Qed.

Local Hint Resolve dispose_object_framed destroy_framed : frame.

Lemma release_refs_framed p k : framed (release_refs self tid p k).
Proof. unfold release_refs. frame. Qed.

Local Hint Resolve release_refs_framed : frame.

Lemma decrement_ref_cnt_framed p : framed (decrement_ref_cnt self tid p).
Proof. unfold decrement_ref_cnt. frame. Qed.

Lemma decrement_weak_cnt_framed p : framed (decrement_weak_cnt tid p).
Proof. unfold decrement_weak_cnt. frame. Qed.

Lemma delayed_ref_framed p : framed (delayed_decrement_ref_cnt self tid p).
Proof. unfold delayed_decrement_ref_cnt. frame. Qed.

Lemma delayed_weak_framed p : framed (delayed_decrement_weak_cnt self tid p).
Proof. unfold delayed_decrement_weak_cnt. frame. Qed.

Local Hint Resolve decrement_ref_cnt_framed decrement_weak_cnt_framed delayed_ref_framed delayed_weak_framed : frame.

Lemma eject_framed p ty : framed (eject self tid p ty).
Proof. unfold eject, dispose. frame. Qed.

Lemma destruct_members_framed ms : framed (destruct_members self tid ms).
Proof. unfold destruct_members, destruct_member. frame. apply framed_for_each. intros a. frame. Qed.

End base.

Lemma remove_applied_framed ejectf sc (v : list En) :
  (∀ p ty, framed (ejectf p ty)) → framed (remove_applied ejectf sc v).
Proof.
  intros He. revert sc. induction v as [|x v IH]; intros sc; simpl; [apply framed_ret|].
  destruct (check sc x) as [[] sc']; frame.
Qed.

Lemma eject_loop_framed ejectf fuel tid :
  (∀ p ty, framed (ejectf p ty)) → framed (eject_loop ejectf fuel tid).
Proof.
  intros He. induction fuel as [|fuel IH]; simpl; [apply framed_fail|].
  frame. by apply remove_applied_framed.
Qed.

Lemma retire_framed ejectf fuel tid p ty :
  (∀ p ty, framed (ejectf p ty)) → framed (retire ejectf fuel tid p ty).
Proof.
  intros He. unfold retire.
  assert (∀ e, framed (push_deferred tid e;; work_toward_deferred_decrements ejectf fuel tid 1)) as Hrest.
  { intros e. unfold push_deferred, work_toward_deferred_decrements. frame. by apply eject_loop_framed. }
  intros s a s' H Hl. unfold get, mbind, M_bind in *. simpl in *.
  destruct (make_entry (announcements s) (heap s) p ty) as [e|] eqn:Hent; [|done]. simpl in *.
  destruct (Hrest e s a s' H Hl) as [? Hp]. split; [done|].
  destruct (put_member_rest s l m) as (-> & _).
  rewrite (make_entry_ext (announcements s) _ (heap s)), Hent; [exact Hp|].
  destruct (put_member_lookup s p) as [-> |(o & x & Ho & ->)]; [done|]. by rewrite Ho.
Qed.

Lemma manager_framed n :
  (∀ tid p ty, framed (d_retire (manager n) tid p ty)) ∧ (∀ tid ms, framed (d_destruct (manager n) tid ms)).
Proof.
  induction n as [|n [IH1 IH2]]; simpl; [by split|]. split; intros.
  - apply retire_framed. intros. by apply eject_framed.
  - by apply destruct_members_framed.
Qed.

End frame.
