(* ===== verification/Backend.v ===== *)
(** * The interface between the smart pointers and a backend

    The pointer classes are templates over the memory manager.  [Backend] lists
    the operations they use beside those of [memory_manager_base]; what a
    backend promises about them is [BackendLaws], stated with the invariant of
    [Accounting].  The pointer classes are defined and proved against the
    interface; AcquireRetire.v, AcquireRetireEBR.v and AcquireRetireIBR.v
    implement it. *)

From S2P Require Import Prelude StickyCounter CountedObject MemoryManager Accounting ManagerSafety AtomicLoc.

Class Backend (V X En : Type) := {
  (** [memory_manager::acquired_pointer<counted_ptr_t>] *)
  acquired : Type;
  acq_value : acquired → Z;
  (** an assignment through the reference that [get()] returns *)
  acq_set : acquired → Z → acquired;
  acq_null : acquired;
  acq_is_protected : acquired → bool;
  (** [clear()], and the destructor, which is [clear_protection()] *)
  acq_clear : acquired → M (state V X En) acquired;
  acq_destruct : acquired → M (state V X En) unit;
  mm_acquire : nat → loc → M (state V X En) acquired;
  mm_reserve : nat → Z → M (state V X En) acquired;
  mm_reserve_nothing : acquired;
  mm_protect_snapshot : nat → loc → M (state V X En) acquired;
  mm_create_object : nat → payload V → M (state V X En) Z
}.

Section interface.
  Context {V X En : Type} `{Pol : !Policy} `{Sch : !Scheme V X En} `{Laws : !SchemeLaws V X En}.
  Local Abbreviation st := (state V X En).

(** The values of the objects and the cells are unchanged. *)
Record same_values (s s' : st) : Prop := {
  sv_cells : cells s' = cells s;
  sv_heap p : (λ o, (storage o, birthTS o)) <$> heap s' !! p = (λ o, (storage o, birthTS o)) <$> heap s !! p;
  sv_threads : length (num_allocated s') = length (num_allocated s);
  sv_in_progress : in_progress s' = in_progress s;
  sv_deferred : deferred_destructs s' = deferred_destructs s
}.

#[export] Instance same_values_preorder : PreOrder same_values.
Proof.
  split; [by split|]. intros s1 s2 s3 [A1 B1 C1 D1 E1] [A2 B2 C2 D2 E2]. split; congruence.
Qed.

(** So the obligations are the same. *)
Lemma same_values_total g E s s' : same_values s s' → total g E s' = total g E s.
Proof.
  intros [Hc Hh _ _ Hd]. unfold total. rewrite Hc, Hd. do 2 f_equal.
  assert (storage <$> heap s' = storage <$> heap s) as Hst.
  { apply map_eq. intros p. rewrite !lookup_fmap. specialize (Hh p).
    destruct (heap s' !! p), (heap s !! p); simplify_eq/=; congruence. }
  set (f := λ st : option (payload V), countb g (match st with Some v => members_obls (members v) | None => [] end)).
  transitivity (msum f (storage <$> heap s')); [by rewrite msum_fmap|]. rewrite Hst. by rewrite msum_fmap.
Qed.

Lemma same_values_member s s' l m : same_values s s' → member_at s l m → member_at s' l m.
Proof.
  intros [Hc Hs _ _ _]. destruct l as [i|p k]; simpl; [by rewrite Hc|].
  intros (Hp & o & v & Ho & Hv & Hm). split; [done|]. specialize (Hs p). rewrite Ho in Hs. simpl in Hs.
  destruct (heap s' !! p) as [o'|]; simplify_eq/=. exists o', v. split; [done|]. split; [congruence|done].
Qed.

Lemma same_values_stable s s' : same_values s s' → announcements s' = announcements s → stable s s'.
Proof.
  intros [Hc Hh Ht Hp _] Ha. split; [done..|]. intros p o' Ho'. specialize (Hh p). rewrite Ho' in Hh.
  destruct (heap s !! p) as [o|]; simplify_eq/=. eauto.
Qed.

Lemma same_values_set_ann s x : same_values s (set_announcements x s).
Proof. by split. Qed.

(** Changing the announcements without giving up one that is in use. *)
Lemma Inv_set_announcements Ss Ws E x' s :
  (∀ t, t ∈ Ss ∨ t ∈ Ws → snap_ok (announcements s) t →
        snap_ok x' t ∧ ∀ e, pinned (announcements s) t e = true → pinned x' t e = true) →
  (∀ b, born_in (announcements s) b → born_in x' b) →
  Inv Ss Ws E s → Inv Ss Ws E (set_announcements x' s).
Proof.
  intros Hx Hborn' [[] Hobj [Hbr Hs Hw]].
  assert (∀ t ty, t ∈ Ss ∨ t ∈ Ws → snap_ok (announcements s) t →
    0 < total (pins (announcements s) t ty) E s →
    0 < total (pins x' t ty) E (set_announcements x' s)) as Hpins.
  { intros t ty Ht Hok Hpos. eapply Nat.lt_le_trans; [exact Hpos|].
    change (total (pins x' t ty) E (set_announcements x' s)) with (total (pins x' t ty) E s).
    apply total_le. destruct (Hx t Ht Hok) as [_ Hp]. intros []; simpl; try done.
    intros [? ?]%andb_true_iff. apply andb_true_iff. eauto. }
  split; [by constructor|exact Hobj|]. split; simpl; [eauto|..]; intros t Ht.
  - destruct (Hs t Ht) as [[Hok Hborn] Hpos]. split; [split; [apply Hx; eauto|done]|]. apply Hpins; eauto.
  - destruct (Hw t Ht) as ([Hok Hborn] & Hpos & Hor). split; [split; [apply Hx; eauto|done]|].
    split; [apply Hpins; eauto|]. destruct Hor as [?|?]; [by left|right; apply Hpins; eauto].
Qed.

(** Giving up snapshots is always possible. *)
Lemma Inv_snaps_incl Ss Ss' Ws Ws' E s :
  (∀ t, t ∈ Ss' → t ∈ Ss) → (∀ t, t ∈ Ws' → t ∈ Ws) → Inv Ss Ws E s → Inv Ss' Ws' E s.
Proof. intros HS HW [Hb Ho [H0 H1 H2]]. split; [done|done|]. split; auto. Qed.


Lemma Inv_drop_snap t Ss Ws E s : Inv (t :: Ss) Ws E s → Inv Ss Ws E s.
Proof. apply Inv_snaps_incl; [by right|done]. Qed.

Lemma Inv_drop_weak_snap t Ss Ws E s : Inv Ss (t :: Ws) E s → Inv Ss Ws E s.
Proof. apply Inv_snaps_incl; [done|by right]. Qed.

Lemma Inv_add_snap t Ss Ws E s :
  Inv Ss Ws E s → snap_valid s t →
  0 < total (pins (announcements s) t decrement_strong_count) E s → Inv (t :: Ss) Ws E s.
Proof.
  intros [Hb Ho [H0 H1 H2]] Hok Hp. split; [done|done|]. split; [done| |done].
  by intros t' [-> | ?]%elem_of_cons; [|apply H1].
Qed.

Lemma Inv_add_weak_snap t Ss Ws E s :
  Inv Ss Ws E s → snap_valid s t →
  0 < total (pins (announcements s) t decrement_weak_count) E s →
  0 < total (on (snap_ptr t) decrement_strong_count) E s → Inv Ss (t :: Ws) E s.
Proof.
  intros [Hb Ho [H0 H1 H2]] Hok Hp Hs. split; [done|done|]. split; [done|done|].
  intros t' [-> | ?]%elem_of_cons; [|by apply H2]. split; [done|]. split; [done|]. by left.
Qed.

(** A member accounts for its obligation. *)
Lemma total_member_at (g : obl En → bool) E (s : st) l m :
  member_at s l m → countb g (member_obls m) ≤ total g E s.
Proof.
  destruct l as [i|p k]; simpl.
  - intros Hm. unfold total.
    pose proof (msum_delete (λ m, countb g (member_obls m)) (cells s) i m Hm). simpl in *. lia.
  - intros (_ & o & v & Ho & Hv & Hm). unfold total.
    pose proof (msum_delete (λ o, countb g (obj_obls o)) (heap s) p o Ho) as Hd. simpl in Hd.
    unfold obj_obls at 2 in Hd. rewrite Hv in Hd.
    pose proof (countb_members_insert g (members v) k m (MRc 0) Hm) as Hi.
    assert (member_obls (En := En) (MRc 0) = []) as Hnil
      by (unfold member_obls; simpl; by rewrite raw_aligned).
    rewrite Hnil in Hi. simpl in Hi. lia.
Qed.

(** The obligation of a member is among those on its object. *)
Lemma total_member_on E (s : st) l m p ty :
  member_at s l m → member_obls (En := En) m = [OPend p ty] → 0 < total (on p ty) E s.
Proof.
  intros Hm Hob. pose proof (total_member_at (on p ty) E s l m Hm) as H. rewrite Hob in H.
  simpl in H. unfold on in H at 1. simpl in H. rewrite bool_decide_eq_true_2 in H by done.
  simpl in H. lia.
Qed.

(** An [atomic_rc_ptr] that is not null has a reference. *)
Lemma atomic_rc_obls (w : Z) :
  raw w ≠ 0%Z → member_obls (En := En) (MAtomicRc w) = [OPend (raw w) decrement_strong_count].
Proof. intros Hw. unfold member_obls. simpl. by rewrite (proj2 (Z.eqb_neq _ _) Hw). Qed.

Lemma total_atomic_rc E (s : st) l w :
  member_at s l (MAtomicRc w) → raw w ≠ 0%Z → 0 < total (on (raw w) decrement_strong_count) E s.
Proof. intros Hm Hw. eapply total_member_on; [done|]. by apply atomic_rc_obls. Qed.

Lemma total_member_pins E (s : st) l m t ty :
  member_at s l m → member_obls (En := En) m = [OPend (snap_ptr t) ty] →
  0 < total (pins (announcements s) t ty) E s.
Proof.
  intros Hm Hob. pose proof (total_member_at (pins (announcements s) t ty) E s l m Hm) as H.
  rewrite Hob in H. simpl in H. rewrite bool_decide_eq_true_2 in H by done. simpl in H. lia.
Qed.

(** The object of an atomic member is in memory. *)
Lemma member_object Ss Ws E l m s :
  Inv Ss Ws E s → member_at s l m → is_atomic m = true → raw (member_word m) ≠ 0%Z →
  ∃ o, heap s !! raw (member_word m) = Some o.
Proof.
  intros Hinv Hm Hat Hnz.
  assert (∃ ty, member_obls (En := En) m = [OPend (raw (member_word m)) ty]) as [ty Hob].
  { unfold member_obls. rewrite (proj2 (Z.eqb_neq _ _) Hnz). destruct m; try done; eauto. }
  eapply (Inv_on_heap _ _ _ _ _ ty); [exact Hinv|]. by eapply total_member_on.
Qed.

Lemma same_values_set_obj s p o o' :
  heap s !! p = Some o → storage o' = storage o → birthTS o' = birthTS o →
  same_values s (set_heap (<[p:=o']> (heap s)) s).
Proof.
  intros Ho Hst Hb. split; try done. intros q. simpl. rewrite lookup_insert.
  case_decide; [subst q; rewrite Ho; simpl; congruence|done].
Qed.

(** The object of a snapshot is in memory. *)
Lemma Inv_snap_heap Ss Ws E s t :
  Inv Ss Ws E s → t ∈ Ss ∨ t ∈ Ws → ∃ o, heap s !! snap_ptr t = Some o.
Proof.
  intros Hinv Ht. pose proof (inv_snaps _ _ _ _ Hinv) as [_ H1 H2].
  assert (∃ ty, 0 < total (pins (announcements s) t ty) E s) as [ty Hty].
  { destruct Ht as [Ht|Ht]; [destruct (H1 t Ht)|destruct (H2 t Ht) as (_ & ? & _)]; eauto. }
  eapply (Inv_on_heap _ _ _ _ _ ty); [exact Hinv|].
  eapply Nat.lt_le_trans; [exact Hty|]. apply total_le. intros a. apply pins_on.
Qed.

(** ** Making references *)

(** [increment_ref_cnt] adds a reference unless the strong count is zero. *)
Lemma increment_ref_ok Ss Ws E p o s :
  Inv Ss Ws E s → heap s !! p = Some o → strong_room o →
  wp (increment_ref_cnt p)
     (λ b s', b = negb (total (on p decrement_strong_count) E s =? 0)%nat ∧ same_values s s' ∧
              announcements s' = announcements s ∧ potential E s' = potential E s ∧
              Inv Ss Ws (if b : bool then OStrong p :: E else E) s') s.
Proof.
  intros Hinv Ho Hroom. pose proof (Inv_nonnull _ _ _ _ _ _ Hinv Ho) as Hp.
  pose proof (Inv_counts _ _ _ _ _ _ Hinv Ho) as Hc. pose proof Hc as [Hcs Hcw Hpos Hal Hdead].
  pose proof Hinv as [Hb Hobj Hsn].
  destruct (add_refs_is _ _ Hcs Hroom) as (x & Hadd & Hx).
  unfold increment_ref_cnt. wp_steps; [by apply negb_true_iff, Z.eqb_neq|].
  eapply wp_with_obj; [done..|]. set (o' := set_ref_cnt x o) in *.
  pose proof (potential_set_obj E s p o o' Ho eq_refl) as Hpot.
  rewrite (strong_nonzero_is _ _ Hcs), (strong_nonzero_is _ _ Hx) in Hpot.
  split; [done|]. split; [by eapply same_values_set_obj|]. split; [done|].
  destruct (Nat.eqb_spec (total (on p decrement_strong_count) E s) 0) as [HS|HS]; simpl in *; (split; [lia|]).
  - eapply Inv_set_obj; [done|done|done|done|by intros; apply Hobj| |done]. rewrite HS in *. by split.
  - eapply Inv_set_obj; [done|done|done|done| | |by apply snaps_ok_add].
    + intros q Hq. rewrite obj_ok_cons; [apply Hobj|by eapply about_target|done].
    + rewrite !total_on_cons, total_destroying_target by done. simpl target.
      rewrite decide_True, !decide_False by done. simpl. split; [exact Hx|exact Hcw|exact Hpos| |].
      * intros Ha. destruct (Hal Ha) as [? ->]. destruct (Nat.eqb_spec (total (on p decrement_strong_count) E s) 0); done.
      * intros Ha. destruct (Hdead Ha). lia.
Qed.

(** The weak count of an object in memory is never zero. *)
Lemma increment_weak_ok Ss Ws E p o s :
  Inv Ss Ws E s → heap s !! p = Some o → weak_room o →
  wp (increment_weak_cnt p)
     (λ b s', b = true ∧ same_values s s' ∧ announcements s' = announcements s ∧
              potential E s' = potential E s ∧ Inv Ss Ws (OWeak p :: E) s') s.
Proof.
  intros Hinv Ho Hroom. pose proof (Inv_nonnull _ _ _ _ _ _ Hinv Ho) as Hp.
  pose proof (Inv_counts _ _ _ _ _ _ Hinv Ho) as [Hcs Hcw Hpos Hal Hdead].
  pose proof Hinv as [Hb Hobj Hsn].
  destruct (add_weak_refs_is _ _ Hcw Hroom) as (x & Hadd & Hx).
  unfold increment_weak_cnt. wp_steps; [by apply negb_true_iff, Z.eqb_neq|].
  eapply wp_with_obj; [done..|]. set (o' := set_weak_cnt x o) in *.
  pose proof (potential_set_obj E s p o o' Ho eq_refl) as Hpot.
  change (strong_nonzero o') with (strong_nonzero o) in Hpot.
  destruct (Nat.eqb_spec (total (on p decrement_weak_count) E s + alive o + total (destroying p) E s) 0) as [|_]; [lia|].
  split; [done|]. split; [by eapply same_values_set_obj|]. split; [done|]. split; [lia|].
  eapply Inv_set_obj; [done|done|done|done| | |by apply snaps_ok_add].
  - intros q Hq. rewrite obj_ok_cons; [apply Hobj|by eapply about_target|done].
  - rewrite !total_on_cons, total_destroying_target by done. simpl target.
    rewrite (decide_True (P := Some (p, decrement_weak_count) = Some (p, decrement_weak_count))), !decide_False by done.
    simpl. split; [done|exact Hx|change (alive o') with (alive o); lia|done|done].
Qed.

(** A new object holds one reference; the obligations of the members of its
    value pass to it. *)
Lemma new_object_ok `{!Allocator} Ss Ws E tid ts (v : payload V) s :
  tid < length (num_allocated s) → born_in (announcements s) ts →
  Inv Ss Ws (members_obls (members v) ++ E) s →
  wp (increment_allocations tid;; new_object ts v)
     (λ p s', Inv Ss Ws (OStrong p :: E) s' ∧ p = malloc (dom (heap s)) ∧
              heap s' = <[p:=new_counted_object ts v]> (heap s) ∧ cells s' = cells s ∧
              length (num_allocated s') = length (num_allocated s) ∧
              in_progress s' = in_progress s ∧ announcements s' = announcements s ∧
              potential (OStrong p :: E) s' = 2 + potential (members_obls (members v) ++ E) s) s.
Proof.
  intros Htid Hborn Hinv. apply lookup_lt_is_Some_2 in Htid as [k Hk].
  unfold increment_allocations, new_object, set_obj. wp_steps; [done|]. wp_steps.
  set (p := malloc (dom (heap s))). set (o := new_counted_object ts v). set (s' := set_heap _ _).
  assert (heap s !! p = None) as Hp by (apply not_elem_of_dom, malloc_fresh).
  assert (∀ g, total g E s' = total g (members_obls (members v) ++ E) s) as Htot.
  { intros g. rewrite total_app. unfold total, s'; simpl. rewrite msum_insert_new by done.
    change (obj_obls o) with (members_obls (En := En) (members v)). lia. }
  split_and!; [|done|done|done|simpl; by rewrite length_insert|done|done|].
  - pose proof Hinv as [[H0 Hal ? ? ?] Hobj Hsn].
    pose proof (Hobj p) as Hobjp. unfold obj_ok in Hobjp. rewrite Hp in Hobjp.
    destruct Hobjp as (HS & HW & HD & HK). split.
    + constructor; simpl; rewrite ?length_insert; try done.
      * rewrite lookup_insert_ne; [done|]. apply malloc_nonnull.
      * rewrite (sumZ_insert id _ _ _ _ Hk), map_size_insert_None by done. unfold id in *. lia.
    + intros q. destruct (decide (q = p)) as [->|Hne].
      * unfold obj_ok. simpl heap. rewrite lookup_insert_eq, !total_on_cons, total_destroying_target, !Htot by done.
        rewrite HS, HW, HD, HK. simpl target. rewrite decide_True, !decide_False by done. simpl.
        split; [apply strong_new|apply weak_new|simpl; lia|done|done].
      * rewrite obj_ok_cons; [|by eapply about_target|done].
        eapply obj_ok_ext; [|intros; apply Htot|apply Htot|apply Hobj]. simpl. by rewrite lookup_insert_ne.
    + apply snaps_ok_add. eapply snaps_ok_ext; [done|done| |..].
      * intros q o'. simpl. rewrite lookup_insert. case_decide as Hq; [|eauto]. intros [= <-]. right.
        split; [|done]. intros t Ht <-. destruct (Inv_snap_heap _ _ _ _ t Hinv Ht) as [o0 Ho0]. congruence.
      * intros. by rewrite Htot.
      * intros. left. by rewrite Htot.
  - rewrite potential_cons. unfold potential. rewrite !Htot. simpl.
    rewrite msum_insert_new by done. rewrite (strong_nonzero_is o 1 (strong_new ts v)). simpl. lia.
Qed.

(** [create_object]: the address is new and the other objects stay. *)
Lemma new_object_created `{!Allocator} Ss Ws E tid ts (v : payload V) s :
  tid < length (num_allocated s) → born_in (announcements s) ts →
  Inv Ss Ws (members_obls (members v) ++ E) s →
  wp (increment_allocations tid;; new_object ts v)
     (λ p s', announcements s' = announcements s ∧
              Inv Ss Ws (OStrong p :: E) s' ∧ p ≠ 0%Z ∧ raw p = p ∧ heap s !! p = None ∧
              (∃ o, heap s' !! p = Some o ∧ storage o = Some v) ∧
              (∀ q, q ≠ p → heap s' !! q = heap s !! q) ∧ cells s' = cells s ∧
              length (num_allocated s') = length (num_allocated s) ∧
              in_progress s' = in_progress s ∧
              potential (OStrong p :: E) s' = 2 + potential (members_obls (members v) ++ E) s) s.
Proof.
  intros Htid Hborn Hinv. eapply wp_mono; [by apply new_object_ok|].
  intros p s' (Hinv' & -> & Hh & Hc & Hn & Hip & Ha & Hpot). split_and!; try done.
  - apply malloc_nonnull.
  - apply raw_aligned, malloc_aligned.
  - apply not_elem_of_dom, malloc_fresh.
  - rewrite Hh, lookup_insert_eq. eauto.
  - intros q Hq. by rewrite Hh, lookup_insert_ne.
Qed.

End interface.

(** ** What a backend promises *)
Class BackendLaws (V X En : Type) `{Pol : !Policy} `{Sch : !Scheme V X En}
    `{Laws : !SchemeLaws V X En} `{Back : !Backend V X En} := {
  (** The acquired pointer holds the announcement of the snapshot. *)
  acq_token : acquired → snap → Prop;
  acq_token_ok a t : acq_token a t → raw (acq_value a) = snap_ptr t ∧ acq_is_protected a = true;
  acq_null_value : acq_value acq_null = 0%Z;
  acq_set_value a w : acq_value (acq_set a w) = w;
  (** Changing the mark of the word keeps the announcement. *)
  acq_set_token a w t : raw w = raw (acq_value a) → acq_token a t → acq_token (acq_set a w) t;
  acq_set_protected a w : raw w = raw (acq_value a) → acq_is_protected (acq_set a w) = acq_is_protected a;
  (** Two snapshots that do not share an announcement. *)
  apart : snap → snap → Prop;
  apart_sym t t' : apart t t' → apart t' t;
  (** An acquired pointer that protects only the rest of the current operation
      of the thread. *)
  transient : nat → acquired → Prop;
  transient_null tid : transient tid mm_reserve_nothing;
  (** The thread may read shared pointers: it holds a guard, where the scheme
      asks for one. *)
  may_read : X → nat → Prop;
  (** There are timestamps left, where the scheme uses them. *)
  can_create : X → nat → Prop;
  still_read (x x' : X) := ∀ tid, may_read x tid → may_read x' tid;
  reads_kept (x x' : X) := still_read x x' ∧ ∀ tid, can_create x tid → can_create x' tid;

  acquire_ok Ss Ws E tid l m s :
    tid < length (num_allocated s) → may_read (announcements s) tid →
    Inv Ss Ws E s → member_at s l m → is_atomic m = true →
    wp (mm_acquire tid l)
       (λ a s', (acq_value a = member_word m ∨
                 (∃ w, m = MAtomicWeak w) ∧ acq_value a = 0%Z) ∧ transient tid a ∧
                Inv Ss Ws E s' ∧ same_values s s' ∧ potential E s' = potential E s ∧
                reads_kept (announcements s) (announcements s')) s;

  reserve_ok Ss Ws E tid p s :
    tid < length (num_allocated s) → may_read (announcements s) tid → Inv Ss Ws E s →
    wp (mm_reserve tid p)
       (λ a s', transient tid a ∧ Inv Ss Ws E s' ∧ same_values s s' ∧
                potential E s' = potential E s ∧
                reads_kept (announcements s) (announcements s')) s;

  acq_destruct_ok Ss Ws E tid a s :
    tid < length (num_allocated s) → may_read (announcements s) tid → transient tid a →
    Inv Ss Ws E s →
    wp (acq_destruct a)
       (λ _ s', Inv Ss Ws E s' ∧ same_values s s' ∧ potential E s' = potential E s ∧
                reads_kept (announcements s) (announcements s')) s;

  (** A snapshot of a strong location is announced, or holds a reference. *)
  protect_strong_ok Ss Ws E tid l w s :
    tid < length (num_allocated s) → may_read (announcements s) tid →
    Inv Ss Ws E s → member_at s l (MAtomicRc w) →
    (∀ o, heap s !! raw w = Some o → strong_room o) →
    wp (mm_protect_snapshot tid l)
       (λ a s', same_values s s' ∧ reads_kept (announcements s) (announcements s') ∧
          if (raw w =? 0)%Z then (acq_value a = w ∨ acq_value a = 0%Z) ∧ Inv Ss Ws E s' ∧ potential E s' = potential E s
          else acq_value a = w ∧
            ((∃ t, acq_token a t ∧ (∀ t', t' ∈ Ss ∨ t' ∈ Ws → apart t t') ∧
                   Inv (t :: Ss) Ws E s' ∧ potential E s' = potential E s) ∨
             (acq_is_protected a = false ∧ Inv Ss Ws (OStrong (raw w) :: E) s' ∧
              potential E s' = potential E s))) s;

  (** A snapshot of a weak location that finds the strong count positive
      likewise; otherwise it is null or announced. *)
  protect_weak_ok Ss Ws E tid l w s :
    tid < length (num_allocated s) → may_read (announcements s) tid →
    Inv Ss Ws E s → member_at s l (MAtomicWeak w) →
    (∀ o, heap s !! raw w = Some o → strong_room o) →
    wp (mm_protect_snapshot tid l)
       (λ a s', same_values s s' ∧ reads_kept (announcements s) (announcements s') ∧
          ((raw (acq_value a) = 0%Z ∧ Inv Ss Ws E s' ∧ potential E s' = potential E s ∧
            (raw w = 0%Z ∨ total (on (raw w) decrement_strong_count) E s = 0)) ∨
           acq_value a = w ∧ raw w ≠ 0%Z ∧
            ((∃ t, acq_token a t ∧ snap_valid s' t ∧
                   (∀ t', t' ∈ Ss ∨ t' ∈ Ws → apart t t') ∧ Inv Ss Ws E s' ∧
                   potential E s' = potential E s) ∨
             (acq_is_protected a = false ∧ Inv Ss Ws (OStrong (raw w) :: E) s' ∧
              potential E s' = potential E s)))) s;

  (** Clearing an acquired pointer frees its announcement and no other. *)
  acq_clear_ok Ss Ws E a t s :
    acq_token a t → snap_ok (announcements s) t →
    (∀ t', t' ∈ Ss ∨ t' ∈ Ws → apart t t') → Inv Ss Ws E s →
    wp (acq_clear a)
       (λ b s', b = acq_null ∧ Inv Ss Ws E s' ∧ same_values s s' ∧
                potential E s' = potential E s ∧
                reads_kept (announcements s) (announcements s')) s;
  acq_destruct_token_ok Ss Ws E a t s :
    acq_token a t → snap_ok (announcements s) t →
    (∀ t', t' ∈ Ss ∨ t' ∈ Ws → apart t t') → Inv Ss Ws E s →
    wp (acq_destruct a)
       (λ _ s', Inv Ss Ws E s' ∧ same_values s s' ∧ potential E s' = potential E s ∧
                reads_kept (announcements s) (announcements s')) s;
  acq_destruct_free a s :
    acq_is_protected a = false ∨ raw (acq_value a) = 0%Z →
    wp (acq_destruct a) (λ _ s', s' = s) s;
  acq_clear_free a s :
    acq_is_protected a = false ∨ raw (acq_value a) = 0%Z →
    wp (acq_clear a) (λ b s', b = acq_null ∧ s' = s) s;

  create_object_ok Ss Ws E tid (v : payload V) s :
    tid < length (num_allocated s) → can_create (announcements s) tid → Inv Ss Ws (members_obls (members v) ++ E) s →
    wp (mm_create_object tid v)
       (λ p s', Inv Ss Ws (OStrong p :: E) s' ∧ p ≠ 0%Z ∧ raw p = p ∧ heap s !! p = None ∧
                (∃ o, heap s' !! p = Some o ∧ storage o = Some v) ∧
                (∀ q, q ≠ p → heap s' !! q = heap s !! q) ∧ cells s' = cells s ∧
                length (num_allocated s') = length (num_allocated s) ∧
                in_progress s' = in_progress s ∧
                potential (OStrong p :: E) s' = 2 + potential (members_obls (members v) ++ E) s ∧
                still_read (announcements s) (announcements s')) s
}.

Lemma reads_kept_trans `{BLaws : BackendLaws V X En} (x1 x2 x3 : X) :
  reads_kept x1 x2 → reads_kept x2 x3 → reads_kept x1 x3.
Proof. intros [H1 H2] [H3 H4]. split; [intros ??; auto|auto]. Qed.

Lemma reads_kept_eq `{BLaws : BackendLaws V X En} (x x' : X) : x' = x → reads_kept x x'.
Proof. intros ->. by split; [intros ?|]. Qed.

#[export] Instance still_read_preorder `{BLaws : BackendLaws V X En} : PreOrder still_read.
Proof. split; [by intros ??|]. intros x1 x2 x3 H1 H2 tid. auto. Qed.
