(* ===== verification/MarkedPtr.v ===== *)
(** * Pointers with mark bits
    ([marked_ptr] of src/include/cdrc/marked_arc_ptr.h and the pointer policies
    of that file and of src/include/cdrc/internal/fwd_decl.h)

    A [marked_ptr] is a [uintptr_t] whose two lowest bits are a mark.  The
    methods are functions on the word; the mark-bit methods that the policy adds
    to [atomic_rc_ptr] read and write the atomic word of a location. *)

From S2P Require Import Prelude CountedObject MemoryManager Accounting ManagerSafety AtomicLoc Backend.
Local Open Scope Z_scope.

Definition ONE_BIT : Z := 1.
Definition TWO_BIT : Z := Z.shiftl 1 1.

(** [ONE_BIT | TWO_BIT] *)
Definition mark_mask : Z := Z.lor ONE_BIT TWO_BIT.

(** [uintptr_t] *)
Definition ptr_width : Z := 64.

Definition get_ptr (ptr : Z) : Z := Z.land ptr (Z.lnot mark_mask).
Definition get_mark (ptr : Z) : Z := Z.land ptr mark_mask.
Definition set_ptr (ptr new_ptr : Z) : Z := Z.lor new_ptr (get_mark ptr).
Definition clear_mark (ptr : Z) : Z := Z.land ptr (Z.lnot mark_mask).

Definition set_mark {S} (ptr mark : Z) : M S Z :=
  assert_ (mark <? Z.shiftl 1 2);;
  mret (Z.lor (clear_mark ptr) mark).

Definition set_mark_bit {S} (ptr bit : Z) : M S Z :=
  assert_ ((bit =? 1) || (bit =? 2));;
  mret (Z.lor ptr (Z.shiftl 1 (bit - 1))).

Definition get_mark_bit {S} (ptr bit : Z) : M S bool :=
  assert_ ((bit =? 1) || (bit =? 2));;
  mret (negb (Z.land ptr (Z.shiftl 1 (bit - 1)) =? 0)).

(** [operator==]: two marked pointers compare with their marks, a marked pointer
    and a plain one without. *)
Definition eq_marked (ptr other : Z) : bool := ptr =? other.
Definition eq_plain (ptr other : Z) : bool := get_ptr ptr =? other.

(** ** Bits *)

Lemma mark_mask_ones : mark_mask = Z.ones 2.
Proof. done. Qed.

Lemma get_mark_mod ptr : get_mark ptr = ptr mod 4.
Proof. unfold get_mark. rewrite mark_mask_ones, Z.land_ones by lia. done. Qed.

Lemma get_ptr_spec ptr : get_ptr ptr = ptr - ptr mod 4.
Proof.
  unfold get_ptr. rewrite mark_mask_ones, <-Z.ldiff_land, Z.ldiff_ones_r by lia.
  rewrite Z.shiftr_div_pow2, Z.shiftl_mul_pow2 by lia. change (2 ^ 2) with 4.
  pose proof (Z.div_mod ptr 4). lia.
Qed.

Lemma get_ptr_aligned ptr : get_ptr ptr mod 4 = 0.
Proof. rewrite get_ptr_spec. Z.div_mod_to_equations. lia. Qed.

Lemma get_ptr_id ptr : ptr mod 4 = 0 → get_ptr ptr = ptr.
Proof. rewrite get_ptr_spec. lia. Qed.

Lemma get_ptr_idemp ptr : get_ptr (get_ptr ptr) = get_ptr ptr.
Proof. apply get_ptr_id, get_ptr_aligned. Qed.

(** An aligned address and a mark do not overlap. *)
Lemma lor_aligned a m : a mod 4 = 0 → 0 ≤ m < 4 → Z.lor a m = a + m.
Proof.
  intros Ha Hm. rewrite <-Z.add_lor_land.
  replace (Z.land a m) with 0; [lia|].
  rewrite <-(Z.mod_small m 4), <-get_mark_mod by lia. unfold get_mark.
  rewrite (Z.land_comm m), Z.land_assoc. fold (get_mark a). by rewrite get_mark_mod, Ha, Z.land_0_l.
Qed.

Lemma get_ptr_lor a m : a mod 4 = 0 → 0 ≤ m < 4 → get_ptr (Z.lor a m) = a.
Proof. intros Ha Hm. rewrite lor_aligned, get_ptr_spec by done. Z.div_mod_to_equations. lia. Qed.

Lemma get_mark_lor a m : a mod 4 = 0 → 0 ≤ m < 4 → get_mark (Z.lor a m) = m.
Proof. intros Ha Hm. rewrite lor_aligned, get_mark_mod by done. Z.div_mod_to_equations. lia. Qed.

Lemma get_mark_range ptr : 0 ≤ get_mark ptr < 4.
Proof. rewrite get_mark_mod. apply Z.mod_pos_bound. lia. Qed.

(** A marked pointer is its address and its mark. *)
Lemma marked_split ptr : ptr = Z.lor (get_ptr ptr) (get_mark ptr).
Proof.
  rewrite lor_aligned, get_ptr_spec, get_mark_mod by (apply get_ptr_aligned || apply get_mark_range). lia.
Qed.

(** On words the mask is the 64-bit one. *)
Lemma get_ptr_word ptr :
  in_word ptr_width ptr → get_ptr ptr = Z.land ptr (wrap ptr_width (Z.lnot mark_mask)).
Proof.
  intros Hw. unfold get_ptr, wrap. rewrite <-Z.land_ones, (Z.land_comm (Z.lnot _)), Z.land_assoc by done.
  rewrite Z.land_ones by done. by rewrite Z.mod_small.
Qed.

Lemma get_ptr_in_word ptr : in_word ptr_width ptr → in_word ptr_width (get_ptr ptr).
Proof.
  unfold in_word. rewrite get_ptr_spec. pose proof (Z.mod_pos_bound ptr 4).
  Z.div_mod_to_equations. lia.
Qed.

(** A mark bit is 1 or 2. *)
Lemma mark_bit_cases (bit : Z) : (bit =? 1) || (bit =? 2) = true → bit = 1 ∨ bit = 2.
Proof. intros [?%Z.eqb_eq|?%Z.eqb_eq]%orb_prop; auto. Qed.

Lemma lor_small a b : 0 ≤ a < 4 → 0 ≤ b < 4 → 0 ≤ Z.lor a b < 4.
Proof.
  intros Ha Hb. split; [apply Z.lor_nonneg; lia|].
  destruct (decide (Z.lor a b = 0)) as [->|Hne]; [lia|].
  assert (0 ≤ Z.lor a b) by (apply Z.lor_nonneg; lia).
  apply (Z.log2_lt_pow2 _ 2); [lia|]. rewrite Z.log2_lor by lia.
  assert (∀ x, 0 ≤ x < 4 → Z.log2 x < 2) as Hl.
  { intros x Hx. destruct (decide (x = 0)) as [->|]; [done|]. apply Z.log2_lt_pow2; simpl; lia. }
  apply Z.max_lub_lt; by apply Hl.
Qed.

(** ** The pointer policies *)

(** [default_pointer_policy]: [pointer_type] is the plain pointer. *)
Definition default_pointer_policy : Policy.
Proof. by refine {| raw := λ p, p |}. Defined.

(** [marked_ptr_policy]: [pointer_type] is [marked_ptr]. *)
Definition marked_ptr_policy : Policy.
Proof.
  refine {| raw := get_ptr |}; [exact get_ptr_id|exact get_ptr_idemp].
Defined.

(** ** The mark methods of the atomic pointers *)

Section arc_ptr_policy.
  Context {V X En : Type}.
  Local Abbreviation M := (M (state V X En)).

(** The [compare_exchange_weak] loops of [set_mark] and [set_mark_bit]: [f] is
    the change of the word. *)
Fixpoint update_loop (rounds : nat) (l : loc) (f : Z → M Z) (cur_ptr new_ptr : Z) : M unit :=
  match rounds with
  | O => fail OutOfFuel
  | S rounds' =>
      r ← loc_compare_exchange l cur_ptr new_ptr;
      let '(done_, cur_ptr) := r in
      if done_ : bool then mret tt
      else
        new_ptr ← f cur_ptr;
        update_loop rounds' l f cur_ptr new_ptr
  end.

Definition arc_set_mark (rounds : nat) (l : loc) (mark : Z) : M unit :=
  cur_ptr ← loc_load l;
  new_ptr ← set_mark cur_ptr mark;
  update_loop rounds l (λ p, set_mark p mark) cur_ptr new_ptr.

Definition arc_get_mark (l : loc) : M Z :=
  p ← loc_load l; mret (get_mark p).

Definition arc_set_mark_bit (rounds : nat) (l : loc) (bit : Z) : M unit :=
  assert_ ((bit =? 1) || (bit =? 2));;
  cur_ptr ← loc_load l;
  new_ptr ← set_mark_bit cur_ptr bit;
  update_loop rounds l (λ p, set_mark_bit p bit) cur_ptr new_ptr.

(** [expected] is the word of a smart pointer; the mark, an [int], converts to
    [uintptr_t]. *)
Definition compare_and_set_mark (l : loc) (expected desired_mark : Z) : M bool :=
  desired_ptr ← set_mark expected (wrap ptr_width desired_mark);
  r ← loc_compare_exchange l expected desired_ptr;
  mret (fst r).

Definition arc_get_mark_bit (l : loc) (bit : Z) : M bool :=
  p ← loc_load l; get_mark_bit p bit.

(** [contains(other)]: the same word, mark included. *)
Definition contains (l : loc) (other : Z) : M bool :=
  p ← loc_load l; mret (eq_marked p other).

End arc_ptr_policy.

(** ** The mark methods of owning pointers and snapshots *)

(** [rc_ptr_policy]: the word of the pointer afterwards. *)
Definition rc_set_mark {S} (ptr mark : Z) : M S Z := set_mark ptr mark.
Definition rc_get_mark (ptr : Z) : Z := get_mark ptr.

(** [snapshot_ptr_policy]: the word is changed in place, the announcement
    stays. *)
Definition snap_set_mark {V X En} `{!Backend V X En} {S} (a : acquired) (mark : Z) : M S acquired :=
  w ← set_mark (acq_value a) mark;
  mret (acq_set a w).
Definition snap_get_mark {V X En} `{!Backend V X En} (a : acquired) : Z := get_mark (acq_value a).

(** ** Properties *)

(** What [set_mark] does on the word. *)
Lemma set_mark_spec {S} (ptr mark : Z) (s : S) :
  0 ≤ mark < 4 →
  ∃ w, set_mark ptr mark s = Ok (w, s) ∧ get_ptr w = get_ptr ptr ∧ get_mark w = mark.
Proof.
  intros Hm. unfold set_mark, clear_mark. fold (get_ptr ptr).
  change (Z.shiftl 1 2) with 4. rewrite (proj2 (Z.ltb_lt mark 4)) by lia. eexists. split; [done|].
  split; [by apply get_ptr_lor; [apply get_ptr_aligned|]|by apply get_mark_lor; [apply get_ptr_aligned|]].
Qed.

Lemma set_mark_bit_spec {S} (ptr bit : Z) (s : S) :
  bit = 1 ∨ bit = 2 →
  ∃ w, set_mark_bit ptr bit s = Ok (w, s) ∧ get_ptr w = get_ptr ptr ∧
       get_mark w = Z.lor (get_mark ptr) bit.
Proof.
  intros Hbit. exists (Z.lor ptr bit). assert (0 ≤ bit < 4) as Hb by lia.
  split; [by destruct Hbit as [-> | ->]|].
  pose proof (lor_small _ _ (get_mark_range ptr) Hb) as Hr.
  rewrite (marked_split ptr) at 1 3. rewrite <-Z.lor_assoc.
  by rewrite get_ptr_lor, get_mark_lor by (done || apply get_ptr_aligned).
Qed.

(** C31. A marked pointer packs an aligned address and a two-bit mark into one
    64-bit word: [set_mark] on any word keeps the address and sets exactly the
    mark, [set_ptr] keeps the mark and sets the address, and a mark of 4 or
    more fails the assertion. *)
Theorem marked_ptr_pack {S} (ptr a mark : Z) (s : S) :
  in_word ptr_width ptr → in_word ptr_width a → a mod 4 = 0 → 0 ≤ mark →
  match set_mark ptr mark s with
  | Ok (w, s') =>
      mark < 4 ∧ s' = s ∧ in_word ptr_width w ∧ get_ptr w = get_ptr ptr ∧ get_mark w = mark ∧
      in_word ptr_width (set_ptr w a) ∧ get_ptr (set_ptr w a) = a ∧ get_mark (set_ptr w a) = mark
  | Err e => 4 ≤ mark ∧ e = AssertionFailed
  end.
Proof.
  intros Hw Ha Hal Hm. destruct (Z.ltb_spec mark 4) as [Hlt|Hge].
  - destruct (set_mark_spec ptr mark s) as (w & -> & Hp & Hmk); [lia|].
    pose proof (get_ptr_in_word ptr Hw) as Hwp. pose proof (get_ptr_aligned ptr) as Hpa.
    unfold set_ptr. rewrite Hmk. rewrite get_ptr_lor, get_mark_lor by lia.
    assert (∀ b, in_word ptr_width b → b mod 4 = 0 → in_word ptr_width (Z.lor b mark)) as Hin.
    { unfold in_word. intros b Hb Hb4. rewrite lor_aligned by lia. change (2 ^ ptr_width) with (4 * 2 ^ 62) in *.
      Z.div_mod_to_equations. lia. }
    split_and!; auto. rewrite (marked_split w), Hp, Hmk. by apply Hin.
  - unfold set_mark. change (Z.shiftl 1 2) with 4. by rewrite (proj2 (Z.ltb_ge mark 4)) by lia.
Qed.

Lemma marked_ptr_pack_witness :
  ∃ w, set_mark (S := unit) 4098 3 tt = Ok (w, tt) ∧ get_ptr w = 4096 ∧ get_mark w = 3.
Proof.
  pose proof (marked_ptr_pack (S := unit) 4098 8192 3 tt) as H.
  destruct (set_mark 4098 3 tt) as [[w []]|e] eqn:E.
  - destruct H as (_ & _ & _ & Hp & Hm & _); [done..|]. exists w. by split_and!.
  - destruct H as [H _]; [done..|]. lia.
Defined.

(** ** Marks on atomic pointers *)

Section arc_ptr_policy_ok.
  Context {V X En : Type} `{Sch : !Scheme V X En} `{Laws : !SchemeLaws V X En}.
  Local Existing Instance marked_ptr_policy.
  Local Abbreviation st := (state V X En).
  Implicit Types (s : st) (E : list (obl En)).

(** Changing only the mark of an atomic member changes no obligation. *)
Lemma put_mark_inv Ss Ws E s l m w :
  Inv Ss Ws E s → member_at s l m → get_ptr w = get_ptr (member_word m) →
  Inv Ss Ws E (put_member l (member_set_word w m) s) ∧
  potential E (put_member l (member_set_word w m) s) = potential E s.
Proof.
  intros Hinv Hm Hw.
  destruct (put_member_inv Ss Ws E E s l m (member_set_word w m) Hinv Hm) as (? & ? & _); [|done].
  intros g. f_equal. f_equal. unfold member_obls. destruct m; simpl in *; by rewrite Hw.
Qed.

(** An uncontended [compare_exchange] loop takes one round. *)
Lemma update_loop_ok rounds Ss Ws E s l m f w :
  Inv Ss Ws E s → member_at s l m → is_atomic m = true → get_ptr w = get_ptr (member_word m) →
  wp (update_loop (S rounds) l f (member_word m) w)
     (λ _ s', s' = put_member l (member_set_word w m) s ∧ Inv Ss Ws E s' ∧
              potential E s' = potential E s) s.
Proof.
  intros Hinv Hm Hat Hw. simpl. wp_step. eapply wp_compare_exchange; [done..|].
  rewrite Z.eqb_refl. wp_step. split; [done|]. by apply put_mark_inv.
Qed.

(** [set_mark] on an atomic pointer changes the mark and nothing else: the
    location holds the same address with the new mark, which [get_mark] then
    reads, every reference count stays accounted for, and no object changes. *)
Theorem arc_set_mark_correct rounds Ss Ws E s l m mark :
  Inv Ss Ws E s → member_at s l m → is_atomic m = true → 0 ≤ mark < 4 →
  wp (arc_set_mark (S rounds) l mark;; arc_get_mark l)
     (λ r s', r = mark ∧ Inv Ss Ws E s' ∧ potential E s' = potential E s ∧
        ∃ w, s' = put_member l (member_set_word w m) s ∧
             get_ptr w = get_ptr (member_word m) ∧ get_mark w = mark) s.
Proof.
  intros Hinv Hm Hat Hmk. wp_step. unfold arc_set_mark. wp_step. eapply loc_load_ok; [done..|]. wp_step.
  destruct (set_mark_spec (member_word m) mark s Hmk) as (w & Hw & Hp & Hg).
  apply wp_ok. exists w, s. split; [done|].
  eapply wp_mono; [by apply (update_loop_ok rounds Ss Ws E s l m _ w)|].
  intros _ s' (-> & Hinv' & Hpot). unfold arc_get_mark. wp_step.
  eapply loc_load_ok; [by eapply member_at_put|by destruct m|]. wp_step.
  replace (member_word (member_set_word w m)) with w by by destruct m. eauto 10.
Qed.

(** [compare_and_set_mark] succeeds exactly when the location holds the
    expected word, mark included, and then only the mark changes; on failure
    the state is unchanged. *)
Theorem compare_and_set_mark_correct Ss Ws E s l m expected mark :
  Inv Ss Ws E s → member_at s l m → is_atomic m = true → 0 ≤ mark < 4 →
  wp (compare_and_set_mark l expected mark)
     (λ r s', Inv Ss Ws E s' ∧ potential E s' = potential E s ∧
        if r : bool then member_word m = expected ∧
          ∃ w, s' = put_member l (member_set_word w m) s ∧ get_ptr w = get_ptr expected ∧ get_mark w = mark
        else member_word m ≠ expected ∧ s' = s) s.
Proof.
  intros Hinv Hm Hat Hmk. unfold compare_and_set_mark. wp_step.
  replace (wrap ptr_width mark) with mark by (unfold wrap; rewrite Z.mod_small; [done|change (2 ^ ptr_width) with (4 * 2 ^ 62); lia]).
  destruct (set_mark_spec expected mark s Hmk) as (w & Hw & Hp & Hg).
  apply wp_ok. exists w, s. split; [done|]. wp_step. eapply wp_compare_exchange; [done..|].
  destruct (Z.eqb_spec (member_word m) expected) as [Heq|Hne]; wp_step; [|done].
  destruct (put_mark_inv Ss Ws E s l m w Hinv Hm) as [? ?]; [congruence|].
  split; [done|]. split; [done|]. split; [done|]. eauto.
Qed.

End arc_ptr_policy_ok.
