(* ===== verification/EpochTracker.v ===== *)
(** * Epochs
    ([epoch_tracker], [epoch_guard] and [with_epoch_guard] of
    src/include/cdrc/internal/epoch_tracker.h)

    The global epoch and the epochs that threads announce on entering a critical
    section.  [tid] is the calling thread; the guards are given as the pair of
    calls that their constructor and destructor make. *)

From S2P Require Import Prelude.
Local Open Scope Z_scope.

(** [epoch_type] is [uint64_t]. *)
Definition epoch_width : Z := 64.
Definition no_epoch : Z := 2 ^ epoch_width - 1.

Record epoch_tracker := EpochTracker {
  global_epoch : Z;
  local_epoch : list Z;
  critical_section : list bool
}.

(** [epoch_tracker()] *)
Definition tracker_init (num_threads : nat) : epoch_tracker :=
  EpochTracker 0 (replicate num_threads no_epoch) (replicate num_threads false).

Local Abbreviation M := (M epoch_tracker).

Definition get_current_epoch : M Z := gets global_epoch.

(** [fetch_add(1)] *)
Definition advance_global_epoch : M Z :=
  tr ← get;
  put (EpochTracker (wrap epoch_width (global_epoch tr + 1)) (local_epoch tr) (critical_section tr));;
  mret (global_epoch tr).

(** The loop over the threads is a fold of [std::min]. *)
Definition min_announced (tr : epoch_tracker) : Z := foldl Z.min no_epoch (local_epoch tr).

Definition get_min_announced_epoch : M Z := gets min_announced.

(** The pairs [(i, e)] that [scan_announced_epochs] applies its argument to. *)
Definition announced_epochs (tr : epoch_tracker) : list (nat * Z) :=
  filter (λ '(_, e), e ≠ no_epoch) (imap pair (local_epoch tr)).

Definition set_local (tid : nat) (e : Z) (b : bool) (tr : epoch_tracker) : epoch_tracker :=
  EpochTracker (global_epoch tr) (<[tid := e]> (local_epoch tr)) (<[tid := b]> (critical_section tr)).

Definition begin_critical_section (tid : nat) : M bool :=
  tr ← get;
  b ← at_ (critical_section tr) tid;
  if b : bool then mret false
  else
    _ ← at_ (local_epoch tr) tid;
    put (set_local tid (global_epoch tr) true tr);;
    mret true.

Definition end_critical_section (tid : nat) : M unit :=
  tr ← get;
  b ← at_ (critical_section tr) tid;
  assert_ b;;
  e ← at_ (local_epoch tr) tid;
  assert_ (negb (e =? no_epoch));;
  put (set_local tid no_epoch false tr).

Definition in_critical_section (tid : nat) : M bool :=
  tr ← get;
  at_ (critical_section tr) tid.

(** [epoch_guard]: the constructor returns [engaged], which the destructor is
    given. *)
Definition epoch_guard (tid : nat) : M bool := begin_critical_section tid.
Definition epoch_guard_destruct (tid : nat) (engaged : bool) : M unit :=
  when engaged (end_critical_section tid).

Definition with_epoch_guard {A} (tid : nat) (f : M A) : M A :=
  engaged ← epoch_guard tid;
  r ← f;
  epoch_guard_destruct tid engaged;;
  mret r.

(** ** Invariant *)

(** A thread announces an epoch exactly in a critical section, and the epoch is
    not later than the current one. *)
Record tracker_ok (tr : epoch_tracker) : Prop := {
  tok_global : 0 ≤ global_epoch tr < no_epoch;
  tok_length : length (critical_section tr) = length (local_epoch tr);
  tok_out i : critical_section tr !! i = Some false → local_epoch tr !! i = Some no_epoch;
  tok_in i : critical_section tr !! i = Some true →
    ∃ e, local_epoch tr !! i = Some e ∧ 0 ≤ e ≤ global_epoch tr
}.

Lemma tracker_init_ok num_threads : tracker_ok (tracker_init num_threads).
Proof.
  split; simpl; [done|by rewrite !length_replicate|..]; intros i [? ?]%lookup_replicate; [|done].
  by apply lookup_replicate.
Qed.

Lemma min_announced_le tr e : e ∈ local_epoch tr → min_announced tr ≤ e.
Proof.
  unfold min_announced. generalize no_epoch as m. induction (local_epoch tr) as [|x l IH]; intros m He.
  - by apply elem_of_nil in He.
  - simpl. apply elem_of_cons in He as [-> |He]; [|by apply IH].
    clear IH. assert (∀ l m, foldl Z.min m l ≤ m) as Hle.
    { clear. induction l as [|y l IH]; intros m; simpl; [lia|]. etrans; [apply IH|]. lia. }
    etrans; [apply Hle|]. lia.
Qed.

(** The smallest announced epoch is one of them, if there is one at all. *)
Lemma min_announced_in tr : min_announced tr = no_epoch ∨ min_announced tr ∈ local_epoch tr.
Proof.
  unfold min_announced. generalize no_epoch as m. induction (local_epoch tr) as [|x l IH]; intros m; [by left|].
  simpl. destruct (IH (Z.min m x)) as [-> |Hin]; [|by right; right].
  destruct (Z.min_spec m x) as [[_ ->]|[_ ->]]; [by left|right; left].
Qed.

(** Some thread has been in its critical section since epoch [ts] or earlier. *)
Definition inside_since (tr : epoch_tracker) (ts : Z) : Prop :=
  ∃ i e, critical_section tr !! i = Some true ∧ local_epoch tr !! i = Some e ∧ e ≤ ts.

Lemma inside_since_zip tr ts :
  Exists (λ x, x.1 = true ∧ x.2 ≤ ts) (zip (critical_section tr) (local_epoch tr)) ↔ inside_since tr ts.
Proof.
  rewrite Exists_exists. setoid_rewrite list_elem_of_lookup. split.
  - intros ([b e] & (i & Hi) & Hb & He). simpl in *. subst b.
    apply lookup_zip_with_Some in Hi as (? & ? & [= <- <-] & ? & ?). by exists i, e.
  - intros (i & e & Hb & He & Hle). exists (true, e). split; [|done]. exists i.
    apply lookup_zip_with_Some. eauto.
Qed.

#[export] Instance inside_since_dec tr ts : Decision (inside_since tr ts).
Proof.
  refine (cast_if (decide (Exists (λ x, x.1 = true ∧ x.2 ≤ ts) (zip (critical_section tr) (local_epoch tr)))));
    by rewrite <-inside_since_zip.
Defined.

(** [retireTS < min_epoch] fails exactly for the stamps some thread has been
    inside since. *)
Lemma min_announced_inside tr ts :
  tracker_ok tr → ts < no_epoch → (ts <? min_announced tr) = false ↔ inside_since tr ts.
Proof.
  intros [Hg Hl Hout Hin] Hts. rewrite Z.ltb_ge. split.
  - intros Hle. destruct (min_announced_in tr) as [Hm|(i & Hi)%list_elem_of_lookup]; [lia|].
    destruct (lookup_lt_is_Some_2 (critical_section tr) i) as [[] Hb].
    { rewrite Hl. by eapply lookup_lt_Some. }
    + by exists i, (min_announced tr).
    + apply Hout in Hb. assert (min_announced tr = no_epoch) by congruence. lia.
  - intros (i & e & _ & He%list_elem_of_lookup_2%min_announced_le & Hle). lia.
Qed.

Lemma set_local_ok tid e (b : bool) tr :
  tracker_ok tr → (tid < length (local_epoch tr))%nat →
  (if b then 0 ≤ e ≤ global_epoch tr else e = no_epoch) → tracker_ok (set_local tid e b tr).
Proof.
  intros [Hg Hl Hout Hin] Ht He. split; simpl; [done|by rewrite !length_insert|..]; intros i Hi.
  - destruct (decide (tid = i)) as [->|Hne].
    + rewrite list_lookup_insert_eq in Hi by lia. injection Hi as ->. subst e.
      by apply list_lookup_insert_eq.
    + rewrite list_lookup_insert_ne in Hi by done. rewrite list_lookup_insert_ne by done. by apply Hout.
  - destruct (decide (tid = i)) as [->|Hne].
    + rewrite list_lookup_insert_eq in Hi by lia. injection Hi as ->. exists e. split; [|done].
      by apply list_lookup_insert_eq.
    + rewrite list_lookup_insert_ne in Hi by done. rewrite list_lookup_insert_ne by done. by apply Hin.
Qed.

Lemma begin_ok tid tr :
  tracker_ok tr → (tid < length (local_epoch tr))%nat →
  wp (begin_critical_section tid)
     (λ b tr', tracker_ok tr' ∧ critical_section tr' !! tid = Some true ∧
               critical_section tr !! tid = Some (negb b) ∧
               tr' = if b then set_local tid (global_epoch tr) true tr else tr) tr.
Proof.
  intros Hok Ht. pose proof Hok as [Hg Hl Hout Hin]. unfold begin_critical_section.
  destruct (lookup_lt_is_Some_2 (critical_section tr) tid) as [b Hb]; [lia|].
  destruct (lookup_lt_is_Some_2 (local_epoch tr) tid) as [e He]; [done|].
  wp_step. wp_step. wp_step. wp_step; [done|]. destruct b.
  - wp_step. done.
  - wp_step. wp_step; [done|]. wp_steps. split; [by apply set_local_ok; [..|lia]|].
    split; [apply list_lookup_insert_eq; lia|done].
Qed.

Lemma end_ok tid tr :
  tracker_ok tr → critical_section tr !! tid = Some true →
  wp (end_critical_section tid) (λ _ tr', tracker_ok tr' ∧ tr' = set_local tid no_epoch false tr) tr.
Proof.
  intros Hok Hb. pose proof Hok as [Hg Hl Hout Hin]. destruct (Hin tid Hb) as (e & He & Hr).
  unfold end_critical_section. wp_step. wp_step. wp_step. wp_step; [done|]. wp_step. wp_step; [done|].
  wp_step. wp_step; [done|]. wp_step. wp_step; [apply negb_true_iff, Z.eqb_neq; lia|]. wp_step.
  split; [|done]. apply set_local_ok; [done|by eapply lookup_lt_Some|done].
Qed.

(** C36. A guard holds exactly as long as the outermost one.  Under
    [with_epoch_guard] the function runs in a critical section, with an epoch
    announced that is not later than the current one; afterwards the thread is
    in a critical section exactly if it was before, so that leaving an inner
    guard does not end the outer one. *)
Theorem with_epoch_guard_correct {A} tid (f : M A) (Q : A → epoch_tracker → Prop) tr :
  tracker_ok tr → (tid < length (local_epoch tr))%nat →
  (∀ tr1, tracker_ok tr1 → critical_section tr1 !! tid = Some true →
          global_epoch tr1 = global_epoch tr →
          wp f (λ r tr2, tracker_ok tr2 ∧ critical_section tr2 !! tid = Some true ∧ Q r tr2) tr1) →
  wp (with_epoch_guard tid f)
     (λ r tr', tracker_ok tr' ∧ critical_section tr' !! tid = critical_section tr !! tid ∧
               ∃ tr2, Q r tr2 ∧ (tr' = tr2 ∨ tr' = set_local tid no_epoch false tr2)) tr.
Proof.
  intros Hok Ht Hf. unfold with_epoch_guard, epoch_guard. wp_step. eapply wp_mono; [by apply begin_ok|].
  intros engaged tr1 (Hok1 & Hin1 & Hb & Htr1). wp_step.
  eapply wp_mono; [apply Hf; [done|done|by subst tr1; destruct engaged]|].
  intros r tr2 (Hok2 & Hin2 & HQ). unfold epoch_guard_destruct. wp_step. wp_step.
  - intros ->. eapply wp_mono; [by apply end_ok|]. intros _ tr3 [Hok3 ->]. wp_step. split; [done|].
    split; [|eauto]. simpl. rewrite Hb, list_lookup_insert_eq; [done|]. by eapply lookup_lt_Some.
  - intros ->. wp_step. split; [done|]. split; [|eauto]. by rewrite Hb, Hin2.
Qed.

Lemma with_epoch_guard_correct_witness :
  wp (with_epoch_guard 0 (with_epoch_guard 0 (in_critical_section 0)))
     (λ r tr', tracker_ok tr' ∧ critical_section tr' !! 0%nat = Some false ∧
               ∃ tr2, r = true ∧ (tr' = tr2 ∨ tr' = set_local 0 no_epoch false tr2)) (tracker_init 2).
Proof.
  apply (with_epoch_guard_correct 0 _ (λ r _, r = true)); [apply tracker_init_ok|simpl; lia|].
  intros tr1 Hok Hin _. eapply wp_mono.
  - apply (with_epoch_guard_correct 0 _ (λ r _, r = true)); [done|by rewrite <-(tok_length _ Hok); eapply lookup_lt_Some|].
    intros tr2 Hok2 Hin2 _. unfold in_critical_section. wp_step. wp_step. by eapply wp_at.
  - intros r tr' (? & Hcs & ? & ? & _). by rewrite Hcs.
Defined.
