(* ===== verification/DeferredLists.v ===== *)
(** * Deferred lists, as the timestamp backends write them

    [work_toward_ejects] and the destructors of [acquire_retire_ebr] and
    [acquire_retire_ibr] have the same text up to the way they decide on an
    entry.  That text is here, with the decision a parameter, and the lemmas
    that relate it to the shared definitions of [MemoryManager], which keep the
    order of [acquire_retire]. *)

From S2P Require Import Prelude StickyCounter CountedObject MemoryManager.
Local Open Scope Z_scope.

(** [std::remove_if] with a predicate that has effects: what is left. *)
Fixpoint remove_if {S A} (f : A → M S bool) (l : list A) : M S (list A) :=
  match l with
  | [] => mret []
  | x :: l' =>
      b ← f x;
      kept ← remove_if f l';
      mret (if b : bool then kept else x :: kept)
  end.

Section lists.
  Context {V X En : Type} `{Pol : !Policy}.
  Local Abbreviation st := (state V X En).
  Local Abbreviation M := (M st).

(** The [while] loop of [work_toward_ejects]; [body] computes what is left of
    the list, [num_threads] is the length of the per-thread vectors. *)
Fixpoint work_loop (delay : Z) (body : list En → M (list En)) (fuel : nat) (tid : nat) : M unit :=
  match fuel with
  | O => fail OutOfFuel
  | S fuel' =>
      s ← get;
      busy ← at_ (in_progress s) tid;
      work ← at_ (amortized_work s) tid;
      let threshold := Z.max 30 (delay * Z.of_nat (length (amortized_work s))) in
      if negb busy && (threshold <=? work) then
        modify (set_work (<[tid := 0]> (amortized_work s)));;
        deferred ← at_ (deferred_destructs s) tid;
        if (length deferred =? 0)%nat then mret tt
        else
          modify (λ s, set_in_progress (<[tid := true]> (in_progress s)) s);;
          modify (λ s, set_deferred (<[tid := []]> (deferred_destructs s)) s);;
          kept ← body deferred;
          s' ← get;
          later ← at_ (deferred_destructs s') tid;
          modify (set_deferred (<[tid := later ++ kept]> (deferred_destructs s')));;
          modify (λ s, set_in_progress (<[tid := false]> (in_progress s)) s);;
          work_loop delay body fuel' tid
      else mret tt
  end.

(** [eject_work] is an [unsigned int]. *)
Definition work_toward_ejects (delay : Z) (body : list En → M (list En)) (fuel : nat) (tid : nat) (work : Z) : M unit :=
  l ← gets amortized_work;
  k ← at_ l tid;
  modify (set_work (<[tid := wrap 32 (k + work)]> l));;
  work_loop delay body fuel tid.

(** The loop of the destructors, which first collects the pairs. *)
Fixpoint drain_loop (pair_of : En → Z * RetireType) (ejectf : Z → RetireType → M unit) (fuel : nat) : M unit :=
  match fuel with
  | O => fail OutOfFuel
  | S fuel' =>
      d ← gets deferred_destructs;
      if existsb (λ v, negb (length v =? 0)%nat) d then
        let destructs := concat (map (map pair_of) d) in
        modify (set_deferred (map (λ _, []) d));;
        for_each (λ x, ejectf (fst x) (snd x)) destructs;;
        drain_loop pair_of ejectf fuel'
      else mret tt
  end.

End lists.

(** ** Rounds *)

(** A predicate that decides without looking at the state: the entries it lets go
    are ejected in order, and the others are left in order. *)
Lemma remove_if_filter {S A} (P : A → Prop) `{!∀ x, Decision (P x)} (act : A → M S unit) (f : A → M S bool) l s :
  (∀ x, x ∈ l → ∀ s, f x s = (if decide (P x) then mret false else act x;; mret true) s) →
  remove_if f l s = (for_each act (filter (λ x, ¬ P x) l);; mret (filter P l)) s.
Proof.
  intros Hf. revert s. induction l as [|x l IH]; intros s; [done|]. simpl. unfold mbind, M_bind.
  rewrite Hf, !filter_cons by left. destruct (decide (P x)) as [Hx|Hx].
  - rewrite decide_False by tauto. simpl. rewrite IH by (intros; apply Hf; by right). unfold mbind, M_bind. by destruct (for_each _ _ s) as [[? ?]|].
  - rewrite decide_True by done. simpl. unfold mbind, M_bind. destruct (act x s) as [[u s1]|]; [|done]. simpl.
    rewrite IH by (intros; apply Hf; by right). unfold mbind, M_bind. by destruct (for_each _ _ s1) as [[? ?]|].
Qed.

Section rounds.
  Context {V X En : Type} `{Pol : !Policy}.
  Local Abbreviation st := (state V X En).
  Implicit Types (s : st) (l kept later : list En).

(** Whether [work_toward_ejects] starts a round. *)
Definition due (delay : Z) (tid : nat) s : Prop :=
  in_progress s !! tid = Some false ∧
  ∃ k, amortized_work s !! tid = Some k ∧ Z.max 30 (delay * Z.of_nat (length (amortized_work s))) ≤ k.

(** The state in which a round ejects. *)
Definition round_begun (tid : nat) s : st :=
  set_deferred (<[tid := []]> (deferred_destructs s))
    (set_in_progress (<[tid := true]> (in_progress s)) (set_work (<[tid := 0]> (amortized_work s)) s)).

(** The state at the end of a round that leaves [kept], what was retired meanwhile
    being [later]. *)
Definition round_ended (tid : nat) later kept s : st :=
  set_in_progress (<[tid := false]> (in_progress s)) (set_deferred (<[tid := later ++ kept]> (deferred_destructs s)) s).

(** The thread has retired one more. *)
Definition retired_one (tid : nat) (k : Z) l s : st :=
  set_work (<[tid := wrap 32 (k + 1)]> (amortized_work s)) (set_deferred (<[tid := l]> (deferred_destructs s)) s).

Lemma work_idle delay body fuel tid k b s :
  in_progress s !! tid = Some b → amortized_work s !! tid = Some k → ¬ due delay tid s →
  work_loop delay body (S fuel) tid s = Ok (tt, s).
Proof.
  intros Hb Hk Hdue. simpl. unfold mbind, M_bind, get, at_. rewrite Hb, Hk. simpl.
  destruct (negb b && _) eqn:E; [|done]. exfalso. apply Hdue. apply andb_true_iff in E as [->%negb_true_iff E%Z.leb_le]. split; eauto.
Qed.

Lemma work_round delay body fuel tid l s :
  due delay tid s → deferred_destructs s !! tid = Some l → l ≠ [] →
  work_loop delay body (S (S fuel)) tid s =
  match body l (round_begun tid s) with
  | Ok (kept, s2) =>
      (later ← at_ (deferred_destructs s2) tid;
       put (round_ended tid later kept s2);;
       work_loop delay body (S fuel) tid) s2
  | Err e => Err e
  end.
Proof.
  intros (Hb & k & Hk & Hle) Hl Hne. cbn [work_loop]. unfold mbind, M_bind, get, at_. rewrite Hb, Hk. simpl.
  rewrite (proj2 (Z.leb_le _ _) Hle). simpl. rewrite Hl. simpl. destruct l as [|x l]; [done|]. simpl.
  unfold round_begun. destruct s as [h c na x0 ip d w]; simpl in *.
  destruct (body (x :: l) _) as [[kept s2]|]; [|done]. simpl. by destruct (deferred_destructs s2 !! tid).
Qed.

(** One more action is retired: without a round it is appended; a round that
    ejects without making another one due leaves what it kept after what was
    retired meanwhile. *)
Lemma retire_rounds delay body fuel tid e l k b s :
  in_progress s !! tid = Some b → deferred_destructs s !! tid = Some l → amortized_work s !! tid = Some k →
  let s1 := retired_one tid k (l ++ [e]) s in
  let run := (push_deferred tid e;; work_toward_ejects delay body (S (S fuel)) tid 1) s in
  (¬ due delay tid s1 → run = Ok (tt, s1)) ∧
  (due delay tid s1 → ∀ err, body (l ++ [e]) (round_begun tid s1) = Err err → run = Err err) ∧
  (due delay tid s1 → ∀ kept s2 later, body (l ++ [e]) (round_begun tid s1) = Ok (kept, s2) →
     deferred_destructs s2 !! tid = Some later → is_Some (in_progress s2 !! tid) → is_Some (amortized_work s2 !! tid) →
     ¬ due delay tid (round_ended tid later kept s2) → run = Ok (tt, round_ended tid later kept s2)).
Proof.
  intros Hb Hl Hk s1 run.
  assert (run = work_loop delay body (S (S fuel)) tid s1) as ->.
  { unfold run, push_deferred, work_toward_ejects, mbind, M_bind, gets, at_. simpl. rewrite Hl. simpl. rewrite Hk. done. }
  assert (deferred_destructs s1 !! tid = Some (l ++ [e])) as Hl1
    by (apply list_lookup_insert_eq; by eapply lookup_lt_Some).
  assert (amortized_work s1 !! tid = Some (wrap 32 (k + 1))) as Hk1
    by (apply list_lookup_insert_eq; by eapply lookup_lt_Some).
  split; [|split].
  - intros Hdue. by eapply work_idle.
  - intros Hdue err E. rewrite (work_round _ _ _ _ _ _ Hdue Hl1) by (by destruct l). by rewrite E.
  - intros Hdue kept s2 later E Hla [b2 Hb2] [k2 Hk2] Hdue2. rewrite (work_round _ _ _ _ _ _ Hdue Hl1) by (by destruct l).
    rewrite E. unfold mbind, M_bind, at_. rewrite Hla. simpl put. cbv beta iota.
    apply (work_idle _ _ _ _ k2 false); [|done|done]. apply list_lookup_insert_eq. by eapply lookup_lt_Some.
Qed.
End rounds.

Section lists_eq.
  Context {V X En : Type} `{Pol : !Policy} `{Sch : !Scheme V X En}.
  Local Abbreviation st := (state V X En).
  Implicit Types s : st.

(** A scan whose result does not change as it is used. *)
Lemma remove_if_applied ejectf sc (f : En → M st bool) l s :
  (∀ x, ∃ keep : bool, check sc x = (keep, sc) ∧
        f x = if keep then mret false else ejectf (e_obj x) (e_type x);; mret true) →
  remove_if f l s = remove_applied ejectf sc l s.
Proof.
  intros Hf. revert s. induction l as [|x l IH]; intros s; [done|]. simpl. unfold mbind, M_bind.
  destruct (Hf x) as (keep & Hc & ->). rewrite Hc. destruct keep; simpl.
  - rewrite IH. by destruct (remove_applied _ _ _ _) as [[? ?]|].
  - unfold mbind, M_bind. destruct (ejectf (e_obj x) (e_type x) s) as [[u s']|]; [|done]. simpl. rewrite IH.
    by destruct (remove_applied _ _ _ _) as [[? ?]|].
Qed.

Definition same_body (ejectf : Z → RetireType → M st unit) (body : list En → M st (list En)) : Prop :=
  ∀ l s, body l s = (sc ← gets (λ s, scan (announcements s)); remove_applied ejectf sc l) s.

Lemma work_loop_eq ejectf body fuel tid s :
  same_body ejectf body → work_loop eject_delay body fuel tid s = eject_loop ejectf fuel tid s.
Proof.
  intros Hb. revert s. induction fuel as [|fuel IH]; intros [h c n x ip d w]; [done|]. simpl.
  unfold mbind, M_bind, gets, get, at_. simpl.
  destruct (ip !! tid) as [busy|]; [|done]. simpl.
  destruct (w !! tid) as [k|]; [|done]. simpl. fold (threshold (length w)).
  destruct (negb busy && _); [|done]. simpl.
  destruct (d !! tid) as [l|]; [|done]. simpl.
  destruct (length l =? 0)%nat; [done|]. simpl. rewrite Hb. unfold mbind, M_bind, gets. simpl.
  destruct (remove_applied _ _ _ _) as [[kept s']|]; [|done]. simpl.
  destruct (deferred_destructs s' !! tid) as [later|]; [|done]. simpl. apply IH.
Qed.

Lemma work_toward_ejects_eq delay ejectf body fuel tid work s :
  delay = eject_delay → same_body ejectf body →
  work_toward_ejects delay body fuel tid work s = work_toward_deferred_decrements ejectf fuel tid work s.
Proof.
  intros -> Hb. unfold work_toward_ejects, work_toward_deferred_decrements, mbind, M_bind, gets.
  destruct (at_ _ _ _) as [[k s2]|]; [|done]. by apply work_loop_eq.
Qed.

Lemma map_const {A B} (b : B) (l : list A) : map (λ _, b) l = replicate (length l) b.
Proof. induction l; simpl; congruence. Qed.

Lemma drain_loop_eq pair_of ejectf fuel s :
  (∀ x, pair_of x = (e_obj x, e_type x)) →
  drain_loop pair_of ejectf fuel s = shutdown_loop ejectf fuel s.
Proof.
  intros Hp. revert s. induction fuel as [|fuel IH]; intros s; [done|]. simpl. unfold mbind, M_bind, gets.
  destruct (existsb _ _); [|done]. simpl. rewrite map_const.
  assert (∀ (l : list En) (s0 : st),
    for_each (λ x, ejectf (fst x) (snd x)) (map pair_of l) s0 =
    for_each (λ x, ejectf (e_obj x) (e_type x)) l s0) as Hfe.
  { intros l. induction l as [|x l IHl]; intros s0; [done|]. simpl. rewrite Hp. unfold mbind, M_bind. simpl.
    destruct (ejectf (e_obj x) (e_type x) s0) as [[u s1]|]; [|done]. apply IHl. }
  rewrite <-concat_map, Hfe. destruct (for_each _ _ _) as [[u s1]|]; [|done]. apply IH.
Qed.

End lists_eq.
