(* ===== verification/AcquireRetire.v ===== *)
(** * The hazard-pointer backend
    ([acquire_retire] of src/include/cdrc/internal/smr/acquire_retire.h)

    Each thread announces the pointers it is reading in its [LocalSlot]: one
    slot for [acquire] and [reserve], [snapshot_slots] for snapshots.  The eject
    loop counts the announcements of each handle and keeps as many of the
    deferred actions on it, plus one. *)

From S2P Require Import Prelude StickyCounter CountedObject MemoryManager Accounting ManagerSafety AtomicLoc Backend.

#[export] Instance RetireType_countable : Countable RetireType.
Proof.
  refine (inj_countable'
    (λ t, match t with decrement_strong_count => 0 | decrement_weak_count => 1 | retire_dispose => 2 end)
    (λ n : nat, match n with 0 => decrement_strong_count | 1 => decrement_weak_count | _ => retire_dispose end) _).
  by intros [].
Defined.

Record LocalSlot := {
  announcement : Z;
  snapshot_announcements : list Z
}.

Definition snapshot_slots : nat := 7.

(** [LocalSlot()]: nothing is announced. *)
Definition new_slot : LocalSlot := {| announcement := 0; snapshot_announcements := replicate snapshot_slots 0%Z |}.

(** Which [std::atomic<counted_ptr_t>] an acquired pointer refers to. *)
Inductive slot_ref :=
  | MainSlot (tid : nat)
  | SnapSlot (tid : nat) (i : nat).

#[export] Instance slot_ref_eq_dec : EqDecision slot_ref.
Proof. solve_decision. Defined.

Definition hp_entry : Type := Z * RetireType.

(** ** Scanning the announcements *)

(** The handles [scan_slots] applies its argument to. *)
Definition announced_handles (x : list LocalSlot) : list Z :=
  concat ((λ sl, filter (λ y : Z, y ≠ 0%Z) (announcement sl :: snapshot_announcements sl)) <$> x).

Definition retire_types : list RetireType :=
  [decrement_strong_count; decrement_weak_count; retire_dispose].

(** [announced[(reserved, type)]] is incremented, the first time to two. *)
Definition announce_type (reserved : Z) (m : gmap hp_entry nat) (type : RetireType) : gmap hp_entry nat :=
  let cnt := default 0 (m !! (reserved, type)) in
  <[(reserved, type) := if (cnt =? 0)%nat then 2 else S cnt]> m.

Definition announce (m : gmap hp_entry nat) (reserved : Z) : gmap hp_entry nat :=
  foldl (announce_type reserved) m retire_types.

Definition scan_slots (x : list LocalSlot) : gmap hp_entry nat :=
  foldl announce ∅ (announced_handles x).

(** The predicate of the [remove_if]: an announced action uses up one
    announcement and stays in the list. *)
Definition check_announced (announced : gmap hp_entry nat) (e : hp_entry) :
    bool * gmap hp_entry nat :=
  match announced !! e with
  | None => (false, announced)
  | Some cnt =>
      (true, if (cnt - 1 =? 0)%nat then delete e announced else <[e := cnt - 1]> announced)
  end.

Lemma announce_type_lookup (r : Z) (m : gmap hp_entry nat) (ty : RetireType) (e : hp_entry) :
  announce_type r m ty !! e =
  if decide ((r, ty) = e) then Some (if (default 0 (m !! e) =? 0)%nat then 2 else S (default 0 (m !! e)))
  else m !! e.
Proof.
  unfold announce_type. case_decide as He; [subst e; by rewrite lookup_insert_eq|by rewrite lookup_insert_ne].
Qed.

(** One announcement of [r] protects up to two actions of each kind on it, each
    further one another. *)
Lemma announce_lookup (m : gmap hp_entry nat) (r : Z) (e : hp_entry) :
  announce m r !! e =
  if decide (r = e.1) then Some (if (default 0 (m !! e) =? 0)%nat then 2 else S (default 0 (m !! e)))
  else m !! e.
Proof.
  unfold announce, retire_types; simpl. rewrite !announce_type_lookup.
  destruct e as [p []]; simpl; repeat case_decide; simplify_eq; done.
Qed.

#[export] Instance hp_scheme {V : Type} : Scheme V (list LocalSlot) hp_entry := {
  scan_t := gmap hp_entry nat;
  e_obj := fst;
  e_type := snd;
  make_entry _ _ p type := Ok (p, type);
  scan := scan_slots;
  check := check_announced;
  eject_delay := 2
}.

(** ** Operations *)

Section hp.
  Context {V : Type} `{Pol : !Policy}.
  Local Abbreviation st := (state V (list LocalSlot) hp_entry).
  Local Abbreviation M := (M st).

Record acquired_pointer := AcquiredPointer {
  value : Z;
  slot : option slot_ref
}.

Definition null_acquired : acquired_pointer := AcquiredPointer 0 None.

(** An assignment through the reference that [get()] returns. *)
Definition set_value (a : acquired_pointer) (w : Z) : acquired_pointer := AcquiredPointer w (slot a).

(** The move constructor and the move assignment, which does not clear the slot
    of the pointer assigned to: the new pointer and the moved-from one. *)
Definition move_acquired (other : acquired_pointer) : acquired_pointer * acquired_pointer := (other, null_acquired).
Definition swap_acquired (a other : acquired_pointer) : acquired_pointer * acquired_pointer := (other, a).

(** [slot->store(v)] *)
Definition store_slot (r : slot_ref) (v : Z) : M unit :=
  x ← gets announcements;
  match r with
  | MainSlot tid =>
      sl ← at_ x tid;
      modify (set_announcements (<[tid := {| announcement := v;
        snapshot_announcements := snapshot_announcements sl |}]> x))
  | SnapSlot tid i =>
      sl ← at_ x tid;
      _ ← at_ (snapshot_announcements sl) i;
      modify (set_announcements (<[tid := {| announcement := announcement sl;
        snapshot_announcements := <[i := v]> (snapshot_announcements sl) |}]> x))
  end.

Definition is_protected (a : acquired_pointer) : bool :=
  match slot a with Some _ => negb (raw (value a) =? 0)%Z | None => false end.

Definition clear_protection (a : acquired_pointer) : M unit :=
  match slot a with
  | Some r => when (negb (raw (value a) =? 0)%Z) (store_slot r 0)
  | None => mret tt
  end.

(** [clear()]: the acquired pointer afterwards. *)
Definition clear_acquired (a : acquired_pointer) : M acquired_pointer :=
  clear_protection a;; mret null_acquired.

Definition create_object `{!Allocator} (tid : nat) (v : payload V) : M Z :=
  increment_allocations tid;;
  new_object 0 v.

(** The [do ... while] of [acquire]: without interference between the two loads
    one round is enough. *)
Fixpoint acquire (rounds : nat) (tid : nat) (p : loc) : M acquired_pointer :=
  match rounds with
  | O => fail OutOfFuel
  | S rounds' =>
      result ← loc_load p;
      store_slot (MainSlot tid) (raw result);;
      again ← loc_load p;
      if (again =? result)%Z then mret (AcquiredPointer result (Some (MainSlot tid)))
      else acquire rounds' tid p
  end.

Definition reserve (tid : nat) (p : Z) : M acquired_pointer :=
  store_slot (MainSlot tid) (raw p);;
  mret (AcquiredPointer p (Some (MainSlot tid))).

Definition reserve_nothing : acquired_pointer := null_acquired.

Definition release (tid : nat) : M unit := store_slot (MainSlot tid) 0.

(** The first null snapshot slot of the thread. *)
Definition get_free_slot (tid : nat) : M (option slot_ref) :=
  x ← gets announcements;
  sl ← at_ x tid;
  mret ((λ '(i, _), SnapSlot tid i) <$> list_find (λ y : Z, y = 0%Z) (snapshot_announcements sl)).

(** The loop of [protect_snapshot] when no slot is free. *)
Fixpoint protect_counted (rounds : nat) (tid : nat) (p : loc) : M acquired_pointer :=
  match rounds with
  | O => fail OutOfFuel
  | S rounds' =>
      a ← acquire rounds tid p;
      incremented ← (if (raw (value a) =? 0)%Z then mret false
                     else increment_ref_cnt (raw (value a)));
      if incremented : bool then
        clear_protection a;;
        mret (AcquiredPointer (value a) None)
      else
        again ← (if (raw (value a) =? 0)%Z then mret (value a) else loc_load p);
        clear_protection a;;
        if (raw (value a) =? 0)%Z || (again =? value a)%Z then mret null_acquired
        else protect_counted rounds' tid p
  end.

(** The loop of [protect_snapshot] with a free slot. *)
Fixpoint protect_in_slot (rounds : nat) (r : slot_ref) (p : loc) : M acquired_pointer :=
  match rounds with
  | O => fail OutOfFuel
  | S rounds' =>
      result ← loc_load p;
      if (raw result =? 0)%Z then
        store_slot r 0;;
        mret (AcquiredPointer result None)
      else
        store_slot r (raw result);;
        again ← loc_load p;
        if (again =? result)%Z then mret (AcquiredPointer result (Some r))
        else protect_in_slot rounds' r p
  end.

Definition protect_snapshot (rounds : nat) (tid : nat) (p : loc) : M acquired_pointer :=
  r ← get_free_slot tid;
  match r with
  | None => protect_counted rounds tid p
  | Some r => protect_in_slot rounds r p
  end.

(** [explicit acquire_retire(size_t num_threads)] *)
Definition hp_init (num_threads : nat) : st :=
  State ∅ ∅ (replicate num_threads 0%Z) (replicate num_threads new_slot)
    (replicate num_threads false) (replicate num_threads []) (replicate num_threads 0%Z).

End hp.

(** ** The scheme keeps its promises *)

(** A snapshot in use: the slot it occupies and the address it protects. *)
Record hp_snap := HpSnap { sn_tid : nat; sn_slot : nat; sn_ptr : Z }.

#[export] Instance hp_snap_eq_dec : EqDecision hp_snap.
Proof. solve_decision. Defined.

Definition hp_snap_ok (x : list LocalSlot) (t : hp_snap) : Prop :=
  sn_ptr t ≠ 0%Z ∧
  ∃ sl, x !! sn_tid t = Some sl ∧ snapshot_announcements sl !! sn_slot t = Some (sn_ptr t).

Lemma announce_type_eq r m ty : ∃ n, announce_type r m ty !! (r, ty) = Some (S n).
Proof. unfold announce_type. rewrite lookup_insert_eq. case_match; eauto. Qed.

Lemma announce_type_mono r m ty k n :
  m !! k = Some (S n) → ∃ n', announce_type r m ty !! k = Some (S n').
Proof.
  intros Hk. destruct (decide ((r, ty) = k)) as [<-|Hd]; [apply announce_type_eq|].
  unfold announce_type. rewrite lookup_insert_ne by done. eauto.
Qed.

Lemma announce_mono r m k n : m !! k = Some (S n) → ∃ n', announce m r !! k = Some (S n').
Proof.
  intros Hk. unfold announce, retire_types; simpl.
  destruct (announce_type_mono r _ decrement_strong_count _ _ Hk) as [n1 H1].
  destruct (announce_type_mono r _ decrement_weak_count _ _ H1) as [n2 H2].
  eapply announce_type_mono, H2.
Qed.

Lemma announce_self r m ty : ∃ n, announce m r !! (r, ty) = Some (S n).
Proof.
  unfold announce, retire_types; simpl. destruct ty.
  - destruct (announce_type_eq r m decrement_strong_count) as [n Hn].
    destruct (announce_type_mono r _ decrement_weak_count _ _ Hn) as [n' Hn']. eapply announce_type_mono, Hn'.
  - destruct (announce_type_eq r (announce_type r m decrement_strong_count) decrement_weak_count) as [n Hn].
    eapply announce_type_mono, Hn.
  - apply announce_type_eq.
Qed.

(** Every announced handle protects every kind of action on it. *)
Lemma scan_slots_announced x p ty :
  p ∈ announced_handles x → ∃ n, scan_slots x !! (p, ty) = Some (S n).
Proof.
  unfold scan_slots. generalize (∅ : gmap hp_entry nat) as m.
  induction (announced_handles x) as [|r l IH]; intros m Hp; [by apply elem_of_nil in Hp|].
  simpl. apply elem_of_cons in Hp as [<-|Hp]; [|by apply IH].
  destruct (announce_self p m ty) as [n Hn]. revert n Hn. generalize (announce m p) as m'.
  clear. induction l as [|r l IH]; intros m' n Hn; simpl; [eauto|].
  destruct (announce_mono r m' _ _ Hn) as [n' Hn']. by eapply IH.
Qed.

(** The first entry for an announced action is kept. *)
Lemma kept_of_announced {V : Type} (m : gmap hp_entry nat) (l : list hp_entry) e n :
  m !! e = Some n → e ∈ l → e ∈ kept_of (V := V) (X := list LocalSlot) m l.
Proof.
  revert m n. induction l as [|y l IH]; intros m n Hm He; [by apply elem_of_nil in He|].
  simpl. unfold check_announced. destruct (decide (e = y)) as [->|Hne].
  - rewrite Hm. by left.
  - apply elem_of_cons in He as [?|He]; [done|].
    destruct (m !! y) as [c|] eqn:Hy; [right|by eapply IH].
    eapply (IH _ n); [|done].
    case_match; [by rewrite lookup_delete_ne|by rewrite lookup_insert_ne].
Qed.

Lemma snap_announced x t : hp_snap_ok x t → sn_ptr t ∈ announced_handles x.
Proof.
  intros (Hp & sl & Hsl & Hi). unfold announced_handles. apply list_elem_of_In, in_concat.
  exists (filter (λ y : Z, y ≠ 0%Z) (announcement sl :: snapshot_announcements sl)).
  rewrite <-!list_elem_of_In. split.
  - apply list_elem_of_fmap. exists sl. split; [done|]. by eapply list_elem_of_lookup_2.
  - apply list_elem_of_filter. split; [done|]. right. by eapply list_elem_of_lookup_2.
Qed.

#[export] Instance hp_laws {V : Type} : SchemeLaws V (list LocalSlot) hp_entry.
Proof.
  refine {| snap := hp_snap; snap_ptr := sn_ptr; snap_ok := hp_snap_ok;
            snap_born := λ _ _, True; born_in := λ _ _, True; pinned := λ _ _ _, true |}.
  - intros x h p o ty _. by exists (p, ty).
  - done.
  - intros x t ty l [q ty'] Hok He Hq Hty _. simpl in *. subst q ty'.
    destruct (scan_slots_announced x (sn_ptr t) ty (snap_announced x t Hok)) as [n Hn].
    exists (sn_ptr t, ty). split; [|done]. by eapply kept_of_announced.
Defined.

(** ** The backend *)

#[export] Instance hp_backend {V : Type} `{Pol : !Policy} `{Alloc : !Allocator} :
    Backend V (list LocalSlot) hp_entry := {
  acquired := acquired_pointer;
  acq_value := value;
  acq_set := set_value;
  acq_null := null_acquired;
  acq_is_protected := is_protected;
  acq_clear := clear_acquired;
  acq_destruct := clear_protection;
  mm_acquire := acquire 1;
  mm_reserve := reserve;
  mm_reserve_nothing := reserve_nothing;
  mm_protect_snapshot := protect_snapshot 1;
  mm_create_object := create_object
}.

Section hp_ok.
  Context {V : Type} `{Pol : !Policy} `{Alloc : !Allocator}.
  Local Abbreviation st := (state V (list LocalSlot) hp_entry).
  Implicit Types (s : st) (E : list (obl hp_entry)) (Ss Ws : list hp_snap).

(** The thread has its slots. *)
Definition hp_may_read (x : list LocalSlot) (tid : nat) : Prop :=
  ∃ sl, x !! tid = Some sl ∧ length (snapshot_announcements sl) = snapshot_slots.

(** Whoever may read before may read after. *)
Definition hp_keeps (x x' : list LocalSlot) : Prop := ∀ tid, hp_may_read x tid → hp_may_read x' tid.

Lemma hp_keeps_trans x1 x2 x3 : hp_keeps x1 x2 → hp_keeps x2 x3 → hp_keeps x1 x3.
Proof. unfold hp_keeps. auto. Qed.

Definition hp_token (a : acquired_pointer) (t : hp_snap) : Prop :=
  slot a = Some (SnapSlot (sn_tid t) (sn_slot t)) ∧ raw (value a) = sn_ptr t ∧ sn_ptr t ≠ 0%Z.

Definition hp_apart (t t' : hp_snap) : Prop :=
  (sn_tid t, sn_slot t) ≠ (sn_tid t', sn_slot t').

Definition hp_transient (tid : nat) (a : acquired_pointer) : Prop :=
  slot a = None ∨ slot a = Some (MainSlot tid).

Definition set_main (v : Z) (sl : LocalSlot) : LocalSlot :=
  {| announcement := v; snapshot_announcements := snapshot_announcements sl |}.
Definition set_snap (i : nat) (v : Z) (sl : LocalSlot) : LocalSlot :=
  {| announcement := announcement sl; snapshot_announcements := <[i:=v]> (snapshot_announcements sl) |}.

Lemma may_read_main x tid tid' v sl :
  x !! tid = Some sl → hp_may_read x tid' → hp_may_read (<[tid:=set_main v sl]> x) tid'.
Proof.
  intros Hsl (sl' & Hsl' & Hlen). destruct (decide (tid = tid')) as [->|Hne].
  - exists (set_main v sl). rewrite list_lookup_insert_eq by (by eapply lookup_lt_Some).
    split; [done|]. simpl. congruence.
  - exists sl'. by rewrite list_lookup_insert_ne.
Qed.

Lemma may_read_snap x tid tid' i v sl :
  x !! tid = Some sl → hp_may_read x tid' → hp_may_read (<[tid:=set_snap i v sl]> x) tid'.
Proof.
  intros Hsl (sl' & Hsl' & Hlen). destruct (decide (tid = tid')) as [->|Hne].
  - exists (set_snap i v sl). rewrite list_lookup_insert_eq by (by eapply lookup_lt_Some).
    split; [done|]. simpl. rewrite length_insert. congruence.
  - exists sl'. by rewrite list_lookup_insert_ne.
Qed.

(** Storing to the main slot leaves the snapshots alone. *)
Lemma store_main_ok Ss Ws E tid v (Q : unit → st → Prop) s :
  Inv Ss Ws E s → hp_may_read (announcements s) tid →
  (∀ s', Inv Ss Ws E s' → same_values s s' → (∀ E', potential E' s' = potential E' s) →
         hp_keeps (announcements s) (announcements s') → (∃ x, s' = set_announcements x s) → Q tt s') →
  wp (store_slot (MainSlot tid) v) Q s.
Proof.
  intros Hinv Hmr HQ. pose proof Hmr as (sl & Hsl & Hlen). unfold store_slot. wp_step. wp_step.
  wp_step. eapply wp_at; [done|]. wp_step.
  apply HQ; [|apply same_values_set_ann|done|intros tid'; by apply (may_read_main _ _ _ v sl)|eauto].
  apply Inv_set_announcements; [|done|done].
  intros t _ (Hp & sl' & Hsl' & Hi). split; [|done]. split; [done|].
  destruct (decide (tid = sn_tid t)) as [->|Hne].
  - exists (set_main v sl). rewrite list_lookup_insert_eq by (by eapply lookup_lt_Some).
    split; [done|]. simpl. by simplify_eq.
  - exists sl'. by rewrite list_lookup_insert_ne.
Qed.

(** Storing to a snapshot slot that no other snapshot uses. *)
Lemma store_snap_ok Ss Ws E tid i v sl c (Q : unit → st → Prop) s :
  Inv Ss Ws E s → announcements s !! tid = Some sl → snapshot_announcements sl !! i = Some c →
  (∀ t, t ∈ Ss ∨ t ∈ Ws → (sn_tid t, sn_slot t) ≠ (tid, i)) →
  (Inv Ss Ws E (set_announcements (<[tid:=set_snap i v sl]> (announcements s)) s) →
   Q tt (set_announcements (<[tid:=set_snap i v sl]> (announcements s)) s)) →
  wp (store_slot (SnapSlot tid i) v) Q s.
Proof.
  intros Hinv Hsl Hc Hap HQ. unfold store_slot. wp_step. wp_step.
  wp_step. eapply wp_at; [done|]. wp_step. eapply wp_at; [done|]. wp_step. apply HQ.
  apply Inv_set_announcements; [|done|done].
  intros t Ht (Hp & sl' & Hsl' & Hi). split; [|done]. split; [done|].
  specialize (Hap t Ht). destruct (decide (tid = sn_tid t)) as [->|Hne].
  - exists (set_snap i v sl). rewrite list_lookup_insert_eq by (by eapply lookup_lt_Some).
    split; [done|]. simpl. simplify_eq. rewrite list_lookup_insert_ne; [done|congruence].
  - exists sl'. by rewrite list_lookup_insert_ne.
Qed.

Lemma hp_acquire_ok rounds Ss Ws E tid l m s :
  hp_may_read (announcements s) tid → Inv Ss Ws E s → member_at s l m → is_atomic m = true →
  wp (acquire (S rounds) tid l)
     (λ a s', a = AcquiredPointer (member_word m) (Some (MainSlot tid)) ∧
              Inv Ss Ws E s' ∧ same_values s s' ∧ potential E s' = potential E s ∧
              hp_keeps (announcements s) (announcements s') ∧ ∃ x, s' = set_announcements x s) s.
Proof.
  intros Hmr Hinv Hm Hat. simpl acquire. wp_step. eapply loc_load_ok; [done..|].
  wp_step. eapply store_main_ok; [done..|]. intros s' Hinv' Hsv Hpot Hmr' Hh.
  wp_step. eapply loc_load_ok; [by eapply same_values_member|done|].
  rewrite Z.eqb_refl. by wp_step.
Qed.

Lemma get_free_slot_spec tid s (Q : option slot_ref → st → Prop) sl :
  announcements s !! tid = Some sl →
  (∀ i, snapshot_announcements sl !! i = Some 0%Z → Q (Some (SnapSlot tid i)) s) →
  Q None s → wp (get_free_slot tid) Q s.
Proof.
  intros Hsl HS HN. unfold get_free_slot. wp_step. wp_step. wp_step. eapply wp_at; [done|]. wp_step.
  destruct (list_find _ _) as [[i y]|] eqn:Hf; simpl; [|done].
  apply list_find_Some in Hf as (Hi & -> & _). by apply HS.
Qed.

Lemma hp_protect_in_slot_ok rounds Ss Ws E tid i l m sl s :
  Inv Ss Ws E s → member_at s l m → is_atomic m = true →
  announcements s !! tid = Some sl → snapshot_announcements sl !! i = Some 0%Z →
  hp_may_read (announcements s) tid →
  let w := member_word m in
  wp (protect_in_slot (S rounds) (SnapSlot tid i) l)
     (λ a s', same_values s s' ∧ hp_keeps (announcements s) (announcements s') ∧ Inv Ss Ws E s' ∧
        potential E s' = potential E s ∧ value a = w ∧
        if (raw w =? 0)%Z then slot a = None
        else let t := HpSnap tid i (raw w) in
             hp_token a t ∧ hp_snap_ok (announcements s') t ∧
             ∀ t', t' ∈ Ss ∨ t' ∈ Ws → hp_apart t t') s.
Proof.
  intros Hinv Hm Hat Hsl Hi Hmr w.
  assert (∀ t, t ∈ Ss ∨ t ∈ Ws → (sn_tid t, sn_slot t) ≠ (tid, i)) as Hfree.
  { intros t Ht [= <- <-]. destruct Hinv as [_ _ [_ H1 H2]].
    assert (hp_snap_ok (announcements s) t) as (Hp & sl' & Hsl' & Hi').
    { destruct Ht as [Ht|Ht]; [by destruct (H1 t Ht) as [[? ?] ?]|by destruct (H2 t Ht) as [[? ?] ?]]. }
    simplify_eq. }
  simpl protect_in_slot. wp_step. eapply loc_load_ok; [done..|]. fold w.
  destruct (raw w =? 0)%Z eqn:Hw0.
  - wp_step. eapply store_snap_ok; [done..|]. intros Hinv'. wp_step.
    split; [apply same_values_set_ann|]. split; [intros tid'; by apply may_read_snap|]. done.
  - wp_step. eapply store_snap_ok; [done..|]. intros Hinv'. wp_step.
    eapply loc_load_ok; [by eapply same_values_member; [apply same_values_set_ann|]|done|].
    fold w. rewrite Z.eqb_refl. wp_step.
    split; [apply same_values_set_ann|]. split; [intros tid'; by apply may_read_snap|]. split; [done|].
    split; [done|]. split; [done|]. apply Z.eqb_neq in Hw0. split; [done|]. split.
    + split; [done|]. exists (set_snap i (raw w) sl). simpl.
      rewrite !list_lookup_insert_eq by (by eapply lookup_lt_Some). done.
    + intros t' Ht' Heq. by apply (Hfree t' Ht').
Qed.

(** Without a free slot a reference is taken instead. *)
Lemma hp_protect_counted_ok rounds Ss Ws E tid l m s :
  Inv Ss Ws E s → member_at s l m → is_atomic m = true → hp_may_read (announcements s) tid →
  let w := member_word m in
  (raw w ≠ 0%Z → ∃ o, heap s !! raw w = Some o ∧ strong_room o) →
  wp (protect_counted (S rounds) tid l)
     (λ a s', same_values s s' ∧ hp_keeps (announcements s) (announcements s') ∧
        potential E s' = potential E s ∧ slot a = None ∧
        if (raw w =? 0)%Z || (total (on (V := V) (X := list LocalSlot) (raw w) decrement_strong_count) E s =? 0)%nat
        then value a = 0%Z ∧ Inv Ss Ws E s'
        else value a = w ∧ Inv Ss Ws (OStrong (raw w) :: E) s') s.
Proof.
  intros Hinv Hm Hat Hmr w Ho. simpl protect_counted. wp_step.
  eapply wp_mono; [by apply (hp_acquire_ok rounds)|].
  intros a s1 (-> & Hinv1 & Hsv1 & Hpot1 & Hmr1 & x & Hx). simpl value. fold w.
  assert (∀ E' (Q : unit → st → Prop) s2, raw w ≠ 0%Z → Inv Ss Ws E' s2 → hp_may_read (announcements s2) tid →
    (∀ s3, Inv Ss Ws E' s3 → same_values s2 s3 → potential E s3 = potential E s2 →
           hp_keeps (announcements s2) (announcements s3) → Q tt s3) →
    wp (clear_protection (AcquiredPointer w (Some (MainSlot tid)))) Q s2) as Hclear.
  { intros E' Q s2 Hw0 Hinv2 Hmr2 HQ. unfold clear_protection. simpl. wp_step; [intros _|].
    - eapply store_main_ok; [done..|]. intros s3 ????. by intros; apply HQ.
    - intros Hc. by apply negb_false_iff, Z.eqb_eq in Hc. }
  destruct (raw w =? 0)%Z eqn:Hw0; simpl.
  - wp_steps. unfold clear_protection. simpl. rewrite Hw0. simpl. wp_steps.
    split; [done|]. split; [done|]. split; [done|]. split; [done|]. done.
  - pose proof Hw0 as Hnz. apply Z.eqb_neq in Hnz. destruct (Ho Hnz) as (o & Hho & Hroom).
    change (heap s) with (heap (set_announcements x s)) in Hho. rewrite <-Hx in Hho.
    wp_step. eapply wp_mono; [by eapply increment_ref_ok|].
    intros b s2 (-> & Hsv2 & Ha2 & Hpot2 & Hinv2). rewrite <-Ha2 in Hmr1.
    pose proof (Hmr1 _ Hmr) as Hmr2.
    assert (same_values s s2) as Hsv by by etrans.
    assert (∀ g, total g E s1 = total g E s) as Htot by (intros; by rewrite Hx). rewrite Htot in *.
    destruct (_ =? 0) eqn:HS; simpl in *.
    + wp_step. eapply loc_load_ok; [by eapply same_values_member|done|]. fold w. wp_step.
      eapply Hclear; [done..|]. intros s3 Hinv3 Hsv3 Hpot3 Hmr3. rewrite Z.eqb_refl. wp_step.
      split; [by etrans|]. split; [by eapply hp_keeps_trans|]. split; [congruence|]. done.
    + wp_step. eapply Hclear; [done..|]. intros s3 Hinv3 Hsv3 Hpot3 Hmr3. wp_step.
      split; [by etrans|]. split; [by eapply hp_keeps_trans|]. split; [congruence|]. done.
Qed.

(** [protect_snapshot] in both cases. *)
Lemma hp_protect_snapshot_ok rounds Ss Ws E tid l m s :
  Inv Ss Ws E s → member_at s l m → is_atomic m = true → hp_may_read (announcements s) tid →
  let w := member_word m in
  (∀ o, heap s !! raw w = Some o → strong_room o) →
  wp (protect_snapshot (S rounds) tid l)
     (λ a s', same_values s s' ∧ hp_keeps (announcements s) (announcements s') ∧
        potential E s' = potential E s ∧
        ((raw (value a) = 0%Z ∧ (value a = w ∨ value a = 0%Z) ∧ slot a = None ∧ Inv Ss Ws E s' ∧
          (raw w = 0%Z ∨ total (on (V := V) (X := list LocalSlot) (raw w) decrement_strong_count) E s = 0)) ∨
         (value a = w ∧ raw w ≠ 0%Z ∧
          ((∃ t, hp_token a t ∧ hp_snap_ok (announcements s') t ∧
                 (∀ t', t' ∈ Ss ∨ t' ∈ Ws → hp_apart t t') ∧ Inv Ss Ws E s') ∨
           (slot a = None ∧ Inv Ss Ws (OStrong (raw w) :: E) s'))))) s.
Proof.
  intros Hinv Hm Hat Hmr w Hroom. pose proof Hmr as (sl & Hsl & _). unfold protect_snapshot. wp_step.
  eapply get_free_slot_spec; [done|..].
  - intros i Hi. eapply wp_mono; [by apply (hp_protect_in_slot_ok rounds Ss Ws E tid i l m sl)|].
    fold w. intros a s' (Hsv & Hmr' & Hinv' & Hpot & Hv & Hor).
    split; [done|]. split; [done|]. split; [done|]. destruct (raw w =? 0)%Z eqn:Hw0.
    + left. apply Z.eqb_eq in Hw0. split; [congruence|]. split; [by left|]. eauto.
    + right. apply Z.eqb_neq in Hw0. destruct Hor as (Ht & Hok & Hap). eauto 10.
  - eapply wp_mono; [apply (hp_protect_counted_ok rounds Ss Ws E tid l m); try done|].
    { intros Hnz. destruct (member_object _ _ _ _ _ _ Hinv Hm Hat Hnz) as [o Ho]. eauto. }
    fold w. intros a s' (Hsv & Hmr' & Hpot & Hsl' & Hor).
    split; [done|]. split; [done|]. split; [done|]. destruct (raw w =? 0)%Z eqn:Hw0; simpl in Hor.
    + left. destruct Hor as [-> ?]. apply Z.eqb_eq in Hw0. split; [by apply raw_aligned|]. split; [by right|]. eauto.
    + apply Z.eqb_neq in Hw0. destruct (Nat.eqb_spec (total (on (V := V) (X := list LocalSlot) (raw w) decrement_strong_count) E s) 0) as [HS|HS].
      * left. destruct Hor as [-> ?]. split; [by apply raw_aligned|]. split; [by right|]. eauto.
      * right. destruct Hor as [-> ?]. eauto.
Qed.

(** Clearing an announced pointer frees its slot. *)
Lemma hp_clear_token_ok Ss Ws E a t s :
  hp_token a t → hp_snap_ok (announcements s) t →
  (∀ t', t' ∈ Ss ∨ t' ∈ Ws → hp_apart t t') → Inv Ss Ws E s →
  wp (clear_protection a)
     (λ _ s', Inv Ss Ws E s' ∧ same_values s s' ∧ potential E s' = potential E s ∧
              hp_keeps (announcements s) (announcements s')) s.
Proof.
  intros (Hs & Hv & Hp) (_ & sl & Hsl & Hi) Hap Hinv. unfold clear_protection.
  rewrite Hs, Hv, (proj2 (Z.eqb_neq _ _) Hp). simpl. eapply store_snap_ok; [done..| |].
  - intros t' Ht' Heq. by apply (Hap t' Ht').
  - intros Hinv'. split; [done|]. split; [apply same_values_set_ann|].
    split; [done|]. intros tid. by apply may_read_snap.
Qed.

Lemma hp_clear_free a s :
  is_protected a = false ∨ raw (value a) = 0%Z → wp (clear_protection a) (λ _ s', s' = s) s.
Proof.
  intros Ha. unfold clear_protection, is_protected in *. destruct (slot a) as [r|]; [|by wp_steps].
  assert ((raw (value a) =? 0)%Z = true) as ->; [|by wp_steps].
  destruct Ha as [Ha|Ha]; [by apply negb_false_iff in Ha|by apply Z.eqb_eq].
Qed.

End hp_ok.

#[export] Instance hp_backend_laws {V : Type} `{Pol : !Policy} `{Alloc : !Allocator} :
  BackendLaws V (list LocalSlot) hp_entry.
Proof.
  refine {| acq_token := hp_token; apart := hp_apart; transient := hp_transient; may_read := hp_may_read;
            can_create _ _ := True |}; simpl.
  - intros a t (Hs & Hv & Hp). unfold is_protected. rewrite Hs, Hv. split; [done|].
    by apply negb_true_iff, Z.eqb_neq.
  - done.
  - done.
  - intros a w t Hw (Hs & Hv & Hp). split; [done|]. split; [by rewrite <-Hv|done].
  - intros a w Hw. unfold is_protected, set_value. simpl. by rewrite Hw.
  - intros t t' Hne Heq. by apply Hne.
  - intros tid. by left.
  - intros Ss Ws E tid l m s _ Hmr Hinv Hm Hat. eapply wp_mono; [by apply (hp_acquire_ok 0)|].
    intros a s' (-> & ? & ? & ? & ? & _). split; [by left|]. split; [by right|]. done.
  - intros Ss Ws E tid p s _ Hmr Hinv. unfold reserve. wp_step. eapply store_main_ok; [done..|].
    intros s' ? ? ? ? _. wp_step. split; [by right|]. done.
  - intros Ss Ws E tid a s _ Hmr Htr Hinv. unfold clear_protection. destruct Htr as [-> | ->]; [by wp_step|].
    wp_step; [|done]. intros _. eapply store_main_ok; [done..|]. intros s' ? ? ? ? _. done.
  - intros Ss Ws E tid l w s _ Hmr Hinv Hm Hroom.
    eapply wp_mono; [by apply (hp_protect_snapshot_ok 0 Ss Ws E tid l (MAtomicRc w))|].
    simpl. intros a s' (Hsv & Hmr' & Hpot & Hor). split; [done|]. split; [done|].
    destruct (Z.eqb_spec (raw w) 0) as [Hw0|Hnz].
    + destruct Hor as [(? & ? & ? & ? & _)|(? & ? & _)]; done.
    + pose proof (total_atomic_rc E s l w Hm Hnz) as HS0. pose proof (atomic_rc_obls (En := hp_entry) w Hnz) as Hob.
      destruct Hor as [(_ & _ & _ & _ & [?|HS])|(Hv & _ & [(t & Ht & Hok & Hap & Hinv')|(Hsl & Hinv')])].
      * done.
      * lia.
      * split; [done|]. left. exists t. split; [done|]. split; [done|]. split; [|done].
        apply (Inv_add_snap (Laws := hp_laws)); [done|by split|]. eapply (total_member_pins (Laws := hp_laws) E s' l (MAtomicRc w)).
        { by eapply same_values_member. }
        rewrite Hob. destruct Ht as (_ & Ht & _). simpl in *. congruence.
      * split; [done|]. right. unfold is_protected. by rewrite Hsl.
  - intros Ss Ws E tid l w s _ Hmr Hinv Hm Hroom.
    eapply wp_mono; [by apply (hp_protect_snapshot_ok 0 Ss Ws E tid l (MAtomicWeak w))|].
    simpl. intros a s' (Hsv & Hmr' & Hpot & Hor). split; [done|]. split; [done|].
    destruct Hor as [(? & _ & ? & ? & ?)|(Hv & Hnz & [(t & Ht & Hok & Hap & Hinv')|(Hsl & Hinv')])].
    + by left.
    + right. split; [done|]. split; [done|]. left. exists t. split; [done|]. split; [by split|]. done.
    + right. split; [done|]. split; [done|]. right. unfold is_protected. by rewrite Hsl.
  - intros Ss Ws E a t s Ht Hok Hap Hinv. unfold clear_acquired. wp_step.
    eapply wp_mono; [by eapply hp_clear_token_ok|]. intros u s' (? & ? & ? & ?). by wp_step.
  - intros Ss Ws E a t s Ht Hok Hap Hinv. eapply wp_mono; [by eapply hp_clear_token_ok|].
    intros u s' (? & ? & ? & ?). done.
  - intros a s Ha. by apply hp_clear_free.
  - intros a s Ha. unfold clear_acquired. wp_step. eapply wp_mono; [by apply hp_clear_free|].
    intros _ s' ->. by wp_step.
  - intros Ss Ws E tid v s Htid _ Hinv. eapply wp_mono; [by apply new_object_created|].
    intros p s' [Ha H]. rewrite Ha. by destruct_and!; split_and!.
Defined.
