(* ===== verification/AcquireRetireEBR.v ===== *)
(** * The epoch-based backend
    ([acquire_retire_ebr] of src/include/cdrc/internal/smr/acquire_retire_ebr.h)

    Deferred actions are stamped with the epoch in which they were retired; one
    is applied when its stamp is earlier than every announced epoch.  Readers
    announce nothing per pointer: an [epoch_guard] protects everything they
    read. *)

From S2P Require Import Prelude StickyCounter CountedObject MemoryManager Accounting ManagerSafety AtomicLoc Backend EpochTracker DeferredLists.

Record RetiredObj := MkRetired { obj : Z; retireTS : Z; type : RetireType }.

#[export] Instance RetiredObj_eq_dec : EqDecision RetiredObj.
Proof. solve_decision. Defined.

(** The epoch tracker and the manager's [epoch_work]. *)
Record ebr_state := EbrState { tracker : epoch_tracker; epoch_work : list Z }.

Definition epoch_frequency : Z := 10.

#[export] Instance ebr_scheme {V : Type} : Scheme V ebr_state RetiredObj := {
  scan_t := Z;
  e_obj := obj;
  e_type := type;
  make_entry x _ p ty := Ok (MkRetired p (global_epoch (tracker x)) ty);
  scan x := min_announced (tracker x);
  check min_epoch e := (negb (retireTS e <? min_epoch)%Z, min_epoch);
  eject_delay := 2
}.

(** [basic_acquired_pointer]: only the value. *)
Record basic_acquired_pointer := BasicAcquired { bvalue : Z }.

Definition basic_null : basic_acquired_pointer := BasicAcquired 0.
(** An assignment through the reference that [get()] returns. *)
Definition basic_set (a : basic_acquired_pointer) (w : Z) : basic_acquired_pointer := BasicAcquired w.
Definition basic_is_protected (a : basic_acquired_pointer) : bool := true.
Definition basic_clear_protection {S} (a : basic_acquired_pointer) : M S unit := mret tt.
Definition basic_clear {S} (a : basic_acquired_pointer) : M S basic_acquired_pointer := mret basic_null.

(** The new pointer and the moved-from one. *)
Definition basic_move (other : basic_acquired_pointer) : basic_acquired_pointer * basic_acquired_pointer :=
  (other, basic_null).
Definition basic_swap (a other : basic_acquired_pointer) : basic_acquired_pointer * basic_acquired_pointer :=
  (other, a).

Section ebr.
  Context {V : Type} `{Pol : !Policy}.
  Local Abbreviation st := (state V ebr_state RetiredObj).
  Local Abbreviation M := (M st).

(** An operation on the tracker. *)
Definition on_tracker {A} (m : Prelude.M epoch_tracker A) : M A := λ s,
  match m (tracker (announcements s)) with
  | Ok (a, tr) => Ok (a, set_announcements (EbrState tr (epoch_work (announcements s))) s)
  | Err e => Err e
  end.

(** [epoch_work] is an [unsigned int]. *)
Definition work_toward_advancing_epoch (tid : nat) (work : Z) : M unit :=
  x ← gets announcements;
  k ← at_ (epoch_work x) tid;
  let k := wrap 32 (k + work) in
  modify (set_announcements (EbrState (tracker x) (<[tid := k]> (epoch_work x))));;
  when (epoch_frequency * Z.of_nat (length (epoch_work x)) <=? k)%Z
    (modify (set_announcements (EbrState (tracker x) (<[tid := 0%Z]> (epoch_work x))));;
     on_tracker advance_global_epoch;; mret tt).

Definition ebr_create_object `{!Allocator} (tid : nat) (v : payload V) : M Z :=
  increment_allocations tid;;
  work_toward_advancing_epoch tid 1;;
  new_object 0 v.

Definition ebr_acquire (tid : nat) (p : loc) : M basic_acquired_pointer :=
  v ← loc_load p;
  mret (BasicAcquired v).

Definition ebr_reserve (tid : nat) (p : Z) : M basic_acquired_pointer := mret (BasicAcquired p).

Definition ebr_protect_snapshot (tid : nat) (p : loc) : M basic_acquired_pointer :=
  ptr ← loc_load p;
  dead ← (if (raw ptr =? 0)%Z then mret false
          else n ← with_obj (raw ptr) get_use_count; mret (n =? 0)%Z);
  mret (BasicAcquired (if dead : bool then 0%Z else ptr)).

(** *** The deferred lists, as this file writes them *)

(** The lambda [f] of [work_toward_ejects]. *)
Definition ebr_eject_if (ejectf : Z → RetireType → M unit) (min_epoch : Z) (x : RetiredObj) : M bool :=
  if (retireTS x <? min_epoch)%Z then ejectf (obj x) (type x);; mret true else mret false.

Definition ebr_work_toward_ejects (ejectf : Z → RetireType → M unit) (fuel : nat) (tid : nat) (work : Z) : M unit :=
  work_toward_ejects 2
    (λ deferred,
       min_epoch ← on_tracker get_min_announced_epoch;
       remove_if (ebr_eject_if ejectf min_epoch) deferred)
    fuel tid work.

Definition ebr_retire (ejectf : Z → RetireType → M unit) (fuel : nat) (tid : nat) (p : Z) (type : RetireType) : M unit :=
  e ← on_tracker get_current_epoch;
  push_deferred tid (MkRetired p e type);;
  ebr_work_toward_ejects ejectf fuel tid 1.

(** [~acquire_retire_ebr] *)
Definition ebr_shutdown (ejectf : Z → RetireType → M unit) (fuel : nat) : M unit :=
  modify (λ s, set_in_progress (map (λ _, true) (in_progress s)) s);;
  drain_loop (λ x, (obj x, type x)) ejectf fuel.

Definition ebr_delete_object (tid : nat) (p : Z) : M unit :=
  o ← deref p;
  assert_ (disposed o);;
  modify (λ s, set_heap (delete p (heap s)) s);;
  decrement_allocations tid.

Definition ebr_init (num_threads : nat) : st :=
  State ∅ ∅ (replicate num_threads 0%Z)
    (EbrState (tracker_init num_threads) (replicate num_threads 0%Z))
    (replicate num_threads false) (replicate num_threads []) (replicate num_threads 0%Z).

End ebr.

(** ** The shared manager is this one

    The lists of this backend are the shared ones of [MemoryManager] at
    [ebr_scheme]. *)

Section ebr_lists.
  Context {V : Type} `{Pol : !Policy}.
  Local Abbreviation st := (state V ebr_state RetiredObj).

Lemma ebr_body_eq ejectf deferred (s : st) :
  (min_epoch ← on_tracker get_min_announced_epoch;
   remove_if (ebr_eject_if ejectf min_epoch) deferred) s =
  (sc ← gets (λ s, scan (announcements s)); remove_applied ejectf sc deferred) s.
Proof.
  destruct s as [h c n [tr ew] ip d w]. unfold mbind, M_bind. simpl.
  apply (remove_if_applied (Sch := ebr_scheme)). intros x.
  eexists. split; [reflexivity|]. unfold ebr_eject_if. simpl. by destruct (retireTS x <? _)%Z.
Qed.

(** [retire], with its eject loop, and the destructor compute what the shared
    definitions compute at the scheme, from every state: what is proved of the
    manager holds of this text. *)
Lemma ebr_is_manager ejectf fuel tid p ty (s : st) :
  ebr_retire ejectf fuel tid p ty s = retire ejectf fuel tid p ty s ∧
  ebr_shutdown ejectf fuel s = shutdown ejectf fuel s ∧
  ebr_delete_object tid p s = delete_object tid p s.
Proof.
  split; [|split; [|done]].
  - unfold ebr_retire, retire, mbind, M_bind. simpl. destruct s as [h c n [tr ew] ip d w]. simpl.
    destruct (push_deferred _ _ _) as [[u s1]|]; [|done].
    apply (work_toward_ejects_eq (Sch := ebr_scheme)); [done|]. intros l s. apply ebr_body_eq.
  - unfold ebr_shutdown, shutdown, mbind, M_bind, gets. simpl. rewrite map_const.
    by apply (drain_loop_eq (Sch := ebr_scheme)).
Qed.



End ebr_lists.

(** ** The scheme keeps its promises *)

(** A snapshot: the thread, the epoch its guard announces, the address. *)
Record ebr_snap := EbrSnap { es_tid : nat; es_epoch : Z; es_ptr : Z }.

Definition in_epoch (x : ebr_state) (tid : nat) (e : Z) : Prop :=
  local_epoch (tracker x) !! tid = Some e ∧ (e ≤ global_epoch (tracker x))%Z.

#[export] Instance ebr_laws {V : Type} : SchemeLaws V ebr_state RetiredObj.
Proof.
  refine {| snap := ebr_snap; snap_ptr := es_ptr;
            snap_ok x t := in_epoch x (es_tid t) (es_epoch t);
            snap_born _ _ := True; born_in _ _ := True;
            pinned _ t e := (es_epoch t <=? retireTS e)%Z |}.
  - intros x h p o ty _. eexists. split; [done|]. split; [done|]. split; [done|].
    intros t [_ Hle] _ _. simpl. by apply Z.leb_le.
  - done.
  - intros x t ty l e [Hl _] He Ho Hty Hp%Z.leb_le. exists e. split; [|by rewrite Z.leb_le].
    simpl. apply list_elem_of_lookup_2, min_announced_le in Hl.
    induction l as [|y l IH]; simpl; [by apply elem_of_nil in He|].
    apply elem_of_cons in He as [<-|He].
    + assert ((retireTS e <? min_announced (tracker x))%Z = false) as -> by (apply Z.ltb_ge; lia).
      by left.
    + destruct (negb _); [right|]; by apply IH.
Defined.

#[export] Instance ebr_backend {V : Type} `{Pol : !Policy} `{Alloc : !Allocator} :
    Backend V ebr_state RetiredObj := {
  acquired := basic_acquired_pointer;
  acq_value := bvalue;
  acq_set := basic_set;
  acq_null := basic_null;
  acq_is_protected := basic_is_protected;
  acq_clear := basic_clear;
  acq_destruct := basic_clear_protection;
  mm_acquire := ebr_acquire;
  mm_reserve := ebr_reserve;
  mm_reserve_nothing := basic_null;
  mm_protect_snapshot := ebr_protect_snapshot;
  mm_create_object := ebr_create_object
}.

Section ebr_ok.
  Context {V : Type} `{Pol : !Policy} `{Alloc : !Allocator}.
  Local Abbreviation st := (state V ebr_state RetiredObj).
  Implicit Types (s : st) (E : list (obl RetiredObj)) (Ss Ws : list ebr_snap).

(** The thread is in a critical section. *)
Definition ebr_may_read (x : ebr_state) (tid : nat) : Prop := ∃ e, in_epoch x tid e.

(** The epoch can still be advanced. *)
Definition ebr_can_create (x : ebr_state) (tid : nat) : Prop :=
  tid < length (epoch_work x) ∧ (0 ≤ global_epoch (tracker x))%Z ∧
  (global_epoch (tracker x) + 1 < 2 ^ epoch_width)%Z.

Definition ebr_token (a : basic_acquired_pointer) (t : ebr_snap) : Prop := raw (bvalue a) = es_ptr t.

(** A later global epoch keeps every announcement in force. *)
Lemma later_epoch_inv Ss Ws E x s :
  local_epoch (tracker x) = local_epoch (tracker (announcements s)) →
  (global_epoch (tracker (announcements s)) ≤ global_epoch (tracker x))%Z →
  Inv Ss Ws E s → Inv Ss Ws E (set_announcements x s).
Proof.
  intros Hl Hg. apply Inv_set_announcements; [|done]. intros t _ [Ht Hle]. split; [|done].
  split; [by rewrite Hl|lia].
Qed.

(** Creating an object may advance the epoch, and otherwise is an allocation. *)
Lemma ebr_create_object_eq tid v s :
  ebr_can_create (announcements s) tid →
  ∃ x, ebr_create_object tid v s = (increment_allocations tid;; new_object 0 v) (set_announcements x s) ∧
       local_epoch (tracker x) = local_epoch (tracker (announcements s)) ∧
       (global_epoch (tracker (announcements s)) ≤ global_epoch (tracker x))%Z.
Proof.
  intros (Htid & H0 & Hlt). apply lookup_lt_is_Some_2 in Htid as [k Hk].
  unfold ebr_create_object, increment_allocations, work_toward_advancing_epoch, mbind, M_bind, gets, at_.
  destruct (num_allocated s !! tid) as [c|] eqn:Hc; last first.
  { exists (announcements s). simpl. by rewrite Hc. }
  simpl. rewrite Hk. simpl. rewrite Hc. simpl.
  destruct (_ <=? _)%Z; simpl; eexists; (split; [reflexivity|]); simpl; [|done].
  split; [done|]. unfold wrap. rewrite Z.mod_small by lia. lia.
Qed.

(** [protect_snapshot] returns the word unless the strong count is zero; it
    changes nothing. *)
Lemma ebr_protect_snapshot_ok Ss Ws E tid l m s :
  Inv Ss Ws E s → member_at s l m → is_atomic m = true →
  let w := member_word m in
  wp (ebr_protect_snapshot tid l)
     (λ a s', s' = s ∧
        bvalue a = if negb (raw w =? 0)%Z &&
                      (total (on (V := V) (X := ebr_state) (raw w) decrement_strong_count) E s =? 0)%nat
                   then 0%Z else w) s.
Proof.
  intros Hinv Hm Hat w. unfold ebr_protect_snapshot. wp_step. eapply loc_load_ok; [done..|]. fold w.
  destruct (Z.eqb_spec (raw w) 0) as [Hw|Hw]; simpl; [by wp_steps|].
  destruct (member_object _ _ _ _ _ _ Hinv Hm Hat Hw) as [o Ho]. fold w in Ho.
  pose proof (Inv_counts _ _ _ _ _ _ Hinv Ho) as [Hs _ _ _ _]. wp_step. wp_step.
  eapply wp_use_count; [done|done|exact Hs|]. wp_steps. split; [done|].
  destruct (total _ E s); done.
Qed.

End ebr_ok.

#[export] Instance ebr_backend_laws {V : Type} `{Pol : !Policy} `{Alloc : !Allocator} :
  BackendLaws V ebr_state RetiredObj.
Proof.
  refine {| acq_token := ebr_token; apart _ _ := True; transient _ _ := True;
            may_read := ebr_may_read; can_create := ebr_can_create |}; simpl.
  - done.
  - done.
  - done.
  - unfold ebr_token. simpl. congruence.
  - done.
  - done.
  - done.
  - intros Ss Ws E tid l m s _ Hmr Hinv Hm Hat. unfold ebr_acquire. wp_step.
    eapply loc_load_ok; [done..|]. wp_step. split; [by left|]. done.
  - intros Ss Ws E tid p s _ Hmr Hinv. unfold ebr_reserve. by wp_step.
  - intros Ss Ws E tid a s _ Hmr _ Hinv. unfold basic_clear_protection. by wp_step.
  - intros Ss Ws E tid l w s _ [e Hmr] Hinv Hm _.
    eapply wp_mono; [by apply (ebr_protect_snapshot_ok Ss Ws E tid l (MAtomicRc w))|].
    simpl. intros a s' [-> Hv]. split; [done|]. split; [done|].
    destruct (Z.eqb_spec (raw w) 0) as [Hw|Hw]; simpl in Hv; rewrite Hv.
    + split; [by left|done].
    + pose proof (total_atomic_rc E s l w Hm Hw) as HS. pose proof (atomic_rc_obls (En := RetiredObj) w Hw) as Hob.
      destruct (Nat.eqb_spec (total (on (V := V) (X := ebr_state) (raw w) decrement_strong_count) E s) 0); [lia|].
      split; [done|]. left. exists (EbrSnap tid e (raw w)). split; [unfold ebr_token; simpl; congruence|].
      split; [done|]. split; [|done]. apply (Inv_add_snap (Laws := ebr_laws)); [done|by split|].
      by eapply (total_member_pins (Laws := ebr_laws) E s l (MAtomicRc w)).
  - intros Ss Ws E tid l w s _ [e Hmr] Hinv Hm _.
    eapply wp_mono; [by apply (ebr_protect_snapshot_ok Ss Ws E tid l (MAtomicWeak w))|].
    simpl. intros a s' [-> Hv]. split; [done|]. split; [done|].
    destruct (Z.eqb_spec (raw w) 0) as [Hw|Hw]; simpl in Hv; rewrite Hv.
    + left. eauto.
    + destruct (Nat.eqb_spec (total (on (V := V) (X := ebr_state) (raw w) decrement_strong_count) E s) 0) as [HS|HS].
      * left. split; [by apply raw_aligned|]. eauto.
      * right. split; [done|]. split; [done|]. left. exists (EbrSnap tid e (raw w)).
        split; [unfold ebr_token; simpl; congruence|]. done.
  - intros Ss Ws E a t s _ _ _ Hinv. unfold basic_clear. by wp_step.
  - intros Ss Ws E a t s _ _ _ Hinv. unfold basic_clear_protection. by wp_step.
  - intros a s _. unfold basic_clear_protection. by wp_step.
  - intros a s _. unfold basic_clear. by wp_step.
  - intros Ss Ws E tid v s Htid Hcc Hinv.
    destruct (ebr_create_object_eq tid v s Hcc) as (x & Hx & Hl & Hg).
    apply (wp_eq _ _ _ _ _ Hx). apply (later_epoch_inv _ _ _ x) in Hinv; [|done..].
    eapply wp_mono; [by apply new_object_created|].
    intros p s' [Ha H]. simpl in *. destruct_and!. split_and!; try done.
    intros tid' [e [He Hle]]. exists e. rewrite Ha. split; [by rewrite Hl|lia].
Defined.
