(* ===== verification/AcquireRetireIBR.v ===== *)
(** * The interval-based backend
    ([acquire_retire_ibr] of src/include/cdrc/internal/smr/acquire_retire_ibr.h)

    Objects carry the epoch of their creation and deferred actions that and the
    epoch of their retirement.  A reader announces an interval of epochs: from
    the epoch its guard announced to the last epoch in which it read a pointer.
    An action is applied when the lifetime of its object meets no announced
    interval. *)

From S2P Require Import Prelude StickyCounter CountedObject MemoryManager Accounting ManagerSafety AtomicLoc Backend EpochTracker DeferredLists AcquireRetireEBR.

Record IbrRetired := MkIbrRetired { iobj : Z; ibirthTS : Z; iretireTS : Z; itype : RetireType }.

#[export] Instance IbrRetired_eq_dec : EqDecision IbrRetired.
Proof. solve_decision. Defined.

Definition INVALID_TS : Z := 0.

(** The epoch tracker, the [endTS_ann] of the announcement slots and the
    manager's [epoch_work]. *)
Record ibr_state := IbrState { ibr_tracker : epoch_tracker; endTS_ann : list Z; ibr_epoch_work : list Z }.

Definition ibr_epoch_frequency : Z := 40.

(** The intervals that [scan_announced_epochs] collects in [announced]; the
    slots and the announced epochs have an element per thread. *)
Definition announced_intervals (x : ibr_state) : list (Z * Z) :=
  omap (λ '(index, startTS),
          match endTS_ann x !! index with
          | Some endTS => if (startTS <=? endTS)%Z then Some (startTS, endTS) else None
          | None => None
          end) (announced_epochs (ibr_tracker x)).

(** The loop over [announced] that computes [reserved]. *)
Definition reserved (announced : list (Z * Z)) (x : IbrRetired) : bool :=
  existsb (λ '(startTS, endTS), negb ((iretireTS x <? startTS) || (endTS <? ibirthTS x))%Z) announced.

#[export] Instance ibr_scheme {V : Type} : Scheme V ibr_state IbrRetired := {
  scan_t := list (Z * Z);
  e_obj := iobj;
  e_type := itype;
  make_entry x h p ty :=
    match h !! p with
    | Some o => Ok (MkIbrRetired p (birthTS o) (global_epoch (ibr_tracker x)) ty)
    | None => Err UseAfterFree
    end;
  scan := announced_intervals;
  check announced e := (reserved announced e, announced);
  eject_delay := 2
}.

Section ibr.
  Context {V : Type} `{Pol : !Policy}.
  Local Abbreviation st := (state V ibr_state IbrRetired).
  Local Abbreviation M := (M st).

(** An operation on the tracker. *)
Definition on_ibr_tracker {A} (m : Prelude.M epoch_tracker A) : M A := λ s,
  let x := announcements s in
  match m (ibr_tracker x) with
  | Ok (a, tr) => Ok (a, set_announcements (IbrState tr (endTS_ann x) (ibr_epoch_work x)) s)
  | Err e => Err e
  end.

Definition set_endTS (tid : nat) (e : Z) : M unit :=
  x ← gets announcements;
  _ ← at_ (endTS_ann x) tid;
  modify (set_announcements (IbrState (ibr_tracker x) (<[tid := e]> (endTS_ann x)) (ibr_epoch_work x))).

(** [epoch_work] is an [unsigned int]. *)
Definition ibr_work_toward_advancing_epoch (tid : nat) (work : Z) : M unit :=
  x ← gets announcements;
  k ← at_ (ibr_epoch_work x) tid;
  let k := wrap 32 (k + work) in
  modify (set_announcements (IbrState (ibr_tracker x) (endTS_ann x) (<[tid := k]> (ibr_epoch_work x))));;
  when (ibr_epoch_frequency * Z.of_nat (length (ibr_epoch_work x)) <=? k)%Z
    (modify (set_announcements (IbrState (ibr_tracker x) (endTS_ann x) (<[tid := 0%Z]> (ibr_epoch_work x))));;
     on_ibr_tracker advance_global_epoch;; mret tt).

Definition get_birth_timestamp (p : Z) : M Z :=
  o ← deref p;
  mret (birthTS o).

(** The birth timestamp is the epoch after the work that may advance it. *)
Definition ibr_create_object `{!Allocator} (tid : nat) (v : payload V) : M Z :=
  increment_allocations tid;;
  ibr_work_toward_advancing_epoch tid 1;;
  ts ← on_ibr_tracker get_current_epoch;
  new_object ts v.

Definition ibr_delete_object (tid : nat) (p : Z) : M unit :=
  o ← deref p;
  assert_ (disposed o);;
  modify (λ s, set_heap (delete p (heap s)) s);;
  decrement_allocations tid.

Definition ibr_reserve (tid : nat) (p : Z) : M basic_acquired_pointer :=
  x ← gets announcements;
  endTS ← at_ (endTS_ann x) tid;
  curTS ← on_ibr_tracker get_current_epoch;
  (if (endTS =? curTS)%Z then mret tt else set_endTS tid curTS);;
  mret (BasicAcquired p).

(** The loop of [protect_snapshot], which ends when the epoch did not change
    since the end of the interval was announced. *)
Fixpoint ibr_protect_loop (rounds : nat) (tid : nat) (p : loc) (p_epoch : Z) : M basic_acquired_pointer :=
  match rounds with
  | O => fail OutOfFuel
  | S rounds' =>
      result ← loc_load p;
      curTS ← on_ibr_tracker get_current_epoch;
      if (p_epoch =? curTS)%Z then
        dead ← (if (raw result =? 0)%Z then mret false
                else n ← with_obj (raw result) get_use_count; mret (n =? 0)%Z);
        mret (BasicAcquired (if dead : bool then 0%Z else result))
      else
        set_endTS tid curTS;;
        ibr_protect_loop rounds' tid p curTS
  end.

Definition ibr_protect_snapshot (rounds : nat) (tid : nat) (p : loc) : M basic_acquired_pointer :=
  x ← gets announcements;
  p_epoch ← at_ (endTS_ann x) tid;
  ibr_protect_loop rounds tid p p_epoch.

Definition ibr_acquire (rounds : nat) (tid : nat) (p : loc) : M basic_acquired_pointer :=
  ibr_protect_snapshot rounds tid p.

(** *** The deferred lists *)

(** The lambda [f] of [work_toward_ejects]. *)
Definition ibr_eject_if (ejectf : Z → RetireType → M unit) (announced : list (Z * Z)) (x : IbrRetired) : M bool :=
  if negb (reserved announced x) then ejectf (iobj x) (itype x);; mret true else mret false.

Definition ibr_work_toward_ejects (ejectf : Z → RetireType → M unit) (fuel : nat) (tid : nat) (work : Z) : M unit :=
  work_toward_ejects 2
    (λ deferred,
       announced ← gets (λ s, announced_intervals (announcements s));
       remove_if (ibr_eject_if ejectf announced) deferred)
    fuel tid work.

Definition ibr_retire (ejectf : Z → RetireType → M unit) (fuel : nat) (tid : nat) (p : Z) (type : RetireType) : M unit :=
  birth ← get_birth_timestamp p;
  e ← on_ibr_tracker get_current_epoch;
  push_deferred tid (MkIbrRetired p birth e type);;
  ibr_work_toward_ejects ejectf fuel tid 1.

(** [~acquire_retire_ibr] *)
Definition ibr_shutdown (ejectf : Z → RetireType → M unit) (fuel : nat) : M unit :=
  modify (λ s, set_in_progress (map (λ _, true) (in_progress s)) s);;
  drain_loop (λ x, (iobj x, itype x)) ejectf fuel.

Definition ibr_init (num_threads : nat) : st :=
  State ∅ ∅ (replicate num_threads 0%Z)
    (IbrState (tracker_init num_threads) (replicate num_threads INVALID_TS) (replicate num_threads 0%Z))
    (replicate num_threads false) (replicate num_threads []) (replicate num_threads 0%Z).

End ibr.

(** ** The shared manager is this one *)

Section ibr_lists.
  Context {V : Type} `{Pol : !Policy}.
  Local Abbreviation st := (state V ibr_state IbrRetired).

(** [retire], with its eject loop, and the destructor compute what the shared
    definitions compute at the scheme, from every state. *)
Lemma ibr_is_manager ejectf fuel tid p ty (s : st) :
  p ≠ 0%Z →
  ibr_retire ejectf fuel tid p ty s = retire ejectf fuel tid p ty s ∧
  ibr_shutdown ejectf fuel s = shutdown ejectf fuel s ∧
  ibr_delete_object tid p s = delete_object tid p s.
Proof.
  intros Hp. split; [|split; [|done]].
  - unfold ibr_retire, get_birth_timestamp, deref, retire, mbind, M_bind, gets. simpl.
    destruct s as [h c n [tr en ew] ip d w]. simpl. rewrite (proj2 (Z.eqb_neq _ _) Hp).
    destruct (h !! p) as [o|]; [|done]. simpl.
    destruct (push_deferred _ _ _) as [[u s1]|]; [|done].
    apply (work_toward_ejects_eq (Sch := ibr_scheme)); [done|]. intros l s.
    apply (remove_if_applied (Sch := ibr_scheme)). intros x. eexists. split; [reflexivity|].
    unfold ibr_eject_if. by destruct (reserved _ x).
  - unfold ibr_shutdown, shutdown, mbind, M_bind, gets. simpl. rewrite map_const.
    by apply (drain_loop_eq (Sch := ibr_scheme)).
Qed.

(** Some thread in a critical section announces an interval that meets the
    lifetime of the object. *)
Definition inside_during (x : ibr_state) (e : IbrRetired) : Prop :=
  ∃ i startTS endTS, critical_section (ibr_tracker x) !! i = Some true ∧
    local_epoch (ibr_tracker x) !! i = Some startTS ∧ endTS_ann x !! i = Some endTS ∧
    (startTS ≤ endTS ∧ ibirthTS e ≤ endTS ∧ startTS ≤ iretireTS e)%Z.


Lemma inside_during_zip x e :
  Exists (λ y, y.1 = true ∧ y.2.1 ≤ y.2.2 ∧ ibirthTS e ≤ y.2.2 ∧ y.2.1 ≤ iretireTS e)%Z
    (zip (critical_section (ibr_tracker x)) (zip (local_epoch (ibr_tracker x)) (endTS_ann x))) ↔
  inside_during x e.
Proof.
  rewrite Exists_exists. setoid_rewrite list_elem_of_lookup. split.
  - intros ([c [a b]] & (i & Hi) & Hc & Hr). simpl in *. subst c.
    apply lookup_zip_with_Some in Hi as (? & ? & [= <- <-] & ? & Hi).
    apply lookup_zip_with_Some in Hi as (? & ? & [= <- <-] & ? & ?). by exists i, a, b.
  - intros (i & a & b & Hc & Ha & Hb & Hr). exists (true, (a, b)). split; [|done]. exists i.
    apply lookup_zip_with_Some. eexists _, _. split; [done|]. split; [done|].
    apply lookup_zip_with_Some. eauto.
Qed.

#[export] Instance inside_during_dec x e : Decision (inside_during x e).
Proof.
  refine (cast_if (decide (Exists (λ y, y.1 = true ∧ y.2.1 ≤ y.2.2 ∧ ibirthTS e ≤ y.2.2 ∧ y.2.1 ≤ iretireTS e)%Z
    (zip (critical_section (ibr_tracker x)) (zip (local_epoch (ibr_tracker x)) (endTS_ann x))))));
    by rewrite <-inside_during_zip.
Defined.


End ibr_lists.

(** ** The scheme keeps its promises *)

(** A snapshot: the thread, the interval it announces at least, the address. *)
Record ibr_snap := IbrSnap { is_tid : nat; is_start : Z; is_end : Z; is_ptr : Z }.

(** The thread announces an interval that began in epoch [startTS] and reaches
    at least to epoch [endTS]. *)
Definition in_interval (x : ibr_state) (tid : nat) (startTS endTS : Z) : Prop :=
  local_epoch (ibr_tracker x) !! tid = Some startTS ∧ startTS ≠ no_epoch ∧
  (startTS ≤ global_epoch (ibr_tracker x))%Z ∧
  ∃ e, endTS_ann x !! tid = Some e ∧ (endTS ≤ e)%Z ∧ (startTS ≤ e)%Z.

Lemma in_interval_announced x tid startTS endTS :
  in_interval x tid startTS endTS → ∃ e, (startTS, e) ∈ announced_intervals x ∧ (endTS ≤ e)%Z.
Proof.
  intros (Hl & Hne & _ & e & He & Hle & Hse). exists e. split; [|done].
  unfold announced_intervals. apply list_elem_of_omap. exists (tid, startTS).
  rewrite He, (proj2 (Z.leb_le _ _) Hse). split; [|done].
  unfold announced_epochs. apply list_elem_of_filter. split; [done|].
  apply elem_of_lookup_imap. eauto.
Qed.

#[export] Instance ibr_laws {V : Type} : SchemeLaws V ibr_state IbrRetired.
Proof.
  refine {| snap := ibr_snap; snap_ptr := is_ptr;
            snap_ok x t := in_interval x (is_tid t) (is_start t) (is_end t);
            snap_born t b := (b ≤ is_end t)%Z;
            born_in x b := (b ≤ global_epoch (ibr_tracker x))%Z;
            pinned _ t e := ((is_start t <=? iretireTS e) && (ibirthTS e <=? is_end t))%Z |}.
  - intros x h p o ty Ho. simpl. rewrite Ho. eexists. split; [done|]. split; [done|]. split; [done|].
    intros t (_ & _ & Hle & _) _ Hb. simpl. by rewrite !(proj2 (Z.leb_le _ _)).
  - intros x h h' p ty Hh. simpl. destruct (h !! p), (h' !! p); simplify_eq/=; congruence.
  - intros x t ty l e (e' & Hann & Hle)%in_interval_announced He Ho Hty Hp. exists e. split; [|done].
    apply andb_true_iff in Hp as [H1%Z.leb_le H2%Z.leb_le].
    assert (reserved (announced_intervals x) e = true) as Hres.
    { apply existsb_exists. exists (is_start t, e'). split; [by apply list_elem_of_In|].
      apply negb_true_iff, orb_false_iff. split; apply Z.ltb_ge; lia. }
    induction l as [|y l IH]; simpl; [by apply elem_of_nil in He|].
    apply elem_of_cons in He as [<-|He]; [rewrite Hres; by left|].
    destruct (reserved _ y); [right|]; by apply IH.
Defined.

#[export] Instance ibr_backend {V : Type} `{Pol : !Policy} `{Alloc : !Allocator} :
    Backend V ibr_state IbrRetired := {
  acquired := basic_acquired_pointer;
  acq_value := bvalue;
  acq_set := basic_set;
  acq_null := basic_null;
  acq_is_protected := basic_is_protected;
  acq_clear := basic_clear;
  acq_destruct := basic_clear_protection;
  mm_acquire := ibr_acquire 2;
  mm_reserve := ibr_reserve;
  mm_reserve_nothing := basic_null;
  mm_protect_snapshot := ibr_protect_snapshot 2;
  mm_create_object := ibr_create_object
}.

Section ibr_ok.
  Context {V : Type} `{Pol : !Policy} `{Alloc : !Allocator}.
  Local Abbreviation st := (state V ibr_state IbrRetired).
  Implicit Types (s : st) (E : list (obl IbrRetired)) (Ss Ws : list ibr_snap).

(** The thread is in a critical section, and has announced no epoch that is
    still to come. *)
Definition ibr_may_read (x : ibr_state) (tid : nat) : Prop :=
  ∃ startTS endTS, local_epoch (ibr_tracker x) !! tid = Some startTS ∧ startTS ≠ no_epoch ∧
    (startTS ≤ global_epoch (ibr_tracker x))%Z ∧
    endTS_ann x !! tid = Some endTS ∧ (endTS ≤ global_epoch (ibr_tracker x))%Z.

(** The epoch can still be advanced. *)
Definition ibr_can_create (x : ibr_state) (tid : nat) : Prop :=
  tid < length (ibr_epoch_work x) ∧ (0 ≤ global_epoch (ibr_tracker x))%Z ∧
  (global_epoch (ibr_tracker x) + 1 < 2 ^ epoch_width)%Z.

(** Whoever may read or create before may after. *)
Definition ibr_keeps (x x' : ibr_state) : Prop :=
  (∀ tid, ibr_may_read x tid → ibr_may_read x' tid) ∧ ∀ tid, ibr_can_create x tid → ibr_can_create x' tid.

Definition ibr_token (a : basic_acquired_pointer) (t : ibr_snap) : Prop := raw (bvalue a) = is_ptr t.

(** Announcing the current epoch as the end keeps every snapshot. *)
Lemma set_endTS_inv Ss Ws E tid s :
  ibr_may_read (announcements s) tid → Inv Ss Ws E s →
  let x := announcements s in
  let x' := IbrState (ibr_tracker x) (<[tid := global_epoch (ibr_tracker x)]> (endTS_ann x)) (ibr_epoch_work x) in
  Inv Ss Ws E (set_announcements x' s) ∧ ibr_keeps x x'.
Proof.
  intros (b & e & Hb & Hnb & Hbg & He & Heg) Hinv x x'. subst x x'.
  set (x := announcements s) in *. split.
  - revert Hinv. apply (Inv_set_announcements (Laws := ibr_laws)); [|done]. intros t _ (Hl & Hne & Hle & e' & He' & Hee & Hse).
    split; [|done]. split; [done|]. split; [done|]. split; [done|]. simpl.
    destruct (decide (is_tid t = tid)) as [<-|Htid].
    + exists (global_epoch (ibr_tracker x)). rewrite list_lookup_insert_eq by (by eapply lookup_lt_Some).
      split; [done|]. assert (e' = e) as -> by (unfold x in *; congruence). unfold x in *. lia.
    + exists e'. by rewrite list_lookup_insert_ne.
  - split; [|done]. intros tid' (b' & e' & Hb' & Hnb' & Hbg' & He' & Heg'). simpl.
    destruct (decide (tid' = tid)) as [->|Htid].
    + exists b', (global_epoch (ibr_tracker x)). simpl. rewrite list_lookup_insert_eq by (by eapply lookup_lt_Some). done.
    + exists b', e'. simpl. by rewrite list_lookup_insert_ne.
Qed.

(** The last round of the loop: the end of the interval is the current epoch. *)
Lemma ibr_protect_done rounds Ss Ws E tid l m s :
  Inv Ss Ws E s → member_at s l m → is_atomic m = true →
  let w := member_word m in
  wp (ibr_protect_loop (S rounds) tid l (global_epoch (ibr_tracker (announcements s))))
     (λ a s', s' = s ∧
        bvalue a = if negb (raw w =? 0)%Z &&
                      (total (on (V := V) (X := ibr_state) (raw w) decrement_strong_count) E s =? 0)%nat
                   then 0%Z else w) s.
Proof.
  intros Hinv Hm Hat w. simpl. wp_step. eapply loc_load_ok; [done..|]. fold w.
  wp_step. unfold wp at 1, on_ibr_tracker. simpl. rewrite Z.eqb_refl.
  assert (set_announcements (IbrState (ibr_tracker (announcements s)) (endTS_ann (announcements s))
            (ibr_epoch_work (announcements s))) s = s) as ->
    by (by destruct s as [? ? ? [] ? ? ?]).
  destruct (Z.eqb_spec (raw w) 0) as [Hw|Hw]; simpl; [by wp_steps|].
  destruct (member_object _ _ _ _ _ _ Hinv Hm Hat Hw) as [o Ho]. fold w in Ho.
  pose proof (Inv_counts _ _ _ _ _ _ Hinv Ho) as [Hs _ _ _ _]. wp_step. wp_step.
  eapply wp_use_count; [done|done|exact Hs|]. wp_steps. split; [done|].
  destruct (total _ E s); done.
Qed.

(** [protect_snapshot] returns the word unless the strong count is zero, and
    leaves the interval of the thread open to the current epoch. *)
Lemma ibr_protect_snapshot_ok Ss Ws E tid l m s :
  ibr_may_read (announcements s) tid → Inv Ss Ws E s → member_at s l m → is_atomic m = true →
  let w := member_word m in
  wp (ibr_protect_snapshot 2 tid l)
     (λ a s', same_values s s' ∧ ibr_keeps (announcements s) (announcements s') ∧
        potential E s' = potential E s ∧ Inv Ss Ws E s' ∧
        (bvalue a = if negb (raw w =? 0)%Z &&
                      (total (on (V := V) (X := ibr_state) (raw w) decrement_strong_count) E s =? 0)%nat
                    then 0%Z else w) ∧
        ∃ b, in_interval (announcements s') tid b (global_epoch (ibr_tracker (announcements s')))) s.
Proof.
  intros Hmr Hinv Hm Hat w. pose proof Hmr as (b & e & Hb & Hnb & Hbg & He & Heg).
  unfold ibr_protect_snapshot. wp_step. wp_step. wp_step. wp_step; [done|].
  destruct (Z.eqb_spec e (global_epoch (ibr_tracker (announcements s)))) as [->|Hne].
  - eapply wp_mono; [by apply (ibr_protect_done 1 Ss Ws E tid l m)|]. fold w. intros a s' [-> Hv].
    do 4 (split; [done|]). split; [done|]. exists b. split; [done|]. split; [done|]. split; [done|]. eauto.
  - destruct (set_endTS_inv Ss Ws E tid s Hmr Hinv) as [Hinv' Hmr'].
    cbn [ibr_protect_loop]. wp_step. eapply loc_load_ok; [done..|]. wp_step. unfold wp at 1, on_ibr_tracker.
    simpl. rewrite (proj2 (Z.eqb_neq _ _) Hne).
    assert (set_announcements (IbrState (ibr_tracker (announcements s)) (endTS_ann (announcements s))
              (ibr_epoch_work (announcements s))) s = s) as ->
      by (by destruct s as [? ? ? [] ? ? ?]).
    wp_step. unfold set_endTS. wp_step. wp_step. wp_step. wp_step; [done|]. wp_step.
    set (s1 := set_announcements _ s) in *.
    eapply wp_mono; [apply (ibr_protect_done 0 Ss Ws E tid l m s1); [done|by eapply same_values_member; [apply same_values_set_ann|]|done]|].
    fold w. intros a s' [-> Hv]. split; [apply same_values_set_ann|]. split; [done|]. split; [done|].
    split; [done|]. split; [done|]. exists b. split; [done|]. split; [done|]. split; [done|].
    exists (global_epoch (ibr_tracker (announcements s))). simpl.
    rewrite list_lookup_insert_eq by (by eapply lookup_lt_Some). done.
Qed.

(** [reserve] announces the current epoch. *)
Lemma ibr_reserve_ok Ss Ws E tid p s :
  ibr_may_read (announcements s) tid → Inv Ss Ws E s →
  wp (ibr_reserve tid p)
     (λ _ s', Inv Ss Ws E s' ∧ same_values s s' ∧ potential E s' = potential E s ∧
              ibr_keeps (announcements s) (announcements s')) s.
Proof.
  intros Hmr Hinv. pose proof Hmr as (b & e & Hb & Hnb & Hbg & He & Heg).
  unfold ibr_reserve. wp_step. wp_step. wp_step. wp_step; [done|]. wp_step. unfold wp at 1, on_ibr_tracker. simpl.
  assert (set_announcements (IbrState (ibr_tracker (announcements s)) (endTS_ann (announcements s))
            (ibr_epoch_work (announcements s))) s = s) as ->
    by (by destruct s as [? ? ? [] ? ? ?]).
  wp_step. destruct (e =? _)%Z; [by wp_steps|].
  destruct (set_endTS_inv Ss Ws E tid s Hmr Hinv) as [Hinv' Hmr'].
  unfold set_endTS. wp_step. wp_step. wp_step. wp_step; [done|]. wp_step. wp_step.
  split; [done|]. split; [apply same_values_set_ann|]. done.
Qed.

(** A later global epoch keeps every announcement in force. *)
Lemma ibr_later_epoch_inv Ss Ws E x s :
  local_epoch (ibr_tracker x) = local_epoch (ibr_tracker (announcements s)) →
  endTS_ann x = endTS_ann (announcements s) →
  (global_epoch (ibr_tracker (announcements s)) ≤ global_epoch (ibr_tracker x))%Z →
  Inv Ss Ws E s → Inv Ss Ws E (set_announcements x s).
Proof.
  intros Hl He Hg. apply (Inv_set_announcements (Laws := ibr_laws)).
  - intros t _ (Ht & Hne & Hle & Hend). split; [|done]. split; [by rewrite Hl|]. rewrite He.
    split; [done|]. split; [lia|done].
  - intros b0. simpl. lia.
Qed.

(** Creating an object may advance the epoch, and otherwise is an allocation
    with the resulting epoch as its birth timestamp. *)
Lemma ibr_create_object_eq tid v s :
  ibr_can_create (announcements s) tid →
  ∃ x, ibr_create_object tid v s =
         (increment_allocations tid;; new_object (global_epoch (ibr_tracker x)) v) (set_announcements x s) ∧
       local_epoch (ibr_tracker x) = local_epoch (ibr_tracker (announcements s)) ∧
       endTS_ann x = endTS_ann (announcements s) ∧
       (global_epoch (ibr_tracker (announcements s)) ≤ global_epoch (ibr_tracker x))%Z.
Proof.
  intros (Htid & H0 & Hlt). apply lookup_lt_is_Some_2 in Htid as [k Hk].
  unfold ibr_create_object, increment_allocations, ibr_work_toward_advancing_epoch, mbind, M_bind, gets, at_.
  destruct (num_allocated s !! tid) as [c|] eqn:Hc; last first.
  { exists (announcements s). simpl. by rewrite Hc. }
  simpl. rewrite Hk. simpl.
  destruct s as [h cl n [[g le cs] en ew] ip d w]. simpl in *. destruct (_ <=? _)%Z; simpl.
  - exists (IbrState (EpochTracker (wrap epoch_width (g + 1)) le cs) en (<[tid := 0%Z]> ew)).
    simpl. rewrite Hc. split; [reflexivity|].
    split; [done|]. split; [done|]. unfold wrap. rewrite Z.mod_small by lia. lia.
  - exists (IbrState (EpochTracker g le cs) en (<[tid := wrap 32 (k + 1)]> ew)).
    simpl. rewrite Hc. by split.
Qed.

End ibr_ok.

#[export] Instance ibr_backend_laws {V : Type} `{Pol : !Policy} `{Alloc : !Allocator} :
  BackendLaws V ibr_state IbrRetired.
Proof.
  refine {| acq_token := ibr_token; apart _ _ := True; transient _ _ := True;
            may_read := ibr_may_read; can_create := ibr_can_create |}; simpl.
  - done.
  - done.
  - done.
  - unfold ibr_token. simpl. congruence.
  - done.
  - done.
  - done.
  - intros Ss Ws E tid l m s _ Hmr Hinv Hm Hat. unfold ibr_acquire.
    eapply wp_mono; [by apply (ibr_protect_snapshot_ok Ss Ws E tid l m)|]. simpl.
    intros a s' (Hsv & Hk & Hpot & Hinv' & Hv & _). split; [|done]. rewrite Hv.
    destruct (Z.eqb_spec (raw (member_word m)) 0) as [Hw|Hw]; simpl; [by left|].
    destruct (Nat.eqb_spec (total (on (V := V) (X := ibr_state) (raw (member_word m)) decrement_strong_count) E s) 0) as [HS|]; [|by left].
    destruct m as [|w'|w'|w']; try done; simpl in *; [|eauto].
    pose proof (total_atomic_rc E s l w' Hm Hw). lia.
  - intros Ss Ws E tid p s _ Hmr Hinv. eapply wp_mono; [by apply ibr_reserve_ok|]. intros a s' Hs'. by split.
  - intros Ss Ws E tid a s _ Hmr _ Hinv. unfold basic_clear_protection. by wp_step.
  - intros Ss Ws E tid l w s _ Hmr Hinv Hm _.
    eapply wp_mono; [by apply (ibr_protect_snapshot_ok Ss Ws E tid l (MAtomicRc w))|].
    simpl. intros a s' (Hsv & Hk & Hpot & Hinv' & Hv & b & Hint). split; [done|]. split; [done|].
    destruct (Z.eqb_spec (raw w) 0) as [Hw|Hw]; simpl in Hv; rewrite Hv.
    + split; [by left|done].
    + pose proof (total_atomic_rc E s l w Hm Hw) as HS. pose proof (atomic_rc_obls (En := IbrRetired) w Hw) as Hob.
      destruct (Nat.eqb_spec (total (on (V := V) (X := ibr_state) (raw w) decrement_strong_count) E s) 0); [lia|].
      split; [done|]. left. exists (IbrSnap tid b (global_epoch (ibr_tracker (announcements s'))) (raw w)).
      split; [unfold ibr_token; simpl; congruence|]. split; [done|]. split; [|done].
      apply (Inv_add_snap (Laws := ibr_laws)); [done| |].
      * split; [done|]. simpl. intros o Ho. destruct Hinv' as [_ _ [Hbr _ _]]. by apply Hbr in Ho.
      * eapply (total_member_pins (Laws := ibr_laws) E s' l (MAtomicRc w)); [by eapply same_values_member|done].
  - intros Ss Ws E tid l w s _ Hmr Hinv Hm _.
    eapply wp_mono; [by apply (ibr_protect_snapshot_ok Ss Ws E tid l (MAtomicWeak w))|].
    simpl. intros a s' (Hsv & Hk & Hpot & Hinv' & Hv & b & Hint). split; [done|]. split; [done|].
    destruct (Z.eqb_spec (raw w) 0) as [Hw|Hw]; simpl in Hv; rewrite Hv.
    + left. eauto.
    + destruct (Nat.eqb_spec (total (on (V := V) (X := ibr_state) (raw w) decrement_strong_count) E s) 0) as [HS|HS].
      * left. split; [by apply raw_aligned|]. eauto.
      * right. split; [done|]. split; [done|]. left.
        exists (IbrSnap tid b (global_epoch (ibr_tracker (announcements s'))) (raw w)).
        split; [unfold ibr_token; simpl; congruence|]. split; [|done].
        split; [done|]. simpl. intros o Ho. destruct Hinv' as [_ _ [Hbr _ _]]. by apply Hbr in Ho.
  - intros Ss Ws E a t s _ _ _ Hinv. unfold basic_clear. by wp_step.
  - intros Ss Ws E a t s _ _ _ Hinv. unfold basic_clear_protection. by wp_step.
  - intros a s _. unfold basic_clear_protection. by wp_step.
  - intros a s _. unfold basic_clear. by wp_step.
  - intros Ss Ws E tid v s Htid Hcc Hinv.
    destruct (ibr_create_object_eq tid v s Hcc) as (x & Hx & Hl & He & Hg).
    apply (wp_eq _ _ _ _ _ Hx). apply (ibr_later_epoch_inv _ _ _ x) in Hinv; [|done..].
    eapply wp_mono; [apply (new_object_created (Laws := ibr_laws)); [done|apply Z.le_refl|done]|].
    intros p s' [Ha H]. simpl in *. destruct_and!. split_and!; try done.
    intros tid' (b & e & Hb & Hnb & Hbg & He' & Heg). exists b, e. rewrite Ha, Hl, He.
    split; [done|]. split; [done|]. split; [lia|]. split; [done|lia].
Defined.
