(* ===== verification/InvCheck.v ===== *)
(** * Deciding the invariant on concrete states

    [inv_check] evaluates the invariant of [Accounting] on a state: the objects
    in memory are checked one by one, and every obligation must be on one of
    them.  It is sound, so the theorems can be applied to concrete states by
    computation. *)

From S2P Require Import Prelude StickyCounter CountedObject MemoryManager Accounting ManagerSafety.

Section inv_check.
  Context {V X En : Type} `{Pol : !Policy} `{Sch : !Scheme V X En} `{Laws : !SchemeLaws V X En}.
  Local Abbreviation st := (state V X En).
  Implicit Types (s : st) (E : list (obl En)).

(** All the obligations of a state. *)
Definition all_obls E s : list (obl En) :=
  E ++ (OEntry <$> concat (deferred_destructs s)) ++
  concat ((λ '(_, o), obj_obls o) <$> map_to_list (heap s)) ++
  concat ((λ '(_, m), member_obls m) <$> map_to_list (cells s)).

Lemma countb_concat {K A} `{Countable K} (g : obl En → bool) (f : A → list (obl En)) (m : gmap K A) :
  countb g (concat ((λ '(_, a), f a) <$> map_to_list m)) = msum (λ a, countb g (f a)) m.
Proof.
  unfold msum. induction (map_to_list m) as [|[k a] l IH]; csimpl; [done|].
  rewrite countb_app, IH. done.
Qed.

Lemma total_all g E s : total g E s = countb g (all_obls E s).
Proof. unfold total, all_obls. rewrite !countb_app, !countb_concat. lia. Qed.

(** The address an obligation is on. *)
Definition address (a : obl En) : Z :=
  match a with
  | OStrong p | OWeak p | ODispose p | ODestroying p | OPend p _ => p
  | OEntry e => e_obj e
  end.

Definition rep_check (x : Z) (n : nat) : bool :=
  match n with
  | O => (2 * 2 ^ 30 <=? x)%Z && (x <? 3 * 2 ^ 30)%Z
  | S _ => (Z.of_nat n <? 2 ^ 30)%Z && (x =? Z.of_nat n)%Z
  end.

Lemma rep_check_ok x n : rep_check x n = true → sticky_rep cnt_width x (Z.of_nat n).
Proof.
  unfold rep_check, sticky_rep. change (2 ^ (cnt_width - 2))%Z with (2 ^ 30)%Z.
  destruct n as [|n].
  - intros [?%Z.leb_le ?%Z.ltb_lt]%andb_true_iff. left. lia.
  - intros [?%Z.ltb_lt ?%Z.eqb_eq]%andb_true_iff. right. lia.
Qed.

Definition counts_check (o : counted_object V) (S W D K : nat) : bool :=
  rep_check (ref_cnt o) S && rep_check (weak_cnt o) (W + alive o + K) &&
  (0 <? W + alive o + K)%nat &&
  match storage o with
  | Some _ => (K =? 0)%nat && (D =? (if (S =? 0)%nat then 1 else 0))%nat
  | None => (S =? 0)%nat && (D =? 0)%nat && (K <=? 1)%nat && ((K =? 1)%nat || disposed o)
  end.

Lemma counts_check_ok o S W D K : counts_check o S W D K = true → obj_counts o S W D K.
Proof.
  unfold counts_check. intros [[[H1 H2]%andb_true_iff H3%Nat.ltb_lt]%andb_true_iff H4]%andb_true_iff.
  split; [by apply rep_check_ok|by apply rep_check_ok|done|..]; unfold alive in *; destruct (storage o); try done.
  - by apply andb_true_iff in H4 as [?%Nat.eqb_eq ?%Nat.eqb_eq].
  - apply andb_true_iff in H4 as [[[?%Nat.eqb_eq ?%Nat.eqb_eq]%andb_true_iff HK%Nat.leb_le]%andb_true_iff Hd].
    intros _. split_and!; [done..|]. intros ->. by destruct (disposed o).
Qed.

Definition inv_check (Ss Ws : list snap) E s : bool :=
  let all := all_obls E s in
  let x := announcements s in
  bool_decide (heap s !! 0%Z = None) &&
  (sumZ id (num_allocated s) =? Z.of_nat (size (heap s)))%Z &&
  (length (in_progress s) =? length (num_allocated s))%nat &&
  (length (deferred_destructs s) =? length (num_allocated s))%nat &&
  (length (amortized_work s) =? length (num_allocated s))%nat &&
  forallb (λ '(p, o), counts_check o (countb (on p decrement_strong_count) all)
             (countb (on p decrement_weak_count) all) (countb (on p retire_dispose) all)
             (countb (destroying p) all)) (map_to_list (heap s)) &&
  forallb (λ a, bool_decide (is_Some (heap s !! address a))) all &&
  forallb (λ t, 0 <? countb (pins x t decrement_strong_count) all)%nat Ss &&
  forallb (λ t, (0 <? countb (pins x t decrement_weak_count) all)%nat &&
                ((0 <? countb (on (snap_ptr t) decrement_strong_count) all)%nat ||
                 (0 <? countb (pins x t retire_dispose) all)%nat)) Ws.

Lemma countb_zero (g : obl En → bool) l : (∀ a, a ∈ l → g a = false) → countb g l = 0.
Proof.
  intros H. destruct (Nat.eq_0_gt_0_cases (countb g l)) as [|Hp]; [done|].
  apply countb_pos in Hp as (a & Ha & Hg). rewrite H in Hg; done.
Qed.

Lemma inv_check_ok Ss Ws E s :
  (∀ t, t ∈ Ss ∨ t ∈ Ws → snap_valid s t) →
  (∀ p o, heap s !! p = Some o → born_in (announcements s) (birthTS o)) →
  inv_check Ss Ws E s = true → Inv Ss Ws E s.
Proof.
  intros Hok Hborn. unfold inv_check. rewrite !andb_true_iff.
  intros [[[[[[[[H1 H2] H3] H4] H5] H6] H7] H8] H9].
  apply bool_decide_eq_true in H1. apply Z.eqb_eq in H2.
  apply Nat.eqb_eq in H3, H4, H5. rewrite forallb_forall in H6, H7, H8, H9.
  split; [by split| |split; [done|..]].
  - intros p. unfold obj_ok. destruct (heap s !! p) as [o|] eqn:Ho.
    + apply counts_check_ok. rewrite !total_all.
      apply (H6 (p, o)), list_elem_of_In. by apply elem_of_map_to_list.
    + assert (∀ a, a ∈ all_obls E s → address a ≠ p) as Ha.
      { intros a Ha <-. apply list_elem_of_In, H7, bool_decide_eq_true in Ha as [? ?]. congruence. }
      assert (∀ ty, total (on p ty) E s = 0) as Hon.
      { intros ty. rewrite total_all. apply countb_zero. intros a Hin%Ha.
        apply bool_decide_eq_false_2. intros Ht. destruct a; simplify_eq/=. }
      rewrite !Hon. split_and!; try done. rewrite total_all. apply countb_zero. intros a Hin%Ha.
      destruct a; simpl in *; try done. by apply bool_decide_eq_false_2.
  - intros t Ht. split; [auto|]. rewrite total_all. by apply Nat.ltb_lt, H8, list_elem_of_In.
  - intros t Ht. split; [auto|]. rewrite !total_all.
    apply list_elem_of_In, H9, andb_true_iff in Ht as [?%Nat.ltb_lt Hor].
    split; [done|]. apply orb_true_iff in Hor as [?%Nat.ltb_lt|?%Nat.ltb_lt]; auto.
Qed.

End inv_check.
