(* ===== verification/Reclamation.v ===== *)
(** * Reclamation: nothing in use is freed, everything else is

    The main theorems about the memory manager, for any reclamation scheme that
    keeps the promises of [SchemeLaws]: ejecting and retiring are safe and
    terminate, an object that a reference or a snapshot protects keeps its
    value, and when the manager is destroyed every object whose references are
    gone is freed.  They are applied to the hazard-pointer backend, whose scan
    is characterised exactly. *)

From S2P Require Import Prelude StickyCounter CountedObject MemoryManager Accounting ManagerSafety AtomicLoc Backend MarkedPtr AcquireRetire InvCheck.

Section reclamation.
  Context {V X En : Type} `{Pol : !Policy} `{Sch : !Scheme V X En} `{Laws : !SchemeLaws V X En}.
  Local Abbreviation st := (state V X En).
  Implicit Types (s : st) (E : list (obl En)) (p : Z) (tid : nat) (Ss Ws : list snap).

(** ** What keeps an object alive *)

(** The value at [p] can be used. *)
Definition live s p : Prop := ∃ o v, heap s !! p = Some o ∧ storage o = Some v.

Lemma Inv_live Ss Ws E s p ty :
  Inv Ss Ws E s → ty ≠ decrement_weak_count → 0 < total (on p ty) E s → live s p.
Proof.
  intros Hinv Hty Ht. destruct (Inv_on_heap _ _ _ _ _ _ Hinv Ht) as [o Ho].
  destruct (Inv_counts _ _ _ _ _ _ Hinv Ho) as [_ _ _ _ Hdead]. exists o.
  unfold alive in Hdead. destruct (storage o) as [v|]; [eauto|].
  destruct (Hdead eq_refl) as (? & ? & _). destruct ty; [lia|done|lia].
Qed.

Lemma pins_positive x t ty E s :
  0 < total (pins x t ty) E s → 0 < total (on (snap_ptr t) ty) E s.
Proof.
  intros H. eapply Nat.lt_le_trans; [exact H|]. apply total_le. apply pins_on.
Qed.

Lemma snapshot_live Ss Ws E s t : Inv Ss Ws E s → t ∈ Ss ∨ t ∈ Ws → live s (snap_ptr t).
Proof.
  intros Hinv Ht. pose proof Hinv as [_ _ [_ Hs Hw]]. destruct Ht as [Ht|Ht].
  - destruct (Hs t Ht) as [_ Hp].
    apply (Inv_live Ss Ws E s _ decrement_strong_count); [done|done|by eapply pins_positive].
  - destruct (Hw t Ht) as (_ & _ & [Hp|Hp]); [by apply (Inv_live Ss Ws E s _ decrement_strong_count)|].
    apply (Inv_live Ss Ws E s _ retire_dispose); [done|done|by eapply pins_positive].
Qed.

(** A value that is alive before and after is the same. *)
Lemma stable_live s s' p o o' :
  stable s s' → heap s !! p = Some o → heap s' !! p = Some o' → storage o' ≠ None →
  storage o' = storage o.
Proof.
  intros Hst Ho Ho' Hne. destruct (stable_heap _ _ Hst p o' Ho') as (o1 & Ho1 & _ & Hor).
  destruct Hor; [done|congruence].
Qed.

(** What every operation of the manager guarantees to its environment, where [E]
    are the obligations left: the accounts balance, and whatever a snapshot or
    a strong reference protects still has the value it had. *)
Record kept_safe Ss Ws E s s' : Prop := {
  ks_inv : Inv Ss Ws E s';
  ks_stable : stable s s';
  ks_snap t : t ∈ Ss ∨ t ∈ Ws →
    ∃ o o' v, heap s !! snap_ptr t = Some o ∧ heap s' !! snap_ptr t = Some o' ∧
              storage o = Some v ∧ storage o' = Some v;
  ks_strong p : OStrong p ∈ E →
    ∃ o o' v, heap s !! p = Some o ∧ heap s' !! p = Some o' ∧
              storage o = Some v ∧ storage o' = Some v
}.

Lemma live_both s s' p :
  stable s s' → live s p → live s' p →
  ∃ o o' v, heap s !! p = Some o ∧ heap s' !! p = Some o' ∧ storage o = Some v ∧ storage o' = Some v.
Proof.
  intros Hst (o & v & Ho & Hv) (o' & v' & Ho' & Hv'). exists o, o', v. split_and!; try done.
  rewrite <-Hv. eapply stable_live; [done..|congruence].
Qed.

Lemma Inv_strong_live Ss Ws E s p : Inv Ss Ws E s → OStrong p ∈ E → live s p.
Proof.
  intros H1 Hin. apply (Inv_live Ss Ws E s p decrement_strong_count); [done|done|].
  unfold total. assert (0 < countb (on (V := V) (X := X) p decrement_strong_count) E); [|lia].
  apply countb_pos. exists (OStrong p). split; [done|]. by apply bool_decide_eq_true_2.
Qed.

Lemma kept_safe_intro Ss Ws E0 E s s' :
  Inv Ss Ws E0 s → Inv Ss Ws E s' → stable s s' → (∀ p, OStrong p ∈ E → live s p) →
  kept_safe Ss Ws E s s'.
Proof.
  intros Hinv Hinv' Hst HE. split; [done|done|..].
  - intros t Ht. eapply live_both; [done|by eapply snapshot_live..].
  - intros p Hp. eapply live_both; [done|by apply HE|by eapply Inv_strong_live].
Qed.

Lemma kept_safe_refl Ss Ws E s : Inv Ss Ws E s → kept_safe Ss Ws E s s.
Proof.
  intros Hinv. eapply kept_safe_intro; [done..|]. intros p Hp. by eapply Inv_strong_live.
Qed.

Lemma kept_safe_trans Ss Ws E0 E1 E2 s s1 s2 :
  Inv Ss Ws E0 s → kept_safe Ss Ws E1 s s1 → kept_safe Ss Ws E2 s1 s2 →
  (∀ p, OStrong p ∈ E2 → live s p) → kept_safe Ss Ws E2 s s2.
Proof.
  intros Hinv [_ Hst1 _ _] [Hinv2 Hst2 _ _] HE. eapply kept_safe_intro; [done|done|by etrans|done].
Qed.

Lemma after_kept_safe Ss Ws E0 E k s u s' :
  Inv Ss Ws E0 s → (∀ p, OStrong p ∈ E → OStrong p ∈ E0) →
  after Ss Ws E0 E k s u s' → kept_safe Ss Ws E s s'.
Proof.
  intros Hinv HE [Hinv' _ Hst _]. eapply kept_safe_intro; [done..|].
  intros p Hp. eapply Inv_strong_live; eauto.
Qed.

(** ** Frames for operations that announce

    Like [stable] and [kept_safe], for operations that also change the
    announcements. *)
Record evolves s s' : Prop := {
  ev_in_progress : in_progress s' = in_progress s;
  ev_cells : cells s' = cells s;
  ev_threads : length (num_allocated s') = length (num_allocated s);
  ev_heap p o' : heap s' !! p = Some o' →
    ∃ o, heap s !! p = Some o ∧ birthTS o' = birthTS o ∧
         (storage o' = None ∨ storage o' = storage o)
}.

#[export] Instance evolves_preorder : PreOrder evolves.
Proof.
  split.
  - intros s. constructor; eauto.
  - intros s1 s2 s3 [A1 B1 C1 H1] [A2 B2 C2 H2]. constructor; try congruence.
    intros p o3 (o2 & Ho2 & Hb2 & Hs2)%H2.
    destruct (H1 p o2 Ho2) as (o1 & Ho1 & Hb1 & Hs1).
    exists o1. split; [done|]. split; [congruence|]. destruct Hs2, Hs1; intuition congruence.
Qed.

Lemma stable_evolves s s' : stable s s' → evolves s s'.
Proof. by intros []. Qed.

Lemma same_values_evolves s s' : same_values s s' → evolves s s'.
Proof.
  intros [Hc Hh Ht Hp _]. split; [done..|]. intros p o' Ho'. specialize (Hh p). rewrite Ho' in Hh.
  destruct (heap s !! p) as [o|]; simplify_eq/=. eauto.
Qed.

(** [p] has the same value in both states. *)
Definition same_value s s' p : Prop :=
  ∃ o o' v, heap s !! p = Some o ∧ heap s' !! p = Some o' ∧ storage o = Some v ∧ storage o' = Some v.

Record preserves Ss Ws E s s' : Prop := {
  pr_inv : Inv Ss Ws E s';
  pr_evolves : evolves s s';
  pr_snap t : t ∈ Ss ∨ t ∈ Ws → same_value s s' (snap_ptr t);
  pr_strong p : OStrong p ∈ E → same_value s s' p
}.

Lemma evolves_live s s' p : evolves s s' → live s p → live s' p → same_value s s' p.
Proof.
  intros Hst (o & v & Ho & Hv) (o' & v' & Ho' & Hv'). exists o, o', v. split_and!; try done.
  destruct (ev_heap _ _ Hst p o' Ho') as (o1 & Ho1 & _ & Hor). destruct Hor; congruence.
Qed.

Lemma preserves_intro Ss Ws E0 E s s' :
  Inv Ss Ws E0 s → Inv Ss Ws E s' → evolves s s' → (∀ p, OStrong p ∈ E → live s p) →
  preserves Ss Ws E s s'.
Proof.
  intros Hinv Hinv' Hst HE. split; [done|done|..].
  - intros t Ht. apply evolves_live; [done|by eapply snapshot_live..].
  - intros p Hp. apply evolves_live; [done|by apply HE|by eapply Inv_strong_live].
Qed.

Lemma kept_safe_preserves Ss Ws E s s' : kept_safe Ss Ws E s s' → preserves Ss Ws E s s'.
Proof. intros [H1 H2 H3 H4]. split; [done|by apply stable_evolves|exact H3|exact H4]. Qed.

(** Summing with wrap-around at each step is wrapping the sum. *)
Lemma foldl_wrap_sum l a :
  foldl (λ total n, wrap 64 (total + n)) (wrap 64 a) l = wrap 64 (a + sumZ id l).
Proof.
  revert a. induction l as [|k l IH]; intros a; simpl; [by rewrite Z.add_0_r|].
  replace (wrap 64 (wrap 64 a + k)) with (wrap 64 (a + k)) by (unfold wrap; by rewrite Zplus_mod_idemp_l).
  rewrite IH. unfold id. f_equal. lia.
Qed.

(** ** The theorems *)

(** C12. Applying a deferred action is safe.  In any state whose accounts
    balance, [eject] of the memory manager returns: it fails no assertion,
    touches no freed memory and destroys no value twice, however deep the
    destruction of one object cascades into others.  The accounts balance
    afterwards, and every object protected by a snapshot or by a reference
    still has its value.  The potential of the state bounds the nesting. *)
Theorem eject_safe n Ss Ws E tid p ty s :
  tid < length (num_allocated s) → Inv Ss Ws (eject_obl p ty :: E) s →
  potential (eject_obl p ty :: E) s ≤ n →
  wp (eject (manager n) tid p ty)
     (λ _ s', kept_safe Ss Ws E s s' ∧ potential E s' ≤ potential E s) s.
Proof.
  intros Htid Hinv Hpot. eapply wp_mono; [by apply manager_ejectf_ok|].
  intros u s' Ha. split; [|by apply (after_potential _ _ _ _ _ _ _ _ Ha)].
  eapply (after_kept_safe _ _ _ _ _ _ tt); [exact Hinv|by right|].
  destruct Ha as [? ? ? Hw]. split; [done..|]. intros q. etrans; [apply Hw|]. rewrite total_cons. lia.
Qed.

(** C13. Retiring is safe.  [retire] defers one action on an object that somebody
    still accounts for and ejects whatever the scan of the announcements allows;
    it always returns, and no object in use by a snapshot or a reference loses
    its value. *)
Theorem retire_safe n Ss Ws E tid p ty s :
  tid < length (num_allocated s) → Inv Ss Ws (OPend p ty :: E) s → S (potential E s) < n →
  wp (d_retire (manager n) tid p ty)
     (λ _ s', kept_safe Ss Ws E s s' ∧ potential E s' ≤ S (potential E s)) s.
Proof.
  intros Htid Hinv Hpot. eapply wp_mono; [by apply (self_retire _ _ n _ (manager_ok Ss Ws n))|].
  intros u s' Ha. split; [|by apply (after_potential _ _ _ _ _ _ _ _ Ha)].
  eapply after_kept_safe; [exact Hinv|by right|exact Ha].
Qed.

(** The allocation counters count: whatever thread allocated or freed an
    object, [currently_allocated] is the number of objects in memory, modulo
    the width of [size_t]. *)
Theorem currently_allocated_exact Ss Ws E s :
  Inv Ss Ws E s → currently_allocated s = Ok (wrap 64 (Z.of_nat (size (heap s))), s).
Proof.
  intros [[_ Hal _ _ _] _ _]. unfold currently_allocated. simpl. unfold mbind, M_bind; simpl.
  unfold mret, M_ret. rewrite <-Hal. do 3 f_equal.
  exact (foldl_wrap_sum _ 0%Z).
Qed.

(** ** Destroying the manager *)

(** An object refers to another through a pointer member of its value. *)
Definition refers (h : gmap Z (counted_object V)) (q p : Z) : Prop :=
  p ≠ 0%Z ∧ ∃ o v m, h !! q = Some o ∧ storage o = Some v ∧ m ∈ members v ∧ raw (member_word m) = p.

(** There is no cycle of references: reference counting does not collect
    cycles. *)
Definition acyclic (h : gmap Z (counted_object V)) : Prop :=
  ∃ rank : Z → nat, ∀ q p, refers h q p → rank p < rank q.

Lemma acyclic_evolves s s' : evolves s s' → acyclic (heap s) → acyclic (heap s').
Proof.
  intros Hst [rank Hr]. exists rank. intros q p (Hp & o & v & m & Ho & Hv & Hm & Hw). apply Hr.
  split; [done|]. destruct (ev_heap _ _ Hst q o Ho) as (o1 & Ho1 & _ & [?|?]); [congruence|].
  exists o1, v, m. split_and!; congruence || done.
Qed.

(** An atomic pointer outside the objects refers to an object. *)
Definition rooted s (p : Z) : Prop := p ≠ 0%Z ∧ ∃ i m, cells s !! i = Some m ∧ raw (member_word m) = p.

Lemma msum_pos {K} `{Countable K} {A} (f : A → nat) (m : gmap K A) :
  0 < msum f m → ∃ k a, m !! k = Some a ∧ 0 < f a.
Proof.
  unfold msum. intros Hpos.
  assert (∃ k a, (k, a) ∈ map_to_list m ∧ 0 < f a) as (k & a & Hin%elem_of_map_to_list & Ha); [|eauto].
  induction (map_to_list m) as [|[k a] l IH]; simpl in *; [lia|]. destruct (decide (0 < f a)).
  - exists k, a. split; [by left|done].
  - destruct IH as (k' & a' & ? & ?); [lia|]. exists k', a'. split; [by right|done].
Qed.

(** The obligations that no deferred list or client accounts for are those of
    the atomic pointers outside the objects and of the members. *)
Lemma total_from_pointer g s :
  concat (deferred_destructs s) = [] → 0 < total g [] s →
  (∃ i m a, cells s !! i = Some m ∧ a ∈ member_obls m ∧ g a = true) ∨
  (∃ q o v m a, heap s !! q = Some o ∧ storage o = Some v ∧ m ∈ members v ∧
                a ∈ member_obls m ∧ g a = true).
Proof.
  intros Hd. unfold total. rewrite Hd. simpl. intros Hpos.
  destruct (decide (0 < msum (λ m, countb g (member_obls m)) (cells s))) as [Hc|Hc].
  { left. destruct (msum_pos _ _ Hc) as (i & m & Hm & (a & Ha & Hga)%countb_pos). eauto 10. }
  right. destruct (msum_pos (λ o, countb g (obj_obls o)) (heap s)) as (q & o & Hq & (a & Ha & Hga)%countb_pos); [lia|].
  unfold obj_obls in Ha. destruct (storage o) as [v|] eqn:Hv; [|by apply elem_of_nil in Ha].
  unfold members_obls in Ha. apply list_elem_of_In, in_concat in Ha as (l & Hl & Hal).
  apply list_elem_of_In, list_elem_of_fmap in Hl as (m & -> & Hm).
  apply list_elem_of_In in Hal. by exists q, o, v, m, a.
Qed.

(** What a pointer is accounted for is a reference to its object. *)
Lemma member_obl_on m (a : obl En) p ty :
  a ∈ member_obls m → on p ty a = true → p ≠ 0%Z ∧ raw (member_word m) = p ∧ ty ≠ retire_dispose.
Proof.
  intros Ha Hon%bool_decide_eq_true. unfold member_obls in Ha.
  destruct (Z.eqb_spec (raw (member_word m)) 0) as [|Hne]; [by apply elem_of_nil in Ha|].
  apply list_elem_of_singleton in Ha as ->. destruct m; by simplify_eq/=.
Qed.

(** Every object in memory is referred to from outside or by a live object. *)
Lemma referrer s p o :
  Inv [] [] [] s → concat (deferred_destructs s) = [] → heap s !! p = Some o →
  rooted s p ∨ ∃ q, is_Some (heap s !! q) ∧ refers (heap s) q p.
Proof.
  intros Hinv Hd Ho. destruct (Inv_counts _ _ _ _ _ _ Hinv Ho) as [_ _ Hpos Hal Hdead].
  assert (∀ ty, 0 < total (on p ty) [] s →
    (rooted s p ∨ ∃ q, is_Some (heap s !! q) ∧ refers (heap s) q p) ∧ ty ≠ retire_dispose) as Hr.
  { intros ty Ht. destruct (total_from_pointer _ _ Hd Ht) as [(i & m & a & Hi & Ha & Hon)|(q & oq & v & m & a & Hq & Hv & Hm & Ha & Hon)];
      destruct (member_obl_on _ _ _ _ Ha Hon) as (Hp & Hw & Hty); (split; [|done]).
    - left. split; [done|eauto].
    - right. exists q. split; [eauto|]. split; [done|]. eauto 10. }
  assert (total (destroying p) [] s = 0) as HK.
  { destruct (Nat.eq_0_gt_0_cases (total (destroying p) [] s)) as [|Hk]; [done|].
    assert (∀ m (a : obl En), a ∈ member_obls m → destroying p a = false) as Hno.
    { intros m a Ha. unfold member_obls in Ha. destruct (_ =? _)%Z; [by apply elem_of_nil in Ha|].
      apply list_elem_of_singleton in Ha as ->. by destruct m. }
    destruct (total_from_pointer _ _ Hd Hk) as [(i & m & a & _ & Ha & Hon)|(q & oq & v & m & a & _ & _ & _ & Ha & Hon)];
      rewrite (Hno m a Ha) in Hon; done. }
  unfold alive in *. destruct (storage o) as [v|].
  - destruct (Hal eq_refl) as [_ HD].
    destruct (Nat.eqb_spec (total (on p decrement_strong_count) [] s) 0) as [HS|HS].
    + destruct (Hr retire_dispose) as [_ ?]; [lia|done].
    + apply (Hr decrement_strong_count). lia.
  - apply (Hr decrement_weak_count). lia.
Qed.

(** A chain of references, the object it ends with last. *)
Fixpoint chain (h : gmap Z (counted_object V)) (q : Z) (l : list Z) : Prop :=
  match l with [] => True | p :: l' => refers h q p ∧ chain h p l' end.

Lemma chain_reaches h q l p : chain h q l → p ∈ q :: l → rtc (refers h) q p.
Proof.
  revert q. induction l as [|q' l IH]; intros q Hc Hp.
  - apply list_elem_of_singleton in Hp as ->. done.
  - apply elem_of_cons in Hp as [->|Hp]; [done|]. destruct Hc as [Hr Hc]. eapply rtc_l; [exact Hr|]. by apply IH.
Qed.

(** The object is on a cycle of references. *)
Definition on_cycle (h : gmap Z (counted_object V)) (q : Z) : Prop := tc (refers h) q q.

(** What keeps an object that nobody holds: a pointer outside the objects or a
    cycle leads to it. *)
Definition retained s (p : Z) : Prop :=
  ∃ q, (rooted s q ∨ on_cycle (heap s) q) ∧ rtc (refers (heap s)) q p.

(** Going back along the references from an object that is left, one gets to a
    pointer outside the objects, or to an object for the second time. *)
Lemma left_retained s p :
  Inv [] [] [] s → concat (deferred_destructs s) = [] → is_Some (heap s !! p) → retained s p.
Proof.
  intros Hinv Hd Hp.
  assert (∀ k, retained s p ∨ ∃ q l, length l = k ∧ NoDup (q :: l) ∧ chain (heap s) q l ∧ p ∈ q :: l ∧
            Forall (λ x, is_Some (heap s !! x)) (q :: l)) as Hback.
  { induction k as [|k [IH|(q & l & Hl & Hnd & Hc & Hpl & Hh)]]; [|by left|].
    - right. exists p, []. split_and!; [done|apply NoDup_singleton|done|by left|by apply Forall_singleton].
    - pose proof Hh as [[o Ho] _]%Forall_cons. destruct (referrer s q o Hinv Hd Ho) as [Hr|(r & Hr & Href)].
      + left. exists q. split; [by left|]. by eapply chain_reaches.
      + destruct (decide (r ∈ q :: l)) as [Hin|Hin].
        * left. exists r. assert (rtc (refers (heap s)) q p) as Hqp by by eapply chain_reaches.
          split; [right|by eapply rtc_l]. eapply tc_rtc_r; [by apply tc_once|]. by eapply chain_reaches.
        * right. exists r, (q :: l). split_and!; [simpl; lia|by apply NoDup_cons|done|by right|by apply Forall_cons]. }
  destruct (Hback (size (heap s))) as [?|(q & l & Hl & Hnd & _ & _ & Hh)]; [done|]. exfalso.
  assert (list_to_set (q :: l) ⊆ (dom (heap s) : gset Z)) as Hsub.
  { intros x Hx%elem_of_list_to_set. apply elem_of_dom. by eapply Forall_forall in Hh. }
  apply subseteq_size in Hsub. rewrite size_list_to_set, size_dom in Hsub by done. simpl in Hsub. lia.
Qed.

Lemma acyclic_no_cycle h q : acyclic h → ¬ on_cycle h q.
Proof.
  intros [rank Hr] Hc. assert (∀ x y, tc (refers h) x y → rank y < rank x) as Ht.
  { induction 1 as [x y Hxy|x y z Hxy _ IH]; [by apply Hr|]. specialize (Hr _ _ Hxy). lia. }
  specialize (Ht _ _ Hc). lia.
Qed.

(** The references that are left were there before. *)
Lemma refers_evolves s s' q p : evolves s s' → refers (heap s') q p → refers (heap s) q p.
Proof.
  intros Hst (Hp & o & v & m & Ho & Hv & Hm & Hw). split; [done|].
  destruct (ev_heap _ _ Hst q o Ho) as (o1 & Ho1 & _ & [?|?]); [congruence|].
  exists o1, v, m. split_and!; congruence || done.
Qed.

Lemma retained_evolves s s' p : evolves s s' → cells s' = cells s → retained s' p → retained s p.
Proof.
  intros Hst Hc (q & Hq & Hr). exists q. split.
  - destruct Hq as [Hq|Hq]; [left|right]; unfold rooted, on_cycle in *; [by rewrite <-Hc|].
    eapply tc_congruence with (f := id); [|exact Hq]. intros x y. by apply refers_evolves.
  - eapply rtc_congruence with (f := id); [|exact Hr]. intros x y. by apply refers_evolves.
Qed.

Lemma shutdown_keeps n fuel tid s :
  tid < length (num_allocated s) → Inv [] [] [] s → potential [] s ≤ n → potential [] s < fuel →
  wp (shutdown (eject (manager n) tid) fuel;; currently_allocated)
     (λ r s', r = wrap 64 (Z.of_nat (size (heap s'))) ∧ concat (deferred_destructs s') = [] ∧
              ∀ p, is_Some (heap s' !! p) → retained s p) s.
Proof.
  intros Htid Hinv Hpot Hfuel. wp_step. unfold shutdown. wp_step. wp_step. wp_step. wp_step.
  set (s0 := set_in_progress _ s).
  assert (Inv [] [] [] s0) as Hinv0
    by (apply (Inv_ext _ _ [] s); unfold s0; simpl; rewrite ?length_replicate; done).
  eapply wp_mono; [apply (shutdown_loop_ok [] [] n tid); try done; apply manager_ejectf_ok|].
  intros [] s' [[Hinv' _ Hst _] Hd]. unfold wp at 1. rewrite (currently_allocated_exact _ _ _ _ Hinv').
  split; [done|]. split; [done|]. intros p Hp.
  assert (retained s0 p) as Hret; [|exact Hret].
  eapply retained_evolves; [by apply stable_evolves|apply Hst|]. by apply left_retained.
Qed.

Lemma shutdown_frees n fuel tid s :
  tid < length (num_allocated s) → Inv [] [] [] s →
  (∀ i m, cells s !! i = Some m → raw (member_word m) = 0%Z) → acyclic (heap s) →
  potential [] s ≤ n → potential [] s < fuel →
  wp (shutdown (eject (manager n) tid) fuel;; currently_allocated)
     (λ r s', r = 0%Z ∧ heap s' = ∅ ∧ concat (deferred_destructs s') = []) s.
Proof.
  intros Htid Hinv Hc Hac Hpot Hfuel. eapply wp_mono; [by apply shutdown_keeps|].
  intros r s' (-> & Hd & Hleft). assert (heap s' = ∅) as ->; [|by rewrite map_size_empty].
  apply map_empty. intros p. destruct (heap s' !! p) as [o|] eqn:Ho; [exfalso|done].
  destruct (Hleft p ltac:(eauto)) as (q & [[Hq (i & m & Hi & Hw)]|Hq] & _).
  - specialize (Hc i m Hi). congruence.
  - by eapply acyclic_no_cycle.
Qed.

(** C14. What the destructor of the memory manager frees.  When no thread holds a
    pointer or a snapshot, it returns (the loop that re-collects what destruction
    defers ends), every deferred action has been applied, and every object that is
    left in memory was referred to, directly or through other objects, by an
    atomic pointer outside the objects that was not null or by an object on a
    cycle of references.  [currently_allocated] is the number of the objects left,
    so it is zero when those pointers are null and there are no cycles. *)
Theorem shutdown_frees_all n fuel tid s :
  tid < length (num_allocated s) → Inv [] [] [] s → potential [] s ≤ n → potential [] s < fuel →
  wp (shutdown (eject (manager n) tid) fuel;; currently_allocated)
     (λ r s', concat (deferred_destructs s') = [] ∧ (∀ p, is_Some (heap s' !! p) → retained s p) ∧
              r = wrap 64 (Z.of_nat (size (heap s'))) ∧
              ((∀ i m, cells s !! i = Some m → raw (member_word m) = 0%Z) → acyclic (heap s) →
               heap s' = ∅ ∧ r = 0%Z)) s.
Proof.
  intros Htid Hinv Hpot Hfuel. pose proof (shutdown_keeps n fuel tid s Htid Hinv Hpot Hfuel) as (r & s' & E & H1 & H2 & H3)%wp_ok.
  apply wp_ok. exists r, s'. split; [done|]. split_and!; [done..|]. intros Hc Hac.
  destruct (proj1 (wp_ok _ _ _) (shutdown_frees n fuel tid s Htid Hinv Hc Hac Hpot Hfuel)) as (r1 & s1 & E1 & -> & Hh & _).
  rewrite E in E1. by injection E1 as -> ->.
Qed.

End reclamation.

(** ** The hazard-pointer scan, exactly *)

Section hp_scan.
Local Abbreviation occurs x l := (countb (λ y, bool_decide (y = x)) l).

Lemma scan_lookup x (e : hp_entry) :
  scan_slots x !! e =
  let n := occurs e.1 (announced_handles x) in if n =? 0 then None else Some (S n).
Proof.
  unfold scan_slots.
  assert (∀ l (m : gmap hp_entry nat) k, m !! e = (if k =? 0 then None else Some (S k)) →
    foldl announce m l !! e =
    let n := k + occurs e.1 l in if n =? 0 then None else Some (S n)) as H; [|apply (H _ _ 0), lookup_empty].
  induction l as [|r l IH]; intros m k Hm; simpl.
  - by rewrite Nat.add_0_r.
  - rewrite (IH _ (k + Nat.b2n (bool_decide (r = e.1)))).
    + by rewrite Nat.add_assoc.
    + rewrite announce_lookup, Hm. case_decide as Hr.
      * rewrite bool_decide_eq_true_2 by done. simpl. rewrite Nat.add_1_r. by destruct k.
      * rewrite bool_decide_eq_false_2 by done. simpl. by rewrite Nat.add_0_r.
Qed.

Lemma kept_of_count {V : Type} (l : list hp_entry) (m : gmap hp_entry nat) e :
  m !! e ≠ Some 0 →
  occurs e (kept_of (V := V) (X := list LocalSlot) m l) = min (occurs e l) (default 0 (m !! e)).
Proof.
  revert m. induction l as [|y l IH]; intros m Hm; [done|]. simpl. unfold check_announced.
  destruct (decide (y = e)) as [->|Hne].
  - rewrite bool_decide_eq_true_2 by done. destruct (m !! e) as [[|c]|] eqn:He; [done| |]; simpl.
    + rewrite bool_decide_eq_true_2 by done. rewrite Nat.sub_0_r. destruct c as [|c]; simpl.
      * rewrite IH; [|by rewrite lookup_delete_eq]. rewrite lookup_delete_eq. simpl. lia.
      * rewrite IH; [|by rewrite lookup_insert_eq]. rewrite lookup_insert_eq. simpl. lia.
    + rewrite IH by congruence. rewrite He. simpl. lia.
  - rewrite bool_decide_eq_false_2 by done. simpl. destruct (m !! y) as [c|] eqn:Hy.
    + simpl. rewrite bool_decide_eq_false_2 by done. simpl.
      assert ((if c - 1 =? 0 then delete y m else <[y:=c - 1]> m) !! e = m !! e) as Hsame
        by (case_match; [by rewrite lookup_delete_ne|by rewrite lookup_insert_ne]).
      rewrite IH by (by rewrite Hsame). by rewrite Hsame.
    + by apply IH.
Qed.

(** [kept_of] is what [erase(remove_if(...))] leaves, whatever the actions that
    are applied do. *)
Lemma remove_applied_kept {V X En : Type} `{Pol : !Policy} `{Sch : !Scheme V X En} ejectf sc l (s s' : state V X En) kept :
  remove_applied ejectf sc l s = Ok (kept, s') → kept = kept_of sc l.
Proof.
  revert sc s kept. induction l as [|x l IH]; intros sc s kept; simpl; [by intros [= <- _]|].
  destruct (check sc x) as [keep sc']. unfold mbind, M_bind. destruct keep.
  - destruct (remove_applied ejectf sc' l s) as [[kept' s1]|] eqn:E; [|done]. intros [= <- <-]. by rewrite (IH _ _ _ E).
  - destruct (ejectf (e_obj x) (e_type x) s) as [[u s1]|]; [|done]. apply IH.
Qed.

(** C27. How much the hazard-pointer scan defers, exactly.  Of the deferred
    actions of one kind on one handle, going through a list keeps one more than
    the handle is announced (in all slots of all threads), or all of them if
    there are fewer, and none if it is not announced; and what is kept is what
    the loop of the code leaves, whatever the actions it applies do.  The comment
    in the code says that #deferred - #announced actions are applied; it is one
    less, since the first announcement protects two. *)
Theorem hp_scan_exact {V : Type} `{Pol : !Policy} (x : list LocalSlot) (l : list hp_entry) (e : hp_entry) :
  let announced := occurs e.1 (announced_handles x) in
  occurs e (kept_of (V := V) (scan (Scheme := hp_scheme (V := V)) x) l) =
    min (occurs e l) (if announced =? 0 then 0 else S announced) ∧
  ∀ ejectf (s s' : state V (list LocalSlot) hp_entry) kept,
    remove_applied ejectf (scan x) l s = Ok (kept, s') →
    occurs e kept = min (occurs e l) (if announced =? 0 then 0 else S announced).
Proof.
  intros announced. assert (occurs e (kept_of (V := V) (scan (Scheme := hp_scheme (V := V)) x) l) =
    min (occurs e l) (if announced =? 0 then 0 else S announced)) as Hk.
  { simpl scan. rewrite kept_of_count; rewrite scan_lookup; simpl; by destruct (_ =? 0). }
  split; [done|]. by intros ejectf s s' kept ->%remove_applied_kept.
Qed.

End hp_scan.

(** ** Concrete states *)

Section demo.
Local Existing Instance default_pointer_policy.

Definition demo_object (strong : Z) (d : nat) (ms : list member) : counted_object nat :=
  CountedObject (Some (Payload d ms)) strong 1 false 0.

(** The object at 16 owns the one at 32; thread 0 has a snapshot of the latter
    and has retired a second reference to it. *)
Definition demo_state : state nat (list LocalSlot) hp_entry :=
  State {[16%Z := demo_object 1 7 [MRc 32]; 32%Z := demo_object 2 8 []]} ∅ [2%Z; 0%Z]
    [{| announcement := 0; snapshot_announcements := 32%Z :: replicate 6 0%Z |}; new_slot]
    [false; false] [[(32%Z, decrement_strong_count)]; []] [1%Z; 0%Z].

Definition demo_snap : hp_snap := HpSnap 0 0 32.

Lemma demo_snap_ok : hp_snap_ok (announcements demo_state) demo_snap.
Proof. split; [done|]. by eexists. Qed.

(** The snapshot's object survives the destruction of its owner. *)
Lemma eject_safe_witness :
  wp (eject (manager 10) 0 16 decrement_strong_count)
     (λ _ s', kept_safe (Laws := hp_laws) [demo_snap] [] [] demo_state s' ∧ potential [] s' ≤ potential [] demo_state)
     demo_state.
Proof.
  apply (eject_safe (Laws := hp_laws) 10 [demo_snap] [] [] 0 16 decrement_strong_count demo_state).
  - simpl. lia.
  - apply inv_check_ok; [|done|by vm_compute].
    intros t [->%list_elem_of_singleton|?%elem_of_nil]; [by split; [exact demo_snap_ok|]|done].
  - vm_compute. lia.
Defined.

(** The roots are gone: everything is freed. *)
Definition demo_end : state nat (list LocalSlot) hp_entry :=
  State {[16%Z := demo_object 1 7 [MRc 32]; 32%Z := demo_object 2 8 []]} {[0 := MAtomicRc 0]}
    [2%Z; 0%Z] [new_slot; new_slot] [false; false]
    [[(32%Z, decrement_strong_count)]; [(16%Z, decrement_strong_count)]] [1%Z; 1%Z].

Lemma retire_safe_witness :
  wp (d_retire (manager 10) 0 16 decrement_strong_count)
     (λ _ s', kept_safe (Laws := hp_laws) [demo_snap] [] [] demo_state s' ∧
              potential [] s' ≤ S (potential [] demo_state))
     demo_state.
Proof.
  apply (retire_safe (Laws := hp_laws) 10 [demo_snap] [] [] 0 16 decrement_strong_count demo_state).
  - simpl. lia.
  - apply inv_check_ok; [|done|by vm_compute].
    intros t [->%list_elem_of_singleton|?%elem_of_nil]; [by split; [exact demo_snap_ok|]|done].
  - vm_compute. lia.
Defined.

Lemma currently_allocated_exact_witness : currently_allocated demo_end = Ok (2%Z, demo_end).
Proof.
  apply (currently_allocated_exact [] [] []). apply inv_check_ok; [|done|by vm_compute].
  by intros t [?%elem_of_nil|?%elem_of_nil].
Defined.

(** The objects at 48 and 64 refer to each other, and the former to the one at
    80; the objects at 16 and 32 are those of [demo_end]. *)
Definition demo_cycle : state nat (list LocalSlot) hp_entry :=
  State {[16%Z := demo_object 1 7 [MRc 32]; 32%Z := demo_object 2 8 []; 48%Z := demo_object 1 9 [MRc 64; MRc 80];
          64%Z := demo_object 1 9 [MRc 48]; 80%Z := demo_object 1 9 []]} {[0 := MAtomicRc 0]}
    [5%Z; 0%Z] [new_slot; new_slot] [false; false]
    [[(32%Z, decrement_strong_count)]; [(16%Z, decrement_strong_count)]] [1%Z; 1%Z].

Lemma shutdown_frees_all_witness :
  wp (shutdown (eject (manager 20) 0) 20;; currently_allocated)
     (λ r s', concat (deferred_destructs s') = [] ∧ (∀ p, is_Some (heap s' !! p) → retained demo_cycle p) ∧
              r = wrap 64 (Z.of_nat (size (heap s'))) ∧
              ((∀ i m, cells demo_cycle !! i = Some m → raw (member_word m) = 0%Z) → acyclic (heap demo_cycle) →
               heap s' = ∅ ∧ r = 0%Z)) demo_cycle.
Proof.
  apply (shutdown_frees_all (Laws := hp_laws) 20 20 0 demo_cycle).
  - simpl. lia.
  - apply inv_check_ok; [|done|by vm_compute]. by intros t [?%elem_of_nil|?%elem_of_nil].
  - vm_compute. lia.
  - vm_compute. lia.
Defined.

(** Of the five objects the cycle and what it refers to are left. *)
Example cycle_left :
  match (shutdown (eject (manager 20) 0) 20;; currently_allocated) demo_cycle with
  | Ok (r, s') => r = 3%Z ∧ dom (heap s') = {[48%Z; 64%Z; 80%Z]}
  | Err _ => False
  end.
Proof. vm_compute. by split. Qed.

End demo.
