(* ===== verification/RcPtr.v ===== *)
(** * Owning pointers
    ([rc_ptr] of src/include/cdrc/rc_ptr.h and [weak_ptr] of
    src/include/cdrc/weak_ptr.h)

    An owning pointer is a word, null or with one reference to its object.  The
    methods that change the pointer return its new word.  [self] and [tid] are
    the memory manager and the thread that runs the method. *)

From S2P Require Import Prelude StickyCounter CountedObject MemoryManager Accounting ManagerSafety AtomicLoc Backend Reclamation.
Local Open Scope Z_scope.

Inductive AddRef := addref_yes | addref_no.

Section owning.
  Context {V X En : Type} `{Pol : !Policy} `{Sch : !Scheme V X En} `{Back : !Backend V X En}.
  Context (self : derived V X En) (tid : nat).
  Local Abbreviation M := (M (state V X En)).

(** [if (ptr)] and [ptr == nullptr] *)
Definition is_null (ptr : Z) : bool := raw ptr =? 0.

(** ** rc_ptr *)

Definition rc_null : Z := 0.

(** [rc_ptr(ptr_, add_ref)] *)
Definition rc_make (ptr : Z) (add_ref : AddRef) : M Z :=
  match add_ref with
  | addref_yes => if is_null ptr then mret ptr else increment_ref_cnt (raw ptr);; mret ptr
  | addref_no => mret ptr
  end.

(** [rc_ptr(const snapshot_ptr_t&)] *)
Definition rc_from_snapshot (other : acquired) : M Z :=
  let ptr := acq_value other in
  if is_null ptr then mret ptr else increment_ref_cnt (raw ptr);; mret ptr.

(** [rc_ptr(const rc_ptr&)] *)
Definition rc_copy (other : Z) : M Z :=
  let ptr := other in
  if is_null ptr then mret ptr else increment_ref_cnt (raw ptr);; mret ptr.

(** [release()]: the word and the pointer afterwards. *)
Definition rc_release (ptr : Z) : Z * Z := (ptr, 0).

(** [rc_ptr(rc_ptr&&)]: the new pointer and the moved-from one. *)
Definition rc_move (other : Z) : Z * Z := rc_release other.

(** [clear()], which the destructor calls. *)
Definition rc_clear (ptr : Z) : M Z :=
  when (negb (is_null ptr)) (decrement_ref_cnt self tid (raw ptr));;
  mret 0.

Definition rc_assign_null (ptr : Z) : M Z := rc_clear ptr.

(** Copy assignment. *)
Definition rc_assign_copy (ptr other : Z) : M Z :=
  let tmp := ptr in
  let ptr := other in
  (if is_null ptr then mret tt else increment_ref_cnt (raw ptr);; mret tt);;
  when (negb (is_null tmp)) (decrement_ref_cnt self tid (raw tmp));;
  mret ptr.

(** Move assignment from another pointer: this pointer and the other. *)
Definition rc_assign_move (ptr other : Z) : M (Z * Z) :=
  let tmp := ptr in
  let '(ptr, other) := rc_release other in
  when (negb (is_null tmp)) (decrement_ref_cnt self tid (raw tmp));;
  mret (ptr, other).

(** [operator*]: the managed value. *)
Definition rc_deref (ptr : Z) : M (payload V) :=
  o ← deref (raw ptr);
  match storage o with Some v => mret v | None => fail DestroyedObject end.

(** [get()] and [operator->]: the address of the value is that of the object. *)
Definition rc_get (ptr : Z) : Z := if is_null ptr then 0 else raw ptr.

Definition rc_bool (ptr : Z) : bool := negb (is_null ptr).
Definition rc_eq (ptr other : Z) : bool := rc_get ptr =? rc_get other.

Definition rc_use_count (ptr : Z) : M Z :=
  if is_null ptr then mret 0 else with_obj (raw ptr) get_use_count.

(** The subtraction is on [uint32_t]. *)
Definition rc_weak_count (ptr : Z) : M Z :=
  if is_null ptr then mret 0
  else n ← with_obj (raw ptr) get_weak_count; mret (wrap cnt_width (n - 1)).

Definition rc_swap (ptr other : Z) : Z * Z := (other, ptr).

Definition make_shared (v : payload V) : M Z :=
  ptr ← mm_create_object tid v;
  rc_make ptr addref_no.

(** ** weak_ptr *)

(** [weak_ptr(ptr_, add_ref)]: null if the weak count was zero. *)
Definition weak_make (ptr : Z) (add_ref : AddRef) : M Z :=
  match add_ref with
  | addref_yes =>
      if is_null ptr then mret ptr
      else b ← increment_weak_cnt (raw ptr); mret (if b : bool then ptr else 0)
  | addref_no => mret ptr
  end.

(** [weak_ptr(const weak_snapshot_ptr_t&)] *)
Definition weak_from_snapshot (other : acquired) : M Z := weak_make (acq_value other) addref_yes.

(** [weak_ptr(const rc_ptr_t&)] and [weak_ptr(const weak_ptr&)] *)
Definition weak_from_rc (other : Z) : M Z :=
  if is_null other then mret other else increment_weak_cnt (raw other);; mret other.
Definition weak_copy (other : Z) : M Z :=
  if is_null other then mret other else increment_weak_cnt (raw other);; mret other.

Definition weak_release (ptr : Z) : Z * Z := (ptr, 0).
Definition weak_move (other : Z) : Z * Z := weak_release other.

Definition weak_clear (ptr : Z) : M Z :=
  when (negb (is_null ptr)) (decrement_weak_cnt tid (raw ptr));;
  mret 0.

Definition weak_assign_copy (ptr other : Z) : M Z :=
  let tmp := ptr in
  let ptr := other in
  (if is_null ptr then mret tt else increment_weak_cnt (raw ptr);; mret tt);;
  when (negb (is_null tmp)) (decrement_weak_cnt tid (raw tmp));;
  mret ptr.

Definition weak_assign_move (ptr other : Z) : M (Z * Z) :=
  let tmp := ptr in
  let '(ptr, other) := weak_release other in
  when (negb (is_null tmp)) (decrement_weak_cnt tid (raw tmp));;
  mret (ptr, other).

Definition weak_lock (ptr : Z) : M Z :=
  if is_null ptr then mret rc_null
  else b ← increment_ref_cnt (raw ptr);
       if b : bool then rc_make ptr addref_no else mret rc_null.

(** [rc_ptr(const weak_ptr_t&)] *)
Definition rc_from_weak (other : Z) : M Z :=
  p ← weak_lock other;
  mret (fst (rc_move p)).

Definition weak_use_count (ptr : Z) : M Z :=
  if is_null ptr then mret 0 else with_obj (raw ptr) get_use_count.

Definition weak_expired (ptr : Z) : M bool :=
  n ← weak_use_count ptr; mret (n =? 0).

Definition weak_swap (ptr other : Z) : Z * Z := (other, ptr).

End owning.

(** ** Capacity

    The counts are bounded by the potential of the state, so a bound on the
    potential keeps the counters from overflowing. *)

Section capacity.
  Context {V X En : Type} `{Pol : !Policy} `{Sch : !Scheme V X En} `{Laws : !SchemeLaws V X En}.
  Implicit Types (s : state V X En) (E : list (obl En)).

Definition fits (k : nat) : Prop := Z.of_nat k + 4 < 2 ^ 30.

Lemma on_active p ty (a : obl En) : on p ty a = true → active a = true.
Proof. intros H%bool_decide_eq_true. by destruct a. Qed.

Lemma total_on_potential p ty E s : (total (on p ty) E s ≤ potential E s)%nat.
Proof.
  unfold potential. pose proof (total_le (on p ty) active E s (on_active p ty)). lia.
Qed.

Lemma strong_room_fits Ss Ws E s p o :
  Inv Ss Ws E s → heap s !! p = Some o → (0 < total (on p decrement_strong_count) E s)%nat →
  fits (potential E s) → strong_room o.
Proof.
  intros Hinv Ho HS Hf. destruct (Inv_counts _ _ _ _ _ _ Hinv Ho) as [Hs _ _ _ _].
  pose proof (total_on_potential p decrement_strong_count E s) as Hle. unfold fits in Hf.
  destruct Hs as [[? _]|[Hn Heq]]; [lia|]. split; [done|]. rewrite Heq. unfold low.
  change (2 ^ (cnt_width - 2)) with (2 ^ 30) in *. rewrite Z.mod_small by lia. lia.
Qed.

Lemma weak_room_fits Ss Ws E s p o :
  Inv Ss Ws E s → heap s !! p = Some o → fits (potential E s) → weak_room o.
Proof.
  intros Hinv Ho Hf. destruct (Inv_counts _ _ _ _ _ _ Hinv Ho) as [_ Hw Hpos Hal Hdead].
  pose proof (total_on_potential p decrement_weak_count E s) as Hle. unfold fits in Hf.
  assert (alive o + total (destroying p) E s ≤ 1)%nat.
  { unfold alive in *. destruct (storage o); [destruct Hal; [done|]|destruct Hdead as (_ & _ & ? & _); [done|]]; lia. }
  destruct Hw as [[? _]|[Hn Heq]]; [lia|]. split; [done|]. rewrite Heq. unfold low.
  change (2 ^ (cnt_width - 2)) with (2 ^ 30) in *. rewrite Z.mod_small by lia. lia.
Qed.

End capacity.

(** ** The methods keep the accounts *)

Section owning_ok.
  Context {V X En : Type} `{Pol : !Policy} `{Sch : !Scheme V X En} `{Laws : !SchemeLaws V X En}
    `{Back : !Backend V X En} `{BLaws : !BackendLaws V X En}.
  Context (n : nat) (tid : nat).
  Local Abbreviation st := (state V X En).
  Local Abbreviation mm := (manager n).
  Implicit Types (s : st) (E : list (obl En)) (Ss Ws : list snap) (w : Z).

Lemma rc_obls w : member_obls (En := En) (MRc w) = if is_null w then [] else [OStrong (raw w)].
Proof. done. Qed.

Lemma weak_obls w : member_obls (En := En) (MWeak w) = if is_null w then [] else [OWeak (raw w)].
Proof. done. Qed.

(** Taking a reference to an object that somebody holds. *)
Lemma addref_ok {A} (a : A) Ss Ws E w s :
  Inv Ss Ws E s → (is_null w = false → (0 < total (on (raw w) decrement_strong_count) E s)%nat) →
  fits (potential E s) →
  wp (if is_null w then mret a else increment_ref_cnt (raw w);; mret a)
     (λ r s', r = a ∧ Inv Ss Ws (member_obls (MRc w) ++ E) s' ∧ same_values s s' ∧
              announcements s' = announcements s ∧ potential E s' = potential E s) s.
Proof.
  intros Hinv Hheld Hf. rewrite rc_obls.
  destruct (is_null w) eqn:Hw; [by wp_step|]. specialize (Hheld eq_refl).
  destruct (Inv_on_heap _ _ _ _ _ _ Hinv Hheld) as [o Ho].
  wp_step. eapply wp_mono; [eapply increment_ref_ok; [done..|by eapply strong_room_fits]|].
  intros b s' (-> & Hsv & Ha & Hpot & Hinv'). wp_step.
  destruct (Nat.eqb_spec (total (on (raw w) decrement_strong_count) E s) 0) as [?|_]; [lia|]. done.
Qed.

Lemma weak_addref_ok Ss Ws E w s :
  Inv Ss Ws E s → (is_null w = false → is_Some (heap s !! raw w)) → fits (potential E s) →
  wp (weak_make w addref_yes)
     (λ r s', r = w ∧ Inv Ss Ws (member_obls (MWeak w) ++ E) s' ∧ same_values s s' ∧
              announcements s' = announcements s ∧ potential E s' = potential E s) s.
Proof.
  intros Hinv Hheld Hf. unfold weak_make. rewrite weak_obls.
  destruct (is_null w) eqn:Hw; [by wp_step|]. destruct (Hheld eq_refl) as [o Ho].
  wp_step. eapply wp_mono; [eapply increment_weak_ok; [done..|by eapply weak_room_fits]|].
  intros b s' (-> & Hsv & Ha & Hpot & Hinv'). by wp_step.
Qed.

(** Giving a reference up. *)
Lemma drop_ref_ok Ss Ws E w s :
  (tid < length (num_allocated s))%nat → Inv Ss Ws (member_obls (MRc w) ++ E) s →
  (potential (member_obls (MRc w) ++ E) s ≤ n)%nat →
  wp (when (negb (is_null w)) (decrement_ref_cnt mm tid (raw w)))
     (λ _ s', kept_safe Ss Ws E s s' ∧ (potential E s' ≤ potential E s)%nat) s.
Proof.
  intros Htid Hinv Hpot. rewrite rc_obls in *. destruct (is_null w) eqn:Hw; simpl in *.
  - wp_steps. split; [by apply kept_safe_refl|done].
  - eapply wp_mono; [apply (decrement_ref_ok Ss Ws n); [apply manager_ok|done..]|].
    intros u s' [? ? ? _]. split; [|done]. eapply kept_safe_intro; [done..|].
    intros p Hp. eapply Inv_strong_live; [done|by right].
Qed.

Lemma drop_weak_ok Ss Ws E w s :
  (tid < length (num_allocated s))%nat → Inv Ss Ws (member_obls (MWeak w) ++ E) s →
  wp (when (negb (is_null w)) (decrement_weak_cnt tid (raw w)))
     (λ _ s', kept_safe Ss Ws E s s' ∧ (potential E s' ≤ potential E s)%nat) s.
Proof.
  intros Htid Hinv. rewrite weak_obls in *. destruct (is_null w) eqn:Hw; simpl in *.
  - wp_steps. split; [by apply kept_safe_refl|done].
  - eapply wp_mono; [by apply (decrement_weak_ok Ss Ws)|].
    intros u s' [? ? ? _]. split; [|done]. eapply kept_safe_intro; [done..|].
    intros p Hp. eapply Inv_strong_live; [done|by right].
Qed.

(** [lock] gives a reference exactly when the strong count is not zero. *)
Lemma weak_lock_ok Ss Ws E w s :
  Inv Ss Ws E s → (is_null w = false → ∃ o, heap s !! raw w = Some o ∧ strong_room o) →
  wp (weak_lock w)
     (λ r s', r = (if is_null w || (total (on (V := V) (X := X) (raw w) decrement_strong_count) E s =? 0)%nat
                   then 0 else w) ∧
              Inv Ss Ws (member_obls (MRc r) ++ E) s' ∧ same_values s s' ∧
              announcements s' = announcements s ∧ potential E s' = potential E s) s.
Proof.
  intros Hinv Ho. unfold weak_lock. destruct (is_null w) eqn:Hw; simpl.
  - wp_step. rewrite rc_obls. unfold is_null, rc_null. rewrite raw_aligned by done. done.
  - destruct (Ho eq_refl) as (o & Hho & Hroom). wp_step. eapply wp_mono; [by eapply increment_ref_ok|].
    intros b s' (-> & Hsv & Ha & Hpot & Hinv').
    destruct (_ =? 0)%nat; simpl in *; unfold rc_make; wp_step; (split; [done|]); rewrite rc_obls.
    + unfold is_null, rc_null. by rewrite raw_aligned by done.
    + by rewrite Hw.
Qed.

(** A new object has one reference, the one of the pointer returned; the
    references of its members are handed over to it. *)
Lemma make_shared_ok Ss Ws E (v : payload V) s :
  (tid < length (num_allocated s))%nat → can_create (announcements s) tid →
  Inv Ss Ws (members_obls (members v) ++ E) s →
  wp (make_shared tid v)
     (λ p s', Inv Ss Ws (member_obls (MRc p) ++ E) s' ∧ is_null p = false ∧ raw p = p ∧ heap s !! p = None ∧
              (∃ o, heap s' !! p = Some o ∧ storage o = Some v) ∧
              (∀ q, q ≠ p → heap s' !! q = heap s !! q) ∧ cells s' = cells s ∧
              length (num_allocated s') = length (num_allocated s) ∧ in_progress s' = in_progress s ∧
              potential (member_obls (MRc p) ++ E) s' = (2 + potential (members_obls (members v) ++ E) s)%nat ∧
              still_read (announcements s) (announcements s')) s.
Proof.
  intros Htid Hcc Hinv. unfold make_shared. wp_step. eapply wp_mono; [by apply create_object_ok|].
  intros p s' (Hinv' & Hp & Hraw & Hfresh & Hrest). unfold rc_make. wp_step. rewrite rc_obls.
  assert (is_null p = false) as -> by (unfold is_null; rewrite Hraw; by apply Z.eqb_neq).
  rewrite Hraw. simpl. tauto.
Qed.

(** Reading through a pointer whose object is protected succeeds. *)
Lemma rc_deref_ok Ss Ws E w s :
  Inv Ss Ws E s → live s (raw w) →
  wp (rc_deref w) (λ v s', s' = s ∧ ∃ o, heap s !! raw w = Some o ∧ storage o = Some v) s.
Proof.
  intros Hinv (o & v & Ho & Hv). unfold rc_deref. wp_step.
  eapply wp_deref; [done|by eapply Inv_nonnull|]. rewrite Hv. wp_step. eauto.
Qed.

Lemma same_values_kept Ss Ws E0 E s s' :
  Inv Ss Ws E0 s → Inv Ss Ws E s' → same_values s s' → announcements s' = announcements s →
  (∀ p, OStrong p ∈ E → live s p) → kept_safe Ss Ws E s s'.
Proof. intros ????. eapply kept_safe_intro; [done..|]. by apply same_values_stable. Qed.

Lemma rc_held_live Ss Ws E s w :
  Inv Ss Ws E s → (0 < total (on (raw w) decrement_strong_count) E s)%nat → live s (raw w).
Proof. intros Hinv HS. by apply (Inv_live Ss Ws E s _ decrement_strong_count). Qed.

(** Copy assignment takes the new reference before it gives up the old one, so
    it works when both pointers are to the same object. *)
Lemma rc_assign_copy_ok Ss Ws E w other s :
  (tid < length (num_allocated s))%nat → Inv Ss Ws (member_obls (MRc w) ++ E) s →
  (is_null other = false →
   (0 < total (on (raw other) decrement_strong_count) (member_obls (MRc w) ++ E) s)%nat) →
  fits (potential (member_obls (MRc w) ++ E) s) →
  (potential (member_obls (MRc w) ++ E) s + 2 ≤ n)%nat →
  wp (rc_assign_copy mm tid w other)
     (λ r s', r = other ∧ kept_safe Ss Ws (member_obls (MRc other) ++ E) s s' ∧
              (potential E s' ≤ potential E s)%nat) s.
Proof.
  intros Htid Hinv Hheld Hf Hpot. unfold rc_assign_copy. wp_step.
  eapply wp_mono; [by apply (addref_ok tt Ss Ws (member_obls (MRc w) ++ E) other)|].
  intros _ s1 (_ & Hinv1 & Hsv & Ha & Hpot1).
  apply (Inv_perm _ _ _ (member_obls (MRc w) ++ member_obls (MRc other) ++ E)) in Hinv1;
    [|by rewrite !app_assoc, (Permutation_app_comm (member_obls (MRc other)))].
  assert (∀ p, OStrong p ∈ member_obls (MRc other) ++ E → live s p) as Hlive.
  { intros p [Hp|Hp]%elem_of_app.
    - rewrite rc_obls in Hp. destruct (is_null other); [by apply elem_of_nil in Hp|].
      apply list_elem_of_singleton in Hp as [= ->]. eapply rc_held_live; [exact Hinv|auto].
    - eapply Inv_strong_live; [exact Hinv|]. apply elem_of_app. by right. }
  assert (potential (member_obls (MRc other) ++ E) s1 ≤ S (potential E s1))%nat as Hp2
    by (rewrite potential_app, rc_obls; destruct (is_null other); simpl; lia).
  rewrite !potential_app in *. wp_step. eapply wp_mono.
  { apply drop_ref_ok; [by rewrite (sv_threads _ _ Hsv)|exact Hinv1|].
    rewrite potential_app. rewrite (potential_app (member_obls (MRc other))). lia. }
  intros _ s2 [Hk Hpot2]. wp_step. split; [done|]. rewrite potential_app in Hpot2. split.
  - destruct Hk as [Hinv2 Hst2 _ _]. eapply kept_safe_intro; [exact Hinv|done| |done].
    etrans; [by apply same_values_stable|done].
  - rewrite potential_app in Hpot2. lia.
Qed.

End owning_ok.
