(* ===== verification/SnapshotPtr.v ===== *)
(** * Snapshots
    ([snapshot_ptr] of src/include/cdrc/snapshot_ptr.h and [weak_snapshot_ptr]
    of src/include/cdrc/weak_snapshot_ptr.h)

    A snapshot is an acquired pointer of the backend: null, protected by an
    announcement, or (when the backend had no announcement to spare) the owner
    of a reference. *)

From S2P Require Import Prelude StickyCounter CountedObject MemoryManager Accounting ManagerSafety AtomicLoc Backend Reclamation RcPtr.
Local Open Scope Z_scope.

Section snapshot.
  Context {V X En : Type} `{Pol : !Policy} `{Sch : !Scheme V X En} `{Back : !Backend V X En}.
  Context (self : derived V X En) (tid : nat).
  Local Abbreviation M := (M (state V X En)).

(** ** snapshot_ptr *)

Definition snap_null : acquired := acq_null.

(** [snapshot_ptr(snapshot_ptr&&)]: the new snapshot and the moved-from one. *)
Definition snap_move (other : acquired) : acquired * acquired := (other, acq_null).

(** [clear()], which the destructor calls. *)
Definition snap_clear (a : acquired) : M acquired :=
  let ptr := acq_value a in
  when (negb (acq_is_protected a) && negb (is_null ptr)) (decrement_ref_cnt self tid (raw ptr));;
  acq_clear a.

Definition snap_swap (a other : acquired) : acquired * acquired := (other, a).

(** [operator=(snapshot_ptr&&)]: this snapshot and the other. *)
Definition snap_assign_move (a other : acquired) : M (acquired * acquired) :=
  a ← snap_clear a;
  mret (snap_swap a other).

(** [operator*] *)
Definition snap_deref (a : acquired) : M (payload V) :=
  o ← deref (raw (acq_value a));
  match storage o with Some v => mret v | None => fail DestroyedObject end.

(** [get()] and [operator->] *)
Definition snap_get (a : acquired) : Z :=
  let ptr := acq_value a in if is_null ptr then 0 else raw ptr.

Definition snap_bool (a : acquired) : bool := negb (is_null (acq_value a)).
Definition snap_eq (a other : acquired) : bool := snap_get a =? snap_get other.
Definition snap_get_counted (a : acquired) : Z := acq_value a.
Definition snap_is_protected (a : acquired) : bool := acq_is_protected a.

(** [release()]: the word, which now owns a reference, and the snapshot
    afterwards. *)
Definition snap_release (a : acquired) : M (Z * acquired) :=
  let old_ptr := acq_value a in
  (if acq_is_protected a then increment_ref_cnt (raw old_ptr);; mret tt else mret tt);;
  a ← acq_clear a;
  mret (old_ptr, a).

(** ** weak_snapshot_ptr *)

Definition weak_snap_clear (a : acquired) : M acquired :=
  let ptr := acq_value a in
  when (negb (acq_is_protected a) && negb (is_null ptr)) (decrement_ref_cnt self tid (raw ptr));;
  acq_clear a.

Definition weak_snap_assign_move (a other : acquired) : M (acquired * acquired) :=
  a ← weak_snap_clear a;
  mret (snap_swap a other).

Definition weak_snap_lock (a : acquired) : M Z :=
  let ptr := acq_value a in
  if is_null ptr then mret rc_null
  else b ← increment_ref_cnt (raw ptr);
       if b : bool then rc_make ptr addref_no else mret rc_null.

Definition weak_snap_deref (a : acquired) : M (payload V) :=
  o ← deref (raw (acq_value a));
  match storage o with Some v => mret v | None => fail DestroyedObject end.

Definition weak_snap_get (a : acquired) : Z :=
  let ptr := acq_value a in if is_null ptr then 0 else raw ptr.

Definition weak_snap_bool (a : acquired) : bool := negb (is_null (acq_value a)).
Definition weak_snap_eq (a other : acquired) : bool := weak_snap_get a =? weak_snap_get other.

Definition weak_snap_release (a : acquired) : M (Z * acquired) :=
  let old_ptr := acq_value a in
  if acq_is_protected a then
    b ← increment_ref_cnt (raw old_ptr);
    a ← acq_clear a;
    mret (if b : bool then old_ptr else 0, a)
  else
    a ← acq_clear a;
    mret (old_ptr, a).

End snapshot.

(** ** What a snapshot holds *)

Section snapshot_ok.
  Context {V X En : Type} `{Pol : !Policy} `{Sch : !Scheme V X En} `{Laws : !SchemeLaws V X En}
    `{Back : !Backend V X En} `{BLaws : !BackendLaws V X En}.
  Context (n : nat) (tid : nat).
  Local Abbreviation st := (state V X En).
  Local Abbreviation mm := (manager n).
  Implicit Types (s : st) (E : list (obl En)) (Ss Ws : list snap) (a : acquired) (t : snap).

(** Clearing an announced snapshot frees its announcement only. *)
Lemma snap_clear_token_ok Ss Ws E a t s :
  acq_token a t → Inv (t :: Ss) Ws E s → (∀ t', t' ∈ Ss ∨ t' ∈ Ws → apart t t') →
  wp (snap_clear mm tid a)
     (λ b s', b = acq_null ∧ Inv Ss Ws E s' ∧ same_values s s' ∧ potential E s' = potential E s ∧
              reads_kept (announcements s) (announcements s')) s.
Proof.
  intros Ht Hinv Hap. destruct (acq_token_ok a t Ht) as [_ Hp]. unfold snap_clear. rewrite Hp. simpl.
  wp_steps. pose proof Hinv as [_ _ [_ Hs _]]. destruct (Hs t) as [[Hok _] _]; [by left|].
  eapply acq_clear_ok; [done..|]. by eapply Inv_drop_snap.
Qed.

(** Clearing a weak snapshot that is announced. *)
Lemma weak_snap_clear_token_ok Ss Ws E a t s :
  acq_token a t → Inv Ss (t :: Ws) E s → (∀ t', t' ∈ Ss ∨ t' ∈ Ws → apart t t') →
  wp (weak_snap_clear mm tid a)
     (λ b s', b = acq_null ∧ Inv Ss Ws E s' ∧ same_values s s' ∧ potential E s' = potential E s ∧
              reads_kept (announcements s) (announcements s')) s.
Proof.
  intros Ht Hinv Hap. destruct (acq_token_ok a t Ht) as [_ Hp]. unfold weak_snap_clear. rewrite Hp. simpl.
  wp_steps. pose proof Hinv as [_ _ [_ _ Hw]]. destruct (Hw t) as [[Hok _] _]; [by left|].
  eapply acq_clear_ok; [done..|]. by eapply Inv_drop_weak_snap.
Qed.

(** Clearing a snapshot that is not announced gives up its reference, if any. *)
Lemma snap_clear_counted_ok Ss Ws E a s :
  (tid < length (num_allocated s))%nat → acq_is_protected a = false ∨ is_null (acq_value a) = true →
  Inv Ss Ws (member_obls (MRc (acq_value a)) ++ E) s →
  (potential (member_obls (MRc (acq_value a)) ++ E) s ≤ n)%nat →
  wp (snap_clear mm tid a)
     (λ b s', b = acq_null ∧ kept_safe Ss Ws E s s' ∧ (potential E s' ≤ potential E s)%nat) s.
Proof.
  intros Htid Hpr Hinv Hpot. unfold snap_clear. wp_step.
  replace (negb (acq_is_protected a) && negb (is_null (acq_value a))) with (negb (is_null (acq_value a)))
    by (by destruct Hpr as [-> | ->]; rewrite ?andb_false_r).
  eapply wp_mono; [by apply drop_ref_ok|]. intros _ s' [Hk Hp].
  eapply wp_mono; [apply acq_clear_free|].
  - destruct Hpr as [?|Hn]; [by left|right; by apply Z.eqb_eq].
  - by intros b s'' [-> ->].
Qed.

(** A protected value can be read. *)
Lemma snap_deref_ok Ss Ws E a s :
  Inv Ss Ws E s → live s (raw (acq_value a)) →
  wp (snap_deref a) (λ v s', s' = s ∧ ∃ o, heap s !! raw (acq_value a) = Some o ∧ storage o = Some v) s.
Proof. intros Hinv Hl. exact (rc_deref_ok Ss Ws E (acq_value a) s Hinv Hl). Qed.

End snapshot_ok.
