(* ===== verification/AtomicRcPtr.v ===== *)
(** * Atomic strong pointers
    ([atomic_rc_ptr] of src/include/cdrc/atomic_rc_ptr.h)

    The location of the pointer is a [loc]; [self] is the memory manager and
    [tid] the calling thread.  The arguments of the templated
    [compare_and_swap] are the word of [expected], and the word of [desired]
    with its [is_protected()]. *)

From S2P Require Import Prelude StickyCounter CountedObject MemoryManager Accounting ManagerSafety AtomicLoc Backend Reclamation RcPtr SnapshotPtr.
Local Open Scope Z_scope.

Section atomic_rc_ptr.
  Context {V X En : Type} `{Pol : !Policy} `{Sch : !Scheme V X En} `{Back : !Backend V X En}.
  Context (self : derived V X En) (tid : nat).
  Local Abbreviation M := (M (state V X En)).

(** [if (ptr != nullptr) mm.delayed_decrement_ref_cnt(ptr)] *)
Definition arc_drop (ptr : Z) : M unit :=
  when (negb (is_null ptr)) (delayed_decrement_ref_cnt self tid (raw ptr)).

Definition arc_destruct (l : loc) : M unit :=
  ptr ← loc_load l;
  arc_drop ptr.

(** [atomic_rc_ptr(rc_ptr_t desired)] for a new pointer outside the objects. *)
Definition arc_new (i : nat) (desired : Z) : M unit :=
  let '(ptr, _) := rc_release desired in
  modify (λ s, set_cells (<[i := MAtomicRc ptr]> (cells s)) s).

(** The destructor of such a pointer, whose storage ends with it. *)
Definition arc_delete (i : nat) : M unit :=
  arc_destruct (LCell i);;
  modify (λ s, set_cells (delete i (cells s)) s).

(** [store(nullptr)] *)
Definition arc_store_null (l : loc) : M unit :=
  old_ptr ← loc_exchange l 0;
  arc_drop old_ptr.

(** [store(rc_ptr_t)] and [operator=] *)
Definition arc_store (l : loc) (desired : Z) : M unit :=
  let '(new_ptr, _) := rc_release desired in
  old_ptr ← loc_exchange l new_ptr;
  arc_drop old_ptr.

Definition arc_store_non_racy (l : loc) (desired : Z) : M unit :=
  let '(new_ptr, _) := rc_release desired in
  old_ptr ← loc_load l;
  loc_store l new_ptr;;
  arc_drop old_ptr.

(** [store(const snapshot_ptr_t&)] *)
Definition arc_store_snapshot (l : loc) (desired : acquired) : M unit :=
  let new_ptr := snap_get_counted desired in
  if snap_is_protected desired then
    old_ptr ← loc_exchange l new_ptr;
    when (negb (old_ptr =? new_ptr))
      ((if is_null new_ptr then mret tt else increment_ref_cnt (raw new_ptr);; mret tt);;
       arc_drop old_ptr)
  else
    (if is_null new_ptr then mret tt else increment_ref_cnt (raw new_ptr);; mret tt);;
    old_ptr ← loc_exchange l new_ptr;
    arc_drop old_ptr.

Definition arc_load (l : loc) : M Z :=
  acquired_ptr ← mm_acquire tid l;
  result ← rc_make (acq_value acquired_ptr) addref_yes;
  acq_destruct acquired_ptr;;
  mret result.

Definition arc_get_snapshot (l : loc) : M acquired := mm_protect_snapshot tid l.

Definition compare_and_swap_impl (l : loc) (expected_ptr desired_ptr : Z) : M bool :=
  r ← loc_compare_exchange l expected_ptr desired_ptr;
  if fst r : bool then
    arc_drop expected_ptr;;
    mret true
  else mret false.

(** [compare_and_swap(const P1& expected, const P2& desired)] *)
Definition compare_and_swap (l : loc) (expected desired : Z) (desired_protected : bool) : M bool :=
  reservation ← (if negb desired_protected then mm_reserve tid desired else mret mm_reserve_nothing);
  b ← compare_and_swap_impl l expected desired;
  (if b : bool then
     (if is_null desired then mret tt else increment_ref_cnt (raw desired);; mret tt)
   else mret tt);;
  acq_destruct reservation;;
  mret b.

(** [compare_and_swap(const P1& expected, P2&& desired)]: the result and
    [desired] afterwards. *)
Definition compare_and_swap_move (l : loc) (expected desired : Z) : M (bool * Z) :=
  b ← compare_and_swap_impl l expected desired;
  mret (b, if b : bool then snd (rc_release desired) else desired).

(** [compare_exchange_weak] with an [rc_ptr_t] as [expected]: the result and
    [expected] afterwards.  The temporary that [load] returns is moved from and
    then destroyed. *)
Definition compare_exchange_weak (l : loc) (expected desired : Z) : M (bool * Z) :=
  b ← compare_and_swap l expected desired false;
  if b : bool then mret (true, expected)
  else
    loaded ← arc_load l;
    r ← rc_assign_move self tid expected loaded;
    rc_clear self tid (snd r);;
    mret (false, fst r).

(** [compare_exchange_weak] with a [snapshot_ptr_t] as [expected]. *)
Definition compare_exchange_weak_snapshot (l : loc) (expected : acquired) (desired : Z) :
    M (bool * acquired) :=
  b ← compare_and_swap l (snap_get_counted expected) desired false;
  if b : bool then mret (true, expected)
  else
    taken ← arc_get_snapshot l;
    r ← snap_assign_move self tid expected taken;
    snap_clear self tid (snd r);;
    mret (false, fst r).

(** The loop of [swap]: [desired.ptr] is the expected word of the
    [compare_exchange_weak]. *)
Fixpoint swap_loop (rounds : nat) (l : loc) (desired desired_ptr : Z) : M Z :=
  match rounds with
  | O => fail OutOfFuel
  | S rounds' =>
      r ← loc_compare_exchange l desired desired_ptr;
      if fst r : bool then mret (snd r) else swap_loop rounds' l (snd r) desired_ptr
  end.

(** [swap(rc_ptr_t& desired)]: [desired] afterwards. *)
Definition arc_swap (rounds : nat) (l : loc) (desired : Z) : M Z :=
  let '(desired_ptr, desired) := rc_release desired in
  current_ptr ← loc_load l;
  tmp ← rc_make current_ptr addref_no;
  r ← rc_assign_move self tid desired tmp;
  swap_loop rounds l (fst r) desired_ptr.

Definition arc_exchange (l : loc) (desired : Z) : M Z :=
  let '(new_ptr, _) := rc_release desired in
  old_ptr ← loc_exchange l new_ptr;
  rc_make old_ptr addref_no.

(** [operator==(p, nullptr)] *)
Definition arc_eq_null (l : loc) : M bool :=
  p ← loc_load l;
  mret (is_null p).

End atomic_rc_ptr.

(** ** Moving obligations between owning and atomic pointers *)

Section arc_ok.
  Context {V X En : Type} `{Pol : !Policy} `{Sch : !Scheme V X En} `{Laws : !SchemeLaws V X En}
    `{Back : !Backend V X En} `{BLaws : !BackendLaws V X En}.
  Context (n : nat) (tid : nat).
  Local Abbreviation st := (state V X En).
  Local Abbreviation mm := (manager n).
  Implicit Types (s : st) (E : list (obl En)) (Ss Ws : list snap) (w : Z) (l : loc).

Lemma arc_obls w :
  member_obls (En := En) (MAtomicRc w) = if is_null w then [] else [OPend (raw w) decrement_strong_count].
Proof. done. Qed.

(** Two obligations with the same action are interchangeable for the counts. *)
Lemma Inv_retarget Ss Ws E a b s :
  target a = target b → target a ≠ None →
  (∀ t ty, t ∈ Ss ∨ t ∈ Ws → (0 < total (pins (announcements s) t ty) (a :: E) s)%nat →
           (0 < total (pins (announcements s) t ty) (b :: E) s)%nat) →
  Inv Ss Ws (a :: E) s → Inv Ss Ws (b :: E) s.
Proof.
  intros Hab Hne Hp [Hb Hobj [H0 Hs Hw]].
  assert (∀ q ty, total (on q ty) (b :: E) s = total (on q ty) (a :: E) s) as Hon
    by (intros; rewrite !total_cons; unfold on; by rewrite Hab).
  assert (∀ q, total (destroying q) (b :: E) s = total (destroying q) (a :: E) s) as Hd
    by (intros; rewrite !total_destroying_target; congruence || done).
  split; [done| |split; [done|..]].
  - intros q. eapply obj_ok_ext; [done|intros; apply Hon|apply Hd|apply Hobj].
  - intros t Ht. destruct (Hs t Ht). eauto.
  - intros t Ht. destruct (Hw t Ht) as (? & ? & Hor). split; [done|]. split; [eauto|].
    rewrite Hon. destruct Hor; eauto.
Qed.

(** The reference of an owning pointer can become that of a location. *)
Lemma Inv_to_pend Ss Ws E w s :
  Inv Ss Ws (member_obls (MRc w) ++ E) s → Inv Ss Ws (member_obls (MAtomicRc w) ++ E) s.
Proof.
  rewrite rc_obls, arc_obls. destruct (is_null w); [done|]. simpl.
  apply Inv_retarget; [done|done|]. intros t ty _. rewrite !total_cons. simpl. lia.
Qed.

(** The converse holds when no snapshot relies on the location. *)
Lemma Inv_of_pend Ss Ws E w s :
  (∀ t, t ∈ Ss → snap_ptr t ≠ raw w) →
  Inv Ss Ws (member_obls (MAtomicRc w) ++ E) s → Inv Ss Ws (member_obls (MRc w) ++ E) s.
Proof.
  rewrite rc_obls, arc_obls. destruct (is_null w); [done|]. simpl. intros Hno Hinv.
  pose proof Hinv as [Hb Hobj [H0 Hs Hw]].
  assert (∀ q ty, total (on q ty) (OStrong (raw w) :: E) s =
                  total (on q ty) (OPend (raw w) decrement_strong_count :: E) s) as Hon
    by (intros; by rewrite !total_cons).
  split; [done| |split; [done|..]].
  - intros q. eapply obj_ok_ext; [done|intros; apply Hon|done|apply Hobj].
  - intros t Ht. destruct (Hs t Ht) as [? Hp]. split; [done|]. revert Hp. rewrite !total_cons. simpl.
    rewrite bool_decide_eq_false_2; [done|]. intros [? _]. by apply (Hno t).
  - intros t Ht. destruct (Hw t Ht) as (? & Hp & Hor). split; [done|]. split.
    + revert Hp. rewrite !total_cons. simpl. rewrite bool_decide_eq_false_2; [done|]. by intros [].
    + rewrite Hon. destruct Hor as [?|Hp']; [by left|right]. revert Hp'. rewrite !total_cons. simpl.
      rewrite bool_decide_eq_false_2; [done|]. by intros [].
Qed.

(** Retiring the reference of a word taken out of a location. *)
Lemma arc_drop_ok Ss Ws E w s :
  (tid < length (num_allocated s))%nat → Inv Ss Ws (member_obls (MAtomicRc w) ++ E) s →
  (potential (member_obls (MAtomicRc w) ++ E) s ≤ n)%nat →
  wp (arc_drop mm tid w)
     (λ _ s', kept_safe Ss Ws E s s' ∧
              (potential E s' ≤ potential (member_obls (MAtomicRc w) ++ E) s)%nat) s.
Proof.
  intros Htid Hinv Hpot.
  eapply wp_mono; [apply (destruct_member_ok Ss Ws n _ (manager_ok Ss Ws n) E tid (MAtomicRc w)); done|].
  intros u s' Ha. split; [|by destruct Ha].
  eapply after_kept_safe; [exact Hinv| |exact Ha]. intros p Hp. apply elem_of_app. by right.
Qed.

(** Replacing the word of a location by one whose reference the caller owns. *)
Lemma arc_replace_ok Ss Ws E l w w0 s :
  (tid < length (num_allocated s))%nat → Inv Ss Ws (member_obls (MRc w) ++ E) s →
  member_at s l (MAtomicRc w0) → (S (potential (member_obls (MRc w) ++ E) s) ≤ n)%nat →
  wp (old_ptr ← loc_exchange l w; arc_drop mm tid old_ptr)
     (λ _ s', kept_safe Ss Ws E (put_member l (MAtomicRc w) s) s' ∧
              (potential E s' ≤ S (potential (member_obls (MRc w) ++ E) s))%nat) s.
Proof.
  intros Htid Hinv Hm Hpot. apply Inv_to_pend in Hinv.
  assert (potential (member_obls (MAtomicRc w) ++ E) s ≤ S (potential (member_obls (MRc w) ++ E) s))%nat as Hle
    by (rewrite !potential_app, rc_obls, arc_obls; destruct (is_null w); simpl; lia).
  wp_step. eapply (loc_exchange_ok Ss Ws E s l (MAtomicRc w0) w); [done..|]. simpl. intros Hinv' Hpot'.
  eapply wp_mono; [apply arc_drop_ok; [|exact Hinv'|lia]|].
  - destruct (put_member_rest s l (MAtomicRc w)) as (_ & -> & _). done.
  - intros _ s' [? ?]. split; [done|lia].
Qed.

(** A location's object has a strong reference. *)
Lemma member_strong E l w s :
  member_at s l (MAtomicRc w) → is_null w = false →
  (0 < total (on (raw w) decrement_strong_count) E s)%nat.
Proof.
  intros Hm Hw. eapply total_member_on; [exact Hm|]. by rewrite arc_obls, Hw.
Qed.

Lemma arc_load_ok Ss Ws E l w s :
  (tid < length (num_allocated s))%nat → may_read (announcements s) tid →
  Inv Ss Ws E s → member_at s l (MAtomicRc w) → fits (potential E s) →
  wp (arc_load tid l)
     (λ r s', r = w ∧ Inv Ss Ws (member_obls (MRc w) ++ E) s' ∧ same_values s s' ∧
              potential E s' = potential E s ∧ reads_kept (announcements s) (announcements s')) s.
Proof.
  intros Htid Hmr Hinv Hm Hf. unfold arc_load. wp_step. eapply wp_mono; [by eapply acquire_ok|].
  intros a s1 ([Hv|[[x Hx] _]] & Htr & Hinv1 & Hsv1 & Hpot1 & Hmr1); [|done]. simpl in Hv. rewrite Hv.
  wp_step. eapply wp_mono.
  { eapply (addref_ok w Ss Ws E w); [done| |by rewrite Hpot1]. intros Hw.
    eapply member_strong; [|done]. by eapply same_values_member. }
  intros r s2 (-> & Hinv2 & Hsv2 & Ha2 & Hpot2). wp_step.
  assert (same_values s s2) as Hsv by by etrans.
  eapply wp_mono; [eapply (acq_destruct_ok Ss Ws _ tid); [by rewrite (sv_threads _ _ Hsv)|by rewrite Ha2; apply Hmr1|done|exact Hinv2]|].
  intros _ s3 (Hinv3 & Hsv3 & Hpot3 & Hmr3). wp_step. split; [done|]. split; [done|]. split; [by etrans|].
  rewrite Ha2 in Hmr3. split; [|by eapply reads_kept_trans]. rewrite !potential_app in Hpot3. lia.
Qed.

(** [compare_and_swap_impl] when the reference of [desired] is the caller's. *)
Lemma cas_impl_ok Ss Ws E l e w w0 s :
  (tid < length (num_allocated s))%nat → Inv Ss Ws (member_obls (MRc w) ++ E) s →
  member_at s l (MAtomicRc w0) → (S (potential (member_obls (MRc w) ++ E) s) ≤ n)%nat →
  wp (compare_and_swap_impl mm tid l e w)
     (λ b s', b = (w0 =? e) ∧
        if b then kept_safe Ss Ws E (put_member l (MAtomicRc w) s) s' ∧
                  (potential E s' ≤ S (potential (member_obls (MRc w) ++ E) s))%nat
        else s' = s) s.
Proof.
  intros Htid Hinv Hm Hpot. unfold compare_and_swap_impl. wp_step.
  eapply wp_compare_exchange; [done..|]. simpl. destruct (Z.eqb_spec w0 e) as [<-|Hne]; [|by wp_step].
  pose proof (arc_replace_ok Ss Ws E l w w0 s Htid Hinv Hm Hpot) as Hr.
  simpl. wp_step. unfold wp, mbind, M_bind in Hr.
  assert (loc_exchange l w s = Ok (w0, put_member l (MAtomicRc w) s)) as Hx.
  { destruct (proj1 (wp_ok (loc_exchange l w) (λ r s', r = w0 ∧ s' = put_member l (MAtomicRc w) s) s)) as (r & s' & Hx & -> & ->); [|done].
    by eapply wp_exchange. }
  rewrite Hx in Hr. eapply wp_mono; [exact Hr|]. intros u s' Hs'. by wp_step.
Qed.

(** The object that contains a location stays alive: it is outside the managed
    objects, or somebody protects its object. *)
Definition loc_held Ss Ws E l : Prop :=
  match l with
  | LCell _ => True
  | LField p _ => (∃ t, (t ∈ Ss ∨ t ∈ Ws) ∧ snap_ptr t = p) ∨ OStrong p ∈ E
  end.

Lemma evolves_member Ss Ws E s s' l m :
  preserves Ss Ws E s s' → loc_held Ss Ws E l → member_at s l m → member_at s' l m.
Proof.
  intros [_ Hst Hsn Hstr] Hheld. destruct l as [i|p k]; simpl in *; [by rewrite (ev_cells _ _ Hst)|].
  intros (Hp & o & v & Ho & Hv & Hm). split; [done|].
  assert (same_value s s' p) as (o1 & o' & v1 & Ho1 & Ho' & Hv1 & Hv')
    by (destruct Hheld as [(t & Ht & <-)|?]; eauto).
  simplify_eq. eauto.
Qed.

Lemma loc_exchange_state Ss Ws E l w w0 s :
  Inv Ss Ws (member_obls (MRc w) ++ E) s → member_at s l (MAtomicRc w0) →
  ∃ E0, Inv Ss Ws E0 (put_member l (MAtomicRc w) s).
Proof.
  intros Hinv%Inv_to_pend Hm. exists (member_obls (MAtomicRc w0) ++ E).
  apply (put_member_inv _ _ _ _ _ _ _ (MAtomicRc w) Hinv Hm). intros g. rewrite !countb_app. lia.
Qed.

Lemma live_put s l m p : live s p → live (put_member l m s) p.
Proof.
  intros (o & v & Ho & Hv). destruct l as [i|q k]; simpl; [by exists o, v|].
  destruct (heap s !! q) as [oq|] eqn:Hq; [|by exists o, v].
  destruct (storage oq) as [vq|] eqn:Hvq; [|by exists o, v]. unfold live. simpl. rewrite lookup_insert.
  case_decide; [eexists _, _; split; [done|done]|by exists o, v].
Qed.

Lemma same_values_put s s' l m : same_values s s' → same_values (put_member l m s) (put_member l m s').
Proof.
  intros [Hc Hh Ht Hp Hd]. destruct l as [i|q k]; simpl; [by split; simpl; rewrite ?Hc|].
  pose proof (Hh q) as Hq. destruct (heap s !! q) as [o|] eqn:Ho, (heap s' !! q) as [o'|] eqn:Ho';
    simpl in Hq; [|done..|by split]. injection Hq as Hst Hb. rewrite Hst.
  destruct (storage o) as [v|] eqn:Hv; [|by split].
  split; simpl; [done| |done..]. intros p. rewrite !lookup_insert. case_decide; [|apply Hh].
  simpl. by rewrite Hb.
Qed.

Lemma compare_and_swap_ok Ss Ws E l e w w0 s :
  (tid < length (num_allocated s))%nat → may_read (announcements s) tid →
  Inv Ss Ws (member_obls (MRc w) ++ E) s → member_at s l (MAtomicRc w0) →
  loc_held Ss Ws E l →
  (potential (member_obls (MRc w) ++ E) s + 4 ≤ n)%nat → fits n →
  wp (compare_and_swap mm tid l e w false)
     (λ b s', (potential (member_obls (MRc w) ++ E) s' ≤ 3 + potential (member_obls (MRc w) ++ E) s)%nat ∧
        b = (w0 =? e) ∧ reads_kept (announcements s) (announcements s') ∧
        preserves Ss Ws (member_obls (MRc w) ++ E)
          (if b then put_member l (MAtomicRc w) s else s) s' ∧
        member_at s' l (MAtomicRc (if b then w else w0))) s.
Proof.
  intros Htid Hmr Hinv Hm Hheld Hpot Hf. unfold compare_and_swap. simpl. wp_step.
  eapply wp_mono; [by eapply reserve_ok|]. intros a s1 (Htr & Hinv1 & Hsv1 & Hpot1 & Hmr1).
  wp_step. eapply wp_mono.
  { eapply (cas_impl_ok Ss Ws E l e w w0); [by rewrite (sv_threads _ _ Hsv1)|done|by eapply same_values_member|lia]. }
  intros b s2 [-> Hcas]. destruct (Z.eqb_spec w0 e) as [<-|Hne].
  - destruct Hcas as [Hk Hpot2]. pose proof (kept_safe_preserves _ _ _ _ _ Hk) as Hpr.
    set (s1' := put_member l (MAtomicRc w) s1) in *.
    assert (member_at s2 l (MAtomicRc w)) as Hm2.
    { eapply evolves_member; [done..|]. eapply member_at_put, same_values_member; done. }
    pose proof (put_member_rest s1 l (MAtomicRc w)) as (Ha & Hth & _). fold s1' in Ha, Hth.
    assert (announcements s2 = announcements s1) as Ha2 by (rewrite <-Ha; apply (stable_ann _ _ (ks_stable _ _ _ _ _ Hk))).
    unfold fits in *. wp_step. eapply wp_mono.
    { eapply (addref_ok tt Ss Ws E w s2 (pr_inv _ _ _ _ _ Hpr)); [by intros; eapply member_strong|unfold fits; lia]. }
    intros _ s3 (_ & Hinv3 & Hsv3 & Ha3 & Hpot3). wp_step.
    assert (evolves s1' s3) as Hev3.
    { etrans; [by apply (pr_evolves _ _ _ _ _ Hpr)|by apply same_values_evolves]. }
    eapply wp_mono.
    { eapply (acq_destruct_ok Ss Ws _ tid); [|by rewrite Ha3, Ha2; apply Hmr1|done|exact Hinv3].
      by rewrite (ev_threads _ _ Hev3), Hth, (sv_threads _ _ Hsv1). }
    intros _ s4 (Hinv4 & Hsv4 & Hpot4 & Hmr4). rewrite Ha3, Ha2 in Hmr4. wp_step.
    split.
    { assert (potential (member_obls (MRc w) ++ E) s3 ≤ S (potential E s3))%nat
        by (rewrite potential_app, rc_obls; destruct (is_null w); simpl; lia). lia. }
    split; [done|].
    split; [by eapply reads_kept_trans|]. split.
    + destruct (loc_exchange_state Ss Ws E l w w0 s Hinv Hm) as [E0 Hinv0].
      eapply preserves_intro; [exact Hinv0|done| |].
      * etrans; [by apply same_values_evolves, same_values_put|]. etrans; [exact Hev3|by apply same_values_evolves].
      * intros p Hp. apply live_put. by eapply Inv_strong_live.
    + eapply same_values_member; [exact Hsv4|]. by eapply same_values_member.
  - subst s2. wp_step. wp_step.
    wp_step. eapply wp_mono; [eapply (acq_destruct_ok Ss Ws _ tid); [by rewrite (sv_threads _ _ Hsv1)|by apply Hmr1|done|exact Hinv1]|].
    intros _ s3 (Hinv3 & Hsv3 & Hpot3 & Hmr3). wp_step. split; [lia|]. split; [done|].
    split; [by eapply reads_kept_trans|]. split.
    + eapply preserves_intro; [exact Hinv|done| |intros; by eapply Inv_strong_live].
      by etrans; apply same_values_evolves.
    + eapply same_values_member; [|done]. by etrans.
Qed.

(** C19. [compare_and_swap] with an owning pointer as the new value.  It succeeds
    exactly when the location holds the expected word; then the location holds
    [desired], which has one reference more, and the reference the location
    had is retired; otherwise the location is unchanged.  In both cases the
    accounts balance and nothing protected loses its value, whatever the
    retirement ejects. *)
Theorem compare_and_swap_correct Ss Ws E l e w w0 s :
  (tid < length (num_allocated s))%nat → may_read (announcements s) tid →
  Inv Ss Ws (member_obls (MRc w) ++ E) s → member_at s l (MAtomicRc w0) →
  loc_held Ss Ws E l →
  (potential (member_obls (MRc w) ++ E) s + 4 ≤ n)%nat → fits n →
  wp (compare_and_swap mm tid l e w false)
     (λ b s', b = (w0 =? e) ∧ reads_kept (announcements s) (announcements s') ∧
        preserves Ss Ws (member_obls (MRc w) ++ E)
          (if b then put_member l (MAtomicRc w) s else s) s' ∧
        member_at s' l (MAtomicRc (if b then w else w0))) s.
Proof.
  intros. eapply wp_mono; [by apply (compare_and_swap_ok Ss Ws E l e w w0)|]. by intros b s' [_ ?].
Qed.

(** C20. [store] of an owning pointer: it always returns, the location holds the
    new word, whose reference the location takes over, and the reference it had
    is retired.  The accounts balance and nothing protected loses its value. *)
Theorem arc_store_correct Ss Ws E l w w0 s :
  (tid < length (num_allocated s))%nat → Inv Ss Ws (member_obls (MRc w) ++ E) s →
  member_at s l (MAtomicRc w0) → (potential (member_obls (MRc w) ++ E) s < n)%nat →
  wp (arc_store mm tid l w)
     (λ _ s', preserves Ss Ws E (put_member l (MAtomicRc w) s) s' ∧
              (loc_held Ss Ws E l → member_at s' l (MAtomicRc w)) ∧
              announcements s' = announcements s) s.
Proof.
  intros Htid Hinv Hm Hpot. eapply wp_mono; [by apply (arc_replace_ok Ss Ws E l w w0)|].
  intros u s' [Hk _]. pose proof (kept_safe_preserves _ _ _ _ _ Hk) as Hpr. split; [done|]. split.
  - intros Hheld. eapply evolves_member; [done..|]. by eapply member_at_put.
  - destruct (put_member_rest s l (MAtomicRc w)) as (<- & _).
    apply (stable_ann _ _ (ks_stable _ _ _ _ _ Hk)).
Qed.

(** C21. [load] returns an owning pointer to what the location holds, with a
    reference of its own, and changes no value, whatever the backend's
    [acquire] announces meanwhile. *)
Theorem arc_load_correct Ss Ws E l w s :
  (tid < length (num_allocated s))%nat → may_read (announcements s) tid →
  Inv Ss Ws E s → member_at s l (MAtomicRc w) → fits (potential E s) →
  wp (arc_load tid l)
     (λ r s', r = w ∧ Inv Ss Ws (member_obls (MRc w) ++ E) s' ∧ same_values s s' ∧
              reads_kept (announcements s) (announcements s')) s.
Proof.
  intros. eapply wp_mono; [by apply arc_load_ok|]. by intros r s' (? & ? & ? & _ & ?).
Qed.

(** [store_non_racy], which reads and writes separately, does what [store]
    does when nothing interferes. *)
Lemma arc_store_non_racy_store l w s : arc_store_non_racy mm tid l w s = arc_store mm tid l w s.
Proof.
  unfold arc_store_non_racy, arc_store. simpl. unfold loc_store, loc_load, loc_exchange.
  unfold mbind, M_bind. assert (∀ r s', read_member l s = Ok (r, s') → s' = s) as Hro.
  { intros r s'. destruct l as [i|p k]; simpl; unfold mbind, M_bind, gets; simpl.
    - destruct (cells s !! i); by intros [= _ ->].
    - unfold deref, mbind, M_bind, gets; simpl. destruct (p =? 0); [done|].
      destruct (heap s !! p) as [o|]; [|done]. simpl. destruct (storage o); [|done]. unfold at_.
      destruct (_ !! k); by intros [= _ ->]. }
  destruct (read_member l s) as [[m s1]|e] eqn:Hr; [|done]. rewrite (Hro _ _ eq_refl) in *.
  destruct (is_atomic m) eqn:Hat; [|done]. simpl. rewrite Hr, Hat.
  destruct (write_member _ _ s) as [[u s2]|e]; done.
Qed.

(** What [get_snapshot] returns: null when the location is, otherwise a snapshot
    of what it holds that is announced or owns a reference. *)
Lemma arc_get_snapshot_ok Ss Ws E l w s :
  (tid < length (num_allocated s))%nat → may_read (announcements s) tid →
  Inv Ss Ws E s → member_at s l (MAtomicRc w) → fits (potential E s) →
  wp (arc_get_snapshot tid l)
     (λ a s', same_values s s' ∧ reads_kept (announcements s) (announcements s') ∧
        if is_null w then (acq_value a = w ∨ acq_value a = 0) ∧ Inv Ss Ws E s' ∧ potential E s' = potential E s
        else acq_value a = w ∧
          ((∃ t, acq_token a t ∧ (∀ t', t' ∈ Ss ∨ t' ∈ Ws → apart t t') ∧
                 Inv (t :: Ss) Ws E s' ∧ potential E s' = potential E s) ∨
           (acq_is_protected a = false ∧ Inv Ss Ws (OStrong (raw w) :: E) s' ∧
            potential E s' = potential E s))) s.
Proof.
  intros Htid Hmr Hinv Hm Hf. eapply wp_mono; [eapply protect_strong_ok; [done..|]|].
  - intros o Ho. pose proof (Inv_nonnull _ _ _ _ _ _ Hinv Ho) as Hnz.
    eapply strong_room_fits; [done..| |done]. eapply member_strong; [done|]. by apply Z.eqb_neq.
  - intros a s' (Hsv & Hmr' & Hor). split; [done|]. split; [done|]. unfold is_null in *.
    by destruct (raw w =? 0).
Qed.

(** A snapshot of a null pointer is null, and so is its word up to the mark. *)
Lemma null_either (w v : Z) : is_null w = true → v = w ∨ v = 0 → is_null v = true.
Proof. intros Hw [-> | ->]; [done|]. unfold is_null. by rewrite raw_aligned. Qed.

Lemma snapshot_value (w v : Z) :
  v = w ∨ is_null w = true ∧ v = 0 → if is_null w then is_null v = true else v = w.
Proof. destruct (is_null w) eqn:Hw; [|by intros [?|[? _]]]. intros Hv. apply (null_either w); tauto. Qed.

(** A snapshot reads what the location held, without owning a reference
    when the backend can announce it: the value is the one the location's
    object had, and it stays readable as long as the snapshot is kept. *)
Theorem arc_get_snapshot_correct Ss Ws E l w s :
  (tid < length (num_allocated s))%nat → may_read (announcements s) tid →
  Inv Ss Ws E s → member_at s l (MAtomicRc w) → is_null w = false → fits (potential E s) →
  wp (a ← arc_get_snapshot tid l; v ← snap_deref a; mret (a, v))
     (λ r s', acq_value (fst r) = w ∧ same_values s s' ∧
        (∃ o, heap s !! raw w = Some o ∧ storage o = Some (snd r)) ∧
        ((∃ t, acq_token (fst r) t ∧ snap_ptr t = raw w ∧ Inv (t :: Ss) Ws E s') ∨
         (acq_is_protected (fst r) = false ∧ Inv Ss Ws (OStrong (raw w) :: E) s'))) s.
Proof.
  intros Htid Hmr Hinv Hm Hw Hf. wp_step. eapply wp_mono; [by apply (arc_get_snapshot_ok Ss Ws E l w)|].
  intros a s' (Hsv & Hmr' & Hor). rewrite Hw in Hor. destruct Hor as [Hv Hor].
  assert (∃ Ss' E', Inv Ss' Ws E' s' ∧ live s' (raw w)) as (Ss' & E' & Hinv' & Hl).
  { destruct Hor as [(t & Ht & _ & Hi & _)|(_ & Hi & _)].
    - exists (t :: Ss), E. split; [done|]. destruct (acq_token_ok a t Ht) as [Hr _]. rewrite Hv in Hr.
      rewrite Hr. eapply snapshot_live; [done|]. left. by left.
    - exists Ss, (OStrong (raw w) :: E). split; [done|]. eapply Inv_strong_live; [done|]. by left. }
  rewrite <-Hv in Hl. wp_step. eapply wp_mono; [by eapply (snap_deref_ok Ss' Ws E' a s')|].
  intros v s'' (-> & o & Ho & Hst). wp_step. simpl. split; [done|]. split; [done|]. split.
  - rewrite Hv in Ho. pose proof (sv_heap _ _ Hsv (raw w)) as Hh. rewrite Ho in Hh.
    destruct (heap s !! raw w) as [o0|]; simplify_eq/=. exists o0. split; [done|congruence].
  - destruct Hor as [(t & Ht & _ & Hi & _)|(Hp & Hi & _)]; [left|by right].
    exists t. split; [done|]. split; [|done]. destruct (acq_token_ok a t Ht) as [Hr _]. congruence.
Qed.

(** [exchange] moves the location's reference into the result, which is
    correct when no snapshot of the old object is in use: the result owns the
    reference the location had. *)
Theorem arc_exchange_correct Ss Ws E l w w0 s :
  Inv Ss Ws (member_obls (MRc w) ++ E) s → member_at s l (MAtomicRc w0) →
  (∀ t, t ∈ Ss → snap_ptr t ≠ raw w0) →
  wp (arc_exchange l w)
     (λ r s', r = w0 ∧ s' = put_member l (MAtomicRc w) s ∧
              Inv Ss Ws (member_obls (MRc w0) ++ E) s') s.
Proof.
  intros Hinv%Inv_to_pend Hm Hno. unfold arc_exchange. simpl. wp_step.
  eapply (loc_exchange_ok Ss Ws E s l (MAtomicRc w0) w); [done..|]. simpl. intros Hinv' _. unfold rc_make.
  wp_step. split; [done|]. split; [done|]. by apply Inv_of_pend.
Qed.

End arc_ok.
