(* ===== verification/SharedCas.v ===== *)
(** * compare_and_swap with a pointer the caller does not own

    [compare_and_swap] may be given a snapshot, or a pointer inside an object
    that a snapshot protects, as the new value.  The location then holds the
    word before its reference is counted, and the old reference is retired in
    between, which may run any number of ejects.  The proof runs these on the
    state in which the location is null, whose accounts balance, and transfers
    the result with [framed]. *)

From S2P Require Import Prelude StickyCounter CountedObject MemoryManager Accounting ManagerSafety AtomicLoc Frame Backend Reclamation RcPtr SnapshotPtr AtomicRcPtr.
Local Open Scope Z_scope.

Section put.
  Context {V X En : Type}.
  Local Abbreviation st := (state V X En).
  Implicit Types (s : st) (l : loc) (m : member).

Lemma put_put l m m' s : put_member l m (put_member l m' s) = put_member l m s.
Proof.
  destruct l as [i|p k]; simpl.
  - unfold set_cells. simpl. by rewrite insert_insert_eq.
  - destruct (heap s !! p) as [o|] eqn:Ho; [|by rewrite Ho].
    destruct (storage o) as [v|] eqn:Hv; [|by rewrite Ho, Hv]. simpl. rewrite lookup_insert_eq. simpl.
    unfold set_heap, set_storage. simpl. rewrite insert_insert_eq. by rewrite list_insert_insert, decide_True.
Qed.

(** The member of a location that stays. *)
Lemma put_self l m s : member_at s l m → put_member l m s = s.
Proof.
  destruct l as [i|p k]; simpl.
  - intros Hi. destruct s. unfold set_cells. simpl in *. by rewrite insert_id.
  - intros (_ & o & v & Ho & Hv & Hk). rewrite Ho, Hv. rewrite list_insert_id by done.
    destruct s as [h c na an ip df w], o as [stg rc wc dp bt], v as [d ms]. unfold set_heap, set_storage. simpl in *. subst stg.
    by rewrite insert_id.
Qed.

Lemma evolves_put l m s s' :
  evolves s s' → loc_live l s' → evolves (put_member l m s) (put_member l m s').
Proof.
  intros [Hip Hc Ht Hh] Hl. unfold loc_live in Hl. destruct l as [i|q k]; simpl.
  - split; simpl; [done|by rewrite Hc|done|done].
  - destruct Hl as (oq' & vq & Hq' & Hvq). destruct (Hh q oq' Hq') as (oq & Hq & Hb & Hst).
    assert (storage oq = Some vq) as Hvq0 by (destruct Hst; congruence).
    rewrite Hq', Hvq, Hq, Hvq0. split; simpl; [done..|]. intros p o'. rewrite !lookup_insert.
    case_decide as Hd; [|apply Hh]. intros [= <-]. eexists. split; [done|]. simpl. split; [done|]. by right.
Qed.

Lemma loc_live_member l m s : member_at s l m → loc_live l s.
Proof. unfold loc_live. destruct l; [done|]. intros (_ & o & v & ? & ? & _). eauto. Qed.

End put.

Section shared_cas.
  Context {V X En : Type} `{Pol : !Policy} `{Sch : !Scheme V X En} `{Laws : !SchemeLaws V X En}
    `{Back : !Backend V X En} `{BLaws : !BackendLaws V X En}.
  Context (n : nat) (tid : nat).
  Local Abbreviation st := (state V X En).
  Local Abbreviation mm := (manager n).
  Implicit Types (s : st) (E : list (obl En)) (Ss Ws : list snap) (w : Z) (l : loc).

Lemma framed_run l m {A} (c : M st A) (Q : A → st → Prop) s :
  framed l m c → wp c (λ a s', loc_live l s' ∧ Q a (put_member l m s')) s → wp c Q (put_member l m s).
Proof.
  intros Hc Hw. apply wp_ok in Hw as (a & s' & Hs & Hl & HQ). apply wp_ok. exists a, (put_member l m s').
  split; [|done]. by apply Hc.
Qed.

Lemma arc_drop_framed l m w : framed l m (arc_drop mm tid w).
Proof.
  unfold arc_drop. apply framed_when. destruct (manager_framed l m n) as [H1 H2].
  by apply delayed_ref_framed.
Qed.

Lemma addref_framed l m {A} (a : A) w :
  framed (V := V) (X := X) (En := En) l m (if is_null w then mret a else increment_ref_cnt (raw w);; mret a).
Proof.
  destruct (is_null w); [apply framed_ret|]. apply framed_bind; [|intros; apply framed_ret].
  unfold increment_ref_cnt. apply framed_bind; [apply framed_assert|intros; apply framed_with_obj].
  apply counters_add_refs.
Qed.

(** Whatever keeps the accounts keeps a reference to the object of [w]. *)
Definition keeps_ref Ss Ws E s w : Prop :=
  is_null w = false → ∀ s', preserves Ss Ws E s s' → (0 < total (on (raw w) decrement_strong_count) E s')%nat.

(** A snapshot does. *)
Lemma keeps_snapshot Ss Ws E s w t : t ∈ Ss → snap_ptr t = raw w → keeps_ref Ss Ws E s w.
Proof.
  intros Ht Hp _ s' [Hinv _ _ _]. destruct (inv_snaps _ _ _ _ Hinv) as [_ Hs _]. destruct (Hs t Ht) as [_ Hpos].
  rewrite <-Hp. eapply Nat.lt_le_trans; [exact Hpos|]. apply total_le. intros a. apply pins_on.
Qed.

(** A reference of the running code does. *)
Lemma owned_strong E s p : OStrong p ∈ E → (0 < total (on p decrement_strong_count) E s)%nat.
Proof.
  intros Hin. apply list_elem_of_split in Hin as (E1 & E2 & ->).
  assert (E1 ++ OStrong p :: E2 ≡ₚ OStrong p :: (E1 ++ E2)) as Hp by (by rewrite Permutation_middle).
  rewrite (total_perm _ _ _ _ Hp), total_cons. unfold on at 1. simpl. rewrite bool_decide_eq_true_2 by done. simpl. lia.
Qed.

Lemma keeps_owned Ss Ws E s w : OStrong (raw w) ∈ E → keeps_ref Ss Ws E s w.
Proof. intros Hin _ s' _. by apply owned_strong. Qed.

(** The obligation of an [rc_ptr] member keeps its object. *)
Lemma member_rc_strong E s l w :
  member_at s l (MRc w) → is_null w = false → (0 < total (on (raw w) decrement_strong_count) E s)%nat.
Proof.
  intros Hm Hw. pose proof (total_member_at (on (raw w) decrement_strong_count) E s l _ Hm) as Hle.
  rewrite rc_obls, Hw in Hle. simpl in Hle. unfold on in Hle at 1. simpl in Hle.
  rewrite bool_decide_eq_true_2 in Hle by done. simpl in Hle. lia.
Qed.

(** A pointer inside an object that stays does. *)
Lemma keeps_member Ss Ws E s w l' : member_at s l' (MRc w) → loc_held Ss Ws E l' → keeps_ref Ss Ws E s w.
Proof.
  intros Hm Hh Hw s' Hpr. eapply member_rc_strong; [by eapply evolves_member|done].
Qed.

Lemma arc_null_obls : member_obls (En := En) (MAtomicRc 0) = [].
Proof. rewrite arc_obls. unfold is_null. by rewrite raw_aligned. Qed.

(** The location already holds [w]: retiring the old reference and counting the
    new one settles the accounts. *)
Lemma cas_swap_ok Ss Ws E l w w0 s :
  (tid < length (num_allocated s))%nat → Inv Ss Ws E s → member_at s l (MAtomicRc w0) → loc_held Ss Ws E l →
  keeps_ref Ss Ws E (put_member l (MAtomicRc 0) s) w → (potential E s + 4 ≤ n)%nat → fits n →
  wp (arc_drop mm tid w0;; (if is_null w then mret tt else increment_ref_cnt (raw w);; mret tt))
     (λ _ s', Inv Ss Ws E s' ∧ evolves (put_member l (MAtomicRc w) s) s' ∧
              announcements s' = announcements s ∧ member_at s' l (MAtomicRc w) ∧
              (potential E s' ≤ 2 + potential E s)%nat) (put_member l (MAtomicRc w) s).
Proof.
  intros Htid Hinv Hm Hheld Hkeep Hpot Hf. set (g := put_member l (MAtomicRc 0) s) in *.
  destruct (put_member_inv Ss Ws E (member_obls (MAtomicRc w0) ++ E) s l (MAtomicRc w0) (MAtomicRc 0) Hinv Hm) as (Hg & Hpg & _).
  { intros f. rewrite arc_null_obls, countb_app. simpl. lia. }
  fold g in Hg, Hpg. destruct (put_member_rest s l (MAtomicRc 0)) as (Ha & Hth & _). fold g in Ha, Hth.
  replace (put_member l (MAtomicRc w) s) with (put_member l (MAtomicRc w) g) by apply put_put.
  wp_step. apply framed_run; [apply arc_drop_framed|].
  eapply wp_mono; [apply (arc_drop_ok n tid Ss Ws E w0 g); [by rewrite Hth|done|lia]|].
  intros u g1 [Hk Hp1]. pose proof (kept_safe_preserves _ _ _ _ _ Hk) as Hpr.
  pose proof Hk as [Hinv1 Hst1 _ _]. apply stable_evolves in Hst1 as Hev1.
  assert (member_at g1 l (MAtomicRc 0)) as Hm1 by (eapply evolves_member; [done..|by eapply member_at_put]).
  split; [by eapply loc_live_member|]. apply framed_run; [apply addref_framed|].
  unfold fits in *. eapply wp_mono; [apply (addref_ok tt Ss Ws E w g1 Hinv1); [by intros; apply Hkeep|unfold fits; lia]|].
  intros v g2 (_ & Hinv2 & Hsv2 & Ha2 & Hp2). apply Inv_to_pend in Hinv2.
  assert (member_at g2 l (MAtomicRc 0)) as Hm2 by by eapply same_values_member.
  assert (loc_live l g2) as Hl2 by by eapply loc_live_member.
  destruct (put_member_inv Ss Ws _ E g2 l (MAtomicRc 0) (MAtomicRc w) Hinv2 Hm2) as (Hinv3 & Hp3 & _).
  { intros f. rewrite arc_null_obls, countb_app. simpl. lia. }
  split; [done|]. split; [done|]. split.
  - apply evolves_put; [|done]. etrans; [done|]. by apply same_values_evolves.
  - split; [destruct (put_member_rest g2 l (MAtomicRc w)) as (-> & _); rewrite Ha2, (stable_ann _ _ Hst1); done|].
    split; [by eapply member_at_put|]. rewrite Hp3, potential_app, arc_obls. destruct (is_null w); simpl; lia.
Qed.

Lemma keeps_ref_values Ss Ws E0 E s s1 w :
  same_values s s1 → Inv Ss Ws E0 s → (∀ p, OStrong p ∈ E → live s p) →
  keeps_ref Ss Ws E s w → keeps_ref Ss Ws E s1 w.
Proof.
  intros Hsv Hinv Hl Hk Hw s' [Hinv' Hev Hs Hst]. apply Hk; [done|].
  eapply preserves_intro; [exact Hinv|done| |done]. etrans; [by apply same_values_evolves|done].
Qed.

(** The reservation that [compare_and_swap] makes for an unprotected pointer. *)
Lemma reservation_ok Ss Ws E w (protected : bool) s :
  (tid < length (num_allocated s))%nat → may_read (announcements s) tid → Inv Ss Ws E s →
  wp (if negb protected then mm_reserve tid w else mret mm_reserve_nothing)
     (λ a s', transient tid a ∧ Inv Ss Ws E s' ∧ same_values s s' ∧ potential E s' = potential E s ∧
              reads_kept (announcements s) (announcements s')) s.
Proof.
  intros Htid Hmr Hinv. destruct protected; simpl; [|by apply reserve_ok].
  wp_step. split_and!; [apply transient_null|done..|by apply reads_kept_eq].
Qed.

Lemma compare_and_swap_shared_ok Ss Ws E l e w w0 (protected : bool) s :
  (tid < length (num_allocated s))%nat → may_read (announcements s) tid → Inv Ss Ws E s →
  member_at s l (MAtomicRc w0) → loc_held Ss Ws E l →
  keeps_ref Ss Ws E (put_member l (MAtomicRc 0) s) w → (potential E s + 4 ≤ n)%nat → fits n →
  wp (compare_and_swap mm tid l e w protected)
     (λ b s', b = (w0 =? e) ∧ reads_kept (announcements s) (announcements s') ∧ Inv Ss Ws E s' ∧
        evolves (if b then put_member l (MAtomicRc w) s else s) s' ∧
        member_at s' l (MAtomicRc (if b then w else w0)) ∧
        (potential E s' ≤ if b then 2 + potential E s else potential E s)%nat) s.
Proof.
  intros Htid Hmr Hinv Hm Hheld Hkeep Hpot Hf. unfold compare_and_swap. wp_step.
  eapply wp_mono; [by apply (reservation_ok Ss Ws E w protected)|].
  intros a s1 (Htr & Hinv1 & Hsv1 & Hpot1 & Hmr1). wp_step. unfold compare_and_swap_impl. wp_step.
  pose proof (same_values_member _ _ _ _ Hsv1 Hm) as Hm1. pose proof (sv_threads _ _ Hsv1) as Hth1.
  eapply wp_compare_exchange; [done..|]. simpl. destruct (Z.eqb_spec w0 e) as [<-|Hne].
  - simpl. assert (keeps_ref Ss Ws E (put_member l (MAtomicRc 0) s1) w) as Hkeep1.
    { destruct (put_member_inv Ss Ws E (member_obls (MAtomicRc w0) ++ E) s l (MAtomicRc w0) (MAtomicRc 0) Hinv Hm) as (Hg & _).
      { intros f. rewrite arc_null_obls, countb_app. simpl. lia. }
      eapply keeps_ref_values; [by apply same_values_put|exact Hg| |done].
      intros p Hp. apply live_put. by eapply Inv_strong_live. }
    pose proof (cas_swap_ok Ss Ws E l w w0 s1 ltac:(lia) Hinv1 Hm1 Hheld Hkeep1 ltac:(lia) Hf) as Hsw.
    apply wp_unbind in Hsw. wp_step. eapply wp_mono; [exact Hsw|]. clear Hsw. intros u s2 Hadd. wp_step. wp_step.
    eapply wp_mono; [exact Hadd|]. clear Hadd. intros u' s3 (Hinv3 & Hev3 & Ha3 & Hm3 & Hp3). wp_step.
    destruct (put_member_rest s1 l (MAtomicRc w)) as (_ & Hth & _).
    eapply wp_mono; [eapply (acq_destruct_ok Ss Ws _ tid); [|by rewrite Ha3; apply Hmr1|done|exact Hinv3]|].
    { rewrite (ev_threads _ _ Hev3), Hth. lia. }
    intros u'' s4 (Hinv4 & Hsv4 & Hpot4 & Hmr4). wp_step. rewrite Ha3 in Hmr4. split; [done|].
    split; [by eapply reads_kept_trans|]. split; [done|]. split.
    + etrans; [by apply same_values_evolves, same_values_put|]. etrans; [done|by apply same_values_evolves].
    + split; [by eapply same_values_member|]. lia.
  - simpl. wp_step. wp_step. wp_step. wp_step.
    eapply wp_mono; [by eapply (acq_destruct_ok Ss Ws _ tid); [lia|apply Hmr1|..]|].
    intros u s2 (Hinv2 & Hsv2 & Hpot2 & Hmr2). wp_step. split; [done|]. split; [by eapply reads_kept_trans|].
    split; [done|]. split; [etrans; by apply same_values_evolves|]. split; [|lia].
    by eapply same_values_member, same_values_member.
Qed.

End shared_cas.
