(* ===== verification/Held.v ===== *)
(** * The snapshots an operation holds

    A data structure keeps a few [snapshot_ptr]s in local variables.  Each of
    them is null, announced, or (when the backend ran out of announcements) the
    owner of a reference.  [held As] is the invariant of [Accounting] with the
    announcements and references of the snapshots [As] put aside, so that the
    operations on a snapshot have one specification instead of three. *)

From S2P Require Import Prelude StickyCounter CountedObject MemoryManager Accounting ManagerSafety AtomicLoc Frame Backend Reclamation RcPtr SnapshotPtr AtomicRcPtr SharedCas.
Local Open Scope Z_scope.

Section held.
  Context {V X En : Type} `{Pol : !Policy} `{Sch : !Scheme V X En} `{Laws : !SchemeLaws V X En}
    `{Back : !Backend V X En} `{BLaws : !BackendLaws V X En}.
  Context (n : nat) (tid : nat).
  Local Abbreviation st := (state V X En).
  Local Abbreviation mm := (manager n).
  Implicit Types (s : st) (E O : list (obl En)) (Ss Ws T : list snap) (As : list acquired) (a : acquired) (w : Z) (l : loc).

(** The announcement or the reference of a snapshot. *)
Inductive hold : acquired → list snap → list (obl En) → Prop :=
  | hold_null a : is_null (acq_value a) = true → hold a [] []
  | hold_token a t : acq_token a t → is_null (acq_value a) = false → hold a [t] []
  | hold_counted a : acq_is_protected a = false → is_null (acq_value a) = false → hold a [] [OStrong (raw (acq_value a))].

Inductive holds Ss Ws : list acquired → list snap → list (obl En) → Prop :=
  | holds_nil : holds Ss Ws [] [] []
  | holds_cons a ts os As T O :
      hold a ts os → (∀ t t', t ∈ ts → t' ∈ T ∨ t' ∈ Ss ∨ t' ∈ Ws → apart t t') →
      holds Ss Ws As T O → holds Ss Ws (a :: As) (ts ++ T) (os ++ O).

(** [B] bounds the potential of the rest. *)
Record held (B : nat) As Ss Ws E s : Prop := {
  he_inv : ∃ T O, holds Ss Ws As T O ∧ Inv (T ++ Ss) Ws (O ++ E) s;
  he_thread : (tid < length (num_allocated s))%nat;
  he_read : may_read (announcements s) tid;
  he_potential : (potential E s ≤ B)%nat
}.

(** What every operation leaves alone. *)
Definition later s s' : Prop := evolves s s' ∧ reads_kept (announcements s) (announcements s').

#[export] Instance later_preorder : PreOrder later.
Proof.
  split; [by split; [|apply reads_kept_eq]|]. intros s1 s2 s3 [H1 H2] [H3 H4].
  split; [by etrans|by eapply reads_kept_trans].
Qed.

Lemma same_values_later s s' :
  same_values s s' → reads_kept (announcements s) (announcements s') → later s s'.
Proof. intros Hsv Hr. split; [by apply same_values_evolves|done]. Qed.

Lemma stable_later s s' : stable s s' → later s s'.
Proof. intros Hst. split; [by apply stable_evolves|]. by apply reads_kept_eq, stable_ann. Qed.

Lemma hold_potential a ts os E s : hold a ts os → potential (os ++ E) s = (length os + potential E s)%nat ∧ (length os ≤ 1)%nat.
Proof. intros Hh. rewrite potential_app. destruct Hh; simpl; lia. Qed.

Lemma holds_potential Ss Ws As T O E s :
  holds Ss Ws As T O → potential (O ++ E) s = (length O + potential E s)%nat ∧ (length O ≤ length As)%nat.
Proof.
  induction 1 as [|a ts os As T O Ha _ _ [IH1 IH2]]; [by simpl; lia|]. rewrite <-app_assoc, length_app. simpl.
  destruct (hold_potential a ts os (O ++ E) s Ha) as [-> ?]. lia.
Qed.

Lemma holds_perm Ss Ws As As' T O :
  As ≡ₚ As' → holds Ss Ws As T O → ∃ T' O', T ≡ₚ T' ∧ O ≡ₚ O' ∧ holds Ss Ws As' T' O'.
Proof.
  intros Hp. revert T O. induction Hp as [|a As As' Hp IH|a b As|As1 As2 As3 Hp1 IH1 Hp2 IH2]; intros T O Hh.
  - eauto.
  - inversion Hh as [|? ts os ? T0 O0 Ha Hap H]; subst. destruct (IH _ _ H) as (T' & O' & HT & HO & Hh').
    exists (ts ++ T'), (os ++ O'). rewrite HT, HO. split_and!; [done..|]. constructor; [done| |done].
    intros t t' Ht Ht'. apply Hap; [done|]. by rewrite HT.
  - inversion Hh as [|? ts os ? T0 O0 Ha Hap H]; subst. inversion H as [|? ts' os' ? T1 O1 Ha' Hap' H']; subst.
    exists (ts' ++ ts ++ T1), (os' ++ os ++ O1). split_and!.
    + rewrite !app_assoc. f_equiv. apply Permutation_app_comm.
    + rewrite !app_assoc. f_equiv. apply Permutation_app_comm.
    + constructor; [done| |constructor; [done| |done]].
      * intros t t' Ht [[Ht'|Ht']%elem_of_app|Ht']; [|by apply Hap'; auto..].
        apply apart_sym, Hap; [done|]. left. apply elem_of_app. by left.
      * intros t t' Ht [Ht'|Ht']; apply Hap; auto. left. apply elem_of_app. by right.
  - destruct (IH1 _ _ Hh) as (T1 & O1 & HT1 & HO1 & Hh1). destruct (IH2 _ _ Hh1) as (T2 & O2 & HT2 & HO2 & Hh2).
    exists T2, O2. split_and!; [by etrans|by etrans|done].
Qed.

Lemma held_perm B As As' Ss Ws E s : As ≡ₚ As' → held B As Ss Ws E s → held B As' Ss Ws E s.
Proof.
  intros Hp [(T & O & Hh & Hinv) H1 H2 H3]. split; [|done..].
  destruct (holds_perm _ _ _ _ _ _ Hp Hh) as (T' & O' & HT & HO & Hh'). exists T', O'. split; [done|].
  eapply Inv_perm; [by rewrite <-HO|]. eapply Inv_snaps_incl; [|done|exact Hinv].
  intros t. by rewrite HT.
Qed.

#[export] Instance held_proper B : Proper ((≡ₚ) ==> eq ==> eq ==> eq ==> eq ==> iff) (held B).
Proof. intros As As' Hp ?? -> ?? -> ?? -> ?? ->. split; apply held_perm; [done|by symmetry]. Qed.

Lemma held_refs B As Ss Ws E E' s : E ≡ₚ E' → held B As Ss Ws E s → held B As Ss Ws E' s.
Proof.
  intros Hp [(T & O & Hh & Hinv) H1 H2 H3]. split; [|done..|by rewrite <-(potential_perm _ _ _ Hp)].
  exists T, O. split; [done|]. eapply Inv_perm; [|exact Hinv]. by rewrite Hp.
Qed.

(** A snapshot taken out of the bunch. *)
Lemma held_split B a As Ss Ws E s :
  held B (a :: As) Ss Ws E s →
  ∃ ts os T O, hold a ts os ∧ (∀ t t', t ∈ ts → t' ∈ T ∨ t' ∈ Ss ∨ t' ∈ Ws → apart t t') ∧ holds Ss Ws As T O ∧
    Inv (ts ++ T ++ Ss) Ws (os ++ O ++ E) s.
Proof.
  intros [(T & O & Hh & Hinv) _ _ _]. inversion Hh as [|? ts os ? T0 O0 Ha Hap H]; subst.
  exists ts, os, T0, O0. rewrite <-!app_assoc in Hinv. done.
Qed.

(** What a snapshot protects is alive. *)
Lemma held_live B As Ss Ws E s a :
  held B As Ss Ws E s → a ∈ As → is_null (acq_value a) = false → live s (raw (acq_value a)).
Proof.
  intros Hh Ha Hn. apply list_elem_of_split in Ha as (A1 & A2 & ->). rewrite <-Permutation_middle in Hh.
  destruct (held_split _ _ _ _ _ _ _ Hh) as (ts & os & T & O & Hold & _ & _ & Hinv).
  inversion Hold as [?|? t Ht ?|? ? ?]; subst; [congruence|..].
  - destruct (acq_token_ok a t Ht) as [-> _]. eapply snapshot_live; [done|]. left. by left.
  - eapply Inv_strong_live; [done|]. by left.
Qed.

Lemma held_inv B As Ss Ws E s : held B As Ss Ws E s → ∃ Ss' E', Inv Ss' Ws E' s.
Proof. intros [(T & O & _ & Hinv) _ _ _]. eauto. Qed.

(** The location is outside the managed objects, or one of the snapshots or an
    owned reference keeps its object. *)
Definition kept_loc As Ss Ws E l : Prop :=
  match l with
  | LCell _ => True
  | LField p _ => (∃ a, a ∈ As ∧ is_null (acq_value a) = false ∧ raw (acq_value a) = p) ∨ OStrong p ∈ E
  end.

Lemma holds_elem Ss Ws As T O a :
  holds Ss Ws As T O → a ∈ As → is_null (acq_value a) = false →
  (∃ t, t ∈ T ∧ snap_ptr t = raw (acq_value a)) ∨ OStrong (raw (acq_value a)) ∈ O.
Proof.
  induction 1 as [|b ts os As T O Hb Hap Hh IH]; intros Ha Hn; [by apply elem_of_nil in Ha|].
  apply elem_of_cons in Ha as [<-|Ha].
  - inversion Hb as [?|? t Ht ?|? ? ?]; subst; [congruence|left|right; by left].
    exists t. split; [by left|]. by destruct (acq_token_ok a t Ht) as [-> _].
  - destruct (IH Ha Hn) as [(t & Ht & Hp)|Ho]; [left|right; apply elem_of_app; by right].
    exists t. split; [apply elem_of_app; by right|done].
Qed.

Lemma kept_loc_held As Ss Ws E l T O :
  holds Ss Ws As T O → kept_loc As Ss Ws E l → loc_held (T ++ Ss) Ws (O ++ E) l.
Proof.
  intros Hh. destruct l as [i|p k]; simpl; [done|]. intros [(a & Ha & Hn & <-)|Ho].
  - destruct (holds_elem _ _ _ _ _ _ Hh Ha Hn) as [(t & Ht & Hp)|Ho].
    + left. exists t. split; [left; apply elem_of_app; by left|done].
    + right. apply elem_of_app. by left.
  - right. apply elem_of_app. by right.
Qed.

(** ** Taking and dropping snapshots *)

Lemma held_get_snapshot B As Ss Ws E l w s :
  held B As Ss Ws E s → member_at s l (MAtomicRc w) → fits (B + length As) →
  wp (arc_get_snapshot tid l)
     (λ a s', same_values s s' ∧ later s s' ∧ held B (a :: As) Ss Ws E s' ∧
              (acq_value a = w ∨ is_null w = true ∧ acq_value a = 0)) s.
Proof.
  intros [(T & O & Hh & Hinv) Htid Hmr Hpot] Hm Hf.
  destruct (holds_potential _ _ _ _ _ E s Hh) as [HO HlO]. unfold fits in *.
  eapply wp_mono; [apply (arc_get_snapshot_ok tid (T ++ Ss) Ws (O ++ E) l w s); [done..|unfold fits; lia]|].
  intros a s' (Hsv & Hrk & Hor). split; [done|]. split; [by apply same_values_later|].
  assert (∀ ts os, hold a ts os → (∀ t t', t ∈ ts → t' ∈ T ∨ t' ∈ Ss ∨ t' ∈ Ws → apart t t') →
    Inv (ts ++ T ++ Ss) Ws (os ++ O ++ E) s' → potential (O ++ E) s' = potential (O ++ E) s → held B (a :: As) Ss Ws E s') as Hmk.
  { intros ts os Hold Hap Hinv' Hp. split; [|by rewrite (sv_threads _ _ Hsv)|by apply Hrk|].
    - exists (ts ++ T), (os ++ O). rewrite <-!app_assoc. split; [by constructor|done].
    - destruct (holds_potential _ _ _ _ _ E s' Hh) as [HO' _]. lia. }
  destruct (is_null w) eqn:Hw.
  - destruct Hor as (Hv & Hinv' & Hp). split; [|tauto]. eapply (Hmk [] []); [constructor; by eapply null_either| |done..].
    by intros t t' ?%elem_of_nil.
  - destruct Hor as [Hv Hor]. split; [|by left]. destruct Hor as [(t & Ht & Hap & Hinv' & Hp)|(Hpr & Hinv' & Hp)].
    + eapply (Hmk [t] []); [constructor; [done|by rewrite Hv]| |done..].
      intros t1 t' ->%list_elem_of_singleton Ht'. apply Hap. rewrite elem_of_app. tauto.
    + eapply (Hmk [] [OStrong (raw (acq_value a))]); [constructor; [done|by rewrite Hv]| | |done].
      { by intros t t' ?%elem_of_nil. }
      by rewrite Hv.
Qed.

(** The destructor, and [clear]. *)
Lemma held_clear B a As Ss Ws E s :
  held B (a :: As) Ss Ws E s → (B + S (length As) ≤ n)%nat →
  wp (snap_clear mm tid a) (λ b s', b = acq_null ∧ later s s' ∧ held B As Ss Ws E s') s.
Proof.
  intros Hh Hn. pose proof (held_split _ _ _ _ _ _ _ Hh) as (ts & os & T & O & Hold & Hap & Hrest & Hinv).
  destruct Hh as [_ Htid Hmr Hpot]. destruct (holds_potential _ _ _ _ _ E s Hrest) as [HO HlO].
  assert (∀ s', Inv (T ++ Ss) Ws (O ++ E) s' → later s s' → (potential (O ++ E) s' ≤ potential (O ++ E) s)%nat →
    later s s' ∧ held B As Ss Ws E s') as Hmk.
  { intros s' Hinv' [Hev Hrk] Hp. split; [done|]. destruct (holds_potential _ _ _ _ _ E s' Hrest) as [HO' _].
    split; [by eauto|by rewrite (ev_threads _ _ Hev)|by apply Hrk|lia]. }
  inversion Hold as [? Hnull|? t Ht Hnn|? Hpr Hnn]; subst; simpl in Hinv.
  - unfold snap_clear. rewrite Hnull, andb_false_r. simpl. wp_step. wp_step.
    eapply wp_mono; [apply acq_clear_free; right; by apply Z.eqb_eq|]. intros b s' [-> ->].
    split; [done|]. apply Hmk; [done|reflexivity|done].
  - eapply wp_mono; [apply (snap_clear_token_ok n tid (T ++ Ss) Ws (O ++ E) a t s Ht Hinv)|].
    + intros t' Ht'. apply Hap; [by left|]. rewrite elem_of_app in Ht'. tauto.
    + intros b s' (-> & Hinv' & Hsv & Hp & Hrk). split; [done|]. apply Hmk; [done|by apply same_values_later|lia].
  - eapply wp_mono; [apply (snap_clear_counted_ok n tid (T ++ Ss) Ws (O ++ E) a s); [done|by left|..]|].
    + by rewrite rc_obls, Hnn.
    + rewrite rc_obls, Hnn. rewrite potential_app. simpl. lia.
    + intros b s' (-> & Hk & Hp). split; [done|]. apply Hmk; [apply Hk|by apply stable_later, Hk|lia].
Qed.

Lemma held_mono B B' As Ss Ws E s : (B ≤ B')%nat → held B As Ss Ws E s → held B' As Ss Ws E s.
Proof. intros HB [H1 H2 H3 H4]. split; [done..|lia]. Qed.

(** A null snapshot needs nothing. *)
Lemma held_null B As Ss Ws E s : held B As Ss Ws E s ↔ held B (acq_null :: As) Ss Ws E s.
Proof.
  assert (is_null (acq_value acq_null) = true) as Hn by (rewrite acq_null_value; unfold is_null; by rewrite raw_aligned).
  split.
  - intros [(T & O & Hh & Hinv) H1 H2 H3]. split; [|done..]. exists T, O. split; [|done].
    apply (holds_cons Ss Ws acq_null [] [] As T O); [by constructor|by intros t t' ?%elem_of_nil|done].
  - intros [(T & O & Hh & Hinv) H1 H2 H3]. split; [|done..].
    inversion Hh as [|? ts os ? T0 O0 Ha Hap H]; subst. inversion Ha as [? ?|? t Ht Hx|? Hx Hy]; subst; [|congruence..].
    by exists T0, O0.
Qed.

(** Move assignment between two snapshot variables: the second is null
    afterwards. *)
Lemma held_assign_move B a b As Ss Ws E s :
  held B (a :: b :: As) Ss Ws E s → (B + S (S (length As)) ≤ n)%nat →
  wp (snap_assign_move mm tid a b) (λ r s', r = (b, acq_null) ∧ later s s' ∧ held B (b :: As) Ss Ws E s') s.
Proof.
  intros Hh Hn. unfold snap_assign_move. wp_step. eapply wp_mono; [by apply (held_clear B a (b :: As) Ss Ws E)|].
  intros c s' (-> & Hl & Hh'). wp_step. done.
Qed.

Lemma held_deref B As Ss Ws E s a :
  held B As Ss Ws E s → a ∈ As → is_null (acq_value a) = false →
  wp (snap_deref a) (λ v s', s' = s ∧ ∃ o, heap s !! raw (acq_value a) = Some o ∧ storage o = Some v) s.
Proof.
  intros Hh Ha Hn. destruct (held_inv _ _ _ _ _ _ Hh) as (Ss' & E' & Hinv).
  eapply snap_deref_ok; [exact Hinv|]. by eapply held_live.
Qed.

(** ** compare_and_swap *)

(** One of the snapshots, an owned reference, or a pointer inside an object that
    stays keeps the object of [w]. *)
Definition kept_ref As Ss Ws E s w : Prop :=
  is_null w = false →
  (∃ b, b ∈ As ∧ is_null (acq_value b) = false ∧ raw (acq_value b) = raw w) ∨ OStrong (raw w) ∈ E ∨
  ∃ l', member_at s l' (MRc w) ∧ kept_loc As Ss Ws E l'.

Lemma member_at_put_ne s l l' m m' : l ≠ l' → member_at s l' m' → member_at (put_member l m s) l' m'.
Proof.
  intros Hne. destruct l as [i|p k], l' as [j|q k']; simpl.
  - rewrite lookup_insert_ne; [done|congruence].
  - done.
  - intros Hj. repeat case_match; done.
  - intros (Hq & o & v & Ho & Hv & Hm). split; [done|]. destruct (decide (p = q)) as [->|Hpq].
    + rewrite Ho, Hv. simpl. rewrite lookup_insert_eq. eexists _, _. split; [done|]. split; [done|]. simpl.
      rewrite list_lookup_insert_ne; [done|congruence].
    + destruct (heap s !! p) as [o'|]; [|eauto]. destruct (storage o') as [v'|]; [|eauto]. simpl.
      rewrite lookup_insert_ne by done. eauto.
Qed.

Lemma kept_ref_keeps As Ss Ws E s l w w0 T O :
  holds Ss Ws As T O → member_at s l (MAtomicRc w0) → kept_ref As Ss Ws E s w →
  keeps_ref (T ++ Ss) Ws (O ++ E) (put_member l (MAtomicRc 0) s) w.
Proof.
  intros Hh Hm Hk Hw. destruct (Hk Hw) as [(b & Hb & Hn & Hp)|[Ho|(l' & Hm' & Hl')]].
  - rewrite <-Hp. destruct (holds_elem _ _ _ _ _ _ Hh Hb Hn) as [(t & Ht & Hpt)|Ho].
    + eapply (keeps_snapshot _ _ _ _ _ t); [apply elem_of_app; by left|congruence|done].
    + rewrite Hp in *. apply keeps_owned; [apply elem_of_app; by left|done].
  - apply keeps_owned; [apply elem_of_app; by right|done].
  - eapply (keeps_member _ _ _ _ _ l'); [|by eapply kept_loc_held|done].
    apply member_at_put_ne; [|done]. intros <-. destruct l; simpl in *; [congruence|].
    destruct Hm as (_ & o & v & Ho & Hv & Hk1), Hm' as (_ & o' & v' & Ho' & Hv' & Hk2). congruence.
Qed.

Lemma held_cas B As Ss Ws E l e w w0 (protected : bool) s :
  held B As Ss Ws E s → member_at s l (MAtomicRc w0) → kept_loc As Ss Ws E l → kept_ref As Ss Ws E s w →
  (B + length As + 4 ≤ n)%nat → fits n →
  wp (compare_and_swap mm tid l e w protected)
     (λ b s', b = (w0 =? e) ∧ later (if b then put_member l (MAtomicRc w) s else s) s' ∧
              member_at s' l (MAtomicRc (if b then w else w0)) ∧
              held (if b then B + 2 else B) As Ss Ws E s') s.
Proof.
  intros [(T & O & Hh & Hinv) Htid Hmr Hpot] Hm Hl Hk Hn Hf.
  destruct (holds_potential _ _ _ _ _ E s Hh) as [HO HlO].
  eapply wp_mono.
  { apply (compare_and_swap_shared_ok n tid (T ++ Ss) Ws (O ++ E) l e w w0); [done..| | |lia|done].
    - by eapply kept_loc_held.
    - by eapply kept_ref_keeps. }
  intros b s' (-> & Hrk & Hinv' & Hev & Hm' & Hp).
  destruct (holds_potential _ _ _ _ _ E s' Hh) as [HO' _].
  destruct (put_member_rest s l (MAtomicRc w)) as (Ha & Hth & _).
  split; [done|]. destruct (w0 =? e).
  - split; [split; [done|by rewrite Ha]|]. split; [done|].
    split; [by eauto|by rewrite (ev_threads _ _ Hev), Hth|by apply Hrk|lia].
  - split; [done|]. split; [done|]. split; [by eauto|by rewrite (ev_threads _ _ Hev)|by apply Hrk|lia].
Qed.

(** ** Owned references *)

Lemma held_own B B' As Ss Ws E E' s T O :
  holds Ss Ws As T O → Inv (T ++ Ss) Ws E' s → E' ≡ₚ O ++ E → (tid < length (num_allocated s))%nat →
  may_read (announcements s) tid → (potential E' s ≤ length O + B)%nat → (B ≤ B')%nat → held B' As Ss Ws E s.
Proof.
  intros Hh Hinv Hp Htid Hmr Hpot HB. destruct (holds_potential _ _ _ _ _ E s Hh) as [HO _].
  split; [|done|done|].
  - exists T, O. split; [done|]. by eapply Inv_perm.
  - rewrite (potential_perm _ _ _ Hp) in Hpot. lia.
Qed.

Lemma held_load B As Ss Ws E l w s :
  held B As Ss Ws E s → member_at s l (MAtomicRc w) → fits (B + length As) →
  wp (arc_load tid l)
     (λ r s', r = w ∧ same_values s s' ∧ later s s' ∧ held (S B) As Ss Ws (member_obls (MRc w) ++ E) s') s.
Proof.
  intros [(T & O & Hh & Hinv) Htid Hmr Hpot] Hm Hf.
  destruct (holds_potential _ _ _ _ _ E s Hh) as [HO HlO]. unfold fits in *.
  pose proof (arc_load_ok tid (T ++ Ss) Ws (O ++ E) l w s Htid Hmr Hinv Hm ltac:(unfold fits; lia)) as Hload.
  apply wp_ok in Hload as (r & s' & Hrun & -> & Hinv' & Hsv & Hp & Hrk). apply wp_ok. exists w, s'.
  split; [done|]. split; [done|]. split; [done|]. split; [by apply same_values_later|].
  eapply (held_own (S B)); [done|exact Hinv'| |by rewrite (sv_threads _ _ Hsv)|by apply Hrk| |done].
  - rewrite !app_assoc. f_equiv. apply Permutation_app_comm.
  - rewrite potential_app, Hp, rc_obls. destruct (is_null w); simpl; lia.
Qed.

(** The destructor of an owning pointer. *)
Lemma held_drop B As Ss Ws E w s :
  held B As Ss Ws (member_obls (MRc w) ++ E) s → (B + length As ≤ n)%nat →
  wp (rc_clear mm tid w) (λ r s', r = 0 ∧ later s s' ∧ held B As Ss Ws E s') s.
Proof.
  intros [(T & O & Hh & Hinv) Htid Hmr Hpot] Hn.
  destruct (holds_potential _ _ _ _ _ (member_obls (MRc w) ++ E) s Hh) as [HO HlO].
  assert (O ++ member_obls (MRc w) ++ E ≡ₚ member_obls (MRc w) ++ O ++ E) as Hp
    by (rewrite !app_assoc; f_equiv; apply Permutation_app_comm).
  rewrite (potential_perm _ _ _ Hp) in HO. apply (Inv_perm _ _ _ _ _ Hp) in Hinv.
  unfold rc_clear. wp_step. eapply wp_mono; [apply (drop_ref_ok n tid (T ++ Ss) Ws (O ++ E) w s); [done..|lia]|].
  intros u s' [Hk Hp']. wp_step. pose proof Hk as [Hinv' Hst _ _].
  split; [done|]. split; [by apply stable_later|].
  eapply (held_own B); [done|exact Hinv'|done|by rewrite (stable_threads _ _ Hst)|by rewrite (stable_ann _ _ Hst)| |done].
  rewrite (potential_app (member_obls (MRc w))) in HO. lia.
Qed.

Lemma held_make B As Ss Ws E (v : payload V) s :
  held B As Ss Ws (members_obls (members v) ++ E) s → can_create (announcements s) tid →
  wp (make_shared tid v)
     (λ p s', held (B + 2) As Ss Ws (member_obls (MRc p) ++ E) s' ∧ is_null p = false ∧ raw p = p ∧
              heap s !! p = None ∧ (∃ o, heap s' !! p = Some o ∧ storage o = Some v) ∧
              (∀ q, q ≠ p → heap s' !! q = heap s !! q) ∧ cells s' = cells s ∧
              length (num_allocated s') = length (num_allocated s) ∧
              still_read (announcements s) (announcements s')) s.
Proof.
  intros [(T & O & Hh & Hinv) Htid Hmr Hpot] Hcc.
  destruct (holds_potential _ _ _ _ _ (members_obls (members v) ++ E) s Hh) as [HO HlO].
  assert (∀ (E1 : list (obl En)), O ++ E1 ++ E ≡ₚ E1 ++ O ++ E) as Hp
    by (intros; rewrite !app_assoc; f_equiv; apply Permutation_app_comm).
  rewrite (potential_perm _ _ _ (Hp _)) in HO. apply (Inv_perm _ _ _ _ _ (Hp _)) in Hinv.
  eapply wp_mono; [by apply (make_shared_ok tid (T ++ Ss) Ws (O ++ E) v s)|].
  intros p s' (Hinv' & Hnn & Hraw & Hfresh & Ho & Hother & Hc & Hth & Hip & Hp' & Hrk).
  split; [|tauto]. eapply (held_own (B + 2)); [done|exact Hinv'|by rewrite Hp|lia|by apply Hrk| |done]. lia.
Qed.

(** A second reference, to an object that is referenced. *)
Lemma held_addref B As Ss Ws E w s :
  held B As Ss Ws E s → fits (B + length As) →
  (is_null w = false → ∃ l, member_at s l (MRc w) ∨ member_at s l (MAtomicRc w)) →
  wp (if is_null w then mret w else increment_ref_cnt (raw w);; mret w)
     (λ r s', r = w ∧ same_values s s' ∧ later s s' ∧ announcements s' = announcements s ∧
              held (S B) As Ss Ws (member_obls (MRc w) ++ E) s') s.
Proof.
  intros [(T & O & Hh & Hinv) Htid Hmr Hpot] Hf Hw.
  destruct (holds_potential _ _ _ _ _ E s Hh) as [HO HlO]. unfold fits in *.
  eapply wp_mono; [apply (addref_ok w (T ++ Ss) Ws (O ++ E) w s Hinv); [|unfold fits; lia]|].
  { intros Hn. destruct (Hw Hn) as [l [Hl|Hl]]; [by eapply member_rc_strong|by eapply member_strong]. }
  intros r s' (-> & Hinv' & Hsv & Ha & Hp). assert (reads_kept (announcements s) (announcements s')) as Hrk by by apply reads_kept_eq.
  split; [done|]. split; [done|]. split; [by apply same_values_later|]. split; [done|].
  eapply (held_own (S B)); [done|exact Hinv'| |by rewrite (sv_threads _ _ Hsv)|by apply Hrk| |done].
  - rewrite !app_assoc. f_equiv. apply Permutation_app_comm.
  - rewrite potential_app, Hp, rc_obls. destruct (is_null w); simpl; lia.
Qed.

Lemma held_copy B As Ss Ws E w s :
  held B As Ss Ws E s → fits (B + length As) →
  (is_null w = false → ∃ l, member_at s l (MRc w)) →
  wp (rc_copy w)
     (λ r s', r = w ∧ same_values s s' ∧ later s s' ∧ held (S B) As Ss Ws (member_obls (MRc w) ++ E) s') s.
Proof.
  intros Hh Hf Hw. unfold rc_copy. eapply wp_mono; [apply (held_addref B As Ss Ws E w s Hh Hf)|].
  - intros Hn. destruct (Hw Hn) as [l Hl]. eauto.
  - intros r s' (-> & Hsv & Hl & _ & Hh'). done.
Qed.

(** An owned reference moves into an atomic pointer. *)
Lemma held_to_atomic B As Ss Ws E w s :
  held B As Ss Ws (member_obls (MRc w) ++ E) s → held (S B) As Ss Ws (member_obls (MAtomicRc w) ++ E) s.
Proof.
  intros [(T & O & Hh & Hinv) Htid Hmr Hpot]. split; [|done|done|].
  - exists T, O. split; [done|].
    assert (∀ (E1 : list (obl En)), O ++ E1 ++ E ≡ₚ E1 ++ O ++ E) as Hp
      by (intros; rewrite !app_assoc; f_equiv; apply Permutation_app_comm).
    eapply Inv_perm; [symmetry; apply Hp|]. apply Inv_to_pend. eapply Inv_perm; [apply Hp|exact Hinv].
  - rewrite potential_app in *. rewrite arc_obls. rewrite rc_obls in Hpot. destruct (is_null w); simpl in *; lia.
Qed.

(** Changing the word of a snapshot in place, up to its mark. *)
Lemma hold_set a w ts os : raw w = raw (acq_value a) → hold a ts os → hold (acq_set a w) ts os.
Proof.
  intros Hw Hh. assert (is_null (acq_value (acq_set a w)) = is_null (acq_value a)) as Hn
    by (unfold is_null; by rewrite acq_set_value, Hw).
  destruct Hh as [a Hnull|a t Ht Hnn|a Hpr Hnn].
  - constructor. congruence.
  - constructor; [by apply acq_set_token|congruence].
  - replace (raw (acq_value a)) with (raw (acq_value (acq_set a w))) by by rewrite acq_set_value.
    constructor; [by rewrite acq_set_protected|congruence].
Qed.

Lemma held_set B a w As Ss Ws E s :
  raw w = raw (acq_value a) → held B (a :: As) Ss Ws E s → held B (acq_set a w :: As) Ss Ws E s.
Proof.
  intros Hw [(T & O & Hh & Hinv) H1 H2 H3]. split; [|done..]. exists T, O. split; [|done].
  inversion Hh as [|? ts os ? T0 O0 Ha Hap H]; subst. constructor; [by apply hold_set|done|done].
Qed.

(** Copy assignment to a pointer that is not null. *)
Lemma held_assign_copy B As Ss Ws E w other s :
  held B As Ss Ws (member_obls (MRc w) ++ E) s → is_null w = false →
  (is_null other = false → OStrong (raw other) ∈ E ∨ ∃ l, member_at s l (MRc other)) →
  (B + length As + 2 ≤ n)%nat → fits n →
  wp (rc_assign_copy mm tid w other)
     (λ r s', r = other ∧ later s s' ∧ held B As Ss Ws (member_obls (MRc other) ++ E) s') s.
Proof.
  intros [(T & O & Hh & Hinv) Htid Hmr Hpot] Hw Ho Hn Hf.
  destruct (holds_potential _ _ _ _ _ (member_obls (MRc w) ++ E) s Hh) as [HO HlO].
  assert (∀ (E1 : list (obl En)), O ++ E1 ++ E ≡ₚ E1 ++ O ++ E) as Hp
    by (intros; rewrite !app_assoc; f_equiv; apply Permutation_app_comm).
  rewrite (potential_perm _ _ _ (Hp _)) in HO. apply (Inv_perm _ _ _ _ _ (Hp _)) in Hinv. unfold fits in *.
  eapply wp_mono.
  { apply (rc_assign_copy_ok n tid (T ++ Ss) Ws (O ++ E) w other s Htid Hinv); [|unfold fits; lia|lia].
    intros Hnn. destruct (Ho Hnn) as [Hin|[l Hl]]; [|by eapply member_rc_strong].
    apply owned_strong. rewrite !elem_of_app. right. by right. }
  intros r s' (-> & Hk & Hp'). pose proof Hk as [Hinv' Hst _ _]. split; [done|]. split; [by apply stable_later|].
  eapply (held_own B); [done|exact Hinv'|by rewrite Hp|by rewrite (stable_threads _ _ Hst)|by rewrite (stable_ann _ _ Hst)| |done].
  rewrite (potential_app (member_obls (MRc other))). rewrite (potential_app (member_obls (MRc w)) (O ++ E)) in HO.
  rewrite (rc_obls other). rewrite (rc_obls w), Hw in HO, Hpot. destruct (is_null other); simpl in *; lia.
Qed.

(** [store(nullptr)] *)
Lemma held_store_null B As Ss Ws E l w s :
  held B As Ss Ws E s → member_at s l (MAtomicRc w) → (B + length As + 1 ≤ n)%nat →
  wp (arc_store_null mm tid l) (λ _ s', later (put_member l (MAtomicRc 0) s) s' ∧ held (S B) As Ss Ws E s') s.
Proof.
  intros [(T & O & Hh & Hinv) Htid Hmr Hpot] Hm Hn.
  destruct (holds_potential _ _ _ _ _ E s Hh) as [HO HlO].
  assert (member_obls (En := En) (MRc 0) = []) as Hnil by (rewrite rc_obls; unfold is_null; by rewrite raw_aligned).
  unfold arc_store_null. eapply wp_mono.
  { apply (arc_replace_ok n tid (T ++ Ss) Ws (O ++ E) l 0 w s Htid); rewrite ?Hnil; [done|done|simpl; lia]. }
  intros u s' [Hk Hp]. rewrite Hnil in Hp. simpl in Hp. pose proof Hk as [Hinv' Hst _ _].
  destruct (put_member_rest s l (MAtomicRc 0)) as (Ha & Hth & _). split; [by apply stable_later|].
  eapply (held_own (S B)); [done|exact Hinv'|done|by rewrite (stable_threads _ _ Hst), Hth|by rewrite (stable_ann _ _ Hst), Ha|lia|done].
Qed.

(** ** Atomic pointers that come and go *)

(** A cell more or less: its obligation is in the cell or with the caller. *)
Lemma cells_inv Ss Ws E E' s c :
  Inv Ss Ws E s →
  (∀ g, countb g E' + msum (λ m, countb g (member_obls m)) c = countb g E + msum (λ m, countb g (member_obls m)) (cells s))%nat →
  Inv Ss Ws E' (set_cells c s) ∧ potential E' (set_cells c s) = potential E s.
Proof.
  intros Hinv HE. assert (∀ g, total g E' (set_cells c s) = total g E s) as Htot
    by (intros g; unfold total; simpl; specialize (HE g); lia).
  split; [by apply (Inv_ext Ss Ws E s)|]. unfold potential. by rewrite !Htot.
Qed.

Lemma held_new_cell B As Ss Ws E i w s :
  held B As Ss Ws (member_obls (MAtomicRc w) ++ E) s → cells s !! i = None →
  held B As Ss Ws E (set_cells (<[i := MAtomicRc w]> (cells s)) s).
Proof.
  intros [(T & O & Hh & Hinv) Htid Hmr Hpot] Hi.
  destruct (cells_inv (T ++ Ss) Ws _ (O ++ E) s (<[i := MAtomicRc w]> (cells s)) Hinv) as [Hinv' Hp'].
  { intros g. rewrite msum_insert_new by done. rewrite !countb_app. lia. }
  destruct (holds_potential _ _ _ _ _ (member_obls (MAtomicRc w) ++ E) s Hh) as [H1 _].
  split; [by eauto|done|done|].
  destruct (holds_potential _ _ _ _ _ E (set_cells (<[i := MAtomicRc w]> (cells s)) s) Hh) as [H2 _]. lia.
Qed.

(** The destructor runs while the word is still there. *)
Lemma held_delete_cell B As Ss Ws E i w s :
  held B As Ss Ws E s → cells s !! i = Some (MAtomicRc w) → (B + length As + 1 ≤ n)%nat →
  wp (arc_delete mm tid i)
     (λ _ s', later (set_cells (delete i (cells s)) s) s' ∧ held (S B) As Ss Ws E s') s.
Proof.
  intros [(T & O & Hh & Hinv) Htid Hmr Hpot] Hi Hn.
  destruct (holds_potential _ _ _ _ _ E s Hh) as [HO HlO]. set (g := set_cells (delete i (cells s)) s).
  destruct (cells_inv (T ++ Ss) Ws _ (member_obls (MAtomicRc w) ++ O ++ E) s (delete i (cells s)) Hinv) as [Hinv' Hp'].
  { intros f. rewrite (msum_delete _ (cells s) i _ Hi). rewrite (countb_app f (member_obls (MAtomicRc w))). lia. }
  fold g in Hinv', Hp'. unfold arc_delete, arc_destruct. wp_step. wp_step. eapply loc_load_ok; [exact Hi|done|]. simpl.
  assert (s = put_member (LCell i) (MAtomicRc w) g) as Hs.
  { unfold g. simpl. rewrite insert_delete_id by done. by destruct s. }
  rewrite Hs at 1. apply framed_run; [apply arc_drop_framed|].
  eapply wp_mono; [apply (arc_drop_ok n tid (T ++ Ss) Ws (O ++ E) w g); [done|exact Hinv'|lia]|].
  intros u g1 [[Hinv1 Hst1 _ _] Hp1]. split; [done|]. wp_step. simpl.
  assert (cells g1 !! i = None) as Hg1 by (rewrite (stable_cells _ _ Hst1); apply lookup_delete_eq).
  rewrite delete_insert_id by done. replace (set_cells (cells g1) _) with g1 by by destruct g1.
  split; [by apply stable_later|]. destruct (holds_potential _ _ _ _ _ E g1 Hh) as [HO1 _].
  split; [by eauto|by rewrite (stable_threads _ _ Hst1)|by rewrite (stable_ann _ _ Hst1)|lia].
Qed.

(** What is referred to is in memory. *)
Lemma refers_heap Ss Ws E s q p : Inv Ss Ws E s → refers (heap s) q p → ∃ o, heap s !! p = Some o.
Proof.
  intros Hinv (Hp & o & v & m & Ho & Hv & Hm & Hw). apply list_elem_of_lookup in Hm as [k Hk].
  assert (member_at s (LField q k) m) as Hat by (split; [by eapply Inv_nonnull|by exists o, v]).
  assert (∃ ty, countb (on (En := En) p ty) (member_obls m) = 1%nat) as [ty Hty].
  { unfold member_obls. rewrite Hw, (proj2 (Z.eqb_neq _ _) Hp).
    destruct m; [exists decrement_strong_count|exists decrement_weak_count|exists decrement_strong_count|exists decrement_weak_count];
      simpl; unfold on; simpl; by rewrite bool_decide_eq_true_2. }
  eapply (Inv_on_heap _ _ _ _ _ ty); [exact Hinv|]. pose proof (total_member_at (on p ty) E s _ _ Hat). lia.
Qed.

(** ** Between operations *)

(** The accounts balance and nobody holds a pointer; [N] threads. *)
Record idle (N B : nat) s : Prop := {
  id_inv : Inv [] [] [] s;
  id_potential : (potential [] s ≤ B)%nat;
  id_threads : length (num_allocated s) = N;
  id_reads tid' : (tid' < N)%nat → may_read (announcements s) tid'
}.

Lemma idle_held N B s : idle N B s → (tid < N)%nat → held B [] [] [] [] s.
Proof. intros [Hinv Hp HN Hr] Ht. split; [|lia|auto|done]. exists [], []. split; [constructor|done]. Qed.

Lemma held_idle N B B' s s' :
  idle N B s → held B' [] [] [] [] s' → still_read (announcements s) (announcements s') →
  length (num_allocated s') = length (num_allocated s) → idle N B' s'.
Proof.
  intros [_ _ HN Hr] [(T & O & Hh & Hinv) _ _ Hp] Hsr Hth. inversion Hh; subst.
  split; [done|done|done|]. intros tid' Ht. by apply Hsr, Hr.
Qed.

(** ** What an operation leaves alone *)

(** The atomic pointers outside the objects, the right of the threads to read,
    and that the objects do not refer to each other in a cycle. *)
Definition beside s s' : Prop :=
  cells s' = cells s ∧ still_read (announcements s) (announcements s') ∧
  length (num_allocated s') = length (num_allocated s) ∧ (acyclic (heap s) → acyclic (heap s')).

#[export] Instance beside_preorder : PreOrder beside.
Proof.
  split; [intros s; split; [done|]; split; [reflexivity|done]|]. intros s1 s2 s3 (H1 & H2 & H3 & H7) (H4 & H5 & H6 & H8).
  split_and!; [congruence|by etrans|congruence|auto].
Qed.

Lemma later_beside s s' : later s s' → beside s s'.
Proof. intros [Hev [Hr _]]. split_and!; [apply Hev|done|apply Hev|by apply acyclic_evolves]. Qed.

(** An operation that creates nothing. *)
Definition quiet s s' : Prop :=
  beside s s' ∧ ∀ tid', can_create (announcements s) tid' → can_create (announcements s') tid'.

#[export] Instance quiet_preorder : PreOrder quiet.
Proof. split; [by intros s; split|]. intros s1 s2 s3 [H1 H2] [H3 H4]. split; [by etrans|auto]. Qed.

Lemma later_quiet s s' : later s s' → quiet s s'.
Proof. intros Hl. split; [by apply later_beside|apply Hl]. Qed.

(** Objects refer only to objects of smaller rank. *)
Local Abbreviation ranked rank h := (∀ q p, refers h q p → rank p < rank q)%nat.

(** Writing a pointer inside an object. *)
Lemma ranked_put (rank : Z → nat) s p k m :
  ranked rank (heap s) → (raw (member_word m) ≠ 0 → (rank (raw (member_word m)) < rank p)%nat) →
  ranked rank (heap (put_member (LField p k) m s)).
Proof.
  intros Hr Hlt q p' (Hp' & o & v & m' & Ho & Hv & Hm & Hw). simpl in Ho.
  assert (heap s !! q = Some o → (rank p' < rank q)%nat) as Hold by (intros Hq; apply Hr; split; [done|]; by exists o, v, m').
  destruct (heap s !! p) as [op|] eqn:Hop; [|by apply Hold].
  destruct (storage op) as [vp|] eqn:Hvp; [|by apply Hold]. simpl in Ho. rewrite lookup_insert in Ho.
  case_decide; [|by apply Hold]. simplify_eq. simpl in Hv. simplify_eq. simpl in Hm. apply list_elem_of_lookup in Hm as [j Hj].
  apply list_lookup_insert_Some in Hj as [(_ & <- & _)|[_ Hj]]; [by apply Hlt|].
  apply Hr. split; [done|]. exists op, vp, m'. split_and!; [done..|by eapply list_elem_of_lookup_2|done].
Qed.

(** A new object with one pointer, to which nothing refers yet. *)
Lemma ranked_new (rank : Z → nat) s s' p o v m :
  heap s' !! p = Some o → storage o = Some v → members v = [m] → (∀ q, q ≠ p → heap s' !! q = heap s !! q) →
  (∀ q, ¬ refers (heap s) q p) → raw (member_word m) ≠ p → ranked rank (heap s) →
  ranked (λ q, if decide (q = p) then S (2 * rank (raw (member_word m))) else 2 * rank q)%nat (heap s').
Proof.
  intros Ho Hv Hms Hother Hno Hne Hr q p' (Hp' & oq & vq & m' & Hq & Hvq & Hm & Hw). destruct (decide (q = p)) as [->|Hqp].
  - simplify_eq. rewrite Hms in Hm. apply list_elem_of_singleton in Hm as ->. rewrite decide_False by done. lia.
  - rewrite Hother in Hq by done. assert (refers (heap s) q p') as Href by (split; [done|]; by exists oq, vq, m').
    rewrite decide_False; [|by intros ->; apply (Hno q)]. specialize (Hr _ _ Href). lia.
Qed.

End held.
