(* ===== verification/Stack.v ===== *)
(** * The example stack
    ([atomic_stack] of src/examples/stack.h)

    A linked stack on the pointer library: [head] is an [atomic_rc_ptr], every
    node a managed object with an [rc_ptr] to the next.  The operations are
    modelled with the calls of the pointer classes they make, the destructors of
    their local pointers included.  The theorems are that they implement a list,
    for every backend that keeps [BackendLaws], whatever deferred reclamation
    the calls run. *)

From S2P Require Import Prelude StickyCounter CountedObject MemoryManager Accounting ManagerSafety AtomicLoc Frame Backend Reclamation RcPtr SnapshotPtr AtomicRcPtr SharedCas Held.
Local Open Scope Z_scope.

Section atomic_stack.
  Context {V X En : Type} `{Pol : !Policy} `{Sch : !Scheme V X En} `{Back : !Backend V X En}.
  Context `{Veq : !EqDecision V}.
  Context (self : derived V X En) (tid : nat) (i : nat).
  Local Abbreviation M := (M (state V X En)).

(** [head] is outside the managed objects. *)
Local Abbreviation head := (LCell i).

(** [struct Node] *)
Definition Node (t : V) (next : Z) : payload V := Payload t [MRc next].

(** The member [next] of the node at [p]. *)
Definition next_loc (p : Z) : loc := LField p 0.

(** Reading an [rc_ptr] member. *)
Definition read_rc (l : loc) : M Z :=
  m ← read_member l;
  match m with MRc w => mret w | _ => fail OutOfRange end.

(** [operator=(rc_ptr&&)] on an [rc_ptr] member. *)
Definition member_assign_move (l : loc) (other : Z) : M unit :=
  tmp ← read_rc l;
  write_member l (MRc other);;
  when (negb (is_null tmp)) (decrement_ref_cnt self tid (raw tmp)).

(** [operator=(nullptr)] on an [rc_ptr] member: [clear()]. *)
Definition member_assign_null (l : loc) : M unit :=
  ptr ← read_rc l;
  when (negb (is_null ptr)) (decrement_ref_cnt self tid (raw ptr));;
  write_member l (MRc 0).

(** The loop of [find], on plain pointers: the node it stops at. *)
Fixpoint find_loop (fuel : nat) (t : V) (node : Z) : M Z :=
  match fuel with
  | O => fail OutOfFuel
  | S fuel' =>
      if node =? 0 then mret 0
      else
        v ← rc_deref node;
        if decide (data v = t) then mret node
        else
          next ← read_rc (next_loc node);
          find_loop fuel' t (rc_get next)
  end.

Definition stack_find (fuel : nat) (t : V) : M bool :=
  ss ← arc_get_snapshot tid head;
  node ← find_loop fuel t (snap_get ss);
  snap_clear self tid ss;;
  mret (negb (node =? 0)).

(** The loop of [push_front]: [expected] is the member [next] of the new node,
    which a failed [compare_exchange_weak] overwrites with [load()]. *)
Fixpoint push_loop (rounds : nat) (new_node : Z) : M unit :=
  match rounds with
  | O => fail OutOfFuel
  | S rounds' =>
      expected ← read_rc (next_loc (rc_get new_node));
      b ← compare_and_swap self tid head expected new_node false;
      if b : bool then mret tt
      else
        loaded ← arc_load tid head;
        member_assign_move (next_loc (rc_get new_node)) loaded;;
        push_loop rounds' new_node
  end.

Definition push_front (rounds : nat) (t : V) : M unit :=
  loaded ← arc_load tid head;
  new_node ← make_shared tid (Node t loaded);
  push_loop rounds new_node;;
  rc_clear self tid new_node;;
  mret tt.

(** [return {ss->t}] or [return {}], and the destructor of [ss]. *)
Definition return_front (ss : acquired) : M (option V) :=
  r ← (if snap_bool ss then v ← snap_deref ss; mret (Some (data v)) else mret None);
  snap_clear self tid ss;;
  mret r.

Definition front : M (option V) :=
  ss ← arc_get_snapshot tid head;
  return_front ss.

Fixpoint pop_loop (rounds : nat) (ss : acquired) : M acquired :=
  match rounds with
  | O => fail OutOfFuel
  | S rounds' =>
      if snap_bool ss then
        next ← read_rc (next_loc (snap_get ss));
        r ← compare_exchange_weak_snapshot self tid head ss next;
        if fst r : bool then mret (snd r) else pop_loop rounds' (snd r)
      else mret ss
  end.

Definition pop_front (rounds : nat) : M (option V) :=
  ss ← arc_get_snapshot tid head;
  ss ← pop_loop rounds ss;
  return_front ss.

(** The loop of the destructor: [node] and [next] afterwards. *)
Fixpoint unlink_loop (fuel : nat) (node next : Z) : M (Z * Z) :=
  match fuel with
  | O => fail OutOfFuel
  | S fuel' =>
      if rc_bool next then
        node ← rc_assign_copy self tid node next;
        nx ← read_rc (next_loc (rc_get node));
        next ← rc_assign_copy self tid next nx;
        member_assign_null (next_loc (rc_get node));;
        unlink_loop fuel' node next
      else mret (node, next)
  end.

(** [~atomic_stack]; the member [head] is destroyed last. *)
Definition stack_destruct (fuel : nat) : M unit :=
  node ← arc_load tid head;
  node ← (if rc_bool node then
            arc_store_null self tid head;;
            nx ← read_rc (next_loc (rc_get node));
            next ← rc_copy nx;
            member_assign_null (next_loc (rc_get node));;
            r ← unlink_loop fuel node next;
            rc_clear self tid (snd r);;
            mret (fst r)
          else mret node);
  rc_clear self tid node;;
  arc_destruct self tid head.

End atomic_stack.

(** ** The list it represents *)

Section stack_ok.
  Context {V X En : Type} `{Pol : !Policy} `{Sch : !Scheme V X En} `{Laws : !SchemeLaws V X En}
    `{Back : !Backend V X En} `{BLaws : !BackendLaws V X En}.
  Context `{Veq : !EqDecision V}.
  Context (n : nat) (tid : nat) (i : nat).
  Local Abbreviation st := (state V X En).
  Local Abbreviation mm := (manager n).
  Local Abbreviation head := (LCell i).
  Implicit Types (s : st) (E : list (obl En)) (Ss Ws : list snap) (w : Z) (xs : list V).

Fixpoint chain s w xs : Prop :=
  match xs with
  | [] => is_null w = true
  | x :: xs' =>
      is_null w = false ∧
      ∃ o w', heap s !! raw w = Some o ∧ storage o = Some (Node x w') ∧ chain s w' xs'
  end.

Definition is_stack s xs : Prop := ∃ w, member_at s head (MAtomicRc w) ∧ chain s w xs.

Lemma live_value s s' p o v :
  evolves s s' → live s' p → heap s !! p = Some o → storage o = Some v →
  ∃ o', heap s' !! p = Some o' ∧ storage o' = Some v.
Proof.
  intros Hev Hl Ho Hv. destruct (evolves_live s s' p Hev) as (o1 & o' & v1 & H1 & H2 & H3 & H4); [by exists o, v|done|].
  simplify_eq. eauto.
Qed.

Lemma stack_node_member s w o x w' :
  is_null w = false → heap s !! raw w = Some o → storage o = Some (Node x w') →
  member_at s (next_loc (raw w)) (MRc w').
Proof.
  intros Hw Ho Hv. split; [by apply Z.eqb_neq|]. by eexists _, _.
Qed.

(** A chain that is referenced stays. *)
Lemma chain_evolves Ss Ws E w xs s s' :
  chain s w xs → evolves s s' → Inv Ss Ws E s' →
  (is_null w = false → (0 < total (on (raw w) decrement_strong_count) E s')%nat) → chain s' w xs.
Proof.
  revert w. induction xs as [|x xs IH]; intros w; simpl; [done|].
  intros (Hw & o & w' & Ho & Hv & Hc) Hev Hinv Href. split; [done|].
  assert (live s' (raw w)) as Hl by (apply (Inv_live Ss Ws E s' _ decrement_strong_count); auto).
  destruct (live_value s s' (raw w) o (Node x w') Hev Hl Ho Hv) as (o' & Ho' & Hv').
  exists o', w'. split_and!; [done..|]. apply IH; [done..|]. intros Hw'.
  eapply member_rc_strong; [by eapply (stack_node_member s' w o')|done].
Qed.

Lemma chain_heap w xs s s' : chain s w xs → (∀ p o, heap s !! p = Some o → heap s' !! p = Some o) → chain s' w xs.
Proof.
  intros Hc Hh. revert w Hc. induction xs as [|x xs IH]; intros w; simpl; [done|].
  intros (Hw & o & w' & Ho & Hv & Hc). split; [done|]. exists o, w'. split_and!; eauto.
Qed.

Lemma is_stack_later xs s s' B As Ss Ws E :
  is_stack s xs → evolves s s' → held tid B As Ss Ws E s' → is_stack s' xs.
Proof.
  intros (w & Hm & Hc) Hev Hh. exists w. assert (member_at s' head (MAtomicRc w)) as Hm'
    by (simpl in *; by rewrite (ev_cells _ _ Hev)).
  split; [done|]. destruct (held_inv _ _ _ _ _ _ _ Hh) as (Ss' & E' & Hinv).
  eapply chain_evolves; [done..|]. intros Hw. by eapply member_strong.
Qed.

Lemma wp_read_rc l w (Q : Z → st → Prop) s : member_at s l (MRc w) → Q w s → wp (read_rc l) Q s.
Proof. intros Hm HQ. unfold read_rc. wp_step. eapply wp_read_member; [done|]. simpl. by wp_step. Qed.

(** The value of a node that a snapshot keeps. *)
Lemma held_node B As Ss Ws E s s' a o x w' :
  evolves s s' → held tid B As Ss Ws E s' → a ∈ As → is_null (acq_value a) = false →
  heap s !! raw (acq_value a) = Some o → storage o = Some (Node x w') →
  ∃ o', heap s' !! raw (acq_value a) = Some o' ∧ storage o' = Some (Node x w').
Proof. intros Hev Hh Ha Hn Ho Hv. eapply live_value; [done|by eapply held_live|done..]. Qed.

(** ** front *)

Lemma return_front_ok B As Ss Ws E s ss xs r :
  held tid B (ss :: As) Ss Ws E s → is_stack s xs → (B + S (length As) ≤ n)%nat →
  match r with
  | None => is_null (acq_value ss) = true
  | Some x => is_null (acq_value ss) = false ∧
      ∃ o w, heap s !! raw (acq_value ss) = Some o ∧ storage o = Some (Node x w)
  end →
  wp (return_front mm tid ss)
     (λ r' s', r' = r ∧ later s s' ∧ held tid B As Ss Ws E s' ∧ is_stack s' xs) s.
Proof.
  intros Hh Hst Hn Hr. unfold return_front, snap_bool. wp_step.
  assert (wp (if negb (is_null (acq_value ss)) then v ← snap_deref ss; mret (Some (data v)) else mret None)
    (λ r' s', r' = r ∧ s' = s) s) as Hread.
  { destruct r as [x|]; [|rewrite Hr; simpl; by wp_step]. destruct Hr as (Hnn & o & w & Ho & Hv). rewrite Hnn. simpl. wp_step.
    eapply wp_mono; [eapply (held_deref tid); [exact Hh|by left|done]|]. intros v s1 (-> & o' & Ho' & Hv').
    wp_step. simplify_eq. done. }
  eapply wp_mono; [exact Hread|]. intros r' s1 [-> ->]. wp_step.
  eapply wp_mono; [by apply (held_clear n tid B ss As Ss Ws E)|]. intros b s1 (_ & Hl & Hh'). wp_step.
  split; [done|]. split; [done|]. split; [done|]. eapply is_stack_later; [done|apply Hl|done].
Qed.

Lemma front_ok B As Ss Ws E s xs :
  held tid B As Ss Ws E s → is_stack s xs → (B + S (length As) ≤ n)%nat → fits n →
  wp (front mm tid i)
     (λ r s', r = hd_error xs ∧ later s s' ∧ held tid B As Ss Ws E s' ∧ is_stack s' xs) s.
Proof.
  intros Hh Hst Hn Hf. unfold front. wp_step. pose proof Hst as (w & Hm & Hc). unfold fits in *.
  eapply wp_mono; [apply (held_get_snapshot tid B As Ss Ws E head w); [done..|unfold fits; lia]|].
  intros a s1 (Hsv & Hl & Hh1 & Ha%snapshot_value).
  assert (is_stack s1 xs) as Hst1 by (eapply is_stack_later; [done|apply Hl|done]).
  eapply wp_mono; [apply (return_front_ok B As Ss Ws E s1 a xs (hd_error xs)); try done|].
  - destruct xs as [|x xs]; simpl in *; [by rewrite Hc in Ha|]. destruct Hc as (Hw & o & w' & Ho & Hv & Hc).
    rewrite Hw in Ha. rewrite Ha. split; [done|].
    destruct (held_node B (a :: As) Ss Ws E s s1 a o x w') as (o' & ? & ?); [apply Hl|done|by left|by rewrite Ha..|done|].
    rewrite Ha in *. eauto.
  - intros r s2 (-> & Hl2 & Hh2 & Hst2). split; [done|]. split; [by etrans|]. done.
Qed.

(** ** find *)

Lemma find_loop_ok Ss Ws E s t w xs fuel :
  Inv Ss Ws E s → chain s w xs → (length xs < fuel)%nat →
  wp (find_loop fuel t (rc_get w)) (λ r s', s' = s ∧ (r =? 0) = negb (bool_decide (t ∈ xs))) s.
Proof.
  intros Hinv. revert w xs. induction fuel as [|fuel IH]; intros w xs Hc Hf; [lia|]. simpl.
  destruct xs as [|x xs]; simpl in Hc.
  - unfold rc_get. rewrite Hc. cbn [Z.eqb]. wp_step. split; [done|]. by rewrite bool_decide_eq_false_2 by set_solver.
  - destruct Hc as (Hw & o & w' & Ho & Hv & Hc). unfold rc_get at 1. rewrite Hw. unfold is_null in Hw. rewrite Hw.
    fold (is_null w) in Hw. wp_step. unfold rc_get at 1. rewrite Hw. eapply wp_mono.
    { eapply (rc_deref_ok Ss Ws E); [done|]. rewrite raw_idemp. by exists o, (Node x w'). }
    intros v s1 (-> & o1 & Ho1 & Hv1). rewrite raw_idemp in Ho1. simplify_eq. simpl.
    destruct (decide (x = t)) as [->|Hne].
    + wp_step. split; [done|]. rewrite bool_decide_eq_true_2 by set_solver. unfold rc_get. rewrite Hw. by apply Z.eqb_neq, Z.eqb_neq.
    + wp_step. eapply wp_read_rc; [unfold rc_get; rewrite Hw; by eapply stack_node_member|].
      eapply wp_mono; [apply (IH w' xs Hc); simpl in Hf; lia|]. intros r s1 [-> ->]. split; [done|]. f_equal.
      apply bool_decide_ext. set_solver.
Qed.

Lemma stack_find_ok B As Ss Ws E s xs t fuel :
  held tid B As Ss Ws E s → is_stack s xs → (length xs < fuel)%nat → (B + S (length As) ≤ n)%nat → fits n →
  wp (stack_find mm tid i fuel t)
     (λ r s', r = bool_decide (t ∈ xs) ∧ later s s' ∧ held tid B As Ss Ws E s' ∧ is_stack s' xs) s.
Proof.
  intros Hh Hst Hfu Hn Hf. unfold stack_find. wp_step. pose proof Hst as (w & Hm & Hc). unfold fits in *.
  eapply wp_mono; [apply (held_get_snapshot tid B As Ss Ws E head w); [done..|unfold fits; lia]|].
  intros a s1 (Hsv & Hl & Hh1 & Ha%snapshot_value).
  assert (is_stack s1 xs) as Hst1 by (eapply is_stack_later; [done|apply Hl|done]). wp_step.
  destruct (held_inv _ _ _ _ _ _ _ Hh1) as (Ss' & E' & Hinv).
  assert (chain s1 (acq_value a) xs) as Hc1.
  { destruct Hst1 as (w1 & Hm1 & Hc1). assert (w1 = w) as -> by (simpl in *; rewrite (sv_cells _ _ Hsv) in Hm1; congruence).
    destruct (is_null w) eqn:Hw; [|by rewrite Ha]. destruct xs; simpl in *; [done|by destruct Hc1; congruence]. }
  eapply wp_mono; [apply (find_loop_ok Ss' Ws E' s1 t (acq_value a) xs fuel Hinv Hc1 Hfu)|].
  intros r s2 [-> Hr]. wp_step. eapply wp_mono; [by apply (held_clear n tid B a As Ss Ws E)|].
  intros b s2 (_ & Hl2 & Hh2). wp_step. rewrite Hr, negb_involutive. split; [done|]. split; [by etrans|].
  split; [done|]. eapply is_stack_later; [done|apply Hl2|done].
Qed.

(** What an operation leaves alone for the other threads: the other cells, the
    right to read, and that the objects do not refer to each other in a cycle. *)
Definition after_op s s' : Prop :=
  (∀ j, j ≠ i → cells s' !! j = cells s !! j) ∧
  still_read (announcements s) (announcements s') ∧ length (num_allocated s') = length (num_allocated s) ∧
  (acyclic (heap s) → acyclic (heap s')).

#[export] Instance after_op_preorder : PreOrder after_op.
Proof.
  split; [intros s; split; [done|]; split; [reflexivity|done]|]. intros s1 s2 s3 (H0 & H1 & H2 & H3) (H0' & H4 & H5 & H6).
  split_and!; [intros j Hj; rewrite H0' by done; auto|by etrans|congruence|auto].
Qed.

Lemma later_op s s' : later s s' → after_op s s'.
Proof. intros [Hev [Hr _]]. split_and!; [by rewrite (ev_cells _ _ Hev)|done|apply Hev|by apply acyclic_evolves]. Qed.

Lemma later_put_op s s' m : later (put_member head m s) s' → after_op s s'.
Proof.
  intros [Hev [Hr _]]. split_and!; [|done|apply Hev|intros Hac; by eapply acyclic_evolves].
  intros j Hj. rewrite (ev_cells _ _ Hev). simpl. by rewrite lookup_insert_ne.
Qed.

(** ** push_front *)

(** The head points to a chain. *)
Lemma is_stack_head w xs s s' B As Ss Ws E :
  chain s w xs → evolves s s' → member_at s' head (MAtomicRc w) → held tid B As Ss Ws E s' → is_stack s' xs.
Proof.
  intros Hc Hev Hm Hh. exists w. split; [done|]. destruct (held_inv _ _ _ _ _ _ _ Hh) as (Ss' & E' & Hinv).
  eapply chain_evolves; [done..|]. intros Hw. by eapply member_strong.
Qed.

Lemma push_front_ok B As Ss Ws E s xs t rounds :
  held tid B As Ss Ws E s → is_stack s xs → can_create (announcements s) tid →
  (B + length As + 9 ≤ n)%nat → fits n →
  wp (push_front mm tid i (S rounds) t)
     (λ _ s', held tid (B + 5) As Ss Ws E s' ∧ is_stack s' (t :: xs) ∧ after_op s s') s.
Proof.
  intros Hh (w & Hm & Hc) Hcc Hn Hf. unfold push_front. wp_step. unfold fits in Hf.
  eapply wp_mono; [apply (held_load tid B As Ss Ws E head w); [done..|unfold fits; lia]|].
  intros r s1 (-> & Hsv1 & Hl1 & Hh1). wp_step.
  assert (is_stack s1 xs) as (w1 & Hm1 & Hc1) by (eapply is_stack_later; [by exists w|apply Hl1|done]).
  assert (w1 = w) as -> by (simpl in *; rewrite (sv_cells _ _ Hsv1) in Hm1; congruence).
  eapply wp_mono; [apply (held_make tid (S B) As Ss Ws E (Node t w) s1); [|by apply Hl1]|].
  { simpl. unfold members_obls. simpl. by rewrite app_nil_r. }
  intros p s2 (Hh2 & Hnn & Hraw & Hfresh & (o & Ho & Hv) & Hother & Hcells & Hth & Hrk2).
  assert (chain s2 p (t :: xs)) as Hc2.
  { split; [done|]. exists o, w. rewrite Hraw. split_and!; [done..|]. eapply chain_heap; [exact Hc1|].
    intros q oq Hq. rewrite Hother; [done|congruence]. }
  assert (member_at s2 head (MAtomicRc w)) as Hm2 by (simpl in *; congruence).
  wp_step. cbn [push_loop]. unfold rc_get. rewrite Hnn, Hraw. wp_step.
  eapply wp_read_rc; [rewrite <-Hraw; eapply stack_node_member; [done|by rewrite Hraw|done]|]. wp_step.
  rewrite rc_obls, Hnn, Hraw in Hh2. eapply wp_mono.
  { apply (held_cas n tid (S B + 2) As Ss Ws _ head w p w false s2 Hh2 Hm2); [done| |lia|done].
    intros _. right. left. rewrite Hraw. by left. }
  intros b s3 (-> & Hl3 & Hm3 & Hh3). rewrite Z.eqb_refl in *. wp_step.
  assert (is_stack s3 (t :: xs)) as Hst3.
  { eapply is_stack_head; [|apply Hl3|exact Hm3|exact Hh3]. eapply chain_heap; [exact Hc2|done]. }
  wp_step. eapply wp_mono.
  { apply (held_drop n tid (S B + 2 + 2) As Ss Ws E p s3); [by rewrite rc_obls, Hnn, Hraw|lia]. }
  intros r s4 (_ & Hl4 & Hh4). wp_step. replace (B + 5)%nat with (S B + 2 + 2)%nat by lia. split; [done|].
  split; [eapply is_stack_later; [done|apply Hl4|done]|].
  destruct (held_inv _ _ _ _ _ _ _ Hh1) as (Ss1 & E1 & Hinv1).
  assert (after_op s1 s2) as Hop2.
  { split_and!; [by rewrite Hcells|done|done|]. intros [rank Hr]. eexists. apply (ranked_new rank s1 s2 p o (Node t w) (MRc w)); try done.
    - intros q Hrf. eapply refers_heap in Hrf as [? ?]; [|exact Hinv1]. congruence.
    - simpl. intros Heq. destruct xs; simpl in Hc1; [|destruct Hc1 as (_ & ? & ? & ? & _); congruence].
      unfold is_null in *. apply Z.eqb_eq in Hc1. apply Z.eqb_neq in Hnn. congruence. }
  etrans; [by apply later_op|]. etrans; [exact Hop2|]. etrans; [by eapply later_put_op|by apply later_op].
Qed.

(** ** pop_front *)

Lemma pop_front_ok B As Ss Ws E s xs rounds :
  held tid B As Ss Ws E s → is_stack s xs → (B + length As + 7 ≤ n)%nat → fits n →
  wp (pop_front mm tid i (S rounds))
     (λ r s', r = hd_error xs ∧ held tid (B + 2) As Ss Ws E s' ∧ is_stack s' (tl xs) ∧ after_op s s') s.
Proof.
  intros Hh Hst Hn Hf. unfold pop_front. wp_step. pose proof Hst as (w & Hm & Hc). unfold fits in Hf.
  eapply wp_mono; [apply (held_get_snapshot tid B As Ss Ws E head w); [done..|unfold fits; lia]|].
  intros a s1 (Hsv & Hl & Hh1 & Ha%snapshot_value).
  assert (is_stack s1 xs) as Hst1 by (eapply is_stack_later; [done|apply Hl|done]).
  pose proof Hst1 as (w1 & Hm1 & Hc1).
  assert (w1 = w) as -> by (simpl in *; rewrite (sv_cells _ _ Hsv) in Hm1; congruence).
  wp_step. cbn [pop_loop]. unfold snap_bool. destruct xs as [|x xs]; simpl in Hc1.
  - rewrite Hc1 in Ha. rewrite Ha. simpl. wp_step.
    eapply wp_mono; [apply (return_front_ok (B + 2) As Ss Ws E s1 a [] None); [|done|lia|done]|].
    { destruct Hh1. split; [done..|lia]. }
    intros r s2 (-> & Hl2 & Hh2 & Hst2). split_and!; try done. etrans; by apply later_op.
  - destruct Hc1 as (Hw & o & w' & Ho & Hv & Hc1). rewrite Hw in Ha. rewrite Ha, Hw. simpl. wp_step.
    assert (member_at s1 (next_loc (raw w)) (MRc w')) as Hnx by by eapply stack_node_member.
    eapply wp_read_rc; [unfold snap_get; rewrite Ha, Hw; exact Hnx|]. wp_step.
    unfold compare_exchange_weak_snapshot, snap_get_counted. rewrite Ha. wp_step. eapply wp_mono.
    { apply (held_cas n tid B (a :: As) Ss Ws E head w w' w false s1 Hh1 Hm1); [done| |simpl; lia|done].
      intros _. right. right. exists (next_loc (raw w)). split; [done|]. left. exists a.
      split; [by left|]. by rewrite Ha. }
    intros b s2 (-> & Hl2 & Hm2 & Hh2). rewrite Z.eqb_refl in *. wp_step. simpl. wp_step.
    assert (is_stack s2 xs) as Hst2.
    { eapply is_stack_head; [|apply Hl2|exact Hm2|exact Hh2]. eapply chain_heap; [exact Hc1|done]. }
    eapply wp_mono; [apply (return_front_ok (B + 2) As Ss Ws E s2 a xs (Some x)); [done|done|lia|]|].
    + rewrite Ha. split; [done|].
      destruct (held_node (B + 2) (a :: As) Ss Ws E _ s2 a o x w' (proj1 Hl2) Hh2) as (o' & ? & ?); [by left|by rewrite Ha|by rewrite Ha|done|].
      rewrite Ha in *. eauto.
    + intros r s3 (-> & Hl3 & Hh3 & Hst3). split_and!; try done.
      etrans; [by apply later_op|]. etrans; [by eapply later_put_op|by apply later_op].
Qed.

(** ** The destructor *)

(** [node->next = nullptr]: the reference is dropped while the word is still
    there, and then the word is cleared. *)
Lemma member_assign_null_ok B As Ss Ws E l w s :
  held tid B As Ss Ws E s → member_at s l (MRc w) → kept_loc As Ss Ws E l → (B + length As ≤ n)%nat →
  wp (member_assign_null mm tid l)
     (λ _ s', later (put_member l (MRc 0) s) s' ∧ member_at s' l (MRc 0) ∧ held tid B As Ss Ws E s') s.
Proof.
  intros [(T & O & Hh & Hinv) Htid Hmr Hpot] Hm Hl Hn.
  destruct (holds_potential _ _ _ _ _ E s Hh) as [HO HlO]. set (g := put_member l (MRc 0) s).
  assert (member_obls (En := En) (MRc 0) = []) as Hnil by (rewrite rc_obls; unfold is_null; by rewrite raw_aligned).
  destruct (put_member_inv (T ++ Ss) Ws (O ++ E) (member_obls (MRc w) ++ O ++ E) s l (MRc w) (MRc 0) Hinv Hm) as (Hg & Hpg & _).
  { intros f. rewrite Hnil, countb_app. simpl. lia. }
  fold g in Hg, Hpg. destruct (put_member_rest s l (MRc 0)) as (Ha & Hth & _). fold g in Ha, Hth.
  unfold member_assign_null. wp_step. eapply wp_read_rc; [done|]. wp_step.
  assert (s = put_member l (MRc w) g) as Hs by (unfold g; by rewrite put_put, put_self).
  rewrite Hs at 1. destruct (manager_framed l (MRc w) n) as [H1 H2].
  apply framed_run; [by apply framed_when, decrement_ref_cnt_framed|].
  eapply wp_mono; [apply (drop_ref_ok n tid (T ++ Ss) Ws (O ++ E) w g); [by rewrite Hth|done|lia]|].
  intros u g1 [Hk Hp1]. pose proof (kept_safe_preserves _ _ _ _ _ Hk) as Hpr. pose proof Hk as [Hinv1 Hst1 _ _].
  assert (member_at g1 l (MRc 0)) as Hm1.
  { eapply evolves_member; [done|by eapply kept_loc_held|by eapply member_at_put]. }
  split; [by eapply loc_live_member|]. eapply wp_write_member; [by eapply member_at_put|].
  rewrite put_put, put_self by done. split; [by apply stable_later|]. split; [done|].
  rewrite potential_app in Hpg. eapply (held_own tid B); [done|exact Hinv1|done|..].
  - by rewrite (stable_threads _ _ Hst1), Hth.
  - by rewrite (stable_ann _ _ Hst1), Ha.
  - lia.
  - done.
Qed.

(** A chain is determined by its first address. *)
Lemma chain_unique s w v xs ys : chain s w xs → chain s v ys → raw w = raw v → xs = ys.
Proof.
  revert w v ys. induction xs as [|x xs IH]; intros w v [|y ys]; simpl; unfold is_null.
  - done.
  - intros Hw (Hv & _) Heq. congruence.
  - intros (Hw & _) Hv Heq. congruence.
  - intros (_ & o & w' & Ho & Hst & Hc) (_ & o' & v' & Ho' & Hst' & Hc') Heq. rewrite Heq in Ho. simplify_eq.
    f_equal. by eapply IH.
Qed.

(** So the rest of a chain does not pass through its first node. *)
Lemma chain_rest s s' w w' x o xs :
  is_null w = false → heap s !! raw w = Some o → storage o = Some (Node x w') → chain s w' xs →
  (∀ q, q ≠ raw w → heap s' !! q = heap s !! q) → chain s' w' xs.
Proof.
  intros Hw Ho Hv Hc Hh. assert (chain s w (x :: xs)) as Hw0 by (split; [done|]; by exists o, w').
  assert (∀ v zs, chain s v zs → (length zs ≤ length xs)%nat → chain s' v zs) as Hgen; [|by apply Hgen].
  intros v zs. revert v. induction zs as [|z zs IH]; intros v; simpl; [done|].
  intros Hv0 Hlen. pose proof Hv0 as (Hnn & o1 & v' & Ho1 & Hv1 & Hc1). split; [done|]. exists o1, v'.
  rewrite Hh; [split_and!; [done..|]; apply IH; [done|lia]|].
  intros Heq. pose proof (chain_unique s v w (z :: zs) (x :: xs) Hv0 Hw0 Heq) as Hx.
  apply (f_equal length) in Hx. simpl in Hx. lia.
Qed.

Lemma later_put_beside s s' p k : later (put_member (LField p k) (MRc 0) s) s' → beside s s'.
Proof.
  intros [Hev Hr]. destruct (put_member_rest s (LField p k) (MRc 0)) as (Ha & Hth & _). rewrite Ha in Hr. destruct Hr as [Hr _].
  split_and!; [rewrite (ev_cells _ _ Hev); simpl; repeat case_match; done|done|by rewrite (ev_threads _ _ Hev), Hth|].
  intros [rank Hrank]. eapply acyclic_evolves; [done|]. exists rank. apply ranked_put; [done|]. simpl. by rewrite raw_aligned.
Qed.

(** A node with an owned reference keeps its value. *)
Lemma held_owned_node B As Ss Ws E s s' w o x w' :
  evolves s s' → held tid B As Ss Ws E s' → OStrong (raw w) ∈ E →
  heap s !! raw w = Some o → storage o = Some (Node x w') →
  ∃ o', heap s' !! raw w = Some o' ∧ storage o' = Some (Node x w').
Proof.
  intros Hev [(T & O & _ & Hinv) _ _ _] Hin Ho Hv. eapply live_value; [done| |done..].
  eapply Inv_strong_live; [done|]. apply elem_of_app. by right.
Qed.

Lemma stack_put_next_heap s p m q : q ≠ p → heap (put_member (next_loc p) m s) !! q = heap s !! q.
Proof. intros Hne. simpl. repeat case_match; try done. simpl. by rewrite lookup_insert_ne. Qed.

(** Detaching the chain [next] of a node that is owned: the node points to
    nothing and the caller owns the rest. *)
Lemma detach_ok B As Ss Ws E s w o x w' xs :
  held tid B As Ss Ws (member_obls (MRc w') ++ E) s → OStrong (raw w) ∈ E → is_null w = false →
  heap s !! raw w = Some o → storage o = Some (Node x w') → chain s w' xs → (B + length As ≤ n)%nat →
  wp (member_assign_null mm tid (next_loc (raw w)))
     (λ _ s', beside s s' ∧ chain s' w' xs ∧ held tid B As Ss Ws (member_obls (MRc w') ++ E) s') s.
Proof.
  intros Hh Hin Hw Ho Hv Hc Hn. eapply wp_mono.
  { apply (member_assign_null_ok B As Ss Ws _ (next_loc (raw w)) w' s Hh); [by eapply stack_node_member| |done].
    right. apply elem_of_app. by right. }
  intros u s' (Hl & Hm & Hh'). split; [by eapply later_put_beside|]. split; [|done].
  destruct Hh' as [(T & O & _ & Hinv) _ _ _]. eapply (chain_evolves _ _ _ w' xs); [|apply Hl|exact Hinv|].
  - eapply chain_rest; [done..|]. intros q Hq. by apply stack_put_next_heap.
  - intros Hnn. rewrite rc_obls, Hnn. apply owned_strong, elem_of_app. right. by left.
Qed.

Lemma swap_refs (E1 E2 E : list (obl En)) : E1 ++ E2 ++ E ≡ₚ E2 ++ E1 ++ E.
Proof. rewrite !app_assoc. f_equiv. apply Permutation_app_comm. Qed.

(** A chain that the caller owns stays. *)
Lemma chain_owned B As Ss Ws E s s' w xs :
  chain s w xs → evolves s s' → held tid B As Ss Ws E s' → (is_null w = false → OStrong (raw w) ∈ E) → chain s' w xs.
Proof.
  intros Hc Hev [(T & O & _ & Hinv) _ _ _] Ho. eapply chain_evolves; [done|done|exact Hinv|].
  intros Hw. apply owned_strong, elem_of_app. right. auto.
Qed.

Lemma unlink_loop_ok B As Ss Ws E fuel ys node next s :
  held tid B As Ss Ws (member_obls (MRc node) ++ member_obls (MRc next) ++ E) s → is_null node = false →
  chain s next ys → (length ys < fuel)%nat → (B + length As + 2 ≤ n)%nat → fits n →
  wp (unlink_loop mm tid fuel node next)
     (λ r s', is_null (snd r) = true ∧ beside s s' ∧ held tid B As Ss Ws (member_obls (MRc (fst r)) ++ E) s') s.
Proof.
  revert fuel node next s. induction ys as [|y ys IH]; intros [|fuel] node next s Hh Hnode Hc Hlen Hn Hf; simpl in Hlen; try lia.
  - simpl in Hc. simpl. unfold rc_bool. rewrite Hc. simpl. wp_step. split; [done|]. split; [reflexivity|].
    rewrite (rc_obls next), Hc in Hh. done.
  - pose proof Hc as (Hw & _). cbn [unlink_loop]. unfold rc_bool. rewrite Hw. simpl. wp_step.
    assert (OStrong (raw next) ∈ member_obls (En := En) (MRc next) ++ E) as Hin
      by (apply elem_of_app; left; rewrite rc_obls, Hw; by left).
    eapply wp_mono; [apply (held_assign_copy n tid B As Ss Ws _ node next s Hh Hnode); [auto|lia|done]|].
    intros r s1 (-> & Hl1 & Hh1). assert (chain s1 next (y :: ys)) as Hc1.
    { eapply chain_owned; [done|apply Hl1|exact Hh1|]. intros _. apply elem_of_app. by right. }
    destruct Hc1 as (_ & o & w' & Ho & Hv & Hc1). unfold rc_get. rewrite Hw. wp_step.
    assert (member_at s1 (next_loc (raw next)) (MRc w')) as Hm1 by by eapply stack_node_member.
    eapply wp_read_rc; [exact Hm1|]. wp_step.
    eapply wp_mono; [apply (held_assign_copy n tid B As Ss Ws _ next w' s1 Hh1 Hw); [eauto|lia|done]|].
    intros r s2 (-> & Hl2 & Hh2). wp_step.
    destruct (held_owned_node B As Ss Ws _ s1 s2 next o y w' (proj1 Hl2) Hh2) as (o2 & Ho2 & Hv2); [|done..|].
    { apply elem_of_app. by right. }
    assert (chain s2 w' ys) as Hc2.
    { eapply chain_owned; [exact Hc1|apply Hl2|exact Hh2|]. intros Hw'. apply elem_of_app. left.
      rewrite rc_obls, Hw'. by left. }
    eapply wp_mono; [apply (detach_ok B As Ss Ws _ s2 next o2 y w' ys Hh2 Hin); [done..|lia]|].
    intros u s3 (Hb3 & Hc3 & Hh3). apply (held_refs tid _ _ _ _ _ _ _ (swap_refs _ _ _)) in Hh3.
    eapply wp_mono; [apply (IH fuel next w' s3 Hh3); [done..|lia|done|done]|].
    intros r s4 (Hnull & Hb4 & Hh4). split; [done|]. split; [|done].
    apply later_beside in Hl1, Hl2. etrans; [done|]. etrans; [done|]. by etrans.
Qed.

Lemma stack_destruct_ok B As Ss Ws E s xs fuel :
  held tid B As Ss Ws E s → is_stack s xs → (length xs ≤ fuel)%nat → (B + length As + 6 ≤ n)%nat → fits n →
  wp (stack_destruct mm tid i (S fuel))
     (λ _ s', held tid (B + 3) As Ss Ws E s' ∧ after_op s s' ∧
              ∃ w, cells s' = <[i := MAtomicRc w]> (cells s) ∧ is_null w = true) s.
Proof.
  intros Hh Hst Hlen Hn Hf. pose proof Hst as (w & Hm & Hc). unfold stack_destruct. wp_step. unfold fits in Hf.
  eapply wp_mono; [apply (held_load tid B As Ss Ws E head w); [done..|unfold fits; lia]|].
  intros r s1 (-> & Hsv1 & Hl1 & Hh1).
  assert (is_stack s1 xs) as (w1 & Hm1 & Hc1) by (eapply is_stack_later; [done|apply Hl1|done]).
  assert (w1 = w) as -> by (simpl in *; rewrite (sv_cells _ _ Hsv1) in Hm1; congruence).
  wp_step. unfold rc_bool. destruct (is_null w) eqn:Hw; simpl.
  - wp_step. wp_step. unfold rc_clear, arc_destruct. rewrite Hw. wp_steps.
    eapply loc_load_ok; [exact Hm1|done|]. simpl. unfold arc_drop. rewrite Hw. simpl. wp_step.
    rewrite rc_obls, Hw in Hh1. split; [eapply held_mono; [|exact Hh1]; lia|]. split; [by apply later_op|].
    exists w. split; [|done]. rewrite insert_id by done. apply (sv_cells _ _ Hsv1).
  - destruct xs as [|x xs]; [simpl in Hc1; congruence|]. simpl in Hlen.
    wp_step. eapply wp_mono; [apply (held_store_null n tid (S B) As Ss Ws _ head w s1 Hh1 Hm1); lia|].
    intros u s2 (Hl2 & Hh2).
    assert (cells s2 = <[i := MAtomicRc 0]> (cells s)) as Hm2
      by (rewrite (ev_cells _ _ (proj1 Hl2)); simpl; by rewrite (sv_cells _ _ Hsv1)).
    assert (OStrong (raw w) ∈ member_obls (En := En) (MRc w) ++ E) as Hin
      by (apply elem_of_app; left; rewrite rc_obls, Hw; by left).
    assert (chain s2 w (x :: xs)) as (_ & o & w' & Ho & Hv & Hc2).
    { eapply chain_owned; [|apply Hl2|exact Hh2|done]. eapply chain_heap; [exact Hc1|done]. }
    assert (member_at s2 (next_loc (raw w)) (MRc w')) as Hnx by by eapply stack_node_member.
    wp_step. eapply wp_read_rc; [unfold rc_get; rewrite Hw; exact Hnx|]. wp_step.
    eapply wp_mono; [apply (held_copy tid (S (S B)) As Ss Ws _ w' s2 Hh2); [unfold fits; lia|by eauto]|].
    intros r s3 (-> & Hsv3 & Hl3 & Hh3). wp_step. unfold rc_get. rewrite Hw.
    destruct (held_owned_node _ As Ss Ws _ s2 s3 w o x w' (proj1 Hl3) Hh3) as (o3 & Ho3 & Hv3); [|done..|].
    { apply elem_of_app. by right. }
    assert (chain s3 w' xs) as Hc3.
    { eapply chain_owned; [exact Hc2|apply Hl3|exact Hh3|]. intros Hw'. apply elem_of_app. left.
      rewrite rc_obls, Hw'. by left. }
    eapply wp_mono; [apply (detach_ok _ As Ss Ws _ s3 w o3 x w' xs Hh3 Hin); [done..|lia]|].
    intros u' s4 (Hb4 & Hc4 & Hh4). apply (held_refs tid _ _ _ _ _ _ _ (swap_refs _ _ _)) in Hh4. wp_step.
    eapply wp_mono; [apply (unlink_loop_ok _ As Ss Ws E (S fuel) xs w w' s4 Hh4 Hw Hc4); [lia|lia|unfold fits; lia]|].
    intros [node next] s5 (Hnull & Hb5 & Hh5). simpl in *. wp_step. unfold rc_clear at 1. rewrite Hnull.
    wp_steps.
    eapply wp_mono; [apply (held_drop n tid _ As Ss Ws E node s5 Hh5); lia|].
    intros r s6 (_ & Hl6 & Hh6).
    apply later_beside in Hl6, Hl3.
    assert (beside s2 s6) as [Hc6 Hop6] by (etrans; [exact Hl3|]; etrans; [exact Hb4|]; by etrans).
    assert (cells s6 = <[i := MAtomicRc 0]> (cells s)) as Hm6 by congruence.
    unfold arc_destruct. wp_step. eapply (loc_load_ok _ _ (MAtomicRc 0)); [simpl; rewrite Hm6; apply lookup_insert_eq|done|].
    simpl. unfold arc_drop, is_null. rewrite raw_aligned by done. simpl. wp_step. split.
    + eapply held_mono; [|exact Hh6]. lia.
    + split; [|exists 0; split; [done|]; unfold is_null; by rewrite raw_aligned].
      etrans; [by apply later_op|]. etrans; [by eapply later_put_op|]. split; [by rewrite Hc6|exact Hop6].
Qed.

End stack_ok.
