(* ===== verification/StackProgram.v ===== *)
(** * Programs on the stack

    Any number of threads that push, pop, read and search one [atomic_stack],
    one call at a time in any order.  The theorems: the results are those of a
    list, and after the destructor and the shutdown of the manager nothing is
    left in memory. *)

From S2P Require Import Prelude StickyCounter CountedObject MemoryManager Accounting ManagerSafety AtomicLoc Backend Reclamation RcPtr SharedCas Held Stack.

(** The calls of a client and what they return. *)
Inductive stack_op (V : Type) :=
  | SPush (t : V)
  | SPop
  | SFront
  | SFind (t : V).
Arguments SPush {V} _.
Arguments SPop {V}.
Arguments SFront {V}.
Arguments SFind {V} _.

Inductive stack_res (V : Type) :=
  | ResUnit
  | ResVal (r : option V)
  | ResBool (b : bool).
Arguments ResUnit {V}.
Arguments ResVal {V} _.
Arguments ResBool {V} _.

(** ** The specification: a list *)

Section list_spec.
  Context {V : Type} `{Veq : !EqDecision V}.

Definition list_exec (op : stack_op V) (xs : list V) : stack_res V * list V :=
  match op with
  | SPush t => (ResUnit, t :: xs)
  | SPop => (ResVal (hd_error xs), tl xs)
  | SFront => (ResVal (hd_error xs), xs)
  | SFind t => (ResBool (bool_decide (t ∈ xs)), xs)
  end.

Fixpoint list_run (prog : list (nat * stack_op V)) (xs : list V) : list (stack_res V) * list V :=
  match prog with
  | [] => ([], xs)
  | (_, op) :: prog' =>
      let '(r, xs1) := list_exec op xs in
      let '(rs, xs2) := list_run prog' xs1 in
      (r :: rs, xs2)
  end.

Lemma list_exec_length op xs : (length (snd (list_exec op xs)) ≤ S (length xs))%nat.
Proof. destruct op, xs; simpl; lia. Qed.

Lemma list_run_length prog xs : (length (snd (list_run prog xs)) ≤ length prog + length xs)%nat.
Proof.
  revert xs. induction prog as [|[tid op] prog IH]; intros xs; simpl; [lia|].
  pose proof (list_exec_length op xs). destruct (list_exec op xs) as [r xs1]; simpl in *. specialize (IH xs1).
  destruct (list_run prog xs1); simpl in *; lia.
Qed.

End list_spec.

(** ** The implementation *)

Section stack_program.
  Context {V X En : Type} `{Pol : !Policy} `{Sch : !Scheme V X En} `{Laws : !SchemeLaws V X En}
    `{Back : !Backend V X En} `{BLaws : !BackendLaws V X En}.
  Context `{Veq : !EqDecision V}.
  Context (n i fuel : nat).
  Local Abbreviation st := (state V X En).
  Local Abbreviation mm := (manager n).
  Implicit Types (s : st) (xs : list V).

Definition stack_exec (tid : nat) (op : stack_op V) : M st (stack_res V) :=
  match op with
  | SPush t => push_front mm tid i fuel t;; mret ResUnit
  | SPop => r ← pop_front mm tid i fuel; mret (ResVal r)
  | SFront => r ← front mm tid i; mret (ResVal r)
  | SFind t => b ← stack_find mm tid i fuel t; mret (ResBool b)
  end.

Fixpoint stack_run (prog : list (nat * stack_op V)) : M st (list (stack_res V)) :=
  match prog with
  | [] => mret []
  | (tid, op) :: prog' =>
      r ← stack_exec tid op;
      rs ← stack_run prog';
      mret (r :: rs)
  end.

(** Nobody holds a pointer, and [head] represents [xs]. *)
Record stack_inv (N B : nat) s xs : Prop := {
  si_idle : idle N B s;
  si_stack : is_stack i s xs
}.

Lemma stack_inv_held N B s xs tid : stack_inv N B s xs → tid < N → held tid B [] [] [] [] s.
Proof. intros [Hid _]. by apply idle_held. Qed.

Lemma held_stack_inv N B B' s s' xs xs' tid :
  stack_inv N B s xs → held tid B' [] [] [] [] s' → is_stack i s' xs' → after_op i s s' → stack_inv N B' s' xs'.
Proof. intros [Hid _] Hh Hst (_ & Hrk & Hth & _). split; [by eapply held_idle|done]. Qed.

Lemma stack_inv_mono N B B' s xs : B ≤ B' → stack_inv N B s xs → stack_inv N B' s xs.
Proof. intros ? [[] ?]. split; [split; [done|lia|done..]|done]. Qed.

Lemma stack_exec_ok N B s xs tid op :
  stack_inv N B s xs → tid < N → B + 9 ≤ n → fits n → length xs < fuel → can_create (announcements s) tid →
  wp (stack_exec tid op)
     (λ r s', r = fst (list_exec op xs) ∧ stack_inv N (B + 5) s' (snd (list_exec op xs)) ∧ after_op i s s') s.
Proof.
  intros Hsi Ht Hn Hf Hfuel Hcc. pose proof (stack_inv_held _ _ _ _ _ Hsi Ht) as Hh. pose proof (si_stack _ _ _ _ Hsi) as Hst.
  assert (∀ s' xs', later s s' → held tid B [] [] [] [] s' → is_stack i s' xs' →
    stack_inv N (B + 5) s' xs' ∧ after_op i s s') as Hread.
  { intros s' xs' Hl Hh' Hst'. split; [|by apply later_op]. eapply held_stack_inv; [done| |done|by apply later_op].
    eapply held_mono; [|done]. lia. }
  assert (∃ fuel', fuel = S fuel') as [fuel' Hfe] by (exists (pred fuel); lia). destruct op as [t| | |t]; simpl; wp_step; rewrite ?Hfe.
  - eapply wp_mono; [apply (push_front_ok n tid i B [] [] [] [] s xs t fuel'); simpl; [done..|lia|done]|].
    intros u s' (Hh' & Hst' & Hop). wp_step. split; [done|]. split; [by eapply held_stack_inv|done].
  - eapply wp_mono; [apply (pop_front_ok n tid i B [] [] [] [] s xs fuel'); simpl; [done..|lia|done]|].
    intros r s' (-> & Hh' & Hst' & Hop). wp_step. split; [done|]. split; [|done]. eapply held_stack_inv; [done| |done|done].
    eapply held_mono; [|done]. lia.
  - eapply wp_mono; [apply (front_ok n tid i B [] [] [] [] s xs); simpl; [done..|lia|done]|].
    intros r s' (-> & Hl & Hh' & Hst'). wp_step. split; [done|]. by apply Hread.
  - eapply wp_mono; [apply (stack_find_ok n tid i B [] [] [] [] s xs t (S fuel')); simpl; [done|done|lia|lia|done]|].
    intros r s' (-> & Hl & Hh' & Hst'). wp_step. split; [done|]. by apply Hread.
Qed.

(** A thread may always create: with a scheme that stamps objects, the clock has
    not run out. *)
Definition creates_along N prog s : Prop :=
  ∀ pre rs s', pre `prefix_of` prog → stack_run pre s = Ok (rs, s') →
  ∀ tid, tid < N → can_create (announcements s') tid.

Lemma creates_along_cons N tid op prog s r s1 :
  creates_along N ((tid, op) :: prog) s → stack_exec tid op s = Ok (r, s1) → creates_along N prog s1.
Proof.
  intros Hc He pre rs s' [post ->] Hr. apply (Hc ((tid, op) :: pre) (r :: rs)); [by exists post|].
  simpl. unfold mbind, M_bind. rewrite He, Hr. done.
Qed.

Lemma stack_run_ok N prog B s xs :
  stack_inv N B s xs → Forall (λ '(tid, _), tid < N) prog → B + 5 * length prog + 9 ≤ n → fits n →
  length xs + length prog < fuel → creates_along N prog s →
  wp (stack_run prog)
     (λ rs s', rs = fst (list_run prog xs) ∧ stack_inv N (B + 5 * length prog) s' (snd (list_run prog xs)) ∧
               after_op i s s') s.
Proof.
  revert B s xs. induction prog as [|[tid op] prog IH]; intros B s xs Hsi Htids Hn Hf Hfuel Hcc; simpl.
  { wp_step. rewrite Nat.add_0_r. split; [done|]. split; [done|reflexivity]. }
  inversion_clear Htids as [|? ? Htid Htids']. simpl in *. wp_step.
  pose proof (stack_exec_ok N B s xs tid op Hsi Htid ltac:(lia) Hf ltac:(lia)
    (Hcc [] [] s (prefix_nil _) eq_refl tid Htid)) as (r & s1 & He & -> & Hsi1 & Hop1)%wp_ok.
  apply wp_ok. exists (fst (list_exec op xs)), s1. split; [done|].
  pose proof (list_exec_length op xs). destruct (list_exec op xs) as [r xs1]. simpl in *. wp_step.
  eapply wp_mono; [apply (IH (B + 5) s1 xs1); [done..|lia|done|lia|by eapply creates_along_cons]|].
  intros rs s' (-> & Hsi' & Hop'). wp_step. destruct (list_run prog xs1) as [rs xs2]. simpl in *.
  split; [done|]. split; [|by etrans]. eapply stack_inv_mono; [|done]. lia.
Qed.

(** C17. The stack is a list.  Any sequence of [push_front], [pop_front],
    [front] and [find] by any threads returns, with the results of the same
    operations on a list, and leaves the stack representing the list they
    leave: no call fails, spins or reads a freed node, whatever reference counts
    the calls defer and whatever ejects they run in between.  The bounds are the
    width of the counters; the loops need one round each when no other thread
    interferes, and [find] as many as there are nodes. *)
Theorem stack_refines N prog B s xs :
  stack_inv N B s xs → Forall (λ '(tid, _), tid < N) prog → B + 5 * length prog + 9 ≤ n → fits n →
  length xs + length prog < fuel → creates_along N prog s →
  ∃ s', stack_run prog s = Ok (fst (list_run prog xs), s') ∧
        stack_inv N (B + 5 * length prog) s' (snd (list_run prog xs)).
Proof.
  intros Hsi Htids Hn Hf Hfuel Hcc.
  pose proof (stack_run_ok N prog B s xs Hsi Htids Hn Hf Hfuel Hcc) as (rs & s' & Hr & -> & Hsi' & _)%wp_ok. eauto.
Qed.

(** C18. No leak.  From a state in which every other atomic pointer is null and
    the objects do not refer to each other in a cycle (a fresh manager with an
    empty stack is one), after any calls on the stack by any threads, the
    destructor of the stack and the shutdown of the manager every node has been
    freed: the heap is empty, nothing is deferred and [currently_allocated] is
    zero. *)
Theorem stack_no_leak N prog B s xs tid :
  stack_inv N B s xs → acyclic (heap s) → (∀ j m, j ≠ i → cells s !! j = Some m → raw (member_word m) = 0%Z) →
  Forall (λ '(tid, _), tid < N) prog → tid < N → B + 5 * length prog + 9 ≤ n → fits n →
  B + length xs + 5 * length prog + 3 < fuel → creates_along N prog s →
  wp (stack_run prog;; stack_destruct mm tid i fuel;; shutdown (eject mm tid) fuel;; currently_allocated)
     (λ r s', r = 0%Z ∧ heap s' = ∅ ∧ concat (deferred_destructs s') = []) s.
Proof.
  intros Hsi Hac Hcells Htids Htid Hn Hf Hfuel Hcc. wp_step.
  eapply wp_mono; [apply (stack_run_ok N prog B s xs); [done..|lia|done]|].
  intros rs s1 (_ & Hsi1 & Hop1). pose proof (stack_inv_held _ _ _ _ tid Hsi1 Htid) as Hh1.
  assert (∃ fuel', fuel = S fuel') as [fuel' Hfe] by (exists (pred fuel); lia). pose proof (list_run_length prog xs). wp_step. rewrite Hfe at 1.
  eapply wp_mono; [apply (stack_destruct_ok n tid i _ [] [] [] [] s1 _ fuel' Hh1 (si_stack _ _ _ _ Hsi1)); simpl; [lia|lia|done]|].
  intros u s2 (Hh2 & Hop2 & w & Hc2 & Hw). pose proof Hop1 as (Hc1 & _ & _ & Hac1). pose proof Hop2 as (_ & _ & _ & Hac2).
  destruct Hh2 as [(T & O & Hh2 & Hinv2) Ht2 _ Hp2]. inversion Hh2; subst.
  apply shutdown_frees; [done|done| |auto|lia|lia].
  intros j m Hj. rewrite Hc2 in Hj. destruct (decide (j = i)) as [->|Hne].
  - rewrite lookup_insert_eq in Hj. simplify_eq. by apply Z.eqb_eq.
  - rewrite lookup_insert_ne, Hc1 in Hj by done. by eapply Hcells.
Qed.

End stack_program.
