(* ===== verification/LinkedList.v ===== *)
(** * The example linked list
    ([atomic_linked_list] of src/examples/linked_list.h)

    Harris's sorted list on marked pointers: the mark of a node's [next] says
    that the node is deleted.  [head] and [tail] are atomic pointers to two
    sentinels.  The operations are modelled with the calls of the pointer classes
    they make, in the order of the code, the destructors of their snapshots
    included. *)

From S2P Require Import Prelude StickyCounter CountedObject MemoryManager Accounting ManagerSafety AtomicLoc Backend MarkedPtr Reclamation RcPtr SnapshotPtr AtomicRcPtr.
Local Open Scope Z_scope.

(** [std::numeric_limits<int>] *)
Definition INT_MAX : Z := 2 ^ 31 - 1.
Definition INT_MIN : Z := - 2 ^ 31.

Section atomic_linked_list.
  Context {X En : Type}.
  Local Existing Instance marked_ptr_policy.
  Context `{Sch : !Scheme Z X En} `{Back : !Backend Z X En}.
  Context (self : derived Z X En) (tid : nat) (tail_ head_ : nat).
  Local Abbreviation M := (M (state Z X En)).
  Local Abbreviation tail := (LCell tail_).
  Local Abbreviation head := (LCell head_).

(** [struct Node] *)
Definition ListNode (key next : Z) : payload Z := Payload key [MAtomicRc next].

(** The member [next] of the node that a snapshot points to. *)
Definition node_next (a : acquired) : loc := LField (snap_get a) 0.

(** [a->key] *)
Definition node_key (a : acquired) : M Z := v ← snap_deref a; mret (data v).

(** [a == nullptr] *)
Definition snap_is_null (a : acquired) : bool := snap_get a =? 0.

(** [a = a'.get_snapshot()]: the temporary is null after the assignment. *)
Definition snap_assign (a tmp : acquired) : M acquired :=
  r ← snap_assign_move self tid a tmp;
  snap_clear self tid (snd r);;
  mret (fst r).

(** The local snapshots of [search]. *)
Record locals := Locals { v_right : acquired; v_right_nxt : acquired; v_left : acquired; v_left_nxt : acquired }.

(** The [if] at the start of the loop body. *)
Definition search_shift (v : locals) : M locals :=
  if snap_get_mark (v_right_nxt v) =? 0 then
    r ← snap_assign_move self tid (v_left v) (v_right v);
    left_nxt' ← snap_assign (v_left_nxt v) snap_null;
    mret (Locals (snd r) (v_right_nxt v) (fst r) left_nxt')
  else if snap_is_null (v_left_nxt v) then
    r ← snap_assign_move self tid (v_left_nxt v) (v_right v);
    mret (Locals (snd r) (v_right_nxt v) (v_left v) (fst r))
  else mret v.

(** The rest of the body. *)
Definition search_advance (v : locals) : M locals :=
  r ← snap_assign_move self tid (v_right v) (v_right_nxt v);
  right' ← snap_set_mark (fst r) 0;
  tmp ← arc_get_snapshot tid (node_next right');
  right_nxt' ← snap_assign (snd r) tmp;
  mret (Locals right' right_nxt' (v_left v) (v_left_nxt v)).

(** [right_nxt.get_mark() != 0 || right->key < key] *)
Definition search_more (key : Z) (v : locals) : M bool :=
  if negb (snap_get_mark (v_right_nxt v) =? 0) then mret true
  else k ← node_key (v_right v); mret (k <? key).

Fixpoint search_loop (fuel : nat) (key : Z) (v : locals) : M locals :=
  match fuel with
  | O => fail OutOfFuel
  | S fuel' =>
      v ← search_shift v;
      v ← search_advance v;
      more ← search_more key v;
      if more : bool then search_loop fuel' key v else mret v
  end.

(** The destructors at the end of [search], in the reverse order of the
    declarations. *)
Definition drop_locals (v : locals) : M unit :=
  snap_clear self tid (v_left_nxt v);;
  snap_clear self tid (v_left v);;
  snap_clear self tid (v_right_nxt v);;
  snap_clear self tid (v_right v);;
  mret tt.

(** The nodes must be adjacent: the marked nodes in between are unlinked. *)
Definition search_unlink (v : locals) : M bool :=
  if snap_is_null (v_left_nxt v) then mret true
  else compare_and_swap self tid (node_next (v_left v)) (snap_get_counted (v_left_nxt v))
         (snap_get_counted (v_right v)) (snap_is_protected (v_right v)).

(** [search(key)]: [rounds] bounds the recursion, [fuel] the loop. *)
Fixpoint search (rounds fuel : nat) (key : Z) : M (acquired * acquired) :=
  match rounds with
  | O => fail OutOfFuel
  | S rounds' =>
      right ← arc_get_snapshot tid head;
      right_nxt ← arc_get_snapshot tid (node_next right);
      v ← search_loop fuel key (Locals right right_nxt snap_null snap_null);
      unlinked ← search_unlink v;
      unmarked ← (if unlinked : bool then m ← arc_get_mark (node_next (v_right v)); mret (m =? 0) else mret false);
      if unmarked : bool then
        drop_locals (Locals snap_null (v_right_nxt v) snap_null (v_left_nxt v));;
        mret (v_left v, v_right v)
      else
        r ← search rounds' fuel key;
        drop_locals v;;
        mret r
  end.

(** The destructor of the pair that [search] returned. *)
Definition drop_pair (p : acquired * acquired) : M unit :=
  snap_clear self tid (snd p);;
  snap_clear self tid (fst p);;
  mret tt.

Definition list_find (rounds fuel : nat) (key : Z) : M bool :=
  p ← search rounds fuel key;
  k ← node_key (snd p);
  drop_pair p;;
  mret (k =? key).

(** [sp_t::make_shared(key, right)]: the snapshot converts to the [sp_t] that the
    constructor of [Node] moves into [next]. *)
Definition new_list_node (key : Z) (right : acquired) : M Z :=
  next ← rc_from_snapshot right;
  make_shared tid (ListNode key next).

Fixpoint list_insert (rounds fuel : nat) (key : Z) : M bool :=
  match rounds with
  | O => fail OutOfFuel
  | S rounds' =>
      p ← search rounds fuel key;
      k ← node_key (snd p);
      if k =? key then drop_pair p;; mret false
      else
        new_node ← new_list_node key (snd p);
        b ← compare_and_swap self tid (node_next (fst p)) (snap_get_counted (snd p)) new_node false;
        r ← (if b : bool then mret true else list_insert rounds' fuel key);
        rc_clear self tid new_node;;
        drop_pair p;;
        mret r
  end.

Fixpoint list_remove (rounds fuel : nat) (key : Z) : M bool :=
  match rounds with
  | O => fail OutOfFuel
  | S rounds' =>
      p ← search rounds fuel key;
      k ← node_key (snd p);
      if negb (k =? key) then drop_pair p;; mret false
      else
        next ← arc_get_snapshot tid (node_next (snd p));
        marked ← (if snap_get_mark next =? 0
                  then compare_and_set_mark (node_next (snd p)) (snap_get_counted next) 1
                  else mret false);
        r ← (if marked : bool then
               b ← compare_and_swap self tid (node_next (fst p)) (snap_get_counted (snd p))
                     (snap_get_counted next) (snap_is_protected next);
               (if b : bool then mret tt else q ← search rounds fuel key; drop_pair q);;
               mret true
             else list_remove rounds' fuel key);
        snap_clear self tid next;;
        drop_pair p;;
        mret r
  end.

(** The constructor; [tail] is declared first, and converts to the [sp_t] that
    the constructor of [Node] takes by a [load]. *)
Definition list_init : M unit :=
  t ← make_shared tid (ListNode INT_MAX 0);
  arc_new tail_ t;;
  next ← arc_load tid tail;
  h ← make_shared tid (ListNode INT_MIN next);
  arc_new head_ h.

(** The destructor: of the members, in the reverse order. *)
Definition list_destruct : M unit :=
  arc_delete self tid head_;;
  arc_delete self tid tail_.

End atomic_linked_list.
