(* ===== verification/LinkedListOk.v ===== *)
(** * The linked list is a sorted list of nodes

    What [atomic_linked_list] (LinkedList.v) represents: the nodes from [head] to
    [tail], some of which may be marked as deleted and not yet unlinked.  The
    lemmas say what [search], [find], [insert] and [remove] do to it. *)

From stdpp Require Import sorting.
From S2P Require Import Prelude StickyCounter CountedObject MemoryManager Accounting ManagerSafety AtomicLoc Backend MarkedPtr Reclamation RcPtr SnapshotPtr AtomicRcPtr SharedCas Held LinkedList.
Local Open Scope Z_scope.

(** A node: its address, its key, and whether its [next] is marked. *)
Record lnode := LNode { ln_addr : Z; ln_key : Z; ln_gone : bool }.

#[export] Instance lnode_eq_dec : EqDecision lnode.
Proof. solve_decision. Defined.

(** The address at which a list of nodes starts, [q] if it is empty. *)
Definition first (ns : list lnode) (q : Z) : Z := match ns with [] => q | a :: _ => ln_addr a end.

(** The word of [next] of a node that is followed by the address [nxt]. *)
Definition next_word (gone : bool) (nxt : Z) : Z := Z.lor nxt (Z.b2z gone).

Lemma next_word_ptr gone nxt : nxt mod 4 = 0 → get_ptr (next_word gone nxt) = nxt.
Proof. intros Ha. apply get_ptr_lor; [done|]. destruct gone; simpl; lia. Qed.

Lemma next_word_mark gone nxt : nxt mod 4 = 0 → get_mark (next_word gone nxt) = Z.b2z gone.
Proof. intros Ha. apply get_mark_lor; [done|]. destruct gone; simpl; lia. Qed.

Lemma next_word_plain nxt : next_word false nxt = nxt.
Proof. apply Z.lor_0_r. Qed.

Section list_ok.
  Context {X En : Type}.
  Local Existing Instance marked_ptr_policy.
  Context `{Sch : !Scheme Z X En} `{Laws : !SchemeLaws Z X En} `{Back : !Backend Z X En} `{BLaws : !BackendLaws Z X En}.
  Context (n : nat) (tid : nat) (tail_ head_ : nat).
  Local Abbreviation st := (state Z X En).
  Local Abbreviation mm := (manager n).
  Local Abbreviation tail := (LCell tail_).
  Local Abbreviation head := (LCell head_).
  Local Abbreviation keep := (held tid).
  Implicit Types (s : st) (E : list (obl En)) (Ss Ws : list snap) (w q : Z) (ns : list lnode) (v : locals).

(** ** Nodes in memory *)

Definition node_at s (a : lnode) (nxt : Z) : Prop :=
  ln_addr a ≠ 0 ∧ ln_addr a mod 4 = 0 ∧
  ∃ o, heap s !! ln_addr a = Some o ∧ storage o = Some (ListNode (ln_key a) (next_word (ln_gone a) nxt)).

Fixpoint linked s ns q : Prop :=
  match ns with
  | [] => True
  | a :: ns' => node_at s a (first ns' q) ∧ linked s ns' q
  end.

Lemma first_app ns ns' q : first (ns ++ ns') q = first ns (first ns' q).
Proof. by destruct ns. Qed.

Lemma linked_app s ns ns' q : linked s (ns ++ ns') q ↔ linked s ns (first ns' q) ∧ linked s ns' q.
Proof.
  induction ns as [|a ns IH]; simpl; [tauto|]. rewrite IH, first_app. tauto.
Qed.

Lemma first_aligned s ns q : linked s ns q → q mod 4 = 0 → first ns q mod 4 = 0.
Proof. destruct ns; simpl; [done|]. by intros [(_ & ? & _) _]. Qed.

Lemma node_member s a nxt :
  node_at s a nxt → member_at s (LField (ln_addr a) 0) (MAtomicRc (next_word (ln_gone a) nxt)).
Proof. intros (Hz & _ & o & Ho & Hv). split; [done|]. by exists o, (ListNode (ln_key a) (next_word (ln_gone a) nxt)). Qed.

Lemma node_evolves Ss Ws E s s' a nxt :
  node_at s a nxt → evolves s s' → Inv Ss Ws E s' → (0 < total (on (ln_addr a) decrement_strong_count) E s')%nat →
  node_at s' a nxt.
Proof.
  intros (Hz & Hal & o & Ho & Hv) Hev Hinv Href. split; [done|]. split; [done|].
  assert (live s' (ln_addr a)) as Hl by (by apply (Inv_live Ss Ws E s' _ decrement_strong_count)).
  destruct (evolves_live s s' (ln_addr a) Hev) as (o1 & o' & v1 & H1 & H2 & H3 & H4); [by eexists _, _|done|].
  simplify_eq. eauto.
Qed.

(** A list whose first node is referenced stays. *)
Lemma linked_evolves Ss Ws E s s' ns q :
  linked s ns q → q mod 4 = 0 → evolves s s' → Inv Ss Ws E s' →
  (ns ≠ [] → (0 < total (on (first ns q) decrement_strong_count) E s')%nat) → linked s' ns q.
Proof.
  intros Hl Hq Hev Hinv. induction ns as [|a ns IH]; simpl in *; [done|]. intros Href. destruct Hl as [Ha Hl].
  assert (node_at s' a (first ns q)) as Ha' by (eapply node_evolves; [done..|by apply Href]).
  split; [done|]. apply IH; [done|]. intros Hne.
  pose proof (first_aligned _ _ _ Hl Hq) as Hal. pose proof (node_member _ _ _ Ha') as Hm.
  eapply (member_strong E) in Hm.
  - simpl in Hm. by rewrite next_word_ptr in Hm.
  - unfold is_null. simpl. rewrite next_word_ptr by done. apply Z.eqb_neq.
    destruct ns; [done|]. simpl in *. by destruct Hl as [(? & _) _].
Qed.

Lemma node_heap s s' a nxt : heap s' !! ln_addr a = heap s !! ln_addr a → node_at s a nxt → node_at s' a nxt.
Proof. intros Hh (? & ? & o & ? & ?). split; [done|]. split; [done|]. exists o. by rewrite Hh. Qed.

Lemma linked_heap s s' ns q : (∀ a, a ∈ ns → heap s' !! ln_addr a = heap s !! ln_addr a) → linked s ns q → linked s' ns q.
Proof.
  induction ns as [|a ns IH]; simpl; [done|]. intros Hh [Ha Hl]. split; [|apply IH; [|done]; intros; apply Hh; by right].
  eapply node_heap; [|done]. apply Hh. by left.
Qed.

(** Writing [next] of a node. *)
Lemma put_next_heap s p m q : q ≠ p → heap (put_member (LField p 0) m s) !! q = heap s !! q.
Proof. intros Hne. simpl. repeat case_match; try done. simpl. by rewrite lookup_insert_ne. Qed.

Lemma linked_put_ne s p m ns q : (p ∉ (ln_addr <$> ns)) → linked s ns q → linked (put_member (LField p 0) m s) ns q.
Proof.
  intros Hp. apply linked_heap. intros a Ha. apply put_next_heap. intros <-. apply Hp. by apply list_elem_of_fmap_2.
Qed.

Lemma node_put s a nxt gone' nxt' :
  node_at s a nxt →
  node_at (put_member (LField (ln_addr a) 0) (MAtomicRc (next_word gone' nxt')) s) (LNode (ln_addr a) (ln_key a) gone') nxt'.
Proof.
  intros (Hz & Hal & o & Ho & Hv). split; [done|]. split; [done|]. simpl. rewrite Ho, Hv. simpl.
  rewrite lookup_insert_eq. by eexists.
Qed.

(** ** The list *)

(** All nodes, with the sentinels: the keys are sorted, the first one's apart,
    which is never compared. *)
Record is_list s (ns : list lnode) : Prop := {
  il_head : ∃ h, cells s !! head_ = Some (MAtomicRc h) ∧ hd_error ns = Some (LNode h INT_MIN false);
  il_tail : ∃ t, cells s !! tail_ = Some (MAtomicRc t) ∧ last ns = Some (LNode t INT_MAX false);
  il_linked : linked s ns 0;
  il_nodup : NoDup (ln_addr <$> ns);
  il_sorted : StronglySorted Z.lt (ln_key <$> tl ns)
}.

Lemma is_list_evolves B As Ss Ws E s s' ns :
  is_list s ns → evolves s s' → keep B As Ss Ws E s' → is_list s' ns.
Proof.
  intros [(h & Hh & Hhd) (t & Ht & Hlast) Hl Hnd Hs] Hev Hk. split; [..|done|done].
  - exists h. by rewrite (ev_cells _ _ Hev).
  - exists t. by rewrite (ev_cells _ _ Hev).
  - destruct (held_inv _ _ _ _ _ _ _ Hk) as (Ss' & E' & Hinv). eapply linked_evolves; [done..|]. intros _.
    destruct ns as [|a ns]; [done|]. simpl in *. simplify_eq. simpl. destruct Hl as [(Hz & Hal & _) _]. simpl in *.
    assert (member_at s' head (MAtomicRc h)) as Hm by (simpl; by rewrite (ev_cells _ _ Hev)).
    eapply (member_strong E') in Hm; [simpl in Hm; by rewrite get_ptr_id in Hm|].
    unfold is_null. simpl. rewrite get_ptr_id by done. by apply Z.eqb_neq.
Qed.

Lemma is_list_at s ns pre a post : is_list s ns → ns = pre ++ a :: post → node_at s a (first post 0).
Proof. intros Hil ->. pose proof (il_linked _ _ Hil) as Hl. apply linked_app in Hl as [_ [? _]]. done. Qed.

Lemma is_list_aligned s ns pre post : is_list s ns → ns = pre ++ post → first post 0 mod 4 = 0.
Proof.
  intros Hil ->. pose proof (il_linked _ _ Hil) as Hl. apply linked_app in Hl as [_ Hl]. by eapply first_aligned.
Qed.

Lemma is_list_frame s s' ns :
  is_list s ns → cells s' = cells s → (∀ a, a ∈ ns → heap s' !! ln_addr a = heap s !! ln_addr a) → is_list s' ns.
Proof. intros [H1 H2 H3 H4 H5] Hc Hh. split; [by rewrite Hc|by rewrite Hc|by eapply linked_heap|done|done]. Qed.

Lemma is_list_fresh s ns p : is_list s ns → heap s !! p = None → p ∉ (ln_addr <$> ns).
Proof.
  intros Hil Hp (a & -> & Ha)%list_elem_of_fmap. apply list_elem_of_split in Ha as (l1 & l2 & ->).
  destruct (is_list_at s _ l1 a l2 Hil eq_refl) as (_ & _ & o & Ho & _). congruence.
Qed.

(** Only the last node is followed by null. *)
Lemma is_list_end s ns pre a post :
  is_list s ns → ns = pre ++ a :: post → first post 0 = 0 → post = [] ∧ ln_key a = INT_MAX ∧ ln_gone a = false.
Proof.
  intros Hil Hns Hz. destruct post as [|b post].
  - split; [done|]. destruct (il_tail _ _ Hil) as (t & _ & Hlast). rewrite Hns, last_snoc in Hlast. by simplify_eq.
  - exfalso. rewrite cons_middle, app_assoc in Hns. destruct (is_list_at _ _ _ _ _ Hil Hns) as [? _]. done.
Qed.

(** ** Snapshot variables *)

Lemma held_assign B a tmp As Ss Ws E s :
  keep B (a :: tmp :: As) Ss Ws E s → (B + S (S (length As)) ≤ n)%nat →
  wp (snap_assign mm tid a tmp) (λ b s', b = tmp ∧ later s s' ∧ keep B (tmp :: As) Ss Ws E s') s.
Proof.
  intros Hk Hn. unfold snap_assign. wp_step. eapply wp_mono; [by apply (held_assign_move n tid B a tmp As Ss Ws E)|].
  intros r s1 (-> & Hl & Hk1). simpl. wp_step.
  eapply wp_mono; [apply (held_clear n tid B acq_null (tmp :: As) Ss Ws E); [by apply -> held_null|simpl; lia]|].
  intros b s2 (_ & Hl2 & Hk2). wp_step. split; [done|]. split; [by etrans|done].
Qed.

(** A snapshot that points to a node. *)
Definition at_addr (a : acquired) (p : Z) : Prop := acq_value a = p ∧ p ≠ 0 ∧ p mod 4 = 0.

Lemma at_addr_null a p : at_addr a p → is_null (acq_value a) = false.
Proof. intros (-> & Hz & Hal). unfold is_null. simpl. rewrite get_ptr_id by done. by apply Z.eqb_neq. Qed.

Lemma at_addr_raw a p : at_addr a p → raw (acq_value a) = p.
Proof. intros (-> & _ & Hal). by apply get_ptr_id. Qed.

Lemma at_addr_get a p : at_addr a p → snap_get a = p.
Proof. intros Ha. unfold snap_get. by rewrite (at_addr_null a p), (at_addr_raw a p). Qed.

Lemma node_at_addr s nd nxt a : node_at s nd nxt → acq_value a = ln_addr nd → at_addr a (ln_addr nd).
Proof. by intros (? & ? & _) ?. Qed.

Lemma snap_is_null_eq a : snap_is_null a = is_null (acq_value a).
Proof. unfold snap_is_null, snap_get. destruct (is_null _) eqn:Hn; [done|]. exact Hn. Qed.

Lemma node_key_ok B As Ss Ws E s a nd nxt (Q : Z → st → Prop) :
  keep B As Ss Ws E s → a ∈ As → at_addr a (ln_addr nd) → node_at s nd nxt → Q (ln_key nd) s →
  wp (node_key a) Q s.
Proof.
  intros Hk Ha Hat (_ & _ & o & Ho & Hv) HQ. unfold node_key. wp_step.
  eapply wp_mono; [eapply (held_deref tid); [exact Hk|done|by eapply at_addr_null]|].
  intros v s' (-> & o' & Ho' & Hv'). rewrite (at_addr_raw _ _ Hat) in Ho'. simplify_eq. by wp_step.
Qed.

(** The snapshot of [next] of a node. *)
Lemma snapshot_next B As Ss Ws E s ns pre nd post a :
  keep B As Ss Ws E s → is_list s ns → ns = pre ++ nd :: post → at_addr a (ln_addr nd) → fits (B + length As) →
  wp (arc_get_snapshot tid (node_next a))
     (λ b s', later s s' ∧ keep B (b :: As) Ss Ws E s' ∧ acq_value b = next_word (ln_gone nd) (first post 0)) s.
Proof.
  intros Hk Hil Hns Ha Hf. pose proof (is_list_at _ _ _ _ _ Hil Hns) as Hnd. unfold node_next. rewrite (at_addr_get _ _ Ha).
  eapply wp_mono; [apply (held_get_snapshot tid B As Ss Ws E _ _ s Hk (node_member _ _ _ Hnd) Hf)|].
  intros b s' (_ & Hl & Hk' & Hb). split; [done|]. split; [done|]. destruct Hb as [Hb|[Hnull Hb]]; [done|].
  rewrite cons_middle, app_assoc in Hns. pose proof (is_list_aligned _ _ _ _ Hil Hns) as Hal.
  unfold is_null in Hnull. simpl in Hnull. rewrite next_word_ptr in Hnull by done. apply Z.eqb_eq in Hnull.
  rewrite <-app_assoc in Hns. destruct (is_list_end _ _ _ _ _ Hil Hns Hnull) as (-> & _ & ->). by rewrite Hb.
Qed.

(** ** The loop of [search] *)

Local Abbreviation vars v := [v_right v; v_right_nxt v; v_left v; v_left_nxt v].

(** Where the search stands: [left] is the node [L], which is not deleted, and
    the deleted nodes [ms] that follow it, if any, start at [left_nxt]. *)
Record looking v (key : Z) (pre : list lnode) (L : lnode) (ms : list lnode) : Prop := {
  lk_left : at_addr (v_left v) (ln_addr L);
  lk_here : ln_gone L = false;
  lk_gone : Forall (λ a, ln_gone a = true) ms;
  lk_left_nxt : match ms with [] => is_null (acq_value (v_left_nxt v)) = true | a :: _ => at_addr (v_left_nxt v) (ln_addr a) end;
  lk_key : pre = [] ∨ ln_key L < key
}.

(** A node that is not deleted becomes [left]. *)
Lemma search_shift_live B As Ss Ws E s v key pre R post :
  keep B (vars v ++ As) Ss Ws E s → at_addr (v_right v) (ln_addr R) → first post 0 mod 4 = 0 →
  ln_gone R = false → acq_value (v_right_nxt v) = next_word (ln_gone R) (first post 0) → pre = [] ∨ ln_key R < key →
  (B + length As + 6 ≤ n)%nat →
  wp (search_shift mm tid v)
     (λ v' s', later s s' ∧ keep B (vars v' ++ As) Ss Ws E s' ∧ v_right_nxt v' = v_right_nxt v ∧ looking v' key pre R []) s.
Proof.
  intros Hk Hright Hal HR Hnxt Hkey Hn. unfold search_shift, snap_get_mark. rewrite Hnxt, next_word_mark, HR by done. simpl.
  wp_step. eapply wp_mono.
  { apply (held_assign_move n tid B (v_left v) (v_right v) (v_right_nxt v :: v_left_nxt v :: As) Ss Ws E); [|simpl; lia].
    eapply held_perm; [|exact Hk]. simpl. solve_Permutation. }
  intros r s1 (-> & Hl1 & Hk1). wp_step. apply -> held_null in Hk1. eapply wp_mono.
  { apply (held_assign B (v_left_nxt v) snap_null (v_right_nxt v :: v_right v :: As) Ss Ws E); [|simpl; lia].
    eapply held_perm; [|exact Hk1]. simpl. unfold snap_null. solve_Permutation. }
  intros b s2 (-> & Hl2 & Hk2). wp_step. split; [by etrans|]. split; [|split; [done|]].
  - apply -> held_null in Hk2. eapply held_perm; [|exact Hk2]. simpl. unfold snap_null. solve_Permutation.
  - split; simpl; [done|done|done| |done]. unfold snap_null. by rewrite acq_null_value.
Qed.

Lemma search_shift_ok B As Ss Ws E s ns v key pre L ms R post :
  keep B (vars v ++ As) Ss Ws E s → is_list s ns → ns = pre ++ L :: ms ++ R :: post →
  looking v key pre L ms → at_addr (v_right v) (ln_addr R) →
  acq_value (v_right_nxt v) = next_word (ln_gone R) (first post 0) → ln_gone R = true ∨ ln_key R < key →
  (B + length As + 6 ≤ n)%nat →
  wp (search_shift mm tid v)
     (λ v' s', later s s' ∧ keep B (vars v' ++ As) Ss Ws E s' ∧ v_right_nxt v' = v_right_nxt v ∧
        ∃ pre' L' ms', ns = pre' ++ L' :: ms' ++ post ∧ looking v' key pre' L' ms') s.
Proof.
  intros Hk Hil Hns [Hleft Hhere Hgone Hlnxt Hkey] Hright Hnxt Hmore Hn.
  assert (ns = (pre ++ L :: ms ++ [R]) ++ post) as Hns' by (rewrite Hns; by rewrite <-!app_assoc; simpl; rewrite <-!app_assoc).
  pose proof (is_list_aligned _ _ _ _ Hil Hns') as Hal.
  destruct (ln_gone R) eqn:HR.
  - unfold search_shift, snap_get_mark. rewrite Hnxt, next_word_mark by done. simpl. rewrite snap_is_null_eq. destruct ms as [|a ms].
    + rewrite Hlnxt. wp_step. eapply wp_mono.
      { apply (held_assign_move n tid B (v_left_nxt v) (v_right v) (v_right_nxt v :: v_left v :: As) Ss Ws E); [|simpl; lia].
        eapply held_perm; [|exact Hk]. simpl. solve_Permutation. }
      intros r s' (-> & Hl & Hk'). wp_step. split; [done|]. split; [|split; [done|]].
      * apply -> held_null in Hk'. eapply held_perm; [|exact Hk']. simpl. solve_Permutation.
      * exists pre, L, [R]. split; [done|]. split; simpl; [done|done|by constructor|done|done].
    + rewrite (at_addr_null _ _ Hlnxt). wp_step. split; [reflexivity|]. split; [done|]. split; [done|].
      exists pre, L, (a :: ms ++ [R]). split; [by rewrite Hns; simpl; rewrite <-app_assoc|]. split; simpl; [done|done| |done|done].
      inversion Hgone; subst. constructor; [done|]. apply Forall_app. by split; [|constructor].
  - destruct Hmore as [?|Hlt]; [done|]. eapply wp_mono.
    { apply (search_shift_live B As Ss Ws E s v key (pre ++ L :: ms) R post); rewrite ?HR; auto. }
    intros v' s' (Hl & Hk' & Hrn & Hlk). split; [done|]. split; [done|]. split; [done|].
    exists (pre ++ L :: ms), R, []. split; [by rewrite Hns, <-app_assoc|done].
Qed.

Lemma search_advance_ok B As Ss Ws E s ns v key pre L ms R post gone :
  keep B (vars v ++ As) Ss Ws E s → is_list s ns → ns = pre ++ L :: ms ++ R :: post → looking v key pre L ms →
  acq_value (v_right_nxt v) = next_word gone (ln_addr R) → (B + length As + 6 ≤ n)%nat → fits n →
  wp (search_advance mm tid v)
     (λ v' s', later s s' ∧ keep B (vars v' ++ As) Ss Ws E s' ∧ looking v' key pre L ms ∧
        at_addr (v_right v') (ln_addr R) ∧ acq_value (v_right_nxt v') = next_word (ln_gone R) (first post 0)) s.
Proof.
  intros Hk Hil Hns Hlk Hnxt Hn Hf. unfold fits in Hf.
  assert (ns = (pre ++ L :: ms) ++ R :: post) as Hns' by (by rewrite Hns, <-app_assoc).
  pose proof (is_list_at _ _ _ _ _ Hil Hns') as (HRz & HRal & _).
  unfold search_advance. wp_step. eapply wp_mono.
  { apply (held_assign_move n tid B (v_right v) (v_right_nxt v) (v_left v :: v_left_nxt v :: As) Ss Ws E s Hk). simpl; lia. }
  intros r s1 (-> & Hl1 & Hk1). simpl. wp_step. unfold snap_set_mark. wp_step.
  pose proof (set_mark_spec (acq_value (v_right_nxt v)) 0 s1 ltac:(lia)) as (w & Hw & Hp & Hm).
  apply wp_ok. exists w, s1. split; [done|]. wp_step. rewrite Hnxt, next_word_ptr in Hp by done.
  assert (w = ln_addr R) as -> by (rewrite (marked_split w), Hp, Hm; apply Z.lor_0_r). clear Hw Hp Hm.
  set (right' := acq_set (v_right_nxt v) (ln_addr R)). assert (at_addr right' (ln_addr R)) as Hat
    by (split; [apply acq_set_value|done]).
  apply (held_set tid B _ (ln_addr R)) in Hk1; [|simpl; by rewrite Hnxt, next_word_ptr, get_ptr_id]. fold right' in Hk1.
  assert (is_list s1 ns) as Hil1 by (eapply is_list_evolves; [done|apply Hl1|exact Hk1]). wp_step.
  eapply wp_mono; [apply (snapshot_next B _ Ss Ws E s1 ns _ R post right' Hk1 Hil1 Hns' Hat); unfold fits; simpl; lia|].
  intros b s2 (Hl2 & Hk2 & Hb). wp_step. apply -> held_null in Hk2. eapply wp_mono.
  { apply (held_assign B acq_null b (right' :: v_left v :: v_left_nxt v :: As) Ss Ws E s2 Hk2). simpl; lia. }
  intros b' s3 (-> & Hl3 & Hk3). wp_step. split; [etrans; [done|by etrans]|]. split; [|split; [|done]].
  - eapply held_perm; [|exact Hk3]. simpl. solve_Permutation.
  - destruct Hlk. by split.
Qed.

Lemma search_more_ok B As Ss Ws E s ns v key pre R post :
  keep B (vars v ++ As) Ss Ws E s → is_list s ns → ns = pre ++ R :: post →
  at_addr (v_right v) (ln_addr R) → acq_value (v_right_nxt v) = next_word (ln_gone R) (first post 0) →
  wp (search_more key v) (λ b s', b = ln_gone R || (ln_key R <? key) ∧ s' = s) s.
Proof.
  intros Hk Hil Hns Hat Hnxt. unfold search_more, snap_get_mark. assert (ns = (pre ++ [R]) ++ post) as Hns' by (by rewrite Hns, <-app_assoc).
  rewrite Hnxt, next_word_mark by by eapply is_list_aligned. destruct (ln_gone R) eqn:HR; simpl; [by wp_step|]. wp_step.
  eapply node_key_ok; [exact Hk|by left|exact Hat|by eapply is_list_at|]. by wp_step.
Qed.

(** One round from [search_advance] on. *)
Lemma search_step_ok B As Ss Ws E s ns v key pre L ms R post gone (K : locals → M st locals) (Q : locals → st → Prop) :
  keep B (vars v ++ As) Ss Ws E s → is_list s ns → ns = pre ++ L :: ms ++ R :: post → looking v key pre L ms →
  acq_value (v_right_nxt v) = next_word gone (ln_addr R) → (B + length As + 6 ≤ n)%nat → fits n → key ≤ INT_MAX →
  (∀ v1 s1, later s s1 → keep B (vars v1 ++ As) Ss Ws E s1 → is_list s1 ns → looking v1 key pre L ms →
     at_addr (v_right v1) (ln_addr R) → 
     if ln_gone R || (ln_key R <? key) then
       post ≠ [] → acq_value (v_right_nxt v1) = next_word (ln_gone R) (first post 0) → wp (K v1) Q s1
     else Q v1 s1) →
  wp (v ← search_advance mm tid v; more ← search_more key v; if more : bool then K v else mret v) Q s.
Proof.
  intros Hk Hil Hns Hlk Hnxt Hn Hf Hkey Hnext.
  wp_step. eapply wp_mono; [by apply (search_advance_ok B As Ss Ws E s ns v key pre L ms R post gone)|].
  intros v1 s1 (Hl1 & Hk1 & Hlk1 & Hat & Hnxt1). wp_step.
  assert (is_list s1 ns) as Hil1 by (eapply is_list_evolves; [done|apply Hl1|exact Hk1]).
  assert (ns = (pre ++ L :: ms) ++ R :: post) as Hns' by (by rewrite Hns, <-app_assoc).
  eapply wp_mono; [by apply (search_more_ok B As Ss Ws E s1 ns v1 key (pre ++ L :: ms) R post)|]. intros more s2 [-> ->].
  specialize (Hnext v1 s1 Hl1 Hk1 Hil1 Hlk1 Hat). destruct (ln_gone R || (ln_key R <? key)) eqn:Hmore; [|by wp_step].
  apply Hnext; [|done]. intros ->. destruct (is_list_end _ _ _ _ _ Hil Hns' eq_refl) as (_ & Hkmax & Hg).
  rewrite Hg, Hkmax in Hmore. simpl in Hmore. apply Z.ltb_lt in Hmore. lia.
Qed.

(** What the loop has found. *)
Definition found v (key : Z) ns : Prop :=
  ∃ pre L ms R post, ns = pre ++ L :: ms ++ R :: post ∧ looking v key pre L ms ∧
    at_addr (v_right v) (ln_addr R) ∧ ln_gone R = false ∧ key ≤ ln_key R.

(** It stops at a node [R] that is not deleted and whose key is not smaller. *)
Lemma search_loop_ok B As Ss Ws E fuel s ns v key pre L ms R post gone :
  keep B (vars v ++ As) Ss Ws E s → is_list s ns → ns = pre ++ L :: ms ++ R :: post → looking v key pre L ms →
  acq_value (v_right_nxt v) = next_word gone (ln_addr R) → (B + length As + 6 ≤ n)%nat → fits n →
  key ≤ INT_MAX → (length post ≤ fuel)%nat →
  wp (v ← search_advance mm tid v; more ← search_more key v; if more : bool then search_loop mm tid fuel key v else mret v)
     (λ v' s', later s s' ∧ keep B (vars v' ++ As) Ss Ws E s' ∧ found v' key ns) s.
Proof.
  revert s v pre L ms R post gone.
  induction fuel as [|fuel IH]; intros s v pre L ms R post gone Hk Hil Hns Hlk Hnxt Hn Hf Hkey Hfuel;
    eapply search_step_ok; try done; intros v1 s1 Hl1 Hk1 Hil1 Hlk1 Hat; destruct (ln_gone R || (ln_key R <? key)) eqn:Hmore.
  - destruct post; [done|simpl in Hfuel; lia].
  - apply orb_false_iff in Hmore as [Hg Hge%Z.ltb_ge]. split; [done|]. split; [done|]. by exists pre, L, ms, R, post.
  - intros Hpost Hnxt1. destruct post as [|R' post]; [done|]. cbn [search_loop]. wp_step. eapply wp_mono.
    { apply (search_shift_ok B As Ss Ws E s1 ns v1 key pre L ms R (R' :: post)); try done.
      apply orb_prop in Hmore as [?|?%Z.ltb_lt]; auto. }
    intros v2 s3 (Hl3 & Hk3 & Hrn & pre' & L' & ms' & Hns3 & Hlk3).
    assert (is_list s3 ns) as Hil3 by (eapply is_list_evolves; [done|apply Hl3|exact Hk3]).
    eapply wp_mono; [apply (IH s3 v2 pre' L' ms' R' post (ln_gone R)); try done; [by rewrite Hrn|simpl in Hfuel; lia]|].
    intros v3 s4 (Hl4 & Hk4 & Hres). split; [etrans; [done|by etrans]|]. done.
  - apply orb_false_iff in Hmore as [Hg Hge%Z.ltb_ge]. split; [done|]. split; [done|]. by exists pre, L, ms, R, post.
Qed.

(** ** Relinking *)

Lemma tl_app_cons {A} (pre : list A) (a : A) (l : list A) : tl (pre ++ a :: l) = tl (pre ++ [a]) ++ l.
Proof. destruct pre; simpl; [done|]. by rewrite <-app_assoc. Qed.

(** [left] is made to point to another list of nodes. *)
Lemma is_list_relink s ns pre L rest mid :
  is_list s ns → ns = pre ++ L :: rest → ln_gone L = false → linked s mid 0 → last mid = last rest → rest ≠ [] →
  NoDup (ln_addr <$> pre ++ L :: mid) → StronglySorted Z.lt (ln_key <$> tl (pre ++ L :: mid)) →
  is_list (put_member (LField (ln_addr L) 0) (MAtomicRc (first mid 0)) s) (pre ++ L :: mid).
Proof.
  intros [(h & Hh & Hhd) (t & Ht & Hlast) Hl _ _] -> HL Hmid Hlm Hrest Hnd Hs.
  assert (∀ (p : Z) m, cells (put_member (LField p 0) m s) = cells s) as Hcells by (intros; simpl; by repeat case_match).
  split; [..|done|done].
  - exists h. rewrite Hcells. split; [done|]. by destruct pre.
  - exists t. rewrite Hcells. split; [done|]. rewrite last_app, last_cons in *. rewrite Hlm.
    destruct (last rest) eqn:Hr; [done|]. by apply last_None in Hr.
  - apply linked_app in Hl as [Hpre [HL0 _]]. rewrite fmap_app, NoDup_app, fmap_cons, NoDup_cons in Hnd.
    destruct Hnd as (_ & Hap & HLm & _). apply linked_app. split; [|split].
    + apply linked_put_ne; [|done]. intros Hin. apply (Hap _ Hin). by left.
    + pose proof (node_put s L (first rest 0) false (first mid 0) HL0) as Hput. rewrite next_word_plain in Hput.
      destruct L. simpl in *. by subst.
    + by apply linked_put_ne.
Qed.

Lemma node_refers s a nxt : node_at s a nxt → nxt mod 4 = 0 → nxt ≠ 0 → refers (heap s) (ln_addr a) nxt.
Proof.
  intros (_ & _ & o & Ho & Hv) Hal Hz. split; [done|]. eexists _, _, _. split; [done|]. split; [done|].
  split; [by left|]. simpl. by apply next_word_ptr.
Qed.

(** A later node has a smaller rank. *)
Lemma linked_rank s (rank : Z → nat) L ms R post :
  (∀ q p, refers (heap s) q p → (rank p < rank q)%nat) → linked s (L :: ms ++ R :: post) 0 →
  (rank (ln_addr R) < rank (ln_addr L))%nat.
Proof.
  intros Hr. revert L. induction ms as [|a ms IH]; intros L [HL Hl].
  - simpl in *. destruct Hl as [(Hz & Hal & _) _]. apply Hr. by eapply node_refers.
  - specialize (IH a Hl). simpl in *. destruct Hl as [(Hz & Hal & _) _].
    assert (rank (ln_addr a) < rank (ln_addr L))%nat; [|lia]. apply Hr. by eapply node_refers.
Qed.

Lemma put_beside s0 s s' p w :
  cells s = cells s0 → still_read (announcements s0) (announcements s) → length (num_allocated s) = length (num_allocated s0) →
  later (put_member (LField p 0) (MAtomicRc w) s) s' →
  (acyclic (heap s0) → ∃ rank, (∀ q p, refers (heap s) q p → (rank p < rank q)%nat) ∧
     (raw w ≠ 0 → (rank (raw w) < rank p)%nat)) →
  beside s0 s'.
Proof.
  intros Hc Hsr Hn [Hev Hr] Hrank. destruct (put_member_rest s (LField p 0) (MAtomicRc w)) as (Ha & Hth & _).
  rewrite Ha in Hr. destruct Hr as [Hr _].
  split_and!; [rewrite (ev_cells _ _ Hev), <-Hc; simpl; by repeat case_match|by etrans|by rewrite (ev_threads _ _ Hev), Hth|].
  intros Hac. destruct (Hrank Hac) as (rank & Hrk & Hlt). eapply acyclic_evolves; [done|]. exists rank. by apply ranked_put.
Qed.

Lemma put_quiet s s' p w :
  later (put_member (LField p 0) (MAtomicRc w) s) s' →
  (acyclic (heap s) → ∃ rank, (∀ q p, refers (heap s) q p → (rank p < rank q)%nat) ∧
     (raw w ≠ 0 → (rank (raw w) < rank p)%nat)) →
  quiet s s'.
Proof.
  intros Hl Hrank. split; [by apply (put_beside s s s' p w)|]. destruct Hl as [_ [_ Hcc]].
  by destruct (put_member_rest s (LField p 0) (MAtomicRc w)) as (-> & _) in Hcc.
Qed.

(** Marking a node that is neither the first nor the last. *)
Lemma is_list_mark s pre R post :
  is_list s (pre ++ R :: post) → pre ≠ [] → post ≠ [] →
  is_list (put_member (LField (ln_addr R) 0) (MAtomicRc (next_word true (first post 0))) s)
    (pre ++ LNode (ln_addr R) (ln_key R) true :: post).
Proof.
  intros [(h & Hh & Hhd) (t & Ht & Hlast) Hl Hnd Hs] Hpre Hpost.
  assert (∀ (p : Z) m, cells (put_member (LField p 0) m s) = cells s) as Hcells by (intros; simpl; by repeat case_match).
  split.
  - exists h. rewrite Hcells. split; [done|]. by destruct pre.
  - exists t. rewrite Hcells. split; [done|]. rewrite last_app, last_cons in *. destruct (last post) eqn:Hp; [done|].
    by apply last_None in Hp.
  - apply linked_app in Hl as [Hl1 [HR Hl2]]. rewrite fmap_app, NoDup_app, fmap_cons, NoDup_cons in Hnd.
    destruct Hnd as (_ & Hap & HRm & _). apply linked_app. split; [|split].
    + apply linked_put_ne; [|done]. intros Hin. apply (Hap _ Hin). by left.
    + by eapply (node_put s R (first post 0) true).
    + by apply linked_put_ne.
  - by rewrite fmap_app in *.
  - destruct pre as [|a pre]; [done|]. simpl in *. by rewrite fmap_app in *.
Qed.

Lemma held_mark B As Ss Ws E s l w w' :
  keep B As Ss Ws E s → member_at s l (MAtomicRc w) → get_ptr w' = get_ptr w →
  keep B As Ss Ws E (put_member l (MAtomicRc w') s).
Proof.
  intros [(T & O & Hh & Hinv) Htid Hmr Hpot] Hm Hw. destruct (put_member_rest s l (MAtomicRc w')) as (Ha & Hth & _).
  destruct (put_mark_inv (T ++ Ss) Ws (O ++ E) s l (MAtomicRc w) w' Hinv Hm Hw) as [Hinv' Hp']. simpl in *.
  split; [by exists T, O|by rewrite Hth|by rewrite Ha|].
  destruct (holds_potential _ _ _ _ _ E s Hh) as [H1 _].
  destruct (holds_potential _ _ _ _ _ E (put_member l (MAtomicRc w') s) Hh) as [H2 _]. lia.
Qed.

(** The list without the deleted nodes after [L]. *)
Lemma drop_gone_sorted pre L ms rest :
  StronglySorted Z.lt (ln_key <$> tl (pre ++ L :: ms ++ rest)) → StronglySorted Z.lt (ln_key <$> tl (pre ++ L :: rest)).
Proof.
  rewrite (tl_app_cons pre L (ms ++ rest)), (tl_app_cons pre L rest), !fmap_app. intros (Hap & H1 & H2)%StronglySorted_app.
  apply StronglySorted_app_2; [|done|by eapply StronglySorted_app_1_r].
  intros x1 x2 Hx1 Hx2. apply Hap; [done|]. apply elem_of_app. by right.
Qed.

Lemma drop_gone_nodup pre L ms rest :
  NoDup (ln_addr <$> pre ++ L :: ms ++ rest) → NoDup (ln_addr <$> pre ++ L :: rest).
Proof.
  rewrite !fmap_app, !fmap_cons, !fmap_app. intros (H1 & Hap & [HL (_ & _ & H2)%NoDup_app]%NoDup_cons)%NoDup_app.
  apply NoDup_app. split_and!; [done| |apply NoDup_cons; split; [|done]].
  - intros x Hx [->|Hin]%elem_of_cons; apply (Hap _ Hx); [by left|]. right. apply elem_of_app. by right.
  - intros Hin. apply HL, elem_of_app. by right.
Qed.

Lemma search_unlink_ok B As Ss Ws E s ns v key pre L ms R post :
  keep B (vars v ++ As) Ss Ws E s → is_list s ns → ns = pre ++ L :: ms ++ R :: post → looking v key pre L ms →
  at_addr (v_right v) (ln_addr R) → (B + length As + 8 ≤ n)%nat → fits n →
  wp (search_unlink mm tid v)
     (λ b s', b = true ∧ quiet s s' ∧ keep (B + 2) (vars v ++ As) Ss Ws E s' ∧ is_list s' (pre ++ L :: R :: post)) s.
Proof.
  intros Hk Hil Hns [Hleft Hhere Hgone Hlnxt Hkey] Hright Hn Hf. unfold search_unlink. rewrite snap_is_null_eq.
  destruct ms as [|a ms].
  { rewrite Hlnxt. wp_step. split; [done|]. split; [reflexivity|]. split; [|by rewrite Hns in Hil].
    eapply held_mono; [|done]. lia. }
  rewrite (at_addr_null _ _ Hlnxt). simpl in Hns. pose proof (is_list_at _ _ _ _ _ Hil Hns) as HL.
  assert (linked s (L :: (a :: ms) ++ R :: post) 0) as Hlk.
  { pose proof (il_linked _ _ Hil) as Hl. rewrite Hns in Hl. by apply linked_app in Hl as [_ ?]. }
  pose proof (node_member _ _ _ HL) as Hm. rewrite Hhere, next_word_plain in Hm. cbn [first] in Hm.
  unfold node_next, snap_get_counted. rewrite (at_addr_get _ _ Hleft).
  destruct Hlnxt as (Hlv & _). rewrite Hlv. pose proof Hright as (Hrv & HRz & HRal). rewrite Hrv.
  eapply wp_mono.
  { apply (held_cas n tid B (vars v ++ As) Ss Ws E _ (ln_addr a) (ln_addr R) _ _ s Hk Hm); [| |simpl; lia|done].
    - left. exists (v_left v). split; [right; right; by left|]. split; [by eapply at_addr_null|by eapply at_addr_raw].
    - intros _. left. exists (v_right v). split; [by left|]. split; [by eapply at_addr_null|by rewrite Hrv]. }
  intros b s' (-> & Hl & _ & Hk'). rewrite Z.eqb_refl in *. split; [done|]. split; [|split; [done|]].
  - eapply put_quiet; [exact Hl|]. intros [rank Hr]. exists rank. split; [done|]. intros _. simpl.
    rewrite get_ptr_id by done. by eapply linked_rank.
  - eapply is_list_evolves; [|apply Hl|exact Hk']. pose proof (il_nodup _ _ Hil) as Hnd. pose proof (il_sorted _ _ Hil) as Hs.
    rewrite Hns in Hnd, Hs.
    apply (is_list_relink s ns pre L ((a :: ms) ++ R :: post) (R :: post)); [done..| | |done|by eapply (drop_gone_nodup _ _ (a :: ms))|by eapply (drop_gone_sorted _ _ (a :: ms))].
    + destruct Hlk as [_ Hlk]. by apply linked_app in Hlk as [_ ?].
    + by rewrite last_app_cons.
Qed.

(** ** search *)

Lemma drop_locals_ok B As Ss Ws E s v :
  keep B (vars v ++ As) Ss Ws E s → (B + length As + 4 ≤ n)%nat →
  wp (drop_locals mm tid v) (λ _ s', later s s' ∧ keep B As Ss Ws E s') s.
Proof.
  intros Hk Hn. unfold drop_locals.
  assert (keep B (v_left_nxt v :: v_left v :: v_right_nxt v :: v_right v :: As) Ss Ws E s) as Hk0
    by (eapply held_perm; [|exact Hk]; simpl; solve_Permutation).
  wp_step. eapply wp_mono; [apply (held_clear n tid B _ _ Ss Ws E s Hk0); simpl; lia|]. intros b1 s1 (_ & Hl1 & Hk1).
  wp_step. eapply wp_mono; [apply (held_clear n tid B _ _ Ss Ws E s1 Hk1); simpl; lia|]. intros b2 s2 (_ & Hl2 & Hk2).
  wp_step. eapply wp_mono; [apply (held_clear n tid B _ _ Ss Ws E s2 Hk2); simpl; lia|]. intros b3 s3 (_ & Hl3 & Hk3).
  wp_step. eapply wp_mono; [apply (held_clear n tid B _ _ Ss Ws E s3 Hk3); simpl; lia|]. intros b4 s4 (_ & Hl4 & Hk4).
  wp_step. split; [|done]. etrans; [done|]. etrans; [done|]. by etrans.
Qed.

(** Two adjacent nodes around a key. *)
Record spot (key : Z) (pre : list lnode) (L R : lnode) (p : acquired * acquired) : Prop := {
  sp_left : at_addr (fst p) (ln_addr L);
  sp_right : at_addr (snd p) (ln_addr R);
  sp_left_here : ln_gone L = false;
  sp_right_here : ln_gone R = false;
  sp_left_key : pre = [] ∨ ln_key L < key;
  sp_right_key : key ≤ ln_key R
}.

Lemma arc_get_mark_ok s l w (Q : Z → st → Prop) :
  member_at s l (MAtomicRc w) → Q (get_mark w) s → wp (arc_get_mark l) Q s.
Proof. intros Hm HQ. unfold arc_get_mark. wp_step. eapply loc_load_ok; [done..|]. by wp_step. Qed.

Lemma search_start_ok B As Ss Ws E s ns key fuel :
  keep B As Ss Ws E s → is_list s ns → key ≤ INT_MAX → (length ns ≤ fuel)%nat →
  (B + length As + 8 ≤ n)%nat → fits n →
  wp (arc_get_snapshot tid head) (λ right s1,
    wp (arc_get_snapshot tid (node_next right)) (λ right_nxt s2,
      wp (search_loop mm tid fuel key (Locals right right_nxt snap_null snap_null)) (λ v s',
        later s s' ∧ keep B (vars v ++ As) Ss Ws E s' ∧ found v key ns) s2) s1) s.
Proof.
  intros Hk Hil Hkey Hfuel Hn Hf. pose proof Hf as Hf'. unfold fits in Hf'.
  pose proof (il_head _ _ Hil) as (h & Hh & Hhd). destruct ns as [|H ns]; [done|]. simpl in Hhd. injection Hhd as ->.
  pose proof (is_list_at s _ [] _ ns Hil eq_refl) as Hnode.
  eapply wp_mono; [apply (held_get_snapshot tid B As Ss Ws E head h s Hk Hh); unfold fits; lia|].
  intros r s1 (_ & Hl1 & Hk1 & Hr). assert (at_addr r h) as Har.
  { destruct Hnode as (Hz & Hal & _). simpl in *. destruct Hr as [Hr|[Hr _]]; [done|].
    unfold is_null in Hr. simpl in Hr. rewrite get_ptr_id in Hr by done. apply Z.eqb_eq in Hr. done. }
  assert (is_list s1 (LNode h INT_MIN false :: ns)) as Hil1 by (eapply is_list_evolves; [done|apply Hl1|exact Hk1]).
  eapply wp_mono; [apply (snapshot_next B (r :: As) Ss Ws E s1 _ [] _ ns r Hk1 Hil1 eq_refl Har); unfold fits; simpl; lia|].
  intros rn s2 (Hl2 & Hk2 & Hrn). destruct ns as [|R ns].
  { destruct (is_list_end s1 _ [] _ [] Hil1 eq_refl eq_refl) as (_ & ? & _). done. }
  assert (is_list s2 (LNode h INT_MIN false :: R :: ns)) as Hil2 by (eapply is_list_evolves; [done|apply Hl2|exact Hk2]).
  destruct fuel as [|fuel]; [simpl in Hfuel; lia|]. cbn [search_loop]. wp_step. eapply wp_mono.
  { apply (search_shift_live B As Ss Ws E s2 (Locals r rn snap_null snap_null) key [] (LNode h INT_MIN false) (R :: ns));
      simpl; [|done| |done|exact Hrn|by left|lia].
    - apply -> held_null in Hk2. apply -> held_null in Hk2. eapply held_perm; [|exact Hk2]. unfold snap_null. solve_Permutation.
    - by apply (is_list_aligned _ _ [LNode h INT_MIN false] (R :: ns) Hil2). }
  intros v s3 (Hl3 & Hk3 & Hvrn & Hlk).
  assert (is_list s3 (LNode h INT_MIN false :: R :: ns)) as Hil3 by (eapply is_list_evolves; [done|apply Hl3|exact Hk3]).
  eapply wp_mono; [apply (search_loop_ok B As Ss Ws E fuel s3 _ v key [] _ [] R ns false Hk3 Hil3 eq_refl Hlk); try done|].
  - by rewrite Hvrn.
  - lia.
  - simpl in Hfuel. lia.
  - intros v' s4 (Hl4 & Hk4 & Hfound). split; [|done]. etrans; [done|]. etrans; [done|]. by etrans.
Qed.

(** [search] returns two adjacent nodes around the key, and has unlinked the
    deleted nodes that were between them; the first round is enough. *)
Lemma search_ok B As Ss Ws E s ns key rounds fuel :
  keep B As Ss Ws E s → is_list s ns → key ≤ INT_MAX → (length ns ≤ fuel)%nat →
  (B + length As + 8 ≤ n)%nat → fits n →
  wp (search mm tid head_ (S rounds) fuel key)
     (λ p s', quiet s s' ∧ keep (B + 2) (fst p :: snd p :: As) Ss Ws E s' ∧
        ∃ pre L ms R post, ns = pre ++ L :: ms ++ R :: post ∧ Forall (λ a, ln_gone a = true) ms ∧
          is_list s' (pre ++ L :: R :: post) ∧ spot key pre L R p) s.
Proof.
  intros Hk Hil Hkey Hfuel Hn Hf. cbn [search]. wp_step.
  eapply wp_mono; [by apply (search_start_ok B As Ss Ws E s ns key fuel)|]. intros r s1 H1. wp_step.
  eapply wp_mono; [exact H1|]. intros rn s2 H2. wp_step. eapply wp_mono; [exact H2|]. clear H1 H2 s1 s2 r rn.
  intros v s1 (Hl1 & Hk1 & pre & L & ms & R & post & Hns & Hlk & Hright & HR & Hge). wp_step.
  assert (is_list s1 ns) as Hil1 by (eapply is_list_evolves; [done|apply Hl1|exact Hk1]).
  eapply wp_mono; [by apply (search_unlink_ok B As Ss Ws E s1 ns v key pre L ms R post)|].
  intros b s2 (-> & Hb2 & Hk2 & Hil2). wp_steps.
  assert (pre ++ L :: R :: post = (pre ++ [L]) ++ R :: post) as Hsplit by by rewrite <-app_assoc.
  eapply arc_get_mark_ok; [unfold node_next; rewrite (at_addr_get _ _ Hright); eapply node_member, is_list_at; [exact Hil2|exact Hsplit]|].
  rewrite HR, next_word_plain. wp_step. rewrite get_mark_mod.
  rewrite (is_list_aligned _ _ ((pre ++ [L]) ++ [R]) post Hil2) by (by rewrite Hsplit, <-!app_assoc). simpl. wp_step.
  eapply wp_mono.
  { apply (drop_locals_ok (B + 2) (v_left v :: v_right v :: As) Ss Ws E s2); [|simpl; lia].
    apply -> held_null in Hk2. apply -> held_null in Hk2. eapply held_perm; [|exact Hk2]. simpl. unfold snap_null. solve_Permutation. }
  intros u s3 (Hl3 & Hk3). wp_step. split; [|split; [done|]].
  - etrans; [by apply later_quiet|]. etrans; [done|]. by apply later_quiet.
  - destruct Hlk. exists pre, L, ms, R, post. split; [done|]. split; [done|].
    split; [eapply is_list_evolves; [done|apply Hl3|exact Hk3]|]. by split.
Qed.

End list_ok.
