(* ===== verification/LinkedListOps.v ===== *)
(** * The linked list is a set

    [find], [insert] and [remove] of [atomic_linked_list] (LinkedList.v) on the
    nodes of LinkedListOk.v: the keys of the nodes that are not deleted form a
    set, the operations are those of the set, and any sequence of calls by any
    threads returns what a set would. *)

From stdpp Require Import sorting.
From S2P Require Import Prelude StickyCounter CountedObject MemoryManager Accounting ManagerSafety AtomicLoc Backend MarkedPtr Reclamation RcPtr SnapshotPtr AtomicRcPtr SharedCas Held LinkedList LinkedListOk.
Local Open Scope Z_scope.

(** ** The keys *)

(** The set of a list of nodes; the first node and the key of the last are the
    sentinels'. *)
Definition contents (ns : list lnode) (K : gset Z) : Prop :=
  ∀ k, k ∈ K ↔ k ≠ INT_MAX ∧ ∃ a, a ∈ tl ns ∧ ln_gone a = false ∧ ln_key a = k.

(** Unlinking deleted nodes keeps the set. *)
Lemma contents_unlink pre L ms rest K :
  Forall (λ a, ln_gone a = true) ms → contents (pre ++ L :: ms ++ rest) K → contents (pre ++ L :: rest) K.
Proof.
  intros Hms Hc k. rewrite (Hc k), (tl_app_cons pre L (ms ++ rest)), (tl_app_cons pre L rest).
  split; intros [Hk (a & Ha & Hg & Hka)]; (split; [done|]); exists a; (split; [|done]); rewrite !elem_of_app in *; [|tauto].
  destruct Ha as [?|[Hin|?]]; [tauto| |tauto]. rewrite Forall_forall in Hms. apply Hms in Hin. congruence.
Qed.

Section spot.
  Context (pre post : list lnode) (L R : lnode) (key : Z) (K : gset Z).
  Context (Hsorted : StronglySorted Z.lt (ln_key <$> tl (pre ++ L :: R :: post))).
  Context (Hc : contents (pre ++ L :: R :: post) K).
  Context (HL : pre = [] ∨ ln_key L < key) (HR : key ≤ ln_key R).

(** The keys before [R] are smaller than the key. *)
Lemma before_smaller a : a ∈ tl (pre ++ [L]) → ln_key a < key.
Proof.
  intros Ha. destruct HL as [->|Hlt]; [by apply elem_of_nil in Ha|].
  destruct pre as [|H pre']; [by apply elem_of_nil in Ha|]. simpl in *. apply elem_of_app in Ha as [Ha|Ha].
  - assert (ln_key a < ln_key L); [|lia]. rewrite fmap_app, fmap_cons in Hsorted.
    eapply StronglySorted_app_1_elem_of; [exact Hsorted|by apply list_elem_of_fmap_2|by left].
  - apply list_elem_of_singleton in Ha as ->. done.
Qed.

Lemma after_sorted : Forall (Z.lt (ln_key R)) (ln_key <$> post) ∧ StronglySorted Z.lt (ln_key <$> post).
Proof.
  rewrite (tl_app_cons pre L (R :: post)), fmap_app in Hsorted. apply StronglySorted_app_1_r in Hsorted.
  by apply StronglySorted_cons in Hsorted.
Qed.

Lemma after_larger a : a ∈ post → ln_key R < ln_key a.
Proof. intros Ha. destruct after_sorted as [Hf _]. rewrite Forall_forall in Hf. by apply Hf, list_elem_of_fmap_2. Qed.

Lemma spot_elem a : a ∈ tl (pre ++ L :: R :: post) ↔ a ∈ tl (pre ++ [L]) ∨ a = R ∨ a ∈ post.
Proof. rewrite (tl_app_cons pre L (R :: post)), elem_of_app, elem_of_cons. done. Qed.

(** The key is in the set exactly when [R] has it. *)
Lemma spot_contents : ln_gone R = false → key < INT_MAX → ln_key R = key ↔ key ∈ K.
Proof.
  intros Hg Hk. rewrite (Hc key). split.
  - intros HRk. split; [lia|]. exists R. rewrite spot_elem. tauto.
  - intros [_ (a & Ha & _ & Hka)]. apply spot_elem in Ha as [Ha%before_smaller|[->|Ha%after_larger]]; lia.
Qed.

Lemma spot_insert p :
  key < ln_key R → key < INT_MAX →
  contents (pre ++ L :: LNode p key false :: R :: post) ({[key]} ∪ K) ∧
  StronglySorted Z.lt (ln_key <$> tl (pre ++ L :: LNode p key false :: R :: post)).
Proof.
  intros Hlt Hmax. split.
  - intros k. rewrite elem_of_union, elem_of_singleton, (Hc k).
    rewrite (tl_app_cons pre L (R :: post)), (tl_app_cons pre L (LNode p key false :: R :: post)). setoid_rewrite elem_of_app.
    setoid_rewrite (elem_of_cons (R :: post)). split.
    + intros [->|[Hk (a & Ha & Hg & Hka)]]; [|naive_solver]. split; [lia|]. eexists. split; [right; by left|done].
    + intros [Hk (a & [Ha|[->|Ha]] & Hg & Hka)]; [right|left|right]; simpl in *; naive_solver.
  - pose proof Hsorted as Hs. rewrite (tl_app_cons pre L (R :: post)) in Hs. rewrite (tl_app_cons pre L (_ :: R :: post)).
    rewrite fmap_app in *. apply StronglySorted_app in Hs as (Hap & H1 & H2). apply StronglySorted_app_2; [|done|].
    + intros x1 x2 (a & -> & Ha)%list_elem_of_fmap [->|Hx2]%elem_of_cons; [by apply before_smaller|].
      apply Hap; [by apply list_elem_of_fmap_2|done].
    + rewrite fmap_cons. apply StronglySorted_cons. split; [|done]. rewrite fmap_cons. constructor; [done|].
      destruct after_sorted as [Hf _]. eapply Forall_impl; [exact Hf|]. simpl. intros. lia.
Qed.

Lemma spot_remove :
  ln_key R = key → contents (pre ++ L :: post) (K ∖ {[key]}) ∧ StronglySorted Z.lt (ln_key <$> tl (pre ++ L :: post)).
Proof.
  intros HRk. split; [|by apply (drop_gone_sorted pre L [R])].
  intros k. rewrite elem_of_difference, elem_of_singleton, (Hc k). setoid_rewrite spot_elem.
  rewrite (tl_app_cons pre L post). setoid_rewrite elem_of_app. split.
  - intros [[Hk (a & [Ha|[->|Ha]] & Hg & Hka)] Hne]; [naive_solver|congruence|naive_solver].
  - intros [Hk (a & Ha & Hg & Hka)]. split; [naive_solver|]. intros ->.
    destruct Ha as [Ha%before_smaller|Ha%after_larger]; lia.
Qed.

End spot.

(** ** The operations *)

Section list_ops.
  Context {X En : Type}.
  Local Existing Instance marked_ptr_policy.
  Context `{Sch : !Scheme Z X En} `{Laws : !SchemeLaws Z X En} `{Back : !Backend Z X En} `{BLaws : !BackendLaws Z X En}.
  Context (n : nat) (tid : nat) (tail_ head_ : nat).
  Local Abbreviation st := (state Z X En).
  Local Abbreviation mm := (manager n).
  Local Abbreviation keep := (held tid).
  Local Abbreviation nodes := (is_list tail_ head_).
  Implicit Types (s : st) (E : list (obl En)) (Ss Ws : list snap) (ns : list lnode) (K : gset Z).

(** The list represents the set [K] with at most [len] nodes. *)
Definition is_set s K (len : nat) : Prop := ∃ ns, nodes s ns ∧ contents ns K ∧ (length ns ≤ len)%nat.

Lemma is_set_later B As Ss Ws E s s' K len : is_set s K len → evolves s s' → keep B As Ss Ws E s' → is_set s' K len.
Proof. intros (ns & Hil & Hc & Hlen) Hev Hk. exists ns. split; [by eapply is_list_evolves|done]. Qed.

(** What [search] returns, and what it leaves of the list. *)
Record searched s K (len : nat) (key : Z) (p : acquired * acquired) pre L R post : Prop := {
  se_list : nodes s (pre ++ L :: R :: post);
  se_contents : contents (pre ++ L :: R :: post) K;
  se_length : (length (pre ++ L :: R :: post) ≤ len)%nat;
  se_spot : spot key pre L R p
}.

Lemma search_set_ok B As Ss Ws E s K len key rounds fuel :
  keep B As Ss Ws E s → is_set s K len → key ≤ INT_MAX → (len ≤ fuel)%nat → (B + length As + 8 ≤ n)%nat → fits n →
  wp (search mm tid head_ (S rounds) fuel key)
     (λ p s', quiet s s' ∧ keep (B + 2) (fst p :: snd p :: As) Ss Ws E s' ∧
        ∃ pre L R post, searched s' K len key p pre L R post) s.
Proof.
  intros Hk (ns & Hil & Hc & Hlen) Hkey Hfuel Hn Hf.
  eapply wp_mono; [apply (search_ok n tid tail_ head_ B As Ss Ws E s ns key rounds fuel); [done..|lia|done|done]|].
  intros p s' (Hq & Hk' & pre & L & ms & R & post & -> & Hms & Hil' & Hsp). split; [done|]. split; [done|].
  exists pre, L, R, post. split; [done|by apply (contents_unlink pre L ms)| |done].
  rewrite !length_app in *. simpl in *. rewrite length_app in Hlen. simpl in *. lia.
Qed.

Lemma drop_pair_ok B As Ss Ws E s p :
  keep B (fst p :: snd p :: As) Ss Ws E s → (B + length As + 2 ≤ n)%nat →
  wp (drop_pair mm tid p) (λ _ s', later s s' ∧ keep B As Ss Ws E s') s.
Proof.
  intros Hk Hn. unfold drop_pair. apply (held_perm tid B _ (snd p :: fst p :: As)) in Hk; [|solve_Permutation].
  wp_step. eapply wp_mono; [apply (held_clear n tid B _ _ Ss Ws E s Hk); simpl; lia|]. intros b1 s1 (_ & Hl1 & Hk1).
  wp_step. eapply wp_mono; [apply (held_clear n tid B _ _ Ss Ws E s1 Hk1); simpl; lia|]. intros b2 s2 (_ & Hl2 & Hk2).
  wp_step. split; [by etrans|done].
Qed.

(** Reading the key of [right]. *)
Lemma right_key_ok B As Ss Ws E s K len key p pre L R post (Q : Z → st → Prop) :
  keep B (fst p :: snd p :: As) Ss Ws E s → searched s K len key p pre L R post → Q (ln_key R) s →
  wp (node_key (snd p)) Q s.
Proof.
  intros Hk [Hil _ _ [_ Hr _ _ _ _]] HQ. eapply (node_key_ok tid); [exact Hk|right; by left|exact Hr| |done].
  apply (is_list_at _ _ _ _ (pre ++ [L]) R post Hil). by rewrite <-app_assoc.
Qed.

Lemma searched_set s K len key p pre L R post : searched s K len key p pre L R post → is_set s K len.
Proof. intros [Hil Hc Hlen _]. by exists (pre ++ L :: R :: post). Qed.

Lemma searched_key s K len key p pre L R post :
  searched s K len key p pre L R post → key < INT_MAX → (ln_key R =? key) = bool_decide (key ∈ K).
Proof.
  intros [Hil Hc _ [_ _ _ HR HL HRk]] Hmax. destruct (spot_contents pre post L R key K) as [H1 H2]; try done.
  { apply (il_sorted _ _ _ _ Hil). }
  destruct (Z.eqb_spec (ln_key R) key) as [Heq|Hne]; symmetry; [apply bool_decide_eq_true_2|apply bool_decide_eq_false_2]; auto.
Qed.

(** [find] *)
Lemma list_find_ok B As Ss Ws E s K len key rounds fuel :
  keep B As Ss Ws E s → is_set s K len → key < INT_MAX → (len ≤ fuel)%nat → (B + length As + 8 ≤ n)%nat → fits n →
  wp (list_find mm tid head_ (S rounds) fuel key)
     (λ r s', r = bool_decide (key ∈ K) ∧ quiet s s' ∧ keep (B + 2) As Ss Ws E s' ∧ is_set s' K len) s.
Proof.
  intros Hk Hset Hmax Hfuel Hn Hf. unfold list_find. wp_step.
  eapply wp_mono; [by apply (search_set_ok B As Ss Ws E s K len key rounds fuel); [..|lia| | |]|].
  intros p s1 (Hq1 & Hk1 & pre & L & R & post & Hse). wp_step. eapply right_key_ok; [exact Hk1|exact Hse|]. wp_step.
  eapply wp_mono; [apply (drop_pair_ok (B + 2) As Ss Ws E s1 p Hk1); lia|]. intros u s2 (Hl2 & Hk2). wp_step.
  split; [by eapply searched_key|]. split; [etrans; [done|by apply later_quiet]|]. split; [done|].
  eapply is_set_later; [by eapply searched_set|apply Hl2|exact Hk2].
Qed.

(** ** insert *)

(** The word of [next] of [left]. *)
Lemma left_next s K len key p pre L R post :
  searched s K len key p pre L R post → member_at s (LField (ln_addr L) 0) (MAtomicRc (ln_addr R)).
Proof.
  intros [Hil _ _ [_ _ HL _ _ _]]. pose proof (is_list_at _ _ _ _ pre L (R :: post) Hil eq_refl) as Hnode.
  apply node_member in Hnode. by rewrite HL, next_word_plain in Hnode.
Qed.

(** The new node points to [right], and nothing points to it. *)
Lemma new_list_node_ok B As Ss Ws E s K len key p pre L R post :
  keep B (fst p :: snd p :: As) Ss Ws E s → searched s K len key p pre L R post →
  can_create (announcements s) tid → fits (B + length As + 2) →
  wp (new_list_node tid key (snd p))
     (λ q s', keep (B + 4) (fst p :: snd p :: As) Ss Ws (member_obls (MRc q) ++ E) s' ∧
        node_at s' (LNode q key false) (ln_addr R) ∧ nodes s' (pre ++ L :: R :: post) ∧
        (q ∉ (ln_addr <$> pre ++ L :: R :: post)) ∧ cells s' = cells s ∧
        still_read (announcements s) (announcements s') ∧ length (num_allocated s') = length (num_allocated s) ∧
        (acyclic (heap s) → ∃ rank, (∀ a b, refers (heap s') a b → (rank b < rank a)%nat) ∧ (rank q < rank (ln_addr L))%nat)) s.
Proof.
  intros Hk Hse Hcc Hf. pose proof Hse as [Hil _ _ [_ (Hv & HRz & HRal) _ _ _ _]]. unfold new_list_node, rc_from_snapshot.
  rewrite Hv. wp_step. eapply wp_mono.
  { apply (held_addref tid B (fst p :: snd p :: As) Ss Ws E (ln_addr R) s Hk); [simpl; unfold fits in *; lia|].
    intros _. eexists. right. by eapply left_next. }
  intros w s1 (-> & Hsv1 & Hl1 & Ha1 & Hk1). apply held_to_atomic in Hk1.
  assert (nodes s1 (pre ++ L :: R :: post)) as Hil1 by (eapply is_list_evolves; [done|apply Hl1|exact Hk1]).
  eapply wp_mono.
  { apply (held_make tid (S (S B)) (fst p :: snd p :: As) Ss Ws E (ListNode key (ln_addr R)) s1); [|by rewrite Ha1].
    unfold members_obls. simpl. by rewrite app_nil_r. }
  intros q s2 (Hk2 & Hnn & Hraw & Hfresh & (o & Ho & Hst) & Hother & Hc2 & Hn2 & Hsr2).
  pose proof (is_list_fresh _ _ _ _ _ Hil1 Hfresh) as Hnew. pose proof (held_inv _ _ _ _ _ _ _ Hk1) as (Ss1 & E1 & Hinv1).
  assert (q ≠ 0 ∧ q mod 4 = 0) as [Hqz Hqal].
  { unfold is_null in Hnn. apply Z.eqb_neq in Hnn. rewrite Hraw in Hnn. split; [done|]. rewrite <-Hraw. apply get_ptr_aligned. }
  split; [by replace (B + 4)%nat with (S (S B) + 2)%nat by lia|]. split; [|split; [|split; [done|]]].
  - split; [done|]. split; [done|]. exists o. simpl. by rewrite next_word_plain.
  - eapply is_list_frame; [exact Hil1|done|]. intros a Ha. apply Hother. intros <-. by apply Hnew, list_elem_of_fmap_2.
  - split; [by rewrite Hc2, (sv_cells _ _ Hsv1)|]. split; [by rewrite <-Ha1|]. split; [by rewrite Hn2, (sv_threads _ _ Hsv1)|].
    intros Hac. apply (acyclic_evolves _ _ (proj1 Hl1)) in Hac as [rank Hrank]. eexists. split.
    + apply (ranked_new rank s1 s2 q o _ _ Ho Hst eq_refl Hother); [|by rewrite get_ptr_id by done; intros Heq; apply Hnew; rewrite <-Heq; set_solver|done].
      intros a Hrf. eapply refers_heap in Hrf as [? ?]; [|exact Hinv1]. congruence.
    + simpl. rewrite decide_True, decide_False by first [done | intros <-; set_solver].
      rewrite get_ptr_id by done. assert (rank (ln_addr R) < rank (ln_addr L))%nat; [|lia].
      pose proof (is_list_at _ _ _ _ pre L (R :: post) Hil1 eq_refl) as HLn. apply Hrank. by eapply node_refers.
Qed.

(** Linking the new node in. *)
Lemma link_ok B As Ss Ws E s0 s K len key p pre L R post q :
  keep B (fst p :: snd p :: As) Ss Ws (member_obls (MRc q) ++ E) s →
  contents (pre ++ L :: R :: post) K → (length (pre ++ L :: R :: post) ≤ len)%nat → spot key pre L R p →
  ln_key R ≠ key → key < INT_MAX →
  node_at s (LNode q key false) (ln_addr R) → nodes s (pre ++ L :: R :: post) → (q ∉ (ln_addr <$> pre ++ L :: R :: post)) →
  cells s = cells s0 → still_read (announcements s0) (announcements s) → length (num_allocated s) = length (num_allocated s0) →
  (acyclic (heap s0) → ∃ rank, (∀ a b, refers (heap s) a b → (rank b < rank a)%nat) ∧ (rank q < rank (ln_addr L))%nat) →
  (B + length As + 6 ≤ n)%nat → fits n →
  wp (compare_and_swap mm tid (node_next (fst p)) (snap_get_counted (snd p)) q false)
     (λ b s', b = true ∧ beside s0 s' ∧ keep (B + 2) (fst p :: snd p :: As) Ss Ws (member_obls (MRc q) ++ E) s' ∧
        is_set s' ({[key]} ∪ K) (S len)) s.
Proof.
  intros Hk Hc Hlen [Hl Hr HLg HRg HLk HRk] Hne Hmax Hq Hil Hnew Hcells Hsr Hth Hrank Hn Hf.
  pose proof (is_list_at _ _ _ _ pre L (R :: post) Hil eq_refl) as HLn. pose proof (node_member _ _ _ HLn) as Hm.
  rewrite HLg, next_word_plain in Hm. cbn [first] in Hm.
  assert (raw q = q) as Hraw by (destruct Hq as (_ & Hqal & _); by apply get_ptr_id).
  unfold node_next, snap_get_counted. rewrite (at_addr_get _ _ Hl), (proj1 Hr). eapply wp_mono.
  { apply (held_cas n tid B (fst p :: snd p :: As) Ss Ws _ _ _ _ _ _ s Hk Hm); [| |simpl; lia|done].
    - left. exists (fst p). split; [by left|]. split; [by eapply at_addr_null|by eapply at_addr_raw].
    - intros Hnn. right. left. rewrite rc_obls, Hnn. by left. }
  intros b s' (-> & Hlt & _ & Hk'). rewrite Z.eqb_refl in *. split; [done|]. split; [|split; [done|]].
  - eapply put_beside; [done..|exact Hlt|]. intros Hac. destruct (Hrank Hac) as (rank & Hr1 & Hr2).
    exists rank. split; [done|]. by rewrite Hraw.
  - destruct (spot_insert pre post L R key K) with (p := q) as [Hc' Hs']; [apply (il_sorted _ _ _ _ Hil)|done|done|lia|done|].
    exists (pre ++ L :: LNode q key false :: R :: post). split; [|split; [done|]].
    + eapply is_list_evolves; [|apply Hlt|exact Hk'].
      apply (is_list_relink tail_ head_ s _ pre L (R :: post) (LNode q key false :: R :: post) Hil); [done|done| |done|done| |done].
      * split; [done|]. pose proof (il_linked _ _ _ _ Hil) as Hlk. by apply linked_app in Hlk as [_ [_ ?]].
      * pose proof (il_nodup _ _ _ _ Hil) as Hnd. rewrite !fmap_app, !fmap_cons in *.
        assert ((ln_addr <$> pre) ++ ln_addr L :: q :: ln_addr R :: (ln_addr <$> post) ≡ₚ
          q :: (ln_addr <$> pre) ++ ln_addr L :: ln_addr R :: (ln_addr <$> post)) as Hp by solve_Permutation.
        simpl. rewrite Hp. by constructor.
    + rewrite length_app in *. simpl in *. lia.
Qed.

Lemma list_insert_ok B As Ss Ws E s K len key rounds fuel :
  keep B As Ss Ws E s → is_set s K len → key < INT_MAX → (len ≤ fuel)%nat → can_create (announcements s) tid →
  (B + length As + 14 ≤ n)%nat → fits n →
  wp (list_insert mm tid head_ (S rounds) fuel key)
     (λ r s', r = negb (bool_decide (key ∈ K)) ∧ beside s s' ∧ keep (B + 8) As Ss Ws E s' ∧ is_set s' ({[key]} ∪ K) (S len)) s.
Proof.
  intros Hk Hset Hmax Hfuel Hcc Hn Hf. cbn [list_insert]. wp_step.
  eapply wp_mono; [apply (search_set_ok B As Ss Ws E s K len key rounds fuel); [done|done|lia|done|lia|done]|].
  intros p s1 (Hq1 & Hk1 & pre & L & R & post & Hse). wp_step. eapply right_key_ok; [exact Hk1|exact Hse|].
  pose proof (searched_key _ _ _ _ _ _ _ _ _ Hse Hmax) as Hkey. rewrite Hkey. destruct (bool_decide_reflect (key ∈ K)) as [Hin|Hin].
  - wp_step. eapply wp_mono; [apply (drop_pair_ok (B + 2) As Ss Ws E s1 p Hk1); lia|]. intros u s2 (Hl2 & Hk2). wp_step.
    split; [done|]. split; [apply (proj1 (B := _) (transitivity Hq1 (later_quiet _ _ Hl2)))|].
    split; [eapply held_mono; [|exact Hk2]; lia|]. apply searched_set in Hse. destruct Hse as (ns & Hil & Hc & Hlen).
    exists ns. split; [eapply is_list_evolves; [done|apply Hl2|exact Hk2]|]. split; [|lia].
    replace ({[key]} ∪ K) with K by set_solver. done.
  - wp_step. eapply wp_mono.
    { apply (new_list_node_ok (B + 2) As Ss Ws E s1 K len key p pre L R post Hk1 Hse); [by apply Hq1|unfold fits in *; lia]. }
    intros q s2 (Hk2 & Hq & Hil2 & Hnew & Hc2 & Hsr2 & Hth2 & Hrank2). wp_step. destruct Hse as [Hil Hc Hlen Hsp]. eapply wp_mono.
    { apply (link_ok _ As Ss Ws E s1 s2 K len key p pre L R post q Hk2 Hc Hlen Hsp); [by apply Z.eqb_neq|done..|lia|done]. }
    intros b s3 (-> & Hb3 & Hk3 & Hset3). wp_step. wp_step. wp_step.
    apply (held_perm tid _ _ (fst p :: snd p :: As)) in Hk3; [|done].
    eapply wp_mono; [apply (held_drop n tid _ _ Ss Ws E q s3 Hk3); simpl; lia|]. intros r s4 (_ & Hl4 & Hk4). wp_step.
    eapply wp_mono; [apply (drop_pair_ok _ As Ss Ws E s4 p Hk4); lia|]. intros u s5 (Hl5 & Hk5). wp_step. split; [done|].
    split; [|split; [eapply held_mono; [|exact Hk5]; lia|]].
    + etrans; [apply Hq1|]. etrans; [exact Hb3|]. etrans; by apply later_beside.
    + eapply is_set_later; [exact Hset3| |exact Hk5]. etrans; [apply Hl4|apply Hl5].
Qed.

(** ** remove *)

(** The node of [right] is followed by another when its key is not the last. *)
Lemma right_next s K len key p pre L R post :
  searched s K len key p pre L R post → ln_key R < INT_MAX → ∃ N post', post = N :: post'.
Proof.
  intros [Hil _ _ _] Hmax. destruct post as [|N post]; [|by eauto].
  destruct (is_list_end tail_ head_ s _ (pre ++ [L]) R [] Hil) as (_ & ? & _); [by rewrite <-app_assoc|done|lia].
Qed.

(** Marking the node. *)
Lemma mark_ok B As Ss Ws E s K len key p pre L R N post next :
  keep B As Ss Ws E s → searched s K len key p pre L R (N :: post) → at_addr next (ln_addr N) →
  wp (if snap_get_mark next =? 0 then compare_and_set_mark (node_next (snd p)) (snap_get_counted next) 1 else mret false)
     (λ b s', b = true ∧ quiet s s' ∧ keep B As Ss Ws E s' ∧
        nodes s' (pre ++ L :: LNode (ln_addr R) (ln_key R) true :: N :: post)) s.
Proof.
  intros Hk [Hil _ _ [_ Hr _ HRg _ _]] (Hnv & HNz & HNal). unfold snap_get_mark, snap_get_counted, node_next.
  rewrite (at_addr_get _ _ Hr), Hnv, get_mark_mod, HNal. simpl.
  assert (pre ++ L :: R :: N :: post = (pre ++ [L]) ++ R :: N :: post) as Hsplit by by rewrite <-app_assoc.
  pose proof (is_list_at _ _ _ _ (pre ++ [L]) R (N :: post) Hil Hsplit) as HRn.
  pose proof (node_member _ _ _ HRn) as Hm. rewrite HRg, next_word_plain in Hm. cbn [first] in Hm.
  unfold compare_and_set_mark. wp_step. change (wrap ptr_width 1) with 1.
  assert (set_mark (ln_addr N) 1 s = Ok (next_word true (ln_addr N), s)) as Hw.
  { unfold set_mark, clear_mark. fold (get_ptr (ln_addr N)). by rewrite get_ptr_id. }
  apply wp_ok. eexists _, s. split; [exact Hw|].
  wp_step. eapply wp_compare_exchange; [exact Hm|done|]. rewrite Z.eqb_refl. wp_step. cbn [member_set_word]. split; [done|]. split; [|split].
  - eapply put_quiet; [reflexivity|]. intros [rank Hrank]. exists rank. split; [done|]. intros _. simpl.
    rewrite next_word_ptr by done. apply Hrank. by eapply node_refers.
  - eapply held_mark; [done|exact Hm|]. by rewrite next_word_ptr, get_ptr_id.
  - rewrite Hsplit in Hil. apply is_list_mark in Hil; [|by destruct pre|done]. by rewrite <-app_assoc in Hil.
Qed.

(** Unlinking it. *)
Lemma unlink_ok B As Ss Ws E s p pre L R N post next :
  keep B (next :: fst p :: snd p :: As) Ss Ws E s → nodes s (pre ++ L :: R :: N :: post) → ln_gone L = false →
  at_addr (fst p) (ln_addr L) → at_addr (snd p) (ln_addr R) → at_addr next (ln_addr N) →
  (B + length As + 7 ≤ n)%nat → fits n →
  wp (compare_and_swap mm tid (node_next (fst p)) (snap_get_counted (snd p)) (snap_get_counted next) (snap_is_protected next))
     (λ b s', b = true ∧ quiet s s' ∧ keep (B + 2) (next :: fst p :: snd p :: As) Ss Ws E s' ∧
        nodes s' (pre ++ L :: N :: post)) s.
Proof.
  intros Hk Hil HLg Hl Hr Hnx Hn Hf. pose proof (is_list_at _ _ _ _ pre L _ Hil eq_refl) as HLn.
  pose proof (node_member _ _ _ HLn) as Hm. rewrite HLg, next_word_plain in Hm. cbn [first] in Hm.
  unfold node_next, snap_get_counted. rewrite (at_addr_get _ _ Hl), (proj1 Hr). pose proof Hnx as (Hnv & HNz & HNal). rewrite Hnv.
  eapply wp_mono.
  { apply (held_cas n tid B (next :: fst p :: snd p :: As) Ss Ws E _ _ _ _ _ s Hk Hm); [| |simpl; lia|done].
    - left. exists (fst p). split; [right; by left|]. split; [by eapply at_addr_null|by eapply at_addr_raw].
    - intros _. left. exists next. split; [by left|]. split; [by eapply at_addr_null|by rewrite Hnv]. }
  intros b s' (-> & Hlt & _ & Hk'). rewrite Z.eqb_refl in *. split; [done|]. split; [|split; [done|]].
  - eapply put_quiet; [exact Hlt|]. intros [rank Hrank]. exists rank. split; [done|]. intros _. simpl.
    rewrite get_ptr_id by done. eapply (linked_rank s rank L [R] N post Hrank).
    pose proof (il_linked _ _ _ _ Hil) as Hlk. by apply linked_app in Hlk as [_ ?].
  - eapply is_list_evolves; [|apply Hlt|exact Hk'].
    apply (is_list_relink tail_ head_ s _ pre L (R :: N :: post) (N :: post) Hil); [done|done| |done|done| |].
    + pose proof (il_linked _ _ _ _ Hil) as Hlk. by apply linked_app in Hlk as [_ [_ [_ ?]]].
    + apply (drop_gone_nodup pre L [R]), (il_nodup _ _ _ _ Hil).
    + apply (drop_gone_sorted pre L [R]), (il_sorted _ _ _ _ Hil).
Qed.

Lemma list_remove_ok B As Ss Ws E s K len key rounds fuel :
  keep B As Ss Ws E s → is_set s K len → key < INT_MAX → (len ≤ fuel)%nat →
  (B + length As + 10 ≤ n)%nat → fits n →
  wp (list_remove mm tid head_ (S rounds) fuel key)
     (λ r s', r = bool_decide (key ∈ K) ∧ quiet s s' ∧ keep (B + 4) As Ss Ws E s' ∧ is_set s' (K ∖ {[key]}) len) s.
Proof.
  intros Hk Hset Hmax Hfuel Hn Hf. cbn [list_remove]. wp_step.
  eapply wp_mono; [apply (search_set_ok B As Ss Ws E s K len key rounds fuel); [done|done|lia|done|lia|done]|].
  intros p s1 (Hq1 & Hk1 & pre & L & R & post & Hse). wp_step. eapply right_key_ok; [exact Hk1|exact Hse|].
  pose proof (searched_key _ _ _ _ _ _ _ _ _ Hse Hmax) as Hkey. rewrite Hkey. destruct (bool_decide_reflect (key ∈ K)) as [Hin|Hin]; simpl.
  - apply Z.eqb_eq in Hkey. destruct (right_next _ _ _ _ _ _ _ _ _ Hse) as (N & post' & ->); [lia|].
    pose proof Hse as [Hil Hc Hlen [Hl Hr HLg HRg HLk HRk]].
    assert (pre ++ L :: R :: N :: post' = (pre ++ [L]) ++ R :: N :: post') as Hsplit by by rewrite <-app_assoc. wp_step.
    eapply wp_mono; [apply (snapshot_next tid tail_ head_ _ _ Ss Ws E s1 _ _ R (N :: post') (snd p) Hk1 Hil Hsplit Hr); unfold fits in *; simpl; lia|].
    intros next s2 (Hl2 & Hk2 & Hnv). rewrite HRg, next_word_plain in Hnv. cbn [first] in Hnv.
    assert (at_addr next (ln_addr N)) as Hnx.
    { eapply node_at_addr; [|exact Hnv]. apply (is_list_at _ _ _ _ (pre ++ [L; R]) N post' Hil). by rewrite <-app_assoc. }
    assert (searched s2 K len key p pre L R (N :: post')) as Hse2.
    { split; [eapply is_list_evolves; [done|apply Hl2|exact Hk2]|done..]. }
    wp_step. eapply wp_mono; [apply (mark_ok _ _ Ss Ws E s2 K len key p pre L R N post' next Hk2 Hse2 Hnx)|].
    intros b s3 (-> & Hq3 & Hk3 & Hil3). wp_step. wp_step. eapply wp_mono.
    { apply (unlink_ok _ As Ss Ws E s3 p pre L _ N post' next Hk3 Hil3 HLg Hl); [done|done|lia|done]. }
    intros b s4 (-> & Hq4 & Hk4 & Hil4). wp_step. wp_step. wp_step. wp_step.
    eapply wp_mono; [apply (held_clear n tid _ next _ Ss Ws E s4 Hk4); simpl; lia|]. intros a s5 (_ & Hl5 & Hk5). wp_step.
    eapply wp_mono; [apply (drop_pair_ok _ As Ss Ws E s5 p Hk5); lia|]. intros u s6 (Hl6 & Hk6). wp_step. split; [done|].
    assert (later s4 s6) as Hl46 by by etrans. split; [|split; [by replace (B + 4)%nat with (B + 2 + 2)%nat by lia|]].
    + etrans; [exact Hq1|]. etrans; [by apply later_quiet|]. etrans; [exact Hq3|]. etrans; [exact Hq4|]. by apply later_quiet.
    + destruct (spot_remove pre (N :: post') L R key K) as [Hc' _]; [apply (il_sorted _ _ _ _ Hil)|done..|].
      exists (pre ++ L :: N :: post'). split; [eapply is_list_evolves; [exact Hil4|apply Hl46|exact Hk6]|]. split; [done|].
      rewrite length_app in *. simpl in *. lia.
  - wp_step. eapply wp_mono; [apply (drop_pair_ok (B + 2) As Ss Ws E s1 p Hk1); lia|]. intros u s2 (Hl2 & Hk2). wp_step.
    split; [done|]. split; [etrans; [exact Hq1|by apply later_quiet]|]. split; [eapply held_mono; [|exact Hk2]; lia|].
    replace (K ∖ {[key]}) with K by set_solver. eapply is_set_later; [by eapply searched_set|apply Hl2|exact Hk2].
Qed.

End list_ops.
