(* ===== verification/LinkedListProgram.v ===== *)
(** * Programs on the linked list

    The constructor of [atomic_linked_list], any number of threads that search,
    insert and remove, one call at a time in any order, and the destructor.  The
    theorems: the results are those of a set of integers, and after the
    destructor and the shutdown of the manager nothing is left in memory. *)

From S2P Require Import Prelude StickyCounter CountedObject MemoryManager Accounting ManagerSafety AtomicLoc Backend MarkedPtr Reclamation RcPtr SnapshotPtr AtomicRcPtr SharedCas Held LinkedList LinkedListOk LinkedListOps.

(** The calls of a client. *)
Inductive set_op :=
  | LFind (key : Z)
  | LInsert (key : Z)
  | LRemove (key : Z).

Definition op_key (op : set_op) : Z := match op with LFind k | LInsert k | LRemove k => k end.

(** The keys that are not the last sentinel's. *)
Definition in_range (op : set_op) : Prop := (INT_MIN ≤ op_key op < INT_MAX)%Z.

(** ** The specification: a set *)

Definition set_exec (op : set_op) (K : gset Z) : bool * gset Z :=
  match op with
  | LFind k => (bool_decide (k ∈ K), K)
  | LInsert k => (negb (bool_decide (k ∈ K)), {[k]} ∪ K)
  | LRemove k => (bool_decide (k ∈ K), K ∖ {[k]})
  end.

Fixpoint set_run (prog : list (nat * set_op)) (K : gset Z) : list bool * gset Z :=
  match prog with
  | [] => ([], K)
  | (_, op) :: prog' =>
      let '(r, K1) := set_exec op K in
      let '(rs, K2) := set_run prog' K1 in
      (r :: rs, K2)
  end.

Section list_program.
  Context {X En : Type}.
  Local Existing Instance marked_ptr_policy.
  Context `{Sch : !Scheme Z X En} `{Laws : !SchemeLaws Z X En} `{Back : !Backend Z X En} `{BLaws : !BackendLaws Z X En}.
  Context (n : nat) (tail_ head_ : nat) (fuel : nat).
  Local Abbreviation st := (state Z X En).
  Local Abbreviation mm := (manager n).
  Implicit Types (s : st) (K : gset Z).

Definition list_call (tid : nat) (op : set_op) : M st bool :=
  match op with
  | LFind k => list_find mm tid head_ fuel fuel k
  | LInsert k => list_insert mm tid head_ fuel fuel k
  | LRemove k => list_remove mm tid head_ fuel fuel k
  end.

Fixpoint list_calls (prog : list (nat * set_op)) : M st (list bool) :=
  match prog with
  | [] => mret []
  | (tid, op) :: prog' =>
      r ← list_call tid op;
      rs ← list_calls prog';
      mret (r :: rs)
  end.

(** Nobody holds a pointer, and the list represents [K] with at most [len]
    nodes. *)
Record list_inv (N B : nat) s K (len : nat) : Prop := {
  li_idle : idle N B s;
  li_set : is_set tail_ head_ s K len
}.

Lemma list_inv_mono N B B' s K len len' : B ≤ B' → len ≤ len' → list_inv N B s K len → list_inv N B' s K len'.
Proof.
  intros HB Hlen [[] (ns & ? & ? & ?)]. split; [split; [done|lia|done..]|]. exists ns. split_and!; [done..|lia].
Qed.

Lemma list_inv_held N B s K len tid : list_inv N B s K len → tid < N → held tid B [] [] [] [] s.
Proof. intros [Hid _]. by apply idle_held. Qed.

Lemma held_list_inv N B B' s s' K K' len len' tid :
  list_inv N B s K len → held tid B' [] [] [] [] s' → is_set tail_ head_ s' K' len' → beside s s' → list_inv N B' s' K' len'.
Proof. intros [Hid _] Hh Hset (_ & Hsr & Hth & _). split; [by eapply held_idle|done]. Qed.

Lemma list_call_ok N B s K len tid op :
  list_inv N B s K len → tid < N → in_range op → len ≤ fuel → 0 < fuel → B + 14 ≤ n → fits n → can_create (announcements s) tid →
  wp (list_call tid op)
     (λ r s', r = fst (set_exec op K) ∧ list_inv N (B + 8) s' (snd (set_exec op K)) (S len) ∧ beside s s') s.
Proof.
  intros Hli Ht [_ Hk] Hlen Hfuel Hn Hf Hcc. pose proof (list_inv_held _ _ _ _ _ _ Hli Ht) as Hh.
  pose proof (li_set _ _ _ _ _ Hli) as Hset. assert (∃ rounds, fuel = S rounds) as [rounds Hr] by (exists (pred fuel); lia).
  assert (∀ s' K' B' len', beside s s' → held tid B' [] [] [] [] s' → is_set tail_ head_ s' K' len' → B' ≤ B + 8 → len' ≤ S len →
    list_inv N (B + 8) s' K' (S len) ∧ beside s s') as Hfin.
  { intros s' K' B' len' Hb Hh' Hset' HB Hle. split; [|done]. apply (list_inv_mono N B' _ _ _ len'); [done|done|].
    by eapply held_list_inv. }
  destruct op as [k|k|k]; simpl in *.
  - rewrite Hr at 1. eapply wp_mono; [apply (list_find_ok n tid tail_ head_ B [] [] [] [] s K len k rounds fuel); simpl; [done..|lia|done]|].
    intros r s' (-> & Hq & Hh' & Hset'). split; [done|]. eapply Hfin; [apply Hq|exact Hh'|exact Hset'|lia|lia].
  - rewrite Hr at 1. eapply wp_mono; [apply (list_insert_ok n tid tail_ head_ B [] [] [] [] s K len k rounds fuel); simpl; [done..|lia|done]|].
    intros r s' (-> & Hb & Hh' & Hset'). split; [done|]. eapply Hfin; [exact Hb|exact Hh'|exact Hset'|lia|lia].
  - rewrite Hr at 1. eapply wp_mono; [apply (list_remove_ok n tid tail_ head_ B [] [] [] [] s K len k rounds fuel); simpl; [done..|lia|done]|].
    intros r s' (-> & Hq & Hh' & Hset'). split; [done|]. eapply Hfin; [apply Hq|exact Hh'|exact Hset'|lia|lia].
Qed.

(** A thread may always create: with a scheme that stamps objects, the clock has
    not run out. *)
Definition list_creates N prog s : Prop :=
  ∀ pre rs s', pre `prefix_of` prog → list_calls pre s = Ok (rs, s') →
  ∀ tid, tid < N → can_create (announcements s') tid.

Lemma list_creates_cons N tid op prog s r s1 :
  list_creates N ((tid, op) :: prog) s → list_call tid op s = Ok (r, s1) → list_creates N prog s1.
Proof.
  intros Hc He pre rs s' [post ->] Hr. apply (Hc ((tid, op) :: pre) (r :: rs)); [by exists post|].
  simpl. unfold mbind, M_bind. rewrite He, Hr. done.
Qed.

Lemma list_calls_ok N prog B s K len :
  list_inv N B s K len → Forall (λ '(tid, op), tid < N ∧ in_range op) prog → len + length prog < fuel →
  B + 8 * length prog + 14 ≤ n → fits n → list_creates N prog s →
  wp (list_calls prog)
     (λ rs s', rs = fst (set_run prog K) ∧ list_inv N (B + 8 * length prog) s' (snd (set_run prog K)) (len + length prog) ∧
               beside s s') s.
Proof.
  revert B s K len. induction prog as [|[tid op] prog IH]; intros B s K len Hli Hprog Hfuel Hn Hf Hcc; simpl.
  { wp_step. rewrite !Nat.add_0_r. split; [done|]. split; [done|reflexivity]. }
  inversion_clear Hprog as [|? ? Hop0 Hprog']. destruct Hop0 as [Htid Hop]. simpl in *. wp_step.
  pose proof (list_call_ok N B s K len tid op Hli Htid Hop ltac:(lia) ltac:(lia) ltac:(lia) Hf
    (Hcc [] [] s (prefix_nil _) eq_refl tid Htid)) as (r & s1 & He & -> & Hli1 & Hb1)%wp_ok.
  apply wp_ok. exists (fst (set_exec op K)), s1. split; [done|]. destruct (set_exec op K) as [r K1]. simpl in *. wp_step.
  eapply wp_mono; [apply (IH (B + 8) s1 K1 (S len)); [done..|lia|lia|done|by eapply list_creates_cons]|].
  intros rs s' (-> & Hli' & Hb'). wp_step. destruct (set_run prog K1) as [rs K2]. simpl in *.
  split; [done|]. split; [|by etrans]. eapply list_inv_mono; [| |exact Hli']; lia.
Qed.

(** C15. The linked list is a set.  Any sequence of [find], [insert] and [remove]
    by any threads with keys below [INT_MAX] returns, with the results of the
    same operations on a set of integers, and leaves the list representing the
    set they leave.  It may start in a list with nodes that are marked but not
    yet unlinked, as a thread that stopped in the middle of [remove] leaves it:
    the searches unlink the ones they pass. *)
Theorem linked_list_refines N prog B s K len :
  list_inv N B s K len → Forall (λ '(tid, op), tid < N ∧ in_range op) prog → len + length prog < fuel →
  B + 8 * length prog + 14 ≤ n → fits n → list_creates N prog s →
  ∃ s', list_calls prog s = Ok (fst (set_run prog K), s') ∧
        list_inv N (B + 8 * length prog) s' (snd (set_run prog K)) (len + length prog).
Proof.
  intros Hli Hprog Hfuel Hn Hf Hcc.
  pose proof (list_calls_ok N prog B s K len Hli Hprog Hfuel Hn Hf Hcc) as (rs & s' & Hr & -> & Hli' & _)%wp_ok. eauto.
Qed.

(** ** The constructor *)

(** A node with its first reference on the way to an atomic pointer. *)
Lemma make_node_ok B tid s E k nxt :
  held tid B [] [] [] (member_obls (MRc nxt) ++ E) s → (nxt mod 4 = 0)%Z → (nxt ≠ 0%Z → is_Some (heap s !! nxt)) →
  can_create (announcements s) tid →
  wp (make_shared tid (ListNode k nxt))
     (λ p s', held tid (B + 4) [] [] [] (member_obls (MAtomicRc p) ++ E) s' ∧ node_at s' (LNode p k false) nxt ∧
        heap s !! p = None ∧ (∀ q, q ≠ p → heap s' !! q = heap s !! q) ∧ cells s' = cells s ∧
        still_read (announcements s) (announcements s') ∧ length (num_allocated s') = length (num_allocated s) ∧
        (acyclic (heap s) → acyclic (heap s'))) s.
Proof.
  intros Hh Hal Hnxt Hcc. apply held_to_atomic in Hh. pose proof (held_inv _ _ _ _ _ _ _ Hh) as (Ss0 & E0 & Hinv). eapply wp_mono.
  { apply (held_make tid (S B) [] [] [] E (ListNode k nxt) s); [|done]. unfold members_obls. simpl. by rewrite app_nil_r. }
  intros p s' (Hh' & Hnn & Hraw & Hfresh & (o & Ho & Hst) & Hother & Hc & Hth & Hsr).
  apply held_to_atomic in Hh'. unfold is_null in Hnn. rewrite Hraw in Hnn. apply Z.eqb_neq in Hnn.
  split; [by replace (B + 4) with (S (S B + 2)) by lia|]. split; [|split_and!; try done].
  - split; [done|]. split; [simpl; rewrite <-Hraw; apply get_ptr_aligned|]. exists o. simpl. by rewrite next_word_plain.
  - intros [rank Hr]. eexists. apply (ranked_new rank s s' p o _ _ Ho Hst eq_refl Hother); [| |done].
    + intros q Hrf. eapply refers_heap in Hrf as [? ?]; [|exact Hinv]. congruence.
    + simpl. rewrite get_ptr_id by done. intros ->. destruct (Hnxt Hnn) as [? ?]. congruence.
Qed.

Lemma contents_empty h t : contents [h; LNode t INT_MAX false] ∅.
Proof.
  intros k. split; [set_solver|]. intros [Hk (a & Ha & _ & Hka)]. apply list_elem_of_singleton in Ha as ->. by simpl in Hka.
Qed.

(** What the two sentinels are. *)
Lemma sentinels_set s h t :
  tail_ ≠ head_ → cells s !! tail_ = Some (MAtomicRc t) → cells s !! head_ = Some (MAtomicRc h) → h ≠ t →
  node_at s (LNode h INT_MIN false) t → node_at s (LNode t INT_MAX false) 0 → is_set tail_ head_ s ∅ 2.
Proof.
  intros Hne Ht Hh Hht Hnh Hnt. exists [LNode h INT_MIN false; LNode t INT_MAX false].
  split; [|split; [apply contents_empty|done]]. split; [by eauto|by eauto|by split; [|split]| |by repeat constructor].
  simpl. apply NoDup_cons. split; [by intros ->%list_elem_of_singleton|apply NoDup_singleton].
Qed.

Lemma node_same_values s s' a nxt : same_values s s' → node_at s a nxt → node_at s' a nxt.
Proof.
  intros Hsv (Hz & Hal & o & Ho & Hst). split; [done|]. split; [done|]. pose proof (sv_heap _ _ Hsv (ln_addr a)) as Hsh.
  rewrite Ho in Hsh. destruct (heap s' !! ln_addr a) as [o'|]; simplify_eq/=. exists o'. split; [done|congruence].
Qed.

(** The constructor makes an empty set out of its two sentinels: from a state
    in which nobody holds a pointer, with enough timestamps for two objects, it
    returns, the accounts balance, the other cells are untouched and no cycle of
    references appears. *)
Theorem linked_list_init N B tid s :
  idle N B s → tid < N → tail_ ≠ head_ → cells s !! tail_ = None → cells s !! head_ = None → fits (B + 9) →
  can_create (announcements s) tid →
  (∀ t s1, make_shared tid (ListNode INT_MAX 0) s = Ok (t, s1) → can_create (announcements s1) tid) →
  wp (list_init tid tail_ head_)
     (λ _ s', list_inv N (B + 9) s' ∅ 2 ∧ (acyclic (heap s) → acyclic (heap s')) ∧
              ∀ j, j ≠ tail_ → j ≠ head_ → cells s' !! j = cells s !! j) s.
Proof.
  intros Hid Htid Hne Htl Hhd Hf Hcc Hcc1. pose proof (idle_held tid N B s Hid Htid) as Hh. unfold list_init, fits in *. wp_step.
  assert (member_obls (En := En) (MRc 0) = []) as Hnil by (rewrite rc_obls; unfold is_null; by rewrite raw_aligned).
  pose proof (make_node_ok B tid s [] INT_MAX 0 ltac:(by rewrite Hnil) eq_refl ltac:(done) Hcc)
    as (t & s1 & Hmk & Hh1 & Ht1 & Hfr1 & Hot1 & Hc1 & Hsr1 & Hth1 & Hac1)%wp_ok.
  apply wp_ok. exists t, s1. split; [done|]. specialize (Hcc1 t s1 Hmk). unfold arc_new, rc_release. wp_step. wp_step.
  apply held_new_cell with (i := tail_) in Hh1; [|by rewrite Hc1]. rewrite Hc1 in Hh1 |- *.
  set (s2 := set_cells (<[tail_ := MAtomicRc t]> (cells s)) s1) in *. wp_step.
  eapply wp_mono; [apply (held_load tid (B + 4) [] [] [] [] (LCell tail_) t s2 Hh1); [apply lookup_insert_eq|unfold fits; simpl; lia]|].
  intros r s3 (-> & Hsv3 & Hl3 & Hh3). assert (node_at s3 (LNode t INT_MAX false) 0) as Ht3 by by eapply (node_same_values s2).
  pose proof Ht3 as (_ & Htal & ot & Hot3 & _). simpl in Htal, Hot3. wp_step.
  eapply wp_mono; [apply (make_node_ok (S (B + 4)) tid s3 [] INT_MIN t Hh3); [done|by eauto|by apply Hl3]|].
  intros h s4 (Hh4 & Hn4 & Hfr4 & Hot4 & Hc4 & Hsr4 & Hth4 & Hac4). wp_step.
  rewrite (sv_cells _ _ Hsv3) in Hc4. simpl in Hc4. assert (h ≠ t) as Hht by congruence.
  apply held_new_cell with (i := head_) in Hh4; [|by rewrite Hc4, lookup_insert_ne].
  rewrite Hc4 in Hh4 |- *. split; [split|split].
  - replace (B + 9) with (S (B + 4) + 4) by lia. apply (held_idle tid N B _ s _ Hid Hh4); simpl.
    + etrans; [exact Hsr1|]. etrans; [apply Hl3|exact Hsr4].
    + rewrite Hth4, (sv_threads _ _ Hsv3). done.
  - apply (sentinels_set _ h t Hne); simpl; [by rewrite lookup_insert_ne, lookup_insert_eq|apply lookup_insert_eq|done|done|].
    eapply node_heap; [|exact Ht3]. by apply Hot4.
  - intros Hac. apply Hac4. eapply acyclic_evolves; [apply Hl3|]. by apply Hac1.
  - intros j Hj1 Hj2. simpl. by rewrite !lookup_insert_ne.
Qed.

(** ** The destructor *)

Lemma list_destruct_ok B tid s K len :
  held tid B [] [] [] [] s → is_set tail_ head_ s K len → tail_ ≠ head_ → B + 2 ≤ n →
  wp (list_destruct mm tid tail_ head_)
     (λ _ s', held tid (B + 2) [] [] [] [] s' ∧ cells s' = delete tail_ (delete head_ (cells s)) ∧
              (acyclic (heap s) → acyclic (heap s'))) s.
Proof.
  intros Hh (ns & [(h & Hhd & _) (t & Htl & _) _ _ _] & _) Hne Hn. unfold list_destruct. wp_step.
  eapply wp_mono; [apply (held_delete_cell n tid B [] [] [] [] head_ h s Hh Hhd); simpl; lia|]. intros u s1 (Hl1 & Hh1).
  assert (cells s1 = delete head_ (cells s)) as Hc1 by apply (ev_cells _ _ (proj1 Hl1)).
  eapply wp_mono; [apply (held_delete_cell n tid (S B) [] [] [] [] tail_ t s1 Hh1); [by rewrite Hc1, lookup_delete_ne|simpl; lia]|].
  intros u' s2 (Hl2 & Hh2). split; [by replace (B + 2) with (S (S B)) by lia|]. split; [by rewrite (ev_cells _ _ (proj1 Hl2)); simpl; rewrite Hc1|].
  intros Hac. eapply acyclic_evolves; [apply Hl2|]. simpl. by eapply acyclic_evolves; [apply Hl1|].
Qed.

(** C16. No leak.  After any calls on the list by any threads, its destructor and
    the shutdown of the manager every node has been freed, the removed ones, the
    ones still in the list and the sentinels, provided the objects did not refer
    to each other in a cycle and every other atomic pointer was null at the
    start. *)
Theorem linked_list_no_leak N prog B s K len tid :
  list_inv N B s K len → acyclic (heap s) → tail_ ≠ head_ →
  (∀ j m, j ≠ head_ → j ≠ tail_ → cells s !! j = Some m → raw (member_word m) = 0%Z) →
  Forall (λ '(tid, op), tid < N ∧ in_range op) prog → tid < N →
  B + len + 8 * length prog + 3 < fuel → B + 8 * length prog + 14 ≤ n → fits n → list_creates N prog s →
  wp (list_calls prog;; list_destruct mm tid tail_ head_;; shutdown (eject mm tid) fuel;; currently_allocated)
     (λ r s', r = 0%Z ∧ heap s' = ∅ ∧ concat (deferred_destructs s') = []) s.
Proof.
  intros Hli Hac Hne Hcells Hprog Htid Hfuel Hn Hf Hcc. wp_step.
  eapply wp_mono; [apply (list_calls_ok N prog B s K len); [done|done|lia|done|done|done]|].
  intros rs s1 (_ & Hli1 & (Hc1 & _ & _ & Hac1)). pose proof (list_inv_held _ _ _ _ _ tid Hli1 Htid) as Hh1. wp_step.
  eapply wp_mono; [apply (list_destruct_ok _ tid s1 _ _ Hh1 (li_set _ _ _ _ _ Hli1) Hne); lia|].
  intros u s2 (Hh2 & Hc2 & Hac2). destruct Hh2 as [(T & O & Hh2 & Hinv2) Ht2 _ Hp2]. inversion Hh2; subst.
  apply shutdown_frees; [done|done| |auto|lia|lia].
  intros j m Hj. rewrite Hc2, Hc1 in Hj. apply lookup_delete_Some in Hj as [Hj1 [Hj2 Hj]%lookup_delete_Some].
  by eapply (Hcells j m).
Qed.

End list_program.
