(* ===== verification/AtomicWeakPtr.v ===== *)
(** * Atomic weak pointers
    ([atomic_weak_ptr] of src/include/cdrc/atomic_weak_ptr.h) *)

From S2P Require Import Prelude StickyCounter CountedObject MemoryManager Accounting ManagerSafety AtomicLoc Backend Reclamation RcPtr SnapshotPtr AtomicRcPtr.
Local Open Scope Z_scope.

Section atomic_weak_ptr.
  Context {V X En : Type} `{Pol : !Policy} `{Sch : !Scheme V X En} `{Back : !Backend V X En}.
  Context (self : derived V X En) (tid : nat).
  Local Abbreviation M := (M (state V X En)).

(** [if (ptr != nullptr) mm.delayed_decrement_weak_cnt(ptr)] *)
Definition aw_drop (ptr : Z) : M unit :=
  when (negb (is_null ptr)) (delayed_decrement_weak_cnt self tid (raw ptr)).

Definition aw_destruct (l : loc) : M unit :=
  ptr ← loc_load l;
  aw_drop ptr.

Definition aw_store_null (l : loc) : M unit :=
  old_ptr ← loc_exchange l 0;
  aw_drop old_ptr.

(** [store(weak_ptr_t)] and [operator=] *)
Definition aw_store (l : loc) (desired : Z) : M unit :=
  let '(new_ptr, _) := weak_release desired in
  old_ptr ← loc_exchange l new_ptr;
  aw_drop old_ptr.

Definition aw_store_non_racy (l : loc) (desired : Z) : M unit :=
  let '(new_ptr, _) := weak_release desired in
  old_ptr ← loc_load l;
  loc_store l new_ptr;;
  aw_drop old_ptr.

(** [store(const weak_snapshot_ptr_t&)] and [store(const snapshot_ptr_t&)] *)
Definition aw_store_snapshot (l : loc) (desired : acquired) : M unit :=
  let new_ptr := snap_get_counted desired in
  (if is_null new_ptr then mret tt else increment_weak_cnt (raw new_ptr);; mret tt);;
  old_ptr ← loc_exchange l new_ptr;
  aw_drop old_ptr.

Definition aw_load (l : loc) : M Z :=
  acquired_ptr ← mm_acquire tid l;
  result ← weak_make (acq_value acquired_ptr) addref_yes;
  acq_destruct acquired_ptr;;
  mret result.

(** The loop of [get_snapshot]: an acquired pointer that is not returned is
    destroyed at the end of the round. *)
Fixpoint aw_get_snapshot (rounds : nat) (l : loc) : M acquired :=
  match rounds with
  | O => fail OutOfFuel
  | S rounds' =>
      p ← mm_protect_snapshot tid l;
      let ptr := acq_value p in
      used ← (if is_null ptr then mret false
              else n ← with_obj (raw ptr) get_use_count; mret (0 <? n));
      if used : bool then mret p
      else
        over ← (if is_null ptr then mret true else cur ← loc_load l; mret (cur =? ptr));
        acq_destruct p;;
        if over : bool then mret acq_null else aw_get_snapshot rounds' l
  end.

Definition aw_compare_and_swap_impl (l : loc) (expected_ptr desired_ptr : Z) : M bool :=
  r ← loc_compare_exchange l expected_ptr desired_ptr;
  if fst r : bool then
    aw_drop expected_ptr;;
    mret true
  else mret false.

Definition aw_compare_and_swap (l : loc) (expected desired : Z) (desired_protected : bool) : M bool :=
  reservation ← (if negb desired_protected then mm_reserve tid desired else mret mm_reserve_nothing);
  b ← aw_compare_and_swap_impl l expected desired;
  (if b : bool then
     (if is_null desired then mret tt else increment_weak_cnt (raw desired);; mret tt)
   else mret tt);;
  acq_destruct reservation;;
  mret b.

Definition aw_compare_and_swap_move (l : loc) (expected desired : Z) : M (bool * Z) :=
  b ← aw_compare_and_swap_impl l expected desired;
  mret (b, if b : bool then snd (weak_release desired) else desired).

Definition aw_compare_exchange_weak (l : loc) (expected desired : Z) : M (bool * Z) :=
  b ← aw_compare_and_swap l expected desired false;
  if b : bool then mret (true, expected)
  else
    loaded ← aw_load l;
    r ← weak_assign_move tid expected loaded;
    weak_clear tid (snd r);;
    mret (false, fst r).

Definition aw_compare_exchange_weak_snapshot (rounds : nat) (l : loc) (expected : acquired)
    (desired : Z) : M (bool * acquired) :=
  b ← aw_compare_and_swap l (snap_get_counted expected) desired false;
  if b : bool then mret (true, expected)
  else
    taken ← aw_get_snapshot rounds l;
    r ← weak_snap_assign_move self tid expected taken;
    weak_snap_clear self tid (snd r);;
    mret (false, fst r).

Definition aw_exchange (l : loc) (desired : Z) : M Z :=
  let '(new_ptr, _) := weak_release desired in
  old_ptr ← loc_exchange l new_ptr;
  weak_make old_ptr addref_no.

End atomic_weak_ptr.

(** ** The methods keep the accounts *)

Section aw_ok.
  Context {V X En : Type} `{Pol : !Policy} `{Sch : !Scheme V X En} `{Laws : !SchemeLaws V X En}
    `{Back : !Backend V X En} `{BLaws : !BackendLaws V X En}.
  Context (n : nat) (tid : nat).
  Local Abbreviation st := (state V X En).
  Local Abbreviation mm := (manager n).
  Implicit Types (s : st) (E : list (obl En)) (Ss Ws : list snap) (w : Z) (l : loc).

Lemma aw_obls w :
  member_obls (En := En) (MAtomicWeak w) = if is_null w then [] else [OPend (raw w) decrement_weak_count].
Proof. done. Qed.

Lemma Inv_weak_to_pend Ss Ws E w s :
  Inv Ss Ws (member_obls (MWeak w) ++ E) s → Inv Ss Ws (member_obls (MAtomicWeak w) ++ E) s.
Proof.
  rewrite weak_obls, aw_obls. destruct (is_null w); [done|]. simpl.
  apply Inv_retarget; [done|done|]. intros t ty _. rewrite !total_cons. simpl. lia.
Qed.

Lemma aw_drop_ok Ss Ws E w s :
  (tid < length (num_allocated s))%nat → Inv Ss Ws (member_obls (MAtomicWeak w) ++ E) s →
  (potential (member_obls (MAtomicWeak w) ++ E) s ≤ n)%nat →
  wp (aw_drop mm tid w)
     (λ _ s', kept_safe Ss Ws E s s' ∧
              (potential E s' ≤ potential (member_obls (MAtomicWeak w) ++ E) s)%nat) s.
Proof.
  intros Htid Hinv Hpot.
  eapply wp_mono; [apply (destruct_member_ok Ss Ws n _ (manager_ok Ss Ws n) E tid (MAtomicWeak w)); done|].
  intros u s' Ha. split; [|by destruct Ha].
  eapply after_kept_safe; [exact Hinv| |exact Ha]. intros p Hp. apply elem_of_app. by right.
Qed.

Lemma aw_replace_ok Ss Ws E l w w0 s :
  (tid < length (num_allocated s))%nat → Inv Ss Ws (member_obls (MWeak w) ++ E) s →
  member_at s l (MAtomicWeak w0) → (S (potential (member_obls (MWeak w) ++ E) s) ≤ n)%nat →
  wp (old_ptr ← loc_exchange l w; aw_drop mm tid old_ptr)
     (λ _ s', kept_safe Ss Ws E (put_member l (MAtomicWeak w) s) s' ∧
              (potential E s' ≤ S (potential (member_obls (MWeak w) ++ E) s))%nat) s.
Proof.
  intros Htid Hinv Hm Hpot. apply Inv_weak_to_pend in Hinv.
  assert (potential (member_obls (MAtomicWeak w) ++ E) s ≤ S (potential (member_obls (MWeak w) ++ E) s))%nat as Hle
    by (rewrite !potential_app, weak_obls, aw_obls; destruct (is_null w); simpl; lia).
  wp_step. eapply (loc_exchange_ok Ss Ws E s l (MAtomicWeak w0) w); [done..|]. simpl. intros Hinv' Hpot'.
  eapply wp_mono; [apply aw_drop_ok; [|exact Hinv'|lia]|].
  - destruct (put_member_rest s l (MAtomicWeak w)) as (_ & -> & _). done.
  - intros _ s' [? ?]. split; [done|lia].
Qed.

(** [store] of a weak pointer: the location holds the new word with its
    weak reference, the weak reference it had is retired, the accounts balance
    and nothing protected loses its value. *)
Theorem aw_store_correct Ss Ws E l w w0 s :
  (tid < length (num_allocated s))%nat → Inv Ss Ws (member_obls (MWeak w) ++ E) s →
  member_at s l (MAtomicWeak w0) → (potential (member_obls (MWeak w) ++ E) s < n)%nat →
  wp (aw_store mm tid l w)
     (λ _ s', preserves Ss Ws E (put_member l (MAtomicWeak w) s) s' ∧
              (loc_held Ss Ws E l → member_at s' l (MAtomicWeak w)) ∧
              announcements s' = announcements s) s.
Proof.
  intros Htid Hinv Hm Hpot. eapply wp_mono; [by apply (aw_replace_ok Ss Ws E l w w0)|].
  intros u s' [Hk _]. pose proof (kept_safe_preserves _ _ _ _ _ Hk) as Hpr. split; [done|]. split.
  - intros Hheld. eapply evolves_member; [done..|]. by eapply member_at_put.
  - destruct (put_member_rest s l (MAtomicWeak w)) as (<- & _).
    apply (stable_ann _ _ (ks_stable _ _ _ _ _ Hk)).
Qed.

(** The object of a weak location is in memory. *)
Lemma member_weak_object Ss Ws E l w s :
  Inv Ss Ws E s → member_at s l (MAtomicWeak w) → is_null w = false → is_Some (heap s !! raw w).
Proof.
  intros Hinv Hm Hw. apply (Inv_on_heap _ _ _ _ _ decrement_weak_count Hinv).
  eapply total_member_on; [exact Hm|]. by rewrite aw_obls, Hw.
Qed.

(** [load] of a weak pointer: what the location holds, or (for a backend whose
    [acquire] checks the strong count) null. *)
Lemma aw_load_ok Ss Ws E l w s :
  (tid < length (num_allocated s))%nat → may_read (announcements s) tid →
  Inv Ss Ws E s → member_at s l (MAtomicWeak w) → fits (potential E s) →
  wp (aw_load tid l)
     (λ r s', (r = w ∨ r = 0) ∧ Inv Ss Ws (member_obls (MWeak r) ++ E) s' ∧ same_values s s' ∧
              potential E s' = potential E s ∧ reads_kept (announcements s) (announcements s')) s.
Proof.
  intros Htid Hmr Hinv Hm Hf. unfold aw_load. wp_step. eapply wp_mono; [by eapply acquire_ok|].
  intros a s1 (Hv & Htr & Hinv1 & Hsv1 & Hpot1 & Hmr1).
  assert (acq_value a = w ∨ acq_value a = 0) as Hv' by (destruct Hv as [?|[_ ?]]; auto).
  wp_step. eapply wp_mono.
  { eapply (weak_addref_ok Ss Ws E (acq_value a)); [done| |by rewrite Hpot1]. intros Hnn.
    destruct Hv' as [Hz|Hz]; rewrite Hz in *; [|unfold is_null in Hnn; by rewrite raw_aligned in Hnn].
    eapply member_weak_object; [exact Hinv1| |done]. by eapply same_values_member. }
  intros r s2 (-> & Hinv2 & Hsv2 & Ha2 & Hpot2). wp_step.
  assert (same_values s s2) as Hsv by by etrans.
  eapply wp_mono; [eapply (acq_destruct_ok Ss Ws _ tid); [by rewrite (sv_threads _ _ Hsv)|by rewrite Ha2; apply Hmr1|done|exact Hinv2]|].
  intros _ s3 (Hinv3 & Hsv3 & Hpot3 & Hmr3). wp_step. split; [done|]. split; [done|]. split; [by etrans|].
  rewrite Ha2 in Hmr3. split; [|by eapply reads_kept_trans]. rewrite !potential_app in Hpot3. lia.
Qed.

(** Reading the strong count through a pointer to an object in memory. *)
Lemma use_count_ok Ss Ws E p s (Q : Z → st → Prop) :
  Inv Ss Ws E s → is_Some (heap s !! p) →
  Q (Z.of_nat (total (on p decrement_strong_count) E s)) s → wp (with_obj p get_use_count) Q s.
Proof.
  intros Hinv [o Ho] HQ. pose proof (Inv_counts _ _ _ _ _ _ Hinv Ho) as [Hs _ _ _ _].
  by eapply wp_use_count; [|eapply Inv_nonnull|..].
Qed.

Lemma aw_get_snapshot_ok rounds Ss Ws E l w s :
  (tid < length (num_allocated s))%nat → may_read (announcements s) tid →
  Inv Ss Ws E s → member_at s l (MAtomicWeak w) →
  (∀ o, heap s !! raw w = Some o → strong_room o) →
  wp (aw_get_snapshot tid (S rounds) l)
     (λ a s', potential E s' = potential E s ∧ same_values s s' ∧ reads_kept (announcements s) (announcements s') ∧
        ((a = acq_null ∧ Inv Ss Ws E s' ∧
          (is_null w = true ∨ total (on (V := V) (X := X) (raw w) decrement_strong_count) E s = 0%nat)) ∨
         (acq_value a = w ∧ live s' (raw w) ∧
          ((∃ t, acq_token a t ∧ (∀ t', t' ∈ Ss ∨ t' ∈ Ws → apart t t') ∧ Inv Ss (t :: Ws) E s') ∨
           (acq_is_protected a = false ∧ Inv Ss Ws (OStrong (raw w) :: E) s'))))) s.
Proof.
  intros Htid Hmr Hinv Hm Hroom. simpl aw_get_snapshot. wp_step.
  eapply wp_mono; [by eapply protect_weak_ok|]. intros a s1 (Hsv & Hmr1 & Hor).
  assert (member_at s1 l (MAtomicWeak w)) as Hm1 by by eapply same_values_member.
  assert (is_null 0 = true) as Hnull0 by (unfold is_null; by rewrite raw_aligned).
  destruct Hor as [(Hz & Hinv1 & Hpot1 & Hwhy)|(Hv & Hnz & [(t & Ht & Hok & Hap & Hinv1 & Hpot1)|(Hp & Hinv1 & Hpot1)])].
  - assert (is_null (acq_value a) = true) as -> by (by apply Z.eqb_eq). wp_steps.
    eapply wp_mono; [by apply acq_destruct_free; right|]. intros _ s2 ->. wp_step.
    split; [done|]. split; [done|]. split; [done|]. left. split; [done|]. split; [done|].
    destruct Hwhy as [?|?]; [left; by apply Z.eqb_eq|by right].
  - rewrite Hv. assert (is_null w = false) as Hw by (by apply Z.eqb_neq). rewrite Hw.
    destruct (acq_token_ok a t Ht) as [Hptr _]. rewrite Hv in Hptr.
    assert (is_Some (heap s1 !! raw w)) as Hsome by by eapply member_weak_object.
    wp_step. wp_step. eapply use_count_ok; [done..|]. wp_step.
    destruct (Z.ltb_spec 0 (Z.of_nat (total (on (V := V) (X := X) (raw w) decrement_strong_count) E s1))) as [HS|HS].
    + wp_step. split; [done|]. split; [done|]. split; [done|]. right. split; [done|]. split; [eapply rc_held_live; [done|lia]|].
      left. exists t. split; [done|]. split; [done|]. apply Inv_add_weak_snap; [done|done| |rewrite <-Hptr; lia].
      eapply total_member_pins; [exact Hm1|]. by rewrite aw_obls, Hw, Hptr.
    + wp_step. wp_step. eapply loc_load_ok; [done..|]. wp_step. rewrite Z.eqb_refl. wp_step.
      eapply wp_mono; [by eapply acq_destruct_token_ok; [..|apply Hok| |]|]. intros _ s2 (Hinv2 & Hsv2 & Hpot2 & Hmr2). wp_step.
      split; [congruence|]. split; [by etrans|]. split; [by eapply reads_kept_trans|]. left. split; [done|]. split; [done|]. right.
      rewrite (same_values_total _ _ _ _ Hsv) in HS. lia.
  - rewrite Hv. assert (is_null w = false) as Hw by (by apply Z.eqb_neq). rewrite Hw.
    assert (is_Some (heap s1 !! raw w)) as Hsome by by eapply member_weak_object.
    wp_step. wp_step. eapply use_count_ok; [done..|]. rewrite total_on_cons, decide_True by done. wp_step.
    rewrite (proj2 (Z.ltb_lt _ _)) by lia. wp_step. split; [done|]. split; [done|]. split; [done|]. right. split; [done|].
    split; [eapply Inv_strong_live; [done|by left]|by right].
Qed.

(** C22. [get_snapshot] of a weak pointer returns null exactly when the location
    is null or the strong count of its object is zero.  Otherwise the snapshot
    is announced or owns a reference, and its value can be read as long as it
    is kept, even if the strong count drops to zero meanwhile. *)
Theorem aw_get_snapshot_correct rounds Ss Ws E l w s :
  (tid < length (num_allocated s))%nat → may_read (announcements s) tid →
  Inv Ss Ws E s → member_at s l (MAtomicWeak w) →
  (∀ o, heap s !! raw w = Some o → strong_room o) →
  wp (aw_get_snapshot tid (S rounds) l)
     (λ a s', same_values s s' ∧ reads_kept (announcements s) (announcements s') ∧
        ((a = acq_null ∧ Inv Ss Ws E s' ∧
          (is_null w = true ∨ total (on (V := V) (X := X) (raw w) decrement_strong_count) E s = 0%nat)) ∨
         (acq_value a = w ∧ live s' (raw w) ∧
          ((∃ t, acq_token a t ∧ (∀ t', t' ∈ Ss ∨ t' ∈ Ws → apart t t') ∧ Inv Ss (t :: Ws) E s') ∨
           (acq_is_protected a = false ∧ Inv Ss Ws (OStrong (raw w) :: E) s'))))) s.
Proof.
  intros. eapply wp_mono; [by apply (aw_get_snapshot_ok rounds Ss Ws E l w)|]. by intros a s' [_ ?].
Qed.

End aw_ok.
