(* ===== verification/Client.v ===== *)
(** * Client programs

    A client is any number of threads that call the methods of the pointer
    classes, one call at a time in any order.  The smart pointers of the threads
    live in registers; a command is one call with registers as operands.  The
    theorem is that no program goes wrong: whatever the threads do with the
    pointers, no call fails an assertion, dereferences null or freed memory, or
    reads a destroyed value, for every backend that keeps [BackendLaws]. *)

From S2P Require Import Prelude StickyCounter CountedObject MemoryManager Accounting ManagerSafety AtomicLoc Backend Reclamation RcPtr SnapshotPtr AtomicRcPtr AtomicWeakPtr.

(** The smart pointers a register can hold. *)
Inductive reg {V X En : Type} `{!Backend V X En} :=
  | RRc (w : Z)
  | RWeak (w : Z)
  | RSnap (a : acquired)
  | RWSnap (a : acquired).
Arguments reg V X En {_}.

(** A register of a thread. *)
Definition key : Type := nat * nat.

(** A location: an atomic pointer outside the managed objects, or a member of
    the object that a register points to. *)
Inductive place :=
  | PRoot (i : nat)
  | PField (r : nat) (k : nat).

(** The members of a new object, each null or moved from a register. *)
Inductive mkind := KRc | KWeak | KAtomicRc | KAtomicWeak.

Definition kind_of (m : member) : mkind :=
  match m with MRc _ => KRc | MWeak _ => KWeak | MAtomicRc _ => KAtomicRc | MAtomicWeak _ => KAtomicWeak end.

Definition mk_member (k : mkind) (w : Z) : member :=
  match k with KRc => MRc w | KWeak => MWeak w | KAtomicRc => MAtomicRc w | KAtomicWeak => MAtomicWeak w end.

Inductive cmd (V : Type) :=
  | CMake (dst : nat) (d : V) (fields : list (mkind * option nat))
  | CCopy (dst src : nat)
  | CLock (dst src : nat)
  | CWeak (dst src : nat)
  | CDrop (r : nat)
  | CStore (l : place) (src : nat)
  | CLoad (dst : nat) (l : place)
  | CSnapshot (dst : nat) (l : place)
  | CCas (l : place) (expected desired : nat)
  | CRead (r : nat).
Arguments CMake {V} _ _ _.
Arguments CCopy {V} _ _.
Arguments CLock {V} _ _.
Arguments CWeak {V} _ _.
Arguments CDrop {V} _.
Arguments CStore {V} _ _.
Arguments CLoad {V} _ _.
Arguments CSnapshot {V} _ _.
Arguments CCas {V} _ _ _.
Arguments CRead {V} _.

Section client.
  Context {V X En : Type} `{Pol : !Policy} `{Sch : !Scheme V X En} `{Back : !Backend V X En}.
  Context (n : nat).
  Local Abbreviation st := (state V X En).
  Local Abbreviation reg := (reg V X En).
  Local Abbreviation mm := (manager n).

Record client := Client { regs : gmap key reg; shared : st }.

Definition lift {A} (m : M st A) : M client A := λ c,
  match m (shared c) with
  | Ok (a, s) => Ok (a, Client (regs c) s)
  | Err e => Err e
  end.

Definition set_reg (k : key) (r : reg) : M client unit :=
  modify (λ c, Client (<[k:=r]> (regs c)) (shared c)).
Definition del_reg (k : key) : M client unit :=
  modify (λ c, Client (delete k (regs c)) (shared c)).

(** The object a register gives access to. *)
Definition reg_object (r : reg) : Z :=
  match r with
  | RRc w => raw w
  | RWeak _ => 0
  | RSnap a | RWSnap a => raw (acq_value a)
  end.

(** The location of a place, if the register points to an object. *)
Definition resolve (tid : nat) (l : place) (rs : gmap key reg) : option loc :=
  match l with
  | PRoot i => Some (LCell i)
  | PField r k =>
      match rs !! (tid, r) with
      | Some r => if (reg_object r =? 0)%Z then None else Some (LField (reg_object r) k)
      | None => None
      end
  end.

(** The static type of a location: [None] if there is no such member. *)
Definition loc_kind (l : loc) : M st (option mkind) :=
  match l with
  | LCell i => c ← gets cells; mret (kind_of <$> c !! i)
  | LField p k =>
      o ← deref p;
      match storage o with
      | None => fail DestroyedObject
      | Some v => mret (kind_of <$> members v !! k)
      end
  end.

(** Moving the registers into the members of a new value: the members and the
    registers left. *)
Fixpoint take_fields (tid : nat) (fields : list (mkind * option nat)) (rs : gmap key reg) :
    list member * gmap key reg :=
  match fields with
  | [] => ([], rs)
  | (kd, src) :: fields' =>
      let '(w, rs) :=
        match src with
        | None => (0%Z, rs)
        | Some r =>
            match kd, rs !! (tid, r) with
            | KRc, Some (RRc w) | KAtomicRc, Some (RRc w)
            | KWeak, Some (RWeak w) | KAtomicWeak, Some (RWeak w) => (w, delete (tid, r) rs)
            | _, _ => (0%Z, rs)
            end
        end in
      let '(ms, rs) := take_fields tid fields' rs in
      (mk_member kd w :: ms, rs)
  end.

(** The place is a member of the object of register [r]. *)
Definition through (l : place) (r : nat) : bool :=
  match l with PField r' _ => (r' =? r)%nat | PRoot _ => false end.

(** One call by thread [tid].  A command whose operands do not have the types
    the method wants, or whose destination is in use, does nothing.
    [compare_and_swap] is not called on a member of the object of [desired]
    itself, which would make the object own itself. *)
Definition exec (tid : nat) (c : cmd V) : M client unit :=
  rs ← gets regs;
  match c with
  | CMake dst d fields =>
      match rs !! (tid, dst) with
      | Some _ => mret tt
      | None =>
          let '(ms, rs') := take_fields tid fields rs in
          modify (λ c, Client rs' (shared c));;
          p ← lift (make_shared tid (Payload d ms));
          set_reg (tid, dst) (RRc p)
      end
  | CCopy dst src =>
      match rs !! (tid, dst), rs !! (tid, src) with
      | None, Some (RRc w) => p ← lift (rc_copy w); set_reg (tid, dst) (RRc p)
      | None, Some (RWeak w) => p ← lift (weak_copy w); set_reg (tid, dst) (RWeak p)
      | None, Some (RSnap a) => p ← lift (rc_from_snapshot a); set_reg (tid, dst) (RRc p)
      | _, _ => mret tt
      end
  | CLock dst src =>
      match rs !! (tid, dst), rs !! (tid, src) with
      | None, Some (RWeak w) => p ← lift (rc_from_weak w); set_reg (tid, dst) (RRc p)
      | None, Some (RWSnap a) => p ← lift (weak_snap_lock a); set_reg (tid, dst) (RRc p)
      | _, _ => mret tt
      end
  | CWeak dst src =>
      match rs !! (tid, dst), rs !! (tid, src) with
      | None, Some (RRc w) => p ← lift (weak_from_rc w); set_reg (tid, dst) (RWeak p)
      | None, Some (RWSnap a) => p ← lift (weak_from_snapshot a); set_reg (tid, dst) (RWeak p)
      | _, _ => mret tt
      end
  | CDrop r =>
      match rs !! (tid, r) with
      | Some (RRc w) => lift (rc_clear mm tid w);; del_reg (tid, r)
      | Some (RWeak w) => lift (weak_clear tid w);; del_reg (tid, r)
      | Some (RSnap a) => lift (snap_clear mm tid a);; del_reg (tid, r)
      | Some (RWSnap a) => lift (weak_snap_clear mm tid a);; del_reg (tid, r)
      | None => mret tt
      end
  | CStore pl src =>
      match resolve tid pl rs with
      | None => mret tt
      | Some l =>
          kd ← lift (loc_kind l);
          match kd, rs !! (tid, src) with
          | Some KAtomicRc, Some (RRc w) => lift (arc_store mm tid l w);; del_reg (tid, src)
          | Some KAtomicWeak, Some (RWeak w) => lift (aw_store mm tid l w);; del_reg (tid, src)
          | _, _ => mret tt
          end
      end
  | CLoad dst pl =>
      match rs !! (tid, dst), resolve tid pl rs with
      | None, Some l =>
          kd ← lift (loc_kind l);
          match kd with
          | Some KAtomicRc => p ← lift (arc_load tid l); set_reg (tid, dst) (RRc p)
          | Some KAtomicWeak => p ← lift (aw_load tid l); set_reg (tid, dst) (RWeak p)
          | _ => mret tt
          end
      | _, _ => mret tt
      end
  | CSnapshot dst pl =>
      match rs !! (tid, dst), resolve tid pl rs with
      | None, Some l =>
          kd ← lift (loc_kind l);
          match kd with
          | Some KAtomicRc => a ← lift (arc_get_snapshot tid l); set_reg (tid, dst) (RSnap a)
          | Some KAtomicWeak => a ← lift (aw_get_snapshot tid 1 l); set_reg (tid, dst) (RWSnap a)
          | _ => mret tt
          end
      | _, _ => mret tt
      end
  | CCas pl expected desired =>
      match resolve tid pl rs, rs !! (tid, expected), rs !! (tid, desired) with
      | Some l, Some re, Some (RRc w) =>
          kd ← lift (loc_kind l);
          if through pl desired then mret tt else
          match kd, re with
          | Some KAtomicRc, RRc e =>
              _ ← lift (compare_and_swap mm tid l e w false); mret tt
          | Some KAtomicRc, RSnap a =>
              _ ← lift (compare_and_swap mm tid l (snap_get_counted a) w false); mret tt
          | _, _ => mret tt
          end
      | _, _, _ => mret tt
      end
  | CRead r =>
      match rs !! (tid, r) with
      | Some (RRc w) => if is_null w then mret tt else _ ← lift (rc_deref w); mret tt
      | Some (RSnap a) => if is_null (acq_value a) then mret tt else _ ← lift (snap_deref a); mret tt
      | Some (RWSnap a) => if is_null (acq_value a) then mret tt else _ ← lift (weak_snap_deref a); mret tt
      | _ => mret tt
      end
  end.

(** A program: the calls of the threads in the order they happen. *)
Fixpoint run (prog : list (nat * cmd V)) : M client unit :=
  match prog with
  | [] => mret tt
  | (tid, c) :: prog' => exec tid c;; run prog'
  end.

End client.

(** ** The accounts of a client *)

Section client_ok.
  Context {V X En : Type} `{Pol : !Policy} `{Sch : !Scheme V X En} `{Laws : !SchemeLaws V X En}
    `{Back : !Backend V X En} `{BLaws : !BackendLaws V X En}.
  Context (n : nat).
  Local Abbreviation st := (state V X En).
  Local Abbreviation reg := (reg V X En).
  Local Abbreviation mm := (manager n).
  Implicit Types (s : st) (rs : gmap key reg) (r : reg) (toks : gmap key snap).

(** The references a register owns. *)
Definition reg_obls r : list (obl En) :=
  match r with
  | RRc w => member_obls (MRc w)
  | RWeak w => member_obls (MWeak w)
  | RSnap a | RWSnap a => if acq_is_protected a then [] else member_obls (MRc (acq_value a))
  end.

Definition regs_obls rs : list (obl En) := concat ((λ '(_, r), reg_obls r) <$> map_to_list rs).

(** The announcement a register relies on. *)
Definition reg_tok r (ot : option snap) : Prop :=
  match r with
  | RSnap a | RWSnap a =>
      if acq_is_protected a && negb (is_null (acq_value a)) then ∃ t, ot = Some t ∧ acq_token a t
      else ot = None
  | _ => ot = None
  end.

Record ghost_ok rs toks : Prop := {
  gh_tok k r : rs !! k = Some r → reg_tok r (toks !! k);
  gh_none k : rs !! k = None → toks !! k = None;
  gh_apart k k' t t' : k ≠ k' → toks !! k = Some t → toks !! k' = Some t' → apart t t'
}.

Definition strongs rs toks : list snap :=
  omap (λ '(k, r), match r with RSnap _ => toks !! k | _ => None end) (map_to_list rs).
Definition weaks rs toks : list snap :=
  omap (λ '(k, r), match r with RWSnap _ => toks !! k | _ => None end) (map_to_list rs).

(** [B] bounds the potential. *)
Record client_ok (B : nat) rs toks s : Prop := {
  co_ghost : ghost_ok rs toks;
  co_inv : Inv (strongs rs toks) (weaks rs toks) (regs_obls rs) s;
  co_reads tid : tid < length (num_allocated s) → may_read (announcements s) tid;
  co_potential : potential (regs_obls rs) s ≤ B
}.

Lemma elem_strongs rs toks t :
  t ∈ strongs rs toks ↔ ∃ k a, rs !! k = Some (RSnap a) ∧ toks !! k = Some t.
Proof.
  unfold strongs. rewrite list_elem_of_omap. split.
  - intros ([k r] & Hin%elem_of_map_to_list & Ht). destruct r; try done. eauto.
  - intros (k & a & Hk & Ht). exists (k, RSnap a). by rewrite elem_of_map_to_list.
Qed.

Lemma elem_weaks rs toks t :
  t ∈ weaks rs toks ↔ ∃ k a, rs !! k = Some (RWSnap a) ∧ toks !! k = Some t.
Proof.
  unfold weaks. rewrite list_elem_of_omap. split.
  - intros ([k r] & Hin%elem_of_map_to_list & Ht). destruct r; try done. eauto.
  - intros (k & a & Hk & Ht). exists (k, RWSnap a). by rewrite elem_of_map_to_list.
Qed.

Lemma regs_obls_insert rs k r :
  rs !! k = None → regs_obls (<[k:=r]> rs) ≡ₚ reg_obls r ++ regs_obls rs.
Proof.
  intros Hk. unfold regs_obls. rewrite map_to_list_insert by done. done.
Qed.

Lemma regs_obls_delete rs k r :
  rs !! k = Some r → regs_obls rs ≡ₚ reg_obls r ++ regs_obls (delete k rs).
Proof.
  intros Hk. rewrite <-(insert_delete_id rs k r Hk) at 1. apply regs_obls_insert, lookup_delete_eq.
Qed.

(** ** Adding and removing registers *)

Lemma ghost_add rs toks k r ot :
  ghost_ok rs toks → rs !! k = None → reg_tok r ot →
  (∀ t k' t', ot = Some t → toks !! k' = Some t' → apart t t') →
  ghost_ok (<[k:=r]> rs) (partial_alter (λ _, ot) k toks).
Proof.
  intros [H1 H2 H3] Hk Hr Hap. split.
  - intros k' r'. destruct (decide (k = k')) as [<-|Hne].
    + rewrite lookup_insert_eq, lookup_partial_alter_eq. by intros [= <-].
    + rewrite lookup_insert_ne, lookup_partial_alter_ne by done. apply H1.
  - intros k'. destruct (decide (k = k')) as [<-|Hne]; [by rewrite lookup_insert_eq|].
    rewrite lookup_insert_ne, lookup_partial_alter_ne by done. apply H2.
  - intros k1 k2 t1 t2 Hne. destruct (decide (k = k1)) as [<-|H1'], (decide (k = k2)) as [<-|H2']; [done|..].
    + rewrite lookup_partial_alter_eq, lookup_partial_alter_ne by done. apply Hap.
    + rewrite lookup_partial_alter_eq, lookup_partial_alter_ne by done. intros ??.
      apply apart_sym. by eapply Hap.
    + rewrite !lookup_partial_alter_ne by done. by apply H3.
Qed.

Lemma ghost_remove rs toks k : ghost_ok rs toks → ghost_ok (delete k rs) (delete k toks).
Proof.
  intros [H1 H2 H3]. split.
  - intros k' r'. rewrite lookup_delete_Some. intros [Hne Hk']. rewrite lookup_delete_ne by done. by apply H1.
  - intros k'. rewrite !lookup_delete_None. intros [->|Hk]; [by left|right; by apply H2].
  - intros k1 k2 t1 t2 Hne [_ Ht1]%lookup_delete_Some [_ Ht2]%lookup_delete_Some. by eapply H3.
Qed.

Local Abbreviation reads s := (∀ tid, tid < length (num_allocated s) → may_read (announcements s) tid).

Lemma reads_step s s' :
  reads s → length (num_allocated s') = length (num_allocated s) →
  still_read (announcements s) (announcements s') → reads s'.
Proof. intros Hr Hl Hk tid Ht. apply Hk, Hr. lia. Qed.

Lemma reads_kept_safe Ss Ws E s s' : kept_safe Ss Ws E s s' → reads s → reads s'.
Proof.
  intros [_ Hst _ _] Hr. apply (reads_step s); [done|apply (stable_threads _ _ Hst)|].
  by rewrite (stable_ann _ _ Hst).
Qed.

(** A new register without an announcement. *)
Lemma add_plain B' rs toks s' k r :
  ghost_ok rs toks → rs !! k = None → reg_tok r None →
  Inv (strongs rs toks) (weaks rs toks) (reg_obls r ++ regs_obls rs) s' → reads s' →
  potential (reg_obls r ++ regs_obls rs) s' ≤ B' →
  client_ok B' (<[k:=r]> rs) toks s'.
Proof.
  intros Hg Hk Hr Hinv Hreads Hpot. pose proof (gh_none _ _ Hg k Hk) as Hnone.
  split; [|..|done|].
  - pose proof (ghost_add rs toks k r None Hg Hk Hr) as H. change (partial_alter _ k toks) with (delete k toks) in H.
    rewrite delete_id in H by done. by apply H.
  - eapply Inv_perm; [symmetry; by apply regs_obls_insert|].
    eapply Inv_snaps_incl; [..|exact Hinv]; intros t.
    + rewrite !elem_strongs. intros (k' & a & Hk' & Ht). exists k', a. split; [|done].
      rewrite lookup_insert_ne in Hk'; [done|congruence].
    + rewrite !elem_weaks. intros (k' & a & Hk' & Ht). exists k', a. split; [|done].
      rewrite lookup_insert_ne in Hk'; [done|congruence].
  - by rewrite (potential_perm _ _ _ (regs_obls_insert rs k r Hk)).
Qed.

(** A snapshot register, of either kind. *)
Definition snap_reg (strong : bool) (a : acquired) : reg := if strong then RSnap a else RWSnap a.

(** A new snapshot with its announcement. *)
Lemma add_token B B' rs toks s s' k (strong : bool) a t :
  client_ok B rs toks s → rs !! k = None →
  acq_token a t → is_null (acq_value a) = false →
  (∀ t', t' ∈ strongs rs toks ∨ t' ∈ weaks rs toks → apart t t') →
  (if strong then Inv (t :: strongs rs toks) (weaks rs toks) (regs_obls rs) s'
   else Inv (strongs rs toks) (t :: weaks rs toks) (regs_obls rs) s') → reads s' →
  potential (regs_obls rs) s' ≤ B' →
  client_ok B' (<[k:=snap_reg strong a]> rs) (<[k:=t]> toks) s'.
Proof.
  intros [Hg _ _ _] Hk Ht Hnn Hap Hinv Hreads Hpot. destruct (acq_token_ok a t Ht) as [_ Hpr].
  assert (reg_obls (snap_reg strong a) = []) as Hno by (destruct strong; simpl; by rewrite Hpr).
  assert (regs_obls (<[k:=snap_reg strong a]> rs) ≡ₚ regs_obls rs) as Hperm
    by (by rewrite regs_obls_insert, Hno).
  assert (∀ k' t', toks !! k' = Some t' → ∃ r', rs !! k' = Some r') as Hdom.
  { intros k' t' Hk'. destruct (rs !! k') as [r'|] eqn:Hr; [eauto|]. rewrite (gh_none _ _ Hg k' Hr) in Hk'. done. }
  split; [|..|done|].
  - apply (ghost_add rs toks k (snap_reg strong a) (Some t) Hg Hk).
    + destruct strong; simpl; rewrite Hpr, Hnn; simpl; eauto.
    + intros t0 k' t' [= <-] Ht'. apply Hap. destruct (Hdom k' t' Ht') as [r' Hr'].
      pose proof (gh_tok _ _ Hg k' r' Hr') as Htok. rewrite Ht' in Htok.
      destruct r' as [?|?|a'|a']; try done; [left; apply elem_strongs|right; apply elem_weaks]; eauto.
  - eapply Inv_perm; [symmetry; exact Hperm|]. destruct strong; (eapply Inv_snaps_incl; [..|exact Hinv]);
      intros t'; rewrite ?elem_of_cons, ?elem_strongs, ?elem_weaks; intros (k' & a' & Hk' & Ht');
      apply lookup_insert_Some in Hk' as [[<- Hk']|[Hne Hk']]; simplify_eq/=;
      try (rewrite lookup_insert_eq in Ht'; simplify_eq; by auto);
      rewrite lookup_insert_ne in Ht' by done; eauto.
  - by rewrite (potential_perm _ _ _ Hperm).
Qed.

(** Dropping a register without an announcement. *)
Lemma remove_plain B B' rs toks s s' k r :
  client_ok B rs toks s → rs !! k = Some r → toks !! k = None →
  Inv (strongs rs toks) (weaks rs toks) (regs_obls (delete k rs)) s' → reads s' →
  potential (regs_obls (delete k rs)) s' ≤ B' →
  client_ok B' (delete k rs) toks s'.
Proof.
  intros [Hg _ _ _] Hk Hnone Hinv Hreads Hpot. split; [|..|done|done].
  - pose proof (ghost_remove rs toks k Hg) as H. by rewrite (delete_id toks k Hnone) in H.
  - eapply Inv_snaps_incl; [..|exact Hinv]; intros t.
    + rewrite !elem_strongs. intros (k' & a & [_ Hk']%lookup_delete_Some & Ht). eauto.
    + rewrite !elem_weaks. intros (k' & a & [_ Hk']%lookup_delete_Some & Ht). eauto.
Qed.

(** Taking the announcement of a register out. *)
Lemma token_out B rs toks s k (strong : bool) a t :
  client_ok B rs toks s → rs !! k = Some (snap_reg strong a) → toks !! k = Some t →
  let Ss := strongs (delete k rs) (delete k toks) in
  let Ws := weaks (delete k rs) (delete k toks) in
  (if strong then Inv (t :: Ss) Ws (regs_obls rs) s else Inv Ss (t :: Ws) (regs_obls rs) s) ∧
  (∀ t', t' ∈ Ss ∨ t' ∈ Ws → apart t t').
Proof.
  intros [Hg Hinv _ _] Hk Ht Ss Ws. unfold Ss, Ws. split.
  - destruct strong; (eapply Inv_snaps_incl; [..|exact Hinv]); intros t';
      rewrite ?elem_of_cons, ?elem_strongs, ?elem_weaks;
      try (intros [->|(k' & a' & [_ Hk']%lookup_delete_Some & [_ Ht']%lookup_delete_Some)]; by eauto);
      intros (k' & a' & [_ Hk']%lookup_delete_Some & [_ Ht']%lookup_delete_Some); eauto.
  - intros t' [Ht'|Ht'].
    + apply elem_strongs in Ht' as (k' & a' & [Hne _]%lookup_delete_Some & [_ Ht'']%lookup_delete_Some).
      by eapply (gh_apart _ _ Hg k k').
    + apply elem_weaks in Ht' as (k' & a' & [Hne _]%lookup_delete_Some & [_ Ht'']%lookup_delete_Some).
      by eapply (gh_apart _ _ Hg k k').
Qed.

(** ** One call *)

Definition client_inv (N B : nat) (c : client) : Prop :=
  ∃ toks, client_ok B (regs c) toks (shared c) ∧ length (num_allocated (shared c)) = N.

(** No counter is about to overflow: an object whose strong count is zero has
    seen fewer failed increments than the counter can hold. *)
Definition roomy s : Prop := ∀ p o, heap s !! p = Some o → strong_room o.

Lemma wp_lift {A} (m : M st A) (Q : A → client → Prop) c :
  wp m (λ a s', Q a (Client (regs c) s')) (shared c) → wp (lift m) Q c.
Proof. unfold wp, lift. destruct (m (shared c)) as [[a s']|e]; done. Qed.

Lemma total_elem (g : obl En → bool) E s a : a ∈ E → g a = true → 0 < total g E s.
Proof.
  intros Ha Hg. unfold total. assert (0 < countb g E); [|lia]. apply countb_pos. eauto.
Qed.

Lemma regs_obls_elem rs k r a : rs !! k = Some r → a ∈ reg_obls r → a ∈ regs_obls rs.
Proof.
  intros Hk Ha. rewrite (regs_obls_delete rs k r Hk). apply elem_of_app. by left.
Qed.

Lemma rc_strong_obl w : is_null w = false → OStrong (raw w) ∈ member_obls (En := En) (MRc w).
Proof. intros Hw. rewrite rc_obls, Hw. by left. Qed.

Lemma weak_obl w : is_null w = false → OWeak (raw w) ∈ member_obls (En := En) (MWeak w).
Proof. intros Hw. rewrite weak_obls, Hw. by left. Qed.

Lemma member_obls_potential m E s :
  potential (member_obls m ++ E) s ≤ 2 + potential E s.
Proof.
  rewrite potential_app. unfold member_obls. destruct (_ =? _)%Z; simpl; [lia|].
  destruct m; simpl; lia.
Qed.

Lemma reg_obls_potential r E s : potential (reg_obls r ++ E) s ≤ 2 + potential E s.
Proof.
  destruct r; simpl; try apply member_obls_potential.
  - destruct (acq_is_protected a); simpl; [lia|apply member_obls_potential].
  - destruct (acq_is_protected a); simpl; [lia|apply member_obls_potential].
Qed.

(** What a register points to is protected. *)
Lemma reg_protects B rs toks s k r :
  client_ok B rs toks s → rs !! k = Some r → reg_object r ≠ 0%Z →
  (∃ t, (t ∈ strongs rs toks ∨ t ∈ weaks rs toks) ∧ snap_ptr t = reg_object r) ∨
  OStrong (reg_object r) ∈ reg_obls r.
Proof.
  intros [Hg _ _ _] Hk Hnz. pose proof (gh_tok _ _ Hg k r Hk) as Htok.
  destruct r as [w|w|a|a]; simpl in *; [..|]; try done.
  - right. by apply rc_strong_obl, Z.eqb_neq.
  - assert (is_null (acq_value a) = false) as Hw by by apply Z.eqb_neq. rewrite Hw in Htok.
    destruct (acq_is_protected a); simpl in *; [left|right; by apply rc_strong_obl].
    destruct Htok as (t & Ht & Hat). exists t. split; [left; apply elem_strongs; eauto|].
    by destruct (acq_token_ok a t Hat).
  - assert (is_null (acq_value a) = false) as Hw by by apply Z.eqb_neq. rewrite Hw in Htok.
    destruct (acq_is_protected a); simpl in *; [left|right; by apply rc_strong_obl].
    destruct Htok as (t & Ht & Hat). exists t. split; [right; apply elem_weaks; eauto|].
    by destruct (acq_token_ok a t Hat).
Qed.

Lemma reg_live B rs toks s k r :
  client_ok B rs toks s → rs !! k = Some r → reg_object r ≠ 0%Z → live s (reg_object r).
Proof.
  intros Hok Hk Hnz. pose proof (co_inv _ _ _ _ Hok) as Hinv.
  destruct (reg_protects _ _ _ _ _ _ Hok Hk Hnz) as [(t & Ht & <-)|Hin].
  - by eapply snapshot_live.
  - eapply Inv_strong_live; [done|]. by eapply regs_obls_elem.
Qed.

(** ** Places *)

Lemma resolve_live B rs toks s tid pl l :
  client_ok B rs toks s → resolve tid pl rs = Some l →
  match l with LCell _ => True | LField p _ => p ≠ 0%Z ∧ live s p end.
Proof.
  intros Hok. destruct pl as [i|r k]; simpl; [by intros [= <-]|].
  destruct (rs !! (tid, r)) as [rg|] eqn:Hr; [|done].
  destruct (Z.eqb_spec (reg_object rg) 0); [done|]. intros [= <-]. split; [done|]. by eapply reg_live.
Qed.

Lemma loc_kind_ok l s :
  match l with LCell _ => True | LField p _ => p ≠ 0%Z ∧ live s p end →
  wp (loc_kind l)
     (λ kd s', s' = s ∧ ∀ k, kd = Some k → ∃ m, member_at s l m ∧ kind_of m = k) s.
Proof.
  destruct l as [i|p k]; simpl.
  - intros _. wp_steps. split; [done|]. intros kd Hkd. destruct (cells s !! i) as [m|] eqn:Hm; simplify_eq/=. eauto.
  - intros [Hp (o & v & Ho & Hv)]. wp_step. eapply wp_deref; [done..|]. rewrite Hv. wp_step.
    split; [done|]. intros kd Hkd. destruct (members v !! k) as [m|] eqn:Hm; simplify_eq/=. eauto 10.
Qed.

Lemma kind_arc m : kind_of m = KAtomicRc → ∃ w, m = MAtomicRc w.
Proof. destruct m; try done. eauto. Qed.

Lemma kind_aw m : kind_of m = KAtomicWeak → ∃ w, m = MAtomicWeak w.
Proof. destruct m; try done. eauto. Qed.

(** ** Calls that make a register *)

Lemma finish_add N B rs toks s s' k r :
  client_ok B rs toks s → length (num_allocated s) = N → rs !! k = None → reg_tok r None →
  Inv (strongs rs toks) (weaks rs toks) (reg_obls r ++ regs_obls rs) s' → same_values s s' →
  reads_kept (announcements s) (announcements s') →
  potential (regs_obls rs) s' = potential (regs_obls rs) s →
  client_inv N (B + 4) (Client (<[k:=r]> rs) s').
Proof.
  intros Hok HN Hk Hr Hinv Hsv Hrk Hpot. exists toks. simpl. split; [|by rewrite (sv_threads _ _ Hsv)].
  eapply add_plain; [apply Hok|done..| |].
  - eapply reads_step; [apply Hok|apply (sv_threads _ _ Hsv)|apply Hrk].
  - pose proof (reg_obls_potential r (regs_obls rs) s'). pose proof (co_potential _ _ _ _ Hok). lia.
Qed.

Lemma client_inv_mono N B B' c : B ≤ B' → client_inv N B c → client_inv N B' c.
Proof. intros HB (toks & [? ? ? ?] & ?). exists toks. split; [|done]. split; [done..|lia]. Qed.

Section one_call.
Context (N B : nat) (tid : nat) (rs : gmap key reg) (toks : gmap key snap) (s : st).
Context (Hok : client_ok B rs toks s) (HN : length (num_allocated s) = N) (Htid : tid < N).
Context (Hn : B + 8 ≤ n) (Hfits : fits n) (Hroomy : roomy s).
Local Abbreviation E := (regs_obls rs).
Local Abbreviation Ss := (strongs rs toks).
Local Abbreviation Ws := (weaks rs toks).
Local Abbreviation done_with c := (client_inv N (B + 4) c).

Lemma fits_now : fits (potential E s).
Proof. pose proof (co_potential _ _ _ _ Hok). unfold fits in *. lia. Qed.

Lemma tid_now : tid < length (num_allocated s).
Proof. lia. Qed.

Lemma read_now : may_read (announcements s) tid.
Proof. apply (co_reads _ _ _ _ Hok). lia. Qed.

(** Nothing done. *)
Lemma done_same : done_with (Client rs s).
Proof. eapply (client_inv_mono _ B); [lia|]. by exists toks. Qed.

(** Copying a pointer whose object is referenced. *)
Lemma copy_ok dst w :
  rs !! (tid, dst) = None →
  (is_null w = false → 0 < total (on (raw w) decrement_strong_count) E s) →
  wp (if is_null w then mret w else increment_ref_cnt (raw w);; mret w)
     (λ p s', done_with (Client (<[(tid, dst):=RRc p]> rs) s')) s.
Proof.
  intros Hd Hh. eapply wp_mono; [apply (addref_ok w Ss Ws E w); [apply Hok|done|apply fits_now]|].
  intros p s' (-> & Hinv & Hsv & Ha & Hpot). by eapply finish_add; [..|apply reads_kept_eq|].
Qed.

Lemma weak_ref_ok dst w :
  rs !! (tid, dst) = None → (is_null w = false → is_Some (heap s !! raw w)) →
  wp (weak_make w addref_yes) (λ p s', done_with (Client (<[(tid, dst):=RWeak p]> rs) s')) s.
Proof.
  intros Hd Hh. eapply wp_mono; [apply (weak_addref_ok Ss Ws E w); [apply Hok|done|apply fits_now]|].
  intros p s' (-> & Hinv & Hsv & Ha & Hpot). by eapply finish_add; [..|apply reads_kept_eq|].
Qed.

(** The two bodies of weak copies are the same. *)
Lemma weak_copy_make w s0 (Q : Z → st → Prop) :
  (is_null w = false → is_Some (heap s0 !! raw w)) →
  wp (weak_make w addref_yes) Q s0 →
  (∀ b s', is_null w = false → increment_weak_cnt (raw w) s0 = Ok (b, s') → b = true) →
  wp (weak_copy w) Q s0.
Proof.
  intros _ HQ Hb. unfold weak_copy, weak_make in *. destruct (is_null w) eqn:Hw; [done|].
  unfold wp, mbind, M_bind in *. destruct (increment_weak_cnt (raw w) s0) as [[b s']|e] eqn:Hi; [|done].
  by rewrite (Hb b s' eq_refl eq_refl) in HQ.
Qed.

Lemma weak_count_true w b s' :
  is_Some (heap s !! raw w) → increment_weak_cnt (raw w) s = Ok (b, s') → b = true.
Proof.
  intros [o Ho] Hi. pose proof (co_inv _ _ _ _ Hok) as Hinv.
  pose proof (increment_weak_ok Ss Ws E (raw w) o s Hinv Ho) as H. unfold wp in H. rewrite Hi in H.
  apply H. eapply weak_room_fits; [done..|apply fits_now].
Qed.

(** [lock], from a weak pointer or a weak snapshot. *)
Lemma lock_ok dst w :
  rs !! (tid, dst) = None → (is_null w = false → is_Some (heap s !! raw w)) →
  wp (weak_lock w) (λ p s', done_with (Client (<[(tid, dst):=RRc p]> rs) s')) s.
Proof.
  intros Hd Hh. eapply wp_mono; [apply (weak_lock_ok Ss Ws E w); [apply Hok|]|].
  - intros Hw. destruct (Hh Hw) as [o Ho]. eauto.
  - intros p s' (_ & Hinv & Hsv & Ha & Hpot). by eapply finish_add; [..|apply reads_kept_eq|].
Qed.

(** The objects of weak pointers and snapshots are in memory. *)
Lemma weak_reg_object k w :
  rs !! k = Some (RWeak w) → is_null w = false → is_Some (heap s !! raw w).
Proof.
  intros Hk Hw. apply (Inv_on_heap _ _ _ _ _ decrement_weak_count (co_inv _ _ _ _ Hok)).
  eapply total_elem; [eapply regs_obls_elem; [exact Hk|by apply weak_obl]|].
  by apply bool_decide_eq_true_2.
Qed.

Lemma live_object k r : rs !! k = Some r → reg_object r ≠ 0%Z → is_Some (heap s !! reg_object r).
Proof.
  intros Hk Hnz. destruct (reg_live _ _ _ _ _ _ Hok Hk Hnz) as (o & v & Ho & _). eauto.
Qed.

Lemma exec_copy dst src : wp (exec n tid (CCopy dst src)) (λ _ c, done_with c) (Client rs s).
Proof.
  unfold exec. wp_step. wp_step. simpl regs. destruct (rs !! (tid, dst)) eqn:Hd; [by wp_step; apply done_same|].
  destruct (rs !! (tid, src)) as [[w|w|a|a]|] eqn:Hs; try (wp_step; apply done_same).
  - wp_step. apply wp_lift. eapply wp_mono; [apply (copy_ok dst w); [done|]|].
    + intros Hw. eapply total_elem; [eapply regs_obls_elem; [exact Hs|by apply rc_strong_obl]|].
      by apply bool_decide_eq_true_2.
    + intros p s' H. unfold set_reg. by wp_step.
  - wp_step. apply wp_lift. assert (is_null w = false → is_Some (heap s !! raw w)) as Ho
      by (intros; by eapply weak_reg_object).
    eapply wp_mono; [apply weak_copy_make; [exact Ho|by apply (weak_ref_ok dst w)|]|].
    + intros b s' Hw. by apply weak_count_true, Ho.
    + intros p s' H. unfold set_reg. by wp_step.
  - wp_step. apply wp_lift. eapply wp_mono; [apply (copy_ok dst (acq_value a)); [done|]|].
    + intros Hw. pose proof (gh_tok _ _ (co_ghost _ _ _ _ Hok) _ _ Hs) as Htok. simpl in Htok.
      rewrite Hw in Htok. destruct (acq_is_protected a) eqn:Hp; simpl in Htok.
      * destruct Htok as (t & Ht & Hat). destruct (acq_token_ok a t Hat) as [-> _].
        eapply (pins_positive (announcements s)), (snaps_strong _ _ _ _ (inv_snaps _ _ _ _ (co_inv _ _ _ _ Hok))).
        apply elem_strongs. eauto.
      * apply (total_elem _ _ _ (OStrong (raw (acq_value a)))); [|by apply bool_decide_eq_true_2].
        eapply regs_obls_elem; [exact Hs|]. simpl. rewrite Hp. by apply rc_strong_obl.
    + intros p s' H. unfold set_reg. by wp_step.
Qed.

Lemma exec_lock dst src : wp (exec n tid (CLock dst src)) (λ _ c, done_with c) (Client rs s).
Proof.
  unfold exec. wp_step. wp_step. simpl regs. destruct (rs !! (tid, dst)) eqn:Hd; [by wp_step; apply done_same|].
  destruct (rs !! (tid, src)) as [[w|w|a|a]|] eqn:Hs; try (wp_step; apply done_same).
  - wp_step. apply wp_lift. unfold rc_from_weak. wp_step.
    eapply wp_mono; [apply (lock_ok dst w); [done|by intros; eapply weak_reg_object]|].
    intros p s' H. wp_step. unfold set_reg. by wp_step.
  - wp_step. apply wp_lift. eapply wp_mono; [apply (lock_ok dst (acq_value a)); [done|]|].
    + intros Hw. apply (live_object _ _ Hs). by apply Z.eqb_neq.
    + intros p s' H. unfold set_reg. by wp_step.
Qed.

Lemma exec_weak dst src : wp (exec n tid (CWeak dst src)) (λ _ c, done_with c) (Client rs s).
Proof.
  unfold exec. wp_step. wp_step. simpl regs. destruct (rs !! (tid, dst)) eqn:Hd; [by wp_step; apply done_same|].
  destruct (rs !! (tid, src)) as [[w|w|a|a]|] eqn:Hs; try (wp_step; apply done_same).
  - wp_step. apply wp_lift. assert (is_null w = false → is_Some (heap s !! raw w)) as Ho
      by (intros Hw; apply (live_object _ _ Hs); by apply Z.eqb_neq).
    eapply wp_mono; [apply weak_copy_make; [exact Ho|by apply (weak_ref_ok dst w)|]|].
    + intros b s' Hw. by apply weak_count_true, Ho.
    + intros p s' H. unfold set_reg. by wp_step.
  - wp_step. apply wp_lift. eapply wp_mono; [apply (weak_ref_ok dst (acq_value a)); [done|]|].
    + intros Hw. apply (live_object _ _ Hs). by apply Z.eqb_neq.
    + intros p s' H. unfold set_reg. by wp_step.
Qed.

(** Dropping a register whose reference, if any, is given up. *)
Lemma finish_drop k r s' :
  rs !! k = Some r → toks !! k = None →
  kept_safe Ss Ws (regs_obls (delete k rs)) s s' →
  potential (regs_obls (delete k rs)) s' ≤ B + 4 →
  done_with (Client (delete k rs) s').
Proof.
  intros Hk Ht Hks Hpot. exists toks. simpl. split.
  - eapply (remove_plain B); [done|done|done|apply Hks| |done].
    eapply reads_kept_safe; [done|apply Hok].
  - by rewrite (stable_threads _ _ (ks_stable _ _ _ _ _ Hks)).
Qed.

(** The obligations without those of one register. *)
Lemma split_reg k r :
  rs !! k = Some r →
  Inv Ss Ws (reg_obls r ++ regs_obls (delete k rs)) s ∧
  potential (reg_obls r ++ regs_obls (delete k rs)) s ≤ B ∧
  potential (regs_obls (delete k rs)) s ≤ B.
Proof.
  intros Hk. destruct Hok as [_ Hinv _ Hpot]. pose proof (regs_obls_delete rs k r Hk) as Hp.
  split; [by eapply Inv_perm|]. rewrite <-(potential_perm _ _ _ Hp). split; [done|].
  rewrite (potential_perm _ _ _ Hp), potential_app in Hpot. lia.
Qed.

Lemma drop_token k (strong : bool) a t :
  rs !! k = Some (snap_reg strong a) → toks !! k = Some t → acq_token a t →
  wp (snap_clear mm tid a) (λ _ s', done_with (Client (delete k rs) s')) s.
Proof.
  intros Hk Ht Hat. destruct (token_out _ _ _ _ _ _ _ _ Hok Hk Ht) as [Hinv Hap].
  destruct (split_reg _ _ Hk) as (_ & _ & Hpot). destruct (acq_token_ok a t Hat) as [_ Hpr].
  assert (regs_obls rs ≡ₚ regs_obls (delete k rs)) as Hperm.
  { rewrite (regs_obls_delete rs k _ Hk) at 1. destruct strong; simpl; by rewrite Hpr. }
  assert (∀ s', Inv (strongs (delete k rs) (delete k toks)) (weaks (delete k rs) (delete k toks)) E s' →
    same_values s s' → potential E s' = potential E s →
    reads_kept (announcements s) (announcements s') → done_with (Client (delete k rs) s')) as Hfin.
  { intros s' Hinv' Hsv Hpot' Hrk. exists (delete k toks). simpl. split; [|by rewrite (sv_threads _ _ Hsv)]. split.
    - apply ghost_remove, Hok.
    - by eapply Inv_perm.
    - eapply reads_step; [apply Hok|apply (sv_threads _ _ Hsv)|apply Hrk].
    - rewrite !(potential_perm _ _ _ Hperm) in Hpot'. lia. }
  destruct strong.
  - eapply wp_mono; [by eapply snap_clear_token_ok|]. intros b s' (_ & ? & ? & ? & ?). by apply Hfin.
  - eapply wp_mono; [by eapply weak_snap_clear_token_ok|]. intros b s' (_ & ? & ? & ? & ?). by apply Hfin.
Qed.

(** The destructor of a snapshot of either kind. *)
Lemma drop_snap k (strong : bool) a :
  rs !! k = Some (snap_reg strong a) →
  wp (snap_clear mm tid a) (λ _ s', done_with (Client (delete k rs) s')) s.
Proof.
  intros Hk. pose proof (gh_tok _ _ (co_ghost _ _ _ _ Hok) _ _ Hk) as Htok.
  destruct (split_reg _ _ Hk) as (Hinv & Hpot & Hpot').
  destruct (acq_is_protected a && negb (is_null (acq_value a))) eqn:Hp.
  - assert (∃ t, toks !! k = Some t ∧ acq_token a t) as (t & Ht & Hat)
      by (destruct strong; simpl in Htok; by rewrite Hp in Htok).
    by eapply drop_token.
  - assert (toks !! k = None) as Hnone by (destruct strong; simpl in Htok; by rewrite Hp in Htok).
    assert (reg_obls (snap_reg strong a) = member_obls (MRc (acq_value a))) as Ho.
    { destruct strong; simpl; rewrite rc_obls; by destruct (acq_is_protected a), (is_null (acq_value a)). }
    rewrite Ho in *. eapply wp_mono; [eapply (snap_clear_counted_ok n tid Ss Ws); [apply tid_now| |exact Hinv|lia]|].
    + destruct (acq_is_protected a); [right; by destruct (is_null (acq_value a))|by left].
    + intros b s' (_ & Hks & Hp'). eapply finish_drop; [done..|lia].
Qed.

Lemma exec_drop (r : nat) : wp (exec n tid (CDrop r)) (λ _ c, done_with c) (Client rs s).
Proof.
  unfold exec. wp_step. wp_step. simpl regs.
  destruct (rs !! (tid, r)) as [[w|w|a|a]|] eqn:Hr; try (wp_step; apply done_same).
  - destruct (split_reg _ _ Hr) as (Hinv & Hpot & Hpot').
    pose proof (gh_tok _ _ (co_ghost _ _ _ _ Hok) _ _ Hr) as Htok. simpl in Htok.
    wp_step. apply wp_lift. unfold rc_clear. wp_step.
    eapply wp_mono; [eapply (drop_ref_ok n tid Ss Ws); [apply tid_now|exact Hinv|etrans; [exact Hpot|lia]]|].
    intros _ s' [Hks Hp']. wp_step. unfold del_reg. wp_step.
    eapply finish_drop; [done..|]. etrans; [exact Hp'|]. etrans; [exact Hpot'|lia].
  - destruct (split_reg _ _ Hr) as (Hinv & Hpot & Hpot').
    pose proof (gh_tok _ _ (co_ghost _ _ _ _ Hok) _ _ Hr) as Htok. simpl in Htok.
    wp_step. apply wp_lift. unfold weak_clear. wp_step.
    eapply wp_mono; [eapply (drop_weak_ok tid Ss Ws); [apply tid_now|exact Hinv]|].
    intros _ s' [Hks Hp']. wp_step. unfold del_reg. wp_step.
    eapply finish_drop; [done..|]. etrans; [exact Hp'|]. etrans; [exact Hpot'|lia].
  - wp_step. apply wp_lift. eapply wp_mono; [by apply (drop_snap (tid, r) true)|]. intros b s' H.
    unfold del_reg. by wp_step.
  - wp_step. apply wp_lift. eapply wp_mono; [by apply (drop_snap (tid, r) false)|]. intros b s' H.
    unfold del_reg. by wp_step.
Qed.

Lemma exec_store pl src : wp (exec n tid (CStore pl src)) (λ _ c, done_with c) (Client rs s).
Proof.
  unfold exec. wp_step. wp_step. simpl regs.
  destruct (resolve tid pl rs) as [l|] eqn:Hl; [|wp_step; apply done_same].
  wp_step. apply wp_lift. eapply wp_mono; [eapply loc_kind_ok; by eapply resolve_live|].
  intros kd s' [-> Hkd].
  destruct kd as [[]|]; try (wp_step; apply done_same);
    destruct (rs !! (tid, src)) as [[w|w|a|a]|] eqn:Hr; try (wp_step; apply done_same).
  - destruct (Hkd _ eq_refl) as (m & Hm & [w0 ->]%kind_arc).
    destruct (split_reg _ _ Hr) as (Hinv & Hpot & Hpot').
    pose proof (gh_tok _ _ (co_ghost _ _ _ _ Hok) _ _ Hr) as Htok. simpl in Htok.
    wp_step. apply wp_lift. simpl shared.
    eapply wp_mono; [eapply (arc_replace_ok n tid Ss Ws _ l w w0); [apply tid_now|exact Hinv|done|]|].
    { apply le_n_S in Hpot. etrans; [exact Hpot|lia]. }
    intros _ s' [Hks Hp']. unfold del_reg. wp_step. exists toks. simpl.
    destruct (put_member_rest s l (MAtomicRc w)) as (Ha & Hna & _).
    pose proof (ks_stable _ _ _ _ _ Hks) as Hst. split.
    + eapply (remove_plain B); [done|exact Hr|done|apply Hks| |].
      * apply (reads_step s); [apply Hok|by rewrite (stable_threads _ _ Hst), Hna|].
        by rewrite (stable_ann _ _ Hst), Ha.
      * etrans; [exact Hp'|]. apply le_n_S in Hpot. etrans; [exact Hpot|lia].
    + by rewrite (stable_threads _ _ Hst), Hna.
  - destruct (Hkd _ eq_refl) as (m & Hm & [w0 ->]%kind_aw).
    destruct (split_reg _ _ Hr) as (Hinv & Hpot & Hpot').
    pose proof (gh_tok _ _ (co_ghost _ _ _ _ Hok) _ _ Hr) as Htok. simpl in Htok.
    wp_step. apply wp_lift. simpl shared.
    eapply wp_mono; [eapply (aw_replace_ok n tid Ss Ws _ l w w0); [apply tid_now|exact Hinv|done|]|].
    { apply le_n_S in Hpot. etrans; [exact Hpot|lia]. }
    intros _ s' [Hks Hp']. unfold del_reg. wp_step. exists toks. simpl.
    destruct (put_member_rest s l (MAtomicWeak w)) as (Ha & Hna & _).
    pose proof (ks_stable _ _ _ _ _ Hks) as Hst. split.
    + eapply (remove_plain B); [done|exact Hr|done|apply Hks| |].
      * apply (reads_step s); [apply Hok|by rewrite (stable_threads _ _ Hst), Hna|].
        by rewrite (stable_ann _ _ Hst), Ha.
      * etrans; [exact Hp'|]. apply le_n_S in Hpot. etrans; [exact Hpot|lia].
    + by rewrite (stable_threads _ _ Hst), Hna.
Qed.

Lemma exec_load dst pl : wp (exec n tid (CLoad dst pl)) (λ _ c, done_with c) (Client rs s).
Proof.
  unfold exec. wp_step. wp_step. simpl regs.
  destruct (rs !! (tid, dst)) eqn:Hd; [by wp_step; apply done_same|].
  destruct (resolve tid pl rs) as [l|] eqn:Hl; [|wp_step; apply done_same].
  wp_step. apply wp_lift. eapply wp_mono; [eapply loc_kind_ok; by eapply resolve_live|].
  intros kd s' [-> Hkd]. destruct kd as [[]|]; try (wp_step; apply done_same).
  - destruct (Hkd _ eq_refl) as (m & Hm & [w0 ->]%kind_arc).
    wp_step. apply wp_lift. simpl shared.
    eapply wp_mono; [apply (arc_load_ok tid Ss Ws E l w0); [apply tid_now|apply read_now|apply Hok|done|apply fits_now]|].
    intros p s' (-> & Hinv & Hsv & Hpot & Hrk). unfold set_reg. wp_step. by eapply finish_add.
  - destruct (Hkd _ eq_refl) as (m & Hm & [w0 ->]%kind_aw).
    wp_step. apply wp_lift. simpl shared.
    eapply wp_mono; [apply (aw_load_ok tid Ss Ws E l w0); [apply tid_now|apply read_now|apply Hok|done|apply fits_now]|].
    intros p s' (_ & Hinv & Hsv & Hpot & Hrk). unfold set_reg. wp_step. by eapply finish_add.
Qed.

(** A new snapshot register of either kind. *)
Lemma finish_snap dst (strong : bool) a w s' :
  rs !! (tid, dst) = None → same_values s s' → reads_kept (announcements s) (announcements s') →
  acq_value a = w → is_null w = false → potential E s' = potential E s →
  ((∃ t, acq_token a t ∧ (∀ t', t' ∈ Ss ∨ t' ∈ Ws → apart t t') ∧
         if strong then Inv (t :: Ss) Ws E s' else Inv Ss (t :: Ws) E s') ∨
   (acq_is_protected a = false ∧ Inv Ss Ws (OStrong (raw w) :: E) s')) →
  done_with (Client (<[(tid, dst):=snap_reg strong a]> rs) s').
Proof.
  intros Hd Hsv Hrk Hv Hw Hpot [(t & Ht & Hap & Hinv)|[Hp Hinv]].
  - exists (<[(tid, dst):=t]> toks). simpl. split; [|by rewrite (sv_threads _ _ Hsv)].
    pose proof (co_potential _ _ _ _ Hok).
    eapply (add_token B); [done..|by rewrite Hv|done|done| |lia].
    eapply reads_step; [apply Hok|apply (sv_threads _ _ Hsv)|apply Hrk].
  - eapply finish_add; [done..| | |done|done|done].
    + destruct strong; simpl; by rewrite Hp.
    + destruct strong; simpl; rewrite Hp, Hv, rc_obls, Hw; done.
Qed.

Lemma exec_snapshot dst pl : wp (exec n tid (CSnapshot dst pl)) (λ _ c, done_with c) (Client rs s).
Proof.
  unfold exec. wp_step. wp_step. simpl regs.
  destruct (rs !! (tid, dst)) eqn:Hd; [by wp_step; apply done_same|].
  destruct (resolve tid pl rs) as [l|] eqn:Hl; [|wp_step; apply done_same].
  wp_step. apply wp_lift. eapply wp_mono; [eapply loc_kind_ok; by eapply resolve_live|].
  intros kd s' [-> Hkd]. destruct kd as [[]|]; try (wp_step; apply done_same).
  - destruct (Hkd _ eq_refl) as (m & Hm & [w0 ->]%kind_arc).
    wp_step. apply wp_lift. simpl shared.
    eapply wp_mono; [apply (arc_get_snapshot_ok tid Ss Ws E l w0); [apply tid_now|apply read_now|apply Hok|done|apply fits_now]|].
    intros a s' (Hsv & Hrk & Hor). unfold set_reg. wp_step. destruct (is_null w0) eqn:Hw.
    + destruct Hor as (Hna%null_either & Hinv & Hpot); [|done]. eapply finish_add; [done..| | |done|done|done].
      * simpl. by rewrite Hna, andb_false_r.
      * simpl. rewrite rc_obls, Hna. by destruct (acq_is_protected a).
    + destruct Hor as [Hv Hor]. apply (finish_snap dst true a w0); [done..| |].
      * destruct Hor as [(t & _ & _ & _ & ?)|(_ & _ & ?)]; done.
      * destruct Hor as [(t & ? & ? & ? & _)|(? & ? & _)]; [left; eauto|by right].
  - destruct (Hkd _ eq_refl) as (m & Hm & [w0 ->]%kind_aw).
    wp_step. apply wp_lift. simpl shared.
    eapply wp_mono; [apply (aw_get_snapshot_ok tid 0 Ss Ws E l w0); [apply tid_now|apply read_now|apply Hok|done|apply Hroomy]|].
    intros a s' (Hpot & Hsv & Hrk & [(-> & Hinv & _)|(Hv & Hlive & Hor)]); unfold set_reg; wp_step.
    + assert (is_null (acq_value acq_null) = true) as Hna
        by (unfold is_null; rewrite acq_null_value; by rewrite raw_aligned).
      eapply finish_add; [done..| | |done|done|done].
      * simpl. by rewrite Hna, andb_false_r.
      * simpl. rewrite rc_obls, Hna. by destruct (acq_is_protected _).
    + apply (finish_snap dst false a w0); [done..| |done|].
      * destruct Hlive as (o & v & Ho & _). apply Z.eqb_neq.
        destruct Hor as [(t & _ & _ & Hinv)|[_ Hinv]]; by eapply Inv_nonnull.
      * destruct Hor as [(t & ? & ? & ?)|(? & ?)]; [left; eauto|by right].
Qed.

(** A place through another register is held by the obligations of the rest. *)
Lemma resolve_held pl l desired w :
  resolve tid pl rs = Some l → rs !! (tid, desired) = Some (RRc w) → through pl desired = false →
  loc_held Ss Ws (regs_obls (delete (tid, desired) rs)) l.
Proof.
  intros Hl Hd Hth. destruct pl as [i|r k]; simpl in *; [by simplify_eq|].
  destruct (rs !! (tid, r)) as [rg|] eqn:Hr; [|done].
  destruct (Z.eqb_spec (reg_object rg) 0) as [|Hnz]; [done|]. injection Hl as <-. simpl.
  destruct (reg_protects _ _ _ _ _ _ Hok Hr Hnz) as [?|Hin]; [by left|right].
  apply Nat.eqb_neq in Hth. eapply regs_obls_elem; [|exact Hin].
  rewrite lookup_delete_ne; [done|]. congruence.
Qed.

Lemma cas_done pl l e desired w w0 :
  resolve tid pl rs = Some l → member_at s l (MAtomicRc w0) →
  rs !! (tid, desired) = Some (RRc w) → through pl desired = false →
  wp (compare_and_swap mm tid l e w false) (λ _ s', done_with (Client rs s')) s.
Proof.
  intros Hl Hm Hd Hth. destruct (split_reg _ _ Hd) as (Hinv & Hpot & _).
  eapply wp_mono.
  { eapply (compare_and_swap_ok n tid Ss Ws _ l e w w0); [apply tid_now|apply read_now|exact Hinv|done| | |done].
    - by eapply resolve_held.
    - apply (Nat.add_le_mono_r _ _ 4) in Hpot. etrans; [exact Hpot|lia]. }
  intros b s' (Hp' & _ & Hrk & Hpr & _). exists toks. simpl.
  pose proof (regs_obls_delete rs (tid, desired) _ Hd) as Hperm. simpl reg_obls in Hperm.
  pose proof (pr_evolves _ _ _ _ _ Hpr) as Hev.
  assert (length (num_allocated s') = length (num_allocated s)) as Hlen.
  { rewrite (ev_threads _ _ Hev). destruct b; [|done]. by destruct (put_member_rest s l (MAtomicRc w)) as (_ & -> & _). }
  split; [|by rewrite Hlen]. split.
  - apply Hok.
  - eapply Inv_perm; [symmetry; exact Hperm|apply Hpr].
  - eapply reads_step; [apply Hok|done|apply Hrk].
  - rewrite (potential_perm _ _ _ Hperm). etrans; [exact Hp'|].
    apply (Nat.add_le_mono_l _ _ 3) in Hpot. etrans; [exact Hpot|lia].
Qed.

Lemma exec_cas pl expected desired :
  wp (exec n tid (CCas pl expected desired)) (λ _ c, done_with c) (Client rs s).
Proof.
  unfold exec. wp_step. wp_step. simpl regs.
  destruct (resolve tid pl rs) as [l|] eqn:Hl; [|wp_step; apply done_same].
  destruct (rs !! (tid, expected)) as [re|] eqn:He; [|wp_step; apply done_same].
  destruct (rs !! (tid, desired)) as [[w|w|a|a]|] eqn:Hd; try (wp_step; apply done_same).
  wp_step. apply wp_lift. eapply wp_mono; [eapply loc_kind_ok; by eapply resolve_live|].
  intros kd s' [-> Hkd]. destruct (through pl desired) eqn:Hth; [wp_step; apply done_same|].
  destruct kd as [[]|]; try (wp_step; apply done_same).
  destruct (Hkd _ eq_refl) as (m & Hm & [w0 ->]%kind_arc).
  destruct re as [e|e|a|a]; try (wp_step; apply done_same).
  - wp_step. apply wp_lift. simpl shared. eapply wp_mono; [by eapply cas_done|].
    intros b s' H. by wp_step.
  - wp_step. apply wp_lift. simpl shared. eapply wp_mono; [by eapply cas_done|].
    intros b s' H. by wp_step.
Qed.

Lemma exec_read (r : nat) : wp (exec n tid (CRead r)) (λ _ c, done_with c) (Client rs s).
Proof.
  unfold exec. wp_step. wp_step. simpl regs.
  destruct (rs !! (tid, r)) as [[w|w|a|a]|] eqn:Hr; try (wp_step; apply done_same).
  - destruct (is_null w) eqn:Hw; wp_step; [apply done_same|]. apply wp_lift. simpl shared.
    eapply wp_mono; [eapply rc_deref_ok; [apply Hok|]|].
    + apply (reg_live _ _ _ _ _ _ Hok Hr). by apply Z.eqb_neq.
    + intros v s' [-> _]. wp_step. apply done_same.
  - destruct (is_null (acq_value a)) eqn:Hw; wp_step; [apply done_same|]. apply wp_lift. simpl shared.
    eapply wp_mono; [eapply snap_deref_ok; [apply Hok|]|].
    + apply (reg_live _ _ _ _ _ _ Hok Hr). by apply Z.eqb_neq.
    + intros v s' [-> _]. wp_step. apply done_same.
  - destruct (is_null (acq_value a)) eqn:Hw; wp_step; [apply done_same|]. apply wp_lift. simpl shared.
    eapply wp_mono; [eapply snap_deref_ok; [apply Hok|]|].
    + apply (reg_live _ _ _ _ _ _ Hok Hr). by apply Z.eqb_neq.
    + intros v s' [-> _]. wp_step. apply done_same.
Qed.

(** Moving registers into members changes who owns the references. *)
Lemma mk_member_null kd : member_obls (En := En) (mk_member kd 0) = [].
Proof. unfold member_obls. destruct kd; simpl; by rewrite raw_aligned. Qed.

Lemma reg_to_member kd (r : reg) w E0 Ss0 Ws0 :
  match kd, r with
  | KRc, RRc w' | KAtomicRc, RRc w' | KWeak, RWeak w' | KAtomicWeak, RWeak w' => w' = w
  | _, _ => False
  end →
  Inv Ss0 Ws0 (reg_obls r ++ E0) s →
  Inv Ss0 Ws0 (member_obls (mk_member kd w) ++ E0) s ∧
  potential (member_obls (mk_member kd w) ++ E0) s ≤ S (potential (reg_obls r ++ E0) s).
Proof.
  intros Hkd Hinv. destruct kd, r; try done; subst; simpl reg_obls in *; simpl mk_member.
  - split; [done|lia].
  - split; [done|lia].
  - split; [by apply Inv_to_pend|]. rewrite !potential_app, arc_obls, rc_obls. destruct (is_null w); simpl; lia.
  - split; [by apply Inv_weak_to_pend|]. rewrite !potential_app, aw_obls, weak_obls. destruct (is_null w); simpl; lia.
Qed.

Lemma take_fields_ok fields rs0 ms rs' E0 Ss0 Ws0 toks0 :
  take_fields tid fields rs0 = (ms, rs') → ghost_ok rs0 toks0 → Inv Ss0 Ws0 (E0 ++ regs_obls rs0) s →
  ghost_ok rs' toks0 ∧ rs' ⊆ rs0 ∧ Inv Ss0 Ws0 (E0 ++ members_obls ms ++ regs_obls rs') s ∧
  potential (E0 ++ members_obls ms ++ regs_obls rs') s ≤ potential (E0 ++ regs_obls rs0) s + length fields.
Proof.
  revert rs0 ms rs' E0. induction fields as [|[kd src] fields IH]; intros rs0 ms rs' E0 Htf Hg Hinv; simpl in Htf.
  { simplify_eq. simpl. split; [done|]. split; [done|]. split; [done|lia]. }
  set (P := λ w rs1, Inv Ss0 Ws0 (E0 ++ member_obls (mk_member kd w) ++ regs_obls rs1) s ∧
    potential (E0 ++ member_obls (mk_member kd w) ++ regs_obls rs1) s ≤ S (potential (E0 ++ regs_obls rs0) s) ∧
    ghost_ok rs1 toks0 ∧ rs1 ⊆ rs0).
  assert (P 0%Z rs0) as Hnull.
  { unfold P. rewrite mk_member_null. simpl. split; [done|]. split; [lia|]. done. }
  assert (∀ r k w, rs0 !! k = Some r →
    match kd, r with
    | KRc, RRc w' | KAtomicRc, RRc w' | KWeak, RWeak w' | KAtomicWeak, RWeak w' => w' = w
    | _, _ => False
    end → P w (delete k rs0)) as Hmove.
  { intros r k w Hk Hkd. pose proof (regs_obls_delete rs0 k r Hk) as Hperm.
    assert (E0 ++ regs_obls rs0 ≡ₚ reg_obls r ++ E0 ++ regs_obls (delete k rs0)) as Hperm1
      by (rewrite Hperm, !app_assoc; by rewrite (Permutation_app_comm E0)).
    assert (member_obls (mk_member kd w) ++ E0 ++ regs_obls (delete k rs0) ≡ₚ
            E0 ++ member_obls (mk_member kd w) ++ regs_obls (delete k rs0)) as Hperm2
      by (rewrite !app_assoc; by rewrite (Permutation_app_comm E0)).
    eapply Inv_perm in Hinv; [|exact Hperm1].
    destruct (reg_to_member kd r w _ _ _ Hkd Hinv) as [Hinv' Hpot'].
    unfold P. rewrite <-(potential_perm _ _ _ Hperm2), (potential_perm _ _ _ Hperm1).
    split; [by eapply Inv_perm|]. split; [done|]. split; [|apply delete_subseteq].
    pose proof (ghost_remove rs0 toks0 k Hg) as Hg'. rewrite (delete_id toks0 k) in Hg'; [done|].
    pose proof (gh_tok _ _ Hg k r Hk) as Htok. destruct kd, r; done. }
  assert (∀ w rs1 ms1, P w rs1 → take_fields tid fields rs1 = (ms1, rs') → ms = mk_member kd w :: ms1 →
    ghost_ok rs' toks0 ∧ rs' ⊆ rs0 ∧ Inv Ss0 Ws0 (E0 ++ members_obls ms ++ regs_obls rs') s ∧
    potential (E0 ++ members_obls ms ++ regs_obls rs') s ≤
      potential (E0 ++ regs_obls rs0) s + S (length fields)) as Hstep.
  { intros w rs1 ms1 (Hi & Hp & Hg1 & Hsub) Htf1 ->. rewrite app_assoc in Hi, Hp.
    destruct (IH _ _ _ _ Htf1 Hg1 Hi) as (Hg2 & Hsub2 & Hi2 & Hp2).
    split; [done|]. split; [by etrans|]. unfold members_obls in *. csimpl. rewrite <-!app_assoc in *.
    split; [done|]. lia. }
  clear Hinv. destruct src as [r|].
  - destruct kd, (rs0 !! (tid, r)) as [[w|w|a|a]|] eqn:Hr;
      (destruct (take_fields tid fields _) as [ms1 rs1] eqn:Htf1 in Htf; injection Htf as <- <-;
       eapply Hstep; [|exact Htf1|reflexivity]; first [exact Hnull | by eapply Hmove]).
  - destruct (take_fields tid fields _) as [ms1 rs1] eqn:Htf1 in Htf. injection Htf as <- <-.
    eapply Hstep; [|exact Htf1|reflexivity]. exact Hnull.
Qed.

Lemma exec_make dst (d : V) fields :
  can_create (announcements s) tid →
  wp (exec n tid (CMake dst d fields)) (λ _ c, client_inv N (B + 4 + length fields) c) (Client rs s).
Proof.
  intros Hcc. unfold exec. wp_step. wp_step. simpl regs.
  destruct (rs !! (tid, dst)) eqn:Hd; [wp_step; eapply client_inv_mono; [|apply done_same]; lia|].
  destruct (take_fields tid fields rs) as [ms rs'] eqn:Htf.
  destruct (take_fields_ok fields rs ms rs' [] Ss Ws toks Htf) as (Hg & Hsub & Hinv & Hpot);
    [apply Hok|apply Hok|]. simpl in Hinv, Hpot.
  wp_step. wp_step. wp_step. apply wp_lift. simpl shared.
  eapply wp_mono; [eapply (make_shared_ok tid Ss Ws (regs_obls rs') (Payload d ms)); [apply tid_now|done|exact Hinv]|].
  intros p s' (Hinv' & _ & _ & _ & _ & _ & _ & Hlen & _ & Hpot' & Hrk). unfold set_reg. wp_step.
  pose proof (co_potential _ _ _ _ Hok) as HB. exists toks. simpl. split; [|by rewrite Hlen].
  eapply add_plain; [done| |done| | |].
  - destruct (rs' !! (tid, dst)) as [r'|] eqn:Hr'; [|done].
    pose proof (lookup_weaken _ _ _ _ Hr' Hsub) as Hx. by rewrite Hd in Hx.
  - eapply Inv_snaps_incl; [..|exact Hinv']; intros t.
    + rewrite !elem_strongs. intros (k & a & Hk & Ht). exists k, a. split; [by eapply lookup_weaken|done].
    + rewrite !elem_weaks. intros (k & a & Hk & Ht). exists k, a. split; [by eapply lookup_weaken|done].
  - by eapply reads_step; [apply Hok| |].
  - etrans; [apply Nat.eq_le_incl, Hpot'|]. simpl members. lia.
Qed.

End one_call.

(** ** Programs *)

(** How much a call can add to the potential. *)
Definition cost (c : cmd V) : nat :=
  match c with CMake _ _ fields => 4 + length fields | _ => 4 end.

Definition prog_cost (prog : list (nat * cmd V)) : nat := sum_list_with (cost ∘ snd) prog.

(** The resources that are bounded: counters and, where the scheme uses them,
    timestamps. *)
Definition resources (c : client) : Prop :=
  roomy (shared c) ∧
  ∀ tid, tid < length (num_allocated (shared c)) → can_create (announcements (shared c)) tid.

Lemma exec_ok N B tid (c : cmd V) cl :
  client_inv N B cl → tid < N → B + 8 ≤ n → fits n → resources cl →
  wp (exec n tid c) (λ _ cl', client_inv N (B + cost c) cl') cl.
Proof.
  intros (toks & Hok & HN) Htid Hn Hf [Hroom Hcc]. destruct cl as [rs s]. simpl in *.
  destruct c as [dst d fields| | | | | | | | |].
  - replace (B + cost (CMake dst d fields)) with (B + 4 + length fields) by (unfold cost; lia).
    eapply exec_make; eauto. apply Hcc. lia.
  - by eapply exec_copy.
  - by eapply exec_lock.
  - by eapply exec_weak.
  - by eapply exec_drop.
  - by eapply exec_store.
  - by eapply exec_load.
  - by eapply exec_snapshot.
  - by eapply exec_cas.
  - by eapply exec_read.
Qed.

Lemma run_ok N prog B cl :
  client_inv N B cl → Forall (λ '(tid, _), tid < N) prog →
  B + prog_cost prog + 8 ≤ n → fits n →
  (∀ pre cl', pre `prefix_of` prog → run n pre cl = Ok (tt, cl') → resources cl') →
  wp (run n prog) (λ _ cl', client_inv N (B + prog_cost prog) cl') cl.
Proof.
  revert B cl. induction prog as [|[tid c] prog IH]; intros B cl Hci Htids Hn Hf Hres.
  { simpl. wp_step. unfold prog_cost. simpl. by rewrite Nat.add_0_r. }
  inversion_clear Htids as [|? ? Htid Htids']. unfold prog_cost in *. simpl in *. wp_step.
  pose proof (exec_ok N B tid c cl Hci Htid ltac:(lia) Hf (Hres [] cl (prefix_nil _) eq_refl)) as Hex.
  apply wp_ok in Hex as ([] & cl1 & He & Hci1). apply wp_ok. exists tt, cl1. split; [done|].
  rewrite Nat.add_assoc. apply IH; [done|done|lia|done|].
  intros pre cl' [post ->] Hr. apply (Hres ((tid, c) :: pre)); [by exists post|].
  simpl. unfold mbind, M_bind. by rewrite He.
Qed.

(** C11. No client program goes wrong whose calls take turns.  A program is a
    sequence of whole calls by any threads, each run to its end before the next
    begins (for calls that overlap see HpMachine.v, and [weak_lock_race] for what
    can then happen to a locked weak pointer); with the epoch and interval backends
    every thread is inside a guard from beginning to end.  The calls create
    objects, copy, lock, move, store, load, compare-and-swap (with a desired
    pointer that the caller owns) and drop owning, weak and snapshot pointers in any
    order, nested in each other's objects in any way: every call returns, so no
    assertion of the library fails, no call dereferences null or freed memory, and
    no reader sees a destroyed value.  The accounts balance at the end.  The program
    must be small enough for the width of the counters, and every state between
    its calls must have room in the counters and epochs left ([resources]). *)
Theorem client_safe N (prog : list (nat * cmd V)) cl :
  client_inv N 0 cl → Forall (λ '(tid, _), tid < N) prog →
  prog_cost prog + 8 ≤ n → fits n →
  (∀ pre cl', pre `prefix_of` prog → run n pre cl = Ok (tt, cl') → resources cl') →
  ∃ cl', run n prog cl = Ok (tt, cl') ∧ client_inv N (prog_cost prog) cl'.
Proof.
  intros Hci Htids Hn Hf Hres.
  pose proof (run_ok N prog 0 cl Hci Htids Hn Hf Hres) as (u & cl' & Hr & Hci')%wp_ok.
  destruct u. eauto.
Qed.

End client_ok.
