(* ===== verification/Utils.v ===== *)
(** * Thread ids, hashing and random numbers
    ([utils] of src/include/cdrc/internal/utils.h, beside [StickyCounter])

    [ThreadID] hands out small integers to the threads through the shared
    vector [in_use]; every thread's constructor is given by its atomic
    instructions, which interleave in any order.  [hash64_2] and the generator
    are functions on 64-bit words. *)

From S2P Require Import Prelude.
Local Open Scope Z_scope.

(** ** num_threads *)

(** [env_p] is the value [std::stoi] reads from NUM_THREADS, if it is set. *)
Definition num_threads (env_p : option Z) (hardware_concurrency : Z) : Z :=
  match env_p with
  | Some n => wrap 64 (n + 1)
  | None => wrap 64 (hardware_concurrency + 1)
  end.

(** ** ThreadID *)

(** Where a thread is: before its first use of [threadID], at the test
    [!in_use[i]] or the [compare_exchange_strong] of iteration [i] of the
    constructor, with an id, after the destructor, or past the loop, where the
    process exits. *)
Inductive thread :=
  | Fresh
  | Test (i : nat)
  | Cas (i : nat)
  | Has (tid : nat)
  | Gone
  | Exited.

(** One instruction of a thread: the constructor's loop, and for a thread that
    has its id the destructor. *)
Definition thread_id_step (t : thread) (in_use : list bool) : option (thread * list bool) :=
  match t with
  | Fresh => Some (Test 0, in_use)
  | Test i =>
      match in_use !! i with
      | None => Some (Exited, in_use)
      | Some true => Some (Test (S i), in_use)
      | Some false => Some (Cas i, in_use)
      end
  | Cas i =>
      match in_use !! i with
      | None => None
      | Some true => Some (Test (S i), in_use)
      | Some false => Some (Has i, <[i := true]> in_use)
      end
  | Has tid => Some (Gone, <[tid := false]> in_use)
  | Gone | Exited => None
  end.

Record ids := Ids { in_use : list bool; threads : list thread }.

Inductive ids_step : ids → ids → Prop :=
  | ids_thread c k t t' u :
      threads c !! k = Some t → thread_id_step t (in_use c) = Some (t', u) →
      ids_step c (Ids u (<[k := t']> (threads c)))
  | ids_spawn c : ids_step c (Ids (in_use c) (threads c ++ [Fresh])).

Inductive ids_reachable (n : nat) : ids → Prop :=
  | ids_init : ids_reachable n (Ids (replicate n false) [])
  | ids_next c c' : ids_reachable n c → ids_step c c' → ids_reachable n c'.

(** A schedule: [None] starts a thread, [Some k] runs an instruction of thread
    [k]. *)
Fixpoint ids_run (sched : list (option nat)) (c : ids) : option ids :=
  match sched with
  | [] => Some c
  | None :: sched' => ids_run sched' (Ids (in_use c) (threads c ++ [Fresh]))
  | Some k :: sched' =>
      match threads c !! k with
      | Some t =>
          match thread_id_step t (in_use c) with
          | Some (t', u) => ids_run sched' (Ids u (<[k := t']> (threads c)))
          | None => None
          end
      | None => None
      end
  end.

Lemma ids_run_reachable n sched c c' :
  ids_reachable n c → ids_run sched c = Some c' → ids_reachable n c'.
Proof.
  revert c. induction sched as [|[k|] sched IH]; simpl; intros c Hc Hr; simplify_eq; [done|..].
  - destruct (threads c !! k) as [t|] eqn:Hk; [|done].
    destruct (thread_id_step t (in_use c)) as [[t' u]|] eqn:Ht; [|done].
    eapply IH, Hr. eapply ids_next; [done|by econstructor].
  - eapply IH, Hr. eapply ids_next; [done|constructor].
Qed.

(** Slot [i] is taken exactly by the one thread that has id [i]. *)
Record ids_ok (n : nat) (c : ids) : Prop := {
  ids_length : length (in_use c) = n;
  ids_taken k i : threads c !! k = Some (Has i) → in_use c !! i = Some true;
  ids_unique k k' i : threads c !! k = Some (Has i) → threads c !! k' = Some (Has i) → k = k';
  ids_owner i : in_use c !! i = Some true → ∃ k, threads c !! k = Some (Has i);
  ids_cas k i : threads c !! k = Some (Cas i) → (i < n)%nat
}.

(** A step of thread [k] that does not touch the slots. *)
Lemma ids_ok_move n c k t t' :
  ids_ok n c → threads c !! k = Some t →
  (∀ i, t ≠ Has i) → (∀ i, t' ≠ Has i) → (∀ i, t' = Cas i → (i < n)%nat) →
  ids_ok n (Ids (in_use c) (<[k := t']> (threads c))).
Proof.
  intros [Hl Ht Hu Ho Hc] Hk Hnt Hnt' Hcas. split; simpl; [done| | | |].
  - intros k' i. rewrite list_lookup_insert_Some. intros [(_ & -> & _)|[_ ?]]; [by destruct (Hnt' i)|eauto].
  - intros k1 k2 i. rewrite !list_lookup_insert_Some.
    intros [(_ & -> & _)|[_ ?]]; [by destruct (Hnt' i)|].
    intros [(_ & -> & _)|[_ ?]]; [by destruct (Hnt' i)|]. eauto.
  - intros i Hi. destruct (Ho i Hi) as [k' Hk']. exists k'. rewrite list_lookup_insert_ne; [done|].
    intros ->. simplify_eq. by destruct (Hnt i).
  - intros k' i. rewrite list_lookup_insert_Some. intros [(_ & -> & _)|[_ ?]]; eauto.
Qed.

Lemma ids_ok_take n c k i :
  ids_ok n c → threads c !! k = Some (Cas i) → in_use c !! i = Some false →
  ids_ok n (Ids (<[i := true]> (in_use c)) (<[k := Has i]> (threads c))).
Proof.
  intros [Hl Ht Hu Ho Hc] Hk Hi. pose proof (lookup_lt_Some _ _ _ Hi) as Hlt.
  pose proof (lookup_lt_Some _ _ _ Hk) as Hkt.
  split; simpl.
  - by rewrite length_insert.
  - intros k' j. rewrite list_lookup_insert_Some. intros [(_ & Heq & _)|[_ Hj]].
    + simplify_eq. by apply list_lookup_insert_eq.
    + apply Ht in Hj. rewrite list_lookup_insert_ne; [done|]. congruence.
  - intros k1 k2 j. rewrite !list_lookup_insert_Some.
    intros [(<- & Heq & _)|[_ H1]] [(<- & Heq2 & _)|[_ H2]]; simplify_eq; [done|..].
    + apply Ht in H2. congruence.
    + apply Ht in H1. congruence.
    + eauto.
  - intros j. rewrite list_lookup_insert_Some. intros [(<- & _ & _)|[Hne Hj]].
    + exists k. by apply list_lookup_insert_eq.
    + destruct (Ho j Hj) as [k' Hk']. exists k'. rewrite list_lookup_insert_ne; [done|]. congruence.
  - intros k' j. rewrite list_lookup_insert_Some. intros [(_ & ? & _)|[_ ?]]; [done|eauto].
Qed.

Lemma ids_ok_leave n c k i :
  ids_ok n c → threads c !! k = Some (Has i) →
  ids_ok n (Ids (<[i := false]> (in_use c)) (<[k := Gone]> (threads c))).
Proof.
  intros [Hl Ht Hu Ho Hc] Hk. split; simpl.
  - by rewrite length_insert.
  - intros k' j. rewrite list_lookup_insert_Some. intros [(_ & ? & _)|[Hne Hj]]; [done|].
    rewrite list_lookup_insert_ne; [by eapply Ht|]. intros ->. by apply Hne, (Hu k k' j).
  - intros k1 k2 j. rewrite !list_lookup_insert_Some.
    intros [(_ & ? & _)|[_ ?]] [(_ & ? & _)|[_ ?]]; try done. eauto.
  - intros j. rewrite list_lookup_insert_Some. intros [(_ & ? & _)|[Hne Hj]]; [done|].
    destruct (Ho j Hj) as [k' Hk']. exists k'. rewrite list_lookup_insert_ne; [done|]. congruence.
  - intros k' j. rewrite list_lookup_insert_Some. intros [(_ & ? & _)|[_ ?]]; [done|eauto].
Qed.

Lemma ids_ok_spawn n c : ids_ok n c → ids_ok n (Ids (in_use c) (threads c ++ [Fresh])).
Proof.
  intros [Hl Ht Hu Ho Hc].
  assert (∀ k t, (threads c ++ [Fresh]) !! k = Some t → t ≠ Fresh → threads c !! k = Some t) as Hold.
  { intros k t [?|[_ Hs]]%lookup_app_Some Hne; [done|]. by apply list_lookup_singleton_Some in Hs as [_ <-]. }
  split; simpl; [done| | | |].
  - intros k i Hk%Hold; eauto.
  - intros k k' i Hk%Hold Hk'%Hold; eauto.
  - intros i (k & Hk)%Ho. exists k. by apply lookup_app_l_Some.
  - intros k i Hk%Hold; eauto.
Qed.

Lemma ids_reachable_ok n c : ids_reachable n c → ids_ok n c.
Proof.
  induction 1 as [|c c' _ IH Hstep].
  { split; simpl; [by rewrite length_replicate|done|done| |done].
    by intros i [? _]%lookup_replicate_1. }
  destruct Hstep as [c k t t' u Hk Ht|c]; [|by apply ids_ok_spawn].
  destruct t as [|i|i|tid| |]; simpl in Ht; simplify_eq.
  - by eapply ids_ok_move.
  - destruct (in_use c !! i) as [[]|] eqn:Hi; simplify_eq; (eapply ids_ok_move; [done..|]); intros ? [=].
    subst. rewrite <-(ids_length _ _ IH). by eapply lookup_lt_Some.
  - destruct (in_use c !! i) as [[]|] eqn:Hi; simplify_eq; [by eapply ids_ok_move|by eapply ids_ok_take].
  - by eapply ids_ok_leave.
Qed.

(** C39. Thread ids are unique: in every interleaving of constructors and
    destructors of any number of threads, no two threads have the same id at
    the same time, every id is below [num_threads()], and a slot is in use
    exactly while a thread has its id. *)
Theorem thread_ids_unique n c :
  ids_reachable n c →
  (∀ k k' i, threads c !! k = Some (Has i) → threads c !! k' = Some (Has i) → k = k' ∧ (i < n)%nat) ∧
  (∀ i, in_use c !! i = Some true ↔ ∃ k, threads c !! k = Some (Has i)).
Proof.
  intros [Hl Ht Hu Ho Hc]%ids_reachable_ok. split.
  - intros k k' i Hk Hk'. split; [by eapply Hu|]. rewrite <-Hl. by eapply lookup_lt_Some, Ht.
  - intros i. split; [apply Ho|]. intros [k Hk]. by eapply Ht.
Qed.

(** Three threads on three slots; the schedule interleaves their constructors
    and ends one of them. *)
Lemma thread_ids_unique_witness :
  let c := Ids [true; false; true] [Has 0; Gone; Has 2] in
  (∀ k k' i, threads c !! k = Some (Has i) → threads c !! k' = Some (Has i) → k = k' ∧ (i < 3)%nat) ∧
  (∀ i, in_use c !! i = Some true ↔ ∃ k, threads c !! k = Some (Has i)).
Proof.
  apply (thread_ids_unique 3).
  apply (ids_run_reachable 3 [None; None; Some 0; Some 0; Some 1; Some 1; Some 0; Some 1; None; Some 2; Some 2;
    Some 1; Some 1; Some 2; Some 1; Some 2; Some 2]%nat (Ids (replicate 3 false) [])).
  - apply ids_init.
  - vm_compute. reflexivity.
Defined.

(** The constructor of a thread, whose instructions see the contents [us] of
    the slots; it stops when it has an id or exits. *)
Fixpoint construct (t : thread) (us : list (list bool)) : thread :=
  match us with
  | [] => t
  | u :: us' =>
      match t with
      | Has _ | Gone | Exited => t
      | _ => match thread_id_step t u with
             | Some (t', _) => construct t' us'
             | None => t
             end
      end
  end.

(** Instructions the constructor has left. *)
Definition left_of (n : nat) (t : thread) : nat :=
  match t with
  | Fresh => 2 * n + 2
  | Test i => 2 * (n - i) + 1
  | Cas i => 2 * (n - i)
  | Has _ | Gone | Exited => 0
  end.

Lemma construct_left n t us :
  Forall (λ u, length u = n) us → (left_of n t ≤ length us)%nat → (∀ i, t = Cas i → (i < n)%nat) →
  match construct t us with Has i => (i < n)%nat ∨ t = Has i | Exited => True | Gone => t = Gone | _ => False end.
Proof.
  revert t. induction us as [|u us IH]; intros t Hus Hlen Hcas.
  { destruct t as [|i|i|i| |]; simpl in *; try (by auto); try lia.
    specialize (Hcas i eq_refl). lia. }
  inversion_clear Hus as [|? ? Hu Hus'].
  assert (∀ t', (left_of n t' < left_of n t)%nat → (∀ i, t' = Cas i → (i < n)%nat) →
    (∀ i, t' = Has i → (i < n)%nat) → t' ≠ Gone →
    match construct t' us with Has i => (i < n)%nat ∨ t = Has i | Exited => True | Gone => t = Gone | _ => False end) as Hnext.
  { intros t' Hlt Hc Hh Hg. specialize (IH t' Hus' ltac:(simpl in *; lia) Hc).
    destruct (construct t' us); intuition eauto. }
  destruct t as [|i|i|i| |]; simpl; try (by auto).
  - apply Hnext; simpl; [lia|done..].
  - destruct (u !! i) as [[]|] eqn:Hi; [..|by destruct us]; apply lookup_lt_Some in Hi.
    + apply Hnext; simpl; [lia|done..].
    + apply Hnext; simpl; [lia| |done..]. intros ? [= <-]. lia.
  - specialize (Hcas i eq_refl). destruct (lookup_lt_is_Some_2 u i) as [b Hb]; [lia|]. rewrite Hb. destruct b.
    + apply Hnext; simpl; [lia|done..].
    + destruct us; by left.
Qed.

(** The constructor is wait-free: within [2 * num_threads() + 2] of its own
    instructions, whatever other threads do to the slots meanwhile, it has an
    id below [num_threads()] or found all slots taken. *)
Theorem thread_id_wait_free n us :
  Forall (λ u, length u = n) us → (2 * n + 2 ≤ length us)%nat →
  (∃ i, construct Fresh us = Has i ∧ (i < n)%nat) ∨ construct Fresh us = Exited.
Proof.
  intros Hus Hlen. pose proof (construct_left n Fresh us Hus Hlen ltac:(done)) as H.
  destruct (construct Fresh us) as [|i|i|i| |]; try done; [|by auto].
  left. exists i. split; [done|]. by destruct H as [?|?].
Qed.

Lemma thread_id_wait_free_witness :
  let us := [[true; false]; [true; false]; [true; false]; [true; true]; [true; true]; [true; true]] in
  (∃ i, construct Fresh us = Has i ∧ (i < 2)%nat) ∨ construct Fresh us = Exited.
Proof.
  apply (thread_id_wait_free 2).
  - repeat (apply Forall_cons; split; [reflexivity|]). by apply Forall_nil.
  - simpl. lia.
Defined.

(** ** Hashing *)

(** [hash64_2] of a [uint64_t] *)
Definition hash64_2 (x : Z) : Z :=
  let x := wrap 64 (Z.lxor x (Z.shiftr x 30) * 0xbf58476d1ce4e5b9) in
  let x := wrap 64 (Z.lxor x (Z.shiftr x 27) * 0x94d049bb133111eb) in
  Z.lxor x (Z.shiftr x 31).

(** [CustomHash<uint64_t>] and [CustomHash<T*>], on the integer value of the
    pointer *)
Definition CustomHash (a : Z) : Z := hash64_2 a.

Lemma high_bits w x i : 0 ≤ x < 2 ^ w → w ≤ i → Z.testbit x i = false.
Proof.
  intros Hx Hi. destruct (Z.eq_dec x 0) as [->|Hne]; [apply Z.bits_0|].
  apply Z.bits_above_log2; [lia|]. apply Z.lt_le_trans with w; [|done]. apply Z.log2_lt_pow2; lia.
Qed.

Lemma word_lxor w x y : 0 ≤ x < 2 ^ w → 0 ≤ y < 2 ^ w → 0 ≤ Z.lxor x y < 2 ^ w.
Proof.
  intros Hx Hy. assert (0 ≤ w).
  { destruct (Z.lt_ge_cases w 0); [|lia]. rewrite Z.pow_neg_r in Hx by done. lia. }
  split; [apply Z.lxor_nonneg; lia|].
  destruct (Z.eq_dec (Z.lxor x y) 0) as [->|Hne]; [lia|].
  assert (0 ≤ Z.lxor x y) by (apply Z.lxor_nonneg; lia).
  apply Z.log2_lt_pow2; [lia|]. destruct (Z.lt_ge_cases (Z.log2 (Z.lxor x y)) w) as [|Hge]; [done|].
  pose proof (Z.bit_log2 (Z.lxor x y) ltac:(lia)) as Hb.
  rewrite Z.lxor_spec, (high_bits w x), (high_bits w y) in Hb; done.
Qed.

Lemma word_shiftr w x k : 0 ≤ x < 2 ^ w → 0 ≤ k → 0 ≤ Z.shiftr x k < 2 ^ w.
Proof.
  intros Hx Hk. rewrite Z.shiftr_div_pow2 by done. split; [apply Z.div_pos; lia|].
  apply Z.div_lt_upper_bound; nia.
Qed.

(** A word that repeats itself [k] bits higher is zero. *)
Lemma bits_repeat_up w k d :
  0 ≤ d < 2 ^ w → 0 < k → (∀ i, 0 ≤ i → Z.testbit d i = Z.testbit d (i + k)) → d = 0.
Proof.
  intros Hd Hk Hrep. apply Z.bits_inj'. intros i Hi. rewrite Z.bits_0.
  assert (∀ m : nat, Z.testbit d i = Z.testbit d (i + Z.of_nat m * k)) as Hm.
  { induction m as [|m IH]; [f_equal; lia|]. rewrite IH, Hrep by nia. f_equal. lia. }
  rewrite (Hm (Z.to_nat w)). apply (high_bits w); [done|]. destruct (Z.lt_ge_cases w 0); nia.
Qed.

(** ... and so is one that repeats itself [k] bits lower. *)
Lemma bits_repeat_down w k d :
  0 ≤ d < 2 ^ w → 0 < k → (∀ i, 0 ≤ i < w → Z.testbit d i = Z.testbit d (i - k)) → d = 0.
Proof.
  intros Hd Hk Hrep. apply Z.bits_inj'. intros i Hi. rewrite Z.bits_0.
  destruct (Z.lt_ge_cases i w) as [Hlt|Hge]; [|by apply (high_bits w)].
  revert Hlt. pattern i. apply Z_lt_induction; [clear i Hi|done]. intros i IH Hlt.
  destruct (Z.lt_ge_cases i 0) as [Hneg|Hpos]; [by apply Z.testbit_neg_r|].
  rewrite Hrep by lia. destruct (Z.lt_ge_cases (i - k) 0); [by apply Z.testbit_neg_r|]. apply IH; lia.
Qed.

Lemma xorshift_right_inj w k x y :
  0 < k → 0 ≤ x < 2 ^ w → 0 ≤ y < 2 ^ w →
  Z.lxor x (Z.shiftr x k) = Z.lxor y (Z.shiftr y k) → x = y.
Proof.
  intros Hk Hx Hy Heq. apply Z.lxor_eq, (bits_repeat_up w k); [by apply word_lxor|done|].
  intros i Hi. apply (f_equal (λ z, Z.testbit z i)) in Heq. revert Heq.
  rewrite !Z.lxor_spec, !Z.shiftr_spec by done.
  destruct (Z.testbit x i), (Z.testbit y i), (Z.testbit x (i + k)), (Z.testbit y (i + k)); done.
Qed.

Lemma xorshift_left_inj w k x y :
  0 < k → 0 ≤ w → 0 ≤ x < 2 ^ w → 0 ≤ y < 2 ^ w →
  Z.lxor x (wrap w (Z.shiftl x k)) = Z.lxor y (wrap w (Z.shiftl y k)) → x = y.
Proof.
  intros Hk Hw Hx Hy Heq. apply Z.lxor_eq, (bits_repeat_down w k); [by apply word_lxor|done|].
  intros i Hi. apply (f_equal (λ z, Z.testbit z i)) in Heq. revert Heq. unfold wrap.
  rewrite !Z.lxor_spec, !Z.mod_pow2_bits_low, !Z.shiftl_spec by lia.
  destruct (Z.testbit x i), (Z.testbit y i), (Z.testbit x (i - k)), (Z.testbit y (i - k)); done.
Qed.

(** Multiplication by a unit modulo [2 ^ w] can be undone. *)
Lemma wrap_mul_inj w c c' x y :
  0 ≤ w → wrap w (c * c') = 1 → 0 ≤ x < 2 ^ w → 0 ≤ y < 2 ^ w → wrap w (x * c) = wrap w (y * c) → x = y.
Proof.
  unfold wrap. intros Hw Hc Hx Hy Heq.
  assert (∀ z, 0 ≤ z < 2 ^ w → ((z * c) mod 2 ^ w * c') mod 2 ^ w = z) as Hinv.
  { intros z Hz. rewrite Z.mul_mod_idemp_l by lia. rewrite <-Z.mul_assoc, <-Z.mul_mod_idemp_r by lia.
    rewrite Hc, Z.mul_1_r. by apply Z.mod_small. }
  rewrite <-(Hinv x), <-(Hinv y) by done. by rewrite Heq.
Qed.

Lemma word_wrap w x : 0 ≤ w → 0 ≤ wrap w x < 2 ^ w.
Proof. intros Hw. unfold wrap. apply Z.mod_pos_bound. lia. Qed.

(** [hash64_2] has no collisions: it is injective on 64-bit words, so two
    different pointers or keys never get the same hash value. *)
Theorem hash64_2_injective x y :
  0 ≤ x < 2 ^ 64 → 0 ≤ y < 2 ^ 64 → hash64_2 x = hash64_2 y → x = y.
Proof.
  intros Hx Hy Heq. unfold hash64_2 in Heq.
  apply (xorshift_right_inj 64) in Heq; [|done|apply word_wrap; lia..].
  apply (wrap_mul_inj 64 _ 0x319642b2d24d8ec3) in Heq;
    [|done|by vm_compute|apply word_lxor; [|apply word_shiftr; [|done]]; apply word_wrap; lia..].
  apply (xorshift_right_inj 64) in Heq; [|done|apply word_wrap; lia..].
  apply (wrap_mul_inj 64 _ 0x96de1b173f119089) in Heq;
    [|done|by vm_compute|apply word_lxor; [|apply word_shiftr]; done..].
  by apply (xorshift_right_inj 64) in Heq.
Qed.

Lemma hash64_2_injective_witness : 5 ≠ 21 ∧ (hash64_2 5 = hash64_2 21 → 5 = 21).
Proof. split; [done|]. intros H. apply (hash64_2_injective 5 21); [lia|lia|exact H]. Defined.

(** ** Random numbers *)

(** [unsigned long] is 64 bits wide. *)
Record rand_state := Rand { rx : Z; ry : Z; rz : Z }.

Definition rand_start : rand_state := Rand 123456789 362436069 521288629.

(** [x += seed] converts the [int] to [unsigned long]. *)
Definition rand_init (seed : Z) (r : rand_state) : rand_state := Rand (wrap 64 (rx r + seed)) (ry r) (rz r).

(** The number and the state afterwards. *)
Definition get_rand (r : rand_state) : Z * rand_state :=
  let x := rx r in
  let x := Z.lxor x (wrap 64 (Z.shiftl x 16)) in
  let x := Z.lxor x (Z.shiftr x 5) in
  let x := Z.lxor x (wrap 64 (Z.shiftl x 1)) in
  let t := x in
  let x := ry r in
  let y := rz r in
  let z := Z.lxor (Z.lxor t x) y in
  (z, Rand x y z).

Definition rand_word (r : rand_state) : Prop :=
  0 ≤ rx r < 2 ^ 64 ∧ 0 ≤ ry r < 2 ^ 64 ∧ 0 ≤ rz r < 2 ^ 64.

(** The three xorshifts of [get_rand]. *)
Definition rand_mix (x : Z) : Z :=
  let x := Z.lxor x (wrap 64 (Z.shiftl x 16)) in
  let x := Z.lxor x (Z.shiftr x 5) in
  Z.lxor x (wrap 64 (Z.shiftl x 1)).

Lemma rand_mix_word x : 0 ≤ x < 2 ^ 64 → 0 ≤ rand_mix x < 2 ^ 64.
Proof.
  intros Hx. unfold rand_mix.
  repeat first [apply word_lxor | apply word_shiftr; [|done] | apply word_wrap; lia | done].
Qed.

Lemma rand_mix_inj x y : 0 ≤ x < 2 ^ 64 → 0 ≤ y < 2 ^ 64 → rand_mix x = rand_mix y → x = y.
Proof.
  intros Hx Hy Heq. unfold rand_mix in Heq.
  apply (xorshift_left_inj 64) in Heq; [|done|done|
    repeat first [apply word_lxor | apply word_shiftr; [|done] | apply word_wrap; lia | done]..].
  apply (xorshift_right_inj 64) in Heq; [|done|
    repeat first [apply word_lxor | apply word_wrap; lia | done]..].
  by apply (xorshift_left_inj 64) in Heq.
Qed.

(** The generator never gets stuck: a step is injective on the states, so a
    state other than the all-zero one, such as any seeding of the initial
    state, is never followed by the all-zero one. *)
Lemma get_rand_injective r r' :
  rand_word r → rand_word r' →
  rand_word (snd (get_rand r)) ∧ (snd (get_rand r) = snd (get_rand r') → r = r') ∧
  (r ≠ Rand 0 0 0 → snd (get_rand r) ≠ Rand 0 0 0).
Proof.
  assert (∀ r1 r2, rand_word r1 → rand_word r2 → snd (get_rand r1) = snd (get_rand r2) → r1 = r2) as Hinj.
  { intros [x y z] [x' y' z'] (Hx & _ & _) (Hx' & _ & _) Heq. unfold get_rand in Heq. simpl in *.
    fold (rand_mix x) (rand_mix x') in Heq. injection Heq as <- <- Hz.
    f_equal. apply rand_mix_inj; [done|done|].
    apply Z.bits_inj'. intros i Hi. apply (f_equal (λ v, Z.testbit v i)) in Hz. rewrite !Z.lxor_spec in Hz.
    by destruct (Z.testbit (rand_mix x) i), (Z.testbit (rand_mix x') i), (Z.testbit y i), (Z.testbit z i). }
  intros Hr Hr'. split; [|split; [by apply Hinj|]].
  - destruct r as [x y z], Hr as (Hx & Hy & Hz). simpl in *. split; [done|]. split; [done|]. simpl.
    fold (rand_mix x). apply word_lxor; [|done]. apply word_lxor; [|done]. by apply rand_mix_word.
  - intros Hne Heq. apply Hne, Hinj; [done|by vm_compute|]. by rewrite Heq.
Qed.
