(* ===== verification/HpMachine.v ===== *)
(** * Hazard pointers, one instruction at a time

    The strong pointers ([rc_ptr], [snapshot_ptr], [atomic_rc_ptr]) over the
    hazard-pointer manager (internal/smr/acquire_retire.h,
    internal/memory_manager_base.h, internal/counted_object.h), and as much of
    [weak_ptr] as a program needs to lock one, as a machine that any number of
    threads run together: a step executes at most one access to shared memory
    of one thread, so every interleaving of the instructions of the calls is a
    run.  The other files let threads take turns between calls only.

    A thread is inside at most one call of a pointer class, whose next
    instruction is an [op]; the calls into the manager that this call makes,
    which recur through the destructors, are a stack of [frame]s.  Steps that
    touch only data of the thread itself (the deferred list, the map that a scan
    builds) are steps of their own or part of the access they follow.  Memory is
    sequentially consistent. *)

From S2P Require Import Prelude StickyCounter CountedObject MemoryManager AtomicLoc AcquireRetire.
Local Open Scope Z_scope.

(** ** Announcement slots

    The [LocalSlot]s of all threads in a row, in the order in which [scan_slots]
    reads them: [announcement] first, then [snapshot_announcements]. *)

Definition slots_per_thread : nat := S snapshot_slots.
Definition main_slot (tid : nat) : nat := (tid * slots_per_thread)%nat.
Definition snap_slot (tid : nat) (j : nat) : nat := (tid * slots_per_thread + S j)%nat.

(** ** The state *)

Section state.
  Context (V : Type).

(** What the threads share: the objects, the atomic pointers outside them and
    the announcements. *)
Record mem := Mem {
  m_heap : gmap Z (counted_object V);
  m_roots : list Z;
  m_slots : list Z
}.
End state.

Arguments Mem {V} _ _ _.
Arguments m_heap {V} _.
Arguments m_roots {V} _.
Arguments m_slots {V} _.

(** A [snapshot_ptr]: the [value] and the [slot] of its [acquired_pointer]. *)
Definition snapshot : Type := Z * option nat.

(** The data of one thread: its pointer variables, the result of its last
    [compare_and_swap], and its part of the manager. *)
Record local := Local {
  l_rcs : list Z;
  l_snaps : list snapshot;
  l_weaks : list Z;
  l_result : bool;
  l_in_progress : bool;
  l_deferred : list hp_entry;
  l_work : Z;
  l_allocated : Z
}.

Definition set_rcs (x : list Z) (l : local) : local :=
  Local x (l_snaps l) (l_weaks l) (l_result l) (l_in_progress l) (l_deferred l) (l_work l) (l_allocated l).
Definition set_snaps (x : list snapshot) (l : local) : local :=
  Local (l_rcs l) x (l_weaks l) (l_result l) (l_in_progress l) (l_deferred l) (l_work l) (l_allocated l).
Definition set_weaks (x : list Z) (l : local) : local :=
  Local (l_rcs l) (l_snaps l) x (l_result l) (l_in_progress l) (l_deferred l) (l_work l) (l_allocated l).
Definition set_result (x : bool) (l : local) : local :=
  Local (l_rcs l) (l_snaps l) (l_weaks l) x (l_in_progress l) (l_deferred l) (l_work l) (l_allocated l).
Definition set_collecting (b : bool) (d : list hp_entry) (k : Z) (l : local) : local :=
  Local (l_rcs l) (l_snaps l) (l_weaks l) (l_result l) b d k (l_allocated l).
Definition set_allocated (k : Z) (l : local) : local :=
  Local (l_rcs l) (l_snaps l) (l_weaks l) (l_result l) (l_in_progress l) (l_deferred l) (l_work l) k.

(** ** The next instruction

    Calls into the manager.  A [pc] is the place inside an operation of a
    [StickyCounter]: the frame is about to execute that instruction. *)
Inductive frame :=
  | FDelay (p : Z) (c : pc)          (* delayed_decrement_ref_cnt, its assertion *)
  | FDelayWeak (p : Z) (c : pc)      (* delayed_decrement_weak_cnt, its assertion *)
  | FRetire (p : Z) (type : RetireType)
  | FWork                            (* the loop of work_toward_deferred_decrements *)
  | FScan (i : nat) (announced : gmap hp_entry nat) (deferred : list hp_entry)
  | FApply (announced : gmap hp_entry nat) (deferred kept : list hp_entry)
  | FEject (p : Z) (type : RetireType)
  | FDec (p : Z) (c : pc)            (* decrement_ref_cnt *)
  | FWeakDec (p : Z) (c : pc)        (* decrement_weak_cnt *)
  | FWeakRead (p : Z) (c : pc)       (* weak_cnt.load() of release_refs *)
  | FAssertZero (p : Z) (c : pc)     (* memory_manager_base::dispose, its assertion *)
  | FDispose (p : Z) (delayed : bool)
  | FDestruct (p : Z) (ms : list member) (delayed : bool)
  | FDisposed (p : Z) (delayed : bool)
  | FDestroy (p : Z) (c : pc)        (* destroy, its assertion on the count *)
  | FDelete (p : Z).

(** What the announced pointer of [acquire] is for: [load], or a snapshot when
    no slot is free. *)
Inductive acq_use := ForLoad | ForSnapshot.

Inductive outcome := Counted | GaveUp | Retry.

(** Where the pointer that [compare_and_swap] stores is while the call runs: in
    a variable, in a snapshot with slot [k], or in a member of an object, in
    which case slot [k] has its reservation. *)
Inductive cover := ByVar | BySlot (k : nat) | ByField (k : nat).

(** The calls of the pointer classes.  [c] is the [std::atomic] they act on,
    [dst] the variable that gets the result, [w] a pointer word. *)
Inductive op :=
  (* acquire *)
  | OAcqLoad (u : acq_use) (c : loc) (dst : nat)
  | OAcqStore (u : acq_use) (c : loc) (dst : nat) (w : Z)
  | OAcqCheck (u : acq_use) (c : loc) (dst : nat) (w : Z)
  (* atomic_rc_ptr::load *)
  | OLoadInc (dst : nat) (w : Z)
  | OLoadClear (dst : nat) (w : Z)
  (* protect_snapshot *)
  | OSnapSlot (c : loc) (dst : nat) (j : nat)
  | OSnapLoad (c : loc) (dst : nat) (j : nat)
  | OSnapNull (dst : nat) (j : nat) (w : Z)
  | OSnapStore (c : loc) (dst : nat) (j : nat) (w : Z)
  | OSnapCheck (c : loc) (dst : nat) (j : nat) (w : Z)
  | OSnapInc (c : loc) (dst : nat) (w : Z)
  | OSnapAgain (c : loc) (dst : nat) (w : Z)
  | OSnapClear (c : loc) (dst : nat) (w : Z) (r : outcome)
  (* atomic_rc_ptr::store *)
  | OExchange (c : loc) (w : Z)
  | OStoreSnap (c : loc) (w : Z) (k : nat)
  | OStoreInc (w : Z) (old : Z) (k : nat)
  | OIncExchange (c : loc) (w : Z)
  (* atomic_rc_ptr::compare_and_swap *)
  | OReserve (c : loc) (expected desired : Z) (field : bool)
  | OCas (c : loc) (expected desired : Z) (cov : cover)
  | OCasInc (desired : Z) (cov : cover)
  | OCasClear (desired : Z) (cov : cover) (b : bool)
  | OCasMove (c : loc) (expected desired : Z) (r : nat)
  | OCasMoved
  (* rc_ptr, snapshot_ptr, weak_ptr *)
  | OCopyInc (dst : nat) (w : Z)
  | OClearSlot (k : nat)
  | ODeref (p : Z)
  | OWeakInc (dst : nat) (w : Z)
  | OLockInc (dst : nat) (w : Z).

Record thread := Thread {
  t_op : option op;
  t_stack : list frame;
  t_local : local
}.

Record cstate (V : Type) := CState {
  c_mem : mem V;
  c_threads : list thread
}.
Arguments CState {V} _ _.
Arguments c_mem {V} _.
Arguments c_threads {V} _.

(** ** Instructions *)

Section instructions.
  Context {V : Type} `{!Policy}.
  (** [num_threads()] *)
  Context (num_threads : nat).

Local Abbreviation M := (M (mem V * local)).

Definition mem_get {A} (f : mem V → A) : M A := gets (λ ml, f ml.1).
Definition local_get {A} (f : local → A) : M A := gets (λ ml, f ml.2).
Definition local_set (f : local → local) : M unit := modify (λ ml, (ml.1, f ml.2)).

Definition set_m_heap (h : gmap Z (counted_object V)) : M unit :=
  modify (λ ml, (Mem h (m_roots ml.1) (m_slots ml.1), ml.2)).
Definition set_m_roots (x : list Z) : M unit :=
  modify (λ ml, (Mem (m_heap ml.1) x (m_slots ml.1), ml.2)).

(** [slot.store(w)] *)
Definition store_announcement (k : nat) (w : Z) : M unit :=
  x ← mem_get m_slots;
  _ ← at_ x k;
  modify (λ ml, (Mem (m_heap ml.1) (m_roots ml.1) (<[k := w]> x), ml.2)).

Definition object (p : Z) : M (counted_object V) :=
  h ← mem_get m_heap;
  if p =? 0 then fail NullDereference
  else match h !! p with Some o => mret o | None => fail UseAfterFree end.

Definition update (p : Z) (f : counted_object V → counted_object V) : M unit :=
  o ← object p;
  h ← mem_get m_heap;
  set_m_heap (<[p := f o]> h).

(** The instruction at [c] of an operation on the strong counter of [p]. *)
Definition strong_step (p : Z) (c : pc) : M pc :=
  o ← object p;
  match thread_step cnt_width c (ref_cnt o) with
  | Some (c', x) => update p (set_ref_cnt x);; mret c'
  | None => mret c
  end.

Definition weak_step (p : Z) (c : pc) : M pc :=
  o ← object p;
  match thread_step cnt_width c (weak_cnt o) with
  | Some (c', x) => update p (set_weak_cnt x);; mret c'
  | None => mret c
  end.

(** The result of an increment, which is one instruction. *)
Definition incremented (c : pc) : bool :=
  match c with Returned (RInc b) => b | _ => false end.

(** The value of the object that contains a location. *)
Definition payload_at (p : Z) : M (payload V) :=
  o ← object p;
  match storage o with Some v => mret v | None => fail DestroyedObject end.

(** [p->load()] of a [std::atomic] *)
Definition cell_load (c : loc) : M Z :=
  match c with
  | LCell i => x ← mem_get m_roots; at_ x i
  | LField p k =>
      v ← payload_at p;
      match members v !! k with Some (MAtomicRc w) => mret w | _ => fail OutOfRange end
  end.

Definition cell_store (c : loc) (w : Z) : M unit :=
  match c with
  | LCell i => x ← mem_get m_roots; _ ← at_ x i; set_m_roots (<[i := w]> x)
  | LField p k =>
      v ← payload_at p;
      match members v !! k with
      | Some (MAtomicRc _) =>
          update p (set_storage (Some (Payload (data v) (<[k := MAtomicRc w]> (members v)))))
      | _ => fail OutOfRange
      end
  end.

(** [p->exchange(w)] *)
Definition cell_exchange (c : loc) (w : Z) : M Z :=
  old ← cell_load c;
  cell_store c w;;
  mret old.

(** [p->compare_exchange_strong(expected, desired)] *)
Definition cell_cas (c : loc) (expected desired : Z) : M bool :=
  cur ← cell_load c;
  if cur =? expected then cell_store c desired;; mret true else mret false.

Definition null (w : Z) : bool := raw w =? 0.

(** [if (old_ptr != nullptr) mm.delayed_decrement_ref_cnt(old_ptr)] *)
Definition delay_old (old : Z) : list frame := if null old then [] else [FDelay (raw old) LoadRead].

(** [if (ptr) mm.decrement_ref_cnt(ptr)] *)
Definition drop_strong (w : Z) : list frame := if null w then [] else [FDec (raw w) LoadRead].
Definition drop_weak (w : Z) : list frame := if null w then [] else [FWeakDec (raw w) LoadRead].

(** The destructor of one member of a value. *)
Definition drop_member (m : member) : list frame :=
  match m with
  | MRc w => drop_strong w
  | MWeak w => drop_weak w
  | MAtomicRc w => delay_old w
  | MAtomicWeak w => if null w then [] else [FDelayWeak (raw w) LoadRead]
  end.

(** *** The manager *)

Definition collect_threshold : Z :=
  threshold (V := V) (X := list LocalSlot) (Scheme0 := hp_scheme) num_threads.

(** One step of a call into the manager gives the frames that replace it. *)

(** [delayed_decrement_ref_cnt]: the assertion on the count, then [retire] *)
Definition step_delay (p : Z) (c : pc) : M (list frame) :=
  c' ← strong_step p c;
  match c' with
  | Returned (RLoad n) => assert_ (1 <=? n);; mret [FRetire p decrement_strong_count]
  | _ => mret [FDelay p c']
  end.

(** [delayed_decrement_weak_cnt] *)
Definition step_delay_weak (p : Z) (c : pc) : M (list frame) :=
  c' ← weak_step p c;
  match c' with
  | Returned (RLoad n) => assert_ (1 <=? n);; mret [FRetire p decrement_weak_count]
  | _ => mret [FDelayWeak p c']
  end.

(** [acquire_retire::retire] and the first line of
    [work_toward_deferred_decrements] *)
Definition step_retire (p : Z) (type : RetireType) : M (list frame) :=
  local_set (λ l, set_collecting (l_in_progress l) (l_deferred l ++ [(p, type)])
                    (wrap 32 (l_work l + 1)) l);;
  mret [FWork].

(** The condition and the head of the loop of
    [work_toward_deferred_decrements] *)
Definition step_work : M (list frame) :=
  l ← local_get id;
  if negb (l_in_progress l) && (collect_threshold <=? l_work l) then
    match l_deferred l with
    | [] => local_set (set_collecting (l_in_progress l) [] 0);; mret []
    | d => local_set (set_collecting true [] 0);; mret [FScan 0 ∅ d]
    end
  else mret [].

(** [scan_slots] reads one slot; its function counts the announcement *)
Definition step_scan (i : nat) (announced : gmap hp_entry nat) (deferred : list hp_entry) : M (list frame) :=
  x ← mem_get m_slots;
  match x !! i with
  | Some y => mret [FScan (S i) (if y =? 0 then announced else announce announced y) deferred]
  | None => mret [FApply announced deferred []]
  end.

(** [remove_if] looks at one entry; after the last the kept ones go back *)
Definition step_apply (announced : gmap hp_entry nat) (deferred kept : list hp_entry) : M (list frame) :=
  match deferred with
  | [] =>
      local_set (λ l, set_collecting false (l_deferred l ++ kept) (l_work l) l);;
      mret [FWork]
  | e :: deferred =>
      let '(keep, announced') := check_announced announced e in
      if keep : bool then mret [FApply announced' deferred (kept ++ [e])]
      else mret [FEject e.1 e.2; FApply announced' deferred kept]
  end.

(** [eject] *)
Definition step_eject (p : Z) (type : RetireType) : M (list frame) :=
  assert_ (negb (p =? 0));;
  mret [match type with
        | decrement_strong_count => FDec p LoadRead
        | decrement_weak_count => FWeakDec p LoadRead
        | retire_dispose => FAssertZero p LoadRead
        end].

(** [decrement_ref_cnt]: the assertion, then [ref_cnt.decrement] of
    [release_refs] *)
Definition step_dec (p : Z) (c : pc) : M (list frame) :=
  c' ← strong_step p c;
  match c' with
  | Returned (RLoad n) => assert_ (1 <=? n);; mret [FDec p (DecSub 1)]
  | Returned (RDec true) => mret [FWeakRead p LoadRead]
  | Returned _ => mret []
  | _ => mret [FDec p c']
  end.

(** [decrement_weak_cnt] *)
Definition step_weak_dec (p : Z) (c : pc) : M (list frame) :=
  c' ← weak_step p c;
  match c' with
  | Returned (RLoad n) => assert_ (1 <=? n);; mret [FWeakDec p (DecSub 1)]
  | Returned (RDec true) => mret [FDestroy p LoadRead]
  | Returned _ => mret []
  | _ => mret [FWeakDec p c']
  end.

(** [release_refs], after the count has come to zero *)
Definition step_weak_read (p : Z) (c : pc) : M (list frame) :=
  c' ← weak_step p c;
  match c' with
  | Returned (RLoad n) =>
      mret [if n =? 1 then FDispose p false else FRetire p retire_dispose]
  | _ => mret [FWeakRead p c']
  end.

(** The assertion of [memory_manager_base::dispose] *)
Definition step_assert_zero (p : Z) (c : pc) : M (list frame) :=
  c' ← strong_step p c;
  match c' with
  | Returned (RLoad n) => assert_ (n =? 0);; mret [FDispose p true]
  | _ => mret [FAssertZero p c']
  end.

(** [counted_object::dispose]: the value is destroyed, its members from the last
    to the first *)
Definition step_dispose (p : Z) (delayed : bool) : M (list frame) :=
  v ← payload_at p;
  update p (set_storage None);;
  mret [FDestruct p (reverse (members v)) delayed].

(** The destructor of one member *)
Definition step_destruct (p : Z) (ms : list member) (delayed : bool) : M (list frame) :=
  match ms with
  | [] => mret [FDisposed p delayed]
  | m :: ms => mret (drop_member m ++ [FDestruct p ms delayed])
  end.

(** [disposed.store(true)], and what the caller does next *)
Definition step_disposed (p : Z) (delayed : bool) : M (list frame) :=
  update p (set_disposed true);;
  mret [if delayed : bool then FWeakDec p (DecSub 1) else FDestroy p LoadRead].

(** The first assertion of [destroy] *)
Definition step_destroy (p : Z) (c : pc) : M (list frame) :=
  c' ← strong_step p c;
  match c' with
  | Returned (RLoad n) => assert_ (n =? 0);; mret [FDelete p]
  | _ => mret [FDestroy p c']
  end.

(** The second assertion of [destroy], and [delete_object] *)
Definition step_delete (p : Z) : M (list frame) :=
  o ← object p;
  assert_ (disposed o);;
  h ← mem_get m_heap;
  set_m_heap (delete p h);;
  local_set (λ l, set_allocated (l_allocated l - 1) l);;
  mret [].

(** The next instruction of a call into the manager. *)
Definition exec_frame (f : frame) : M (list frame) :=
  match f with
  | FDelay p c => step_delay p c
  | FDelayWeak p c => step_delay_weak p c
  | FRetire p type => step_retire p type
  | FWork => step_work
  | FScan i announced deferred => step_scan i announced deferred
  | FApply announced deferred kept => step_apply announced deferred kept
  | FEject p type => step_eject p type
  | FDec p c => step_dec p c
  | FWeakDec p c => step_weak_dec p c
  | FWeakRead p c => step_weak_read p c
  | FAssertZero p c => step_assert_zero p c
  | FDispose p delayed => step_dispose p delayed
  | FDestruct p ms delayed => step_destruct p ms delayed
  | FDisposed p delayed => step_disposed p delayed
  | FDestroy p c => step_destroy p c
  | FDelete p => step_delete p
  end.

(** *** The pointer classes *)

Section op.
  Context (tid : nat).

Definition finish : M (list frame * option op) := mret ([], None).
Definition goto (o : op) : M (list frame * option op) := mret ([], Some o).

Definition finish_load (dst : nat) (w : Z) : M (list frame * option op) :=
  local_set (λ l, set_rcs (<[dst := w]> (l_rcs l)) l);; finish.
Definition finish_snap (dst : nat) (a : snapshot) : M (list frame * option op) :=
  local_set (λ l, set_snaps (<[dst := a]> (l_snaps l)) l);; finish.

(** One step of a call of a pointer class gives the calls into the manager that
    it starts and the instruction after them. *)

(** [acquire] *)
Definition do_acq_load (u : acq_use) (c : loc) (dst : nat) : M (list frame * option op) :=
  w ← cell_load c; goto (OAcqStore u c dst w).

Definition do_acq_store (u : acq_use) (c : loc) (dst : nat) (w : Z) : M (list frame * option op) :=
  store_announcement (main_slot tid) (raw w);; goto (OAcqCheck u c dst w).

Definition do_acq_check (u : acq_use) (c : loc) (dst : nat) (w : Z) : M (list frame * option op) :=
  w' ← cell_load c;
  if negb (w' =? w) then goto (OAcqLoad u c dst)
  else match u with
       | ForLoad => if null w then finish_load dst w else goto (OLoadInc dst w)
       | ForSnapshot => if null w then finish_snap dst (0, None) else goto (OSnapInc c dst w)
       end.

(** [atomic_rc_ptr::load] after [acquire]: the [rc_ptr] counts its reference, then
    the announcement goes *)
Definition do_load_inc (dst : nat) (w : Z) : M (list frame * option op) :=
  _ ← strong_step (raw w) (IncAdd 1); goto (OLoadClear dst w).

Definition do_load_clear (dst : nat) (w : Z) : M (list frame * option op) :=
  store_announcement (main_slot tid) 0;; finish_load dst w.

(** [get_free_slot] *)
Definition do_snap_slot (c : loc) (dst : nat) (j : nat) : M (list frame * option op) :=
  if (j <? snapshot_slots)%nat then
    x ← mem_get m_slots;
    y ← at_ x (snap_slot tid j);
    if y =? 0 then goto (OSnapLoad c dst j) else goto (OSnapSlot c dst (S j))
  else goto (OAcqLoad ForSnapshot c dst).

(** [protect_snapshot] with a slot *)
Definition do_snap_load (c : loc) (dst : nat) (j : nat) : M (list frame * option op) :=
  w ← cell_load c;
  if null w then goto (OSnapNull dst j w) else goto (OSnapStore c dst j w).

Definition do_snap_null (dst : nat) (j : nat) (w : Z) : M (list frame * option op) :=
  store_announcement (snap_slot tid j) 0;; finish_snap dst (w, None).

Definition do_snap_store (c : loc) (dst : nat) (j : nat) (w : Z) : M (list frame * option op) :=
  store_announcement (snap_slot tid j) (raw w);; goto (OSnapCheck c dst j w).

Definition do_snap_check (c : loc) (dst : nat) (j : nat) (w : Z) : M (list frame * option op) :=
  w' ← cell_load c;
  if negb (w' =? w) then goto (OSnapLoad c dst j)
  else finish_snap dst (w, Some (snap_slot tid j)).

(** [protect_snapshot] without a slot, after [acquire] *)
Definition do_snap_inc (c : loc) (dst : nat) (w : Z) : M (list frame * option op) :=
  r ← strong_step (raw w) (IncAdd 1);
  if incremented r then goto (OSnapClear c dst w Counted) else goto (OSnapAgain c dst w).

Definition do_snap_again (c : loc) (dst : nat) (w : Z) : M (list frame * option op) :=
  w' ← cell_load c;
  goto (OSnapClear c dst w (if w' =? w then GaveUp else Retry)).

Definition do_snap_clear (c : loc) (dst : nat) (w : Z) (r : outcome) : M (list frame * option op) :=
  store_announcement (main_slot tid) 0;;
  match r with
  | Counted => finish_snap dst (w, None)
  | GaveUp => finish_snap dst (0, None)
  | Retry => goto (OAcqLoad ForSnapshot c dst)
  end.

(** [atomic_rc_ptr::store] of an [rc_ptr] or of null *)
Definition do_exchange (c : loc) (w : Z) : M (list frame * option op) :=
  old ← cell_exchange c w; mret (delay_old old, None).

(** [atomic_rc_ptr::store] of a snapshot: one in a slot is counted after the
    exchange, one that has its own reference before *)
Definition do_store_snap (c : loc) (w : Z) (k : nat) : M (list frame * option op) :=
  old ← cell_exchange c w;
  if negb (old =? w) then goto (OStoreInc w old k) else finish.

Definition do_store_inc (w : Z) (old : Z) (k : nat) : M (list frame * option op) :=
  _ ← strong_step (raw w) (IncAdd 1); mret (delay_old old, None).

Definition do_inc_exchange (c : loc) (w : Z) : M (list frame * option op) :=
  _ ← strong_step (raw w) (IncAdd 1); goto (OExchange c w).

(** [compare_and_swap] of a copy: [reserve], [compare_and_swap_impl], the increment,
    the end of the reservation *)
Definition do_reserve (c : loc) (expected : Z) (desired : Z) (field : bool) : M (list frame * option op) :=
  store_announcement (main_slot tid) (raw desired);;
  goto (OCas c expected desired (if field then ByField (main_slot tid) else ByVar)).

Definition do_cas (c : loc) (expected : Z) (desired : Z) (cov : cover) : M (list frame * option op) :=
  b ← cell_cas c expected desired;
  if b : bool then
    mret (delay_old expected,
          Some (if null desired then OCasClear desired cov true else OCasInc desired cov))
  else goto (OCasClear desired cov false).

Definition do_cas_inc (desired : Z) (cov : cover) : M (list frame * option op) :=
  _ ← strong_step (raw desired) (IncAdd 1); goto (OCasClear desired cov true).

(** The reservation ends when there is one. *)
Definition reserves (cov : cover) : bool := match cov with BySlot _ => false | _ => true end.

Definition do_cas_clear (desired : Z) (cov : cover) (b : bool) : M (list frame * option op) :=
  (if null desired || negb (reserves cov) then mret tt
   else store_announcement (main_slot tid) 0);;
  local_set (set_result b);; finish.

(** [compare_and_swap] of an [rc_ptr] that is moved in *)
Definition do_cas_move (c : loc) (expected : Z) (desired : Z) (r : nat) : M (list frame * option op) :=
  b ← cell_cas c expected desired;
  if b : bool then mret (delay_old expected, Some OCasMoved)
  else local_set (λ l, set_result false (set_rcs (<[r := desired]> (l_rcs l)) l));; finish.

Definition do_cas_moved : M (list frame * option op) :=
  local_set (set_result true);; finish.

(** The copy constructors of [rc_ptr] *)
Definition do_copy_inc (dst : nat) (w : Z) : M (list frame * option op) :=
  _ ← strong_step (raw w) (IncAdd 1); finish_load dst w.

(** [acquired_pointer::clear_protection] *)
Definition do_clear_slot (k : nat) : M (list frame * option op) :=
  store_announcement k 0;; finish.

Definition do_deref (p : Z) : M (list frame * option op) :=
  _ ← payload_at p; finish.

(** [weak_ptr(const rc_ptr&)] *)
Definition do_weak_inc (dst : nat) (w : Z) : M (list frame * option op) :=
  _ ← weak_step (raw w) (IncAdd 1);
  local_set (λ l, set_weaks (<[dst := w]> (l_weaks l)) l);; finish.

(** [weak_ptr::lock] *)
Definition do_lock_inc (dst : nat) (w : Z) : M (list frame * option op) :=
  r ← strong_step (raw w) (IncAdd 1);
  finish_load dst (if incremented r then w else 0).

(** The next instruction of a call of a pointer class. *)
Definition exec_op (o : op) : M (list frame * option op) :=
  match o with
  | OAcqLoad u c dst => do_acq_load u c dst
  | OAcqStore u c dst w => do_acq_store u c dst w
  | OAcqCheck u c dst w => do_acq_check u c dst w
  | OLoadInc dst w => do_load_inc dst w
  | OLoadClear dst w => do_load_clear dst w
  | OSnapSlot c dst j => do_snap_slot c dst j
  | OSnapLoad c dst j => do_snap_load c dst j
  | OSnapNull dst j w => do_snap_null dst j w
  | OSnapStore c dst j w => do_snap_store c dst j w
  | OSnapCheck c dst j w => do_snap_check c dst j w
  | OSnapInc c dst w => do_snap_inc c dst w
  | OSnapAgain c dst w => do_snap_again c dst w
  | OSnapClear c dst w r => do_snap_clear c dst w r
  | OExchange c w => do_exchange c w
  | OStoreSnap c w k => do_store_snap c w k
  | OStoreInc w old k => do_store_inc w old k
  | OIncExchange c w => do_inc_exchange c w
  | OReserve c expected desired field => do_reserve c expected desired field
  | OCas c expected desired cov => do_cas c expected desired cov
  | OCasInc desired cov => do_cas_inc desired cov
  | OCasClear desired cov b => do_cas_clear desired cov b
  | OCasMove c expected desired r => do_cas_move c expected desired r
  | OCasMoved => do_cas_moved
  | OCopyInc dst w => do_copy_inc dst w
  | OClearSlot k => do_clear_slot k
  | ODeref p => do_deref p
  | OWeakInc dst w => do_weak_inc dst w
  | OLockInc dst w => do_lock_inc dst w
  end.
End op.

(** ** Calls *)

(** A pointer variable of the thread. *)
Inductive source := SRc (r : nat) | SSnap (r : nat).

(** An atomic pointer: one of those outside the objects, or a member of the
    object that a pointer variable refers to. *)
Inductive place := PRoot (i : nat) | PField (s : source) (k : nat).

(** [CNew dst a v ks] is [make_shared]: the object is at [a], its value is [v]
    and its members are the [rc_ptr] variables in [ks], moved in, as an
    [atomic_rc_ptr] where the flag is set.  [CCasField] is [compare_and_swap] whose
    [desired] is the [rc_ptr] member [k] of the object of [s]; [CAssignField r k r']
    moves the variable [r'] into the [rc_ptr] member [k] of the object of [r]. *)
Inductive cmd :=
  | CNew (dst : nat) (a : Z) (v : V) (ks : list (bool * nat))
  | CCopy (dst : nat) (s : source)
  | CCopyField (dst : nat) (s : source) (k : nat)
  | CMove (dst r : nat)
  | CDrop (r : nat)
  | CLoad (dst : nat) (c : place)
  | CStore (c : place) (r : nat)
  | CStoreNull (c : place)
  | CStoreSnap (c : place) (r : nat)
  | CCas (c : place) (expected : Z) (s : source)
  | CCasField (c : place) (expected : Z) (s : source) (k : nat)
  | CCasMove (c : place) (expected : Z) (r : nat)
  | CSnapshot (dst : nat) (c : place)
  | CDropSnap (r : nat)
  | CSwapSnap (r r' : nat)
  | CAssignField (r k r' : nat)
  | CDeref (s : source)
  | CWeak (dst r : nat)
  | CLock (dst r : nat)
  | CDropWeak (r : nat).

Definition source_word (l : local) (s : source) : option Z :=
  match s with SRc r => l_rcs l !! r | SSnap r => fst <$> l_snaps l !! r end.

(** The slot that protects the pointer of a source: [is_protected]. *)
Definition source_slot (l : local) (s : source) : option nat :=
  match s with
  | SRc _ => None
  | SSnap r => match l_snaps l !! r with
               | Some (w, Some k) => if null w then None else Some k
               | _ => None
               end
  end.

Definition place_loc (l : local) (c : place) : option loc :=
  match c with
  | PRoot i => Some (LCell i)
  | PField s k => (λ w, LField (raw w) k) <$> source_word l s
  end.

Definition from_option_m {A} (x : option A) : M A :=
  match x with Some a => mret a | None => fail OutOfRange end.

Definition word_of (s : source) : M Z := l ← local_get id; from_option_m (source_word l s).
Definition loc_of (c : place) : M loc := l ← local_get id; from_option_m (place_loc l c).

(** [std::move(r)] and [release()]: the word, the variable being null after. *)
Definition take_rc (r : nat) : M Z :=
  l ← local_get id;
  w ← at_ (l_rcs l) r;
  local_set (λ l, set_rcs (<[r := 0]> (l_rcs l)) l);;
  mret w.

Fixpoint take_members (ks : list (bool * nat)) : M (list member) :=
  match ks with
  | [] => mret []
  | (atomic, r) :: ks' =>
      w ← take_rc r;
      ms ← take_members ks';
      mret ((if atomic : bool then MAtomicRc w else MRc w) :: ms)
  end.

(** The value of an [rc_ptr] member. *)
Definition rc_member (p : Z) (k : nat) : M Z :=
  v ← payload_at p;
  match members v !! k with Some (MRc w) => mret w | _ => fail OutOfRange end.

(** The start of each call, up to its first access to shared memory. *)

Definition start_new (dst : nat) (a : Z) (v : V) (ks : list (bool * nat)) : M (list frame * option op) :=
  ms ← take_members ks;
  local_set (λ l, set_allocated (l_allocated l + 1) l);;
  h ← mem_get m_heap;
  set_m_heap (<[a := new_counted_object 0 (Payload v ms)]> h);;
  finish_load dst a.

Definition start_copy (dst : nat) (s : source) : M (list frame * option op) :=
  w ← word_of s; if null w then finish_load dst w else goto (OCopyInc dst w).

Definition start_copy_field (dst : nat) (s : source) (k : nat) : M (list frame * option op) :=
  p ← word_of s;
  w ← rc_member (raw p) k;
  if null w then finish_load dst w else goto (OCopyInc dst w).

Definition start_move (dst : nat) (r : nat) : M (list frame * option op) :=
  w ← take_rc r; finish_load dst w.

Definition start_drop (r : nat) : M (list frame * option op) :=
  w ← take_rc r; mret (drop_strong w, None).

Definition start_load (dst : nat) (c : place) : M (list frame * option op) :=
  c ← loc_of c; goto (OAcqLoad ForLoad c dst).

Definition start_store (c : place) (r : nat) : M (list frame * option op) :=
  c ← loc_of c; w ← take_rc r; goto (OExchange c w).

Definition start_store_null (c : place) : M (list frame * option op) :=
  c ← loc_of c; goto (OExchange c 0).

Definition start_store_snap (c : place) (r : nat) : M (list frame * option op) :=
  c ← loc_of c;
  w ← word_of (SSnap r);
  l ← local_get id;
  match source_slot l (SSnap r) with
  | Some k => goto (OStoreSnap c w k)
  | None => if null w then goto (OExchange c w) else goto (OIncExchange c w)
  end.

Definition start_cas (c : place) (expected : Z) (s : source) : M (list frame * option op) :=
  c ← loc_of c;
  w ← word_of s;
  l ← local_get id;
  match source_slot l s with
  | Some k => goto (OCas c expected w (BySlot k))
  | None => goto (OReserve c expected w false)
  end.

Definition start_cas_field (c : place) (expected : Z) (s : source) (k : nat) : M (list frame * option op) :=
  c ← loc_of c;
  p ← word_of s;
  w ← rc_member (raw p) k;
  goto (OReserve c expected w true).

(** [rc_ptr::operator=(rc_ptr&&)] on a member *)
Definition start_assign_field (r k r' : nat) : M (list frame * option op) :=
  p ← word_of (SRc r);
  tmp ← rc_member (raw p) k;
  w ← take_rc r';
  v ← payload_at (raw p);
  update (raw p) (set_storage (Some (Payload (data v) (<[k := MRc w]> (members v)))));;
  mret (drop_strong tmp, None).

Definition start_cas_move (c : place) (expected : Z) (r : nat) : M (list frame * option op) :=
  c ← loc_of c; w ← take_rc r; goto (OCasMove c expected w r).

Definition start_snapshot (dst : nat) (c : place) : M (list frame * option op) :=
  c ← loc_of c; goto (OSnapSlot c dst 0).

Definition start_drop_snap (r : nat) : M (list frame * option op) :=
  l ← local_get id;
  a ← at_ (l_snaps l) r;
  local_set (λ l, set_snaps (<[r := (0, None)]> (l_snaps l)) l);;
  match a with
  | (w, Some k) => if null w then finish else goto (OClearSlot k)
  | (w, None) => mret (drop_strong w, None)
  end.

(** [snapshot_ptr::swap] *)
Definition start_swap_snap (r r' : nat) : M (list frame * option op) :=
  l ← local_get id;
  a ← at_ (l_snaps l) r;
  b ← at_ (l_snaps l) r';
  local_set (λ l, set_snaps (<[r' := a]> (<[r := b]> (l_snaps l))) l);;
  finish.

Definition start_deref (s : source) : M (list frame * option op) :=
  w ← word_of s; goto (ODeref (raw w)).

Definition start_weak (dst : nat) (r : nat) : M (list frame * option op) :=
  w ← word_of (SRc r); if null w then finish else goto (OWeakInc dst w).

Definition start_lock (dst : nat) (r : nat) : M (list frame * option op) :=
  l ← local_get id;
  w ← at_ (l_weaks l) r;
  if null w then finish_load dst 0 else goto (OLockInc dst w).

Definition start_drop_weak (r : nat) : M (list frame * option op) :=
  l ← local_get id;
  w ← at_ (l_weaks l) r;
  local_set (λ l, set_weaks (<[r := 0]> (l_weaks l)) l);;
  mret (drop_weak w, None).

(** A call of a pointer class. *)
Definition call (c : cmd) : M (list frame * option op) :=
  match c with
  | CNew dst a v ks => start_new dst a v ks
  | CCopy dst s => start_copy dst s
  | CCopyField dst s k => start_copy_field dst s k
  | CMove dst r => start_move dst r
  | CDrop r => start_drop r
  | CLoad dst c => start_load dst c
  | CStore c r => start_store c r
  | CStoreNull c => start_store_null c
  | CStoreSnap c r => start_store_snap c r
  | CCas c expected s => start_cas c expected s
  | CCasField c expected s k => start_cas_field c expected s k
  | CCasMove c expected r => start_cas_move c expected r
  | CSnapshot dst c => start_snapshot dst c
  | CDropSnap r => start_drop_snap r
  | CSwapSnap r r' => start_swap_snap r r'
  | CAssignField r k r' => start_assign_field r k r'
  | CDeref s => start_deref s
  | CWeak dst r => start_weak dst r
  | CLock dst r => start_lock dst r
  | CDropWeak r => start_drop_weak r
  end.

(** One step of a thread that is inside a call. *)
Definition run_thread (tid : nat) (T : thread) (m : mem V) : result (thread * mem V) :=
  match t_stack T with
  | f :: stack =>
      match exec_frame f (m, t_local T) with
      | Ok (fs, (m', l')) => Ok (Thread (t_op T) (fs ++ stack) l', m')
      | Err e => Err e
      end
  | [] =>
      match t_op T with
      | Some o =>
          match exec_op tid o (m, t_local T) with
          | Ok ((fs, o'), (m', l')) => Ok (Thread o' fs l', m')
          | Err e => Err e
          end
      | None => Ok (T, m)
      end
  end.

Definition call_thread (T : thread) (m : mem V) (c : cmd) : result (thread * mem V) :=
  match call c (m, t_local T) with
  | Ok ((fs, o'), (m', l')) => Ok (Thread o' fs l', m')
  | Err e => Err e
  end.

Definition idle (T : thread) : Prop := t_op T = None ∧ t_stack T = [].

(** ** Programs *)

Definition null_source (l : local) (s : source) : Prop := ∃ w, source_word l s = Some w ∧ null w = true.
Definition live_source (l : local) (s : source) : Prop := ∃ w, source_word l s = Some w ∧ null w = false.

(** The atomic pointer of a place exists: the variable is not null and the
    object has an [atomic_rc_ptr] there. *)
Definition place_ok (m : mem V) (l : local) (c : place) : Prop :=
  match c with
  | PRoot i => (i < length (m_roots m))%nat
  | PField s k =>
      live_source l s ∧
      ∀ w o v, source_word l s = Some w → m_heap m !! raw w = Some o → storage o = Some v →
        ∃ x, members v !! k = Some (MAtomicRc x)
  end.

(** The object of a pointer variable has an [rc_ptr] as member [k]. *)
Definition rc_member_ok (m : mem V) (l : local) (s : source) (k : nat) : Prop :=
  ∀ w o v, source_word l s = Some w → m_heap m !! raw w = Some o → storage o = Some v →
    ∃ x, members v !! k = Some (MRc x).

(** The object of the variable [r] has no other reference. *)
Definition unshared (m : mem V) (l : local) (r : nat) : Prop :=
  ∀ w o, l_rcs l !! r = Some w → m_heap m !! raw w = Some o → ref_cnt o = 1.

(** A variable that a result may be written to. *)
Definition free_rc (l : local) (dst : nat) : Prop := ∃ w, l_rcs l !! dst = Some w ∧ null w = true.
Definition free_snap (l : local) (dst : nat) : Prop := ∃ w, l_snaps l !! dst = Some (w, None) ∧ null w = true.

(** What a program has to keep to: variables in range, results into null
    variables, no dereference of null, members where the type has them, plain
    members written only while nobody else can see the object; a new object is at
    a fresh, aligned, non-null address. *)
Definition cmd_ok (m : mem V) (l : local) (c : cmd) : Prop :=
  match c with
  | CNew dst a v ks =>
      free_rc l dst ∧ a ≠ 0 ∧ a mod 4 = 0 ∧ m_heap m !! a = None ∧
      NoDup (ks.*2) ∧ dst ∉ ks.*2 ∧ Forall (λ k, (k.2 < length (l_rcs l))%nat) ks
  | CCopy dst s => free_rc l dst ∧ is_Some (source_word l s)
  | CCopyField dst s k => free_rc l dst ∧ live_source l s ∧ rc_member_ok m l s k
  | CMove dst r => free_rc l dst ∧ dst ≠ r ∧ (r < length (l_rcs l))%nat
  | CDrop r => (r < length (l_rcs l))%nat
  | CLoad dst c => free_rc l dst ∧ place_ok m l c
  | CStore c r =>
      place_ok m l c ∧ (r < length (l_rcs l))%nat ∧ (∀ k, c ≠ PField (SRc r) k)
  | CStoreNull c => place_ok m l c
  | CStoreSnap c r => place_ok m l c ∧ (r < length (l_snaps l))%nat
  | CCas c _ s => place_ok m l c ∧ is_Some (source_word l s)
  | CCasField c _ s k => place_ok m l c ∧ live_source l s ∧ rc_member_ok m l s k
  | CCasMove c _ r =>
      place_ok m l c ∧ (r < length (l_rcs l))%nat ∧ (∀ k, c ≠ PField (SRc r) k)
  | CSnapshot dst c => free_snap l dst ∧ place_ok m l c
  | CDropSnap r => (r < length (l_snaps l))%nat
  | CSwapSnap r r' => r ≠ r' ∧ (r < length (l_snaps l))%nat ∧ (r' < length (l_snaps l))%nat
  | CAssignField r k r' =>
      r ≠ r' ∧ live_source l (SRc r) ∧ (r' < length (l_rcs l))%nat ∧
      rc_member_ok m l (SRc r) k ∧ unshared m l r
  | CDeref s => live_source l s
  | CWeak dst r => (dst < length (l_weaks l))%nat ∧ l_weaks l !! dst = Some 0 ∧ is_Some (l_rcs l !! r)
  | CLock dst r => free_rc l dst ∧ (r < length (l_weaks l))%nat
  | CDropWeak r => (r < length (l_weaks l))%nat
  end.

(** The calls above on [rc_ptr], [snapshot_ptr] and [atomic_rc_ptr].  [exchange],
    [swap] and [store_non_racy] of an [atomic_rc_ptr] have no command, and the roots
    are not destroyed. *)
Definition strong_cmd (c : cmd) : Prop :=
  match c with CWeak _ _ | CLock _ _ | CDropWeak _ => False | _ => True end.

(** ** Runs *)

(** No counter is about to overflow. *)
Definition has_room (m : mem V) : Prop :=
  ∀ p o, m_heap m !! p = Some o → strong_room o ∧ weak_room o.

(** Any thread between calls makes one that [allowed] admits, or any thread
    inside one executes its next instruction. *)
Inductive cstep (allowed : cmd → Prop) : cstate V → cstate V → Prop :=
  | cstep_call s tid T c T' m' :
      c_threads s !! tid = Some T → idle T → allowed c → cmd_ok (c_mem s) (t_local T) c →
      call_thread T (c_mem s) c = Ok (T', m') →
      cstep allowed s (CState m' (<[tid := T']> (c_threads s)))
  | cstep_run s tid T T' m' :
      c_threads s !! tid = Some T → ¬ idle T → has_room (c_mem s) →
      run_thread tid T (c_mem s) = Ok (T', m') →
      cstep allowed s (CState m' (<[tid := T']> (c_threads s))).

(** [acquire_retire(num_threads)], null pointers and idle threads with
    [rcs], [snaps] and [weaks] variables. *)
Definition new_local (rcs snaps weaks : nat) : local :=
  Local (replicate rcs 0) (replicate snaps (0, None)) (replicate weaks 0) false false [] 0 0.

Definition machine_init (roots rcs snaps weaks : nat) : cstate V :=
  CState (Mem ∅ (replicate roots 0) (replicate (num_threads * slots_per_thread) 0))
    (replicate num_threads (Thread None [] (new_local rcs snaps weaks))).

End instructions.

(** Opens the next instruction of a thread, or the start of a call. *)
Ltac open_instr :=
  unfold exec_frame, exec_op, call, step_delay, step_delay_weak, step_retire, step_work, step_scan,
    step_apply, step_eject, step_dec, step_weak_dec, step_weak_read, step_assert_zero, step_dispose,
    step_destruct, step_disposed, step_destroy, step_delete, do_acq_load, do_acq_store, do_acq_check,
    do_load_inc, do_load_clear, do_snap_slot, do_snap_load, do_snap_null, do_snap_store,
    do_snap_check, do_snap_inc, do_snap_again, do_snap_clear, do_exchange, do_store_snap,
    do_store_inc, do_inc_exchange, do_reserve, do_cas, do_cas_inc, do_cas_clear, do_cas_move,
    do_cas_moved, do_copy_inc, do_clear_slot, do_deref, do_weak_inc, do_lock_inc, start_new,
    start_copy, start_copy_field, start_move, start_drop, start_load, start_store, start_store_null,
    start_store_snap, start_cas, start_cas_field, start_assign_field, start_cas_move, start_snapshot,
    start_drop_snap, start_swap_snap, start_deref,
    start_weak, start_lock, start_drop_weak.

Ltac instr := open_instr; simpl.
