(* ===== verification/HpInvariant.v ===== *)
(** * The invariant of the hazard-pointer machine

    Every reference that somebody owes to an object is found in one place of
    the state: a pointer variable, an atomic pointer, a member, an entry of a
    deferred list, an instruction in progress.  [owned] counts them.  Some are
    safe from every scan that is going on ([kept]): the atomic pointers, what is
    retired but not scanned, and of what is scanned as many as the announcements
    protect.  The second number depends on which announcements stay, so it is
    stated for every set [B] of announcements: even if all others disappear, the
    references that remain are enough for the increments that their owners still
    have to make, and there is at least one more than those of the snapshots
    ([robust]).  A counter is the number of owned references minus the increments
    that are still to come. *)

From S2P Require Import Prelude StickyCounter CountedObject MemoryManager AtomicLoc AcquireRetire HpMachine.
Local Open Scope nat_scope.

(** ** Sums over a list of natural numbers *)

Lemma sum_insert {A} (f : A → nat) (l : list A) i a b :
  l !! i = Some a → sum_list_with f (<[i:=b]> l) + f a = sum_list_with f l + f b.
Proof.
  revert i. induction l as [|c l IH]; intros [|i] Hi; simplify_eq/=; [lia|].
  specialize (IH _ Hi). lia.
Qed.

Lemma sum_lookup_le {A} (f : A → nat) (l : list A) i a :
  l !! i = Some a → f a ≤ sum_list_with f l.
Proof.
  revert i. induction l as [|c l IH]; intros [|i] Hi; simplify_eq/=; [lia|].
  specialize (IH _ Hi). lia.
Qed.

Lemma sum_mono {A} (f g : A → nat) (l : list A) :
  (∀ i a, l !! i = Some a → f a ≤ g a) → sum_list_with f l ≤ sum_list_with g l.
Proof.
  induction l as [|c l IH]; intros H; simpl; [lia|]. pose proof (H 0 c eq_refl).
  specialize (IH (λ i a Hi, H (S i) a Hi)). lia.
Qed.

Lemma sum_mono_slack {A} (f g : A → nat) (l : list A) i a n :
  (∀ i a, l !! i = Some a → f a ≤ g a) → l !! i = Some a → f a + n ≤ g a →
  sum_list_with f l + n ≤ sum_list_with g l.
Proof.
  intros Hle. revert i Hle. induction l as [|c l IH]; intros [|i] Hle Hi Ha; simplify_eq/=.
  - pose proof (sum_mono f g l (λ i b Hb, Hle (S i) b Hb)). lia.
  - pose proof (Hle 0 c eq_refl). specialize (IH i (λ i b Hb, Hle (S i) b Hb) Hi Ha). lia.
Qed.

Lemma sum_two {A} (f : A → nat) (l : list A) i j a b :
  i ≠ j → l !! i = Some a → l !! j = Some b → f a + f b ≤ sum_list_with f l.
Proof.
  revert i j. induction l as [|c l IH]; intros [|i] [|j] Hne Hi Hj; simplify_eq/=.
  - pose proof (sum_lookup_le f _ _ _ Hj). lia.
  - pose proof (sum_lookup_le f _ _ _ Hi). lia.
  - specialize (IH i j ltac:(lia) Hi Hj). lia.
Qed.

Lemma sum_pos {A} (f : A → nat) (l : list A) :
  0 < sum_list_with f l → ∃ i a, l !! i = Some a ∧ 0 < f a.
Proof.
  induction l as [|c l IH]; simpl; [lia|]. intros H. destruct (decide (0 < f c)).
  - by exists 0, c.
  - destruct IH as (i & a & ? & ?); [lia|]. by exists (S i), a.
Qed.

Lemma sum_zero {A} (f : A → nat) (l : list A) :
  (∀ i a, l !! i = Some a → f a = 0) → sum_list_with f l = 0.
Proof.
  induction l as [|c l IH]; intros H; simpl; [done|]. rewrite (H 0 c eq_refl).
  by rewrite (IH (λ i a Hi, H (S i) a Hi)).
Qed.

Lemma sum_plus {A} (f g : A → nat) (l : list A) :
  sum_list_with (λ a, f a + g a) l = sum_list_with f l + sum_list_with g l.
Proof. induction l; simpl; lia. Qed.

Lemma sum_reverse {A} (f : A → nat) (ms : list A) : sum_list_with f (reverse ms) = sum_list_with f ms.
Proof. apply sum_list_with_perm, reverse_Permutation. Qed.

Lemma msum_mono {K A} `{Countable K} (f g : A → nat) (m : gmap K A) :
  (∀ a, f a ≤ g a) → msum f m ≤ msum g m.
Proof. intros Hfg. unfold msum. apply sum_mono. intros i [k a] _. apply Hfg. Qed.

(** ** References *)

Section references.
  Context {V : Type} `{!Policy}.
  Implicit Types (p w : Z) (l : local) (m : mem V) (B : nat → bool).

Definition one (P : Prop) `{!Decision P} : nat := if decide P then 1 else 0.

(** The word [w] is a reference to [p]. *)
Definition hit p w : nat := one (raw w = p).

Definition strong_entry p (e : hp_entry) : nat := one (e = (p, decrement_strong_count)).
Definition entries p (d : list hp_entry) : nat := sum_list_with (strong_entry p) d.

Definition own_member p (x : member) : nat :=
  match x with MRc w | MAtomicRc w => hit p w | _ => 0 end.
Definition kept_member p (x : member) : nat :=
  match x with MAtomicRc w => hit p w | _ => 0 end.

Definition in_object (f : member → nat) (o : counted_object V) : nat :=
  match storage o with Some v => sum_list_with f (members v) | None => 0 end.

(** References in shared memory. *)
Definition own_mem p m : nat :=
  sum_list_with (hit p) (m_roots m) + msum (in_object (own_member p)) (m_heap m).
Definition kept_mem p m : nat :=
  sum_list_with (hit p) (m_roots m) + msum (in_object (kept_member p)) (m_heap m).

(** The announcements in [B] from slot [i] on. *)
Definition ahead B (i n : nat) : nat := countb B (seq i (n - i)).

(** How many decrements of [p] the map of a scan protects: one more than the
    announcements it has counted, if there are any. *)
Definition protects (a : gmap hp_entry nat) p : nat :=
  default 0 (a !! ((p, decrement_strong_count) : hp_entry)).
Definition seen (a : gmap hp_entry nat) p : nat := pred (protects a p).

(** How many decrements of [p] a scan keeps that has still to read the
    announcements in [B] from slot [i] on. *)
Definition allowance B (i n : nat) (a : gmap hp_entry nat) p : nat :=
  let k := seen a p + ahead B i n in if decide (k = 0) then 0 else S k.

(** A decrement that has not subtracted yet. *)
Definition before_sub (c : pc) : bool :=
  match c with LoadRead | LoadCas | DecSub _ => true | _ => false end.

Definition own_frame p (f : frame) : nat :=
  match f with
  | FDelay q _ => one (q = p)
  | FRetire q ty | FEject q ty => strong_entry p (q, ty)
  | FScan _ _ d => entries p d
  | FApply _ d k => entries p d + entries p k
  | FDec q c => if before_sub c then one (q = p) else 0
  | FDestruct _ ms _ => sum_list_with (own_member p) ms
  | _ => 0
  end.

Definition kept_frame B (n : nat) p (f : frame) : nat :=
  match f with
  | FDelay q _ => one (q = p)
  | FRetire q ty => strong_entry p (q, ty)
  | FScan i a d => entries p d `min` allowance B i n a p
  | FApply a d k => entries p k + (entries p d `min` protects a p)
  | FDestruct _ ms _ => sum_list_with (kept_member p) ms
  | _ => 0
  end.

Definition own_op p (o : op) : nat :=
  match o with
  | OLoadClear _ w | OSnapClear _ _ w Counted | OExchange _ w | OCasMove _ _ w _ => hit p w
  | OStoreInc _ old _ => hit p old
  | _ => 0
  end.

Definition kept_op p (o : op) : nat :=
  match o with OStoreInc _ old _ => hit p old | _ => 0 end.

(** Increments to come: those that an announcement in [B] of a snapshot covers,
    those that a reservation in [B] covers of a pointer that is in a member of an
    object, and those that a variable of the thread covers. *)
Definition due_op B p (o : op) : nat :=
  match o with
  | OStoreInc w _ k | OCasInc w (BySlot k) => if B k then hit p w else 0
  | _ => 0
  end.
Definition soft_op B p (o : op) : nat :=
  match o with OCasInc w (ByField k) => if B k then hit p w else 0 | _ => 0 end.
Definition due_reserved p (o : op) : nat :=
  match o with OCasInc w ByVar => hit p w | _ => 0 end.

Definition on_op (f : op → nat) (T : thread) : nat :=
  match t_op T with Some o => f o | None => 0 end.

Definition own_vars p l : nat :=
  sum_list_with (hit p) (l_rcs l) +
  sum_list_with (λ a : snapshot, match a.2 with None => hit p a.1 | Some _ => 0 end) (l_snaps l).

Definition own_thread p (T : thread) : nat :=
  on_op (own_op p) T + sum_list_with (own_frame p) (t_stack T) +
  own_vars p (t_local T) + entries p (l_deferred (t_local T)).
Definition kept_thread B n p (T : thread) : nat :=
  on_op (kept_op p) T + sum_list_with (kept_frame B n p) (t_stack T) +
  entries p (l_deferred (t_local T)).
Definition due_thread B p (T : thread) : nat := on_op (due_op B p) T.
Definition soft_thread B p (T : thread) : nat := on_op (soft_op B p) T.
Definition reserved_thread p (T : thread) : nat := on_op (due_reserved p) T.

Definition all_slots : nat → bool := λ _, true.

Definition slot_count (s : cstate V) : nat := length (m_slots (c_mem s)).

Definition owned (s : cstate V) p : nat :=
  own_mem p (c_mem s) + sum_list_with (own_thread p) (c_threads s).
Definition kept (s : cstate V) B p : nat :=
  kept_mem p (c_mem s) + sum_list_with (kept_thread B (slot_count s) p) (c_threads s).
Definition due (s : cstate V) B p : nat := sum_list_with (due_thread B p) (c_threads s).
Definition soft (s : cstate V) B p : nat := sum_list_with (soft_thread B p) (c_threads s).
Definition reserved (s : cstate V) p : nat := sum_list_with (reserved_thread p) (c_threads s).

(** All increments to come. *)
Definition dues (s : cstate V) p : nat := due s all_slots p + soft s all_slots p + reserved s p.

(** ** Announcements that protect *)

(** The announcements of a thread that protect an object: of its snapshots, of
    an increment after [acquire], of a reservation whose increment is to come. *)
Definition op_holds (tid : nat) (o : op) : list (nat * Z) :=
  match o with
  | OLoadInc _ w | OSnapInc _ _ w | OCasInc w ByVar => [(main_slot tid, raw w)]
  | OCasInc w (ByField k) => [(k, raw w)]
  | _ => []
  end.
Definition snap_holds (a : snapshot) : list (nat * Z) :=
  match a with (w, Some k) => [(k, raw w)] | _ => [] end.
Definition holds (tid : nat) (T : thread) : list (nat * Z) :=
  match t_op T with Some o => op_holds tid o | None => [] end ++
  concat (snap_holds <$> l_snaps (t_local T)).

Definition held (s : cstate V) (k : nat) p : Prop :=
  ∃ tid T, c_threads s !! tid = Some T ∧ (k, p) ∈ holds tid T.

Definition robust (s : cstate V) : Prop :=
  ∀ p B, p ≠ 0%Z → (∀ k, B k = true → held s k p) → (∃ k, B k = true) →
    due s B p + max 1 (soft s B p) ≤ kept s B p.

(** ** Objects on their way out *)

Inductive stage := SDec | SZero | SDestruct | SDisposed.

#[local] Instance stage_eq_dec : EqDecision stage.
Proof. solve_decision. Defined.

Definition stage_of (f : frame) : option (Z * stage) :=
  match f with
  | FDec q c => if before_sub c then None else Some (q, SDec)
  | FWeakRead q _ | FDispose q _ => Some (q, SZero)
  | FDestruct q _ _ | FDisposed q _ => Some (q, SDestruct)
  | FDestroy q _ | FDelete q => Some (q, SDisposed)
  | _ => None
  end.

Definition stage_frame p (st : stage) (f : frame) : nat := one (stage_of f = Some (p, st)).
Definition stage_thread p (st : stage) (T : thread) : nat :=
  sum_list_with (stage_frame p st) (t_stack T).
Definition staged (s : cstate V) p (st : stage) : nat :=
  sum_list_with (stage_thread p st) (c_threads s).

Definition strong_member (x : member) : Prop :=
  match x with MRc _ | MAtomicRc _ => True | _ => False end.

Definition whole (o : counted_object V) : Prop :=
  weak_cnt o = 1%Z ∧ disposed o = false ∧
  ∃ v, storage o = Some v ∧ Forall strong_member (members v).

Definition live_obj (o : counted_object V) : Prop :=
  (0 < ref_cnt o < 2 ^ 30)%Z ∧ whole o.

Definition stage_ok (st : stage) (o : counted_object V) : Prop :=
  match st with
  | SDec => ref_cnt o = 0%Z ∧ whole o
  | SZero => ref_cnt o = zero_flag cnt_width ∧ whole o
  | SDestruct => ref_cnt o = zero_flag cnt_width ∧ weak_cnt o = 1%Z ∧ disposed o = false ∧ storage o = None
  | SDisposed => ref_cnt o = zero_flag cnt_width ∧ disposed o = true ∧ storage o = None
  end.

(** What the counters of an object have to do with the references to it: an
    object without references is in the hands of one thread that destroys it. *)
Definition object_ok (ho : option (counted_object V)) (own dues : nat) (stages : stage → nat) : Prop :=
  match ho with
  | None => own = 0 ∧ ∀ st, stages st = 0
  | Some o =>
      (live_obj o ∧ Z.of_nat own = (ref_cnt o + Z.of_nat dues)%Z ∧ ∀ st, stages st = 0) ∨
      (own = 0 ∧ ∃ st, stage_ok st o ∧ ∀ st', stages st' = one (st' = st))
  end.

(** ** Threads *)

Definition strong_entries (d : list hp_entry) : Prop :=
  Forall (λ e : hp_entry, e.1 ≠ 0%Z ∧ e.2 = decrement_strong_count) d.

Definition counts_two (a : gmap hp_entry nat) : Prop := ∀ e k, a !! e = Some k → 2 ≤ k.

Definition frame_ok (f : frame) : Prop :=
  match f with
  | FDelay p c => p ≠ 0%Z ∧ c = LoadRead
  | FRetire p ty | FEject p ty => p ≠ 0%Z ∧ ty = decrement_strong_count
  | FWork => True
  | FScan _ a d => strong_entries d ∧ counts_two a
  | FApply _ d k => strong_entries d ∧ strong_entries k
  | FDec p c => p ≠ 0%Z ∧ (c = LoadRead ∨ c = DecSub 1 ∨ c = DecCas)
  | FWeakRead p c | FDestroy p c => p ≠ 0%Z ∧ c = LoadRead
  | FDispose p delayed | FDisposed p delayed => p ≠ 0%Z ∧ delayed = false
  | FDestruct p ms delayed => p ≠ 0%Z ∧ delayed = false ∧ Forall strong_member ms
  | FDelete p => p ≠ 0%Z
  | FDelayWeak _ _ | FWeakDec _ _ | FAssertZero _ _ => False
  end.

(** The value at a location inside an object, while the object has one. *)
Definition member_of m p (k : nat) (x : member) : Prop :=
  ∃ o v, m_heap m !! p = Some o ∧ storage o = Some v ∧ members v !! k = Some x.

(** A variable of the thread refers to [p]. *)
Definition points l p : Prop := p ≠ 0%Z ∧ ∃ s w, source_word l s = Some w ∧ raw w = p.

Definition loc_ok m l (c : loc) : Prop :=
  match c with
  | LCell i => i < length (m_roots m)
  | LField p k => points l p ∧ ∃ w, member_of m p k (MAtomicRc w)
  end.

(** The thread owns a counted reference in a variable. *)
Definition owner l w : Prop :=
  (∃ r, l_rcs l !! r = Some w) ∨ (∃ r, l_snaps l !! r = Some (w, None)).

Definition announces m (k : nat) p : Prop := m_slots m !! k = Some p.

Definition unused l (k : nat) : Prop := ∀ r w, l_snaps l !! r ≠ Some (w, Some k).

Definition own_slot (tid : nat) l (j : nat) : Prop := j < snapshot_slots ∧ unused l (snap_slot tid j).

Definition real w : Prop := raw w ≠ 0%Z.

Definition protected_snap l w (k : nat) : Prop := real w ∧ ∃ r, l_snaps l !! r = Some (w, Some k).

(** The word is in a plain member of an object that the thread refers to. *)
Definition in_member m l w : Prop := ∃ p k, points l p ∧ member_of m p k (MRc w).

(** Where the reference is that a copy is made of. *)
Definition copy_source m l w : Prop :=
  (∃ s, source_word l s = Some w) ∨ in_member m l w.

Definition free_dst (u : acq_use) l (dst : nat) : Prop :=
  match u with ForLoad => free_rc l dst | ForSnapshot => free_snap l dst end.

Definition op_ok (tid : nat) m l (o : op) : Prop :=
  match o with
  | OAcqLoad u c dst | OAcqStore u c dst _ => loc_ok m l c ∧ free_dst u l dst
  | OAcqCheck u c dst w => loc_ok m l c ∧ free_dst u l dst ∧ announces m (main_slot tid) (raw w)
  | OLoadInc dst w => free_rc l dst ∧ real w ∧ announces m (main_slot tid) (raw w)
  | OLoadClear dst w => free_rc l dst
  | OSnapSlot c dst j => loc_ok m l c ∧ free_snap l dst
  | OSnapLoad c dst j => loc_ok m l c ∧ free_snap l dst ∧ own_slot tid l j
  | OSnapNull dst j w => free_snap l dst ∧ own_slot tid l j ∧ raw w = 0%Z
  | OSnapStore c dst j w => loc_ok m l c ∧ free_snap l dst ∧ own_slot tid l j ∧ real w
  | OSnapCheck c dst j w =>
      loc_ok m l c ∧ free_snap l dst ∧ own_slot tid l j ∧ real w ∧ announces m (snap_slot tid j) (raw w)
  | OSnapInc c dst w => loc_ok m l c ∧ free_snap l dst ∧ real w ∧ announces m (main_slot tid) (raw w)
  | OSnapAgain c dst w | OSnapClear c dst w _ => loc_ok m l c ∧ free_snap l dst
  | OExchange c w => loc_ok m l c
  | OStoreSnap c w k => loc_ok m l c ∧ protected_snap l w k
  | OStoreInc w old k => protected_snap l w k
  | OIncExchange c w => loc_ok m l c ∧ real w ∧ owner l w
  | OReserve c e d field => loc_ok m l c ∧ if field then in_member m l d else owner l d
  | OCas c e d (BySlot k) => loc_ok m l c ∧ protected_snap l d k
  | OCas c e d ByVar => loc_ok m l c ∧ owner l d ∧ announces m (main_slot tid) (raw d)
  | OCas c e d (ByField k) =>
      loc_ok m l c ∧ in_member m l d ∧ k = main_slot tid ∧ announces m (main_slot tid) (raw d)
  | OCasInc d (BySlot k) => protected_snap l d k
  | OCasInc d ByVar => real d ∧ owner l d ∧ announces m (main_slot tid) (raw d)
  | OCasInc d (ByField k) =>
      real d ∧ in_member m l d ∧ k = main_slot tid ∧ announces m (main_slot tid) (raw d)
  | OCasClear d cov b => True
  | OCasMove c e d r => loc_ok m l c ∧ free_rc l r
  | OCasMoved => True
  | OCopyInc dst w => free_rc l dst ∧ real w ∧ copy_source m l w
  | OClearSlot k => ∃ j, k = snap_slot tid j ∧ own_slot tid l j
  | ODeref p => points l p
  | OWeakInc _ _ | OLockInc _ _ => False
  end.

(** The snapshots of a thread are in distinct slots of its own, which announce
    them. *)
Definition snaps_ok (tid : nat) m l : Prop :=
  (∀ r w k, l_snaps l !! r = Some (w, Some k) →
     real w ∧ announces m k (raw w) ∧ ∃ j, j < snapshot_slots ∧ k = snap_slot tid j) ∧
  (∀ r r' w w' k, l_snaps l !! r = Some (w, Some k) → l_snaps l !! r' = Some (w', Some k) → r = r').

Record thread_ok (tid : nat) m (T : thread) : Prop := {
  ok_op : match t_op T with Some o => op_ok tid m (t_local T) o | None => True end;
  ok_stack : Forall frame_ok (t_stack T);
  ok_deferred : strong_entries (l_deferred (t_local T));
  ok_snaps : snaps_ok tid m (t_local T)
}.

(** The part of the invariant that the counters have no share in. *)
Record tinv (s : cstate V) : Prop := {
  inv_slots : slot_count s = length (c_threads s) * slots_per_thread;
  inv_thread : ∀ tid T, c_threads s !! tid = Some T → thread_ok tid (c_mem s) T;
  inv_robust : robust s
}.

Record minv (s : cstate V) : Prop := {
  inv_tinv : tinv s;
  inv_null : m_heap (c_mem s) !! 0%Z = None;
  inv_object : ∀ p, p ≠ 0%Z →
    object_ok (m_heap (c_mem s) !! p) (owned s p) (dues s p) (staged s p)
}.

End references.

#[export] Existing Instance stage_eq_dec.

(** Arithmetic on slot numbers. *)
Ltac slot_lia := unfold main_slot, snap_slot, slots_per_thread, snapshot_slots in *; lia.

(** Case analysis on an instruction, the reservation of a [compare_and_swap]
    included. *)
Ltac destruct_op o :=
  destruct o; repeat match goal with cov : cover |- _ => destruct cov end; simpl in *; try lia.
