(* ===== verification/HpFacts.v ===== *)
(** * Facts about the references of the hazard-pointer machine

    What the invariant gives to a thread that is about to use a pointer: the
    object it refers to is alive ([owned_live], [held_live_obj], [points_live]);
    and how the counts move with the set of announcements. *)

From S2P Require Import Prelude StickyCounter CountedObject MemoryManager AtomicLoc AcquireRetire HpMachine HpInvariant.
Local Open Scope nat_scope.

Lemma one_true (P : Prop) `{!Decision P} : P → one P = 1.
Proof. intros. unfold one. by rewrite decide_True. Qed.

Lemma one_false (P : Prop) `{!Decision P} : ¬ P → one P = 0.
Proof. intros. unfold one. by rewrite decide_False. Qed.

Lemma one_le (P : Prop) `{!Decision P} : one P ≤ 1.
Proof. unfold one. case_decide; lia. Qed.

Section facts.
  Context {V : Type} `{Pol : !Policy}.
  Implicit Types (p w : Z) (l : local) (m : mem V) (B : nat → bool) (s : cstate V) (T : thread).

Lemma hit_same p w : raw w = p → hit p w = 1.
Proof. apply one_true. Qed.

Lemma hit_other p w : raw w ≠ p → hit p w = 0.
Proof. apply one_false. Qed.

Lemma entries_nil p : entries p [] = 0.
Proof. done. Qed.

Lemma entries_cons p e d : entries p (e :: d) = strong_entry p e + entries p d.
Proof. done. Qed.

Lemma entries_app p d1 d2 : entries p (d1 ++ d2) = entries p d1 + entries p d2.
Proof. apply sum_list_with_app. Qed.

(** ** The set of announcements *)

Lemma ahead_mono B B' i n : (∀ k, B k = true → B' k = true) → ahead B i n ≤ ahead B' i n.
Proof. intros H. by apply countb_le. Qed.

Lemma allowance_mono B B' i n a p :
  (∀ k, B k = true → B' k = true) → allowance B i n a p ≤ allowance B' i n a p.
Proof.
  intros H. pose proof (ahead_mono B B' i n H). unfold allowance. repeat case_decide; lia.
Qed.

Lemma kept_frame_mono B B' n p f :
  (∀ k, B k = true → B' k = true) → kept_frame B n p f ≤ kept_frame B' n p f.
Proof. intros H. destruct f; simpl; try lia. pose proof (allowance_mono B B' i n announced p H). lia. Qed.

Lemma kept_mono s B B' p : (∀ k, B k = true → B' k = true) → kept s B p ≤ kept s B' p.
Proof.
  intros H. unfold kept. apply Nat.add_le_mono_l, sum_mono. intros tid T _. unfold kept_thread.
  assert (sum_list_with (kept_frame B (slot_count s) p) (t_stack T) ≤
          sum_list_with (kept_frame B' (slot_count s) p) (t_stack T)); [|lia].
  apply sum_mono. intros i f _. by apply kept_frame_mono.
Qed.

Lemma due_op_mono B B' p o :
  (∀ k, B k = true → B' k = true) → due_op B p o ≤ due_op B' p o ∧ soft_op B p o ≤ soft_op B' p o.
Proof.
  intros H. destruct_op o; match goal with |- context [B ?k] => specialize (H k); destruct (B k) end;
    try (rewrite H by done); lia.
Qed.

Lemma due_mono s B B' p : (∀ k, B k = true → B' k = true) → due s B p ≤ due s B' p.
Proof.
  intros H. apply sum_mono. intros tid T _. unfold due_thread, on_op. destruct (t_op T); [|lia].
  by apply due_op_mono.
Qed.

Lemma soft_mono s B B' p : (∀ k, B k = true → B' k = true) → soft s B p ≤ soft s B' p.
Proof.
  intros H. apply sum_mono. intros tid T _. unfold soft_thread, on_op. destruct (t_op T); [|lia].
  by apply due_op_mono.
Qed.

(** ** What protects what *)

Lemma kept_frame_le B n p f : kept_frame B n p f ≤ own_frame p f.
Proof.
  destruct f; simpl; try lia. apply sum_mono. intros i [] _; simpl; lia.
Qed.

Lemma kept_mem_le p m : kept_mem p m ≤ own_mem p m.
Proof.
  unfold kept_mem, own_mem. apply Nat.add_le_mono_l, msum_mono. intros o. unfold in_object.
  destruct (storage o) as [v|]; [|done]. apply sum_mono. intros i [] _; simpl; lia.
Qed.

(** A plain member is owned and not kept. *)
Lemma member_not_kept m q k w : member_of m q k (MRc w) → kept_mem (raw w) m < own_mem (raw w) m.
Proof.
  intros (o & v & Ho & Hv & Hk). unfold kept_mem, own_mem. apply Nat.add_lt_mono_l.
  rewrite !(msum_delete _ (m_heap m) q o Ho). apply Nat.add_lt_le_mono.
  - unfold in_object. rewrite Hv. revert k Hk. generalize (members v). intros ms.
    induction ms as [|x ms IH]; intros [|k] Hk; simplify_eq/=.
    + rewrite hit_same by done. apply Nat.lt_succ_r, sum_mono. intros i [] _; simpl; lia.
    + specialize (IH _ Hk). destruct x; simpl; lia.
  - apply msum_mono. intros ob. unfold in_object. destruct (storage ob); [|done].
    apply sum_mono. intros i [] _; simpl; lia.
Qed.

Lemma owner_owned l w : owner l w → 0 < own_vars (raw w) l.
Proof.
  unfold own_vars. intros [[r Hr]|[r Hr]].
  - pose proof (sum_lookup_le (hit (raw w)) _ _ _ Hr) as H. rewrite hit_same in H by done. lia.
  - pose proof (sum_lookup_le (λ a : snapshot, match a.2 with None => hit (raw w) a.1 | _ => 0 end) _ _ _ Hr) as H.
    simpl in H. rewrite hit_same in H by done. lia.
Qed.

Lemma kept_thread_le tid m B n p T :
  thread_ok tid m T → kept_thread B n p T + reserved_thread p T ≤ own_thread p T.
Proof.
  intros [Hop _ _ _]. unfold kept_thread, reserved_thread, own_thread, on_op.
  assert (sum_list_with (kept_frame B n p) (t_stack T) ≤ sum_list_with (own_frame p) (t_stack T))
    by (apply sum_mono; intros i f _; apply kept_frame_le).
  destruct (t_op T) as [o|]; [|lia].
  enough (kept_op p o + due_reserved p o ≤ own_op p o + own_vars p (t_local T)) by lia.
  destruct_op o. unfold hit, one. case_decide as Hp; [|lia]. subst p.
  destruct Hop as (_ & Ho & _). pose proof (owner_owned _ _ Ho). lia.
Qed.

(** The pointer of an increment that a reservation of a member covers. *)
Lemma soft_member s B p :
  tinv s → 0 < soft s B p → ∃ q k w, member_of (c_mem s) q k (MRc w) ∧ raw w = p.
Proof.
  intros Hi (tid & T & HT & Hd)%sum_pos. unfold soft_thread, on_op in Hd.
  destruct (t_op T) as [o|] eqn:Ho; [|lia].
  pose proof (ok_op _ _ _ (inv_thread _ Hi _ _ HT)) as Hop. rewrite Ho in Hop.
  destruct_op o. destruct Hop as (_ & (q & i & _ & Hm) & _). exists q, i, desired. split; [done|].
  destruct (B k); [|lia]. unfold hit, one in Hd. case_decide; [done|lia].
Qed.

Lemma kept_mem_soft s B p : tinv s → kept_mem p (c_mem s) + min 1 (soft s B p) ≤ own_mem p (c_mem s).
Proof.
  intros Hi. pose proof (kept_mem_le p (c_mem s)). destruct (decide (0 < soft s B p)) as [Hs|]; [|lia].
  destruct (soft_member s B p Hi Hs) as (q & k & w & Hm & <-). pose proof (member_not_kept _ _ _ _ Hm). lia.
Qed.

Lemma kept_owned s B B' p : tinv s → kept s B p + reserved s p + min 1 (soft s B' p) ≤ owned s p.
Proof.
  intros Hi. unfold kept, reserved, owned. pose proof (kept_mem_soft s B' p Hi).
  enough (sum_list_with (kept_thread B (slot_count s) p) (c_threads s) +
          sum_list_with (reserved_thread p) (c_threads s) ≤ sum_list_with (own_thread p) (c_threads s)) by lia.
  rewrite <-sum_plus. apply sum_mono. intros tid T HT.
  by eapply kept_thread_le, inv_thread.
Qed.

Lemma snap_hold T tid r w k :
  l_snaps (t_local T) !! r = Some (w, Some k) → (k, raw w) ∈ holds tid T.
Proof.
  intros Hr. unfold holds. apply elem_of_app. right. apply list_elem_of_In, in_concat.
  exists [(k, raw w)]. rewrite <-!list_elem_of_In. split; [|by left].
  apply list_elem_of_fmap. exists (w, Some k). split; [done|]. by eapply list_elem_of_lookup_2.
Qed.

Lemma hold_cases tid T k p :
  (k, p) ∈ holds tid T →
  (∃ o, t_op T = Some o ∧ (k, p) ∈ op_holds tid o) ∨
  (∃ r w, l_snaps (t_local T) !! r = Some (w, Some k) ∧ raw w = p).
Proof.
  unfold holds. intros [H|H]%elem_of_app.
  - left. destruct (t_op T) as [o|]; [eauto|by apply elem_of_nil in H].
  - right. apply list_elem_of_In, in_concat in H as (x & Hx & Hin). rewrite <-list_elem_of_In in Hx. rewrite <-list_elem_of_In in Hin.
    apply list_elem_of_fmap in Hx as ([w [k'|]] & -> & Hw); simpl in Hin; [|by apply elem_of_nil in Hin].
    apply list_elem_of_singleton in Hin as [= -> ->]. apply list_elem_of_lookup in Hw as [r Hr]. eauto.
Qed.

(** A protecting announcement is in a slot of the thread and announces the
    object, which is not null. *)
Lemma hold_announces tid m T k p :
  thread_ok tid m T → (k, p) ∈ holds tid T →
  p ≠ 0%Z ∧ announces m k p ∧ tid * slots_per_thread ≤ k < tid * slots_per_thread + slots_per_thread.
Proof.
  intros [Hop _ _ [Hs _]] [(o & Ho & Hk)|(r & w & Hr & <-)]%hold_cases.
  - rewrite Ho in Hop.
    assert (∀ w, real w → announces m (main_slot tid) (raw w) → (k, p) ∈ [(main_slot tid, raw w)] →
      p ≠ 0%Z ∧ announces m k p ∧ tid * slots_per_thread ≤ k < tid * slots_per_thread + slots_per_thread) as Hmain.
    { intros w Hr Ha [= -> ->]%list_elem_of_singleton. split; [done|]. split; [done|].
      slot_lia. }
    destruct_op o; try (by apply elem_of_nil in Hk); eapply Hmain; try exact Hk; naive_solver.
  - destruct (Hs _ _ _ Hr) as (Hw & Ha & j & Hj & ->). split; [done|]. split; [done|].
    slot_lia.
Qed.

Lemma soft_held s B p : 0 < soft s B p → ∃ k, B k = true ∧ held s k p.
Proof.
  intros (tid & T & HT & Hd)%sum_pos. unfold soft_thread, on_op in Hd.
  destruct (t_op T) as [o|] eqn:Ho; [|lia]. destruct_op o. exists k. destruct (B k); [|lia]. split; [done|].
  exists tid, T. split; [done|]. unfold holds. rewrite Ho. apply elem_of_app. left.
  unfold hit, one in Hd. case_decide as E; [|lia]. rewrite <-E. by left.
Qed.

Lemma due_held s B p : tinv s → 0 < due s B p → ∃ k, B k = true ∧ held s k p.
Proof.
  intros Hi (tid & T & HT & Hd)%sum_pos. unfold due_thread, on_op in Hd.
  destruct (t_op T) as [o|] eqn:Ho; [|lia].
  pose proof (ok_op _ _ _ (inv_thread _ Hi _ _ HT)) as Hop. rewrite Ho in Hop.
  assert (∀ w k, protected_snap (t_local T) w k → 0 < (if B k then hit p w else 0) →
    ∃ k, B k = true ∧ held s k p) as Hsnap.
  { intros w k (_ & r & Hr) Hpos. exists k. destruct (B k); [|lia]. split; [done|].
    exists tid, T. split; [done|]. unfold hit, one in Hpos. case_decide as Hw; [|lia]. subst p.
    by eapply snap_hold. }
  destruct_op o; eauto.
Qed.

Lemma held_kept s k p : tinv s → p ≠ 0%Z → held s k p → 0 < kept s (λ k', bool_decide (k' = k)) p.
Proof.
  intros Hi Hp Hk. set (B := λ k', bool_decide (k' = k)).
  enough (due s B p + max 1 (soft s B p) ≤ kept s B p) by lia.
  apply (inv_robust s Hi); [done| |].
  - by intros k' ->%bool_decide_eq_true.
  - exists k. by apply bool_decide_eq_true.
Qed.

Lemma held_nonnull s k p : tinv s → held s k p → p ≠ 0%Z.
Proof. intros Hi (tid & T & HT & Hk). by eapply hold_announces; [eapply inv_thread|]. Qed.

Lemma held_owned s k p : tinv s → held s k p → 0 < owned s p.
Proof.
  intros Hi Hk. pose proof (held_kept s k p Hi (held_nonnull _ _ _ Hi Hk) Hk).
  pose proof (kept_owned s (λ k', bool_decide (k' = k)) all_slots p Hi). lia.
Qed.

Lemma own_thread_le s tid T p : c_threads s !! tid = Some T → own_thread p T ≤ owned s p.
Proof. intros HT. pose proof (sum_lookup_le (own_thread p) _ _ _ HT). unfold owned. lia. Qed.

(** An object that somebody owes a reference to is alive. *)
Lemma owned_live s p :
  minv s → p ≠ 0%Z → 0 < owned s p →
  ∃ o, m_heap (c_mem s) !! p = Some o ∧ live_obj o ∧
       Z.of_nat (owned s p) = (ref_cnt o + Z.of_nat (dues s p))%Z ∧
       ∀ st, staged s p st = 0.
Proof.
  intros Hi Hp Ho. pose proof (inv_object s Hi p Hp) as H. unfold object_ok in H.
  destruct (m_heap (c_mem s) !! p) as [o|]; [|lia].
  destruct H as [(?&?&?)|[? _]]; [eauto|lia].
Qed.

Lemma source_owned s tid T src w :
  tinv s → c_threads s !! tid = Some T → source_word (t_local T) src = Some w → real w → 0 < owned s (raw w).
Proof.
  intros Hi HT Hw Hr. pose proof (own_thread_le s tid T (raw w) HT) as Hle. unfold own_thread in Hle.
  destruct src as [r|r]; simpl in Hw.
  - pose proof (owner_owned (t_local T) w (or_introl (ex_intro _ r Hw))). lia.
  - destruct (l_snaps (t_local T) !! r) as [[w' [k|]]|] eqn:Hs; simplify_eq/=.
    + eapply held_owned; [done|]. exists tid, T. split; [done|]. by eapply snap_hold.
    + pose proof (owner_owned (t_local T) w (or_intror (ex_intro _ r Hs))). lia.
Qed.

Lemma points_owned s tid T p :
  tinv s → c_threads s !! tid = Some T → points (t_local T) p → 0 < owned s p.
Proof. intros Hi HT (Hp & src & w & Hw & <-). by eapply source_owned. Qed.

Lemma member_owned s p k x q :
  own_member q x = 1 → member_of (c_mem s) p k x → 0 < owned s q.
Proof.
  intros Hx (o & v & Ho & Hv & Hk). unfold owned, own_mem.
  pose proof (msum_delete (in_object (own_member q)) _ _ _ Ho) as Hm.
  assert (1 ≤ in_object (own_member q) o); [|lia].
  unfold in_object. rewrite Hv. pose proof (sum_lookup_le (own_member q) _ _ _ Hk). lia.
Qed.

Lemma copy_owned s tid T w :
  tinv s → c_threads s !! tid = Some T → real w → copy_source (c_mem s) (t_local T) w → 0 < owned s (raw w).
Proof.
  intros Hi HT Hr [[src Hw]|(p & k & Hp & Hm)]; [by eapply source_owned|].
  eapply member_owned; [|exact Hm]. by apply hit_same.
Qed.

(** ** At most one increment to come per thread *)

Lemma due_op_le B p o : due_op B p o + soft_op B p o ≤ 1.
Proof.
  destruct_op o; match goal with |- context [B ?k] => destruct (B k) end; rewrite ?Nat.add_0_r; try lia; apply one_le.
Qed.

Lemma countb_seq_pos B i n k : B k = true → i ≤ k < i + n → 0 < countb B (seq i n).
Proof. intros Hk Hi. apply countb_pos. exists k. split; [|done]. apply elem_of_seq. lia. Qed.

Lemma due_thread_slots tid m B p T :
  thread_ok tid m T →
  due_thread B p T + soft_thread B p T ≤ countb B (seq (tid * slots_per_thread) slots_per_thread).
Proof.
  intros Hok. unfold due_thread, soft_thread, on_op. destruct (t_op T) as [o|] eqn:Ho; [|lia].
  pose proof (due_op_le B p o). destruct (decide (due_op B p o + soft_op B p o = 0)); [lia|].
  pose proof (ok_op _ _ _ Hok) as Hop. rewrite Ho in Hop. destruct (ok_snaps _ _ _ Hok) as [Hs _].
  enough (∃ k, B k = true ∧ tid * slots_per_thread ≤ k < tid * slots_per_thread + slots_per_thread) as (k & Hk & Hr).
  { pose proof (countb_seq_pos B _ _ k Hk Hr). lia. }
  assert (∀ w k, protected_snap (t_local T) w k → (if B k then hit p w else 0) ≠ 0 →
    ∃ k, B k = true ∧ tid * slots_per_thread ≤ k < tid * slots_per_thread + slots_per_thread) as Hsnap.
  { intros w k (_ & r & Hr) Hne. exists k. destruct (B k); [|done]. split; [done|].
    destruct (Hs _ _ _ Hr) as (_ & _ & j & Hj & ->). slot_lia. }
  destruct_op o; rewrite ?Nat.add_0_r in *; eauto.
  destruct Hop as (_ & _ & -> & _). exists (main_slot tid). destruct (B (main_slot tid)); [|done].
  split; [done|]. slot_lia.
Qed.

Lemma sum_slots B (f : nat → thread → nat) (l : list thread) i :
  (∀ j T, l !! j = Some T → f (i + j) T ≤ countb B (seq ((i + j) * slots_per_thread) slots_per_thread)) →
  sum_list (imap (λ j T, f (i + j) T) l) ≤ countb B (seq (i * slots_per_thread) (length l * slots_per_thread)).
Proof.
  revert i. induction l as [|T l IH]; intros i H; [simpl; lia|].
  simpl length. rewrite imap_cons. simpl sum_list.
  replace (S (length l) * slots_per_thread) with (slots_per_thread + length l * slots_per_thread) by lia.
  rewrite seq_app, countb_app. pose proof (H 0 T eq_refl) as H0. rewrite Nat.add_0_r in *.
  specialize (IH (S i)). replace (i * slots_per_thread + slots_per_thread) with (S i * slots_per_thread) by lia.
  assert (imap ((λ j T, f (i + j) T) ∘ S) l = imap (λ j T, f (S i + j) T) l) as ->.
  { apply imap_ext. intros j x _. simpl. f_equal. lia. }
  enough (sum_list (imap (λ j T, f (S i + j) T) l) ≤
          countb B (seq (S i * slots_per_thread) (length l * slots_per_thread))) by lia.
  apply IH. intros j x Hj. replace (S i + j) with (i + S j) by lia. by apply H.
Qed.

(** The increments to come that announcements in [B] cover are at most as many
    as there are announcements in [B]. *)
Lemma due_ahead s B p : tinv s → due s B p + soft s B p ≤ ahead B 0 (slot_count s).
Proof.
  intros Hi. unfold due, soft, ahead. rewrite Nat.sub_0_r, (inv_slots s Hi), <-sum_plus.
  pose proof (sum_slots B (λ _ T, due_thread B p T + soft_thread B p T) (c_threads s) 0) as H. simpl in H.
  replace (sum_list_with (λ T, due_thread B p T + soft_thread B p T) (c_threads s)) with
    (sum_list (imap (λ _ T, due_thread B p T + soft_thread B p T) (c_threads s))); [apply H|].
  - intros tid T HT. eapply due_thread_slots. by eapply inv_thread.
  - clear. generalize (c_threads s). intros l. induction l as [|T l IH]; [done|]. simpl. f_equal. exact IH.
Qed.

Lemma held_ahead s B k p : tinv s → held s k p → B k = true → 0 < ahead B 0 (slot_count s).
Proof.
  intros Hi (tid & T & HT & Hk) HB.
  destruct (hold_announces _ _ _ _ _ (inv_thread _ Hi _ _ HT) Hk) as (_ & Ha & _).
  apply lookup_lt_Some in Ha. unfold ahead. rewrite Nat.sub_0_r. eapply countb_seq_pos; [done|].
  unfold slot_count. lia.
Qed.

(** The set of all announcements that protect [p]. *)
Definition holders s p (k : nat) : bool :=
  existsb (λ T : nat * thread, bool_decide ((k, p) ∈ holds T.1 T.2)) (imap pair (c_threads s)).

Lemma holders_held s p k : holders s p k = true ↔ held s k p.
Proof.
  unfold holders. rewrite existsb_exists. split.
  - intros ([tid T] & Hin & Hk%bool_decide_eq_true). rewrite <-list_elem_of_In in Hin.
    apply elem_of_lookup_imap in Hin as (i & x & [= <- <-] & Hx). by exists tid, T.
  - intros (tid & T & HT & Hk). exists (tid, T). split; [|by apply bool_decide_eq_true].
    rewrite <-list_elem_of_In. apply elem_of_lookup_imap. eauto.
Qed.

Lemma soft_holders s p : soft s all_slots p = soft s (holders s p) p.
Proof.
  apply Nat.le_antisymm; [|by apply soft_mono]. apply sum_mono. intros tid T HT.
  unfold soft_thread, on_op. destruct (t_op T) as [o|] eqn:Ho; [|lia].
  destruct_op o. unfold hit, one. case_decide as E; [|destruct (holders _ _ _); lia].
  enough (holders s p k = true) as -> by done. apply holders_held. exists tid, T. split; [done|].
  unfold holds. rewrite Ho. apply elem_of_app. left. rewrite <-E. by left.
Qed.

Lemma due_holders s p : tinv s → due s all_slots p = due s (holders s p) p.
Proof.
  intros Hi. apply Nat.le_antisymm; [|by apply due_mono]. apply sum_mono. intros tid T HT.
  unfold due_thread, on_op. destruct (t_op T) as [o|] eqn:Ho; [|lia].
  destruct (decide (due_op all_slots p o = 0)) as [->|Hn]; [lia|].
  pose proof (ok_op _ _ _ (inv_thread _ Hi _ _ HT)) as Hop. rewrite Ho in Hop.
  assert (∀ w k, protected_snap (t_local T) w k → hit p w ≠ 0 → holders s p k = true) as Hsn.
  { intros w k (_ & r & Hr') Hw. apply holders_held. exists tid, T. split; [done|].
    unfold hit, one in Hw. case_decide as E; [|done]. rewrite <-E. by eapply snap_hold. }
  destruct_op o; by erewrite Hsn.
Qed.

Lemma reserved_held s p : 0 < reserved s p → ∃ k, held s k p.
Proof.
  intros (tid & T & HT & Hres)%sum_pos. unfold reserved_thread, on_op in Hres.
  destruct (t_op T) as [o|] eqn:Ho; [|lia]. exists (main_slot tid), tid, T. split; [done|].
  unfold holds. rewrite Ho. apply elem_of_app. left.
  destruct_op o. unfold hit, one in Hres. case_decide as E; [|lia]. rewrite E. by left.
Qed.

(** Without an announcement no increment is to come. *)
Lemma no_dues s p : tinv s → (∀ k, ¬ held s k p) → dues s p = 0.
Proof.
  intros Hi Hnone. unfold dues.
  destruct (decide (0 < due s all_slots p)) as [(k & _ & Hk)%due_held|]; [by apply Hnone in Hk|done|].
  destruct (decide (0 < soft s all_slots p)) as [(k & _ & Hk)%soft_held|]; [by apply Hnone in Hk|].
  destruct (decide (0 < reserved s p)) as [[k Hk]%reserved_held|]; [by apply Hnone in Hk|lia].
Qed.

(** With one, more references are kept or in members than the announced
    increments account for. *)
Lemma dues_kept s p k :
  tinv s → held s k p → ∃ B, dues s p < kept s B p + reserved s p + min 1 (soft s all_slots p).
Proof.
  intros Hi Hk. exists (holders s p). unfold dues. rewrite (due_holders s p Hi), (soft_holders s p).
  pose proof (inv_robust s Hi p (holders s p) (held_nonnull _ _ _ Hi Hk) (λ k, proj1 (holders_held s p k))) as H.
  specialize (H (ex_intro _ k (proj2 (holders_held s p k) Hk))). lia.
Qed.

Lemma held_decide s p : tinv s → (∃ k, held s k p) ∨ (∀ k, ¬ held s k p).
Proof.
  intros Hi. destruct (decide (0 < ahead (holders s p) 0 (slot_count s))) as [Hpos|Hno].
  - left. apply countb_pos in Hpos as (k & _ & Hk). exists k. by apply holders_held.
  - right. intros k Hk. apply Hno. eapply held_ahead; [done..|]. by apply holders_held.
Qed.

(** An object that only increments to come refer to does not exist: what
    protects them would be counted. *)
Lemma zero_count_free s p :
  tinv s → owned s p = dues s p → owned s p = 0.
Proof.
  intros Hi Heq. destruct (held_decide s p Hi) as [[k Hk]|Hno]; [|by rewrite Heq, no_dues].
  destruct (dues_kept s p k Hi Hk) as [B HB]. pose proof (kept_owned s B all_slots p Hi). lia.
Qed.

(** ** Objects that one variable refers to *)

Lemma kept_owned_vars s tid T B B' p :
  tinv s → c_threads s !! tid = Some T → reserved_thread p T = 0 →
  kept s B p + reserved s p + min 1 (soft s B' p) + own_vars p (t_local T) ≤ owned s p.
Proof.
  intros Hi HT Hr. unfold kept, reserved, owned. pose proof (kept_mem_soft s B' p Hi).
  enough (sum_list_with (kept_thread B (slot_count s) p) (c_threads s) +
          sum_list_with (reserved_thread p) (c_threads s) + own_vars p (t_local T) ≤
          sum_list_with (own_thread p) (c_threads s)) by lia.
  rewrite <-sum_plus. eapply sum_mono_slack; [|exact HT|].
  - intros u U HU. by eapply kept_thread_le, inv_thread.
  - rewrite Hr. unfold kept_thread, own_thread, on_op.
    assert (sum_list_with (kept_frame B (slot_count s) p) (t_stack T) ≤ sum_list_with (own_frame p) (t_stack T))
      by (apply sum_mono; intros i f _; apply kept_frame_le).
    destruct (t_op T) as [o|]; [|lia]. assert (kept_op p o ≤ own_op p o) by destruct_op o. lia.
Qed.

(** An object with count one, whose reference is in a variable, has no other
    reference and no announcement protects it. *)
Lemma unshared_alone s tid T p o :
  minv s → c_threads s !! tid = Some T → reserved_thread p T = 0 → p ≠ 0%Z → 0 < own_vars p (t_local T) →
  m_heap (c_mem s) !! p = Some o → ref_cnt o = 1%Z → owned s p = 1 ∧ ∀ k, ¬ held s k p.
Proof.
  intros Hi HT Hr Hp Hv Ho H1. pose proof (inv_tinv s Hi) as Ht.
  pose proof (λ B, kept_owned_vars s tid T B all_slots p Ht HT Hr) as Hle.
  destruct (owned_live s p Hi Hp) as (o' & Ho' & _ & Hc & _); [specialize (Hle all_slots); lia|]. simplify_eq.
  destruct (held_decide s p Ht) as [[k Hk]|Hno].
  - destruct (dues_kept s p k Ht Hk) as [B HB]. specialize (Hle B). lia.
  - split; [|done]. rewrite (no_dues s p Ht Hno) in Hc. lia.
Qed.

(** No other thread refers to it. *)
Lemma alone_points s tid T u U p :
  tinv s → c_threads s !! tid = Some T → c_threads s !! u = Some U → u ≠ tid →
  0 < own_vars p (t_local T) → owned s p = 1 → (∀ k, ¬ held s k p) → ¬ points (t_local U) p.
Proof.
  intros Hi HT HU Hne Hv H1 Hno (Hp & src & w & Hw & <-).
  pose proof (sum_two (own_thread (raw w)) _ _ _ _ _ Hne HU HT) as H2.
  assert (0 < own_vars (raw w) (t_local U)); [|unfold owned, own_thread in *; lia].
  destruct src as [r|r]; simpl in Hw; [apply owner_owned; left; eauto|].
  destruct (l_snaps (t_local U) !! r) as [[w' [k|]]|] eqn:Hs; simplify_eq/=; [|apply owner_owned; right; eauto].
  destruct (Hno k). exists u, U. split; [done|]. by eapply snap_hold.
Qed.

End facts.
