(* ===== verification/HpEffects.v ===== *)
(** * What a step does to the invariant of the hazard-pointer machine

    The instructions fall into a few classes by what they do to the references:
    nothing ([minv_silent]), an increment, a subtraction, a write to an atomic
    pointer, a step of the destruction of an object, a new object.  Each class
    has one lemma here, which asks only how the references of the running thread
    and of the memory it wrote changed. *)

From S2P Require Import Prelude StickyCounter CountedObject MemoryManager AtomicLoc AcquireRetire HpMachine HpInvariant HpFacts.
Local Open Scope nat_scope.

Section effects.
  Context {V : Type} `{Pol : !Policy}.
  Implicit Types (p q w : Z) (l : local) (m : mem V) (B : nat → bool) (s : cstate V) (T : thread).

(** The state after thread [tid] has become [T'] and the memory [m']. *)
Definition after s (tid : nat) T' m' : cstate V := CState m' (<[tid := T']> (c_threads s)).

Definition dues_thread p T : nat :=
  due_thread all_slots p T + soft_thread all_slots p T + reserved_thread p T.

(** ** How the sums change *)

Section sums.
  Context s (tid : nat) T T' m' (HT : c_threads s !! tid = Some T).

Lemma owned_after p :
  owned (after s tid T' m') p + own_mem p (c_mem s) + own_thread p T =
  owned s p + own_mem p m' + own_thread p T'.
Proof. unfold owned, after; simpl. pose proof (sum_insert (own_thread p) _ _ _ T' HT). lia. Qed.

Lemma kept_after B p :
  length (m_slots m') = slot_count s →
  kept (after s tid T' m') B p + kept_mem p (c_mem s) + kept_thread B (slot_count s) p T =
  kept s B p + kept_mem p m' + kept_thread B (slot_count s) p T'.
Proof.
  intros Hn. unfold kept, after, slot_count in *; simpl. rewrite Hn.
  pose proof (sum_insert (kept_thread B (length (m_slots (c_mem s))) p) _ _ _ T' HT). lia.
Qed.

Lemma due_after B p :
  due (after s tid T' m') B p + due_thread B p T = due s B p + due_thread B p T'.
Proof. exact (sum_insert (due_thread B p) _ _ _ T' HT). Qed.

Lemma soft_after B p :
  soft (after s tid T' m') B p + soft_thread B p T = soft s B p + soft_thread B p T'.
Proof. exact (sum_insert (soft_thread B p) _ _ _ T' HT). Qed.

Lemma reserved_after p :
  reserved (after s tid T' m') p + reserved_thread p T = reserved s p + reserved_thread p T'.
Proof. exact (sum_insert (reserved_thread p) _ _ _ T' HT). Qed.

Lemma dues_after p : dues (after s tid T' m') p + dues_thread p T = dues s p + dues_thread p T'.
Proof.
  pose proof (due_after all_slots p). pose proof (soft_after all_slots p). pose proof (reserved_after p).
  unfold dues, dues_thread. lia.
Qed.

Lemma staged_after p st :
  staged (after s tid T' m') p st + stage_thread p st T = staged s p st + stage_thread p st T'.
Proof. exact (sum_insert (stage_thread p st) _ _ _ T' HT). Qed.

Lemma held_after k p :
  held (after s tid T' m') k p → (k, p) ∈ holds tid T' ∨ held s k p.
Proof.
  intros (u & U & HU & Hk). unfold after in HU; simpl in HU. destruct (decide (u = tid)) as [->|Hne].
  - rewrite list_lookup_insert_eq in HU by (by eapply lookup_lt_Some). simplify_eq. by left.
  - rewrite list_lookup_insert_ne in HU by done. right. by exists u, U.
Qed.
End sums.

(** ** What the other threads rely on *)

Definition same_kind (x x' : member) : Prop :=
  match x with
  | MAtomicRc _ => ∃ w, x' = MAtomicRc w
  | _ => x' = x
  end.

(** The slots of other threads keep their announcements, and the members of
    objects that are alive stay where they are. *)
Record evolves s (tid : nat) m' : Prop := {
  ev_roots : length (m_roots m') = length (m_roots (c_mem s));
  ev_slots : length (m_slots m') = slot_count s;
  ev_others : ∀ k, k < tid * slots_per_thread ∨ tid * slots_per_thread + slots_per_thread ≤ k →
    m_slots m' !! k = m_slots (c_mem s) !! k;
  ev_members : ∀ p k x, 0 < owned s p → member_of (c_mem s) p k x →
    ∃ x', member_of m' p k x' ∧ same_kind x x'
}.

Lemma evolves_refl s tid : evolves s tid (c_mem s).
Proof. constructor; try done. intros p k x _ Hm. exists x. split; [done|]. destruct x; simpl; eauto. Qed.

(** The members that a thread can reach stay where they are. *)
Definition keeps_members m m' l : Prop :=
  ∀ p k x, points l p → member_of m p k x → ∃ x', member_of m' p k x' ∧ same_kind x x'.

Lemma evolves_keeps s tid m' u U :
  tinv s → c_threads s !! u = Some U → evolves s tid m' → keeps_members (c_mem s) m' (t_local U).
Proof. intros Hi HU Hev p k x Hp. apply (ev_members _ _ _ Hev). by eapply points_owned. Qed.

Section keeps.
  Context m m' l (Hroots : length (m_roots m') = length (m_roots m)) (Hkeep : keeps_members m m' l).

Lemma loc_ok_keeps c : loc_ok m l c → loc_ok m' l c.
Proof.
  destruct c as [i|p k]; simpl; [by rewrite Hroots|].
  intros [Hp [w Hw]]. split; [done|]. destruct (Hkeep _ _ _ Hp Hw) as (x' & Hx & w' & ->). eauto.
Qed.

Lemma member_keeps w : in_member m l w → in_member m' l w.
Proof.
  intros (p & k & Hp & Hm). exists p, k. split; [done|]. by destruct (Hkeep _ _ _ Hp Hm) as (x' & Hx & ->).
Qed.

Lemma op_ok_keeps u o :
  (∀ k p, announces m k p → u * slots_per_thread ≤ k < u * slots_per_thread + slots_per_thread → announces m' k p) →
  op_ok u m l o → op_ok u m' l o.
Proof.
  intros Ha. pose proof loc_ok_keeps as Hl. pose proof member_keeps as Hc.
  assert (∀ p, announces m (main_slot u) p → announces m' (main_slot u) p) as Hm.
  { intros p Hp. apply Ha; [done|]. slot_lia. }
  assert (∀ j p, j < snapshot_slots → announces m (snap_slot u j) p → announces m' (snap_slot u j) p) as Hs.
  { intros j p Hj Hp. apply Ha; [done|]. slot_lia. }
  destruct_op o; unfold own_slot, copy_source in *; try case_match; intuition eauto.
Qed.
End keeps.

Lemma op_ok_evolves s tid m' u U o :
  tinv s → c_threads s !! u = Some U → evolves s tid m' →
  (∀ k p, announces (c_mem s) k p → u * slots_per_thread ≤ k < u * slots_per_thread + slots_per_thread →
     announces m' k p) →
  op_ok u (c_mem s) (t_local U) o → op_ok u m' (t_local U) o.
Proof. intros Hi HU Hev. apply op_ok_keeps; [apply Hev|by eapply evolves_keeps]. Qed.

Lemma thread_ok_keeps s tid m' u U :
  tinv s → c_threads s !! u = Some U → u ≠ tid → length (m_roots m') = length (m_roots (c_mem s)) →
  (∀ k, k < tid * slots_per_thread ∨ tid * slots_per_thread + slots_per_thread ≤ k →
    m_slots m' !! k = m_slots (c_mem s) !! k) →
  keeps_members (c_mem s) m' (t_local U) → thread_ok u m' U.
Proof.
  intros Hi HU Hne Hr Hsl Hkeep. destruct (inv_thread _ Hi _ _ HU) as [Hop Hst Hd [Hs1 Hs2]].
  assert (∀ k p, announces (c_mem s) k p → u * slots_per_thread ≤ k < u * slots_per_thread + slots_per_thread →
    announces m' k p) as Ha.
  { intros k p Hk Hk'. unfold announces. rewrite Hsl; [done|]. slot_lia. }
  constructor; [|done..|].
  - destruct (t_op U); [|done]. by eapply op_ok_keeps.
  - split; [|done]. intros r w k Hrw. destruct (Hs1 _ _ _ Hrw) as (Hw & Hk & j & Hj & ->).
    split; [done|]. split; [|eauto]. apply Ha; [done|]. slot_lia.
Qed.

(** ** Robustness *)

Section robust.
  Context s (tid : nat) T T' m' (Hi : tinv s) (HT : c_threads s !! tid = Some T).
  Context (Hn : length (m_slots m') = slot_count s).

(** Announcements go away, and kept references at most by as many as increments
    that were to come. *)
Lemma robust_shrink :
  (∀ k p, (k, p) ∈ holds tid T' → (k, p) ∈ holds tid T) →
  (∀ p B, p ≠ 0%Z →
     kept_mem p (c_mem s) + kept_thread B (slot_count s) p T + due_thread B p T' ≤
     kept_mem p m' + kept_thread B (slot_count s) p T' + due_thread B p T ∧
     soft_thread B p T' ≤ soft_thread B p T) →
  robust (after s tid T' m').
Proof.
  intros Hh Hk p B Hp HB Hex. pose proof (kept_after s tid T T' m' HT B p Hn).
  pose proof (due_after s tid T T' m' HT B p). pose proof (soft_after s tid T T' m' HT B p). specialize (Hk p B Hp).
  assert (due s B p + max 1 (soft s B p) ≤ kept s B p); [|lia]. apply (inv_robust s Hi); [done| |done].
  intros k Hb. destruct (held_after s tid T T' m' HT k p (HB k Hb)) as [Hin|]; [|done].
  exists tid, T. auto.
Qed.

(** A new announcement of an object that an atomic pointer refers to. *)
Lemma robust_grow k0 p0 :
  (∀ k p, (k, p) ∈ holds tid T' → (k, p) = (k0, p0) ∨ (k, p) ∈ holds tid T) →
  (∀ p, ¬ held s k0 p) →
  0 < kept_mem p0 m' →
  (∀ p B, p ≠ 0%Z →
     kept_mem p (c_mem s) + kept_thread B (slot_count s) p T + (soft_thread B p T' - soft_thread B p T) ≤
     kept_mem p m' + kept_thread B (slot_count s) p T' ∧
     due_thread B p T' ≤ due_thread B p T) →
  robust (after s tid T' m').
Proof.
  intros Hh Hnew Hmem Hk p B Hp HB [k1 Hk1].
  pose proof (kept_after s tid T T' m' HT B p Hn). pose proof (due_after s tid T T' m' HT B p).
  pose proof (soft_after s tid T T' m' HT B p). destruct (Hk p B Hp) as [Hk' Hd'].
  set (B0 := λ k, B k && bool_decide (k ≠ k0)).
  assert (∀ k, B0 k = true → B k = true) as Hsub by (unfold B0; intros k; destruct (B k); done).
  assert (∀ k, B0 k = true → held s k p) as HB0.
  { intros k Hb. pose proof (Hsub k Hb) as Hb'. destruct (held_after s tid T T' m' HT k p (HB k Hb')) as [Hin|]; [|done].
    destruct (Hh k p Hin) as [[= -> ->]|]; [|by exists tid, T].
    unfold B0 in Hb. rewrite bool_decide_false in Hb by auto. by rewrite andb_false_r in Hb. }
  assert (due s B p = due s B0 p) as Hdue.
  { apply Nat.le_antisymm; [|by apply due_mono]. apply sum_mono. intros u U HU.
    unfold due_thread, on_op. destruct (t_op U) as [o|] eqn:Ho; [|lia].
    destruct (decide (due_op B p o = 0)) as [->|Hne]; [lia|].
    pose proof (ok_op _ _ _ (inv_thread _ Hi _ _ HU)) as Hop. rewrite Ho in Hop.
    assert (∀ w k, protected_snap (t_local U) w k → (if B k then hit p w else 0) ≠ 0 → B0 k = true) as Hsn.
    { intros w k (_ & r & Hr) Hw. unfold B0. destruct (B k); [|done]. apply bool_decide_eq_true. intros ->.
      apply (Hnew (raw w)). exists u, U. split; [done|]. by eapply snap_hold. }
    destruct_op o;
      match goal with H : protected_snap _ ?w ?k |- _ => rewrite (Hsn w k H Hne); destruct (B k); lia end. }
  assert (soft s B p = soft s B0 p) as Hsoft.
  { apply Nat.le_antisymm; [|by apply soft_mono]. apply sum_mono. intros u U HU.
    unfold soft_thread, on_op. destruct (t_op U) as [o|] eqn:Ho; [|lia]. destruct_op o.
    unfold B0. destruct (B k); simpl; [|lia]. rewrite bool_decide_true; [lia|]. intros ->.
    apply (Hnew (raw desired)). exists u, U. split; [done|]. unfold holds. rewrite Ho. apply elem_of_app. left. by left. }
  pose proof (kept_mono s B0 B p Hsub).
  destruct (decide (0 < ahead B0 0 (slot_count s))) as [(k & _ & Hb)%countb_pos|Hno].
  - assert (due s B0 p + max 1 (soft s B0 p) ≤ kept s B0 p) by (apply (inv_robust s Hi); eauto). lia.
  - assert (∀ k, B0 k ≠ true) as Hempty.
    { intros k Hb. apply Hno. eapply held_ahead; eauto. }
    assert (due s B0 p = 0) as Hz.
    { destruct (decide (due s B0 p = 0)); [done|].
      destruct (due_held s B0 p Hi) as (k & Hb & _); [lia|]. by apply Hempty in Hb. }
    assert (soft s B0 p = 0) as Hz'.
    { destruct (decide (soft s B0 p = 0)); [done|].
      destruct (soft_held s B0 p) as (k & Hb & _); [lia|]. by apply Hempty in Hb. }
    assert (soft_thread B p T' ≤ 1).
    { unfold soft_thread, on_op. destruct (t_op T') as [o|]; [|lia]. pose proof (due_op_le B p o). lia. }
    assert (k1 = k0 ∧ p = p0) as [-> ->].
    { assert (k1 = k0) as ->.
      { destruct (decide (k1 = k0)) as [|Hne]; [done|]. destruct (Hempty k1). unfold B0.
        by rewrite Hk1, bool_decide_true. }
      destruct (held_after s tid T T' m' HT k0 p (HB k0 Hk1)) as [Hin|Hin]; [|by apply Hnew in Hin].
      destruct (Hh k0 p Hin) as [[= ->]|Hin']; [done|]. exfalso. apply (Hnew p). by exists tid, T. }
    assert (kept_mem p0 m' ≤ kept (after s tid T' m') B p0) by (unfold kept, after; simpl; lia). lia.
Qed.

(** A scan starts with a list [d]: it keeps as many as are announced. *)
Lemma robust_scan d :
  (∀ k p, (k, p) ∈ holds tid T' → (k, p) ∈ holds tid T) →
  (∀ p B, due_thread B p T' = due_thread B p T ∧ soft_thread B p T' = soft_thread B p T) →
  (∀ p, kept_mem p m' = kept_mem p (c_mem s)) →
  (∀ p B, ∃ x, kept_thread B (slot_count s) p T = x + entries p d ∧
     kept_thread B (slot_count s) p T' = x + (entries p d `min` allowance B 0 (slot_count s) ∅ p)) →
  robust (after s tid T' m').
Proof.
  intros Hh Hd Hm Hk p B Hp HB [k1 Hk1]. pose proof (kept_after s tid T T' m' HT B p Hn).
  pose proof (due_after s tid T T' m' HT B p). pose proof (soft_after s tid T T' m' HT B p).
  destruct (Hk p B) as (x & Hx & Hx'). destruct (Hd p B) as [Hd1 Hd2]. rewrite Hm in *.
  pose proof (sum_lookup_le (kept_thread B (slot_count s) p) _ _ _ HT) as Hle.
  assert (sum_list_with (kept_thread B (slot_count s) p) (c_threads s) ≤ kept s B p) by (unfold kept; lia).
  assert (∀ k, B k = true → held s k p) as HB'.
  { intros k Hb. destruct (held_after s tid T T' m' HT k p (HB k Hb)) as [Hin|]; [|done]. exists tid, T. auto. }
  assert (due s B p + max 1 (soft s B p) ≤ kept s B p) by (apply (inv_robust s Hi); eauto).
  pose proof (due_ahead s B p Hi). pose proof (held_ahead s B k1 p Hi (HB' k1 Hk1) Hk1).
  assert (allowance B 0 (slot_count s) ∅ p = S (ahead B 0 (slot_count s))) as Hal.
  { unfold allowance, seen, protects. rewrite lookup_empty. simpl. case_decide; lia. }
  rewrite Hal in *. lia.
Qed.
End robust.

(** ** The whole invariant *)

(** What the step leaves to the other threads. *)
Record others_ok s (tid : nat) m' : Prop := {
  oth_slots : length (m_slots m') = slot_count s;
  oth_threads : ∀ u U, c_threads s !! u = Some U → u ≠ tid → thread_ok u m' U
}.

Lemma evolves_others s tid m' : minv s → evolves s tid m' → others_ok s tid m'.
Proof.
  intros Hi Hev. constructor; [apply Hev|]. intros u U HU Hne.
  eapply thread_ok_keeps; [apply Hi|done|done|apply Hev|apply Hev|]. by eapply evolves_keeps; [apply Hi|..].
Qed.

Section whole.
  Context s (tid : nat) T T' m' (Hi : minv s) (HT : c_threads s !! tid = Some T).
  Context (Hoth : others_ok s tid m') (Hok : thread_ok tid m' T').

Lemma tinv_after : robust (after s tid T' m') → tinv (after s tid T' m').
Proof.
  intros Hr. destruct Hi as [Ht _ _]. constructor; [|intros u U HU|done].
  - unfold after, slot_count; simpl. rewrite length_insert, (oth_slots _ _ _ Hoth). apply Ht.
  - simpl in *. destruct (decide (u = tid)) as [->|Hne].
    + rewrite list_lookup_insert_eq in HU by (by eapply lookup_lt_Some). by simplify_eq.
    + rewrite list_lookup_insert_ne in HU by done. by eapply oth_threads.
Qed.

(** The objects, one by one, with the new sums given by how they changed. *)
Lemma minv_after :
  m_heap m' !! 0%Z = None →
  (∀ p own' dues' stages', p ≠ 0%Z →
     own' + own_mem p (c_mem s) + own_thread p T = owned s p + own_mem p m' + own_thread p T' →
     dues' + dues_thread p T = dues s p + dues_thread p T' →
     (∀ st, stages' st + stage_thread p st T = staged s p st + stage_thread p st T') →
     object_ok (m_heap m' !! p) own' dues' stages') →
  robust (after s tid T' m') → minv (after s tid T' m').
Proof.
  intros H0 Hobj Hr. constructor; [by apply tinv_after|done|]. intros p Hp.
  apply Hobj; [done|by apply owned_after|by apply dues_after|by intros; apply staged_after].
Qed.

End whole.

Lemma object_ok_eq (ho : option (counted_object V)) own own' d d' st st' :
  object_ok ho own d st → own' = own → d' = d → (∀ x, st' x = st x) → object_ok ho own' d' st'.
Proof.
  intros H -> -> E. destruct ho as [o|]; simpl in *.
  - destruct H as [(?&?&Hs)|(?&x&?&Hs)]; [left|right]; [split_and!; try done|split; [done|]; exists x; split; [done|]];
      intros y; by rewrite E.
  - destruct H as [? Hs]. split; [done|]. intros y. by rewrite E.
Qed.

Section minv.
  Context s (tid : nat) T T' m' (Hi : minv s) (HT : c_threads s !! tid = Some T).
  Context (Hoth : others_ok s tid m') (Hok : thread_ok tid m' T').

(** A step that moves references but touches no object. *)
Lemma minv_silent :
  m_heap m' = m_heap (c_mem s) → m_roots m' = m_roots (c_mem s) →
  (∀ p, p ≠ 0%Z → own_thread p T' = own_thread p T) →
  (∀ p, p ≠ 0%Z → dues_thread p T' = dues_thread p T) →
  (∀ p st, stage_thread p st T' = stage_thread p st T) →
  robust (after s tid T' m') → minv (after s tid T' m').
Proof.
  intros Hh Hrt Ho Hd Hst Hr. eapply minv_after; [done|exact HT|done|done|rewrite Hh; apply Hi| |done].
  intros p own' d' st' Hp E1 E2 E3. rewrite Hh. rewrite (Ho p Hp) in E1. rewrite (Hd p Hp) in E2.
  assert (own_mem p m' = own_mem p (c_mem s)) by (unfold own_mem; by rewrite Hh, Hrt).
  eapply object_ok_eq; [apply (inv_object s Hi p Hp)|lia|lia|].
  intros x. specialize (E3 x). rewrite Hst in E3. lia.
Qed.

(** An increment of the counter of [q]: one more reference, or one increment
    less to come. *)
Lemma minv_increment q o :
  q ≠ 0%Z → m_heap (c_mem s) !! q = Some o → 0 < owned s q → strong_room o →
  m' = Mem (<[q := set_ref_cnt (ref_cnt o + 1) o]> (m_heap (c_mem s))) (m_roots (c_mem s)) (m_slots m') →
  (∀ p, p ≠ 0%Z → p ≠ q → own_thread p T' = own_thread p T ∧ dues_thread p T' = dues_thread p T) →
  own_thread q T' + dues_thread q T = own_thread q T + dues_thread q T' + 1 →
  (∀ p st, stage_thread p st T' = stage_thread p st T) →
  robust (after s tid T' m') → minv (after s tid T' m').
Proof.
  intros Hq Hqo Hown Hroom Hm Hne Heq Hst Hr.
  assert (∀ p, own_mem p m' = own_mem p (c_mem s)) as Hom.
  { intros p. rewrite Hm. unfold own_mem; simpl. f_equal. by apply msum_insert_same with o. }
  eapply minv_after; [done|exact HT|done|done|rewrite Hm; simpl; rewrite lookup_insert_ne by done; apply Hi| |done].
  intros p own' d' st' Hp E1 E2 E3. rewrite Hom in E1. rewrite Hm; simpl.
  assert (∀ x, st' x = staged s p x) as E3' by (intros x; specialize (E3 x); rewrite Hst in E3; lia).
  destruct (decide (p = q)) as [->|Hpq].
  - rewrite lookup_insert_eq. destruct (owned_live s q Hi Hq Hown) as (o' & Ho' & [Hl1 Hl2] & Hc & Hs).
    simplify_eq. left. split_and!; [|simpl; lia|intros x; by rewrite E3'].
    split; [|done]. simpl. destruct Hroom as [_ Hroom].
    change (2 ^ (cnt_width - 2))%Z with (2 ^ 30)%Z in Hroom.
    rewrite (low_eq cnt_width (ref_cnt o) 0) in Hroom
      by (change (2 ^ (cnt_width - 2))%Z with (2 ^ 30)%Z; lia). lia.
  - rewrite lookup_insert_ne by done. destruct (Hne p Hp Hpq) as [H1 H2].
    eapply object_ok_eq; [apply (inv_object s Hi p Hp)|lia|lia|done].
Qed.

(** A subtraction from the counter of [q]: one reference less.  If it was the
    last one the thread has the object to destroy. *)
Lemma minv_subtract q o :
  q ≠ 0%Z → m_heap (c_mem s) !! q = Some o → 0 < owned s q →
  m' = Mem (<[q := set_ref_cnt (ref_cnt o - 1) o]> (m_heap (c_mem s))) (m_roots (c_mem s)) (m_slots m') →
  (∀ p, p ≠ q → own_thread p T' = own_thread p T) →
  (∀ p, dues_thread p T' = dues_thread p T) →
  own_thread q T = S (own_thread q T') →
  (∀ p st, stage_thread p st T' =
     stage_thread p st T + one (p = q ∧ st = SDec ∧ ref_cnt o = 1%Z)) →
  robust (after s tid T' m') → minv (after s tid T' m').
Proof.
  intros Hq Hqo Hown Hm Hne Hd Heq Hst Hr.
  assert (∀ p, own_mem p m' = own_mem p (c_mem s)) as Hom.
  { intros p. rewrite Hm. unfold own_mem; simpl. f_equal. by apply msum_insert_same with o. }
  destruct (owned_live s q Hi Hq Hown) as (o' & Ho' & [Hl1 Hl2] & Hc & Hs). simplify_eq.
  assert (ref_cnt o = 1%Z → owned (after s tid T' m') q = 0) as Hzero.
  { intros H1. apply zero_count_free; [by eapply tinv_after|].
    pose proof (owned_after s tid T T' m' HT q) as X. pose proof (dues_after s tid T T' m' HT q) as Y.
    rewrite Hom in X. rewrite Hd in Y. lia. }
  pose proof (owned_after s tid T T' m' HT q) as Hoq.
  eapply minv_after; [done|exact HT|done|done|rewrite Hm; simpl; rewrite lookup_insert_ne by done; apply Hi| |done].
  intros p own' d' st' Hp E1 E2 E3. rewrite Hom in E1. rewrite Hd in E2. rewrite Hm; simpl.
  destruct (decide (p = q)) as [->|Hpq].
  - rewrite lookup_insert_eq. rewrite Hom in Hoq.
    destruct (decide (ref_cnt o = 1%Z)) as [H1|H1].
    + right. specialize (Hzero H1). split; [lia|]. exists SDec. split.
      * split; [simpl; lia|exact Hl2].
      * intros st. specialize (E3 st). rewrite Hst, Hs in E3. unfold one in *. repeat case_decide; naive_solver lia.
    + left. split_and!; [split; [simpl; lia|exact Hl2]|simpl; lia|].
      intros st. specialize (E3 st). rewrite Hst, Hs in E3. rewrite one_false in E3 by naive_solver. lia.
  - rewrite lookup_insert_ne by done. rewrite (Hne p Hpq) in E1.
    eapply object_ok_eq; [apply (inv_object s Hi p Hp)|lia|lia|].
    intros st. specialize (E3 st). rewrite Hst, one_false in E3 by naive_solver. lia.
Qed.

(** The object that a frame of the thread is destroying. *)
Lemma staged_object q st :
  q ≠ 0%Z → 0 < stage_thread q st T →
  ∃ o, m_heap (c_mem s) !! q = Some o ∧ stage_ok st o ∧ owned s q = 0 ∧
       ∀ st', staged s q st' = one (st' = st).
Proof.
  intros Hq Hpos. pose proof (sum_lookup_le (stage_thread q st) _ _ _ HT) as Hle.
  assert (0 < staged s q st) as Hpos' by (unfold staged; lia).
  pose proof (inv_object s Hi q Hq) as H. unfold object_ok in H.
  destruct (m_heap (c_mem s) !! q) as [o|]; [|destruct H as [_ H]; rewrite H in Hpos'; lia].
  destruct H as [(_ & _ & H)|(Ho & st' & Hst & H)]; [rewrite H in Hpos'; lia|].
  exists o. rewrite H in Hpos'. unfold one in Hpos'. case_decide; [|lia]. subst st'. auto.
Qed.

(** A step of the destruction of [q], from stage [st] to [st'].  References may
    move from the object to the thread. *)
Lemma minv_stage q o' st st' :
  q ≠ 0%Z → 0 < stage_thread q st T → stage_ok st' o' →
  m_heap m' = <[q := o']> (m_heap (c_mem s)) →
  (∀ p, own_mem p m' + own_thread p T' = own_mem p (c_mem s) + own_thread p T) →
  (∀ p, dues_thread p T' = dues_thread p T) →
  (∀ p x, stage_thread p x T' + one (p = q ∧ x = st) = stage_thread p x T + one (p = q ∧ x = st')) →
  robust (after s tid T' m') → minv (after s tid T' m').
Proof.
  intros Hq Hpos Hok' Hm Ho Hd Hst Hr.
  destruct (staged_object q st Hq Hpos) as (o & Hqo & Hsto & Hzero & Hs).
  eapply minv_after; [done|exact HT|done|done|rewrite Hm, lookup_insert_ne by done; apply Hi| |done].
  intros p own' d' stages' Hp E1 E2 E3. specialize (Ho p). rewrite Hd in E2. rewrite Hm.
  destruct (decide (p = q)) as [->|Hpq].
  - rewrite lookup_insert_eq. right. split; [lia|]. exists st'. split; [done|].
    intros x. specialize (E3 x). specialize (Hst q x). rewrite Hs in E3.
    unfold one in *. repeat case_decide; naive_solver lia.
  - rewrite lookup_insert_ne by done.
    eapply object_ok_eq; [apply (inv_object s Hi p Hp)|lia|lia|].
    intros x. specialize (E3 x). specialize (Hst p x). rewrite !one_false in Hst by naive_solver. lia.
Qed.

(** The memory of [q] is given back. *)
Lemma minv_delete q :
  q ≠ 0%Z → 0 < stage_thread q SDisposed T →
  m_heap m' = delete q (m_heap (c_mem s)) → m_roots m' = m_roots (c_mem s) →
  (∀ p, own_thread p T' = own_thread p T) →
  (∀ p, dues_thread p T' = dues_thread p T) →
  (∀ p x, stage_thread p x T' + one (p = q ∧ x = SDisposed) = stage_thread p x T) →
  robust (after s tid T' m') → minv (after s tid T' m').
Proof.
  intros Hq Hpos Hm Hrt Ho Hd Hst Hr.
  destruct (staged_object q SDisposed Hq Hpos) as (o & Hqo & (_ & _ & Hsto) & Hzero & Hs).
  assert (∀ p, own_mem p m' = own_mem p (c_mem s)) as Hom.
  { intros p. unfold own_mem. rewrite Hm, Hrt. rewrite (msum_delete _ (m_heap (c_mem s)) q o Hqo).
    unfold in_object at 2. rewrite Hsto. lia. }
  eapply minv_after; [done|exact HT|done|done|rewrite Hm, lookup_delete_ne by done; apply Hi| |done].
  intros p own' d' stages' Hp E1 E2 E3. rewrite Hom, Ho in E1. rewrite Hd in E2. rewrite Hm.
  destruct (decide (p = q)) as [->|Hpq].
  - rewrite lookup_delete_eq. split; [lia|]. intros x. specialize (E3 x). specialize (Hst q x).
    rewrite Hs in E3. unfold one in *. repeat case_decide; naive_solver lia.
  - rewrite lookup_delete_ne by done.
    eapply object_ok_eq; [apply (inv_object s Hi p Hp)|lia|lia|].
    intros x. specialize (E3 x). specialize (Hst p x). rewrite one_false in Hst by naive_solver. lia.
Qed.

(** A write to an atomic pointer: [old] is replaced by [w].  Where the thread
    does not give up a reference to [w] for it, it has an increment to make. *)
Lemma minv_write old w (d : Z → nat) :
  (m_heap m' = m_heap (c_mem s) ∨
   ∃ q o o', m_heap (c_mem s) !! q = Some o ∧ 0 < owned s q ∧ q ≠ 0%Z ∧
     m_heap m' = <[q := o']> (m_heap (c_mem s)) ∧ ref_cnt o' = ref_cnt o ∧ whole o') →
  (∀ p, own_mem p m' + hit p old = own_mem p (c_mem s) + hit p w) →
  (∀ p, p ≠ 0%Z → own_thread p T' + hit p w = own_thread p T + hit p old + d p) →
  (∀ p, p ≠ 0%Z → dues_thread p T' = dues_thread p T + d p) →
  (∀ p, p ≠ 0%Z → 0 < d p → 0 < owned s p) →
  (∀ p st, stage_thread p st T' = stage_thread p st T) →
  robust (after s tid T' m') → minv (after s tid T' m').
Proof.
  intros Hm Hom Ho Hd Hpos Hst Hr.
  assert (m_heap m' !! 0%Z = None) as H0.
  { destruct Hm as [-> |(q & o & o' & _ & _ & Hq & -> & _)]; [apply Hi|].
    rewrite lookup_insert_ne by done. apply Hi. }
  eapply minv_after; [done|exact HT|done|done|done| |done]. intros p own' d' st' Hp E1 E2 E3.
  specialize (Hom p). specialize (Ho p Hp). rewrite (Hd p Hp) in E2. specialize (Hpos p Hp).
  assert (∀ x, st' x = staged s p x) as E3' by (intros x; specialize (E3 x); rewrite Hst in E3; lia).
  assert (∀ ho : option (counted_object V), object_ok ho (owned s p) (dues s p) (staged s p) →
    object_ok ho own' d' st') as Hsame.
  { intros [o|] H; simpl in *; [destruct H as [(Hl & Hc & Hs)|(Hz & x & Hx & Hs)]; [left|right]|].
    - split_and!; [done|lia|intros x; by rewrite E3'].
    - split; [lia|]. exists x. split; [done|]. intros y. by rewrite E3'.
    - destruct H as [Hz Hs]. split; [lia|]. intros x. by rewrite E3'. }
  apply Hsame. pose proof (inv_object s Hi p Hp) as H.
  destruct Hm as [-> |(q & o & o' & Hqo & Hown & Hq & -> & Hrc & Hwh)]; [done|].
  destruct (decide (p = q)) as [->|Hpq]; [|by rewrite lookup_insert_ne by done].
  rewrite lookup_insert_eq. destruct (owned_live s q Hi Hq Hown) as (o1 & Ho1 & [Hl1 Hl2] & Hc & Hs).
  simplify_eq. left. split_and!; [split; [lia|done]|lia|done].
Qed.

(** A new object at [a], which the thread has one reference to; its members are
    references that the thread gave up. *)
Lemma minv_new a v ms :
  a ≠ 0%Z → m_heap (c_mem s) !! a = None → Forall strong_member ms →
  m_heap m' = <[a := new_counted_object 0 (Payload v ms)]> (m_heap (c_mem s)) →
  m_roots m' = m_roots (c_mem s) →
  (∀ p, p ≠ 0%Z → own_thread p T' + sum_list_with (own_member p) ms = own_thread p T + one (p = a)) →
  (∀ p, dues_thread p T' = dues_thread p T) →
  (∀ p st, stage_thread p st T' = stage_thread p st T) →
  robust (after s tid T' m') → minv (after s tid T' m').
Proof.
  intros Ha Hnone Hms Hm Hrt Ho Hd Hst Hr.
  assert (∀ p, own_mem p m' = own_mem p (c_mem s) + sum_list_with (own_member p) ms) as Hom.
  { intros p. unfold own_mem. rewrite Hm, Hrt, msum_insert_new by done. unfold in_object at 1. simpl. lia. }
  eapply minv_after; [done|exact HT|done|done|rewrite Hm, lookup_insert_ne by done; apply Hi| |done].
  intros p own' d' st' Hp E1 E2 E3. rewrite Hom in E1. specialize (Ho p Hp). rewrite Hd in E2. rewrite Hm.
  assert (∀ x, st' x = staged s p x) as E3' by (intros x; specialize (E3 x); rewrite Hst in E3; lia).
  pose proof (inv_object s Hi p Hp) as H. destruct (decide (p = a)) as [->|Hpa].
  - rewrite lookup_insert_eq. rewrite Hnone in H. destruct H as [Hz Hs]. rewrite one_true in Ho by done.
    assert (dues s a = 0) as Hdz.
    { apply no_dues; [apply Hi|]. intros k Hk. pose proof (held_owned s k a (inv_tinv s Hi) Hk). lia. }
    left. split_and!; [|change (ref_cnt _) with 1%Z; lia|intros x; by rewrite E3'].
    split; [by vm_compute|]. split; [done|]. split; [done|]. by exists (Payload v ms).
  - rewrite lookup_insert_ne by done. rewrite one_false in Ho by done.
    eapply object_ok_eq; [exact H|lia|lia|done].
Qed.

End minv.
End effects.
