(* ===== verification/HpFrames.v ===== *)
(** * The calls into the manager keep the invariant

    One lemma per kind of [frame]: the step neither fails nor breaks the
    invariant of the hazard-pointer machine ([frame_step]). *)

From S2P Require Import Prelude StickyCounter CountedObject MemoryManager AtomicLoc AcquireRetire HpMachine HpInvariant HpFacts HpEffects.
Local Open Scope nat_scope.

(** Evaluates the sums over the frames and the variables of a thread. *)
Ltac tally :=
  unfold own_thread, kept_thread, dues_thread, due_thread, soft_thread, reserved_thread, stage_thread, on_op, stage_frame,
    own_vars, all_slots;
  simpl; rewrite ?sum_list_with_app, ?entries_nil; simpl.

Section frames.
  Context {V : Type} `{Pol : !Policy} (num_threads : nat).
  Implicit Types (p q w : Z) (l : local) (m : mem V) (B : nat → bool) (s : cstate V) (T : thread).

(** ** Instructions on objects *)

Lemma wp_object m l p o Q :
  p ≠ 0%Z → m_heap m !! p = Some o → Q o (m, l) → wp (object p) Q (m, l).
Proof.
  intros Hp Ho HQ. unfold object. wp_step. unfold mem_get. wp_step. simpl.
  rewrite (proj2 (Z.eqb_neq _ _) Hp), Ho. by wp_step.
Qed.

Lemma wp_update m l p o f Q :
  p ≠ 0%Z → m_heap m !! p = Some o →
  Q tt (Mem (<[p := f o]> (m_heap m)) (m_roots m) (m_slots m), l) → wp (update p f) Q (m, l).
Proof.
  intros Hp Ho HQ. unfold update. wp_step. eapply wp_object; [done..|]. wp_step. unfold mem_get. wp_step.
  simpl. unfold set_m_heap. by wp_step.
Qed.

Lemma wp_payload_at m l p o v Q :
  p ≠ 0%Z → m_heap m !! p = Some o → storage o = Some v → Q v (m, l) → wp (payload_at p) Q (m, l).
Proof.
  intros Hp Ho Hv HQ. unfold payload_at. wp_step. eapply wp_object; [done..|]. rewrite Hv. by wp_step.
Qed.

Lemma wp_strong_step m l p o c c' x Q :
  p ≠ 0%Z → m_heap m !! p = Some o → thread_step cnt_width c (ref_cnt o) = Some (c', x) →
  Q c' (Mem (<[p := set_ref_cnt x o]> (m_heap m)) (m_roots m) (m_slots m), l) →
  wp (strong_step p c) Q (m, l).
Proof.
  intros Hp Ho Hc HQ. unfold strong_step. wp_step. eapply wp_object; [done..|]. rewrite Hc. wp_step.
  eapply wp_update; [done..|]. by wp_step.
Qed.

Lemma insert_same (m : mem V) p o :
  m_heap m !! p = Some o → Mem (<[p := o]> (m_heap m)) (m_roots m) (m_slots m) = m.
Proof. intros Ho. rewrite insert_id by done. by destruct m. Qed.

(** A load of a counter that is not zero changes nothing. *)
Lemma wp_strong_load m l p o Q :
  p ≠ 0%Z → m_heap m !! p = Some o → ref_cnt o ≠ 0%Z →
  Q (Returned (RLoad (if Z.land (ref_cnt o) (zero_flag cnt_width) =? 0 then ref_cnt o else 0)%Z)) (m, l) →
  wp (strong_step p LoadRead) Q (m, l).
Proof.
  intros Hp Ho Hr HQ. eapply wp_strong_step; [done..| |].
  - simpl. by rewrite (proj2 (Z.eqb_neq _ _) Hr).
  - replace (set_ref_cnt (ref_cnt o) o) with o by (by destruct o). by rewrite insert_same.
Qed.

Lemma wp_weak_load_one m l p o Q :
  p ≠ 0%Z → m_heap m !! p = Some o → weak_cnt o = 1%Z →
  Q (Returned (RLoad 1)) (m, l) → wp (weak_step p LoadRead) Q (m, l).
Proof.
  intros Hp Ho Hw HQ. unfold weak_step. wp_step. eapply wp_object; [done..|]. rewrite Hw. simpl.
  wp_step. eapply wp_update; [done..|]. wp_step.
  replace (set_weak_cnt 1 o) with o by (destruct o; simpl in *; by subst). by rewrite insert_same.
Qed.

Lemma live_flag_clear o : live_obj (V := V) o → Z.land (ref_cnt o) (zero_flag cnt_width) = 0%Z.
Proof.
  intros [Hr _]. apply land_zero_flag_clear; [done|].
  change (2 * 2 ^ (cnt_width - 2))%Z with (2 * 2 ^ 30)%Z. lia.
Qed.

(** ** Threads that change their stack only *)

Lemma op_ok_vars (tid : nat) m l l' o :
  l_rcs l' = l_rcs l → l_snaps l' = l_snaps l → op_ok tid m l o → op_ok tid m l' o.
Proof. destruct l, l'; simpl; intros -> -> H. exact H. Qed.

Section step.
  Context s (tid : nat) (o : option op) (f : frame) (stack : list frame) l (Hi : minv s).
  Context (HT : c_threads s !! tid = Some (Thread o (f :: stack) l)).

Lemma thread_ok_frames m' fs l' :
  evolves s tid m' → m_slots m' = m_slots (c_mem s) →
  Forall frame_ok fs → strong_entries (l_deferred l') →
  l_rcs l' = l_rcs l → l_snaps l' = l_snaps l →
  thread_ok tid m' (Thread o (fs ++ stack) l').
Proof.
  intros Hev Hsl Hfs Hd Hr Hs. pose proof (inv_tinv s Hi) as Ht.
  destruct (inv_thread s Ht tid _ HT) as [Hop Hst _ [Hs1 Hs2]]. simpl in *.
  constructor; simpl; [|apply Forall_app; by inversion Hst|done|].
  - destruct o as [o'|]; [|done]. eapply op_ok_vars; [done..|].
    eapply (op_ok_evolves s tid m' tid (Thread (Some o') (f :: stack) l)); [done..| |done].
    unfold announces. intros k p. by rewrite Hsl.
  - split; rewrite Hs; [|done]. unfold announces. rewrite Hsl. done.
Qed.

Lemma frame_was_ok : frame_ok f.
Proof. destruct (inv_thread s (inv_tinv s Hi) tid _ HT) as [_ Hst _ _]. by inversion Hst. Qed.

Lemma deferred_was_ok : strong_entries (l_deferred l).
Proof. apply (inv_thread s (inv_tinv s Hi) tid _ HT). Qed.

(** The thread changes its stack and its deferred list; the references in them
    stay the same, and no fewer are kept. *)
Lemma frame_silent fs l' :
  Forall frame_ok fs → strong_entries (l_deferred l') →
  l_rcs l' = l_rcs l → l_snaps l' = l_snaps l →
  (∀ p, p ≠ 0%Z → sum_list_with (own_frame p) fs + entries p (l_deferred l') =
     own_frame p f + entries p (l_deferred l)) →
  (∀ p st, sum_list_with (stage_frame p st) fs = stage_frame p st f) →
  (∀ p B, p ≠ 0%Z → kept_frame B (slot_count s) p f + entries p (l_deferred l) ≤
     sum_list_with (kept_frame B (slot_count s) p) fs + entries p (l_deferred l')) →
  minv (after s tid (Thread o (fs ++ stack) l') (c_mem s)).
Proof.
  intros Hfs Hd Hr Hs Hown Hst Hk. pose proof (inv_tinv s Hi) as Ht.
  eapply minv_silent; [done|exact HT|by apply evolves_others, evolves_refl| |done|done|..].
  - by apply thread_ok_frames; [apply evolves_refl|..].
  - intros p Hp. specialize (Hown p Hp). tally. rewrite Hr, Hs. lia.
  - done.
  - intros p st. specialize (Hst p st). unfold stage_frame in Hst. tally. lia.
  - eapply robust_shrink; [done|exact HT|done| |].
    + intros k p. unfold holds; simpl. by rewrite Hs.
    + intros p B Hp. specialize (Hk p B Hp). tally. lia.
Qed.

Lemma own_frame_owned p : own_frame p f ≤ owned s p.
Proof. pose proof (own_thread_le s tid _ p HT) as H. unfold own_thread in H; simpl in H. lia. Qed.

(** The object that the frame has a reference to. *)
Lemma frame_live q :
  q ≠ 0%Z → 0 < own_frame q f →
  ∃ ob, m_heap (c_mem s) !! q = Some ob ∧ live_obj ob ∧
    Z.of_nat (owned s q) = (ref_cnt ob + Z.of_nat (dues s q))%Z.
Proof.
  intros Hq Hown. pose proof (own_frame_owned q).
  destruct (owned_live s q Hi Hq) as (ob & ? & ? & ? & _); [lia|]. eauto.
Qed.

(** The object that the frame is destroying. *)
Lemma frame_staged q st :
  q ≠ 0%Z → stage_of f = Some (q, st) →
  ∃ ob, m_heap (c_mem s) !! q = Some ob ∧ stage_ok st ob ∧ owned s q = 0 ∧
    0 < stage_thread q st (Thread o (f :: stack) l).
Proof.
  intros Hq Hf. assert (0 < stage_thread q st (Thread o (f :: stack) l)) as Hpos.
  { unfold stage_thread; simpl. unfold stage_frame at 1. rewrite one_true by done. lia. }
  destruct (staged_object s tid _ Hi HT q st Hq Hpos) as (ob & ? & ? & ? & _). eauto.
Qed.

(** What a frame step has to establish. *)
Definition step_ok : Prop :=
  wp (exec_frame (V := V) num_threads f)
     (λ fs ml, minv (after s tid (Thread o (fs ++ stack) ml.2) ml.1)) (c_mem s, l).

End step.

(** ** Retiring and scanning *)

Lemma delay_ok s tid o stack l p c :
  minv s → c_threads s !! tid = Some (Thread o (FDelay p c :: stack) l) →
  step_ok s tid o (FDelay p c) stack l.
Proof.
  intros Hi HT. destruct (frame_was_ok _ _ _ _ _ _ Hi HT) as [Hp ->].
  destruct (frame_live _ _ _ _ _ _ Hi HT p Hp) as (ob & Hob & Hl & _); [simpl; rewrite one_true by done; lia|].
  pose proof (live_flag_clear ob Hl) as Hz. destruct Hl as [Hr _].
  unfold step_ok; instr. wp_step. eapply wp_strong_load; [done..|lia|]. rewrite Hz. simpl.
  wp_step. wp_step; [apply Z.leb_le; lia|]. wp_step. simpl.
  apply (frame_silent s tid o _ stack l Hi HT [_] l); try done.
  - by repeat constructor.
  - by eapply deferred_was_ok.
  - intros q Hq. simpl. unfold strong_entry, one. repeat case_decide; naive_solver lia.
  - intros q B Hq. simpl. unfold strong_entry, one. repeat case_decide; naive_solver lia.
Qed.

Lemma retire_step_ok s tid o stack l p ty :
  minv s → c_threads s !! tid = Some (Thread o (FRetire p ty :: stack) l) →
  step_ok s tid o (FRetire p ty) stack l.
Proof.
  intros Hi HT. destruct (frame_was_ok _ _ _ _ _ _ Hi HT) as [Hp ->].
  pose proof (deferred_was_ok _ _ _ _ _ _ Hi HT) as Hd.
  unfold step_ok; instr. wp_step. unfold local_set. wp_step. wp_step. simpl.
  apply (frame_silent s tid o _ stack l Hi HT [_]); try done; simpl.
  - by repeat constructor.
  - apply Forall_app. split; [done|]. by repeat constructor.
  - intros q Hq. rewrite entries_app, entries_cons, entries_nil. lia.
  - intros q B Hq. rewrite entries_app, entries_cons, entries_nil. lia.
Qed.

(** ** The scan *)

Lemma announce_counts_two a y : counts_two a → counts_two (announce a y).
Proof.
  intros Ha e k. rewrite announce_lookup. case_decide; [|apply Ha].
  destruct (Nat.eqb_spec (default 0 (a !! e)) 0); intros [= <-]; lia.
Qed.

Lemma seen_announce a y p : counts_two a → seen (announce a y) p = seen a p + one (p = y).
Proof.
  intros Ha. unfold seen, protects, one. rewrite announce_lookup. simpl.
  destruct (decide (y = p)) as [->|Hp]; [rewrite decide_True by done|rewrite decide_False by congruence; lia].
  destruct (a !! ((p, decrement_strong_count) : hp_entry)) as [k|] eqn:Hk; simpl; [|done].
  apply Ha in Hk. destruct (Nat.eqb_spec k 0); simpl; lia.
Qed.

(** The verdict of the scan on a decrement of [q]. *)
Lemma check_protects a q keep a' :
  check_announced a (q, decrement_strong_count) = (keep, a') →
  (keep = false → protects a q = 0 ∧ a' = a) ∧
  (keep = true → ∀ p, protects a p ≤ protects a' p + one (p = q)).
Proof.
  unfold check_announced. destruct (a !! ((q, decrement_strong_count) : hp_entry)) as [k|] eqn:Hk;
    intros [= <- <-]; split; try done; intros _.
  - intros p. unfold protects, one. case_decide as Hp.
    + subst p. rewrite Hk. destruct (Nat.eqb_spec (k - 1) 0);
        rewrite ?lookup_delete_eq, ?lookup_insert_eq; simpl; lia.
    + destruct (k - 1 =? 0); rewrite ?lookup_delete_ne, ?lookup_insert_ne by congruence; lia.
  - unfold protects. by rewrite Hk.
Qed.

Lemma ahead_step B i n : i < n → ahead B i n = Nat.b2n (B i) + ahead B (S i) n.
Proof.
  intros Hi. unfold ahead. replace (n - i) with (S (n - S i)) by lia. done.
Qed.

(** Reading one more slot, a scan keeps at least what it was going to keep. *)
Lemma allowance_step B i n a y p :
  i < n → counts_two a → p ≠ 0%Z → (B i = true → y = p) →
  allowance B i n a p ≤ allowance B (S i) n (if (y =? 0)%Z then a else announce a y) p.
Proof.
  intros Hi Ha Hp HB. unfold allowance. rewrite (ahead_step B i n Hi).
  assert (seen a p + Nat.b2n (B i) ≤ seen (if (y =? 0)%Z then a else announce a y) p) as Hle.
  { destruct (B i); simpl.
    - rewrite (HB eq_refl), (proj2 (Z.eqb_neq p 0) Hp), seen_announce, one_true by done. lia.
    - destruct (y =? 0)%Z; [lia|]. rewrite seen_announce by done. lia. }
  repeat case_decide; lia.
Qed.

Lemma work_ok s tid o stack l :
  minv s → c_threads s !! tid = Some (Thread o (FWork :: stack) l) →
  step_ok s tid o FWork stack l.
Proof.
  intros Hi HT. pose proof (deferred_was_ok _ _ _ _ _ _ Hi HT) as Hd. pose proof (inv_tinv s Hi) as Ht.
  unfold step_ok; instr. wp_step. unfold local_get. wp_step. simpl.
  destruct (negb (l_in_progress l) && _); [|wp_step; by apply (frame_silent s tid o _ stack l Hi HT [])].
  destruct (l_deferred l) as [|e d] eqn:Hdd.
  - wp_step. unfold local_set. wp_step. wp_step. simpl.
    apply (frame_silent s tid o _ stack l Hi HT []); try done; simpl; by rewrite Hdd.
  - rewrite <-Hdd in *. wp_step. unfold local_set. wp_step. wp_step. simpl.
    eapply minv_silent; [done|exact HT|by apply evolves_others, evolves_refl| |done|done|..].
    + apply (thread_ok_frames s tid o FWork stack l Hi HT (c_mem s) [_]); try done; [apply evolves_refl| |by constructor].
      repeat constructor; [done|]. intros ? ?. by rewrite lookup_empty.
    + intros p Hp. tally. lia.
    + done.
    + intros p st. by tally.
    + eapply (robust_scan s tid _ _ _ Ht HT eq_refl (l_deferred l)); try done.
      intros p B. tally.
      exists (match o with Some o' => kept_op p o' | None => 0 end +
        sum_list_with (kept_frame B (slot_count s) p) stack). split; lia.
Qed.

Lemma scan_ok s tid o stack l i a d :
  minv s → c_threads s !! tid = Some (Thread o (FScan i a d :: stack) l) →
  step_ok s tid o (FScan i a d) stack l.
Proof.
  intros Hi HT. pose proof (deferred_was_ok _ _ _ _ _ _ Hi HT) as Hd. pose proof (inv_tinv s Hi) as Ht.
  destruct (frame_was_ok _ _ _ _ _ _ Hi HT) as [Hde Ha].
  unfold step_ok; instr. wp_step. unfold mem_get. wp_step. simpl.
  destruct (m_slots (c_mem s) !! i) as [y|] eqn:Hy.
  - wp_step. simpl.
    set (f' := FScan (S i) (if (y =? 0)%Z then a else announce a y) d).
    eapply minv_silent; [done|exact HT|by apply evolves_others, evolves_refl| |done|done|..]; [|done..|].
    + apply (thread_ok_frames s tid o _ stack l Hi HT (c_mem s) [f']); try done; [apply evolves_refl|].
      repeat constructor; [done|]. destruct (y =? 0)%Z; [done|]. by apply announce_counts_two.
    + intros p B Hp HB Hex.
      pose proof (kept_after s tid _ (Thread o (f' :: stack) l) (c_mem s) HT B p eq_refl) as Hk.
      pose proof (due_after s tid _ (Thread o (f' :: stack) l) (c_mem s) HT B p) as Hdue.
      pose proof (soft_after s tid _ (Thread o (f' :: stack) l) (c_mem s) HT B p) as Hsoft.
      assert (∀ k, B k = true → held s k p) as HB'.
      { intros k Hb. destruct (held_after s tid _ _ _ HT k p (HB k Hb)) as [Hin|]; [|done]. by exists tid, (Thread o (FScan i a d :: stack) l). }
      assert (due s B p + max 1 (soft s B p) ≤ kept s B p) by (by apply (inv_robust s Ht)).
      assert (allowance B i (slot_count s) a p ≤ allowance B (S i) (slot_count s) (if (y =? 0)%Z then a else announce a y) p) as Hal.
      { apply allowance_step; [by eapply lookup_lt_Some|done|done|]. intros Hb.
        destruct (HB' i Hb) as (u & U & HU & Hin).
        destruct (hold_announces _ _ _ _ _ (inv_thread _ Ht _ _ HU) Hin) as (_ & Han & _).
        unfold announces in Han. congruence. }
      revert Hk Hdue Hsoft. tally. lia.
  - wp_step. simpl. apply (frame_silent s tid o _ stack l Hi HT [_] l); try done; simpl.
    + by repeat constructor.
    + intros p Hp. lia.
    + intros p B Hp. apply lookup_ge_None in Hy. unfold allowance, ahead, seen.
      replace (slot_count s - i) with 0 by (unfold slot_count; lia). simpl.
      unfold protects. destruct (a !! ((p, decrement_strong_count) : hp_entry)) as [k|] eqn:E; simpl;
        [specialize (Ha _ _ E)|]; try case_decide; lia.
Qed.

(** ** Applying the deferred actions *)

Lemma apply_ok s tid o stack l a d k :
  minv s → c_threads s !! tid = Some (Thread o (FApply a d k :: stack) l) →
  step_ok s tid o (FApply a d k) stack l.
Proof.
  intros Hi HT. pose proof (deferred_was_ok _ _ _ _ _ _ Hi HT) as Hd.
  destruct (frame_was_ok _ _ _ _ _ _ Hi HT) as [Hde Hk].
  unfold step_ok; instr. destruct d as [|[q ty] d].
  - wp_step. unfold local_set. wp_step. wp_step. simpl.
    apply (frame_silent s tid o _ stack l Hi HT [_]); try done; simpl.
    + by repeat constructor.
    + by apply Forall_app.
    + intros p Hp. rewrite entries_app. lia.
    + intros p B Hp. rewrite entries_app. lia.
  - inversion Hde as [|? ? [Hq Hty] Hde']; simpl in *; subst.
    destruct (check_announced a (q, decrement_strong_count)) as [[] a'] eqn:Hc;
      apply check_protects in Hc as [Hno Hyes].
    + specialize (Hyes eq_refl). wp_step. simpl.
      apply (frame_silent s tid o _ stack l Hi HT [_] l); try done; simpl.
      * repeat constructor; [done|]. apply Forall_app. split; [done|]. by repeat constructor.
      * intros p Hp. rewrite ?entries_app, ?entries_cons, ?entries_nil. lia.
      * intros p B Hp. rewrite ?entries_app, ?entries_cons, ?entries_nil. specialize (Hyes p).
        unfold strong_entry, one in *. repeat case_decide; simplify_eq; lia.
    + destruct (Hno eq_refl) as [Hz ->]. wp_step. simpl.
      apply (frame_silent s tid o _ stack l Hi HT [_; _] l); try done; simpl.
      * by repeat constructor.
      * intros p Hp. rewrite ?entries_cons. lia.
      * intros p B Hp. rewrite ?entries_cons. unfold strong_entry, one. case_decide; simplify_eq; lia.
Qed.

Lemma eject_step_ok s tid o stack l p ty :
  minv s → c_threads s !! tid = Some (Thread o (FEject p ty :: stack) l) →
  step_ok s tid o (FEject p ty) stack l.
Proof.
  intros Hi HT. destruct (frame_was_ok _ _ _ _ _ _ Hi HT) as [Hp ->].
  unfold step_ok; instr. wp_step. wp_step; [by rewrite (proj2 (Z.eqb_neq _ _) Hp)|]. wp_step. simpl.
  apply (frame_silent s tid o _ stack l Hi HT [_] l); try done; simpl.
  - constructor; [|done]. split; auto.
  - by eapply deferred_was_ok.
  - intros q Hq. unfold strong_entry, one. repeat case_decide; naive_solver lia.
Qed.

(** ** Decrements *)

Lemma evolves_object s tid q ob ob' :
  m_heap (c_mem s) !! q = Some ob → (0 < owned s q → storage ob' = storage ob) →
  evolves s tid (Mem (<[q := ob']> (m_heap (c_mem s))) (m_roots (c_mem s)) (m_slots (c_mem s))).
Proof.
  intros Hq Hst. constructor; try done. intros p k x Hp (o1 & v & Ho1 & Hv & Hk).
  exists x. split; [|destruct x; simpl; eauto]. unfold member_of; simpl.
  destruct (decide (p = q)) as [->|Hne]; [|rewrite lookup_insert_ne by done; eauto].
  rewrite lookup_insert_eq. simplify_eq. exists ob', v. by rewrite Hst.
Qed.

Lemma own_mem_counter p q (ob ob' : counted_object V) h r sl :
  h !! q = Some ob → storage ob' = storage ob →
  own_mem p (Mem (<[q := ob']> h) r sl) = own_mem p (Mem h r sl) ∧
  kept_mem p (Mem (<[q := ob']> h) r sl) = kept_mem p (Mem h r sl).
Proof.
  intros Hq Hst. unfold own_mem, kept_mem; simpl.
  split; f_equal; apply msum_insert_same with ob; try done; unfold in_object; by rewrite Hst.
Qed.

Lemma mem_eta (m : mem V) : Mem (m_heap m) (m_roots m) (m_slots m) = m.
Proof. by destruct m. Qed.

(** A step of a frame that replaces an object, keeping its members. *)
Lemma frame_robust s tid o f stack l fs q ob ob' :
  minv s → c_threads s !! tid = Some (Thread o (f :: stack) l) →
  m_heap (c_mem s) !! q = Some ob → storage ob' = storage ob →
  (∀ p B, p ≠ 0%Z → kept_frame B (slot_count s) p f ≤ sum_list_with (kept_frame B (slot_count s) p) fs) →
  robust (after s tid (Thread o (fs ++ stack) l)
    (Mem (<[q := ob']> (m_heap (c_mem s))) (m_roots (c_mem s)) (m_slots (c_mem s)))).
Proof.
  intros Hi HT Hq Hst Hk. eapply robust_shrink; [apply Hi|exact HT|done|done|].
  intros p B Hp. destruct (own_mem_counter p q ob ob' _ (m_roots (c_mem s)) (m_slots (c_mem s)) Hq Hst) as [_ ->].
  rewrite mem_eta. specialize (Hk p B Hp). tally. lia.
Qed.

Lemma thread_step_sub x :
  (0 < x < 2 ^ 30)%Z →
  thread_step cnt_width (DecSub 1) x =
    Some (if (x =? 1)%Z then DecCas else Returned (RDec false), (x - 1)%Z).
Proof.
  intros Hx. simpl. rewrite (wrap_small cnt_width) by (done || (change (4 * 2 ^ (cnt_width - 2))%Z with (2 ^ 32)%Z; lia)).
  by destruct (x =? 1)%Z.
Qed.

Lemma dec_sub_ok s tid o stack l p :
  minv s → c_threads s !! tid = Some (Thread o (FDec p (DecSub 1) :: stack) l) →
  step_ok s tid o (FDec p (DecSub 1)) stack l.
Proof.
  intros Hi HT. destruct (frame_was_ok _ _ _ _ _ _ Hi HT) as [Hp _].
  assert (0 < own_frame p (FDec p (DecSub 1))) as Hown by (simpl; rewrite one_true by done; lia).
  destruct (frame_live _ _ _ _ _ _ Hi HT p Hp Hown) as (ob & Hob & [Hr Hwh] & _).
  pose proof (own_frame_owned _ _ _ _ _ _ HT p) as Hle. pose proof (deferred_was_ok _ _ _ _ _ _ Hi HT) as Hd.
  assert (∀ fs, Forall frame_ok fs → (∀ q, sum_list_with (own_frame q) fs = 0) →
    (∀ q st, sum_list_with (stage_frame q st) fs = one (q = p ∧ st = SDec ∧ ref_cnt ob = 1%Z)) →
    minv (after s tid (Thread o (fs ++ stack) l)
      (Mem (<[p := set_ref_cnt (ref_cnt ob - 1) ob]> (m_heap (c_mem s))) (m_roots (c_mem s)) (m_slots (c_mem s))))) as Hgo.
  { intros fs Hok Hz Hst.
    assert (∀ q, own_thread q (Thread o (FDec p (DecSub 1) :: stack) l) =
      own_thread q (Thread o (fs ++ stack) l) + one (p = q)) as Heq by (intros q; specialize (Hz q); tally; lia).
    eapply minv_subtract; [done|exact HT|by eapply evolves_others, evolves_object| |exact Hp|exact Hob|lia|done|..].
    - apply (thread_ok_frames s tid o (FDec p (DecSub 1)) stack l); try done. by eapply evolves_object.
    - intros q Hq. rewrite Heq, one_false by congruence. lia.
    - done.
    - rewrite Heq, one_true by done. lia.
    - intros q st. specialize (Hst q st). unfold stage_frame in Hst. tally. rewrite Hst. lia.
    - eapply frame_robust; [done|exact HT|exact Hob|done|]. intros q B Hq. simpl. lia. }
  unfold step_ok; instr. wp_step. eapply wp_strong_step; [done..|by apply thread_step_sub|].
  destruct (Z.eqb_spec (ref_cnt ob) 1) as [H1|H1].
  - wp_step. simpl. apply (Hgo [_]).
    + constructor; [|done]. split; auto.
    + done.
    + intros q st. simpl. unfold stage_frame, one; simpl. repeat case_decide; naive_solver lia.
  - wp_step. simpl. apply (Hgo []); [done..|]. intros q st. simpl. rewrite one_false; naive_solver.
Qed.

Lemma dec_cas_ok s tid o stack l p :
  minv s → c_threads s !! tid = Some (Thread o (FDec p DecCas :: stack) l) →
  step_ok s tid o (FDec p DecCas) stack l.
Proof.
  intros Hi HT. destruct (frame_was_ok _ _ _ _ _ _ Hi HT) as [Hp _].
  destruct (frame_staged _ _ _ _ _ _ Hi HT p SDec Hp eq_refl) as (ob & Hob & [Hr Hwh] & Hz & Hpos).
  pose proof (deferred_was_ok _ _ _ _ _ _ Hi HT) as Hd.
  unfold step_ok; instr. wp_step. eapply wp_strong_step; [done..|simpl; rewrite Hr; reflexivity|].
  simpl. wp_step. simpl.
  eapply minv_stage with (st := SDec) (st' := SZero) (q := p) (o' := set_ref_cnt (zero_flag cnt_width) ob);
    [done|exact HT|by eapply evolves_others, evolves_object| |done|done|done|done|..].
  - apply (thread_ok_frames s tid o (FDec p DecCas) stack l Hi HT _ [_]); try done; [by eapply evolves_object|].
    by repeat constructor.
  - intros q. destruct (own_mem_counter q p ob (set_ref_cnt (zero_flag cnt_width) ob) _
      (m_roots (c_mem s)) (m_slots (c_mem s)) Hob eq_refl) as [-> _]. rewrite mem_eta. tally. lia.
  - done.
  - intros q st. tally. unfold one. repeat case_decide; naive_solver lia.
  - eapply (frame_robust _ _ _ _ _ _ [_]); [done|exact HT|exact Hob|done|]. intros q B Hq. simpl. lia.
Qed.

Lemma dec_ok s tid o stack l p c :
  minv s → c_threads s !! tid = Some (Thread o (FDec p c :: stack) l) →
  step_ok s tid o (FDec p c) stack l.
Proof.
  intros Hi HT. pose proof (frame_was_ok _ _ _ _ _ _ Hi HT) as [Hp [-> |[-> | ->]]];
    [|by apply dec_sub_ok|by apply dec_cas_ok].
  destruct (frame_live _ _ _ _ _ _ Hi HT p Hp) as (ob & Hob & Hl & _); [simpl; rewrite one_true by done; lia|].
  pose proof (live_flag_clear ob Hl) as Hz. destruct Hl as [Hr _].
  unfold step_ok; instr. wp_step. eapply wp_strong_load; [done..|lia|]. rewrite Hz. simpl.
  wp_step. wp_step; [apply Z.leb_le; lia|]. wp_step. simpl.
  apply (frame_silent s tid o _ stack l Hi HT [_] l); try done; simpl.
  - constructor; [|done]. split; auto.
  - by eapply deferred_was_ok.
  - intros q Hq. lia.
Qed.

(** ** Destruction *)

Lemma weak_read_ok s tid o stack l p c :
  minv s → c_threads s !! tid = Some (Thread o (FWeakRead p c :: stack) l) →
  step_ok s tid o (FWeakRead p c) stack l.
Proof.
  intros Hi HT. destruct (frame_was_ok _ _ _ _ _ _ Hi HT) as [Hp ->].
  destruct (frame_staged _ _ _ _ _ _ Hi HT p SZero Hp eq_refl) as (ob & Hob & [Hr [Hw _]] & _).
  unfold step_ok; instr. wp_step. eapply wp_weak_load_one; [done..|]. wp_step. simpl.
  apply (frame_silent s tid o _ stack l Hi HT [_] l); try done; simpl.
  - by repeat constructor.
  - by eapply deferred_was_ok.
Qed.

Lemma dispose_step_ok s tid o stack l p delayed :
  minv s → c_threads s !! tid = Some (Thread o (FDispose p delayed :: stack) l) →
  step_ok s tid o (FDispose p delayed) stack l.
Proof.
  intros Hi HT. destruct (frame_was_ok _ _ _ _ _ _ Hi HT) as [Hp ->].
  destruct (frame_staged _ _ _ _ _ _ Hi HT p SZero Hp eq_refl) as (ob & Hob & (Hr & Hw & Hdis & v & Hv & Hms) & Hz & Hpos).
  pose proof (deferred_was_ok _ _ _ _ _ _ Hi HT) as Hd.
  assert (evolves s tid (Mem (<[p := set_storage None ob]> (m_heap (c_mem s))) (m_roots (c_mem s)) (m_slots (c_mem s))))
    as Hev by (eapply evolves_object; [done|lia]).
  assert (∀ f, msum (in_object f) (<[p := set_storage None ob]> (m_heap (c_mem s))) + sum_list_with f (members v) =
    msum (in_object f) (m_heap (c_mem s))) as Hsum.
  { intros f. pose proof (msum_insert (in_object f) _ p ob (set_storage None ob) Hob) as E.
    unfold in_object at 2 4 in E. rewrite Hv in E. simpl in E. lia. }
  unfold step_ok; instr. wp_step. eapply wp_payload_at; [done..|]. wp_step. eapply wp_update; [done..|].
  wp_step. simpl.
  eapply minv_stage with (st := SZero) (st' := SDestruct) (q := p) (o' := set_storage None ob);
    [done|exact HT|by apply evolves_others| |done|done|done|done|..].
  - apply (thread_ok_frames s tid o (FDispose p false) stack l Hi HT _ [_]); try done.
    repeat constructor; try done. by rewrite Forall_reverse.
  - intros q. specialize (Hsum (own_member q)). unfold own_mem; simpl. tally. rewrite sum_reverse. lia.
  - done.
  - intros q st. tally. unfold one. repeat case_decide; naive_solver lia.
  - eapply robust_shrink; [apply Hi|exact HT|done|done|]. intros q B Hq. specialize (Hsum (kept_member q)).
    unfold kept_mem; simpl. tally. rewrite sum_reverse. lia.
Qed.

Lemma destruct_ok s tid o stack l p ms delayed :
  minv s → c_threads s !! tid = Some (Thread o (FDestruct p ms delayed :: stack) l) →
  step_ok s tid o (FDestruct p ms delayed) stack l.
Proof.
  intros Hi HT. destruct (frame_was_ok _ _ _ _ _ _ Hi HT) as (Hp & -> & Hms).
  pose proof (deferred_was_ok _ _ _ _ _ _ Hi HT) as Hd.
  unfold step_ok; instr. destruct ms as [|x ms]; wp_step; simpl.
  - apply (frame_silent s tid o _ stack l Hi HT [_] l); try done; simpl.
    by repeat constructor.
  - inversion Hms as [|? ? Hx Hms']; subst.
    assert (frame_ok (FDestruct p ms false)) as Hf by done.
    unfold null, drop_member, drop_strong, delay_old, null.
    destruct x as [w| |w|]; try done; destruct (Z.eqb_spec (raw w) 0) as [Hw|Hw]; simpl;
      match goal with |- context [?f1 :: ?f2 :: stack] => apply (frame_silent s tid o _ stack l Hi HT [f1; f2] l)
                    | |- context [?f1 :: stack] => apply (frame_silent s tid o _ stack l Hi HT [f1] l) end;
      try done; simpl; try (by repeat constructor; auto);
      intros; unfold stage_frame, hit, one; simpl; repeat case_decide; naive_solver lia.
Qed.

Lemma disposed_ok s tid o stack l p delayed :
  minv s → c_threads s !! tid = Some (Thread o (FDisposed p delayed :: stack) l) →
  step_ok s tid o (FDisposed p delayed) stack l.
Proof.
  intros Hi HT. destruct (frame_was_ok _ _ _ _ _ _ Hi HT) as [Hp ->].
  destruct (frame_staged _ _ _ _ _ _ Hi HT p SDestruct Hp eq_refl) as (ob & Hob & (Hr & Hw & Hdis & Hv) & Hz & Hpos).
  pose proof (deferred_was_ok _ _ _ _ _ _ Hi HT) as Hd.
  unfold step_ok; instr. wp_step. eapply wp_update; [done..|]. wp_step. simpl.
  eapply minv_stage with (st := SDestruct) (st' := SDisposed) (q := p) (o' := set_disposed true ob);
    [done|exact HT|by eapply evolves_others, evolves_object| |done|done|done|done|..].
  - apply (thread_ok_frames s tid o (FDisposed p false) stack l Hi HT _ [_]); try done; [by eapply evolves_object|].
    by repeat constructor.
  - intros q. destruct (own_mem_counter q p ob (set_disposed true ob) _
      (m_roots (c_mem s)) (m_slots (c_mem s)) Hob eq_refl) as [-> _]. rewrite mem_eta. tally. lia.
  - done.
  - intros q st. tally. unfold one. repeat case_decide; naive_solver lia.
  - eapply (frame_robust _ _ _ _ _ _ [_]); [done|exact HT|exact Hob|done|]. intros q B Hq. simpl. lia.
Qed.

Lemma destroy_step_ok s tid o stack l p c :
  minv s → c_threads s !! tid = Some (Thread o (FDestroy p c :: stack) l) →
  step_ok s tid o (FDestroy p c) stack l.
Proof.
  intros Hi HT. destruct (frame_was_ok _ _ _ _ _ _ Hi HT) as [Hp ->].
  destruct (frame_staged _ _ _ _ _ _ Hi HT p SDisposed Hp eq_refl) as (ob & Hob & (Hr & _) & _).
  unfold step_ok; instr. wp_step. eapply wp_strong_load; [done..|rewrite Hr; done|]. rewrite Hr.
  wp_step. wp_step; [done|]. wp_step. simpl.
  apply (frame_silent s tid o _ stack l Hi HT [_] l); try done; simpl.
  - by repeat constructor.
  - by eapply deferred_was_ok.
Qed.

Lemma delete_ok s tid o stack l p :
  minv s → c_threads s !! tid = Some (Thread o (FDelete p :: stack) l) →
  step_ok s tid o (FDelete p) stack l.
Proof.
  intros Hi HT. pose proof (frame_was_ok _ _ _ _ _ _ Hi HT : p ≠ 0%Z) as Hp.
  destruct (frame_staged _ _ _ _ _ _ Hi HT p SDisposed Hp eq_refl) as (ob & Hob & (Hr & Hdis & Hv) & Hz & Hpos).
  pose proof (deferred_was_ok _ _ _ _ _ _ Hi HT) as Hd.
  assert (evolves s tid (Mem (delete p (m_heap (c_mem s))) (m_roots (c_mem s)) (m_slots (c_mem s)))) as Hev.
  { constructor; try done. intros q k x Hq (o1 & v & Ho1 & Hv1 & Hk). exists x.
    split; [|destruct x; simpl; eauto]. exists o1, v. simpl. rewrite lookup_delete_ne by (intros ->; lia). done. }
  unfold step_ok; instr. wp_step. eapply wp_object; [done..|]. wp_step. wp_step; [done|].
  wp_step. unfold mem_get. wp_step. simpl. wp_step. unfold set_m_heap. wp_step. wp_step. unfold local_set. wp_step.
  wp_step. simpl.
  eapply minv_delete with (q := p); [done|exact HT|by apply evolves_others| |done|done|done|done|..].
  - by apply (thread_ok_frames s tid o (FDelete p) stack l Hi HT _ []).
  - intros q. by tally.
  - done.
  - intros q st. tally. unfold one. repeat case_decide; naive_solver lia.
  - eapply robust_shrink; [apply Hi|exact HT|done|done|]. intros q B Hq.
    unfold kept_mem; simpl. rewrite (msum_delete _ (m_heap (c_mem s)) p ob Hob).
    unfold in_object at 1. rewrite Hv. tally. lia.
Qed.

(** Every frame. *)
Lemma frame_step s tid o f stack l :
  minv s → c_threads s !! tid = Some (Thread o (f :: stack) l) → step_ok s tid o f stack l.
Proof.
  intros Hi HT. destruct f; try (by destruct (frame_was_ok _ _ _ _ _ _ Hi HT));
    auto using delay_ok, retire_step_ok, work_ok, scan_ok, apply_ok, eject_step_ok, dec_ok, weak_read_ok,
      dispose_step_ok, destruct_ok, disposed_ok, destroy_step_ok, delete_ok.
Qed.

End frames.
