(* ===== verification/HpOps.v ===== *)
(** * The pointer classes keep the invariant

    One lemma per group of instructions of [atomic_rc_ptr], [rc_ptr] and
    [snapshot_ptr] on the hazard-pointer machine ([op_step]). *)

From S2P Require Import Prelude StickyCounter CountedObject MemoryManager AtomicLoc AcquireRetire HpMachine HpInvariant HpFacts HpEffects HpFrames.
Local Open Scope nat_scope.

Section ops.
  Context {V : Type} `{Pol : !Policy}.
  Implicit Types (p q w : Z) (l : local) (m : mem V) (B : nat → bool) (s : cstate V) (T : thread).

(** ** Variables *)

Lemma hit_null p w : p ≠ 0%Z → raw w = 0%Z → hit p w = 0.
Proof. intros. apply hit_other. congruence. Qed.

Lemma null_true w : null w = true ↔ raw w = 0%Z.
Proof. unfold null. apply Z.eqb_eq. Qed.

Lemma null_false w : null w = false ↔ real w.
Proof. unfold null. apply Z.eqb_neq. Qed.

Lemma own_vars_rc p l dst w :
  p ≠ 0%Z → free_rc l dst → own_vars p (set_rcs (<[dst := w]> (l_rcs l)) l) = own_vars p l + hit p w.
Proof.
  intros Hp (w0 & Hw0 & Hn). apply null_true in Hn. unfold own_vars; simpl.
  pose proof (sum_insert (hit p) _ _ _ w Hw0). rewrite (hit_null p w0) in * by done. lia.
Qed.

Definition counted_word (a : snapshot) : Z := match a.2 with None => a.1 | Some _ => 0 end.

Lemma own_vars_swap p l dst (a a0 : snapshot) :
  p ≠ 0%Z → raw 0 = 0%Z → l_snaps l !! dst = Some a0 →
  own_vars p (set_snaps (<[dst := a]> (l_snaps l)) l) + hit p (counted_word a0) =
  own_vars p l + hit p (counted_word a).
Proof.
  intros Hp H0 Ha. unfold own_vars; simpl.
  pose proof (sum_insert (λ a : snapshot, match a.2 with None => hit p a.1 | Some _ => 0 end) _ _ _ a Ha) as E.
  assert (∀ b : snapshot, match b.2 with None => hit p b.1 | Some _ => 0 end = hit p (counted_word b)) as Hb.
  { intros [w [k|]]; [|done]. unfold counted_word; simpl. by rewrite (hit_null p 0). }
  cbv beta in E. rewrite !Hb in E. lia.
Qed.

Lemma own_vars_snap p l dst (a : snapshot) :
  p ≠ 0%Z → raw 0 = 0%Z → free_snap l dst →
  own_vars p (set_snaps (<[dst := a]> (l_snaps l)) l) = own_vars p l + hit p (counted_word a).
Proof.
  intros Hp H0 (w0 & Hw0 & Hn). apply null_true in Hn.
  rewrite <-(own_vars_swap p l dst a _ Hp H0 Hw0). unfold counted_word at 1; simpl.
  rewrite (hit_null p w0) by done. lia.
Qed.

Lemma raw_zero : raw 0 = 0%Z.
Proof. by apply raw_aligned. Qed.

Lemma free_snap_here l dst : free_snap l dst → is_Some (l_snaps l !! dst).
Proof. intros (w & Hw & _). eauto. Qed.

Lemma snap_holds_set l dst a k p :
  is_Some (l_snaps l !! dst) → (k, p) ∈ concat (snap_holds <$> <[dst := a]> (l_snaps l)) →
  (k, p) ∈ snap_holds a ∨ (k, p) ∈ concat (snap_holds <$> l_snaps l).
Proof.
  intros [w0 Hw0] H. apply list_elem_of_In, in_concat in H as (x & Hx & Hin).
  rewrite <-list_elem_of_In in Hx. rewrite <-list_elem_of_In in Hin.
  apply list_elem_of_fmap in Hx as (b & -> & [r Hr]%list_elem_of_lookup).
  destruct (decide (dst = r)) as [->|Hne].
  - rewrite list_lookup_insert_eq in Hr by (by eapply lookup_lt_Some). simplify_eq. by left.
  - rewrite list_lookup_insert_ne in Hr by done. right. apply list_elem_of_In, in_concat.
    exists (snap_holds b). rewrite <-!list_elem_of_In. split; [|done].
    apply list_elem_of_fmap. exists b. split; [done|]. by eapply list_elem_of_lookup_2.
Qed.

Lemma snaps_ok_set tid m l dst (a : snapshot) :
  snaps_ok tid m l → is_Some (l_snaps l !! dst) →
  (∀ w k, a = (w, Some k) →
     real w ∧ announces m k (raw w) ∧ unused l k ∧ ∃ j, j < snapshot_slots ∧ k = snap_slot tid j) →
  snaps_ok tid m (set_snaps (<[dst := a]> (l_snaps l)) l).
Proof.
  intros [H1 H2] [w0 Hw0] Ha. pose proof (lookup_lt_Some _ _ _ Hw0) as Hlt.
  assert (∀ r w k, <[dst := a]> (l_snaps l) !! r = Some (w, Some k) →
    (r = dst ∧ a = (w, Some k)) ∨ (r ≠ dst ∧ l_snaps l !! r = Some (w, Some k))) as Hcase.
  { intros r w k Hr. destruct (decide (r = dst)) as [->|Hne].
    - rewrite list_lookup_insert_eq in Hr by done. left. by simplify_eq.
    - rewrite list_lookup_insert_ne in Hr by done. by right. }
  split; simpl.
  - intros r w k [[-> Hw]|[_ Hr]]%Hcase; [|by eapply H1]. destruct (Ha w k Hw) as (?&?&_&?). auto.
  - intros r r' w w' k [[-> Hw]|[Hr1 Hr]]%Hcase [[-> Hw']|[Hr1' Hr']]%Hcase; simplify_eq; try done.
    + destruct (Ha w k eq_refl) as (_ & _ & Hu & _). by apply Hu in Hr'.
    + destruct (Ha w' k eq_refl) as (_ & _ & Hu & _). by apply Hu in Hr.
    + by eapply H2.
Qed.

Lemma snaps_ok_slot tid m l k x :
  snaps_ok tid m l → unused l k →
  snaps_ok tid (Mem (m_heap m) (m_roots m) (<[k := x]> (m_slots m))) l.
Proof.
  intros [H1 H2] Hu. split; [|done]. intros r w k' Hr. destruct (H1 _ _ _ Hr) as (? & Ha & ?).
  split; [done|]. split; [|done]. unfold announces in *; simpl.
  rewrite list_lookup_insert_ne; [done|]. intros ->. by apply Hu in Hr.
Qed.

Lemma main_unused tid m l : snaps_ok tid m l → unused l (main_slot tid).
Proof. intros [H _] r w Hr. destruct (H _ _ _ Hr) as (_ & _ & j & _ & E). slot_lia. Qed.

(** ** Steps without effect on objects *)

Definition opt (f : op → nat) (o : option op) : nat := match o with Some o => f o | None => 0 end.

Section step.
  Context s (tid : nat) (o : op) l (Hi : minv s).
  Context (HT : c_threads s !! tid = Some (Thread (Some o) [] l)).

Lemma op_was_ok : op_ok tid (c_mem s) l o.
Proof. apply (inv_thread s (inv_tinv s Hi) tid _ HT). Qed.

Lemma vars_were_ok : snaps_ok tid (c_mem s) l ∧ strong_entries (l_deferred l).
Proof. by destruct (inv_thread s (inv_tinv s Hi) tid _ HT). Qed.

Lemma slot_in_range k :
  tid * slots_per_thread ≤ k < tid * slots_per_thread + slots_per_thread →
  is_Some (m_slots (c_mem s) !! k).
Proof.
  intros Hk. apply lookup_lt_is_Some. pose proof (inv_slots s (inv_tinv s Hi)) as Hn. unfold slot_count in Hn.
  apply lookup_lt_Some in HT. rewrite Hn. slot_lia.
Qed.

Lemma evolves_slots sl' :
  length sl' = slot_count s →
  (∀ k, k < tid * slots_per_thread ∨ tid * slots_per_thread + slots_per_thread ≤ k →
     sl' !! k = m_slots (c_mem s) !! k) →
  evolves s tid (Mem (m_heap (c_mem s)) (m_roots (c_mem s)) sl').
Proof.
  intros Hn Ho. constructor; try done. intros p k x _ Hm. exists x. split; [done|]. destruct x; simpl; eauto.
Qed.

(** The thread goes on to [o'] with variables [l'] and announcements [sl']. *)
Lemma op_local o' l' sl' :
  length sl' = slot_count s →
  (∀ k, k < tid * slots_per_thread ∨ tid * slots_per_thread + slots_per_thread ≤ k →
     sl' !! k = m_slots (c_mem s) !! k) →
  thread_ok tid (Mem (m_heap (c_mem s)) (m_roots (c_mem s)) sl') (Thread o' [] l') →
  l_deferred l' = l_deferred l →
  (∀ p, p ≠ 0%Z → opt (own_op p) o' + own_vars p l' = own_op p o + own_vars p l) →
  (∀ p, p ≠ 0%Z → opt (kept_op p) o' = kept_op p o) →
  (∀ p B, p ≠ 0%Z → opt (due_op B p) o' = due_op B p o ∧ opt (soft_op B p) o' = soft_op B p o ∧
     opt (due_reserved p) o' = due_reserved p o) →
  (∀ k p, (k, p) ∈ holds tid (Thread o' [] l') → (k, p) ∈ holds tid (Thread (Some o) [] l)) →
  minv (after s tid (Thread o' [] l') (Mem (m_heap (c_mem s)) (m_roots (c_mem s)) sl')).
Proof.
  intros Hn Hot Hok Hd Hown Hk Hdue Hh.
  eapply minv_silent; [done|exact HT|by apply evolves_others, evolves_slots|done|done|done|..].
  - intros p Hp. specialize (Hown p Hp). unfold own_thread, on_op, opt in *; simpl in *. rewrite Hd.
    destruct o'; lia.
  - intros p Hp. destruct (Hdue p all_slots Hp) as (E1 & E2 & E3).
    unfold dues_thread, due_thread, soft_thread, reserved_thread, on_op, opt in *; simpl in *. destruct o'; lia.
  - intros p st. done.
  - eapply robust_shrink; [apply Hi|exact HT|done|done|]. intros p B Hp.
    specialize (Hk p Hp). destruct (Hdue p B Hp) as (E1 & E2 & _).
    change (kept_mem p (Mem (m_heap (c_mem s)) (m_roots (c_mem s)) sl')) with (kept_mem p (c_mem s)).
    unfold kept_thread, due_thread, soft_thread, on_op, opt in *; simpl in *. rewrite Hd. destruct o'; lia.
Qed.

(** No announcement changes. *)
Lemma op_quiet o' l' :
  match o' with Some o' => op_ok tid (c_mem s) l' o' | None => True end →
  snaps_ok tid (c_mem s) l' → l_deferred l' = l_deferred l →
  (∀ p, p ≠ 0%Z → opt (own_op p) o' + own_vars p l' = own_op p o + own_vars p l) →
  (∀ p, p ≠ 0%Z → opt (kept_op p) o' = kept_op p o) →
  (∀ p B, p ≠ 0%Z → opt (due_op B p) o' = due_op B p o ∧ opt (soft_op B p) o' = soft_op B p o ∧
     opt (due_reserved p) o' = due_reserved p o) →
  (∀ k p, (k, p) ∈ holds tid (Thread o' [] l') → (k, p) ∈ holds tid (Thread (Some o) [] l)) →
  minv (after s tid (Thread o' [] l') (c_mem s)).
Proof.
  intros Hop Hs Hd Ho Hk Hdue Hh. pose proof (op_local o' l' (m_slots (c_mem s))) as H.
  rewrite mem_eta in H. apply H; try done. constructor; try done. simpl. rewrite Hd. apply vars_were_ok.
Qed.

(** One slot of the thread that no snapshot uses changes. *)
Lemma op_announce o' l' k x :
  tid * slots_per_thread ≤ k < tid * slots_per_thread + slots_per_thread →
  unused l' k →
  match o' with
  | Some o' => op_ok tid (Mem (m_heap (c_mem s)) (m_roots (c_mem s)) (<[k := x]> (m_slots (c_mem s)))) l' o'
  | None => True end →
  snaps_ok tid (c_mem s) l' → l_deferred l' = l_deferred l →
  (∀ p, p ≠ 0%Z → opt (own_op p) o' + own_vars p l' = own_op p o + own_vars p l) →
  (∀ p, p ≠ 0%Z → opt (kept_op p) o' = kept_op p o) →
  (∀ p B, p ≠ 0%Z → opt (due_op B p) o' = due_op B p o ∧ opt (soft_op B p) o' = soft_op B p o ∧
     opt (due_reserved p) o' = due_reserved p o) →
  (∀ k p, (k, p) ∈ holds tid (Thread o' [] l') → (k, p) ∈ holds tid (Thread (Some o) [] l)) →
  wp (store_announcement k x)
    (λ _ ml, ml = (Mem (m_heap (c_mem s)) (m_roots (c_mem s)) (<[k := x]> (m_slots (c_mem s))), l) ∧
             minv (after s tid (Thread o' [] l') ml.1)) (c_mem s, l).
Proof.
  intros Hk Hu Hop Hs Hd Ho Hke Hdue Hh. destruct (slot_in_range k Hk) as [y Hy].
  unfold store_announcement. wp_step. unfold mem_get. wp_step. simpl. wp_step. wp_step; [exact Hy|].
  wp_step. simpl. split; [done|]. apply op_local; try done.
  - by rewrite length_insert.
  - intros k' Hk'. rewrite list_lookup_insert_ne; [done|]. lia.
  - constructor; try done; simpl; [rewrite Hd; apply vars_were_ok|]. by apply snaps_ok_slot.
Qed.

End step.

(** ** Atomic pointers *)

Definition cell_has m (c : loc) w : Prop :=
  match c with
  | LCell i => m_roots m !! i = Some w
  | LField p k => member_of m p k (MAtomicRc w)
  end.

Lemma wp_cell_load m l l' c Q :
  loc_ok m l' c → (∀ w, cell_has m c w → Q w (m, l)) → wp (cell_load c) Q (m, l).
Proof.
  destruct c as [i|p k]; simpl.
  - intros Hlt HQ. apply lookup_lt_is_Some in Hlt as [w Hw]. wp_step. unfold mem_get. wp_step.
    wp_step; [exact Hw|]. by apply HQ.
  - intros [[Hp _] (w & ob & v & Ho & Hv & Hk)] HQ. wp_step. eapply wp_payload_at; [done..|].
    rewrite Hk. wp_step. apply HQ. by exists ob, v.
Qed.

Lemma cell_kept m c w : cell_has m c w → 0 < kept_mem (raw w) m.
Proof.
  unfold kept_mem. destruct c as [i|p k]; simpl.
  - intros Hw. pose proof (sum_lookup_le (hit (raw w)) _ _ _ Hw) as H. rewrite hit_same in H by done. lia.
  - intros (ob & v & Ho & Hv & Hk). rewrite (msum_delete _ (m_heap m) p ob Ho). unfold in_object at 1. rewrite Hv.
    pose proof (sum_lookup_le (kept_member (raw w)) _ _ _ Hk) as H. simpl in H. rewrite hit_same in H by done. lia.
Qed.

(** The memory after a write of [w]. *)
Definition cell_write (c : loc) w m : mem V :=
  match c with
  | LCell i => Mem (m_heap m) (<[i := w]> (m_roots m)) (m_slots m)
  | LField p k =>
      match m_heap m !! p with
      | Some o =>
          match storage o with
          | Some v => Mem (<[p := set_storage (Some (Payload (data v) (<[k := MAtomicRc w]> (members v)))) o]> (m_heap m))
                        (m_roots m) (m_slots m)
          | None => m
          end
      | None => m
      end
  end.

Lemma wp_cell_store m l l' c old w Q :
  loc_ok m l' c → cell_has m c old → Q tt (cell_write c w m, l) → wp (cell_store c w) Q (m, l).
Proof.
  destruct c as [i|p k]; simpl.
  - intros _ Hw HQ. wp_step. unfold mem_get. wp_step. wp_step. wp_step; [exact Hw|]. unfold set_m_roots. by wp_step.
  - intros [[Hp _] _] (ob & v & Ho & Hv & Hk) HQ. rewrite Ho, Hv in HQ. wp_step. eapply wp_payload_at; [done..|].
    rewrite Hk. by eapply wp_update.
Qed.

Lemma cell_write_mem m c old w p :
  cell_has m c old →
  own_mem p (cell_write c w m) + hit p old = own_mem p m + hit p w ∧
  kept_mem p (cell_write c w m) + hit p old = kept_mem p m + hit p w.
Proof.
  unfold own_mem, kept_mem. destruct c as [i|q k]; simpl.
  - intros Hw. pose proof (sum_insert (hit p) _ _ _ w Hw). lia.
  - intros (ob & v & Ho & Hv & Hk). rewrite Ho, Hv. simpl.
    set (o' := set_storage _ ob).
    pose proof (msum_insert (in_object (own_member p)) _ _ _ o' Ho) as E1.
    pose proof (msum_insert (in_object (kept_member p)) _ _ _ o' Ho) as E2.
    pose proof (sum_insert (own_member p) _ _ _ (MAtomicRc w) Hk) as E3.
    pose proof (sum_insert (kept_member p) _ _ _ (MAtomicRc w) Hk) as E4.
    unfold in_object at 2 4 in E1. unfold in_object at 2 4 in E2. rewrite Hv in E1, E2. simpl in *. lia.
Qed.

Lemma cell_write_evolves s tid c old w :
  cell_has (c_mem s) c old → evolves s tid (cell_write c w (c_mem s)).
Proof.
  destruct c as [i|q k]; simpl.
  - intros Hw. constructor; simpl; try done; [by rewrite length_insert|].
    intros p k x _ Hm. exists x. split; [done|]. destruct x; simpl; eauto.
  - intros (ob & v & Ho & Hv & Hk). rewrite Ho, Hv. constructor; try done.
    intros p k' x _ (o1 & v1 & Ho1 & Hv1 & Hk1). unfold member_of; simpl.
    destruct (decide (p = q)) as [->|Hne].
    + simplify_eq. rewrite lookup_insert_eq. destruct (decide (k = k')) as [->|Hk'].
      * simplify_eq. exists (MAtomicRc w). split; [|simpl; eauto]. eexists _, _. split; [done|]. split; [done|].
        simpl. apply list_lookup_insert_eq. by eapply lookup_lt_Some.
      * exists x. split; [|destruct x; simpl; eauto]. eexists _, _. split; [done|]. split; [done|].
        simpl. by rewrite list_lookup_insert_ne.
    + exists x. split; [|destruct x; simpl; eauto]. rewrite lookup_insert_ne by done. eauto.
Qed.

(** What [minv_write] asks of the heap. *)
Lemma cell_write_heap s tid T c old w :
  minv s → c_threads s !! tid = Some T → loc_ok (c_mem s) (t_local T) c → cell_has (c_mem s) c old →
  m_heap (cell_write c w (c_mem s)) = m_heap (c_mem s) ∨
  ∃ q o o', m_heap (c_mem s) !! q = Some o ∧ 0 < owned s q ∧ q ≠ 0%Z ∧
    m_heap (cell_write c w (c_mem s)) = <[q := o']> (m_heap (c_mem s)) ∧ ref_cnt o' = ref_cnt o ∧ whole o'.
Proof.
  intros Hi HT. destruct c as [i|q k]; simpl; [by left|].
  intros [Hp _] (ob & v & Ho & Hv & Hk). right. rewrite Ho, Hv.
  pose proof (points_owned s tid T q (inv_tinv s Hi) HT Hp) as Hown.
  destruct (owned_live s q Hi (proj1 Hp) Hown) as (o1 & Ho1 & [_ (Hw & Hd & v1 & Hv1 & Hms)] & _). simplify_eq.
  exists q, ob. eexists. split; [done|]. split; [done|]. split; [apply Hp|]. split; [done|]. split; [done|].
  split; [done|]. split; [done|]. eexists. split; [done|]. simpl. by apply Forall_insert.
Qed.

(** ** Increments *)

(** The next instruction, if the call goes on; the variables change only when it
    is over. *)
Definition next_ok (tid : nat) m l l' (o' : option op) : Prop :=
  match o' with Some o' => l' = l ∧ op_ok tid m l o' | None => True end.

Lemma thread_ok_next s tid o l m' o' fs l' :
  minv s → c_threads s !! tid = Some (Thread (Some o) [] l) →
  evolves s tid m' → m_slots m' = m_slots (c_mem s) →
  next_ok tid (c_mem s) l l' o' → Forall frame_ok fs →
  snaps_ok tid (c_mem s) l' → l_deferred l' = l_deferred l →
  thread_ok tid m' (Thread o' fs l').
Proof.
  intros Hi HT Hev Hsl Hn Hfs Hs Hd. constructor; simpl; [|done|rewrite Hd; by eapply vars_were_ok|].
  - destruct o' as [o'|]; [|done]. destruct Hn as [-> Hop].
    eapply (op_ok_evolves s tid m' tid (Thread (Some o) [] l)); [apply Hi|done|done| |done].
    unfold announces. intros k p. by rewrite Hsl.
  - unfold snaps_ok, announces. by rewrite Hsl.
Qed.

Lemma thread_step_add x :
  (0 < x < 2 ^ 30)%Z →
  thread_step cnt_width (IncAdd 1) x = Some (Returned (RInc true), (x + 1)%Z).
Proof.
  intros Hx. simpl. rewrite land_zero_flag_clear, wrap_small;
    try done; change (2 ^ (cnt_width - 2))%Z with (2 ^ 30)%Z; lia.
Qed.

(** The increment of an object that is alive succeeds; the thread goes on to
    [o'] and [fs] with one reference more or one increment less to come. *)
Lemma op_increment s tid o l w o' fs l' :
  minv s → has_room (c_mem s) → c_threads s !! tid = Some (Thread (Some o) [] l) →
  real w → 0 < owned s (raw w) →
  next_ok tid (c_mem s) l l' o' → Forall frame_ok fs →
  snaps_ok tid (c_mem s) l' → l_deferred l' = l_deferred l →
  (∀ p, p ≠ 0%Z → p ≠ raw w → own_thread p (Thread o' fs l') = own_thread p (Thread (Some o) [] l) ∧
     dues_thread p (Thread o' fs l') = dues_thread p (Thread (Some o) [] l)) →
  own_thread (raw w) (Thread o' fs l') + dues_thread (raw w) (Thread (Some o) [] l) =
    own_thread (raw w) (Thread (Some o) [] l) + dues_thread (raw w) (Thread o' fs l') + 1 →
  (∀ p st, sum_list_with (stage_frame p st) fs = 0) →
  (∀ k p, (k, p) ∈ holds tid (Thread o' fs l') → (k, p) ∈ holds tid (Thread (Some o) [] l)) →
  (∀ p B, p ≠ 0%Z →
     kept_thread B (slot_count s) p (Thread (Some o) [] l) + due_thread B p (Thread o' fs l') ≤
     kept_thread B (slot_count s) p (Thread o' fs l') + due_thread B p (Thread (Some o) [] l) ∧
     soft_thread B p (Thread o' fs l') ≤ soft_thread B p (Thread (Some o) [] l)) →
  wp (strong_step (raw w) (IncAdd 1))
    (λ c ml, c = Returned (RInc true) ∧ ∃ m', ml = (m', l) ∧ minv (after s tid (Thread o' fs l') m')) (c_mem s, l).
Proof.
  intros Hi Hroom HT Hw Hown Hn Hfs Hs Hd Hne Heq Hst Hh Hk.
  destruct (owned_live s (raw w) Hi Hw Hown) as (ob & Hob & [Hr Hwh] & _).
  eapply wp_strong_step; [done..|by apply thread_step_add|]. split; [done|]. eexists. split; [done|].
  assert (evolves s tid (Mem (<[raw w := set_ref_cnt (ref_cnt ob + 1) ob]> (m_heap (c_mem s)))
    (m_roots (c_mem s)) (m_slots (c_mem s)))) as Hev by by eapply evolves_object.
  eapply minv_increment; [done|exact HT|by apply evolves_others| |exact Hw|exact Hob|done|by eapply Hroom|done|done|done|..].
  - by eapply thread_ok_next.
  - intros p st. specialize (Hst p st). unfold stage_thread; simpl. lia.
  - eapply robust_shrink; [apply Hi|exact HT|done|done|]. intros p B Hp.
    destruct (own_mem_counter p (raw w) ob (set_ref_cnt (ref_cnt ob + 1) ob) _
      (m_roots (c_mem s)) (m_slots (c_mem s)) Hob eq_refl) as [_ ->]. rewrite mem_eta.
    specialize (Hk p B Hp). lia.
Qed.

(** ** Writes *)

Lemma op_write s tid o l c old w (d : Z → nat) o' fs l' :
  minv s → c_threads s !! tid = Some (Thread (Some o) [] l) →
  loc_ok (c_mem s) l c → cell_has (c_mem s) c old →
  next_ok tid (c_mem s) l l' o' → Forall frame_ok fs →
  snaps_ok tid (c_mem s) l' → l_deferred l' = l_deferred l →
  (∀ p, p ≠ 0%Z →
     own_thread p (Thread o' fs l') + hit p w = own_thread p (Thread (Some o) [] l) + hit p old + d p) →
  (∀ p, p ≠ 0%Z → dues_thread p (Thread o' fs l') = dues_thread p (Thread (Some o) [] l) + d p) →
  (∀ p, p ≠ 0%Z → 0 < d p → 0 < owned s p) →
  (∀ p st, sum_list_with (stage_frame p st) fs = 0) →
  robust (after s tid (Thread o' fs l') (cell_write c w (c_mem s))) →
  minv (after s tid (Thread o' fs l') (cell_write c w (c_mem s))).
Proof.
  intros Hi HT Hc Hold Hn Hfs Hs Hd Hown Hdues Hpos Hst Hr.
  assert (evolves s tid (cell_write c w (c_mem s))) as Hev by by eapply cell_write_evolves.
  eapply minv_write; [done|exact HT|by apply evolves_others| |by eapply (cell_write_heap s tid (Thread (Some o) [] l))|..|done].
  - eapply thread_ok_next; [done|exact HT|done| |done..].
    destruct c as [i|q k]; simpl; [done|]. destruct Hold as (ob & v & -> & -> & _). done.
  - intros p. by apply cell_write_mem.
  - done.
  - done.
  - done.
  - intros p st. specialize (Hst p st). unfold stage_thread; simpl. lia.
Qed.

(** Robustness after a write, when the thread covers the increments to come with
    announcements it already had. *)
Lemma write_robust s tid o l c old w o' fs l' :
  minv s → c_threads s !! tid = Some (Thread (Some o) [] l) → cell_has (c_mem s) c old →
  (∀ k p, (k, p) ∈ holds tid (Thread o' fs l') → (k, p) ∈ holds tid (Thread (Some o) [] l)) →
  (∀ p B, p ≠ 0%Z →
     kept_thread B (slot_count s) p (Thread (Some o) [] l) + due_thread B p (Thread o' fs l') + hit p old ≤
     kept_thread B (slot_count s) p (Thread o' fs l') + due_thread B p (Thread (Some o) [] l) + hit p w ∧
     soft_thread B p (Thread o' fs l') ≤ soft_thread B p (Thread (Some o) [] l)) →
  robust (after s tid (Thread o' fs l') (cell_write c w (c_mem s))).
Proof.
  intros Hi HT Hold Hh Hk. eapply robust_shrink; [apply Hi|exact HT| |done|].
  - destruct c as [i|q k]; simpl; [done|]. destruct Hold as (ob & v & -> & -> & _). done.
  - intros p B Hp. destruct (cell_write_mem _ c old w p Hold) as [_ E]. specialize (Hk p B Hp). lia.
Qed.

(** What is left to do for the old pointer. *)
Lemma delay_old_frames old :
  Forall frame_ok (delay_old old) ∧
  (∀ p st, sum_list_with (stage_frame p st) (delay_old old) = 0) ∧
  (∀ p, p ≠ 0%Z → sum_list_with (own_frame p) (delay_old old) = hit p old) ∧
  (∀ B n p, p ≠ 0%Z → sum_list_with (kept_frame B n p) (delay_old old) = hit p old).
Proof.
  unfold delay_old. destruct (null old) eqn:Hn.
  - apply null_true in Hn. split_and!; try done; intros; by rewrite hit_null.
  - apply null_false in Hn. split_and!; [by repeat constructor|done|..]; intros; simpl; rewrite Nat.add_0_r; done.
Qed.

Lemma drop_strong_frames w :
  Forall frame_ok (drop_strong w) ∧
  (∀ p st, sum_list_with (stage_frame p st) (drop_strong w) = 0) ∧
  (∀ p, p ≠ 0%Z → sum_list_with (own_frame p) (drop_strong w) = hit p w) ∧
  (∀ B n p, p ≠ 0%Z → sum_list_with (kept_frame B n p) (drop_strong w) = 0).
Proof.
  unfold drop_strong. destruct (null w) eqn:Hn.
  - apply null_true in Hn. split_and!; try done; intros; by rewrite hit_null.
  - apply null_false in Hn. split_and!; [by repeat constructor; auto|done|..]; intros; simpl; rewrite ?Nat.add_0_r; done.
Qed.

End ops.
