(* ===== verification/HpOpSteps.v ===== *)
(** * Every instruction of the pointer classes keeps the invariant *)

From S2P Require Import Prelude StickyCounter CountedObject MemoryManager AtomicLoc AcquireRetire HpMachine HpInvariant HpFacts HpEffects HpFrames HpOps.
Local Open Scope nat_scope.

(** Runs to the end of an instruction: the variables are written and the next
    instruction is chosen. *)
Ltac op_end :=
  unfold finish_load, finish_snap, goto, finish, local_set;
  repeat (cbv beta; lazymatch goal with
    | |- wp (_ ≫= _) _ _ => apply wp_bind
    | |- wp (modify _) _ _ => apply wp_modify
    | |- wp (mret _) _ _ => apply wp_ret
    end); simpl.

Section op_steps.
  Context {V : Type} `{Pol : !Policy}.
  Implicit Types (p q w : Z) (l : local) (m : mem V) (B : nat → bool) (s : cstate V) (T : thread).

(** The instruction neither fails nor breaks the invariant. *)
Definition op_step_ok s tid o l : Prop :=
  wp (exec_op tid o) (λ r ml, minv (after s tid (Thread r.2 r.1 ml.2) ml.1)) (c_mem s, l).

Definition opt_holds (tid : nat) (o : option op) : list (nat * Z) :=
  match o with Some o => op_holds tid o | None => [] end.

(** Fewer announcements protect: those of the instruction are gone, those of the
    snapshots stay. *)
Lemma holds_fewer tid o o' fs fs' l l' k p :
  opt_holds tid o' = [] → l_snaps l' = l_snaps l →
  (k, p) ∈ holds tid (Thread o' fs' l') → (k, p) ∈ holds tid (Thread o fs l).
Proof.
  unfold holds, opt_holds; simpl. intros -> ->. simpl. intros H. apply elem_of_app. by right.
Qed.

Lemma holds_fewer_set tid o o' fs fs' l dst a k p :
  opt_holds tid o' = [] → is_Some (l_snaps l !! dst) → snap_holds a = [] →
  (k, p) ∈ holds tid (Thread o' fs' (set_snaps (<[dst := a]> (l_snaps l)) l)) → (k, p) ∈ holds tid (Thread o fs l).
Proof.
  unfold holds, opt_holds; simpl. intros -> Hf Ha H. simpl in H.
  destruct (snap_holds_set _ _ _ _ _ Hf H) as [H'|H']; [rewrite Ha in H'; by apply elem_of_nil in H'|].
  apply elem_of_app. by right.
Qed.

(** A slot of the thread that none of its snapshots uses protects nothing. *)
Lemma not_held s tid o l k p :
  minv s → c_threads s !! tid = Some (Thread (Some o) [] l) →
  tid * slots_per_thread ≤ k < tid * slots_per_thread + slots_per_thread →
  op_holds tid o = [] → unused l k → ¬ held s k p.
Proof.
  intros Hi HT Hk Ho Hu (u & U & HU & Hin).
  destruct (hold_announces _ _ _ _ _ (inv_thread _ (inv_tinv s Hi) _ _ HU) Hin) as (_ & _ & Hr).
  assert (u = tid) as -> by slot_lia. simplify_eq.
  apply hold_cases in Hin as [(o' & [= <-] & Hin)|(r & w & Hr' & _)]; [|by apply Hu in Hr'].
  rewrite Ho in Hin. by apply elem_of_nil in Hin.
Qed.

(** The second load of [acquire] or [protect_snapshot] saw the announced word:
    from now on the announcement protects the object. *)
Lemma op_validate s tid o l c w k o' l' :
  minv s → c_threads s !! tid = Some (Thread (Some o) [] l) →
  tid * slots_per_thread ≤ k < tid * slots_per_thread + slots_per_thread →
  op_holds tid o = [] → unused l k → cell_has (c_mem s) c w →
  match o' with Some o' => op_ok tid (c_mem s) l' o' | None => True end →
  snaps_ok tid (c_mem s) l' → l_deferred l' = l_deferred l →
  (∀ p, p ≠ 0%Z → opt (own_op p) o' + own_vars p l' = own_op p o + own_vars p l) →
  (∀ p B, opt (kept_op p) o' = kept_op p o ∧ opt (due_op B p) o' = due_op B p o ∧
     opt (soft_op B p) o' = soft_op B p o ∧ opt (due_reserved p) o' = due_reserved p o) →
  (∀ k' p, (k', p) ∈ holds tid (Thread o' [] l') →
     (k', p) = (k, raw w) ∨ (k', p) ∈ holds tid (Thread (Some o) [] l)) →
  minv (after s tid (Thread o' [] l') (c_mem s)).
Proof.
  intros Hi HT Hk Hoh Hu Hc Hop Hs Hd Hown Heq Hh.
  eapply minv_silent; [done|exact HT|by apply evolves_others, evolves_refl| |done|done|..].
  - constructor; try done. simpl. rewrite Hd. by eapply vars_were_ok.
  - intros p Hp. specialize (Hown p Hp). unfold own_thread, on_op, opt in *; simpl in *. rewrite Hd. destruct o'; lia.
  - intros p Hp. destruct (Heq p all_slots) as (_ & E1 & E2 & E3).
    unfold dues_thread, due_thread, soft_thread, reserved_thread, on_op, opt in *; simpl in *. destruct o'; lia.
  - done.
  - eapply (robust_grow s tid _ _ _ (inv_tinv s Hi) HT eq_refl k (raw w)); [done| |by eapply cell_kept|].
    + intros p. by eapply not_held.
    + intros p B Hp. destruct (Heq p B) as (E1 & E2 & E3 & _).
      unfold kept_thread, due_thread, soft_thread, on_op, opt in *; simpl in *. rewrite Hd. destruct o'; lia.
Qed.

Section step.
  Context s (tid : nat) l (Hi : minv s) (Hroom : has_room (c_mem s)).

Local Abbreviation at_op o := (c_threads s !! tid = Some (Thread (Some o) [] l)).

Lemma main_range : tid * slots_per_thread ≤ main_slot tid < tid * slots_per_thread + slots_per_thread.
Proof. slot_lia. Qed.

Lemma snap_range j : j < snapshot_slots →
  tid * slots_per_thread ≤ snap_slot tid j < tid * slots_per_thread + slots_per_thread.
Proof. slot_lia. Qed.

Lemma held_here o k p : at_op o → (k, p) ∈ op_holds tid o → held s k p.
Proof. intros HT Hk. exists tid, (Thread (Some o) [] l). split; [done|]. apply elem_of_app. by left. Qed.

Lemma snap_held_here o r w k : at_op o → l_snaps l !! r = Some (w, Some k) → held s k (raw w).
Proof. intros HT Hr. exists tid, (Thread (Some o) [] l). split; [done|]. by eapply snap_hold. Qed.

Lemma owner_owned_here o w : at_op o → owner l w → 0 < owned s (raw w).
Proof.
  intros HT Ho. pose proof (own_thread_le s tid _ (raw w) HT) as Hle. unfold own_thread in Hle; simpl in Hle.
  pose proof (owner_owned l w Ho). lia.
Qed.

(** ** acquire *)

Lemma acq_load_ok u c dst : at_op (OAcqLoad u c dst) → op_step_ok s tid (OAcqLoad u c dst) l.
Proof.
  intros HT. destruct (op_was_ok _ _ _ _ Hi HT) as [Hc Hd]. destruct (vars_were_ok _ _ _ _ Hi HT) as [Hs _].
  unfold op_step_ok; instr. wp_step. eapply wp_cell_load; [done|]. intros w _. op_end.
  by eapply op_quiet.
Qed.

Lemma acq_store_ok u c dst w : at_op (OAcqStore u c dst w) → op_step_ok s tid (OAcqStore u c dst w) l.
Proof.
  intros HT. destruct (op_was_ok _ _ _ _ Hi HT) as [Hc Hd]. destruct (vars_were_ok _ _ _ _ Hi HT) as [Hs _].
  unfold op_step_ok; instr. wp_step. eapply wp_mono.
  - apply (op_announce s tid _ l Hi HT (Some (OAcqCheck u c dst w)) l (main_slot tid) (raw w) main_range); try done.
    + by eapply main_unused.
    + split; [done|]. split; [done|]. unfold announces; simpl. apply list_lookup_insert_eq.
      destruct (slot_in_range _ _ _ _ Hi HT (main_slot tid) main_range) as [y Hy]. by eapply lookup_lt_Some.
  - intros [] ml [-> Hm]. op_end. exact Hm.
Qed.

Lemma acq_check_ok u c dst w : at_op (OAcqCheck u c dst w) → op_step_ok s tid (OAcqCheck u c dst w) l.
Proof.
  intros HT. destruct (op_was_ok _ _ _ _ Hi HT) as (Hc & Hd & Ha). destruct (vars_were_ok _ _ _ _ Hi HT) as [Hs _].
  unfold op_step_ok; instr. wp_step. eapply wp_cell_load; [done|]. intros w' Hw'.
  destruct (Z.eqb_spec w' w) as [->|]; simpl; [|op_end; by eapply op_quiet].
  pose proof (main_unused _ _ _ Hs) as Hu.
  assert (∀ o', op_ok tid (c_mem s) l o' → op_holds tid o' = [(main_slot tid, raw w)] →
    (∀ p, own_op p o' = 0 ∧ kept_op p o' = 0 ∧ due_reserved p o' = 0) → (∀ p B, due_op B p o' = 0 ∧ soft_op B p o' = 0) →
    minv (after s tid (Thread (Some o') [] l) (c_mem s))) as Hval.
  { intros o' Hop Hh Hz Hz'. eapply (op_validate s tid _ l c w (main_slot tid)); try done; [apply main_range|..].
    - intros p Hp. simpl. destruct (Hz p) as (-> & _). done.
    - intros p B. simpl. destruct (Hz p) as (_ & -> & ->). by destruct (Hz' p B) as [-> ->].
    - intros k p Hin. unfold holds in Hin; simpl in Hin. rewrite Hh in Hin.
      apply elem_of_cons in Hin as [?|Hin]; [by left|]. right. apply elem_of_app. by right. }
  destruct u, (null w) eqn:Hn; (apply null_true in Hn || apply null_false in Hn).
  - op_end.
    eapply op_quiet; try done.
    intros p Hp. simpl. rewrite own_vars_rc, hit_null by done. lia.
  - op_end. by apply Hval.
  - op_end.
    eapply op_quiet; try done.
    + by eapply snaps_ok_set; [|apply free_snap_here|].
    + intros p Hp. simpl. rewrite own_vars_snap, hit_null by (done || apply raw_zero). lia.
    + intros k p. by eapply holds_fewer_set; [|apply free_snap_here|].
  - op_end. by apply Hval.
Qed.

(** ** load *)

Lemma load_inc_ok dst w : at_op (OLoadInc dst w) → op_step_ok s tid (OLoadInc dst w) l.
Proof.
  intros HT. destruct (op_was_ok _ _ _ _ Hi HT) as (Hd & Hw & Ha). destruct (vars_were_ok _ _ _ _ Hi HT) as [Hs _].
  assert (0 < owned s (raw w)) as Hown.
  { eapply held_owned; [apply Hi|]. eapply held_here; [exact HT|by left]. }
  unfold op_step_ok; instr. wp_step. eapply wp_mono.
  - eapply (op_increment s tid _ l w (Some (OLoadClear dst w)) [] l); try done.
    + intros p _ Hp. tally. rewrite hit_other by congruence. done.
    + tally. rewrite hit_same by done. lia.
    + intros k p. by apply holds_fewer.
  - intros c ml (-> & m' & -> & Hm). op_end. exact Hm.
Qed.

Lemma load_clear_ok dst w : at_op (OLoadClear dst w) → op_step_ok s tid (OLoadClear dst w) l.
Proof.
  intros HT. pose proof (op_was_ok _ _ _ _ Hi HT : free_rc l dst) as Hd. destruct (vars_were_ok _ _ _ _ Hi HT) as [Hs _].
  unfold op_step_ok; instr. wp_step. eapply wp_mono.
  - apply (op_announce s tid _ l Hi HT None (set_rcs (<[dst := w]> (l_rcs l)) l) (main_slot tid) 0%Z main_range); try done.
    + by apply (main_unused tid (c_mem s)).
    + intros p Hp. simpl. rewrite own_vars_rc by done. lia.
  - intros [] ml [-> Hm]. op_end. exact Hm.
Qed.

(** ** get_snapshot *)

Lemma snap_slot_ok c dst j : at_op (OSnapSlot c dst j) → op_step_ok s tid (OSnapSlot c dst j) l.
Proof.
  intros HT. destruct (op_was_ok _ _ _ _ Hi HT) as [Hc Hd]. destruct (vars_were_ok _ _ _ _ Hi HT) as [Hs _].
  unfold op_step_ok; instr. destruct (Nat.ltb_spec j snapshot_slots) as [Hj|Hj]; [|op_end; by eapply op_quiet].
  destruct (slot_in_range _ _ _ _ Hi HT (snap_slot tid j) (snap_range j Hj)) as [y Hy].
  wp_step. unfold mem_get. wp_step. simpl. wp_step. wp_step; [exact Hy|].
  destruct (Z.eqb_spec y 0) as [->|]; op_end; eapply op_quiet; try done.
  split; [done|]. split; [done|]. split; [done|]. intros r w Hr.
  destruct (proj1 Hs r w _ Hr) as (Hw & Ha & _). unfold announces in Ha. simplify_eq. by destruct Hw.
Qed.

Lemma snap_load_ok c dst j : at_op (OSnapLoad c dst j) → op_step_ok s tid (OSnapLoad c dst j) l.
Proof.
  intros HT. destruct (op_was_ok _ _ _ _ Hi HT) as (Hc & Hd & Ho). destruct (vars_were_ok _ _ _ _ Hi HT) as [Hs _].
  unfold op_step_ok; instr. wp_step. eapply wp_cell_load; [done|]. intros w _.
  destruct (null w) eqn:Hn; (apply null_true in Hn || apply null_false in Hn); op_end; by eapply op_quiet.
Qed.

Lemma snap_null_ok dst j w : at_op (OSnapNull dst j w) → op_step_ok s tid (OSnapNull dst j w) l.
Proof.
  intros HT. destruct (op_was_ok _ _ _ _ Hi HT) as (Hd & [Hj Hu] & Hw). destruct (vars_were_ok _ _ _ _ Hi HT) as [Hs _].
  unfold op_step_ok; instr. wp_step. eapply wp_mono.
  - apply (op_announce s tid _ l Hi HT None (set_snaps (<[dst := (w, None)]> (l_snaps l)) l) _ 0%Z (snap_range j Hj)); try done.
    + intros r w' Hr. simpl in Hr. destruct (decide (dst = r)) as [->|Hne].
      * destruct Hd as (w0 & Hw0 & _). rewrite list_lookup_insert_eq in Hr by (by eapply lookup_lt_Some). done.
      * rewrite list_lookup_insert_ne in Hr by done. by apply Hu in Hr.
    + by eapply snaps_ok_set; [|apply free_snap_here|].
    + intros p Hp. simpl. rewrite own_vars_snap, hit_null by (done || apply raw_zero). lia.
    + intros k p. by eapply holds_fewer_set; [|apply free_snap_here|].
  - intros [] ml [-> Hm]. op_end. exact Hm.
Qed.

Lemma snap_store_ok c dst j w : at_op (OSnapStore c dst j w) → op_step_ok s tid (OSnapStore c dst j w) l.
Proof.
  intros HT. destruct (op_was_ok _ _ _ _ Hi HT) as (Hc & Hd & [Hj Hu] & Hw). destruct (vars_were_ok _ _ _ _ Hi HT) as [Hs _].
  unfold op_step_ok; instr. wp_step. eapply wp_mono.
  - apply (op_announce s tid _ l Hi HT (Some (OSnapCheck c dst j w)) l _ (raw w) (snap_range j Hj)); try done.
    split_and!; try done. unfold announces; simpl. apply list_lookup_insert_eq.
    destruct (slot_in_range _ _ _ _ Hi HT (snap_slot tid j) (snap_range j Hj)) as [y Hy]. by eapply lookup_lt_Some.
  - intros [] ml [-> Hm]. op_end. exact Hm.
Qed.

Lemma snap_check_ok c dst j w : at_op (OSnapCheck c dst j w) → op_step_ok s tid (OSnapCheck c dst j w) l.
Proof.
  intros HT. destruct (op_was_ok _ _ _ _ Hi HT) as (Hc & Hd & [Hj Hu] & Hw & Ha).
  destruct (vars_were_ok _ _ _ _ Hi HT) as [Hs _].
  unfold op_step_ok; instr. wp_step. eapply wp_cell_load; [done|]. intros w' Hw'.
  destruct (Z.eqb_spec w' w) as [->|]; simpl; op_end; [|by eapply op_quiet].
  eapply (op_validate s tid _ l c w (snap_slot tid j)); try done; [by apply snap_range|..].
  - eapply snaps_ok_set; [done|by apply free_snap_here|]. intros w' k [= <- <-]. split_and!; try done. by exists j.
  - intros p Hp. simpl. rewrite own_vars_snap by (done || apply raw_zero). simpl. rewrite hit_null by (done || apply raw_zero). lia.
  - intros k p Hin. unfold holds in Hin; simpl in Hin.
    destruct (snap_holds_set _ _ _ _ _ (free_snap_here _ _ Hd) Hin) as [Hk|Hk]; [|by right]. left.
    by apply list_elem_of_singleton in Hk as [= -> ->].
Qed.

Lemma snap_inc_ok c dst w : at_op (OSnapInc c dst w) → op_step_ok s tid (OSnapInc c dst w) l.
Proof.
  intros HT. destruct (op_was_ok _ _ _ _ Hi HT) as (Hc & Hd & Hw & Ha). destruct (vars_were_ok _ _ _ _ Hi HT) as [Hs _].
  assert (0 < owned s (raw w)) as Hown.
  { eapply held_owned; [apply Hi|]. eapply held_here; [exact HT|by left]. }
  unfold op_step_ok; instr. wp_step. eapply wp_mono.
  - eapply (op_increment s tid _ l w (Some (OSnapClear c dst w Counted)) [] l); try done.
    + intros p _ Hp. tally. rewrite hit_other by congruence. done.
    + tally. rewrite hit_same by done. lia.
    + intros k p. by apply holds_fewer.
  - intros c' ml (-> & m' & -> & Hm). op_end. exact Hm.
Qed.

Lemma snap_again_ok c dst w : at_op (OSnapAgain c dst w) → op_step_ok s tid (OSnapAgain c dst w) l.
Proof.
  intros HT. destruct (op_was_ok _ _ _ _ Hi HT) as [Hc Hd]. destruct (vars_were_ok _ _ _ _ Hi HT) as [Hs _].
  unfold op_step_ok; instr. wp_step. eapply wp_cell_load; [done|]. intros w' _. op_end.
  destruct (w' =? w)%Z; by eapply op_quiet.
Qed.

Lemma snap_clear_ok c dst w r : at_op (OSnapClear c dst w r) → op_step_ok s tid (OSnapClear c dst w r) l.
Proof.
  intros HT. destruct (op_was_ok _ _ _ _ Hi HT) as [Hc Hd]. destruct (vars_were_ok _ _ _ _ Hi HT) as [Hs _].
  pose proof (main_unused _ _ _ Hs) as Hu.
  assert (∀ w0, unused (set_snaps (<[dst := (w0, None)]> (l_snaps l)) l) (main_slot tid)) as Hu'.
  { intros w0. eapply (main_unused tid (c_mem s)). by eapply snaps_ok_set; [|apply free_snap_here|]. }
  assert (∀ w0, (∀ p, p ≠ 0%Z → hit p w0 = own_op p (OSnapClear c dst w r)) →
    wp (store_announcement (main_slot tid) 0)
      (λ _, wp (finish_snap dst (w0, None)) (λ r ml, minv (after s tid (Thread r.2 r.1 ml.2) ml.1))) (c_mem s, l)) as Hend.
  { intros w0 Hw0. eapply wp_mono.
    - apply (op_announce s tid _ l Hi HT None (set_snaps (<[dst := (w0, None)]> (l_snaps l)) l) _ 0%Z main_range); try done.
      + by eapply snaps_ok_set; [|apply free_snap_here|].
      + intros p Hp. simpl opt. rewrite own_vars_snap by (done || apply raw_zero). specialize (Hw0 p Hp).
        unfold counted_word, fst, snd, opt. lia.
      + intros k p. by eapply holds_fewer_set; [|apply free_snap_here|].
    - intros [] ml [-> Hm]. op_end. exact Hm. }
  unfold op_step_ok; instr. wp_step. destruct r; [by apply Hend| |].
  - apply Hend. intros p Hp. by rewrite hit_null by (done || apply raw_zero).
  - eapply wp_mono.
    + by apply (op_announce s tid _ l Hi HT (Some (OAcqLoad ForSnapshot c dst)) l _ 0%Z main_range).
    + intros [] ml [-> Hm]. op_end. exact Hm.
Qed.

(** ** store *)

Lemma exchange_ok c w : at_op (OExchange c w) → op_step_ok s tid (OExchange c w) l.
Proof.
  intros HT. pose proof (op_was_ok _ _ _ _ Hi HT : loc_ok _ _ _) as Hc. destruct (vars_were_ok _ _ _ _ Hi HT) as [Hs _].
  unfold op_step_ok; instr. wp_step. unfold cell_exchange. wp_step. eapply wp_cell_load; [done|]. intros old Hold.
  wp_step. eapply wp_cell_store; [done|exact Hold|]. op_end.
  destruct (delay_old_frames old) as (F1 & F2 & F3 & F4).
  eapply (op_write s tid _ l c old w (λ _, 0)); try done.
  - intros p Hp. specialize (F3 p Hp). tally. lia.
  - lia.
  - eapply write_robust; [done|exact HT|done|done|]. intros p B Hp. specialize (F4 B (slot_count s) p Hp). tally. lia.
Qed.

Lemma snap_owned o w k : at_op o → protected_snap l w k → 0 < owned s (raw w).
Proof.
  intros HT (_ & r & Hr). eapply held_owned; [apply Hi|]. by eapply snap_held_here.
Qed.

Lemma op_store_snap_ok c w k : at_op (OStoreSnap c w k) → op_step_ok s tid (OStoreSnap c w k) l.
Proof.
  intros HT. destruct (op_was_ok _ _ _ _ Hi HT) as (Hc & Hp). destruct (vars_were_ok _ _ _ _ Hi HT) as [Hs _].
  unfold op_step_ok; instr. wp_step. unfold cell_exchange. wp_step. eapply wp_cell_load; [done|]. intros old Hold.
  wp_step. eapply wp_cell_store; [done|exact Hold|]. op_end.
  destruct (Z.eqb_spec old w) as [->|Hne]; simpl; op_end.
  - eapply (op_write s tid _ l c w w (λ _, 0)); try done; [lia|].
    eapply write_robust; [done|exact HT|done|done|]. intros p B Hp'. tally. lia.
  - eapply (op_write s tid _ l c old w (λ p, hit p w)); try done.
    + intros p Hp'. tally. lia.
    + intros p Hp'. tally. lia.
    + intros p Hp' Hpos. unfold hit, one in Hpos. case_decide; [|lia]. subst p. by eapply snap_owned.
    + eapply write_robust; [done|exact HT|done|done|]. intros p B Hp'. tally. destruct (B k); lia.
Qed.

Lemma store_inc_ok w old k : at_op (OStoreInc w old k) → op_step_ok s tid (OStoreInc w old k) l.
Proof.
  intros HT. pose proof (op_was_ok _ _ _ _ Hi HT : protected_snap _ _ _) as Hp.
  destruct (vars_were_ok _ _ _ _ Hi HT) as [Hs _]. pose proof (snap_owned _ _ _ HT Hp) as Hown.
  destruct (delay_old_frames old) as (F1 & F2 & F3 & F4).
  unfold op_step_ok; instr. wp_step. eapply wp_mono.
  - eapply (op_increment s tid _ l w None (delay_old old) l); try done; [apply Hp|..].
    + intros p Hp0 Hne. specialize (F3 p Hp0). tally. rewrite (hit_other p w) by congruence. lia.
    + specialize (F3 (raw w) (proj1 Hp)). tally. rewrite (hit_same (raw w) w) by done. lia.
    + intros p B Hp0. specialize (F4 B (slot_count s) p Hp0). tally. lia.
  - intros c' ml (-> & m' & -> & Hm). op_end. exact Hm.
Qed.

Lemma inc_exchange_ok c w : at_op (OIncExchange c w) → op_step_ok s tid (OIncExchange c w) l.
Proof.
  intros HT. destruct (op_was_ok _ _ _ _ Hi HT) as (Hc & Hw & Ho). destruct (vars_were_ok _ _ _ _ Hi HT) as [Hs _].
  unfold op_step_ok; instr. wp_step. eapply wp_mono.
  - eapply (op_increment s tid _ l w (Some (OExchange c w)) [] l); try done; [by eapply owner_owned_here|..].
    + intros p _ Hp. tally. rewrite hit_other by congruence. done.
    + tally. rewrite hit_same by done. lia.
  - intros c' ml (-> & m' & -> & Hm). op_end. exact Hm.
Qed.

(** ** compare_and_swap *)

Lemma reserve_ok c e d field : at_op (OReserve c e d field) → op_step_ok s tid (OReserve c e d field) l.
Proof.
  intros HT. destruct (op_was_ok _ _ _ _ Hi HT) as [Hc Ho]. destruct (vars_were_ok _ _ _ _ Hi HT) as [Hs _].
  assert (announces (Mem (m_heap (c_mem s)) (m_roots (c_mem s)) (<[main_slot tid:=raw d]> (m_slots (c_mem s))))
    (main_slot tid) (raw d)) as Ha.
  { unfold announces; simpl. apply list_lookup_insert_eq.
    destruct (slot_in_range _ _ _ _ Hi HT (main_slot tid) main_range) as [y Hy]. by eapply lookup_lt_Some. }
  unfold op_step_ok; instr. wp_step. eapply wp_mono.
  - apply (op_announce s tid _ l Hi HT (Some (OCas c e d (if field then ByField (main_slot tid) else ByVar))) l
      (main_slot tid) (raw d) main_range); try done; destruct field; try done; by eapply main_unused.
  - intros [] ml [-> Hm]. op_end. exact Hm.
Qed.

Lemma cell_write_slots m c w old : cell_has m c old → m_slots (cell_write c w m) = m_slots m.
Proof. destruct c as [i|q k]; simpl; [done|]. by intros (ob & v & -> & -> & _). Qed.

Lemma cell_write_has m c w old : cell_has m c old → cell_has (cell_write c w m) c w.
Proof.
  destruct c as [i|q k]; simpl.
  - intros Hw. apply list_lookup_insert_eq. by eapply lookup_lt_Some.
  - intros (ob & v & Ho & Hv & Hk). rewrite Ho, Hv. eexists _, _. simpl. rewrite lookup_insert_eq.
    split; [done|]. split; [done|]. simpl. apply list_lookup_insert_eq. by eapply lookup_lt_Some.
Qed.

Lemma cas_null_ok c e d slot :
  at_op (OCas c e d slot) → loc_ok (c_mem s) l c → cell_has (c_mem s) c e → raw d = 0%Z →
  minv (after s tid (Thread (Some (OCasClear d slot true)) (delay_old e) l) (cell_write c d (c_mem s))).
Proof.
  intros HT Hc He Hd. destruct (vars_were_ok _ _ _ _ Hi HT) as [Hs _].
  destruct (delay_old_frames e) as (F1 & F2 & F3 & F4).
  eapply (op_write s tid _ l c e d (λ _, 0)); try done; [|lia|].
  - intros p Hp. specialize (F3 p Hp). tally. rewrite (hit_null p d) by done. lia.
  - eapply write_robust; [done|exact HT|done|intros k p; by apply holds_fewer|].
    intros p B Hp. specialize (F4 B (slot_count s) p Hp). tally. lia.
Qed.

Lemma cas_snap_ok c e d k :
  at_op (OCas c e d (BySlot k)) → loc_ok (c_mem s) l c → protected_snap l d k → cell_has (c_mem s) c e →
  minv (after s tid (Thread (Some (OCasInc d (BySlot k))) (delay_old e) l) (cell_write c d (c_mem s))).
Proof.
  intros HT Hc Hd He. destruct (vars_were_ok _ _ _ _ Hi HT) as [Hs _].
  destruct (delay_old_frames e) as (F1 & F2 & F3 & F4).
  eapply (op_write s tid _ l c e d (λ p, hit p d)); try done.
  - intros p Hp. specialize (F3 p Hp). tally. lia.
  - intros p Hp. tally. lia.
  - intros p Hp Hpos. unfold hit, one in Hpos. case_decide; [|lia]. subst p. by eapply snap_owned.
  - eapply write_robust; [done|exact HT|done|done|]. intros p B Hp. specialize (F4 B (slot_count s) p Hp).
    tally. destruct (B k); lia.
Qed.

(** The reservation of a pointer protects it from the moment it is stored. *)
Lemma cas_reserved_ok c e d cov :
  at_op (OCas c e d cov) → loc_ok (c_mem s) l c → op_ok tid (c_mem s) l (OCasInc d cov) →
  op_holds tid (OCasInc d cov) = [(main_slot tid, raw d)] → 0 < owned s (raw d) → cell_has (c_mem s) c e →
  minv (after s tid (Thread (Some (OCasInc d cov)) (delay_old e) l) (cell_write c d (c_mem s))).
Proof.
  intros HT Hc Hop Hh Hown He. destruct (vars_were_ok _ _ _ _ Hi HT) as [Hs _].
  destruct (delay_old_frames e) as (F1 & F2 & F3 & F4).
  eapply (op_write s tid _ l c e d (λ p, hit p d)); try done.
  - intros p Hp. specialize (F3 p Hp). tally. lia.
  - intros p Hp. tally. destruct cov; lia.
  - intros p Hp Hpos. unfold hit, one in Hpos. case_decide; [|lia]. by subst p.
  - eapply (robust_grow s tid _ _ _ (inv_tinv s Hi) HT) with (k0 := main_slot tid) (p0 := raw d).
    + by rewrite (cell_write_slots _ c d e).
    + intros k p Hin. unfold holds in Hin; cbn [t_op] in Hin. rewrite Hh in Hin.
      apply elem_of_app in Hin as [?%list_elem_of_singleton|Hin]; [by left|by right].
    + intros p. eapply not_held; [done|exact HT|apply main_range|done|by eapply main_unused].
    + by eapply cell_kept, cell_write_has.
    + intros p B Hp. destruct (cell_write_mem _ c e d p He) as [_ E]. specialize (F4 B (slot_count s) p Hp).
      tally. destruct cov as [|k|k]; simpl in *; [|done|destruct (B k)]; lia.
Qed.

Lemma member_owned_here o w : at_op o → real w → in_member (c_mem s) l w → 0 < owned s (raw w).
Proof. intros HT Hw Hm. eapply (copy_owned s tid); [apply Hi|exact HT|done|by right]. Qed.

Lemma cas_ok c e d cov : at_op (OCas c e d cov) → op_step_ok s tid (OCas c e d cov) l.
Proof.
  intros HT. pose proof (op_was_ok _ _ _ _ Hi HT) as Hop. destruct (vars_were_ok _ _ _ _ Hi HT) as [Hs _].
  assert (loc_ok (c_mem s) l c) as Hc by (destruct cov; apply Hop).
  unfold op_step_ok; instr. wp_step. unfold cell_cas. wp_step. eapply wp_cell_load; [done|]. intros old Hold.
  destruct (Z.eqb_spec old e) as [->|Hne].
  - wp_step. eapply wp_cell_store; [done|exact Hold|]. op_end.
    destruct (null d) eqn:Hn; [apply null_true in Hn; by apply cas_null_ok|apply null_false in Hn].
    destruct cov as [|k|k]; [|by apply cas_snap_ok; try apply Hop|].
    + destruct Hop as (_ & Ho & Ha). apply cas_reserved_ok; try done. by eapply owner_owned_here.
    + destruct Hop as (_ & Hm & -> & Ha). apply cas_reserved_ok; try done. by eapply member_owned_here.
  - op_end. eapply op_quiet; try done.
Qed.

Lemma cas_inc_ok d cov : at_op (OCasInc d cov) → op_step_ok s tid (OCasInc d cov) l.
Proof.
  intros HT. pose proof (op_was_ok _ _ _ _ Hi HT) as Hop. destruct (vars_were_ok _ _ _ _ Hi HT) as [Hs _].
  assert (real d ∧ 0 < owned s (raw d)) as [Hr Hown].
  { destruct cov as [|k|k].
    - destruct Hop as (? & ? & _). split; [done|]. by eapply owner_owned_here.
    - split; [apply Hop|]. by eapply snap_owned.
    - destruct Hop as (? & ? & _). split; [done|]. by eapply member_owned_here. }
  unfold op_step_ok; instr. wp_step. eapply wp_mono.
  - eapply (op_increment s tid _ l d (Some (OCasClear d cov true)) [] l); try done.
    + intros p _ Hp. tally. destruct cov; rewrite hit_other by congruence; done.
    + tally. destruct cov; rewrite hit_same by done; lia.
    + intros k p. by apply holds_fewer.
    + intros p B Hp. tally. lia.
  - intros c' ml (-> & m' & -> & Hm). op_end. exact Hm.
Qed.

Lemma cas_clear_ok d cov b : at_op (OCasClear d cov b) → op_step_ok s tid (OCasClear d cov b) l.
Proof.
  intros HT. destruct (vars_were_ok _ _ _ _ Hi HT) as [Hs _].
  unfold op_step_ok; instr. wp_step. destruct (null d || _).
  - op_end. by eapply op_quiet.
  - eapply wp_mono.
    + apply (op_announce s tid _ l Hi HT None (set_result b l) (main_slot tid) 0%Z main_range); try done.
      by eapply (main_unused tid (c_mem s)).
    + intros [] ml [-> Hm]. op_end. exact Hm.
Qed.

Lemma cas_move_ok c e d r : at_op (OCasMove c e d r) → op_step_ok s tid (OCasMove c e d r) l.
Proof.
  intros HT. destruct (op_was_ok _ _ _ _ Hi HT) as [Hc Hd]. destruct (vars_were_ok _ _ _ _ Hi HT) as [Hs _].
  unfold op_step_ok; instr. wp_step. unfold cell_cas. wp_step. eapply wp_cell_load; [done|]. intros old Hold.
  destruct (Z.eqb_spec old e) as [->|Hne].
  - wp_step. eapply wp_cell_store; [done|exact Hold|]. op_end.
    destruct (delay_old_frames e) as (F1 & F2 & F3 & F4).
    eapply (op_write s tid _ l c e d (λ _, 0)); try done; [|lia|].
    + intros p Hp. specialize (F3 p Hp). tally. lia.
    + eapply write_robust; [done|exact HT|done|done|]. intros p B Hp. specialize (F4 B (slot_count s) p Hp). tally. lia.
  - op_end. eapply op_quiet; try done. intros p Hp. simpl.
    change (own_vars p (set_result false (set_rcs (<[r := d]> (l_rcs l)) l))) with
      (own_vars p (set_rcs (<[r := d]> (l_rcs l)) l)). rewrite own_vars_rc by done. lia.
Qed.

(** ** rc_ptr and snapshot_ptr *)

Lemma copy_inc_ok dst w : at_op (OCopyInc dst w) → op_step_ok s tid (OCopyInc dst w) l.
Proof.
  intros HT. destruct (op_was_ok _ _ _ _ Hi HT) as (Hd & Hw & Hsrc). destruct (vars_were_ok _ _ _ _ Hi HT) as [Hs _].
  pose proof (copy_owned s tid (Thread (Some (OCopyInc dst w)) [] l) w (inv_tinv s Hi) HT Hw Hsrc) as Hown.
  assert (∀ p, p ≠ 0%Z → own_thread p (Thread None [] (set_rcs (<[dst := w]> (l_rcs l)) l)) =
    own_thread p (Thread (Some (OCopyInc dst w)) [] l) + hit p w) as Heq.
  { intros p Hp. unfold own_thread, on_op; simpl. rewrite own_vars_rc by done. lia. }
  unfold op_step_ok; instr. wp_step. eapply wp_mono.
  - eapply (op_increment s tid _ l w None [] (set_rcs (<[dst := w]> (l_rcs l)) l)); try done.
    + intros p Hp0 Hp. rewrite Heq, hit_other by (done || congruence). split; [lia|done].
    + rewrite Heq, hit_same by done. tally. lia.
  - intros c' ml (-> & m' & -> & Hm). op_end. exact Hm.
Qed.

Lemma clear_slot_ok k : at_op (OClearSlot k) → op_step_ok s tid (OClearSlot k) l.
Proof.
  intros HT. destruct (op_was_ok _ _ _ _ Hi HT) as (j & -> & Hj & Hu). destruct (vars_were_ok _ _ _ _ Hi HT) as [Hs _].
  unfold op_step_ok; instr. wp_step. eapply wp_mono.
  - by apply (op_announce s tid _ l Hi HT None l _ 0%Z (snap_range j Hj)).
  - intros [] ml [-> Hm]. op_end. exact Hm.
Qed.

Lemma deref_ok p : at_op (ODeref p) → op_step_ok s tid (ODeref p) l.
Proof.
  intros HT. pose proof (op_was_ok _ _ _ _ Hi HT : points l p) as Hp. destruct (vars_were_ok _ _ _ _ Hi HT) as [Hs _].
  pose proof (points_owned s tid (Thread (Some (ODeref p)) [] l) p (inv_tinv s Hi) HT Hp) as Hown.
  destruct (owned_live s p Hi (proj1 Hp) Hown) as (ob & Hob & [_ (_ & _ & v & Hv & _)] & _).
  unfold op_step_ok; instr. wp_step. eapply wp_payload_at; [apply Hp|done..|]. op_end. by eapply op_quiet.
Qed.

(** Every instruction. *)
Lemma op_step o : at_op o → op_step_ok s tid o l.
Proof.
  intros HT. pose proof (op_was_ok _ _ _ _ Hi HT) as Hop. destruct o; try done;
    auto using acq_load_ok, acq_store_ok, acq_check_ok, load_inc_ok, load_clear_ok, snap_slot_ok, snap_load_ok,
      snap_null_ok, snap_store_ok, snap_check_ok, snap_inc_ok, snap_again_ok, snap_clear_ok, exchange_ok,
      op_store_snap_ok, store_inc_ok, inc_exchange_ok, reserve_ok, cas_ok, cas_inc_ok, cas_clear_ok, cas_move_ok,
      copy_inc_ok, clear_slot_ok, deref_ok.
  (* OCasMoved *)
  destruct (vars_were_ok _ _ _ _ Hi HT) as [Hs _]. unfold op_step_ok; instr. op_end. by eapply op_quiet.
Qed.

End step.
End op_steps.
