(* ===== verification/HpCalls.v ===== *)
(** * The calls of the programs keep the invariant

    The start of each call of a program on [rc_ptr], [snapshot_ptr] and
    [atomic_rc_ptr], up to its first access to shared memory, on the
    hazard-pointer machine ([call_step]). *)

From S2P Require Import Prelude StickyCounter CountedObject MemoryManager AtomicLoc AcquireRetire HpMachine HpInvariant HpFacts HpEffects HpFrames HpOps HpOpSteps.
Local Open Scope nat_scope.

Section calls.
  Context {V : Type} `{Pol : !Policy}.
  Implicit Types (p q w : Z) (l : local) (m : mem V) (B : nat → bool) (s : cstate V) (T : thread).

(** ** Moving pointers out of variables *)

(** [l'] is [l] with some [rc_ptr] variables moved from. *)
Record moved l l' : Prop := {
  mv_snaps : l_snaps l' = l_snaps l;
  mv_deferred : l_deferred l' = l_deferred l;
  mv_rcs : ∀ r, l_rcs l' !! r = l_rcs l !! r ∨ (is_Some (l_rcs l !! r) ∧ l_rcs l' !! r = Some 0%Z)
}.

Lemma moved_refl l : moved l l.
Proof. constructor; auto. Qed.

Lemma moved_trans l1 l2 l3 : moved l1 l2 → moved l2 l3 → moved l1 l3.
Proof.
  intros [S1 D1 R1] [S2 D2 R2]. constructor; [congruence..|]. intros r.
  destruct (R2 r) as [->|[H2 ->]]; [apply R1|]. right. split; [|done].
  destruct (R1 r) as [E|[? _]]; [by rewrite <-E|done].
Qed.

Lemma moved_free l l' dst : moved l l' → free_rc l dst → free_rc l' dst.
Proof.
  intros Hm (w & Hw & Hn). destruct (mv_rcs _ _ Hm dst) as [E|[_ E]]; unfold free_rc; rewrite E; [eauto|].
  exists 0%Z. split; [done|]. apply null_true, raw_zero.
Qed.

Lemma wp_take_rc m l r Q :
  r < length (l_rcs l) →
  (∀ w l', l_rcs l !! r = Some w → l' = set_rcs (<[r := 0%Z]> (l_rcs l)) l → moved l l' →
     (∀ p, p ≠ 0%Z → own_vars p l' + hit p w = own_vars p l) → Q w (m, l')) →
  wp (take_rc r) Q (m, l).
Proof.
  intros [w Hw]%lookup_lt_is_Some HQ. unfold take_rc. wp_step. unfold local_get. wp_step. simpl. wp_step.
  wp_step; [exact Hw|]. wp_step. unfold local_set. wp_step. wp_step. simpl.
  eapply HQ; [exact Hw|done|..].
  - constructor; try done. intros r'. simpl. destruct (decide (r = r')) as [->|Hne].
    + right. split; [by eexists|]. apply list_lookup_insert_eq. by eapply lookup_lt_Some.
    + left. by rewrite list_lookup_insert_ne.
  - intros p Hp. unfold own_vars; simpl. pose proof (sum_insert (hit p) _ _ _ 0%Z Hw) as E.
    rewrite (hit_null p 0) in E by (done || apply raw_zero). lia.
Qed.

Lemma wp_take_members m l ks Q :
  Forall (λ k : bool * nat, k.2 < length (l_rcs l)) ks →
  (∀ ms l', moved l l' → Forall strong_member ms →
     (∀ p, p ≠ 0%Z → own_vars p l' + sum_list_with (own_member p) ms = own_vars p l) → Q ms (m, l')) →
  wp (take_members ks) Q (m, l).
Proof.
  revert l Q. induction ks as [|[atomic r] ks IH]; intros l Q Hks HQ; simpl.
  - wp_step. apply HQ; [apply moved_refl|done|]. intros p Hp. simpl. lia.
  - inversion Hks as [|? ? Hr Hks']; subst. simpl in Hr. wp_step. apply wp_take_rc; [done|].
    intros w l1 Hw -> Hm1 Ho1. wp_step. apply IH.
    { eapply Forall_impl; [exact Hks'|]. intros k Hk. simpl. by rewrite length_insert. }
    intros ms l2 Hm2 Hms Ho2. wp_step. apply HQ; [by eapply moved_trans|by destruct atomic; constructor|].
    intros p Hp. specialize (Ho1 p Hp). specialize (Ho2 p Hp). destruct atomic; simpl; lia.
Qed.

(** ** Calls *)

Section call.
  Context s (tid : nat) l (Hi : minv s) (HT : c_threads s !! tid = Some (Thread None [] l)).

Lemma idle_vars : snaps_ok tid (c_mem s) l ∧ strong_entries (l_deferred l).
Proof. by destruct (inv_thread s (inv_tinv s Hi) tid _ HT). Qed.

(** A call that only moves references within the thread. *)
Lemma call_quiet o' fs l' :
  match o' with Some o' => op_ok tid (c_mem s) l' o' | None => True end →
  Forall frame_ok fs → snaps_ok tid (c_mem s) l' → l_deferred l' = l_deferred l →
  (∀ p, p ≠ 0%Z → opt (own_op p) o' + sum_list_with (own_frame p) fs + own_vars p l' = own_vars p l) →
  (∀ p B, opt (due_op B p) o' = 0 ∧ opt (soft_op B p) o' = 0 ∧ opt (due_reserved p) o' = 0) →
  (∀ p st, sum_list_with (stage_frame p st) fs = 0) →
  (∀ k p, (k, p) ∈ holds tid (Thread o' fs l') → (k, p) ∈ holds tid (Thread None [] l)) →
  minv (after s tid (Thread o' fs l') (c_mem s)).
Proof.
  intros Hop Hfs Hs Hd Hown Hdue Hst Hh.
  eapply minv_silent; [done|exact HT|by apply evolves_others, evolves_refl| |done|done|..].
  - constructor; try done. simpl. rewrite Hd. apply idle_vars.
  - intros p Hp. specialize (Hown p Hp). unfold own_thread, on_op, opt in *; simpl in *. rewrite Hd. destruct o'; lia.
  - intros p Hp. destruct (Hdue p all_slots) as (E1 & E2 & E3).
    unfold dues_thread, due_thread, soft_thread, reserved_thread, on_op, opt in *; simpl in *. destruct o'; lia.
  - intros p st. apply Hst.
  - eapply robust_shrink; [apply Hi|exact HT|done|done|]. intros p B Hp. destruct (Hdue p B) as (E1 & E2 & _).
    unfold kept_thread, due_thread, soft_thread, on_op, opt in *; simpl in *. rewrite Hd. destruct o'; lia.
Qed.

Lemma live_source_points src w : source_word l src = Some w → null w = false → points l (raw w).
Proof. intros Hs Hn. apply null_false in Hn. split; [done|]. by exists src, w. Qed.

Lemma points_live p :
  points l p → ∃ ob v, m_heap (c_mem s) !! p = Some ob ∧ storage ob = Some v.
Proof.
  intros Hp. pose proof (points_owned s tid (Thread None [] l) p (inv_tinv s Hi) HT Hp) as Hown.
  destruct (owned_live s p Hi (proj1 Hp) Hown) as (ob & Hob & [_ (_ & _ & v & Hv & _)] & _). eauto.
Qed.

Lemma wp_loc_of c Q :
  place_ok (c_mem s) l c → (∀ c', place_loc l c = Some c' → loc_ok (c_mem s) l c' → Q c' (c_mem s, l)) →
  wp (loc_of c) Q (c_mem s, l).
Proof.
  intros Hc HQ. unfold loc_of. wp_step. unfold local_get. wp_step. unfold from_option_m. simpl.
  destruct c as [i|src k]; simpl in *; [wp_step; by apply HQ|].
  destruct Hc as [(w & Hw & Hn) Hk]. rewrite Hw. simpl. wp_step. apply HQ; [by rewrite Hw|].
  pose proof (live_source_points _ _ Hw Hn) as Hp. destruct (points_live _ Hp) as (ob & v & Hob & Hv).
  split; [done|]. destruct (Hk w ob v Hw Hob Hv) as [x Hx]. exists x, ob, v. done.
Qed.

Lemma wp_word_of src w Q :
  source_word l src = Some w → Q w (c_mem s, l) → wp (word_of src) Q (c_mem s, l).
Proof. intros Hw HQ. unfold word_of. wp_step. unfold local_get. wp_step. unfold from_option_m. simpl. rewrite Hw. by wp_step. Qed.

Lemma wp_rc_member m l0 p k ob v x Q :
  p ≠ 0%Z → m_heap m !! p = Some ob → storage ob = Some v → members v !! k = Some (MRc x) →
  Q x (m, l0) → wp (rc_member p k) Q (m, l0).
Proof.
  intros Hp Hob Hv Hx HQ. unfold rc_member. wp_step. eapply wp_payload_at; [done..|]. rewrite Hx. by wp_step.
Qed.

(** The locations reached through variables that are not moved from. *)
Lemma loc_ok_moved c c' r :
  place_loc l c = Some c' → loc_ok (c_mem s) l c' → (∀ k, c ≠ PField (SRc r) k) →
  loc_ok (c_mem s) (set_rcs (<[r := 0%Z]> (l_rcs l)) l) c'.
Proof.
  destruct c as [i|src k]; simpl; [by intros [= <-]|].
  destruct (source_word l src) as [w|] eqn:Hw; [|done]. intros [= <-] [[Hp _] Hm] Hne.
  split; [|done]. split; [done|]. exists src, w. split; [|done].
  destruct src as [r'|r']; simpl in *; [|done]. rewrite list_lookup_insert_ne; [done|]. intros ->. by eapply Hne.
Qed.

Definition call_ok (c : cmd) : Prop :=
  wp (call c) (λ r ml, minv (after s tid (Thread r.2 r.1 ml.2) ml.1)) (c_mem s, l).

Lemma call_new_ok dst a v ks : cmd_ok (c_mem s) l (CNew dst a v ks) → call_ok (CNew dst a v ks).
Proof.
  intros (Hd & Ha & Hal & Hnone & Hnd & Hdst & Hks). destruct idle_vars as [Hs Hdef].
  unfold call_ok; instr. wp_step. apply wp_take_members; [done|]. intros ms l' Hm Hms Hown.
  pose proof (moved_free _ _ _ Hm Hd) as Hd'. unfold set_m_heap, mem_get.
  wp_step. unfold local_set. wp_step. wp_step. wp_step. simpl. wp_step. wp_step. op_end.
  set (l2 := set_rcs _ _). set (m' := Mem _ _ _).
  assert (∀ p, p ≠ 0%Z → own_vars p l2 = own_vars p l' + hit p a) as Ho2.
  { intros p Hp. by rewrite <-(own_vars_rc p l' dst a Hp Hd'). }
  assert (l_snaps l2 = l_snaps l) as Hsn by apply Hm. assert (l_deferred l2 = l_deferred l) as Hde by apply Hm.
  clearbody l2.
  assert (evolves s tid m') as Hev.
  { constructor; try done. intros p k x _ (o1 & v1 & Ho1 & Hv1 & Hk1). exists x. split; [|destruct x; simpl; eauto].
    exists o1, v1. simpl. rewrite lookup_insert_ne by congruence. done. }
  eapply minv_new with (a := a) (v := v) (ms := ms); [done|exact HT|by apply evolves_others| |done|done|done|done|done|..].
  - constructor; simpl; [done|done|by rewrite Hde|]. unfold snaps_ok. rewrite Hsn. exact Hs.
  - intros p Hp. specialize (Ho2 p Hp). specialize (Hown p Hp). unfold own_thread, on_op; simpl. rewrite Hde, Ho2.
    unfold hit in *. rewrite (raw_aligned a Hal) in *. unfold one in *. repeat case_decide; simplify_eq; lia.
  - done.
  - done.
  - eapply robust_shrink; [apply Hi|exact HT|done| |].
    + intros k p. by apply holds_fewer.
    + intros p B Hp. unfold kept_mem at 2; simpl. rewrite msum_insert_new by done. unfold kept_mem.
      unfold kept_thread, due_thread, soft_thread, on_op; simpl. rewrite Hde. lia.
Qed.

Lemma call_copy_ok dst src : cmd_ok (c_mem s) l (CCopy dst src) → call_ok (CCopy dst src).
Proof.
  intros [Hd [w Hw]]. destruct idle_vars as [Hs Hdef]. unfold call_ok; instr. wp_step.
  eapply wp_word_of; [exact Hw|]. destruct (null w) eqn:Hn; op_end; eapply call_quiet; try done.
  - intros p Hp. apply null_true in Hn. simpl. rewrite own_vars_rc, hit_null by done. lia.
  - apply null_false in Hn. split; [done|]. split; [done|]. left. eauto.
Qed.

Lemma call_copy_field_ok dst src k : cmd_ok (c_mem s) l (CCopyField dst src k) → call_ok (CCopyField dst src k).
Proof.
  intros (Hd & (w & Hw & Hn) & Hk). destruct idle_vars as [Hs Hdef].
  pose proof (live_source_points _ _ Hw Hn) as Hp. destruct (points_live _ Hp) as (ob & v & Hob & Hv).
  destruct (Hk w ob v Hw Hob Hv) as [x Hx].
  unfold call_ok; instr. wp_step. eapply wp_word_of; [exact Hw|]. wp_step.
  eapply wp_rc_member; [apply Hp|done..|].
  destruct (null x) eqn:Hnx; op_end; eapply call_quiet; try done.
  - intros p Hp'. apply null_true in Hnx. simpl. rewrite own_vars_rc, hit_null by done. lia.
  - apply null_false in Hnx. split; [done|]. split; [done|]. right. exists (raw w), k. split; [done|]. by exists ob, v.
Qed.

Lemma call_move_ok dst r : cmd_ok (c_mem s) l (CMove dst r) → call_ok (CMove dst r).
Proof.
  intros (Hd & Hne & Hr). destruct idle_vars as [Hs Hdef]. unfold call_ok; instr. wp_step.
  apply wp_take_rc; [done|]. intros w l' Hw -> Hm Hown. op_end. eapply call_quiet; try done.
  intros p Hp. specialize (Hown p Hp).
  pose proof (own_vars_rc p _ dst w Hp (moved_free _ _ _ Hm Hd)) as E. simpl in *. lia.
Qed.

Lemma call_drop_ok r : cmd_ok (c_mem s) l (CDrop r) → call_ok (CDrop r).
Proof.
  intros Hr. destruct idle_vars as [Hs Hdef]. unfold call_ok; instr. wp_step.
  apply wp_take_rc; [done|]. intros w l' Hw -> Hm Hown. op_end.
  destruct (drop_strong_frames w) as (F1 & F2 & F3 & F4). eapply call_quiet; try done.
  intros p Hp. rewrite F3 by done. specialize (Hown p Hp). simpl. lia.
Qed.

Lemma call_load_ok dst c : cmd_ok (c_mem s) l (CLoad dst c) → call_ok (CLoad dst c).
Proof.
  intros [Hd Hc]. destruct idle_vars as [Hs Hdef]. unfold call_ok; instr. wp_step.
  apply wp_loc_of; [done|]. intros c' _ Hc'. op_end. by eapply call_quiet.
Qed.

Lemma call_store_ok c r : cmd_ok (c_mem s) l (CStore c r) → call_ok (CStore c r).
Proof.
  intros (Hc & Hr & Hne). destruct idle_vars as [Hs Hdef]. unfold call_ok; instr. wp_step.
  apply wp_loc_of; [done|]. intros c' Hpl Hc'. wp_step.
  apply wp_take_rc; [done|]. intros w l' Hw -> Hm Hown. op_end. eapply call_quiet; try done.
  - by eapply loc_ok_moved.
  - intros p Hp. specialize (Hown p Hp). simpl. lia.
Qed.

Lemma call_store_null_ok c : cmd_ok (c_mem s) l (CStoreNull c) → call_ok (CStoreNull c).
Proof.
  intros Hc. destruct idle_vars as [Hs Hdef]. unfold call_ok; instr. wp_step.
  apply wp_loc_of; [done|]. intros c' Hpl Hc'. op_end. eapply call_quiet; try done.
  intros p Hp. simpl. rewrite hit_null by (done || apply raw_zero). lia.
Qed.

(** What [source_slot] says about the pointer of a source. *)
Lemma source_slot_some src w k :
  source_word l src = Some w → source_slot l src = Some k → protected_snap l w k.
Proof.
  destruct src as [r|r]; simpl; [done|]. destruct (l_snaps l !! r) as [[w' [k'|]]|] eqn:Hr; simpl; try done.
  intros [= ->]. destruct (null w) eqn:Hn; [done|]. intros [= ->]. apply null_false in Hn. split; [done|]. eauto.
Qed.

Lemma source_slot_none src w :
  source_word l src = Some w → source_slot l src = None → owner l w.
Proof.
  destruct idle_vars as [[Hs _] _].
  destruct src as [r|r]; simpl; [intros; left; eauto|].
  destruct (l_snaps l !! r) as [[w' [k'|]]|] eqn:Hr; simpl; try done; intros [= ->].
  - destruct (Hs _ _ _ Hr) as [Hw _]. apply null_false in Hw. by rewrite Hw.
  - intros _. right. eauto.
Qed.

Lemma call_store_snap_ok c r : cmd_ok (c_mem s) l (CStoreSnap c r) → call_ok (CStoreSnap c r).
Proof.
  intros [Hc [[w sl] Hr]%lookup_lt_is_Some]. destruct idle_vars as [Hs Hdef]. unfold call_ok, call, start_store_snap, start_cas. wp_step.
  apply wp_loc_of; [done|]. intros c' Hpl Hc'. wp_step.
  assert (source_word l (SSnap r) = Some w) as Hw by exact (f_equal (fmap fst) Hr).
  eapply wp_word_of; [exact Hw|]. wp_step. unfold local_get. wp_step. cbn [id snd].
  destruct (source_slot l (SSnap r)) as [k|] eqn:Hk.
  - op_end. eapply call_quiet; try done. split; [done|]. by eapply source_slot_some.
  - destruct (null w) eqn:Hn; op_end; eapply call_quiet; try done.
    + intros p Hp. apply null_true in Hn. simpl. rewrite hit_null by done. lia.
    + apply null_false in Hn. split; [done|]. split; [done|]. by eapply source_slot_none.
Qed.

Lemma call_cas_ok c e src : cmd_ok (c_mem s) l (CCas c e src) → call_ok (CCas c e src).
Proof.
  intros [Hc [w Hw]]. destruct idle_vars as [Hs Hdef]. unfold call_ok, call, start_store_snap, start_cas. wp_step.
  apply wp_loc_of; [done|]. intros c' Hpl Hc'. wp_step.
  eapply wp_word_of; [exact Hw|]. wp_step. unfold local_get. wp_step. cbn [id snd].
  destruct (source_slot l src) as [k|] eqn:Hk; op_end; eapply call_quiet; try done.
  - split; [done|]. by eapply source_slot_some.
  - split; [done|]. by eapply source_slot_none.
Qed.

Lemma call_cas_field_ok c e src k :
  cmd_ok (c_mem s) l (CCasField c e src k) → call_ok (CCasField c e src k).
Proof.
  intros (Hc & (w & Hw & Hn) & Hk). destruct idle_vars as [Hs Hdef].
  pose proof (live_source_points _ _ Hw Hn) as Hp. destruct (points_live _ Hp) as (ob & v & Hob & Hv).
  destruct (Hk w ob v Hw Hob Hv) as [x Hx].
  unfold call_ok, call, start_cas_field. wp_step. apply wp_loc_of; [done|]. intros c' Hpl Hc'. wp_step.
  eapply wp_word_of; [exact Hw|]. wp_step. eapply wp_rc_member; [apply Hp|done..|]. op_end.
  eapply call_quiet; try done. split; [done|]. exists (raw w), k. split; [done|]. by exists ob, v.
Qed.

(** The members of an object that nobody else refers to may change. *)
Lemma assign_others r w ob ob' :
  l_rcs l !! r = Some w → real w → m_heap (c_mem s) !! raw w = Some ob → ref_cnt ob = 1%Z →
  others_ok s tid (Mem (<[raw w := ob']> (m_heap (c_mem s))) (m_roots (c_mem s)) (m_slots (c_mem s))).
Proof.
  intros Hr Hw Hob H1. constructor; [done|]. intros u U HU Hne.
  assert (0 < own_vars (raw w) l) as Hv by (apply owner_owned; left; eauto).
  destruct (unshared_alone s tid (Thread None [] l) (raw w) ob Hi HT eq_refl Hw Hv Hob H1) as [Ho Hno].
  eapply thread_ok_keeps; [apply Hi|exact HU|done|done|done|]. intros p k x Hp (o1 & v & Ho1 & Hv1 & Hk).
  exists x. split; [|destruct x; simpl; eauto]. exists o1, v. simpl. rewrite lookup_insert_ne; [done|]. intros <-.
  by eapply (alone_points s tid (Thread None [] l) u U); [apply Hi|..].
Qed.

Lemma call_assign_field_ok r k r' :
  cmd_ok (c_mem s) l (CAssignField r k r') → call_ok (CAssignField r k r').
Proof.
  intros (Hne & (w & Hw & Hn) & Hr' & Hk & Hun). destruct idle_vars as [Hs Hdef].
  pose proof (live_source_points _ _ Hw Hn) as Hp. apply null_false in Hn.
  destruct (points_live _ Hp) as (ob & v & Hob & Hv). destruct (Hk w ob v Hw Hob Hv) as [x Hx].
  unfold call_ok, call, start_assign_field. wp_step. eapply wp_word_of; [exact Hw|]. wp_step.
  eapply wp_rc_member; [done|exact Hob|done..|]. wp_step. apply wp_take_rc; [done|].
  intros y l' Hy -> Hm Hown. wp_step. eapply wp_payload_at; [done|exact Hob|done|]. wp_step.
  eapply wp_update; [done|exact Hob|]. op_end.
  set (ob' := set_storage _ ob). set (l' := set_rcs _ l).
  destruct (drop_strong_frames x) as (F1 & F2 & F3 & F4).
  assert (0 < owned s (raw w)) as Hown1 by (by eapply (points_owned s tid (Thread None [] l)); [apply Hi|..]).
  destruct (owned_live s (raw w) Hi Hn Hown1) as (o1 & Ho1 & [_ (Hwk & Hdi & v1 & Hv1 & Hms)] & _). simplify_eq.
  assert (whole ob').
  { split; [done|]. split; [done|]. eexists. split; [done|]. simpl. by apply Forall_insert. }
  pose proof (λ f, msum_insert (in_object f) (m_heap (c_mem s)) _ _ ob' Hob) as Hsum.
  pose proof (λ f, sum_insert f _ _ _ (MRc y) Hx) as Hmem.
  assert (∀ f, in_object f ob = sum_list_with f (members v) ∧
    in_object f ob' = sum_list_with f (<[k := MRc y]> (members v))) as Hin.
  { intros f. unfold in_object. by rewrite Hv. }
  eapply (minv_write s tid _ _ _ Hi HT) with (old := x) (w := y) (d := λ _, 0).
  - eapply assign_others; [exact Hw|done|done|by eapply Hun].
  - constructor; [done|done|done|]. exact Hs.
  - right. by exists (raw w), ob, ob'.
  - intros p. specialize (Hsum (own_member p)). specialize (Hmem (own_member p)). specialize (Hin (own_member p)).
    unfold own_mem; simpl in *. lia.
  - intros p Hp'. specialize (F3 p Hp'). specialize (Hown p Hp'). unfold own_thread, on_op; simpl. fold l' in Hown. lia.
  - done.
  - lia.
  - intros p st. specialize (F2 p st). unfold stage_thread; simpl. lia.
  - eapply robust_shrink; [apply Hi|exact HT|done|done|]. intros p B Hp'.
    specialize (Hsum (kept_member p)). specialize (Hmem (kept_member p)). specialize (Hin (kept_member p)).
    specialize (F4 B (slot_count s) p Hp').
    unfold kept_mem, kept_thread, due_thread, soft_thread, on_op; simpl in *. lia.
Qed.

Lemma call_cas_move_ok c e r : cmd_ok (c_mem s) l (CCasMove c e r) → call_ok (CCasMove c e r).
Proof.
  intros (Hc & Hr & Hne). destruct idle_vars as [Hs Hdef]. unfold call_ok; instr. wp_step.
  apply wp_loc_of; [done|]. intros c' Hpl Hc'. wp_step.
  apply wp_take_rc; [done|]. intros w l' Hw -> Hm Hown. op_end. eapply call_quiet; try done.
  - split; [by eapply loc_ok_moved|]. exists 0%Z. simpl. split; [|apply null_true, raw_zero].
    apply list_lookup_insert_eq. by eapply lookup_lt_Some.
  - intros p Hp. specialize (Hown p Hp). simpl. lia.
Qed.

Lemma call_snapshot_ok dst c : cmd_ok (c_mem s) l (CSnapshot dst c) → call_ok (CSnapshot dst c).
Proof.
  intros [Hd Hc]. destruct idle_vars as [Hs Hdef]. unfold call_ok; instr. wp_step.
  apply wp_loc_of; [done|]. intros c' _ Hc'. op_end. by eapply call_quiet.
Qed.

Lemma call_drop_snap_ok r : cmd_ok (c_mem s) l (CDropSnap r) → call_ok (CDropSnap r).
Proof.
  intros [[w sl] Hr]%lookup_lt_is_Some. destruct idle_vars as [Hs Hdef].
  set (l' := set_snaps (<[r := (0%Z, None)]> (l_snaps l)) l).
  assert (snaps_ok tid (c_mem s) l') as Hs' by (eapply snaps_ok_set; [done|by eexists|done]).
  assert (∀ o' fs k p, opt_holds tid o' = [] → (k, p) ∈ holds tid (Thread o' fs l') →
    (k, p) ∈ holds tid (Thread None [] l)) as Hh.
  { intros o' fs k p Ho. eapply holds_fewer_set; [done|by eexists|done]. }
  assert (∀ p, p ≠ 0%Z → own_vars p l' + hit p (counted_word (w, sl)) = own_vars p l) as Hown.
  { intros p Hp. unfold l'. rewrite (own_vars_swap p l r (0%Z, None) _ Hp raw_zero Hr).
    unfold counted_word; simpl. rewrite (hit_null p 0) by (done || apply raw_zero). lia. }
  unfold call_ok; instr. wp_step. unfold local_get. wp_step. simpl. wp_step. wp_step; [exact Hr|].
  wp_step. unfold local_set. wp_step. simpl. fold l'. destruct sl as [k|].
  - destruct (proj1 Hs _ _ _ Hr) as (Hw & Ha & j & Hj & ->).
    rewrite (proj2 (null_false w) Hw). op_end. eapply call_quiet; try done.
    + exists j. split; [done|]. split; [done|]. intros r' w' Hr'. simpl in Hr'.
      destruct (decide (r = r')) as [->|Hne].
      * rewrite list_lookup_insert_eq in Hr' by (by eapply lookup_lt_Some). done.
      * rewrite list_lookup_insert_ne in Hr' by done. by apply Hne, (proj2 Hs _ _ _ _ _ Hr Hr').
    + intros p Hp. specialize (Hown p Hp). unfold counted_word in Hown. simpl in *.
      rewrite (hit_null p 0) in Hown by (done || apply raw_zero). lia.
    + intros k p. by eapply Hh.
  - op_end. destruct (drop_strong_frames w) as (F1 & F2 & F3 & F4). eapply call_quiet; try done.
    + intros p Hp. rewrite F3 by done. specialize (Hown p Hp). unfold counted_word in Hown. simpl in *. lia.
    + intros k p. by eapply Hh.
Qed.

Lemma call_swap_snap_ok r r' : cmd_ok (c_mem s) l (CSwapSnap r r') → call_ok (CSwapSnap r r').
Proof.
  intros (Hne & [a Ha]%lookup_lt_is_Some & [b Hb]%lookup_lt_is_Some). destruct idle_vars as [Hs Hdef].
  unfold call_ok; instr. wp_step. unfold local_get. wp_step. simpl. wp_step. wp_step; [exact Ha|]. wp_step.
  wp_step; [exact Hb|]. op_end.
  assert (∀ i x, <[r' := a]> (<[r := b]> (l_snaps l)) !! i = Some x →
    ∃ i', l_snaps l !! i' = Some x ∧ (i' = i ∧ i ≠ r ∧ i ≠ r' ∨ i = r ∧ i' = r' ∨ i = r' ∧ i' = r)) as Hperm.
  { intros i x. pose proof (lookup_lt_Some _ _ _ Ha). pose proof (lookup_lt_Some _ _ _ Hb).
    destruct (decide (i = r')) as [->|]; [|rewrite list_lookup_insert_ne by done; destruct (decide (i = r)) as [->|]].
    - rewrite list_lookup_insert_eq by (by rewrite length_insert). intros [= <-]. exists r. naive_solver.
    - rewrite list_lookup_insert_eq by done. intros [= <-]. exists r'. naive_solver.
    - rewrite list_lookup_insert_ne by done. intros Hx. exists i. naive_solver. }
  eapply call_quiet; try done.
  - split; simpl; [intros i w k (i' & Hi' & _)%Hperm; by eapply (proj1 Hs)|].
    intros i1 i2 w1 w2 k (j1 & H1 & E1)%Hperm (j2 & H2 & E2)%Hperm.
    pose proof (proj2 Hs _ _ _ _ _ H1 H2). naive_solver.
  - intros p Hp. simpl.
    pose proof (own_vars_swap p l r b a Hp raw_zero Ha) as X.
    assert (<[r := b]> (l_snaps l) !! r' = Some b) as Hb' by (by rewrite list_lookup_insert_ne).
    pose proof (own_vars_swap p (set_snaps (<[r := b]> (l_snaps l)) l) r' a b Hp raw_zero Hb') as Y.
    change (set_snaps (<[r' := a]> (<[r := b]> (l_snaps l))) l) with
      (set_snaps (<[r' := a]> (l_snaps (set_snaps (<[r := b]> (l_snaps l)) l))) (set_snaps (<[r := b]> (l_snaps l)) l)).
    lia.
  - intros k p Hin. apply hold_cases in Hin as [(o & ? & _)|(i & w & (i' & Hi' & _)%Hperm & <-)]; [done|].
    by eapply (snap_hold (Thread None [] l)).
Qed.

Lemma call_deref_ok src : cmd_ok (c_mem s) l (CDeref src) → call_ok (CDeref src).
Proof.
  intros (w & Hw & Hn). destruct idle_vars as [Hs Hdef]. unfold call_ok; instr. wp_step.
  eapply wp_word_of; [exact Hw|]. op_end. eapply call_quiet; try done. by eapply live_source_points.
Qed.

Lemma call_step c : strong_cmd c → cmd_ok (c_mem s) l c → call_ok c.
Proof.
  intros Hst Hok. destruct c; try done;
    auto using call_new_ok, call_copy_ok, call_copy_field_ok, call_move_ok, call_drop_ok, call_load_ok,
      call_store_ok, call_store_null_ok, call_store_snap_ok, call_cas_ok, call_cas_move_ok, call_snapshot_ok,
      call_drop_snap_ok, call_deref_ok, call_cas_field_ok, call_assign_field_ok, call_swap_snap_ok.
Qed.

End call.
End calls.
