(* ===== verification/HpProps.v ===== *)
(** * What holds in every interleaving of the hazard-pointer machine

    The invariant holds in every reachable state of every program on the strong
    pointers, so no instruction of any thread fails, a snapshot keeps its object
    alive, the counters are exact and no object is forgotten.  *)

From S2P Require Import Prelude StickyCounter CountedObject MemoryManager AtomicLoc AcquireRetire MarkedPtr HpMachine HpInvariant HpFacts HpEffects HpFrames HpOps HpOpSteps HpCalls.
Local Open Scope nat_scope.

Section reachable.
  Context {V : Type} `{Pol : !Policy} (num_threads : nat).
  Implicit Types (p q w : Z) (l : local) (m : mem V) (s : cstate V) (T : thread).

Lemma sum_replicate {A} (f : A → nat) n (a : A) : f a = 0 → sum_list_with f (replicate n a) = 0.
Proof. intros H. apply sum_zero. by intros i b [-> _]%lookup_replicate_1. Qed.

Lemma init_minv roots rcs snaps weaks : minv (machine_init (V := V) num_threads roots rcs snaps weaks).
Proof.
  assert (∀ p, p ≠ 0%Z → hit p 0 = 0) as H0 by (intros; by apply hit_null; [|apply raw_zero]).
  assert (∀ p, p ≠ 0%Z → own_vars p (new_local rcs snaps weaks) = 0) as Hv.
  { intros p Hp. unfold own_vars, new_local; simpl. rewrite !sum_replicate; simpl; auto. }
  assert (∀ r a, l_snaps (new_local rcs snaps weaks) !! r = Some a → a = (0%Z, None)) as Hsn.
  { intros r a Ha. simpl in Ha. by apply lookup_replicate_1 in Ha as [-> _]. }
  assert (∀ k p, ¬ held (machine_init (V := V) num_threads roots rcs snaps weaks) k p) as Hnone.
  { intros k p (tid & T & HT & Hk). apply lookup_replicate_1 in HT as [-> _].
    apply hold_cases in Hk as [(o & Ho & _)|(r & w & Hr & _)]; [done|]. simpl in Hr. by apply Hsn in Hr. }
  assert (∀ p, p ≠ 0%Z → owned (machine_init (V := V) num_threads roots rcs snaps weaks) p = 0) as Hown.
  { intros p Hp. unfold owned, machine_init, own_mem; simpl. rewrite msum_empty, !sum_replicate; auto.
    unfold own_thread, on_op. cbn [t_op t_stack t_local]. rewrite Hv by done. done. }
  constructor; [constructor|done|].
  - unfold slot_count; simpl. by rewrite !length_replicate.
  - intros tid T HT. apply lookup_replicate_1 in HT as [-> _].
    constructor; try done; [by constructor|]. split; intros r *; intros Hr; by apply Hsn in Hr.
  - intros p B Hp HB [k Hk]. by destruct (Hnone k p (HB k Hk)).
  - intros p Hp. simpl. rewrite lookup_empty. split; [by apply Hown|].
    intros st. unfold staged; simpl. by apply sum_replicate.
Qed.

Lemma machine_run_ok s tid T :
  minv s → has_room (c_mem s) → c_threads s !! tid = Some T →
  ∃ T' m', run_thread num_threads tid T (c_mem s) = Ok (T', m') ∧ (¬ idle T → minv (after s tid T' m')).
Proof.
  intros Hi Hroom HT. destruct T as [o stack l]. unfold run_thread; simpl.
  destruct stack as [|f stack].
  - destruct o as [o|]; [|exists (Thread None [] l), (c_mem s); split; [done|]; intros []; by split].
    pose proof (op_step s tid l Hi Hroom o HT) as H. unfold op_step_ok, wp in H.
    destruct (exec_op tid o (c_mem s, l)) as [[[fs o'] [m' l']]|]; [|done]. eauto.
  - pose proof (frame_step num_threads s tid o f stack l Hi HT) as H. unfold step_ok, wp in H.
    destruct (exec_frame num_threads f (c_mem s, l)) as [[fs [m' l']]|]; [|done]. eauto.
Qed.

Lemma call_started s tid T c :
  minv s → c_threads s !! tid = Some T → idle T → strong_cmd c → cmd_ok (c_mem s) (t_local T) c →
  ∃ T' m', call_thread T (c_mem s) c = Ok (T', m') ∧ minv (after s tid T' m').
Proof.
  intros Hi HT [Ho Hs] Hc Hok. destruct T as [o stack l]; simpl in *; subst.
  pose proof (call_step s tid l Hi HT c Hc Hok) as H. unfold call_ok, wp in H. unfold call_thread; simpl.
  destruct (call c (c_mem s, l)) as [[[fs o'] [m' l']]|]; [|done]. eauto.
Qed.

Lemma cstep_minv s s' : minv s → cstep num_threads strong_cmd s s' → minv s'.
Proof.
  intros Hi Hstep. destruct Hstep as [s tid T c T' m' HT Hid Hc Hok Hrun|s tid T T' m' HT Hid Hroom Hrun].
  - destruct (call_started s tid T c Hi HT Hid Hc Hok) as (T1 & m1 & E & H).
    rewrite Hrun in E. by injection E as -> ->.
  - destruct (machine_run_ok s tid T Hi Hroom HT) as (T1 & m1 & E & H).
    rewrite Hrun in E. injection E as -> ->. by apply H.
Qed.

Lemma reachable_minv roots rcs snaps weaks s :
  rtc (cstep num_threads strong_cmd) (machine_init num_threads roots rcs snaps weaks) s → minv s.
Proof.
  intros Hr. pose proof (init_minv roots rcs snaps weaks) as Hi. induction Hr; eauto using cstep_minv.
Qed.

End reachable.

(** ** The theorems *)

Section theorems.
  Context {V : Type} `{Pol : !Policy}.
  Implicit Types (s : cstate V) (T : thread).

(** C3. The calls are those of [strong_cmd]: [make_shared]; copying, moving,
    dropping and dereferencing an [rc_ptr], and assigning to one that is a member;
    [load], [store] and [compare_and_swap] of an [atomic_rc_ptr]; taking,
    swapping, dropping and dereferencing a [snapshot_ptr], and making an [rc_ptr]
    of one.  [exchange], [swap] and [store_non_racy] of an [atomic_rc_ptr] are not
    among them, nor are weak pointers ([exchange_frees_snapshot] and
    [weak_lock_race] are why).  No interleaving of the instructions of any number
    of threads that make such calls fails, as long as no counter is about to overflow ([has_room]): whatever the
    others are in the middle of, the next instruction of a thread inside a call
    touches neither null nor freed memory nor a destroyed value and keeps every
    assertion, and every such call that a thread may make ([cmd_ok]) can start.
    Scans, deferred decrements and destructors run inside the calls. *)
Theorem hp_interleaved_safe n roots rcs snaps weaks s tid T :
  rtc (cstep n strong_cmd) (machine_init n roots rcs snaps weaks) s →
  c_threads s !! tid = Some T →
  (has_room (c_mem s) → ∃ T' m', run_thread n tid T (c_mem s) = Ok (T', m')) ∧
  (∀ c, idle T → strong_cmd c → cmd_ok (c_mem s) (t_local T) c →
     ∃ T' m', call_thread T (c_mem s) c = Ok (T', m')).
Proof.
  intros Hr HT. pose proof (reachable_minv n _ _ _ _ s Hr) as Hi. split.
  - intros Hroom. destruct (machine_run_ok n s tid T Hi Hroom HT) as (T' & m' & E & _). eauto.
  - intros c Hid Hc Hok. destruct (call_started s tid T c Hi HT Hid Hc Hok) as (T' & m' & E & _). eauto.
Qed.

(** C5. While a thread holds a snapshot, protected by a slot or counted, and
    whatever instructions of the calls of [strong_cmd] the others execute (no
    [exchange] or [swap] of an [atomic_rc_ptr], no weak pointers), with room in the
    counters, the object is in memory, its value is not destroyed and its use count
    is at least one. *)
Theorem hp_interleaved_snapshot n roots rcs snaps weaks s tid T r w slot :
  rtc (cstep n strong_cmd) (machine_init n roots rcs snaps weaks) s →
  c_threads s !! tid = Some T → l_snaps (t_local T) !! r = Some (w, slot) → raw w ≠ 0%Z →
  ∃ o v, m_heap (c_mem s) !! raw w = Some o ∧ storage o = Some v ∧ disposed o = false ∧
    (1 ≤ fst (load cnt_width (ref_cnt o)))%Z.
Proof.
  intros Hr HT Hsn Hw. pose proof (reachable_minv n _ _ _ _ s Hr) as Hi.
  assert (source_word (t_local T) (SSnap r) = Some w) as Hsrc by exact (f_equal (fmap fst) Hsn).
  pose proof (source_owned s tid T _ w (inv_tinv s Hi) HT Hsrc Hw) as Hown.
  destruct (owned_live s _ Hi Hw Hown) as (o & Ho & Hl & _). pose proof (live_flag_clear o Hl) as Hz.
  destruct Hl as [Hrc (_ & Hd & v & Hv & _)]. exists o, v. split_and!; [done..|].
  unfold load. destruct (Z.eqb_spec (ref_cnt o) 0); [lia|]. rewrite Hz. simpl. lia.
Qed.

(** The references that a state without running calls keeps: atomic pointers,
    members, variables and deferred decrements. *)
Definition references s p : nat :=
  own_mem p (c_mem s) +
  sum_list_with (λ T, own_vars p (t_local T) + entries p (l_deferred (t_local T))) (c_threads s).

(** C6. Exact counts, for the same strong-pointer calls: between calls the counter of every object in memory is the
    number of references to it, at least one, its value is intact, and nothing
    refers to memory that holds no object. *)
Theorem hp_interleaved_counts n roots rcs snaps weaks s p :
  rtc (cstep n strong_cmd) (machine_init n roots rcs snaps weaks) s →
  (∀ tid T, c_threads s !! tid = Some T → idle T) → p ≠ 0%Z →
  match m_heap (c_mem s) !! p with
  | Some o => ref_cnt o = Z.of_nat (references s p) ∧ 0 < references s p ∧ is_Some (storage o)
  | None => references s p = 0
  end.
Proof.
  intros Hr Hid Hp. pose proof (reachable_minv n _ _ _ _ s Hr) as Hi.
  assert (owned s p = references s p) as Hown.
  { unfold owned, references. f_equal. apply Nat.le_antisymm; apply sum_mono; intros tid T HT;
      destruct (Hid tid T HT) as [Ho Hs]; unfold own_thread, on_op; rewrite Ho, Hs; simpl; lia. }
  assert (dues s p = 0) as Hdue.
  { unfold dues, due, soft, reserved. rewrite !sum_zero; [done|..]; intros tid T HT; destruct (Hid tid T HT) as [Ho Hs];
      unfold reserved_thread, soft_thread, due_thread, on_op; by rewrite Ho. }
  assert (∀ st, staged s p st = 0) as Hst.
  { intros st. apply sum_zero. intros tid T HT. destruct (Hid tid T HT) as [Ho Hs].
    unfold stage_thread. by rewrite Hs. }
  pose proof (inv_object s Hi p Hp) as H. rewrite Hdue, <-Hown in *. unfold object_ok in H.
  destruct (m_heap (c_mem s) !! p) as [o|]; [|apply H].
  destruct H as [([Hrc (_ & _ & v & Hv & _)] & Hc & _)|(_ & st & _ & Hone)].
  - split; [lia|]. split; [lia|]. by eexists.
  - specialize (Hone st). rewrite Hst, one_true in Hone by done. done.
Qed.

(** C8. No object is forgotten: at every point of every interleaving an object in
    memory is referred to, or exactly one call is in the middle of destroying
    it. *)
Theorem hp_interleaved_no_garbage n roots rcs snaps weaks s p o :
  rtc (cstep n strong_cmd) (machine_init n roots rcs snaps weaks) s →
  m_heap (c_mem s) !! p = Some o →
  (0 < owned s p ∧ (∀ st, staged s p st = 0)) ∨
  (owned s p = 0 ∧ ∃ st, stage_ok st o ∧ ∀ st', staged s p st' = one (st' = st)).
Proof.
  intros Hr Ho. pose proof (reachable_minv n _ _ _ _ s Hr) as Hi.
  destruct (decide (p = 0%Z)) as [->|Hp]; [by rewrite (inv_null s Hi) in Ho|].
  pose proof (inv_object s Hi p Hp) as H. rewrite Ho in H.
  destruct H as [([Hrc _] & Hc & Hs)|H]; [left|by right]. split; [lia|done].
Qed.

(** C9. Announcement slots are well formed: every protected snapshot of every
    thread is in a slot of that thread which announces its object, and no two
    snapshots are in the same slot. *)
Theorem hp_interleaved_slots n roots rcs snaps weaks s tid T r w k tid' T' r' w' :
  rtc (cstep n strong_cmd) (machine_init n roots rcs snaps weaks) s →
  c_threads s !! tid = Some T → l_snaps (t_local T) !! r = Some (w, Some k) →
  raw w ≠ 0%Z ∧ m_slots (c_mem s) !! k = Some (raw w) ∧
  (∃ j, j < snapshot_slots ∧ k = snap_slot tid j) ∧
  (c_threads s !! tid' = Some T' → l_snaps (t_local T') !! r' = Some (w', Some k) → tid' = tid ∧ r' = r).
Proof.
  intros Hr HT Hsn. pose proof (inv_tinv s (reachable_minv n _ _ _ _ s Hr)) as Hi.
  destruct (ok_snaps _ _ _ (inv_thread s Hi tid T HT)) as [H1 H2].
  destruct (H1 _ _ _ Hsn) as (Hw & Ha & j & Hj & ->). split_and!; [done|done|eauto|]. intros HT' Hsn'.
  destruct (ok_snaps _ _ _ (inv_thread s Hi tid' T' HT')) as [H1' _].
  destruct (H1' _ _ _ Hsn') as (_ & _ & j' & Hj' & E).
  assert (tid' = tid) as -> by slot_lia. simplify_eq. split; [done|]. by eapply H2.
Qed.

End theorems.
