(* ===== verification/HpProgress.v ===== *)
(** * What a thread does alone comes to an end

    From every reachable state of the hazard-pointer machine, whatever the other
    threads were doing when they stopped, the instructions that a thread can
    execute alone are finitely many ([alone_ends]): the loops of [acquire] and of
    [protect_snapshot], of the scans and of the destructors that they run all
    end.  Three measures decrease in lexicographic order: the steps of the call
    itself, the retirements to come, the steps until the next of them. *)

From S2P Require Import Prelude StickyCounter CountedObject MemoryManager AtomicLoc AcquireRetire HpMachine HpInvariant HpFacts HpEffects HpProps.
Local Open Scope nat_scope.

(** ** What holds if a program does not fail *)

Section wlp.
  Context {S : Type}.
  Implicit Types s : S.

Definition wlp {A} (m : M S A) (Q : A → S → Prop) s : Prop := ∀ a s', m s = Ok (a, s') → Q a s'.

Lemma wlp_ret {A} (a : A) (Q : A → S → Prop) s : Q a s → wlp (mret a) Q s.
Proof. by intros H ? ? [= <- <-]. Qed.

Lemma wlp_bind {A B} (m : M S A) (f : A → M S B) Q s :
  wlp m (λ a, wlp (f a) Q) s → wlp (m ≫= f) Q s.
Proof.
  intros H b s'. unfold mbind, M_bind. destruct (m s) as [[a s1]|e] eqn:E; [|done]. by apply H.
Qed.

Lemma wlp_mono {A} (m : M S A) (P Q : A → S → Prop) s :
  wlp m P s → (∀ a s', P a s' → Q a s') → wlp m Q s.
Proof. intros H HPQ a s' E. by apply HPQ, H. Qed.

Lemma wlp_gets {A} (f : S → A) (Q : A → S → Prop) s : Q (f s) s → wlp (gets f) Q s.
Proof. by intros H ? ? [= <- <-]. Qed.

Lemma wlp_modify (f : S → S) (Q : unit → S → Prop) s : Q tt (f s) → wlp (modify f) Q s.
Proof. by intros H ? ? [= <- <-]. Qed.

Lemma wlp_assert (b : bool) (Q : unit → S → Prop) s : Q tt s → wlp (assert_ b) Q s.
Proof. destruct b; [by intros H ? ? [= <- <-]|done]. Qed.

Lemma wlp_at {A} (l : list A) (i : nat) (Q : A → S → Prop) s :
  (∀ a, l !! i = Some a → Q a s) → wlp (at_ l i) Q s.
Proof. unfold at_. intros H a s'. destruct (l !! i); [|done]. intros [= <- <-]. by apply H. Qed.

Lemma wlp_fail {A} (e : error) (Q : A → S → Prop) s : wlp (fail e) Q s.
Proof. done. Qed.
End wlp.

Ltac wlp_step :=
  cbv beta;
  lazymatch goal with
  | |- wlp (_ ≫= _) _ _ => apply wlp_bind
  | |- wlp (mret _) _ _ => apply wlp_ret
  | |- wlp (gets _) _ _ => apply wlp_gets
  | |- wlp (modify _) _ _ => apply wlp_modify
  | |- wlp (assert_ _) _ _ => apply wlp_assert
  | |- wlp (at_ _ _) _ _ => apply wlp_at; intros ? ?
  | |- wlp (fail _) _ _ => apply wlp_fail
  end.

Section progress.
  Context {V : Type} `{Pol : !Policy} (num_threads : nat).
  Implicit Types (p w : Z) (l : local) (m : mem V) (s : cstate V) (T : thread) (f : frame).

(** ** Calls into the manager *)

(** How many actions can still be retired on behalf of something. *)
Definition pend_entry (e : hp_entry) : nat :=
  match e.2 with decrement_strong_count => 1 | _ => 0 end.
Definition pend_member (x : member) : nat :=
  match x with MAtomicRc _ => 2 | MRc _ | MAtomicWeak _ => 1 | MWeak _ => 0 end.
Definition pend_frame f : nat :=
  match f with
  | FDelay _ _ => 2
  | FDelayWeak _ _ | FDec _ _ | FWeakRead _ _ => 1
  | FRetire p type => S (pend_entry (p, type))
  | FEject p type => pend_entry (p, type)
  | FScan _ _ d => sum_list_with pend_entry d
  | FApply _ d k => sum_list_with pend_entry d + sum_list_with pend_entry k
  | FDestruct _ ms _ => sum_list_with pend_member ms
  | _ => 0
  end.

(** Retirements to come, and the work that pays for the next scan. *)
Definition potential m l (stack : list frame) : nat :=
  2 * (msum (in_object pend_member) (m_heap m) + sum_list_with pend_entry (l_deferred l) +
       sum_list_with pend_frame stack) + Z.to_nat (l_work l).

Definition pc_weight (c : pc) : nat :=
  match c with
  | LoadRead => 5 | LoadCas => 4 | DecSub _ => 3 | DecCas => 2 | DecXchg | IncAdd _ => 1 | _ => 0
  end.

(** Steps to come until the next retirement or scan. *)
Definition frame_weight (n : nat) f : nat :=
  match f with
  | FDelay _ c | FDelayWeak _ c => 2 + pc_weight c
  | FRetire _ _ | FDelete _ => 1
  | FWork => 2
  | FScan i _ d => 4 + (n - i) + 30 * length d
  | FApply _ d _ => 3 + 30 * length d
  | FEject _ _ => 26
  | FDec _ c => 20 + pc_weight c
  | FWeakDec _ c => 8 + pc_weight c
  | FWeakRead _ c | FAssertZero _ c => 15 + pc_weight c
  | FDispose _ _ => 14
  | FDestruct _ ms _ => 13 + 30 * length ms
  | FDisposed _ _ => 12
  | FDestroy _ c => 2 + pc_weight c
  end.

Definition weight m (stack : list frame) : nat :=
  msum (in_object (λ _, 30)) (m_heap m) + sum_list_with (frame_weight (length (m_slots m))) stack.

(** The counter operation of a frame is one of those that its call makes. *)
Definition loading (c : pc) : Prop := match c with LoadRead | LoadCas => True | _ => False end.
Definition decrementing (c : pc) : Prop :=
  match c with LoadRead | LoadCas | DecSub _ | DecCas | DecXchg => True | _ => False end.
Definition sane_frame f : Prop :=
  match f with
  | FDelay _ c | FDelayWeak _ c | FWeakRead _ c | FAssertZero _ c | FDestroy _ c => loading c
  | FDec _ c | FWeakDec _ c => decrementing c
  | _ => True
  end.

Lemma loading_step n c x c' x' :
  loading c → thread_step n c x = Some (c', x') → (∃ k, c' = Returned (RLoad k)) ∨ (loading c' ∧ pc_weight c' < pc_weight c).
Proof. intros Hc. unfold thread_step. destruct c; try done; repeat case_match; intros [= <- <-]; simpl; eauto with lia. Qed.

Lemma decrementing_step n c x c' x' :
  decrementing c → thread_step n c x = Some (c', x') →
  (∃ k, c' = Returned (RLoad k) ∧ 3 < pc_weight c) ∨ (∃ b, c' = Returned (RDec b)) ∨
  (decrementing c' ∧ pc_weight c' < pc_weight c).
Proof. intros Hc. unfold thread_step. destruct c; try done; repeat case_match; intros [= <- <-]; simpl; eauto with lia. Qed.

(** The parts of memory that the measures look at. *)
Definition same_weight m m' : Prop :=
  length (m_slots m') = length (m_slots m) ∧ m_roots m' = m_roots m ∧
  (∀ g, msum (in_object g) (m_heap m') = msum (in_object g) (m_heap m)) ∧
  (∀ p, storage <$> m_heap m' !! p = storage <$> m_heap m !! p).

Lemma same_weight_update m p o o' :
  m_heap m !! p = Some o → storage o' = storage o →
  same_weight m (Mem (<[p := o']> (m_heap m)) (m_roots m) (m_slots m)).
Proof.
  intros Ho Hs. split_and!; [done|done|..].
  - intros g. simpl. eapply msum_insert_same; [done|]. unfold in_object. by rewrite Hs.
  - intros q. simpl. destruct (decide (p = q)) as [<-|Hne]; [|by rewrite lookup_insert_ne].
    rewrite lookup_insert_eq, Ho. simpl. by rewrite Hs.
Qed.

Lemma wlp_object m l p Q :
  (∀ o, m_heap m !! p = Some o → Q o (m, l)) → wlp (object (V := V) p) Q (m, l).
Proof.
  intros H. unfold object. wlp_step. unfold mem_get. wlp_step. simpl.
  destruct (p =? 0)%Z; [wlp_step|]. destruct (m_heap m !! p) eqn:E; wlp_step. by apply H.
Qed.

Lemma wlp_update m l p g Q :
  (∀ o, m_heap m !! p = Some o → Q tt (Mem (<[p := g o]> (m_heap m)) (m_roots m) (m_slots m), l)) →
  wlp (update (V := V) p g) Q (m, l).
Proof.
  intros H. unfold update. wlp_step. apply wlp_object. intros o Ho. wlp_step. unfold mem_get. wlp_step.
  unfold set_m_heap. wlp_step. simpl. by apply H.
Qed.

Lemma wlp_payload_at m l p Q :
  (∀ o v, m_heap m !! p = Some o → storage o = Some v → Q v (m, l)) → wlp (payload_at (V := V) p) Q (m, l).
Proof.
  intros H. unfold payload_at. wlp_step. apply wlp_object. intros o Ho.
  destruct (storage o) eqn:E; wlp_step. by eapply H.
Qed.

Lemma stepping n c x : pc_weight c ≠ 0 → thread_step n c x ≠ None.
Proof. destruct c; simpl; try done; repeat case_match; done. Qed.

(** An instruction on a counter: [c'] is where the operation is after it. *)
Definition counter_step (c : pc) (Q : pc → mem V * local → Prop) m l : Prop :=
  ∀ x c' x' m', thread_step cnt_width c x = Some (c', x') → same_weight m m' → Q c' (m', l).

Lemma wlp_strong_step m l p c Q :
  pc_weight c ≠ 0 → counter_step c Q m l → wlp (strong_step (V := V) p c) Q (m, l).
Proof.
  intros Hc H. unfold strong_step. wlp_step. apply wlp_object. intros o Ho.
  destruct (thread_step cnt_width c (ref_cnt o)) as [[c' x]|] eqn:E; [|by apply stepping in E].
  wlp_step. apply wlp_update. intros o' Ho'. wlp_step. eapply H; [exact E|].
  by eapply same_weight_update.
Qed.

Lemma wlp_weak_step m l p c Q :
  pc_weight c ≠ 0 → counter_step c Q m l → wlp (weak_step (V := V) p c) Q (m, l).
Proof.
  intros Hc H. unfold weak_step. wlp_step. apply wlp_object. intros o Ho.
  destruct (thread_step cnt_width c (weak_cnt o)) as [[c' x]|] eqn:E; [|by apply stepping in E].
  wlp_step. apply wlp_update. intros o' Ho'. wlp_step. eapply H; [exact E|].
  by eapply same_weight_update.
Qed.

Lemma loading_weight c : loading c → pc_weight c ≠ 0.
Proof. by destruct c. Qed.
Lemma decrementing_weight c : decrementing c → pc_weight c ≠ 0.
Proof. by destruct c. Qed.

(** A step of [f], which is replaced by [fs], brings the end nearer. *)
Definition nearer m l f (fs : list frame) (ml : mem V * local) : Prop :=
  (0 ≤ l_work ml.2)%Z ∧ Forall sane_frame fs ∧ length (m_slots ml.1) = length (m_slots m) ∧
  (potential ml.1 ml.2 fs < potential m l [f] ∨
   potential ml.1 ml.2 fs ≤ potential m l [f] ∧ weight ml.1 fs < weight m [f]).

(** After an access that leaves the values of the objects alone, the frames
    decide. *)
Lemma nearer_same m l f fs m' :
  (0 ≤ l_work l)%Z → same_weight m m' → Forall sane_frame fs →
  sum_list_with pend_frame fs ≤ pend_frame f →
  sum_list_with (frame_weight (length (m_slots m))) fs < frame_weight (length (m_slots m)) f →
  nearer m l f fs (m', l).
Proof.
  intros Hw (Hn & _ & Hg & _) Hs Hp Hf. split_and!; [done..|]. right.
  unfold potential, weight; cbn [fst snd]. rewrite Hn, !Hg. cbn [sum_list_with]. lia.
Qed.

Lemma same_weight_refl m : same_weight m m.
Proof. done. Qed.

Section frame.
  Context m l (Hwork : (0 ≤ l_work l)%Z).

(** The frames that only read a counter. *)
Lemma load_nearer f c (k : Z → M (mem V * local) (list frame)) step (next : pc → frame) :
  loading c → (∀ c', frame_weight (length (m_slots m)) (next c') + pc_weight c =
                     frame_weight (length (m_slots m)) f + pc_weight c') →
  (∀ c', pend_frame (next c') = pend_frame f ∧ (loading c' → sane_frame (next c'))) →
  (∀ Q, counter_step c Q m l → wlp step Q (m, l)) →
  (∀ n m', same_weight m m' → wlp (k n) (nearer m l f) (m', l)) →
  wlp (c' ← step; match c' with Returned (RLoad n) => k n | _ => mret [next c'] end) (nearer m l f) (m, l).
Proof.
  intros Hc Hw Hn Hstep Hk. wlp_step. apply Hstep. intros x c' x' m' E Hm.
  destruct (loading_step _ _ _ _ _ Hc E) as [[n ->]|[Hc' Hlt]]; [by apply Hk|].
  assert (nearer m l f [next c'] (m', l)) as Hnext.
  { destruct (Hn c') as [Hp Hs]. specialize (Hw c'). apply nearer_same; try done; [by constructor; auto|..]; simpl; lia. }
  by destruct c'; try done; wlp_step.
Qed.

Lemma dec_nearer f c (k : Z → M (mem V * local) (list frame)) (zero : list frame) step (next : pc → frame) :
  decrementing c →
  (∀ c', frame_weight (length (m_slots m)) (next c') + pc_weight c =
         frame_weight (length (m_slots m)) f + pc_weight c') →
  (∀ c', pend_frame (next c') = pend_frame f ∧ (decrementing c' → sane_frame (next c'))) →
  (∀ Q, counter_step c Q m l → wlp step Q (m, l)) →
  (∀ n m', 3 < pc_weight c → same_weight m m' → wlp (k n) (nearer m l f) (m', l)) →
  (∀ m', same_weight m m' → nearer m l f zero (m', l)) →
  (∀ m', same_weight m m' → nearer m l f [] (m', l)) →
  wlp (c' ← step;
       match c' with
       | Returned (RLoad n) => k n
       | Returned (RDec true) => mret zero
       | Returned _ => mret []
       | _ => mret [next c']
       end) (nearer m l f) (m, l).
Proof.
  intros Hc Hw Hn Hstep Hk Hz H0. wlp_step. apply Hstep. intros x c' x' m' E Hm.
  destruct (decrementing_step _ _ _ _ _ Hc E) as [(n & -> & H3)|[[[] ->]|[Hc' Hlt]]].
  { by apply Hk. }
  { wlp_step. by apply Hz. }
  { wlp_step. by apply H0. }
  assert (nearer m l f [next c'] (m', l)) as Hnext.
  { destruct (Hn c') as [Hp Hs]. specialize (Hw c'). apply nearer_same; try done; [by constructor; auto|..]; simpl; lia. }
  by destruct c'; try done; wlp_step.
Qed.

Lemma same_nearer f fs m' :
  same_weight m m' → Forall sane_frame fs → sum_list_with pend_frame fs ≤ pend_frame f →
  sum_list_with (frame_weight (length (m_slots m))) fs < frame_weight (length (m_slots m)) f →
  nearer m l f fs (m', l).
Proof. intros. by apply nearer_same. Qed.

Local Ltac counter_frame :=
  lazymatch goal with
  | |- loading _ => eassumption
  | |- decrementing _ => eassumption
  | |- ∀ Q, counter_step _ _ _ _ → _ =>
      intros Q; first [apply wlp_strong_step|apply wlp_weak_step];
      first [by apply loading_weight|by apply decrementing_weight]
  | |- ∀ c', _ + _ = _ => simpl; lia
  | |- ∀ c', _ ∧ _ => done
  | |- _ => idtac
  end.

Local Ltac frame_next := apply same_nearer; [done|by rewrite ?Forall_singleton, ?Forall_nil|simpl in *; lia..].

(** The frames that only touch counters. *)
Lemma counter_nearer f :
  sane_frame f →
  match f with
  | FDelay _ _ | FDelayWeak _ _ | FDec _ _ | FWeakDec _ _ | FWeakRead _ _ | FAssertZero _ _ | FDestroy _ _ => True
  | _ => False
  end →
  wlp (exec_frame num_threads f) (nearer m l f) (m, l).
Proof.
  intros Hs. destruct f; try done; intros _; simpl in Hs; open_instr.
  - pose proof (loading_weight _ Hs). eapply load_nearer; counter_frame. intros n m' Hm. do 3 wlp_step. frame_next.
  - pose proof (loading_weight _ Hs). eapply load_nearer; counter_frame. intros n m' Hm. do 3 wlp_step. frame_next.
  - pose proof (decrementing_weight _ Hs).
    eapply dec_nearer; counter_frame; intros; [do 3 wlp_step|..]; frame_next.
  - pose proof (decrementing_weight _ Hs).
    eapply dec_nearer; counter_frame; intros; [do 3 wlp_step|..]; frame_next.
  - pose proof (loading_weight _ Hs). eapply load_nearer; counter_frame. intros n m' Hm. wlp_step. destruct (n =? 1)%Z; frame_next.
  - pose proof (loading_weight _ Hs). eapply load_nearer; counter_frame. intros n m' Hm. do 3 wlp_step. frame_next.
  - pose proof (loading_weight _ Hs). eapply load_nearer; counter_frame. intros n m' Hm. do 3 wlp_step. frame_next.
Qed.

Lemma drop_member_near (x : member) :
  Forall sane_frame (drop_member x) ∧ sum_list_with pend_frame (drop_member x) ≤ pend_member x ∧
  sum_list_with (frame_weight (length (m_slots m))) (drop_member x) < 30.
Proof.
  destruct x as [w|w|w|w]; simpl; unfold drop_strong, drop_weak, delay_old; destruct (null w); simpl;
    rewrite ?Forall_singleton, ?Forall_nil; repeat split; lia.
Qed.

Lemma sum_const {A} k (xs : list A) : sum_list_with (λ _, k) xs = k * length xs.
Proof. induction xs; simpl; lia. Qed.

Lemma dispose_nearer p delayed : wlp (exec_frame num_threads (FDispose p delayed)) (nearer m l (FDispose p delayed)) (m, l).
Proof.
  open_instr. wlp_step. apply wlp_payload_at. intros o v Ho Hv. wlp_step. apply wlp_update.
  intros o' Ho'. simplify_eq. wlp_step. split_and!; [done|by rewrite Forall_singleton|done|].
  pose proof (λ g, msum_insert (in_object g) (m_heap m) p o (set_storage None o) Ho) as E.
  unfold potential, weight. cbn [fst snd m_heap m_slots sum_list_with pend_frame frame_weight].
  pose proof (E pend_member) as E1. pose proof (E (λ _, 30)) as E2.
  unfold in_object at 2 4 in E1. unfold in_object at 2 4 in E2. simpl in E1, E2. rewrite Hv in E1, E2.
  rewrite sum_const in E2. rewrite sum_reverse, length_reverse. lia.
Qed.

Lemma collect_threshold_pos : (0 < collect_threshold (V := V) num_threads)%Z.
Proof. unfold collect_threshold, threshold. lia. Qed.

Lemma work_nearer : wlp (exec_frame num_threads FWork) (nearer m l FWork) (m, l).
Proof.
  open_instr. wlp_step. unfold local_get. wlp_step. simpl.
  destruct (negb (l_in_progress l) && (collect_threshold (V := V) num_threads <=? l_work l)%Z) eqn:E.
  - apply andb_true_iff in E as [_ Hle%Z.leb_le]. pose proof collect_threshold_pos.
    destruct (l_deferred l) as [|e d] eqn:Hd; wlp_step; unfold local_set; wlp_step; wlp_step;
      (split_and!; [done|by rewrite ?Forall_singleton|done|]); left; unfold potential; rewrite Hd; simpl; lia.
  - wlp_step. frame_next.
Qed.

Lemma retire_nearer p type : wlp (exec_frame num_threads (FRetire p type)) (nearer m l (FRetire p type)) (m, l).
Proof.
  open_instr. wlp_step. unfold local_set. wlp_step. wlp_step.
  assert (0 ≤ wrap 32 (l_work l + 1) ≤ l_work l + 1)%Z as Hw.
  { unfold wrap. split; [by apply Z.mod_pos_bound|apply Z.mod_le; lia]. }
  split_and!; [apply Hw|by rewrite Forall_singleton|done|]. left. unfold potential; simpl.
  rewrite sum_list_with_app; simpl. lia.
Qed.

Lemma apply_nearer a d k : wlp (exec_frame num_threads (FApply a d k)) (nearer m l (FApply a d k)) (m, l).
Proof.
  open_instr. destruct d as [|e d].
  - wlp_step. unfold local_set. wlp_step. wlp_step. split_and!; [done|by rewrite Forall_singleton|done|].
    right. unfold potential, weight; simpl. rewrite sum_list_with_app. lia.
  - destruct (check_announced a e) as [[] a']; wlp_step; (apply same_nearer; [done|by rewrite ?Forall_cons, ?Forall_nil|..]);
      cbn [sum_list_with pend_frame frame_weight length]; rewrite <-?surjective_pairing, ?sum_list_with_app;
      cbn [sum_list_with]; lia.
Qed.

Lemma delete_nearer p : wlp (exec_frame num_threads (FDelete p)) (nearer m l (FDelete p)) (m, l).
Proof.
  open_instr. wlp_step. apply wlp_object. intros o Ho. do 2 wlp_step. wlp_step. unfold mem_get. wlp_step.
  wlp_step. unfold set_m_heap. wlp_step. wlp_step. unfold local_set. wlp_step. wlp_step. simpl.
  split_and!; [done|by rewrite Forall_nil|done|]. right. unfold potential, weight; simpl.
  pose proof (msum_delete (in_object pend_member) (m_heap m) p o Ho).
  pose proof (msum_delete (in_object (λ _, 30)) (m_heap m) p o Ho). lia.
Qed.

(** Every step of a call into the manager brings its end nearer. *)
Lemma exec_frame_nearer f : sane_frame f → wlp (exec_frame num_threads f) (nearer m l f) (m, l).
Proof.
  intros Hf. destruct f; try (by apply counter_nearer); clear Hf;
    auto using retire_nearer, work_nearer, apply_nearer, dispose_nearer, delete_nearer; open_instr.
  - wlp_step. unfold mem_get. wlp_step. simpl. destruct (m_slots m !! i) as [y|] eqn:E; wlp_step; [|frame_next].
    apply lookup_lt_Some in E. frame_next.
  - do 3 wlp_step. destruct type; (apply same_nearer; [done|by rewrite Forall_singleton|unfold pend_frame, pend_entry; simpl; lia..]).
  - destruct ms as [|x ms]; wlp_step; [frame_next|]. destruct (drop_member_near x) as (H1 & H2 & H3).
    apply same_nearer; [done|by rewrite Forall_app, Forall_singleton|..];
      rewrite sum_list_with_app; simpl; lia.
  - wlp_step. apply wlp_update. intros o Ho. wlp_step.
    apply same_nearer; [by eapply same_weight_update|destruct delayed; by rewrite Forall_singleton|..];
      destruct delayed; simpl; lia.
Qed.

End frame.

(** ** Calls of the pointer classes *)

(** What [cell_load] reads. *)
Definition peek m (c : loc) : option Z :=
  match c with
  | LCell i => m_roots m !! i
  | LField p k =>
      match m_heap m !! p ≫= storage with
      | Some v => match members v !! k with Some (MAtomicRc w) => Some w | _ => None end
      | None => None
      end
  end.

(** A word that was read earlier is no longer there: the loop goes round again. *)
Definition stale m (c : loc) w : nat := if decide (peek m c = Some w) then 0 else 40.

Definition op_weight m (o : op) : nat :=
  match o with
  | OAcqLoad _ _ _ => 20
  | OAcqStore _ c _ w => 19 + stale m c w
  | OAcqCheck _ c _ w => 18 + stale m c w
  | OLoadInc _ _ => 2
  | OLoadClear _ _ => 1
  | OSnapSlot _ _ j => 80 + (snapshot_slots - j)
  | OSnapLoad _ _ _ => 30
  | OSnapNull _ _ _ => 1
  | OSnapStore c _ _ w => 29 + stale m c w
  | OSnapCheck c _ _ w => 28 + stale m c w
  | OSnapInc c _ w => 17 + stale m c w
  | OSnapAgain c _ w => 16 + stale m c w
  | OSnapClear _ _ _ Retry => 21
  | OSnapClear _ _ _ _ => 1
  | OExchange _ _ => 1
  | OStoreSnap _ _ _ => 3
  | OStoreInc _ _ _ | OIncExchange _ _ => 2
  | OReserve _ _ _ _ => 5
  | OCas _ _ _ _ => 4
  | OCasInc _ _ => 3
  | OCasClear _ _ _ => 2
  | OCasMove _ _ _ _ => 2
  | _ => 1
  end.

Definition next_weight m (o : option op) : nat := match o with Some o => op_weight m o | None => 0 end.

(** The instructions before which a call may call into the manager: what is left
    of the call does not depend on what is in memory. *)
Definition calm (o : option op) : Prop :=
  match o with None | Some (OCasInc _ _ | OCasClear _ _ _ | OCasMoved) => True | _ => False end.

Lemma calm_weight m m' o : calm o → next_weight m' o = next_weight m o.
Proof. by destruct o as [[]|]. Qed.

Definition closer m l (o : op) (r : list frame * option op) (ml : mem V * local) : Prop :=
  l_work ml.2 = l_work l ∧ Forall sane_frame r.1 ∧ (r.1 = [] ∨ calm r.2) ∧
  next_weight ml.1 r.2 < op_weight m o.

Lemma same_peek m m' c : same_weight m m' → peek m' c = peek m c.
Proof.
  intros (_ & Hr & _ & Hs). destruct c as [i|p k]; simpl; [by rewrite Hr|].
  assert (m_heap m' !! p ≫= storage = m_heap m !! p ≫= storage) as E; [|by rewrite E].
  specialize (Hs p). destruct (m_heap m' !! p), (m_heap m !! p); simpl in *; congruence.
Qed.

Lemma stale_fresh m m' c w : peek m c = Some w → (∀ c, peek m' c = peek m c) → stale m' c w = 0.
Proof. intros H E. unfold stale. by rewrite E, decide_True. Qed.

Lemma wlp_cell_load m l c Q :
  (∀ w, peek m c = Some w → Q w (m, l)) → wlp (cell_load (V := V) c) Q (m, l).
Proof.
  intros H. destruct c as [i|p k]; simpl.
  - wlp_step. unfold mem_get. wlp_step. simpl. wlp_step. by apply H.
  - wlp_step. apply wlp_payload_at. intros o v Ho Hv. simpl in H. rewrite Ho in H; simpl in H. rewrite Hv in H.
    destruct (members v !! k) as [[]|]; wlp_step. by apply H.
Qed.

Lemma wlp_cell_store m l c w Q : (∀ m', Q tt (m', l)) → wlp (cell_store (V := V) c w) Q (m, l).
Proof.
  intros H. destruct c as [i|p k]; simpl.
  - wlp_step. unfold mem_get. wlp_step. simpl. wlp_step. wlp_step. unfold set_m_roots. wlp_step. apply H.
  - wlp_step. apply wlp_payload_at. intros o v Ho Hv. destruct (members v !! k) as [[]|]; try wlp_step.
    apply wlp_update. intros o' Ho'. apply H.
Qed.

Lemma wlp_cell_exchange m l c w Q : (∀ old m', Q old (m', l)) → wlp (cell_exchange (V := V) c w) Q (m, l).
Proof.
  intros H. unfold cell_exchange. wlp_step. apply wlp_cell_load. intros old _. wlp_step.
  apply wlp_cell_store. intros m'. wlp_step. apply H.
Qed.

Lemma wlp_cell_cas m l c e w Q : (∀ b m', Q b (m', l)) → wlp (cell_cas (V := V) c e w) Q (m, l).
Proof.
  intros H. unfold cell_cas. wlp_step. apply wlp_cell_load. intros cur _. destruct (cur =? e)%Z; wlp_step; [|apply H].
  apply wlp_cell_store. intros m'. wlp_step. apply H.
Qed.

Lemma wlp_store_announcement m l k w Q :
  (∀ m', (∀ c, peek m' c = peek m c) → Q tt (m', l)) → wlp (store_announcement (V := V) k w) Q (m, l).
Proof.
  intros H. unfold store_announcement. wlp_step. unfold mem_get. wlp_step. simpl. wlp_step. wlp_step.
  wlp_step. by apply H.
Qed.

Lemma wlp_strong_inc m l p Q :
  (∀ c' m', (∀ c, peek m' c = peek m c) → Q c' (m', l)) → wlp (strong_step (V := V) p (IncAdd 1)) Q (m, l).
Proof.
  intros H. apply wlp_strong_step; [done|]. intros x c' x' m' _ Hm. apply H. intros c. by apply same_peek.
Qed.

Lemma wlp_weak_inc m l p Q :
  (∀ c' m', (∀ c, peek m' c = peek m c) → Q c' (m', l)) → wlp (weak_step (V := V) p (IncAdd 1)) Q (m, l).
Proof.
  intros H. apply wlp_weak_step; [done|]. intros x c' x' m' _ Hm. apply H. intros c. by apply same_peek.
Qed.

Lemma stale_same m m' c w : (∀ c, peek m' c = peek m c) → stale m' c w = stale m c w.
Proof. intros E. unfold stale. by rewrite E. Qed.

Lemma stale_old m c w w' : peek m c = Some w' → w' ≠ w → stale m c w = 40.
Proof. intros E Hne. unfold stale. rewrite E, decide_False by congruence. done. Qed.

Lemma delay_old_sane old : Forall sane_frame (delay_old old).
Proof. unfold delay_old. destruct (null old); by rewrite ?Forall_singleton, ?Forall_nil. Qed.

(** The next instruction of a call, or its end. *)
Lemma goto_closer m l o o' m' :
  op_weight m' o' < op_weight m o → wlp (goto (V := V) o') (closer m l o) (m', l).
Proof. intros H. unfold goto. wlp_step. split_and!; [done|by rewrite Forall_nil|by left|done]. Qed.

Lemma finish_closer m l o m' l' :
  l_work l' = l_work l → 0 < op_weight m o → wlp (finish (V := V)) (closer m l o) (m', l').
Proof. intros Hl H. unfold finish. wlp_step. split_and!; [done|by rewrite Forall_nil|by left|done]. Qed.

Lemma local_finish_closer m l o m' g :
  l_work (g l) = l_work l → 0 < op_weight m o →
  wlp (local_set (V := V) g;; finish) (closer m l o) (m', l).
Proof. intros Hl H. wlp_step. unfold local_set. wlp_step. by apply finish_closer. Qed.

Lemma delay_closer m l o m' old o' :
  calm o' → next_weight m' o' < op_weight m o → wlp (mret (delay_old old, o')) (closer m l o) (m', l).
Proof. intros Hc H. wlp_step. split_and!; [done|apply delay_old_sane|by right|done]. Qed.

Lemma op_weight_pos m o : 0 < op_weight m o.
Proof. destruct o as [| | | | | | | | | | | |? ? ? []| | | | | | | | | | | | | | |]; simpl; lia. Qed.

Local Ltac lighter :=
  cbn [op_weight];
  repeat match goal with
    | H : ∀ c, peek ?m' c = peek ?m c |- context [stale ?m' ?c ?w] => rewrite (stale_same m m' c w H)
    | H : negb _ = true |- _ => apply negb_true_iff, Z.eqb_neq in H
    | H : negb _ = false |- _ => apply negb_false_iff, Z.eqb_eq in H as ->
    | H : peek ?m ?c = Some ?w |- context [stale ?m ?c ?w] => rewrite (stale_fresh m m c w H ltac:(done))
    | H : peek ?m ?c = Some ?w, Hne : ?w ≠ ?w' |- context [stale ?m ?c ?w'] => rewrite (stale_old m c w' w H Hne)
    | H : (_ <? _) = true |- _ => apply Nat.ltb_lt in H
    end;
  lia.

Local Ltac op_walk :=
  repeat first
    [ progress cbv beta
    | apply goto_closer; lighter
    | apply finish_closer; [done|apply op_weight_pos]
    | apply local_finish_closer; [done|apply op_weight_pos]
    | apply delay_closer; [done|simpl; lia]
    | apply wlp_cell_load; intros ? ?
    | apply wlp_cell_exchange; intros ? ?
    | apply wlp_cell_cas; intros ? ?
    | apply wlp_store_announcement; intros ? ?
    | apply wlp_strong_inc; intros ? ? ?
    | apply wlp_weak_inc; intros ? ? ?
    | apply wlp_payload_at; intros ? ? ? ?
    | match goal with
      | |- context [if (?a =? ?b)%Z then GaveUp else Retry] => destruct (Z.eqb_spec a b) as [->|]
      | |- wlp (if ?b then _ else _) _ _ => destruct b eqn:?
      | |- wlp (match ?u with _ => _ end) _ _ => destruct u
      | |- context [Some (if ?b then _ else _)] => destruct b
      end
    | wlp_step ].

Lemma exec_op_closer tid o m l : wlp (exec_op (V := V) tid o) (closer m l o) (m, l).
Proof.
  destruct o; open_instr; unfold finish_load, finish_snap, mem_get; op_walk.
Qed.

(** ** Threads *)

(** What every thread of a reachable state satisfies, [weak_ptr] included. *)
Definition sane_thread T : Prop :=
  Forall sane_frame (t_stack T) ∧ (0 ≤ l_work (t_local T))%Z ∧ (t_stack T = [] ∨ calm (t_op T)).

Definition sane s : Prop := ∀ tid T, c_threads s !! tid = Some T → sane_thread T.

Lemma sane_after s tid T' m' : sane s → sane_thread T' → sane (CState m' (<[tid := T']> (c_threads s))).
Proof. intros Hs HT' tid' T [[-> [-> _]]|[_ HT]]%list_lookup_insert_Some; [done|]. by eapply Hs. Qed.

(** A step of a thread, and what it brings nearer: the end of the calls into the
    manager or the end of the call. *)
Lemma run_nearer tid T m T' m' :
  sane_thread T → ¬ idle T → run_thread num_threads tid T m = Ok (T', m') →
  sane_thread T' ∧
  ((t_op T' = t_op T ∧ t_stack T ≠ [] ∧
    (potential m' (t_local T') (t_stack T') < potential m (t_local T) (t_stack T) ∨
     potential m' (t_local T') (t_stack T') ≤ potential m (t_local T) (t_stack T) ∧
     weight m' (t_stack T') < weight m (t_stack T))) ∨
   (t_stack T = [] ∧ next_weight m' (t_op T') < next_weight m (t_op T))).
Proof.
  destruct T as [o stack l]; intros (Hst & Hw & Hc) Hid Hrun; simpl in *. unfold run_thread in Hrun; simpl in Hrun.
  destruct stack as [|f stack].
  - destruct o as [o|]; [|by destruct Hid].
    destruct (exec_op tid o (m, l)) as [[[fs o'] [m1 l1]]|] eqn:E; [|done]. injection Hrun as <- <-.
    destruct (exec_op_closer tid o m l _ _ E) as (Hl & Hfs & Hcalm & Hlt); simpl in *.
    split; [|by right]. split_and!; [done|simpl; lia|done].
  - destruct (exec_frame num_threads f (m, l)) as [[fs [m1 l1]]|] eqn:E; [|done]. injection Hrun as <- <-.
    apply Forall_cons in Hst as [Hf Hst].
    destruct (exec_frame_nearer m l Hw f Hf _ _ E) as (Hw1 & Hfs & Hn & Hlt); simpl in *.
    destruct Hc as [|Hc]; [done|]. split; [split_and!; [by apply Forall_app|done|by right]|left].
    split_and!; [done|done|]. unfold potential, weight in *. cbn [sum_list_with] in *.
    rewrite Hn in *. rewrite !sum_list_with_app in *. lia.
Qed.

(** Thread [tid] executes its next instruction. *)
Definition alone (tid : nat) s s' : Prop :=
  ∃ T T' m', c_threads s !! tid = Some T ∧ ¬ idle T ∧ has_room (c_mem s) ∧
    run_thread num_threads tid T (c_mem s) = Ok (T', m') ∧ s' = CState m' (<[tid := T']> (c_threads s)).

#[export] Instance can_add_dec n x arg : Decision (can_add n x arg).
Proof. unfold can_add. apply _. Defined.

#[export] Instance has_room_dec m : Decision (has_room m).
Proof.
  exact (decide (map_Forall (λ _ o, can_add cnt_width (ref_cnt o) 1 ∧ can_add cnt_width (weak_cnt o) 1) (m_heap m))).
Defined.

(** The end of what a thread can do alone. *)
Definition halted (tid : nat) s : Prop :=
  ∃ T, c_threads s !! tid = Some T ∧
    (idle T ∨ ¬ has_room (c_mem s) ∨ ∃ e, run_thread num_threads tid T (c_mem s) = Err e).

Lemma alone_or_halted tid T s :
  c_threads s !! tid = Some T →
  halted tid s ∨ ∃ T' m', ¬ idle T ∧ has_room (c_mem s) ∧ run_thread num_threads tid T (c_mem s) = Ok (T', m').
Proof.
  intros HT. assert (Decision (idle T)) as Hdec.
  { destruct T as [[o|] [|f stack] l]; first [by left|by right; intros [? ?]]. }
  destruct (decide (idle T)) as [|Hid]; [left; exists T; auto|].
  destruct (decide (has_room (c_mem s))) as [Hr|]; [|left; exists T; auto].
  destruct (run_thread num_threads tid T (c_mem s)) as [[T' m']|e] eqn:E; [eauto 10|left; exists T; eauto 10].
Qed.

(** The three measures, in lexicographic order. *)
Lemma alone_ends tid a b c s T :
  sane s → c_threads s !! tid = Some T → next_weight (c_mem s) (t_op T) = a →
  potential (c_mem s) (t_local T) (t_stack T) = b → weight (c_mem s) (t_stack T) = c →
  ∃ s', rtc (alone tid) s s' ∧ halted tid s'.
Proof.
  revert b c s T. induction a as [a IHa] using lt_wf_ind. intros b.
  induction b as [b IHb] using lt_wf_ind. intros c.
  induction c as [c IHc] using lt_wf_ind. intros s T Hs HT Ha Hb Hc.
  destruct (alone_or_halted tid T s HT) as [H|(T' & m' & Hid & Hroom & Hrun)]; [by exists s|].
  destruct (run_nearer tid T _ T' m' (Hs _ _ HT) Hid Hrun) as [HT' Hlt].
  set (s' := CState m' (<[tid := T']> (c_threads s))).
  assert (alone tid s s') as Hstep by (exists T, T', m'; done).
  assert (sane s') as Hs' by by apply sane_after.
  assert (c_threads s' !! tid = Some T') as HT1.
  { apply list_lookup_insert_eq. by eapply lookup_lt_Some. }
  assert (∃ s1, rtc (alone tid) s' s1 ∧ halted tid s1) as (s1 & Hr & Hh); [|eauto using rtc_l].
  destruct Hlt as [(Ho & Hne & Hlt)|[_ Hlt]]; [|eapply IHa; eauto; simpl in *; lia].
  assert (next_weight m' (t_op T') = a) as Ha'.
  { destruct (Hs _ _ HT) as (_ & _ & [?|?]); [done|]. rewrite Ho. subst a. by apply calm_weight. }
  destruct (decide (potential m' (t_local T') (t_stack T') < b)) as [Hb'|Hb'].
  - eapply IHb; eauto.
  - assert (potential m' (t_local T') (t_stack T') = b) by (simpl in *; lia).
    eapply IHc; [|exact Hs'|exact HT1|done..]; simpl. lia.
Qed.

(** ** Calls *)

Definition started k (r : list frame * option op) (ml : mem V * local) : Prop :=
  l_work ml.2 = k ∧ Forall sane_frame r.1 ∧ (r.1 = [] ∨ calm r.2).

Lemma wlp_take_rc_work r k m l Q :
  l_work l = k → (∀ w l', l_work l' = k → Q w (m, l')) → wlp (take_rc (V := V) r) Q (m, l).
Proof.
  intros Hl H. unfold take_rc. wlp_step. unfold local_get. wlp_step. do 2 wlp_step. wlp_step. unfold local_set.
  wlp_step. wlp_step. by apply H.
Qed.

Lemma wlp_take_members_work ks k m l Q :
  l_work l = k → (∀ ms l', l_work l' = k → Q ms (m, l')) → wlp (take_members (V := V) ks) Q (m, l).
Proof.
  revert l Q. induction ks as [|[atomic r] ks IH]; intros l Q Hl H; simpl; [wlp_step; by apply H|].
  wlp_step. eapply wlp_take_rc_work; [done|]. intros w l1 Hl1. wlp_step. apply IH; [done|].
  intros ms l2 Hl2. wlp_step. by apply H.
Qed.

Lemma drop_sane w : Forall sane_frame (drop_strong w) ∧ Forall sane_frame (drop_weak w).
Proof. unfold drop_strong, drop_weak. destruct (null w); by rewrite !Forall_singleton || rewrite !Forall_nil. Qed.

Local Ltac call_walk :=
  repeat first
    [ progress cbv beta
    | apply wlp_payload_at; intros ? ? ? ?
    | apply wlp_update; intros ? ?
    | eapply wlp_take_members_work; [eassumption|]; intros ? ? ?
    | eapply wlp_take_rc_work; [eassumption|]; intros ? ? ?
    | match goal with
      | |- wlp (from_option_m ?x) _ _ => destruct x; simpl
      | |- wlp (if ?b then _ else _) _ _ => destruct b
      | |- wlp (match ?u with _ => _ end) _ _ => destruct u
      end
    | wlp_step ];
  try (split_and!; [done|first [by rewrite Forall_nil|apply drop_sane]|first [by left|by right]]).

Lemma call_started_sane c k m l :
  l_work l = k → wlp (call (V := V) c) (started k) (m, l).
Proof.
  intros Hl.
  destruct c; open_instr; unfold loc_of, word_of, rc_member, finish_load, finish, goto, local_get, local_set, mem_get, set_m_heap;
    call_walk.
Qed.

Lemma cstep_sane allowed s s' : sane s → cstep num_threads allowed s s' → sane s'.
Proof.
  intros Hs Hstep. destruct Hstep as [s tid T c T' m' HT _ _ _ Hrun|s tid T T' m' HT Hid _ Hrun]; apply sane_after; try done.
  - unfold call_thread in Hrun. destruct (call c (c_mem s, t_local T)) as [[[fs o] [m1 l1]]|] eqn:E; [|done].
    injection Hrun as <- <-. destruct (Hs _ _ HT) as (_ & Hw & _).
    destruct (call_started_sane c _ _ _ eq_refl _ _ E) as (Hl & Hfs & Hc); simpl in *.
    split_and!; [done|simpl; lia|done].
  - exact (proj1 (run_nearer _ _ _ _ _ (Hs _ _ HT) Hid Hrun)).
Qed.

Lemma reachable_sane allowed roots rcs snaps weaks s :
  rtc (cstep num_threads allowed) (machine_init num_threads roots rcs snaps weaks) s → sane s.
Proof.
  intros Hr. assert (sane (machine_init (V := V) num_threads roots rcs snaps weaks)) as Hi.
  { intros tid T [-> _]%lookup_replicate_1. split_and!; [by rewrite Forall_nil|done|by left]. }
  induction Hr; eauto using cstep_sane.
Qed.

Lemma alone_cstep allowed tid s s' : alone tid s s' → cstep num_threads allowed s s'.
Proof. intros (T & T' & m' & HT & Hid & Hr & Hrun & ->). by eapply cstep_run. Qed.

End progress.
