(* ===== verification/HpRoom.v ===== *)
(** * A thread that runs alone finishes its call

    What a thread does alone ends (HpProgress.v) and does not fail (HpProps.v); it
    ends with the call, because a call adds at most one reference to an object
    before it ends and so does not bring a counter to its limit. *)

From S2P Require Import Prelude StickyCounter CountedObject MemoryManager AtomicLoc AcquireRetire HpMachine HpInvariant HpFacts HpEffects HpFrames HpOps HpOpSteps HpProps HpProgress.
Local Open Scope nat_scope.


Section room.
  Context {V : Type} `{Pol : !Policy} (num_threads : nat).
  Implicit Types (p w k : Z) (l : local) (m : mem V) (s : cstate V) (T : thread) (f : frame).

(** There is room for [k] references to each object. *)
Definition spare k m : Prop :=
  ∀ p o, m_heap m !! p = Some o → (low cnt_width (ref_cnt o) + k < 2 ^ (cnt_width - 2))%Z ∧ weak_room o.

Lemma spare_room k m : (1 ≤ k)%Z → spare k m → has_room m.
Proof. intros Hk H p o Ho. destruct (H p o Ho) as [Hs Hw]. split; [|done]. unfold strong_room, can_add. lia. Qed.

Lemma spare_less k k' m : (k' ≤ k)%Z → spare k m → spare k' m.
Proof. intros Hk H p o Ho. destruct (H p o Ho). split; [lia|done]. Qed.

Lemma spare_insert k k' m p o o' x r a :
  spare k m → (k' ≤ k)%Z → m_heap m !! p = Some o → weak_cnt o' = weak_cnt o → ref_cnt o' = x →
  (low cnt_width x + k' ≤ low cnt_width (ref_cnt o) + k)%Z → spare k' (Mem (<[p := o']> (m_heap m)) r a).
Proof.
  intros H Hk Ho Hw <- Hle q ob Hq. simpl in Hq. apply lookup_insert_Some in Hq as [[<- <-]|[_ Hq]].
  - destruct (H _ _ Ho) as [H1 H2]. unfold weak_room in *. rewrite Hw. split; [lia|done].
  - destruct (H _ _ Hq). split; [lia|done].
Qed.

Lemma wlp_strong_exact m l p c Q :
  pc_weight c ≠ 0 →
  (∀ o c' x, m_heap m !! p = Some o → thread_step cnt_width c (ref_cnt o) = Some (c', x) →
     Q c' (Mem (<[p := set_ref_cnt x o]> (m_heap m)) (m_roots m) (m_slots m), l)) →
  wlp (strong_step (V := V) p c) Q (m, l).
Proof.
  intros Hc H. unfold strong_step. wlp_step. apply wlp_object. intros o Ho.
  destruct (thread_step cnt_width c (ref_cnt o)) as [[c' x]|] eqn:E; [|by apply stepping in E].
  wlp_step. apply wlp_update. intros o' Ho'. wlp_step. simplify_eq. by eapply H.
Qed.

(** The counter operations of a decrement, and those that only read. *)
Lemma wlp_strong_spare m l p c k Q :
  spare k m → pc_weight c ≠ 0 →
  (∀ o c' x, m_heap m !! p = Some o → thread_step cnt_width c (ref_cnt o) = Some (c', x) →
     (low cnt_width x ≤ low cnt_width (ref_cnt o))%Z) →
  (∀ c' m', spare k m' → Q c' (m', l)) → wlp (strong_step (V := V) p c) Q (m, l).
Proof.
  intros H Hc Hle HQ. apply wlp_strong_exact; [done|]. intros o c' x Ho E. apply HQ.
  eapply spare_insert; [done|reflexivity|done..|]. specialize (Hle _ _ _ Ho E). simpl. lia.
Qed.

Lemma load_read_same n x c' x' : thread_step n LoadRead x = Some (c', x') → x' = x.
Proof. simpl. destruct (x =? 0)%Z; by intros [= <- <-]. Qed.

Lemma wlp_load_spare m l p k Q :
  spare k m → (∀ c' m', spare k m' → Q c' (m', l)) → wlp (strong_step (V := V) p LoadRead) Q (m, l).
Proof. intros H. apply wlp_strong_spare; [done|done|]. by intros o c' x _ ->%load_read_same. Qed.

Lemma wlp_weak_load_spare m l p k Q :
  spare k m → (∀ c' m', spare k m' → Q c' (m', l)) → wlp (weak_step (V := V) p LoadRead) Q (m, l).
Proof.
  intros H HQ. unfold weak_step. wlp_step. apply wlp_object. intros o Ho.
  destruct (thread_step cnt_width LoadRead (weak_cnt o)) as [[c' x]|] eqn:E; [|by apply stepping in E].
  wlp_step. apply wlp_update. intros o' Ho'. wlp_step. simplify_eq. apply load_read_same in E as ->. apply HQ.
  eapply spare_insert; [done|reflexivity|done..|]. simpl. lia.
Qed.

Lemma wlp_update_spare m l p g k Q :
  spare k m → (∀ o, ref_cnt (g o) = ref_cnt o ∧ weak_cnt (g o) = weak_cnt o) →
  (∀ m', spare k m' → Q tt (m', l)) → wlp (update (V := V) p g) Q (m, l).
Proof.
  intros H Hg HQ. apply wlp_update. intros o Ho. apply HQ. destruct (Hg o).
  eapply spare_insert; [done|reflexivity|done..|]. lia.
Qed.

(** Where a decrement is, the subtraction cannot borrow from the flags. *)
Lemma dec_spare s tid o p c stack l k :
  minv s → c_threads s !! tid = Some (Thread o (FDec p c :: stack) l) →
  ∀ ob c' x, m_heap (c_mem s) !! p = Some ob → thread_step cnt_width c (ref_cnt ob) = Some (c', x) →
    (low cnt_width x ≤ low cnt_width (ref_cnt ob))%Z.
Proof.
  intros Hi HT ob c' x Hob E. destruct (frame_was_ok _ _ _ _ _ _ Hi HT) as [Hp [->|[->| ->]]].
  - by apply load_read_same in E as ->.
  - destruct (owned_live s p Hi Hp) as (ob' & Hob' & [Hr _] & _).
    { eapply Nat.lt_le_trans; [|by eapply own_frame_owned]. simpl. rewrite one_true by done. lia. }
    simplify_eq. rewrite thread_step_sub in E by done. injection E as <- <-. unfold low.
    change (2 ^ (cnt_width - 2))%Z with (2 ^ 30)%Z. rewrite !Z.mod_small by lia. lia.
  - simpl in E. destruct (Z.eqb_spec (ref_cnt ob) 0) as [H0|]; [|by repeat case_match; simplify_eq].
    injection E as <- <-. by rewrite H0.
Qed.

Lemma spare_delete k m p r a : spare k m → spare k (Mem (delete p (m_heap m)) r a).
Proof. intros H q o Hq. simpl in Hq. apply lookup_delete_Some in Hq as [_ Hq]. exact (H q o Hq). Qed.

Lemma wlp_cell_store_spare m l c w k Q :
  spare k m → (∀ m', spare k m' → Q tt (m', l)) → wlp (cell_store (V := V) c w) Q (m, l).
Proof.
  intros H HQ. destruct c as [i|p j]; simpl.
  - wlp_step. unfold mem_get. wlp_step. simpl. wlp_step. wlp_step. unfold set_m_roots. wlp_step. by apply HQ.
  - wlp_step. apply wlp_payload_at. intros o v Ho Hv. destruct (members v !! j) as [[]|]; try wlp_step.
    eapply wlp_update_spare; [exact H|done|exact HQ].
Qed.

Lemma wlp_cell_load_any m l c Q : (∀ w, Q w (m, l)) → wlp (cell_load (V := V) c) Q (m, l).
Proof. intros H. apply wlp_cell_load. intros w _. apply H. Qed.

Lemma wlp_announce_spare m l i w k Q :
  spare k m → (∀ m', spare k m' → Q tt (m', l)) → wlp (store_announcement (V := V) i w) Q (m, l).
Proof.
  intros H HQ. unfold store_announcement. wlp_step. unfold mem_get. wlp_step. simpl. wlp_step. wlp_step.
  wlp_step. by apply HQ.
Qed.

Local Ltac spare_walk :=
  repeat first
    [ progress cbv beta
    | eapply wlp_load_spare; [eassumption|]; intros ? ? ?
    | eapply wlp_weak_load_spare; [eassumption|]; intros ? ? ?
    | eapply wlp_update_spare; [eassumption|done|]; intros ? ?
    | eapply wlp_cell_store_spare; [eassumption|]; intros ? ?
    | eapply wlp_announce_spare; [eassumption|]; intros ? ?
    | apply wlp_payload_at; intros ? ? ? ?
    | apply wlp_cell_load_any; intros ?
    | match goal with
      | |- wlp (if ?b then _ else _) _ _ => destruct b
      | |- wlp (match ?u with _ => _ end) _ _ => destruct u
      end
    | wlp_step ];
  simpl; try (by eapply spare_less; [|eassumption]).

Lemma frame_spare s tid o f stack l k :
  minv s → c_threads s !! tid = Some (Thread o (f :: stack) l) → spare k (c_mem s) →
  wlp (exec_frame num_threads f) (λ _ ml, spare k ml.1) (c_mem s, l).
Proof.
  intros Hi HT H. pose proof (frame_was_ok _ _ _ _ _ _ Hi HT) as Hf.
  destruct f; simpl in Hf; try done; destruct_and?; subst; open_instr; unfold local_get, local_set, mem_get, set_m_heap.
  7: { wlp_step. eapply wlp_strong_spare; [exact H| |by eapply dec_spare|intros c' m' Hm; spare_walk].
       by destruct (frame_was_ok _ _ _ _ _ _ Hi HT) as [_ [->|[->| ->]]]. }
  all: spare_walk. apply wlp_object. intros ob _. spare_walk. by apply spare_delete.
Qed.

(** References that the rest of a call may still add. *)
Definition incs (o : option op) : Z :=
  match o with
  | None
  | Some (OLoadClear _ _ | OSnapNull _ _ _ | OSnapClear _ _ _ (Counted | GaveUp) | OExchange _ _ |
          OCasClear _ _ _ | OCasMove _ _ _ _ | OCasMoved | OClearSlot _ | ODeref _) => 0
  | _ => 1
  end.

Lemma low_succ x : (low cnt_width (wrap cnt_width (x + 1)) ≤ low cnt_width x + 1)%Z.
Proof.
  unfold low, wrap. change (cnt_width - 2)%Z with 30%Z. change cnt_width with 32%Z.
  replace (2 ^ 32)%Z with (2 ^ 30 * 4)%Z by done.
  rewrite <-Znumtheory.Zmod_div_mod by (try lia; by exists 4%Z).
  rewrite <-Zplus_mod_idemp_l. apply Z.mod_le; [|lia]. pose proof (Z.mod_pos_bound x (2 ^ 30)). lia.
Qed.

Lemma wlp_inc_spare m l p k Q :
  spare (k + 1) m → (∀ c' m', spare k m' → Q c' (m', l)) → wlp (strong_step (V := V) p (IncAdd 1)) Q (m, l).
Proof.
  intros H HQ. apply wlp_strong_exact; [done|]. intros o c' x Ho E. apply HQ. simpl in E. injection E as <- <-.
  eapply spare_insert; [exact H|lia|exact Ho|done|done|]. pose proof (low_succ (ref_cnt o)). simpl. lia.
Qed.

(** The increment of [protect_snapshot] succeeds. *)
Lemma snap_inc_spare s tid c dst w l k :
  minv s → c_threads s !! tid = Some (Thread (Some (OSnapInc c dst w)) [] l) → spare (k + 1) (c_mem s) →
  wlp (exec_op tid (OSnapInc c dst w)) (λ r ml, spare (k + incs r.2) ml.1) (c_mem s, l).
Proof.
  intros Hi HT H. open_instr. wlp_step. apply wlp_strong_exact; [done|]. intros o c' x Ho E.
  pose proof (held_owned s (main_slot tid) (raw w) (inv_tinv s Hi)) as Hown.
  destruct (op_was_ok _ _ _ _ Hi HT) as (_ & _ & Hw & _).
  destruct (owned_live s (raw w) Hi Hw) as (o' & Ho' & Hl & _).
  { apply Hown. eapply held_here; [exact HT|by left]. }
  rewrite Ho in Ho'. injection Ho' as <-. simpl in E. rewrite (live_flag_clear o Hl) in E. injection E as <- <-.
  simpl. unfold goto. wlp_step.
  eapply spare_insert; [exact H|simpl; lia|exact Ho|done|done|]. pose proof (low_succ (ref_cnt o)). simpl. lia.
Qed.

Lemma op_spare s tid o l k :
  minv s → c_threads s !! tid = Some (Thread (Some o) [] l) → spare (k + incs (Some o)) (c_mem s) →
  wlp (exec_op tid o) (λ r ml, spare (k + incs r.2) ml.1) (c_mem s, l).
Proof.
  intros Hi HT H. pose proof (op_was_ok _ _ _ _ Hi HT) as Ho.
  destruct o; simpl in H, Ho; try done; try (by apply snap_inc_spare); open_instr;
    unfold finish_load, finish_snap, finish, goto, local_get, local_set, mem_get, cell_exchange, cell_cas.
  all: spare_walk; try (eapply wlp_inc_spare; [exact H|]; intros ? ? ?; spare_walk).
  all: repeat case_match; simpl; try (eapply spare_less; [|eassumption]; simpl; lia).
Qed.

Lemma incs_one o : (0 ≤ incs o ≤ 1)%Z.
Proof. destruct o as [[]|]; simpl; repeat case_match; lia. Qed.

(** The start of a call adds no reference to an object. *)
Lemma spare_new k m p v r a :
  spare k m → (k < 1000)%Z → spare k (Mem (<[p := new_counted_object 0 v]> (m_heap m)) r a).
Proof.
  intros H Hk q o Hq. simpl in Hq. apply lookup_insert_Some in Hq as [[<- <-]|[_ Hq]]; [|by eapply H].
  split; [|done]. change (low cnt_width (ref_cnt (new_counted_object 0 v))) with 1%Z.
  change (2 ^ (cnt_width - 2))%Z with 1073741824%Z. lia.
Qed.

Lemma wlp_take_rc_any r m l Q : (∀ w l', Q w (m, l')) → wlp (take_rc (V := V) r) Q (m, l).
Proof. intros H. eapply wlp_take_rc_work; [done|]. intros w l' _. apply H. Qed.

Lemma wlp_take_members_any ks m l Q : (∀ ms l', Q ms (m, l')) → wlp (take_members (V := V) ks) Q (m, l).
Proof. intros H. eapply wlp_take_members_work; [done|]. intros ms l' _. apply H. Qed.

Lemma call_spare c k m l :
  spare k m → (k < 1000)%Z → wlp (call (V := V) c) (λ _ ml, spare k ml.1) (m, l).
Proof.
  intros H Hk.
  destruct c; open_instr; unfold loc_of, word_of, rc_member, finish_load, finish, goto, local_get, local_set, mem_get, set_m_heap.
  all: repeat first
    [ progress cbv beta
    | apply wlp_take_rc_any; intros ? ?
    | apply wlp_take_members_any; intros ? ?
    | match goal with |- wlp (from_option_m ?x) _ _ => destruct x; simpl end
    | progress spare_walk ].
  by apply spare_new.
Qed.

Definition roomy k (tid : nat) s : Prop :=
  minv s ∧ ∃ T, c_threads s !! tid = Some T ∧ spare (k + incs (t_op T)) (c_mem s).

Lemma alone_roomy k tid s s' : roomy k tid s → alone num_threads tid s s' → roomy k tid s'.
Proof.
  intros (Hi & T & HT & H) Halone. split; [by eapply cstep_minv, alone_cstep|].
  destruct Halone as (T1 & T' & m' & HT1 & Hid & _ & Hrun & ->). rewrite HT in HT1. injection HT1 as <-.
  exists T'. split; [apply list_lookup_insert_eq; by eapply lookup_lt_Some|]. simpl.
  destruct T as [o stack l]. unfold run_thread in Hrun; simpl in *. destruct stack as [|f stack].
  - destruct o as [o|]; [|by destruct Hid].
    destruct (exec_op tid o (c_mem s, l)) as [[[fs o'] [m1 l1]]|] eqn:E; [|done]. injection Hrun as <- <-.
    exact (op_spare s tid o l k Hi HT H _ _ E).
  - destruct (exec_frame num_threads f (c_mem s, l)) as [[fs [m1 l1]]|] eqn:E; [|done]. injection Hrun as <- <-.
    exact (frame_spare s tid o f stack l _ Hi HT H _ _ E).
Qed.

Lemma roomy_runs k tid s : (1 ≤ k)%Z → roomy k tid s → halted num_threads tid s → ∃ T, c_threads s !! tid = Some T ∧ idle T.
Proof.
  intros Hk (Hi & T & HT & H) (T1 & HT1 & Hh). rewrite HT in HT1. injection HT1 as <-. exists T. split; [done|].
  assert (has_room (c_mem s)) as Hroom.
  { eapply spare_room; [|exact H]. destruct (t_op T) as [[]|]; simpl; repeat case_match; lia. }
  destruct Hh as [?|[?|[e He]]]; [done|done|].
  destruct (machine_run_ok num_threads s tid T Hi Hroom HT) as (T2 & m2 & E & _). congruence.
Qed.

End room.

(** ** The theorem *)

Section alone_theorem.
  Context {V : Type} `{Pol : !Policy}.

(** C7. Nobody has to wait for anybody: from every state that an interleaving of
    strong-pointer calls can reach and in which no object has more than 2^30 - 3
    references, a thread that executes its instructions while all others have
    stopped, wherever they have, comes to the end of its call. *)
Theorem hp_alone_finishes n roots rcs snaps weaks (s : cstate V) tid T :
  rtc (cstep n strong_cmd) (machine_init n roots rcs snaps weaks) s →
  c_threads s !! tid = Some T → spare 2 (c_mem s) →
  ∃ s' T', rtc (alone n tid) s s' ∧ c_threads s' !! tid = Some T' ∧ idle T'.
Proof.
  intros Hr HT Hroom. pose proof (reachable_sane n _ _ _ _ _ s Hr) as Hs.
  destruct (alone_ends n tid _ _ _ s T Hs HT eq_refl eq_refl eq_refl) as (s' & Hrun & Hh).
  assert (roomy 1 tid s) as Hs0.
  { split; [by eapply reachable_minv|]. exists T. split; [done|]. eapply spare_less; [|exact Hroom].
    pose proof (incs_one (t_op T)). lia. }
  assert (roomy 1 tid s') as Hs'.
  { clear Hh Hr HT Hroom Hs. induction Hrun; eauto using alone_roomy. }
  destruct (roomy_runs n 1 tid s' ltac:(lia) Hs' Hh) as (T' & HT' & Hid). by exists s', T'.
Qed.
End alone_theorem.
