(* ===== verification/HpBounds.v ===== *)
(** * How much a thread defers

    In every interleaving on the hazard-pointer machine, weak pointers included,
    a thread between two calls has at most [threshold] deferred actions and six
    for every announcement slot of all threads: what a round has put back is what
    the announcements that it has read protect, and what came later is paid for
    by the amortised work. *)

From S2P Require Import Prelude StickyCounter CountedObject MemoryManager AtomicLoc AcquireRetire HpMachine HpInvariant HpProps HpProgress.
Local Open Scope nat_scope.

Section bounds.
  Context {V : Type} `{Pol : !Policy} (num_threads : nat).
  Implicit Types (p w : Z) (l : local) (m : mem V) (s : cstate V) (T : thread) (f : frame) (a : gmap hp_entry nat).

(** ** What announcements protect *)

(** The deferred actions that the map of a scan lets stay. *)
Definition total a : nat := msum (λ k, k) a.

Definition positive a : Prop := ∀ e k, a !! e = Some k → 1 ≤ k.

Lemma announce_type_total r a ty :
  positive a → total (announce_type r a ty) ≤ total a + 2 ∧ positive (announce_type r a ty).
Proof.
  intros Hp. split.
  - unfold announce_type, total. destruct (a !! (r, ty)) as [k|] eqn:E; simpl.
    + pose proof (msum_insert (K := hp_entry) (λ k, k) a (r, ty) k (if k =? 0 then 2 else S k) E) as H.
      simpl in H. destruct (k =? 0); unfold hp_entry in *; lia.
    + rewrite msum_insert_new by done. simpl. lia.
  - intros e k. rewrite announce_type_lookup. case_decide; [|apply Hp]. case_match; intros [= <-]; lia.
Qed.

Lemma announce_total a y : positive a → total (announce a y) ≤ total a + 6 ∧ positive (announce a y).
Proof.
  intros H0. unfold announce, retire_types; simpl.
  destruct (announce_type_total y a decrement_strong_count H0) as [T1 H1].
  destruct (announce_type_total y _ decrement_weak_count H1) as [T2 H2].
  destruct (announce_type_total y _ retire_dispose H2) as [T3 H3]. split; [lia|done].
Qed.

(** An entry that stays uses up a part of it. *)
Lemma check_total a e :
  positive a →
  let '(keep, a') := check_announced a e in
  total a' + (if keep : bool then 1 else 0) = total a ∧ positive a'.
Proof.
  intros Hp. unfold check_announced. destruct (a !! e) as [k|] eqn:E; [|split; [lia|done]].
  pose proof (Hp e k E). destruct (Nat.eqb_spec (k - 1) 0) as [H1|H1]; split.
  - unfold total. rewrite (msum_delete (λ k, k) a e k E). lia.
  - intros e' k' [_ He]%lookup_delete_Some. by eapply Hp.
  - unfold total. pose proof (msum_insert (λ k, k) a e k (k - 1) E) as H2. simpl in H2. lia.
  - intros e' k' [[_ <-]|[_ He]]%lookup_insert_Some; [lia|]. by eapply Hp.
Qed.

(** ** Threads *)

Definition is_scan f : nat := match f with FScan _ _ _ | FApply _ _ _ => 1 | _ => 0 end.

(** [n] is the number of slots. *)
Definition scan_bound (n : nat) f : Prop :=
  match f with
  | FScan i a _ => positive a ∧ i ≤ n ∧ total a ≤ 6 * i
  | FApply a _ kept => positive a ∧ total a + length kept ≤ 6 * n
  | _ => True
  end.

Record bounded (n : nat) T : Prop := {
  bd_frames : Forall (scan_bound n) (t_stack T);
  bd_work : (0 ≤ l_work (t_local T))%Z;
  bd_scans : sum_list_with is_scan (t_stack T) = if l_in_progress (t_local T) then 1 else 0;
  bd_deferred :
    (Z.of_nat (length (l_deferred (t_local T))) ≤
     l_work (t_local T) + if l_in_progress (t_local T) then 0 else 6 * Z.of_nat n)%Z;
  bd_due : l_in_progress (t_local T) = false →
    (l_work (t_local T) < collect_threshold (V := V) num_threads)%Z ∨ head (t_stack T) = Some FWork
}.

(** A step that neither retires nor scans. *)
Definition quiet m l (fs : list frame) (ml : mem V * local) : Prop :=
  Forall (λ f, is_scan f = 0) fs ∧ length (m_slots ml.1) = length (m_slots m) ∧
  l_deferred ml.2 = l_deferred l ∧ l_work ml.2 = l_work l ∧ l_in_progress ml.2 = l_in_progress l.

Lemma wlp_counter m l p c Q :
  pc_weight c ≠ 0 → (∀ c' m', length (m_slots m') = length (m_slots m) → Q c' (m', l)) →
  wlp (strong_step (V := V) p c) Q (m, l) ∧ wlp (weak_step (V := V) p c) Q (m, l).
Proof.
  intros Hc H. split; [apply wlp_strong_step|apply wlp_weak_step]; try done;
    intros x c' x' m' _ [Hm _]; by apply H.
Qed.

Lemma wlp_cell_store_slots m l c w Q :
  (∀ m', m_slots m' = m_slots m → Q tt (m', l)) → wlp (cell_store (V := V) c w) Q (m, l).
Proof.
  intros H. destruct c as [i|p k]; simpl.
  - wlp_step. unfold mem_get. wlp_step. simpl. wlp_step. wlp_step. unfold set_m_roots. wlp_step. by apply H.
  - wlp_step. apply wlp_payload_at. intros o v Ho Hv. destruct (members v !! k) as [[]|]; try wlp_step.
    apply wlp_update. intros o' Ho'. by apply H.
Qed.

Lemma wlp_announce_slots m l k w Q :
  (∀ m', length (m_slots m') = length (m_slots m) → Q tt (m', l)) →
  wlp (store_announcement (V := V) k w) Q (m, l).
Proof.
  intros H. unfold store_announcement. wlp_step. unfold mem_get. wlp_step. simpl. wlp_step. wlp_step.
  wlp_step. apply H. simpl. by rewrite length_insert.
Qed.

Lemma wlp_take_rc_quiet r m l Q :
  (∀ w l', l_deferred l' = l_deferred l → l_work l' = l_work l → l_in_progress l' = l_in_progress l → Q w (m, l')) →
  wlp (take_rc (V := V) r) Q (m, l).
Proof.
  intros H. unfold take_rc. wlp_step. unfold local_get. wlp_step. do 2 wlp_step. wlp_step. unfold local_set.
  wlp_step. wlp_step. by apply H.
Qed.

Lemma wlp_take_members_quiet ks m l Q :
  (∀ ms l', l_deferred l' = l_deferred l → l_work l' = l_work l → l_in_progress l' = l_in_progress l → Q ms (m, l')) →
  wlp (take_members (V := V) ks) Q (m, l).
Proof.
  revert l Q. induction ks as [|[atomic r] ks IH]; intros l Q H; simpl; [wlp_step; by apply H|].
  wlp_step. apply wlp_take_rc_quiet. intros w l1 E1 E2 E3. wlp_step. apply IH.
  intros ms l2 E4 E5 E6. wlp_step. apply H; congruence.
Qed.

Lemma drops_quiet w :
  Forall (λ f, is_scan f = 0) (delay_old w) ∧ Forall (λ f, is_scan f = 0) (drop_strong w) ∧
  Forall (λ f, is_scan f = 0) (drop_weak w).
Proof. unfold delay_old, drop_strong, drop_weak. destruct (null w); by rewrite !Forall_singleton || rewrite !Forall_nil. Qed.

Lemma drop_member_quiet (x : member) : Forall (λ f, is_scan f = 0) (drop_member x).
Proof.
  destruct x as [w|w|w|w]; simpl; try apply drops_quiet. destruct (null w); by rewrite ?Forall_singleton, ?Forall_nil.
Qed.

Local Ltac quiet_end :=
  split_and!;
    [first [apply drops_quiet|by repeat (rewrite ?Forall_app, ?Forall_singleton, ?Forall_nil; simpl); auto using drop_member_quiet]
    |simpl; congruence..].

Local Ltac quiet_walk :=
  repeat first
    [ progress cbv beta
    | apply wlp_object; intros ? ?
    | apply wlp_update; intros ? ?
    | apply wlp_payload_at; intros ? ? ? ?
    | apply wlp_cell_load; intros ? ?
    | apply wlp_cell_store_slots; intros ? ?
    | apply wlp_announce_slots; intros ? ?
    | apply wlp_counter; [first [by apply loading_weight|by apply decrementing_weight|done]|]; intros ? ? ?
    | apply wlp_take_members_quiet; intros ? ? ? ? ?
    | apply wlp_take_rc_quiet; intros ? ? ? ? ?
    | match goal with
      | |- wlp (from_option_m ?x) _ _ => destruct x; simpl
      | |- wlp (if ?b then _ else _) _ _ => destruct b
      | |- wlp (match ?u with _ => _ end) _ _ => destruct u
      end
    | wlp_step ];
  simpl; try (by repeat case_match; quiet_end).

Lemma frame_unscanned f m l :
  sane_frame f → match f with FRetire _ _ | FWork | FScan _ _ _ | FApply _ _ _ => False | _ => True end →
  wlp (exec_frame num_threads f) (quiet m l) (m, l).
Proof.
  intros Hs Hf. destruct f; try done; simpl in Hs; open_instr; unfold local_get, local_set, mem_get, set_m_heap.
  all: quiet_walk.
Qed.

Lemma op_unscanned tid o m l : wlp (exec_op (V := V) tid o) (λ r, quiet m l r.1) (m, l).
Proof.
  destruct o; open_instr;
    unfold finish_load, finish_snap, finish, goto, local_get, local_set, mem_get, cell_exchange, cell_cas.
  all: quiet_walk.
Qed.

Lemma call_unscanned c m l : wlp (call (V := V) c) (λ r, quiet m l r.1) (m, l).
Proof.
  destruct c; open_instr; unfold loc_of, word_of, rc_member, finish_load, finish, goto, local_get, local_set, mem_get, set_m_heap.
  all: quiet_walk.
Qed.

(** ** Steps keep the bound *)

Lemma quiet_bounded n T o fs rest m l ml :
  bounded n T → sum_list_with is_scan rest = sum_list_with is_scan (t_stack T) → Forall (scan_bound n) rest →
  head (t_stack T) ≠ Some FWork → t_local T = l → quiet m l fs ml → bounded n (Thread o (fs ++ rest) ml.2).
Proof.
  intros [B1 B2 B3 B4 B5] Hr Hrest Hh Hl (Hfs & _ & Ed & Ew & Ei). subst l. constructor; simpl; rewrite ?Ed, ?Ew, ?Ei.
  - apply Forall_app. split; [|done]. eapply Forall_impl; [exact Hfs|]. by intros [] H.
  - done.
  - rewrite sum_list_with_app, <-B3, Hr. rewrite (sum_zero is_scan fs); [done|].
    intros i f Hf. by eapply Forall_lookup_1 in Hfs.
  - done.
  - intros Hi. left. by destruct (B5 Hi).
Qed.

Lemma retire_bounded n p ty rest o l m :
  (l_work l + 1 < 2 ^ 32)%Z → bounded n (Thread o (FRetire p ty :: rest) l) →
  wlp (exec_frame num_threads (FRetire p ty))
    (λ fs ml, bounded n (Thread o (fs ++ rest) ml.2) ∧ length (m_slots ml.1) = length (m_slots m)) (m, l).
Proof.
  intros Hw [B1 B2 B3 B4 B5]; simpl in *. open_instr. wlp_step. unfold local_set. wlp_step. wlp_step. split; [|done].
  apply Forall_cons in B1 as [_ B1].
  constructor; simpl; rewrite ?(Z.mod_small (l_work l + 1)) by lia; unfold wrap; rewrite ?Z.mod_small by lia; try lia.
  - by apply Forall_cons.
  - rewrite length_app. simpl. lia.
  - by right.
Qed.

Lemma work_bounded n rest o l m :
  length (m_slots m) = n → bounded n (Thread o (FWork :: rest) l) →
  wlp (exec_frame num_threads FWork)
    (λ fs ml, bounded n (Thread o (fs ++ rest) ml.2) ∧ length (m_slots ml.1) = length (m_slots m)) (m, l).
Proof.
  intros Hn [B1 B2 B3 B4 B5]; simpl in *. open_instr. wlp_step. unfold local_get, local_set. wlp_step. simpl.
  apply Forall_cons in B1 as [_ B1]. pose proof (collect_threshold_pos (V := V) num_threads).
  destruct (l_in_progress l) eqn:Ei; simpl; [wlp_step; split; [|done]; by constructor; simpl; rewrite ?Ei|].
  destruct (Z.leb_spec (collect_threshold (V := V) num_threads) (l_work l)).
  - destruct (l_deferred l) as [|e d] eqn:Ed; wlp_step; wlp_step; wlp_step; (split; [|done]).
    + constructor; simpl; try done; lia.
    + constructor; simpl; try done; try lia. apply Forall_cons. split; [|done]. split_and!; [|lia|done].
      intros e' k. by rewrite lookup_empty.
  - wlp_step. split; [|done]. constructor; simpl; rewrite ?Ei; try done. intros _. by left.
Qed.

Lemma scan_bounded n i a d rest o l m :
  length (m_slots m) = n → bounded n (Thread o (FScan i a d :: rest) l) →
  wlp (exec_frame num_threads (FScan i a d))
    (λ fs ml, bounded n (Thread o (fs ++ rest) ml.2) ∧ length (m_slots ml.1) = length (m_slots m)) (m, l).
Proof.
  intros Hn [B1 B2 B3 B4 B5]; simpl in *. apply Forall_cons in B1 as [(Hp & Hi & Ht) B1].
  destruct (l_in_progress l) eqn:Ei; [|done].
  open_instr. wlp_step. unfold mem_get. wlp_step. simpl. destruct (m_slots m !! i) as [y|] eqn:Ey; wlp_step; (split; [|done]).
  - apply lookup_lt_Some in Ey. constructor; simpl; rewrite ?Ei; try done. apply Forall_cons. split; [|done].
    destruct (announce_total a y Hp). destruct (y =? 0)%Z; simpl; split_and!; try done; lia.
  - apply lookup_ge_None in Ey. constructor; simpl; rewrite ?Ei; try done. apply Forall_cons. split; [|done].
    split; [done|]. simpl. lia.
Qed.

Lemma apply_bounded n a d k rest o l m :
  bounded n (Thread o (FApply a d k :: rest) l) →
  wlp (exec_frame num_threads (FApply a d k))
    (λ fs ml, bounded n (Thread o (fs ++ rest) ml.2) ∧ length (m_slots ml.1) = length (m_slots m)) (m, l).
Proof.
  intros [B1 B2 B3 B4 B5]; simpl in *. apply Forall_cons in B1 as [(Hp & Ht) B1].
  destruct (l_in_progress l) eqn:Ei; [|done].
  open_instr. destruct d as [|e d].
  - wlp_step. unfold local_set. wlp_step. wlp_step. split; [|done]. constructor; simpl; try done.
    + by apply Forall_cons.
    + lia.
    + rewrite length_app. lia.
    + by right.
  - pose proof (check_total a e Hp) as Hc. destruct (check_announced a e) as [keep a'] eqn:Ec. destruct Hc as [Hc Hp'].
    destruct keep; wlp_step; (split; [|done]); constructor; simpl; rewrite ?Ei; try done; rewrite ?Forall_cons; simpl;
      rewrite ?length_app; simpl; split_and!; try done; lia.
Qed.

Lemma frame_bounded n f rest o l m :
  length (m_slots m) = n → (l_work l + 1 < 2 ^ 32)%Z → sane_frame f → bounded n (Thread o (f :: rest) l) →
  wlp (exec_frame num_threads f)
    (λ fs ml, bounded n (Thread o (fs ++ rest) ml.2) ∧ length (m_slots ml.1) = length (m_slots m)) (m, l).
Proof.
  intros Hn Hw Hs Hb.
  assert (match f with FRetire _ _ | FWork | FScan _ _ _ | FApply _ _ _ => False | _ => True end →
    wlp (exec_frame num_threads f)
      (λ fs ml, bounded n (Thread o (fs ++ rest) ml.2) ∧ length (m_slots ml.1) = length (m_slots m)) (m, l)) as Hq.
  { intros Hf. eapply wlp_mono; [by apply frame_unscanned|]. intros fs ml Hquiet. split; [|apply Hquiet].
    eapply quiet_bounded; [exact Hb|by destruct f| |by destruct f|done|exact Hquiet].
    destruct Hb as [B1 _ _ _ _]. by apply Forall_cons in B1 as [_ B1]. }
  destruct f; try (by apply Hq); clear Hq; auto using retire_bounded, work_bounded, scan_bounded, apply_bounded.
Qed.

Lemma run_bounded n tid T m T' m' :
  length (m_slots m) = n → (l_work (t_local T) + 1 < 2 ^ 32)%Z → sane_thread T → bounded n T → ¬ idle T →
  run_thread num_threads tid T m = Ok (T', m') → bounded n T' ∧ length (m_slots m') = n.
Proof.
  intros Hn Hw (Hst & _ & _) Hb Hid Hrun. destruct T as [o stack l]. unfold run_thread in Hrun; simpl in *.
  destruct stack as [|f stack].
  - destruct o as [o|]; [|by destruct Hid].
    destruct (exec_op tid o (m, l)) as [[[fs o'] [m1 l1]]|] eqn:E; [|done]. injection Hrun as <- <-.
    pose proof (op_unscanned tid o m l _ _ E) as Hq; simpl in Hq. split; [|rewrite <-Hn; apply Hq].
    rewrite <-(app_nil_r fs). by eapply (quiet_bounded n _ o' fs [] m l (m1, l1)); [exact Hb|..].
  - destruct (exec_frame num_threads f (m, l)) as [[fs [m1 l1]]|] eqn:E; [|done]. injection Hrun as <- <-.
    apply Forall_cons in Hst as [Hf _]. rewrite <-Hn. subst n. by apply (frame_bounded _ f stack o l m eq_refl Hw Hf Hb _ _ E).
Qed.

Lemma call_bounded n T m c T' m' :
  length (m_slots m) = n → bounded n T → idle T → call_thread T m c = Ok (T', m') →
  bounded n T' ∧ length (m_slots m') = n.
Proof.
  intros Hn Hb [Ho Hs] Hrun. destruct T as [o stack l]; simpl in *; subst. unfold call_thread in Hrun; simpl in Hrun.
  destruct (call c (m, l)) as [[[fs o'] [m1 l1]]|] eqn:E; [|done]. injection Hrun as <- <-.
  pose proof (call_unscanned c m l _ _ E) as Hq; simpl in Hq. split; [|apply Hq].
  rewrite <-(app_nil_r fs). by eapply (quiet_bounded _ _ o' fs [] m l (m1, l1)); [exact Hb|..].
Qed.

(** ** Runs *)

(** No thread's amortised work, an [unsigned int], is about to wrap around. *)
Definition no_wrap s : Prop :=
  ∀ tid T, c_threads s !! tid = Some T → (l_work (t_local T) + 1 < 2 ^ 32)%Z.

Definition steady_step (allowed : cmd → Prop) s s' : Prop := no_wrap s ∧ cstep num_threads allowed s s'.

Definition all_bounded (n : nat) s : Prop :=
  sane s ∧ length (m_slots (c_mem s)) = n ∧ ∀ tid T, c_threads s !! tid = Some T → bounded n T.

Lemma bounded_after n s tid T' m' :
  all_bounded n s → sane (CState m' (<[tid := T']> (c_threads s))) → bounded n T' ∧ length (m_slots m') = n →
  all_bounded n (CState m' (<[tid := T']> (c_threads s))).
Proof.
  intros (_ & _ & H) Hs [HT' Hn]. split_and!; [done|done|].
  intros tid' T [[-> [-> _]]|[_ HT]]%list_lookup_insert_Some; [done|]. by eapply H.
Qed.

Lemma step_all_bounded n allowed s s' : all_bounded n s → steady_step allowed s s' → all_bounded n s'.
Proof.
  intros Hb [Hw Hstep]. pose proof (cstep_sane num_threads allowed s s' (proj1 Hb) Hstep) as Hs'.
  destruct Hstep as [s tid T c T' m' HT Hid _ _ Hrun|s tid T T' m' HT Hid _ Hrun]; apply bounded_after; try done;
    destruct Hb as (Hs & Hn & H).
  - by eapply call_bounded; eauto.
  - eapply run_bounded; eauto.
Qed.

Lemma steady_bounded allowed roots rcs snaps weaks s :
  rtc (steady_step allowed) (machine_init num_threads roots rcs snaps weaks) s →
  all_bounded (num_threads * slots_per_thread) s.
Proof.
  intros Hr. assert (all_bounded (num_threads * slots_per_thread)
    (machine_init (V := V) num_threads roots rcs snaps weaks)) as Hi.
  { split_and!; [by apply (reachable_sane num_threads allowed roots rcs snaps weaks)|simpl; by rewrite length_replicate|].
    intros tid T [-> _]%lookup_replicate_1. pose proof (collect_threshold_pos (V := V) num_threads).
    constructor; simpl; try done; [lia|]. intros _. by left. }
  induction Hr; eauto using step_all_bounded.
Qed.

End bounds.

(** ** The theorem *)

Section bound_theorem.
  Context {V : Type} `{Pol : !Policy}.

(** C10. A thread between two calls holds fewer than max(30, 2n) + 48n deferred
    actions, where n is the number of threads, in every interleaving of the
    instructions of any calls, as long as no thread retires 2^32 - 1 actions
    within one round: the scan puts back at most six actions for each of the
    eight announcements of each thread. *)
Theorem hp_deferred_bounded n allowed roots rcs snaps weaks (s : cstate V) tid T :
  rtc (steady_step n allowed) (machine_init n roots rcs snaps weaks) s →
  c_threads s !! tid = Some T → idle T →
  (Z.of_nat (length (l_deferred (t_local T))) < Z.max 30 (2 * Z.of_nat n) + 48 * Z.of_nat n)%Z.
Proof.
  intros Hr HT [_ Hs]. destruct (steady_bounded n allowed _ _ _ _ s Hr) as (_ & _ & H).
  destruct (H tid T HT) as [_ _ B3 B4 B5]. rewrite Hs in B3, B5. destruct (l_in_progress (t_local T)); [done|].
  destruct (B5 eq_refl) as [Hlt|]; [|done]. unfold collect_threshold, threshold in Hlt. simpl in Hlt.
  unfold slots_per_thread, snapshot_slots in B4. lia.
Qed.
End bound_theorem.
