(* ===== verification/StackMachine.v ===== *)
(** * The stack, one instruction at a time

    The class [atomic_stack] of examples/stack.h over the hazard-pointer machine:
    any number of threads are inside [push_front], [pop_front], [front] or [find]
    of one stack, and a step executes at most one access to shared memory of one
    of them.  StackProgram.v lets whole calls of the stack take turns; here their
    instructions interleave, with the scans, the deferred decrements and the
    destructors of nodes that run inside them.

    The pointers of a thread are variables of the machine: [new_node] and a
    temporary [rc_ptr], [ss] and a temporary [snapshot_ptr]; the atomic pointer
    outside the objects is [head].  A node is an object whose value has one
    [rc_ptr] member, [next]. *)

From S2P Require Import Prelude StickyCounter CountedObject MemoryManager AtomicLoc AcquireRetire HpMachine StackProgram.
Local Open Scope nat_scope.

Definition new_node : nat := 0.
Definition temp_rc : nat := 1.
Definition ss : nat := 0.
Definition temp_snap : nat := 1.
Definition next_member : nat := 0.
Definition stack_head : place := PRoot 0.

(** ** The methods *)

(** The place in the body of a method: the pointer call that the thread is in the
    middle of, or has come back from. *)
Inductive phase (V : Type) :=
  | Outside
  | PushLoad (t : V)               (* the argument head.load() of make_rc *)
  | PushLoop (t : V)               (* make_rc, or the assignment of the last round *)
  | PushCas (t : V)                (* compare_and_swap(new_node->next, new_node) *)
  | PushReload (t : V)             (* expected = load() *)
  | PopLoop                        (* get_snapshot(), or the assignment of the last round *)
  | PopCas                         (* compare_and_swap(ss, ss->next) *)
  | PopReload                      (* expected = get_snapshot(): the new snapshot *)
  | PopClear                       (* expected = get_snapshot(): clear() *)
  | FrontSnap
  | FindSnap (t : V)
  | FindLoop (t : V) (node : Z)
  | Leave (r : stack_res V).       (* the destructors of the local variables *)
Arguments Outside {V}.
Arguments PushLoad {V} _.
Arguments PushLoop {V} _.
Arguments PushCas {V} _.
Arguments PushReload {V} _.
Arguments PopLoop {V}.
Arguments PopCas {V}.
Arguments PopReload {V}.
Arguments PopClear {V}.
Arguments FrontSnap {V}.
Arguments FindSnap {V} _.
Arguments FindLoop {V} _ _.
Arguments Leave {V} _.

(** What a method does when the thread is not inside a pointer call: it makes one
    and goes on at a place, goes on there at once, or returns. *)
Inductive todo (V : Type) :=
  | Do (c : cmd (V := V)) (ph : phase V)
  | GoOn (ph : phase V)
  | Give (r : stack_res V).
Arguments Do {V} _ _.
Arguments GoOn {V} _.
Arguments Give {V} _.

Section methods.
  Context {V : Type} `{Veq : !EqDecision V} `{Pol : !Policy}.

Local Abbreviation M := (M (mem V * local)).

(** The first pointer call of each method. *)
Definition enter (o : stack_op V) : cmd (V := V) * phase V :=
  match o with
  | SPush t => (CLoad temp_rc stack_head, PushLoad t)
  | SPop => (CSnapshot ss stack_head, PopLoop)
  | SFront => (CSnapshot ss stack_head, FrontSnap)
  | SFind t => (CSnapshot ss stack_head, FindSnap t)
  end.

(** [push_front]; a new node is put at [a] *)
Definition push_new (a : Z) (t : V) : M (todo V) :=
  mret (Do (CNew new_node a t [(false, temp_rc)]) (PushLoop t)).

Definition push_try (t : V) : M (todo V) :=
  p ← word_of (SRc new_node);
  expected ← rc_member (raw p) next_member;
  mret (Do (CCas stack_head expected (SRc new_node)) (PushCas t)).

Definition push_decide (t : V) : M (todo V) :=
  b ← local_get l_result;
  mret (if b : bool then Do (CDrop new_node) (Leave ResUnit) else Do (CLoad temp_rc stack_head) (PushReload t)).

Definition push_assign (t : V) : M (todo V) :=
  mret (Do (CAssignField new_node next_member temp_rc) (PushLoop t)).

(** [pop_front] *)
Definition pop_try : M (todo V) :=
  w ← word_of (SSnap ss);
  mret (if null w then Do (CDropSnap ss) (Leave (ResVal None)) else Do (CCasField stack_head w (SSnap ss) next_member) PopCas).

(** [return {ss->t}] *)
Definition return_value : M (todo V) :=
  w ← word_of (SSnap ss);
  v ← payload_at (raw w);
  mret (Do (CDropSnap ss) (Leave (ResVal (Some (data v))))).

Definition pop_decide : M (todo V) :=
  b ← local_get l_result;
  if b : bool then return_value else mret (Do (CSnapshot temp_snap stack_head) PopReload).

Definition pop_clear : M (todo V) := mret (Do (CDropSnap ss) PopClear).
Definition pop_swap : M (todo V) := mret (Do (CSwapSnap ss temp_snap) PopLoop).

(** [front] *)
Definition front_read : M (todo V) :=
  w ← word_of (SSnap ss);
  if null w then mret (Do (CDropSnap ss) (Leave (ResVal None))) else return_value.

(** [find] *)
Definition find_first (t : V) : M (todo V) :=
  w ← word_of (SSnap ss); mret (GoOn (FindLoop t w)).

Definition find_next (t : V) (node : Z) : M (todo V) :=
  if null node then mret (Do (CDropSnap ss) (Leave (ResBool false)))
  else
    v ← payload_at (raw node);
    if decide (data v = t) then mret (Do (CDropSnap ss) (Leave (ResBool true)))
    else n ← rc_member (raw node) next_member; mret (GoOn (FindLoop t n)).

(** What comes next. *)
Definition proceed (a : Z) (ph : phase V) : M (todo V) :=
  match ph with
  | Outside => fail OutOfRange
  | PushLoad t => push_new a t
  | PushLoop t => push_try t
  | PushCas t => push_decide t
  | PushReload t => push_assign t
  | PopLoop => pop_try
  | PopCas => pop_decide
  | PopReload => pop_clear
  | PopClear => pop_swap
  | FrontSnap => front_read
  | FindSnap t => find_first t
  | FindLoop t node => find_next t node
  | Leave r => mret (Give r)
  end.
End methods.

(** ** The machine *)

Inductive event (V : Type) :=
  | Invoke (tid : nat) (o : stack_op V)
  | Return (tid : nat) (r : stack_res V).
Arguments Invoke {V} _ _.
Arguments Return {V} _ _.

Record stack_state (V : Type) := StackState { s_core : cstate V; s_phases : list (phase V) }.
Arguments StackState {V} _ _.
Arguments s_core {V} _.
Arguments s_phases {V} _.

Section machine.
  Context {V : Type} `{Veq : !EqDecision V} `{Pol : !Policy} (num_threads : nat).
  Implicit Types (m : mem V) (T : thread) (ph : phase V).

(** One step of thread [tid].  A thread that is outside calls [o]; an allocation
    gets the address [a]. *)
Definition move (tid : nat) (o : stack_op V) (a : Z) ph T m :
    result (option (event V) * phase V * thread * mem V) :=
  match T with
  | Thread None [] l =>
      match ph with
      | Outside =>
          let '(c, ph') := enter o in
          match call_thread T m c with
          | Ok (T', m') => Ok (Some (Invoke tid o), ph', T', m')
          | Err e => Err e
          end
      | _ =>
          match proceed a ph (m, l) with
          | Ok (Do c ph', _) =>
              match call_thread T m c with
              | Ok (T', m') => Ok (None, ph', T', m')
              | Err e => Err e
              end
          | Ok (GoOn ph', _) => Ok (None, ph', T, m)
          | Ok (Give r, _) => Ok (Some (Return tid r), Outside, T, m)
          | Err e => Err e
          end
      end
  | _ =>
      match run_thread num_threads tid T m with
      | Ok (T', m') => Ok (None, ph, T', m')
      | Err e => Err e
      end
  end.

(** What the allocator promises. *)
Definition fresh_address m (a : Z) : Prop := a ≠ 0%Z ∧ (a mod 4 = 0)%Z ∧ m_heap m !! a = None.

(** A step of thread [tid]; in a step of the machine any thread moves. *)
Inductive tstep (tid : nat) : stack_state V → option (event V) → stack_state V → Prop :=
  | tstep_move S o a ph T e ph' T' m' :
      c_threads (s_core S) !! tid = Some T → s_phases S !! tid = Some ph →
      fresh_address (c_mem (s_core S)) a → has_room (c_mem (s_core S)) →
      move tid o a ph T (c_mem (s_core S)) = Ok (e, ph', T', m') →
      tstep tid S e (StackState (CState m' (<[tid := T']> (c_threads (s_core S)))) (<[tid := ph']> (s_phases S))).

Definition sstep (S : stack_state V) (e : option (event V)) (S' : stack_state V) : Prop := ∃ tid, tstep tid S e S'.

Definition stack_init : stack_state V :=
  StackState (machine_init num_threads 1 2 2 0) (replicate num_threads Outside).
End machine.

(** A run and the calls and returns that it makes. *)
Inductive runs {A E : Type} (step : A → option E → A → Prop) : A → list E → A → Prop :=
  | runs_nil s : runs step s [] s
  | runs_silent s s1 s2 tr : step s None s1 → runs step s1 tr s2 → runs step s tr s2
  | runs_event s e s1 s2 tr : step s (Some e) s1 → runs step s1 tr s2 → runs step s (e :: tr) s2.

Lemma runs_app {A E : Type} (step : A → option E → A → Prop) s1 tr1 s2 tr2 s3 :
  runs step s1 tr1 s2 → runs step s2 tr2 s3 → runs step s1 (tr1 ++ tr2) s3.
Proof. induction 1; intros; simpl; eauto using runs_silent, runs_event. Qed.

Lemma runs_one {A E : Type} (step : A → option E → A → Prop) s1 e s2 :
  step s1 e s2 → runs step s1 (option_list e) s2.
Proof. destruct e; simpl; eauto using runs_silent, runs_event, runs_nil. Qed.

(** ** The specification: a stack whose methods are atomic *)

(** A thread is outside, has called, or its call has taken effect. *)
Inductive status (V : Type) := Idle | Called (o : stack_op V) | Done (r : stack_res V).
Arguments Idle {V}.
Arguments Called {V} _.
Arguments Done {V} _.

Record atomic_state (V : Type) := AtomicState { a_list : list V; a_threads : list (status V) }.
Arguments AtomicState {V} _ _.
Arguments a_list {V} _.
Arguments a_threads {V} _.

Section spec.
  Context {V : Type} `{Veq : !EqDecision V}.

Inductive astep : atomic_state V → option (event V) → atomic_state V → Prop :=
  | astep_invoke xs ts tid o :
      ts !! tid = Some Idle →
      astep (AtomicState xs ts) (Some (Invoke tid o)) (AtomicState xs (<[tid := Called o]> ts))
  | astep_effect xs ts tid o r xs' :
      ts !! tid = Some (Called o) → list_exec o xs = (r, xs') →
      astep (AtomicState xs ts) None (AtomicState xs' (<[tid := Done r]> ts))
  | astep_return xs ts tid r :
      ts !! tid = Some (Done r) →
      astep (AtomicState xs ts) (Some (Return tid r)) (AtomicState xs (<[tid := Idle]> ts)).

Definition atomic_init (n : nat) : atomic_state V := AtomicState [] (replicate n Idle).
End spec.
