(* ===== verification/StackStable.v ===== *)
(** * What the instructions of the stack leave alone

    A step of the hazard-pointer machine changes at most the object that the
    instruction is on ([run_untouched]), and a value only when its object is being
    destroyed ([run_storage]).  So the value of an object that somebody has a
    reference to stays ([owned_storage]), and a new node that only its creator
    has a reference to stays altogether ([private_untouched]). *)

From S2P Require Import Prelude StickyCounter CountedObject MemoryManager AtomicLoc AcquireRetire HpMachine HpInvariant HpFacts HpEffects HpFrames HpOps HpOpSteps HpProps HpProgress HpBounds.
Local Open Scope nat_scope.

Section stable.
  Context {V : Type} `{Pol : !Policy} (num_threads : nat).
  Implicit Types (p w : Z) (l : local) (m : mem V) (s : cstate V) (T : thread) (f : frame).

(** ** The object that an instruction is on *)

Definition touch_frame f : option Z :=
  match f with
  | FDelay p _ | FDelayWeak p _ | FDec p _ | FWeakDec p _ | FWeakRead p _ | FAssertZero p _ | FDispose p _
  | FDisposed p _ | FDestroy p _ | FDelete p => Some p
  | _ => None
  end.

(** The instructions of the methods of the stack. *)
Definition stack_instr (o : op) : Prop :=
  match o with
  | OAcqLoad _ c _ | OAcqStore _ c _ _ | OAcqCheck _ c _ _ | OSnapSlot c _ _ | OSnapLoad c _ _ | OSnapStore c _ _ _
  | OSnapCheck c _ _ _ | OSnapInc c _ _ | OSnapClear c _ _ Counted | OReserve c _ _ _ | OCas c _ _ _ => c = LCell 0
  | OLoadInc _ _ | OLoadClear _ _ | OSnapNull _ _ _ | OClearSlot _ => True
  | OCasInc _ cov | OCasClear _ cov _ => match cov with BySlot _ => False | _ => True end
  | _ => False
  end.

Definition touch_op (o : op) : option Z :=
  match o with OLoadInc _ w | OSnapInc _ _ w | OCasInc w _ => Some (raw w) | _ => None end.

Definition touched T : option Z :=
  match t_stack T with f :: _ => touch_frame f | [] => t_op T ≫= touch_op end.

(** The heap after an instruction on [q]: the other objects are the same, and
    unless the object of [q] is destroyed its value is. *)
Definition changes (q : option Z) m m' : Prop :=
  (∀ p, q ≠ Some p → m_heap m' !! p = m_heap m !! p) ∧
  (∀ p, storage <$> m_heap m' !! p = storage <$> m_heap m !! p).

Lemma changes_refl q m : changes q m m.
Proof. done. Qed.

Lemma changes_same q m m' : m_heap m' = m_heap m → changes q m m'.
Proof. unfold changes. by intros ->. Qed.

Lemma changes_update m p o o' :
  m_heap m !! p = Some o → storage o' = storage o →
  changes (Some p) m (Mem (<[p := o']> (m_heap m)) (m_roots m) (m_slots m)).
Proof.
  intros Ho Hs. split; intros q; simpl.
  - intros Hne. by rewrite lookup_insert_ne by congruence.
  - destruct (decide (p = q)) as [->|Hne]; [|by rewrite lookup_insert_ne].
    rewrite lookup_insert_eq, Ho. simpl. by rewrite Hs.
Qed.

(** The variables of the thread and the atomic pointers outside the objects. *)
Definition same_vars m l (ml : mem V * local) : Prop :=
  m_roots ml.1 = m_roots m ∧ l_rcs ml.2 = l_rcs l ∧ l_snaps ml.2 = l_snaps l ∧ l_result ml.2 = l_result l.

Lemma wlp_counter_changes m l p c Q :
  pc_weight c ≠ 0 →
  (∀ c' m', changes (Some p) m m' → m_roots m' = m_roots m → Q c' (m', l)) →
  wlp (strong_step (V := V) p c) Q (m, l) ∧ wlp (weak_step (V := V) p c) Q (m, l).
Proof.
  intros Hc H. unfold strong_step, weak_step. split; wlp_step; apply wlp_object; intros o Ho;
    (destruct (thread_step cnt_width c _) as [[c' x]|] eqn:E; [|by apply stepping in E]);
    wlp_step; apply wlp_update; intros o' Ho'; wlp_step; simplify_eq; (apply H; [|done]);
    by eapply changes_update.
Qed.

Local Ltac changes_walk :=
  repeat first
    [ progress cbv beta
    | apply wlp_object; intros ? ?
    | apply wlp_update; intros ? ?
    | apply wlp_payload_at; intros ? ? ? ?
    | apply wlp_counter_changes; [first [by apply loading_weight|by apply decrementing_weight|done]|]; intros ? ? ? ?
    | match goal with
      | |- wlp (if ?b then _ else _) _ _ => destruct b
      | |- wlp (match ?u with _ => _ end) _ _ => destruct u
      end
    | wlp_step ];
  simpl.

Definition destroys f : Prop := match f with FDispose _ _ | FDelete _ => True | _ => False end.

(** A step of a call into the manager. *)
Lemma frame_changes f m l :
  sane_frame f →
  wlp (exec_frame num_threads f)
    (λ _ ml, same_vars m l ml ∧
       (∀ p, touch_frame f ≠ Some p → m_heap ml.1 !! p = m_heap m !! p) ∧
       (¬ destroys f → ∀ p, storage <$> m_heap ml.1 !! p = storage <$> m_heap m !! p)) (m, l).
Proof.
  intros Hs. destruct f; simpl in Hs; open_instr; unfold local_get, local_set, mem_get, set_m_heap; changes_walk;
    unfold same_vars; simpl; split_and!; try done; try (by intros; match goal with H : changes _ _ _ |- _ => apply H end).
  - intros q Hq. by rewrite lookup_insert_ne by congruence.
  - intros q Hq. by rewrite lookup_insert_ne by congruence.
  - intros _ q. destruct (decide (p = q)) as [->|Hne]; [|by rewrite lookup_insert_ne].
    rewrite lookup_insert_eq. by simplify_option_eq.
  - intros q Hq. by rewrite lookup_delete_ne by congruence.
Qed.

Lemma wlp_announce_heap m l k w Q :
  (∀ sl, Q tt (Mem (m_heap m) (m_roots m) sl, l)) → wlp (store_announcement (V := V) k w) Q (m, l).
Proof.
  intros H. unfold store_announcement. wlp_step. unfold mem_get. wlp_step. simpl. wlp_step. wlp_step.
  wlp_step. apply H.
Qed.

Lemma wlp_cell_store_heap m l w Q :
  (∀ r, Q tt (Mem (m_heap m) r (m_slots m), l)) → wlp (cell_store (V := V) (LCell 0) w) Q (m, l).
Proof.
  intros H. simpl. wlp_step. unfold mem_get. wlp_step. wlp_step. wlp_step. unfold set_m_roots. wlp_step. apply H.
Qed.

(** An instruction of a method. *)
Lemma op_changes tid o m l :
  stack_instr o → wlp (exec_op tid o) (λ _ ml, changes (touch_op o) m ml.1) (m, l).
Proof.
  intros Ho. destruct o; simpl in Ho; try done;
    repeat match goal with
      | H : match ?x with _ => _ end |- _ => destruct x; try done
      end; subst; open_instr;
    unfold finish_load, finish_snap, finish, goto, local_get, local_set, mem_get, cell_exchange, cell_cas;
    repeat first
      [ progress cbv beta
      | apply wlp_announce_heap; intros ?
      | apply wlp_cell_store_heap; intros ?
      | apply wlp_cell_load; intros ? ?
      | apply wlp_counter_changes; [done|]; intros ? ? ? ?
      | match goal with
        | |- wlp (if ?b then _ else _) _ _ => destruct b
        | |- wlp (match ?u with _ => _ end) _ _ => destruct u
        end
      | wlp_step ]; simpl; first [done|by apply changes_same].
Qed.

(** ** With the invariant *)

(** The object that a frame is on is nobody's, or the frame has a reference to
    it. *)
Lemma frame_touch_owned s tid o f stack l p :
  minv s → c_threads s !! tid = Some (Thread o (f :: stack) l) → touch_frame f = Some p →
  owned s p = 0 ∨ 0 < own_frame p f.
Proof.
  intros Hi HT Hf. pose proof (frame_was_ok _ _ _ _ _ _ Hi HT) as Hok.
  assert (∀ st, p ≠ 0%Z → stage_of f = Some (p, st) → owned s p = 0 ∨ 0 < own_frame p f) as Hst.
  { intros st Hp Hs. left. by destruct (frame_staged _ _ _ _ _ _ Hi HT p st Hp Hs) as (? & _ & _ & -> & _). }
  destruct f; simpl in Hf; simplify_eq; try done; try (by eapply (Hst SDisposed)); destruct Hok; simpl; eauto.
  - right. rewrite one_true by done. lia.
  - destruct (before_sub c) eqn:E; [right; rewrite one_true by done; lia|].
    destruct (Hst SDec) as [|Hpos]; [done|simpl; by rewrite E|by left|]. simpl in Hpos. rewrite E in Hpos. lia.
Qed.

Lemma destroyed_unowned s tid o f stack l p :
  minv s → c_threads s !! tid = Some (Thread o (f :: stack) l) → destroys f → touch_frame f = Some p → owned s p = 0.
Proof.
  intros Hi HT Hd Hf. destruct (frame_touch_owned _ _ _ _ _ _ _ Hi HT Hf) as [|H]; [done|]. by destruct f; simpl in H; try lia.
Qed.

(** The step of a thread that executes an instruction of the stack. *)
Definition instr_run s tid T T' m' : Prop :=
  minv s ∧ c_threads s !! tid = Some T ∧ Forall sane_frame (t_stack T) ∧
  match t_op T with Some o => stack_instr o | None => True end ∧ ¬ idle T ∧
  run_thread num_threads tid T (c_mem s) = Ok (T', m').

Lemma run_untouched s tid T T' m' p :
  instr_run s tid T T' m' → touched T ≠ Some p → m_heap m' !! p = m_heap (c_mem s) !! p.
Proof.
  intros (Hi & HT & Hs & Ho & _ & Hrun) Hp. destruct T as [o [|f stack] l]; unfold run_thread, touched in *; simpl in *.
  - destruct o as [o|]; [|by simplify_eq]. destruct (exec_op tid o (c_mem s, l)) as [[[fs o'] [m1 l1]]|] eqn:E; simplify_eq.
    by apply (op_changes tid o _ _ Ho _ _ E).
  - destruct (exec_frame num_threads f (c_mem s, l)) as [[fs [m1 l1]]|] eqn:E; simplify_eq.
    inversion Hs. by apply (frame_changes f (c_mem s) l) in E as (_ & E & _); [apply E|].
Qed.

(** The value of an object that somebody has a reference to stays. *)
Lemma owned_storage s tid T T' m' p :
  instr_run s tid T T' m' → 0 < owned s p → storage <$> m_heap m' !! p = storage <$> m_heap (c_mem s) !! p.
Proof.
  intros Hrun Hown. pose proof (run_untouched _ _ _ _ _ p Hrun) as Hsame.
  destruct Hrun as (Hi & HT & Hs & Ho & _ & Hrun). destruct T as [o [|f stack] l]; unfold run_thread, touched in *; simpl in *.
  - destruct o as [o|]; [|by simplify_eq]. destruct (exec_op tid o (c_mem s, l)) as [[[fs o'] [m1 l1]]|] eqn:E; simplify_eq.
    by apply (op_changes tid o _ _ Ho _ _ E).
  - destruct (decide (touch_frame f = Some p)) as [Hf|Hf]; [|by rewrite (Hsame Hf)].
    destruct (exec_frame num_threads f (c_mem s, l)) as [[fs [m1 l1]]|] eqn:E; simplify_eq.
    inversion Hs. apply (frame_changes f (c_mem s) l) in E as (_ & _ & E); [|done]. apply E. intros Hd.
    pose proof (destroyed_unowned _ _ _ _ _ _ _ Hi HT Hd Hf). lia.
Qed.

(** Values are only ever taken away. *)
Lemma run_storage s tid T T' m' p o' v :
  instr_run s tid T T' m' → m_heap m' !! p = Some o' → storage o' = Some v →
  ∃ o, m_heap (c_mem s) !! p = Some o ∧ storage o = Some v.
Proof.
  intros Hrun Ho' Hv. pose proof (run_untouched _ _ _ _ _ p Hrun) as Hsame.
  assert (storage <$> m_heap m' !! p = storage <$> m_heap (c_mem s) !! p →
    ∃ o, m_heap (c_mem s) !! p = Some o ∧ storage o = Some v) as Hst.
  { rewrite Ho'. simpl. rewrite Hv. destruct (m_heap (c_mem s) !! p) as [o|]; [|done]. intros [= E]. eauto. }
  destruct Hrun as (Hi & HT & Hs & Ho & _ & Hrun). destruct T as [o [|f stack] l]; unfold run_thread, touched in *; simpl in *.
  - destruct o as [o|]; [|simplify_eq; eauto]. destruct (exec_op tid o (c_mem s, l)) as [[[fs o1] [m1 l1]]|] eqn:E; simplify_eq.
    apply Hst. by apply (op_changes tid o _ _ Ho _ _ E).
  - destruct (decide (touch_frame f = Some p)) as [Hf|Hf]; [|apply Hst; by rewrite (Hsame Hf)].
    destruct (exec_frame num_threads f (c_mem s, l)) as [[fs [m1 l1]]|] eqn:E; simplify_eq. inversion Hs.
    destruct f; simpl in Hf; simplify_eq;
      try (apply (frame_changes _ (c_mem s) l) in E as (_ & _ & E); [|done]; apply Hst, E; by intros []).
    + revert E. cut (wlp (exec_frame num_threads (FDispose p delayed)) (λ _ ml, ∀ o', m_heap ml.1 !! p = Some o' → storage o' = None) (c_mem s, l)).
      { intros H E. specialize (H _ _ E _ Ho'). congruence. }
      open_instr. wlp_step. apply wlp_payload_at. intros ob vb Hob Hvb. wlp_step. apply wlp_update. intros ob' Hob'.
      wlp_step. simpl. intros o1. rewrite lookup_insert_eq. by intros [= <-].
    + revert E. cut (wlp (exec_frame num_threads (FDelete p)) (λ _ ml, m_heap ml.1 !! p = None) (c_mem s, l)).
      { intros H E. specialize (H _ _ E). simpl in H. congruence. }
      open_instr. wlp_step. apply wlp_object. intros ob Hob. do 2 wlp_step. wlp_step. unfold mem_get. wlp_step.
      wlp_step. unfold set_m_heap. wlp_step. wlp_step. unfold local_set. wlp_step. wlp_step. simpl.
      by rewrite lookup_delete_eq.
Qed.

(** ** Objects of one thread *)

(** The variable [r] of [U] has the only reference to [p]. *)
Definition private s U p : Prop :=
  p ≠ 0%Z ∧ 0 < own_vars p (t_local U) ∧ reserved_thread p U = 0 ∧
  ∃ o, m_heap (c_mem s) !! p = Some o ∧ ref_cnt o = 1%Z.

Lemma private_alone s u U p :
  minv s → c_threads s !! u = Some U → private s U p → owned s p = 1 ∧ ∀ k, ¬ held s k p.
Proof. intros Hi HU (Hp & Hv & Hr & o & Ho & H1). by eapply unshared_alone. Qed.

Lemma private_untouched s tid T T' m' u U p :
  instr_run s tid T T' m' → c_threads s !! u = Some U → private s U p →
  m_heap m' !! p = m_heap (c_mem s) !! p.
Proof.
  intros Hrun HU Hpr. eapply run_untouched; [exact Hrun|]. intros Ht.
  destruct Hrun as (Hi & HT & _ & Ho & Hid & _). destruct (private_alone _ _ _ _ Hi HU Hpr) as [H1 Hno].
  destruct Hpr as (Hp & Hv & Hres & _).
  assert (own_vars p (t_local U) ≤ own_thread p U) as HvU by (unfold own_thread; lia).
  assert (tid ≠ u → own_thread p T = 0) as Hother.
  { intros Hne. pose proof (sum_two (own_thread p) _ _ _ _ _ Hne HT HU). unfold owned in H1. lia. }
  destruct T as [o [|f stack] l]; unfold touched in Ht; simpl in *.
  - destruct o as [o|]; [simpl in *|done].
    assert ((∃ k, (k, p) ∈ op_holds tid o) ∨ ∃ w, o = OCasInc w ByVar ∧ raw w = p) as [[k Hk]|(w & -> & <-)].
    { destruct o; simpl in *; simplify_eq; try (left; eexists; by left). destruct cov; [eauto|done|]. left. eexists. by left. }
    + apply (Hno k). exists tid, (Thread (Some o) [] l). split; [done|]. apply elem_of_app. by left.
    + destruct (op_was_ok _ _ _ _ Hi HT) as (_ & Hown & _). pose proof (owner_owned l w Hown).
      destruct (decide (tid = u)) as [->|Hne].
      * rewrite HT in HU. injection HU as <-. unfold reserved_thread, on_op in Hres; simpl in Hres.
        rewrite hit_same in Hres by done. done.
      * specialize (Hother Hne). unfold own_thread in Hother; simpl in Hother. lia.
  - destruct (frame_touch_owned _ _ _ _ _ _ _ Hi HT Ht) as [H0|Hf]; [lia|].
    destruct (decide (tid = u)) as [->|Hne].
    + rewrite HT in HU. injection HU as <-. pose proof (own_thread_le s u _ p HT) as Hle.
      unfold own_thread in Hle; simpl in *. lia.
    + specialize (Hother Hne). unfold own_thread in Hother; simpl in Hother. lia.
Qed.

End stable.
