(* ===== verification/StackSim.v ===== *)
(** * The simulation relation of the stack

    What a thread in the middle of a method of the stack relies on, and where its
    call stands in the atomic stack ([thread_rel]): a call of [push_front] or of
    [pop_front] that finds a node takes effect with its successful
    [compare_exchange_strong], the others with the load of [head] that validates
    their snapshot.  Steps of other threads keep it ([rel_stays]). *)

From S2P Require Import Prelude StickyCounter CountedObject MemoryManager AtomicLoc AcquireRetire HpMachine HpInvariant HpFacts HpEffects HpFrames HpOps HpOpSteps HpProps HpProgress HpBounds StackProgram StackMachine StackStable.
Local Open Scope nat_scope.

Section spine.
  Context {V : Type} `{Pol : !Policy}.
  Implicit Types (w x y : Z) (m : mem V) (v : V) (xs : list V) (P : Z → Prop).

(** The word [w] refers to a node with value [v] and next pointer [n]. *)
Definition stack_node m w v (n : Z) : Prop :=
  real w ∧ storage <$> m_heap m !! raw w = Some (Some (Payload v [MRc n])).

(** The nodes from [w] on hold [xs]. *)
Inductive spine m : Z → list V → Prop :=
  | spine_nil w : raw w = 0%Z → spine m w []
  | spine_cons w v n xs : stack_node m w v n → spine m n xs → spine m w (v :: xs).

Definition reach m : Z → Z → Prop := rtc (λ x y, ∃ v, stack_node m x v y).

(** A node that one variable refers to. *)
Definition fresh_node m w v (n : Z) : Prop :=
  stack_node m w v n ∧ ref_cnt <$> m_heap m !! raw w = Some 1%Z.

(** Every value in memory is that of a node. *)
Definition nodes_ok m : Prop :=
  ∀ p o u, m_heap m !! p = Some o → storage o = Some u → ∃ n, members u = [MRc n].

Lemma node_unique m w v n v' n' : stack_node m w v n → stack_node m w v' n' → v = v' ∧ n = n'.
Proof. intros [_ H1] [_ H2]. rewrite H1 in H2. by injection H2 as -> ->. Qed.

Lemma stack_node_object m w v n :
  stack_node m w v n → ∃ o, m_heap m !! raw w = Some o ∧ storage o = Some (Payload v [MRc n]).
Proof. intros [_ H]. destruct (m_heap m !! raw w) as [o|]; simplify_eq/=. eauto. Qed.

Lemma spine_inv_node m w v n xs : stack_node m w v n → spine m w xs → ∃ ys, xs = v :: ys ∧ spine m n ys.
Proof.
  intros Hn Hc. inversion Hc as [? H0|? v' n' ys Hn' Hc']; subst; [by destruct Hn as [[] _]|].
  destruct (node_unique _ _ _ _ _ _ Hn Hn') as [-> ->]. eauto.
Qed.

Lemma spine_inv_null m w xs : null w = true → spine m w xs → xs = [].
Proof. intros Hn%null_true Hc. destruct Hc as [|w v n ys Hn' Hc]; [done|]. by destruct Hn' as [[] _]. Qed.

(** A set of objects that is closed under the next pointers and whose values
    stay. *)
Definition stays P m m' : Prop :=
  (∀ p, P p → storage <$> m_heap m' !! p = storage <$> m_heap m !! p) ∧
  (∀ w v n, stack_node m w v n → P (raw w) → real n → P (raw n)).

Section stays.
  Context P m m' (Hst : stays P m m').

Lemma node_stays w v n : P (raw w) → stack_node m w v n → stack_node m' w v n.
Proof. intros Hp [Hw Hn]. split; [done|]. by rewrite (proj1 Hst). Qed.

Lemma spine_stays w xs : (real w → P (raw w)) → spine m w xs → spine m' w xs.
Proof.
  intros Hw Hc. induction Hc as [|w v n xs Hn Hc IH]; [by constructor|].
  destruct Hst as [_ Hcl]. specialize (Hw (proj1 Hn)). econstructor; [by apply node_stays|]. apply IH. by eapply Hcl.
Qed.

Lemma reach_stays w x : (real w → P (raw w)) → reach m w x → reach m' w x ∧ (real x → P (raw x)).
Proof.
  intros Hw Hr. induction Hr as [w|w n x [v Hn] Hr IH]; [done|].
  destruct Hst as [_ Hcl]. specialize (Hw (proj1 Hn)).
  destruct IH as [H1 H2]; [by eapply Hcl|]. split; [|done]. eapply rtc_l; [|exact H1]. exists v. by apply node_stays.
Qed.
End stays.
End spine.

(** ** Threads *)

Section rel.
  Context {V : Type} `{Veq : !EqDecision V} `{Pol : !Policy}.
  Implicit Types (p w : Z) (l : local) (m : mem V) (s : cstate V) (T : thread) (st : status V) (t : V) (q : stack_op V).

Definition null_word w : Prop := raw w = 0%Z.
Definition free_var (y : snapshot) : Prop := raw y.1 = 0%Z ∧ y.2 = None.

(** [load] of [head] into the temporary [rc_ptr]. *)
Definition load_at (o : option op) : Prop :=
  match o with
  | None => True
  | Some (OAcqLoad ForLoad c d | OAcqStore ForLoad c d _ | OAcqCheck ForLoad c d _) => c = LCell 0 ∧ d = temp_rc
  | Some (OLoadInc d _ | OLoadClear d _) => d = temp_rc
  | _ => False
  end.

(** [get_snapshot] of [head] into snapshot variable [i]. *)
Definition snap_at (i : nat) (o : option op) : Prop :=
  match o with
  | None => True
  | Some (OSnapSlot c d _ | OSnapLoad c d _ | OSnapStore c d _ _ | OSnapCheck c d _ _ | OAcqLoad ForSnapshot c d
         | OAcqStore ForSnapshot c d _ | OAcqCheck ForSnapshot c d _ | OSnapInc c d _ | OSnapClear c d _ Counted) =>
      c = LCell 0 ∧ d = i
  | Some (OSnapNull d _ _) => d = i
  | _ => False
  end.

(** The call [q] took effect when the nodes from [w] on were the stack. *)
Definition observed m q w st : Prop := ∃ xs, spine m w xs ∧ st = Done (list_exec q xs).1.

(** The call [q] has a valid snapshot [w]: a [pop_front] that found a node has its
    effect still to come. *)
Definition taken m q w st : Prop :=
  match q with
  | SPop => if null w then observed m q w st else st = Called q
  | _ => observed m q w st
  end.

Definition snap_status m q (o : option op) w st : Prop :=
  match o with
  | None => taken m q w st
  | Some (OSnapNull _ _ w') => observed m q w' st
  | Some (OSnapInc _ _ w' | OSnapClear _ _ w' Counted) => taken m q w' st
  | Some _ => st = Called q
  end.

Definition push_waits m t (x : Z) st : Prop := (∃ n, fresh_node m x t n) ∧ st = Called (SPush t).

Definition push_status m t (x : Z) (b : bool) (o : option op) st : Prop :=
  match o with
  | None | Some (OCasClear _ ByVar _) =>
      if (match o with Some (OCasClear _ _ b') => b' | _ => b end) then st = Done ResUnit else push_waits m t x st
  | Some (OReserve c e d false | OCas c e d ByVar) =>
      c = LCell 0 ∧ d = x ∧ fresh_node m x t e ∧ st = Called (SPush t)
  | Some (OCasInc _ ByVar) => st = Done ResUnit
  | _ => False
  end.

Definition popped m w (b : bool) st : Prop :=
  ∃ v n, stack_node m w v n ∧ st = if b then Done (ResVal (Some v)) else Called SPop.

Definition pop_status m w (b : bool) (o : option op) st : Prop :=
  match o with
  | None => popped m w b st
  | Some (OReserve c e d true | OCas c e d (ByField _)) =>
      c = LCell 0 ∧ e = w ∧ (∃ v, stack_node m w v d) ∧ st = Called SPop
  | Some (OCasInc _ (ByField _)) => popped m w true st
  | Some (OCasClear _ (ByField _) b') => popped m w b' st
  | _ => False
  end.

Definition leaving (o : option op) : Prop :=
  match o with None | Some (OClearSlot _) => True | _ => False end.

Definition phase_rel m T ph st (x0 x1 : Z) (y0 y1 : snapshot) : Prop :=
  match ph with
  | Outside => idle T ∧ null_word x0 ∧ null_word x1 ∧ free_var y0 ∧ free_var y1 ∧ st = Idle
  | PushLoad t => load_at (t_op T) ∧ null_word x0 ∧ free_var y0 ∧ free_var y1 ∧ st = Called (SPush t)
  | PushLoop t => t_op T = None ∧ null_word x1 ∧ free_var y0 ∧ free_var y1 ∧ push_waits m t x0 st
  | PushCas t =>
      null_word x1 ∧ free_var y0 ∧ free_var y1 ∧ push_status m t x0 (l_result (t_local T)) (t_op T) st
  | PushReload t => load_at (t_op T) ∧ free_var y0 ∧ free_var y1 ∧ push_waits m t x0 st
  | PopLoop => snap_at ss (t_op T) ∧ null_word x0 ∧ null_word x1 ∧ free_var y1 ∧ snap_status m SPop (t_op T) y0.1 st
  | PopCas => null_word x0 ∧ null_word x1 ∧ free_var y1 ∧ pop_status m y0.1 (l_result (t_local T)) (t_op T) st
  | PopReload =>
      snap_at temp_snap (t_op T) ∧ null_word x0 ∧ null_word x1 ∧ snap_status m SPop (t_op T) y1.1 st
  | PopClear => leaving (t_op T) ∧ null_word x0 ∧ null_word x1 ∧ free_var y0 ∧ taken m SPop y1.1 st
  | FrontSnap => snap_at ss (t_op T) ∧ null_word x0 ∧ null_word x1 ∧ free_var y1 ∧ snap_status m SFront (t_op T) y0.1 st
  | FindSnap t =>
      snap_at ss (t_op T) ∧ null_word x0 ∧ null_word x1 ∧ free_var y1 ∧ snap_status m (SFind t) (t_op T) y0.1 st
  | FindLoop t node =>
      t_op T = None ∧ null_word x0 ∧ null_word x1 ∧ free_var y1 ∧ reach m y0.1 node ∧ observed m (SFind t) node st
  | Leave r => leaving (t_op T) ∧ null_word x0 ∧ null_word x1 ∧ free_var y0 ∧ free_var y1 ∧ st = Done r
  end.

Definition thread_rel m T ph st : Prop :=
  ∃ x0 x1 y0 y1, l_rcs (t_local T) = [x0; x1] ∧ l_snaps (t_local T) = [y0; y1] ∧ phase_rel m T ph st x0 x1 y0 y1.

(** *** Steps of other threads *)

(** The word of a snapshot that is being taken. *)
Definition op_word (o : op) : option Z :=
  match o with OSnapNull _ _ w | OSnapInc _ _ w | OSnapClear _ _ w Counted => Some w | _ => None end.

(** The pointers of the thread are in [P], and the object that its [new_node] has
    the only reference to does not change. *)
Record guards (P : Z → Prop) m m' T : Prop := {
  g_points : ∀ p, points (t_local T) p → P p;
  g_op : ∀ w, t_op T ≫= op_word = Some w → real w → P (raw w);
  g_fresh : ∀ w, l_rcs (t_local T) !! new_node = Some w → real w → reserved_thread (raw w) T = 0 →
    ref_cnt <$> m_heap m !! raw w = Some 1%Z → m_heap m' !! raw w = m_heap m !! raw w
}.

Section stays.
  Context (P : Z → Prop) m m' (Hst : stays P m m').

Lemma observed_stays q w st : (real w → P (raw w)) → observed m q w st → observed m' q w st.
Proof. intros Hw (xs & Hc & ->). exists xs. split; [by eapply spine_stays|done]. Qed.

Lemma taken_stays q w st : (real w → P (raw w)) → taken m q w st → taken m' q w st.
Proof. intros Hw. unfold taken. destruct q; try case_match; try done; by apply observed_stays. Qed.

Lemma snap_status_stays q o w st :
  (real w → P (raw w)) → (∀ w', o ≫= op_word = Some w' → real w' → P (raw w')) →
  snap_status m q o w st → snap_status m' q o w st.
Proof.
  intros Hw Ho. unfold snap_status. destruct o as [[]|]; simpl in *; auto using taken_stays, observed_stays.
  destruct r; auto using taken_stays.
Qed.

Lemma fresh_stays w t n :
  (ref_cnt <$> m_heap m !! raw w = Some 1%Z → m_heap m' !! raw w = m_heap m !! raw w) →
  fresh_node m w t n → fresh_node m' w t n.
Proof. intros H [[Hw Hn] Hr]. unfold fresh_node, stack_node. by rewrite (H Hr). Qed.

Lemma push_waits_stays w t st :
  (real w → ref_cnt <$> m_heap m !! raw w = Some 1%Z → m_heap m' !! raw w = m_heap m !! raw w) →
  push_waits m t w st → push_waits m' t w st.
Proof.
  intros H [[n Hn] ->]. split; [|done]. exists n. apply fresh_stays; [|done]. apply H. apply Hn.
Qed.

Lemma push_status_stays t w b o st :
  (real w → opt (due_reserved (raw w)) o = 0 → ref_cnt <$> m_heap m !! raw w = Some 1%Z →
     m_heap m' !! raw w = m_heap m !! raw w) →
  push_status m t w b o st → push_status m' t w b o st.
Proof.
  intros H. unfold push_status. destruct o as [[]|]; try done.
  - destruct field; [done|]. intros (-> & -> & Hn & ->). split_and!; try done.
    apply fresh_stays; [|done]. apply H; [apply Hn|done].
  - destruct cov; try done. intros (-> & -> & Hn & ->). split_and!; try done.
    apply fresh_stays; [|done]. apply H; [apply Hn|done].
  - destruct cov; try done. destruct b0; [done|]. apply push_waits_stays. by intros; apply H.
  - destruct b; [done|]. apply push_waits_stays. by intros; apply H.
Qed.

Lemma popped_stays w b st : (real w → P (raw w)) → popped m w b st → popped m' w b st.
Proof. intros Hw (v & n & Hn & ->). exists v, n. split; [|done]. eapply node_stays; [done|apply Hw, Hn|done]. Qed.

Lemma pop_status_stays w b o st : (real w → P (raw w)) → pop_status m w b o st → pop_status m' w b o st.
Proof.
  intros Hw. unfold pop_status. destruct o as [[]|]; try done; eauto using popped_stays.
  - destruct field; [|done]. intros (-> & -> & [v Hn] & ->). split_and!; try done. exists v.
    eapply node_stays; [done|apply Hw, Hn|done].
  - destruct cov; try done. intros (-> & -> & [v Hn] & ->). split_and!; try done. exists v.
    eapply node_stays; [done|apply Hw, Hn|done].
  - destruct cov; try done. by apply popped_stays.
  - destruct cov; try done. by apply popped_stays.
Qed.

Lemma rel_stays T ph st : guards P m m' T → thread_rel m T ph st → thread_rel m' T ph st.
Proof.
  intros [Hp Ho Hf] (x0 & x1 & y0 & y1 & Er & Es & H). exists x0, x1, y0, y1. split; [done|]. split; [done|].
  assert (real y0.1 → P (raw y0.1)) as Hy0.
  { intros Hr. apply Hp. split; [done|]. exists (SSnap 0), y0.1. simpl. by rewrite Es. }
  assert (real y1.1 → P (raw y1.1)) as Hy1.
  { intros Hr. apply Hp. split; [done|]. exists (SSnap 1), y1.1. simpl. by rewrite Es. }
  assert (real x0 → reserved_thread (raw x0) T = 0 → ref_cnt <$> m_heap m !! raw x0 = Some 1%Z →
    m_heap m' !! raw x0 = m_heap m !! raw x0) as Hx0 by (intros; apply Hf; [by rewrite Er|done..]).
  assert (load_at (t_op T) → reserved_thread (raw x0) T = 0) as Hl.
  { unfold reserved_thread, on_op, load_at. destruct (t_op T) as [[]|]; simpl; try done. }
  destruct ph; unfold phase_rel in *; destruct_and?; split_and?; try done.
  - eapply push_waits_stays; [|done]. intros. apply Hx0; [done| |done]. unfold reserved_thread, on_op. by simplify_option_eq.
  - eapply push_status_stays; [|done]. intros. by apply Hx0.
  - eapply push_waits_stays; [|done]. intros. apply Hx0; [done|by apply Hl|done].
  - by apply snap_status_stays.
  - by apply pop_status_stays.
  - by apply snap_status_stays.
  - by apply taken_stays.
  - by apply snap_status_stays.
  - by apply snap_status_stays.
  - by eapply reach_stays.
  - apply observed_stays; [|done]. by eapply (reach_stays P m m' Hst y0.1).
Qed.
End stays.
End rel.
