(* ===== verification/StackSteps.v ===== *)
(** * The instructions of the stack and the atomic stack

    Each instruction of a method either leaves the atomic stack alone or is the
    one at which the method takes effect ([op_move]). *)

From S2P Require Import Prelude StickyCounter CountedObject MemoryManager AtomicLoc AcquireRetire HpMachine HpInvariant HpFacts HpEffects HpFrames HpOps HpOpSteps HpProps HpProgress HpRoom HpBounds StackProgram StackMachine StackStable StackSim.
Local Open Scope nat_scope.

(** The call of one thread may take effect. *)
Definition effect {V : Type} `{!EqDecision V} (st : status V) (xs : list V) (st' : status V) (xs' : list V) : Prop :=
  (st' = st ∧ xs' = xs) ∨
  (∃ q, st = Called q ∧ st' = Done (list_exec q xs).1 ∧ xs' = (list_exec q xs).2).

(** Opens the next instruction of a pointer call and goes through it. *)
Ltac op_walk :=
  repeat first
    [ progress cbv beta
    | apply wlp_announce_heap; intros ?
    | apply wlp_cell_store_heap; intros ?
    | apply wlp_cell_load; intros ? ?
    | apply wlp_counter_changes; [done|]; intros ? ? ? ?
    | match goal with
      | |- wlp (if ?b then _ else _) _ _ => destruct b eqn:?
      | |- wlp (match ?u with _ => _ end) _ _ => destruct u
      end
    | wlp_step ].

Ltac op_open :=
  open_instr; unfold finish_load, finish_snap, finish, goto, local_get, local_set, mem_get, cell_exchange, cell_cas.

Section guards.
  Context {V : Type} `{Veq : !EqDecision V} `{Pol : !Policy} (num_threads : nat).
  Implicit Types (p w : Z) (l : local) (m : mem V) (s : cstate V) (T : thread) (st : status V) (t : V) (q : stack_op V).

(** ** Steps of the machine *)

Definition is_owned s p : Prop := 0 < owned s p.

Lemma node_owned s w v n : stack_node (c_mem s) w v n → real n → is_owned s (raw n).
Proof.
  intros Hn Hr. destruct (stack_node_object _ _ _ _ Hn) as (o & Ho & Hs).
  eapply (member_owned s (raw w) 0 (MRc n)); [by apply hit_same|]. by exists o, (Payload v [MRc n]).
Qed.

(** What a thread refers to is owned. *)
Lemma owned_words s u U :
  minv s → c_threads s !! u = Some U →
  (∀ p, points (t_local U) p → is_owned s p) ∧ (∀ w, t_op U ≫= op_word = Some w → real w → is_owned s (raw w)).
Proof.
  intros Hi HU. split; [intros p; by eapply points_owned; [apply Hi|]|]. intros w Hw Hr.
  pose proof (ok_op _ _ _ (inv_thread _ (inv_tinv s Hi) _ _ HU)) as Hop.
  destruct (t_op U) as [o|] eqn:Ho; [simpl in Hw|done].
  destruct o; simpl in *; simplify_eq.
  - destruct Hop as (_ & _ & E). by destruct Hr.
  - eapply held_owned; [apply Hi|]. exists u, U. split; [done|]. unfold holds. rewrite Ho. apply elem_of_app. left. by left.
  - destruct r; simplify_eq. pose proof (own_thread_le s u U (raw w) HU) as Hle. unfold own_thread, on_op in Hle.
    rewrite Ho in Hle. simpl in Hle. rewrite hit_same in Hle by done. unfold is_owned. lia.
Qed.

Lemma own_rc l r w : l_rcs l !! r = Some w → 0 < own_vars (raw w) l.
Proof. intros Hr. apply owner_owned. left. eauto. Qed.

Lemma run_stays s tid T T' m' : instr_run num_threads s tid T T' m' → stays (is_owned s) (c_mem s) m'.
Proof.
  intros Hrun. split; [intros p; by eapply owned_storage|]. intros w v n Hn _ Hr. by eapply node_owned.
Qed.

Lemma run_guards s tid T T' m' u U :
  instr_run num_threads s tid T T' m' → c_threads s !! u = Some U → guards (is_owned s) (c_mem s) m' U.
Proof.
  intros Hrun HU. destruct (owned_words s u U (proj1 Hrun) HU) as [H1 H2]. constructor; [done..|].
  intros w Hw Hr Hres H. eapply private_untouched; [exact Hrun|exact HU|].
  split; [done|]. split; [by eapply own_rc|]. split; [done|].
  destruct (m_heap (c_mem s) !! raw w) as [o|]; simplify_eq/=. eauto.
Qed.

Lemma frame_ok_sane f : frame_ok f → sane_frame f.
Proof. destruct f; simpl; naive_solver. Qed.

Lemma load_instr o : load_at (Some o) → stack_instr o.
Proof. destruct o; simpl; try done; destruct u; try done; by intros [-> _]. Qed.

Lemma snap_instr i o : snap_at i (Some o) → stack_instr o.
Proof.
  destruct o; simpl; try done; try (by intros [-> _]).
  all: match goal with |- context [match ?x with _ => _ end] => destruct x end; try done; by intros [-> _].
Qed.

Lemma push_instr m t x b o st : push_status m t x b (Some o) st → stack_instr o.
Proof. destruct o; simpl; try done; [destruct field|destruct cov..]; try done; by intros [-> _]. Qed.

Lemma pop_instr m w b o st : pop_status m w b (Some o) st → stack_instr o.
Proof. destruct o; simpl; try done; [destruct field|destruct cov..]; try done; by intros [-> _]. Qed.

Lemma rel_instr m T ph st :
  thread_rel m T ph st → match t_op T with Some o => stack_instr o | None => True end.
Proof.
  intros (x0 & x1 & y0 & y1 & _ & _ & H). destruct (t_op T) as [o|] eqn:Ho; [|done].
  destruct ph; unfold phase_rel in H; rewrite ?Ho in H; destruct_and?;
    eauto using load_instr, snap_instr, push_instr, pop_instr; try done.
  - unfold idle in *. naive_solver.
  - by destruct o.
  - by destruct o.
Qed.

(** A step of a call into the manager. *)
Lemma frame_rel m m' o f stack fs l l' ph st :
  same_vars m l (m', l') → thread_rel m' (Thread o (f :: stack) l) ph st →
  thread_rel m' (Thread o (fs ++ stack) l') ph st.
Proof.
  intros (_ & Er & Es & Eb) (x0 & x1 & y0 & y1 & H1 & H2 & H). exists x0, x1, y0, y1. simpl in *.
  split; [congruence|]. split; [congruence|]. destruct ph; simpl in *; rewrite ?Eb; try done.
  by destruct H as [[_ ?] _].
Qed.

(** ** Instructions *)

Section moves.
  Context (tid : nat) (h : Z).

Lemma load_move o m l x0 x1 :
  load_at (Some o) → l_rcs l = [x0; x1] →
  wlp (exec_op tid o)
    (λ r ml, load_at r.2 ∧ m_roots ml.1 = m_roots m ∧ l_snaps ml.2 = l_snaps l ∧ ∃ x, l_rcs ml.2 = [x0; x]) (m, l).
Proof.
  intros Ho El. destruct o; simpl in Ho; try done; try (destruct u; [|done]); destruct_and?; subst; op_open; op_walk;
    simpl; rewrite ?El; split_and!; try done; eauto.
Qed.

(** The methods that start with a snapshot. *)
Definition reads q : Prop := match q with SPush _ => False | _ => True end.

(** The load that validates a snapshot [w]: a call that only reads takes effect,
    and so does [pop_front] on an empty stack. *)
Lemma taken_now m q w xs :
  reads q → spine m w xs → ∃ st, taken m q w st ∧ effect (Called q) xs st xs.
Proof.
  intros Hq Hc. destruct q as [t| | |t]; [done|..].
  - unfold taken. destruct (null w) eqn:Hn.
    + pose proof (spine_inv_null _ _ _ Hn Hc) as ->. exists (Done (ResVal None)). split; [by exists []|].
      right. by exists SPop.
    + exists (Called SPop). split; [done|]. by left.
  - exists (Done (list_exec SFront xs).1). split; [by exists xs|]. right. by exists SFront.
  - exists (Done (list_exec (SFind t) xs).1). split; [by exists xs|]. right. by exists (SFind t).
Qed.

Lemma observed_now m q w xs :
  reads q → null w = true → spine m w xs → ∃ st, observed m q w st ∧ effect (Called q) xs st xs.
Proof.
  intros Hq Hn Hc. pose proof (spine_inv_null _ _ _ Hn Hc) as ->. exists (Done (list_exec q []).1).
  split; [by exists []|]. right. exists q. by destruct q.
Qed.

(** What an instruction of [get_snapshot] leaves: the place, the snapshot variable
    and the status of the call. *)
Definition snapped q i o m l y0 y1 (r : list frame * option op) (ml : mem V * local) : Prop :=
  snap_at i r.2 ∧ m_roots ml.1 = m_roots m ∧ l_rcs ml.2 = l_rcs l ∧
  ∃ y, l_snaps ml.2 = <[i := y]> [y0; y1] ∧ ∀ w st xs, spine ml.1 h xs → snap_status ml.1 q (Some o) w st →
    ∃ st', effect st xs st' xs ∧ snap_status ml.1 q r.2 y.1 st'.

Section snap.
  Context q (i : nat) m l (y0 y1 : snapshot).
  Context (Hq : reads q) (El : l_snaps l = [y0; y1]) (Hi : i < 2) (Hroot : m_roots m = [h]).

Lemma peek_head w : peek m (LCell 0) = Some w → w = h.
Proof. simpl. rewrite Hroot. by intros [= ->]. Qed.

(** The call goes on. *)
Lemma snapped_on o m1 o' :
  snap_at i (Some o') → m_roots m1 = m_roots m →
  (∀ w st xs, spine m1 h xs → snap_status m1 q (Some o) w st →
     ∃ st', effect st xs st' xs ∧ snap_status m1 q (Some o') w st') →
  snapped q i o m l y0 y1 ([], Some o') (m1, l).
Proof.
  intros H1 H2 H3. split; [done|]. split; [done|]. split; [done|].
  exists (default y0 ([y0; y1] !! i)). split; [|intros w; exact (H3 w)].
  simpl. rewrite El. destruct i as [|[|]]; [done|done|lia].
Qed.

Lemma snapped_same o m1 o' :
  snap_at i (Some o') → m_roots m1 = m_roots m → (∀ w st, snap_status m1 q (Some o) w st → snap_status m1 q (Some o') w st) →
  snapped q i o m l y0 y1 ([], Some o') (m1, l).
Proof. intros H1 H2 H3. apply snapped_on; [done..|]. intros w st xs _ H. exists st. split; [by left|auto]. Qed.

(** The call is over. *)
Lemma snapped_end o m1 y :
  m_roots m1 = m_roots m →
  (∀ w st xs, spine m1 h xs → snap_status m1 q (Some o) w st → ∃ st', effect st xs st' xs ∧ taken m1 q y.1 st') →
  snapped q i o m l y0 y1 ([], None) (m1, set_snaps (<[i := y]> (l_snaps l)) l).
Proof. intros H1 H2. split; [done|]. split; [done|]. split; [done|]. exists y. split; [simpl; by rewrite El|exact H2]. Qed.

Lemma snapshot_move o :
  snap_at i (Some o) →
  (∀ d j w, o = OSnapNull d j w → null w = true) →
  (∀ c d w, o = OSnapInc c d w → wlp (strong_step (V := V) (raw w) (IncAdd 1)) (λ c' _, incremented c' = true) (m, l)) →
  wlp (exec_op tid o) (snapped q i o m l y0 y1) (m, l).
Proof.
  intros Ho Hnull Hinc. destruct o;
    simpl in Ho; try done; try (destruct u; [done|]); try (destruct r; try done); destruct_and?; subst; op_open.
  - op_walk. by apply snapped_same.
  - op_walk. by apply snapped_same.
  - op_walk.
    + by apply snapped_same.
    + apply negb_false_iff, Z.eqb_eq in Heqb. subst. apply snapped_end; [done|]. intros w0 st xs Hc ->.
      apply peek_head in H as ->. pose proof (spine_inv_null _ _ _ Heqb0 Hc) as ->.
      destruct (taken_now m q 0 [] Hq) as (st & ? & ?); [constructor; apply raw_zero|]. eauto.
    + apply negb_false_iff, Z.eqb_eq in Heqb. subst. apply snapped_on; [done..|]. intros w0 st xs Hc ->.
      apply peek_head in H as ->. destruct (taken_now m q h xs Hq Hc) as (st & ? & ?). eauto.
  - op_walk; by apply snapped_same.
  - op_walk; [|by apply snapped_same]. apply snapped_on; [done..|]. intros w0 st xs Hc ->.
    apply peek_head in H as ->. destruct (observed_now m q h xs Hq Heqb Hc) as (st & ? & ?). eauto.
  - op_walk. apply snapped_end; [done|]. intros w0 st xs _ H. exists st. split; [by left|].
    specialize (Hnull _ _ _ eq_refl). unfold taken; simpl. rewrite Hnull. by destruct q.
  - op_walk. by apply snapped_same.
  - op_walk; [by apply snapped_same|]. apply negb_false_iff, Z.eqb_eq in Heqb. subst. apply snapped_end; [done|].
    intros w0 st xs Hc ->. apply peek_head in H as ->. destruct (taken_now m q h xs Hq Hc) as (st & ? & ?). eauto.
  - wlp_step. intros c' [m1 l1] E. rewrite (Hinc _ _ _ eq_refl _ _ E).
    assert (wlp (strong_step (V := V) (raw w) (IncAdd 1)) (λ _ ml, m_roots ml.1 = m_roots m ∧ ml.2 = l) (m, l)) as Hs.
    { apply wlp_counter_changes; [done|]. by intros. }
    destruct (Hs _ _ E) as [Hr El1]. simpl in Hr, El1. subst l1. wlp_step. by apply snapped_same.
  - op_walk. apply snapped_end; [done|]. intros w0 st xs _ H. exists st. by split; [left|].
Qed.
End snap.

(** *** compare_and_swap *)

Lemma wlp_head_store m l w Q :
  m_roots m = [h] → Q tt (Mem (m_heap m) [w] (m_slots m), l) → wlp (cell_store (V := V) (LCell 0) w) Q (m, l).
Proof.
  intros Hr H. simpl. wlp_step. unfold mem_get. wlp_step. wlp_step. wlp_step. unfold set_m_roots. wlp_step.
  simpl in *. by rewrite Hr.
Qed.

(** [compare_exchange_strong] on [head] *)
Lemma wlp_head_cas m l e d Q :
  m_roots m = [h] →
  (h = e → Q true (Mem (m_heap m) [d] (m_slots m), l)) → (h ≠ e → Q false (m, l)) →
  wlp (cell_cas (V := V) (LCell 0) e d) Q (m, l).
Proof.
  intros Hr H1 H2. unfold cell_cas. wlp_step. apply wlp_cell_load. intros w Hw. simpl in Hw. rewrite Hr in Hw.
  injection Hw as <-. destruct (Z.eqb_spec h e) as [E|E]; wlp_step; [|by apply H2].
  apply wlp_head_store; [done|]. wlp_step. by apply H1.
Qed.

(** What an instruction of [compare_and_swap] leaves, for the status [P] of the
    method that calls it. *)
Definition swapped (P : mem V → bool → option op → status V → Prop) (o : op) l
    (r : list frame * option op) (ml : mem V * local) : Prop :=
  l_rcs ml.2 = l_rcs l ∧ l_snaps ml.2 = l_snaps l ∧
  ∀ st xs, spine ml.1 h xs → P ml.1 (l_result l) (Some o) st →
    ∃ h' st' xs', m_roots ml.1 = [h'] ∧ spine ml.1 h' xs' ∧ effect st xs st' xs' ∧ P ml.1 (l_result ml.2) r.2 st'.

Section cas.
  Context m l (Hroot : m_roots m = [h]).

(** The stack is the same. *)
Lemma swapped_same (P : mem V → bool → option op → status V → Prop) o fs o' m1 l1 :
  m_roots m1 = m_roots m → l_rcs l1 = l_rcs l → l_snaps l1 = l_snaps l →
  (∀ st, P m1 (l_result l) (Some o) st → P m1 (l_result l1) o' st) → swapped P o l (fs, o') (m1, l1).
Proof.
  intros H1 H2 H3 H4. split; [done|]. split; [done|]. intros st xs Hc H. exists h, st, xs.
  split; [simpl; congruence|]. split; [done|]. split; [by left|]. by apply H4.
Qed.

Lemma push_move t x o :
  match o with OReserve c _ _ false | OCas c _ _ ByVar => c = LCell 0 | OCasInc _ ByVar | OCasClear _ ByVar _ => True | _ => False end →
  wlp (exec_op tid o) (swapped (λ m b, push_status m t x b) o l) (m, l).
Proof.
  intros Ho. destruct o; try done; [destruct field; [done|]|destruct cov; try done..]; subst; op_open.
  - op_walk. by apply swapped_same.
  - wlp_step. apply wlp_head_cas; [done| |intros _; wlp_step; apply swapped_same; try done].
    + intros <-. wlp_step. split; [done|]. split; [done|]. intros st xs Hc (_ & -> & Hn & ->).
      exists x, (Done ResUnit), (t :: xs). split; [done|]. split; [econstructor; [apply Hn|done]|].
      split; [right; by exists (SPush t)|]. simpl. by destruct (null x).
    + intros st (_ & -> & Hn & ->). split; [by exists expected|done].
  - op_walk. by apply swapped_same.
  - op_walk; by apply swapped_same.
Qed.

Lemma pop_move w o :
  match o with OReserve c _ _ true | OCas c _ _ (ByField _) => c = LCell 0 | OCasInc _ (ByField _) | OCasClear _ (ByField _) _ => True | _ => False end →
  wlp (exec_op tid o) (swapped (λ m b, pop_status m w b) o l) (m, l).
Proof.
  intros Ho. destruct o; try done; [destruct field; [|done]|destruct cov; try done..]; subst; op_open.
  - op_walk. by apply swapped_same.
  - wlp_step. apply wlp_head_cas; [done| |intros _; wlp_step; apply swapped_same; try done].
    + intros <-. wlp_step. split; [done|]. split; [done|]. intros st xs Hc (_ & -> & [v Hn] & ->).
      destruct (spine_inv_node _ _ _ _ _ Hn Hc) as (ys & -> & Hys).
      exists desired, (Done (ResVal (Some v))), ys. split; [done|]. split; [done|].
      split; [right; by exists SPop|]. destruct (null desired); simpl; by exists v, desired.
    + intros st (_ & -> & [v Hn] & ->). by exists v, desired.
  - op_walk. by apply swapped_same.
  - op_walk; by apply swapped_same.
Qed.
End cas.

Lemma clear_move k m l :
  wlp (exec_op tid (OClearSlot k)) (λ r ml, r.2 = None ∧ m_roots ml.1 = m_roots m ∧ ml.2 = l) (m, l).
Proof. op_open. by op_walk. Qed.

(** *** Every instruction *)

Section op.
  Context m l o fs o' m' l' (Hroot : m_roots m = [h]) (E : exec_op tid o (m, l) = Ok (fs, o', (m', l'))).
  Context (Hnull : ∀ d j w, o = OSnapNull d j w → null w = true).
  Context (Hinc : ∀ c d w, o = OSnapInc c d w →
    wlp (strong_step (V := V) (raw w) (IncAdd 1)) (λ c' _, incremented c' = true) (m, l)).
  Context xs (Hc : spine m' h xs).

Definition moved_on ph st : Prop :=
  ∃ h' st' xs', m_roots m' = [h'] ∧ spine m' h' xs' ∧ effect st xs st' xs' ∧ thread_rel m' (Thread o' fs l') ph st'.

Lemma same_stack ph st :
  m_roots m' = m_roots m → thread_rel m' (Thread o' fs l') ph st → moved_on ph st.
Proof. intros Hr H. exists h, st, xs. split; [congruence|]. split; [done|]. split; [by left|done]. Qed.

(** A phase in which a snapshot is taken into variable [i]. *)
Lemma snap_phase q i y0 y1 w st ph :
  reads q → snap_at i (Some o) → l_snaps l = [y0; y1] → i < 2 → snap_status m' q (Some o) w st →
  (∀ y st', l_rcs l' = l_rcs l → l_snaps l' = <[i := y]> [y0; y1] → snap_at i o' → snap_status m' q o' y.1 st' →
     thread_rel m' (Thread o' fs l') ph st') →
  moved_on ph st.
Proof.
  intros Hq Ho El Hi Hst H. pose proof (snapshot_move q i m l y0 y1 Hq El Hi Hroot o Ho Hnull Hinc _ _ E) as Hs.
  destruct Hs as (H1 & H2 & H3 & y & H4 & H5). simpl in *. destruct (H5 w st xs Hc Hst) as (st' & He & Hst').
  exists h, st', xs. split; [congruence|]. split; [done|]. split; [done|]. by eapply H.
Qed.

Lemma load_phase x0 x1 st ph :
  load_at (Some o) → l_rcs l = [x0; x1] →
  (∀ x, l_rcs l' = [x0; x] → l_snaps l' = l_snaps l → load_at o' → thread_rel m' (Thread o' fs l') ph st) →
  moved_on ph st.
Proof.
  intros Ho El H. pose proof (load_move o m l x0 x1 Ho El _ _ E) as (H1 & H2 & H3 & x & H4). simpl in *.
  apply same_stack; [done|]. by eapply H.
Qed.

Lemma clear_phase st ph :
  leaving (Some o) → (o' = None → l' = l → thread_rel m' (Thread o' fs l') ph st) → moved_on ph st.
Proof.
  intros Ho H. destruct o; try done. pose proof (clear_move k m l _ _ E) as (H1 & H2 & H3). simpl in *.
  apply same_stack; auto.
Qed.

Lemma cas_phase (P : mem V → bool → option op → status V → Prop) st ph :
  wlp (exec_op tid o) (swapped P o l) (m, l) → P m' (l_result l) (Some o) st →
  (∀ st', l_rcs l' = l_rcs l → l_snaps l' = l_snaps l → P m' (l_result l') o' st' →
     thread_rel m' (Thread o' fs l') ph st') →
  moved_on ph st.
Proof.
  intros Hw Hst H. destruct (Hw _ _ E) as (H1 & H2 & H3). simpl in *.
  destruct (H3 st xs Hc Hst) as (h' & st' & xs' & H4 & H5 & H6 & H7). exists h', st', xs'. auto.
Qed.

Lemma op_move ph st : thread_rel m' (Thread (Some o) [] l) ph st → moved_on ph st.
Proof.
  intros (x0 & x1 & y0 & y1 & Er & Es & H). destruct ph; unfold phase_rel in H; simpl in H, Er, Es; destruct_and?.
  - unfold idle in *. naive_solver.
  - eapply load_phase; [done|exact Er|]. intros x Hr' Hs' Ho'. exists x0, x, y0, y1. simpl. split; [done|]. by rewrite Hs'.
  - done.
  - eapply (cas_phase (λ m b, push_status m t x0 b)); [|done|].
    + apply push_move; [done|]. destruct o; try done; simpl in *; repeat case_match; naive_solver.
    + intros st' Hr' Hs' Hst'. exists x0, x1, y0, y1. simpl. by rewrite Hr', Hs'.
  - eapply load_phase; [done|exact Er|]. intros x Hr' Hs' Ho'. exists x0, x, y0, y1. simpl. split; [done|]. by rewrite Hs'.
  - eapply (snap_phase SPop ss y0 y1 y0.1); [done|done|exact Es|by compute; lia|done|].
    intros y st' Hr' Hs' Ho' Hst'. exists x0, x1, y, y1. simpl. by rewrite Hr', Hs'.
  - eapply (cas_phase (λ m b, pop_status m y0.1 b)); [|done|].
    + apply pop_move; [done|]. destruct o; try done; simpl in *; repeat case_match; naive_solver.
    + intros st' Hr' Hs' Hst'. exists x0, x1, y0, y1. simpl. by rewrite Hr', Hs'.
  - eapply (snap_phase SPop temp_snap y0 y1 y1.1); [done|done|exact Es|by compute; lia|done|].
    intros y st' Hr' Hs' Ho' Hst'. exists x0, x1, y0, y. simpl. by rewrite Hr', Hs'.
  - apply clear_phase; [done|]. intros -> ->. by exists x0, x1, y0, y1.
  - eapply (snap_phase SFront ss y0 y1 y0.1); [done|done|exact Es|by compute; lia|done|].
    intros y st' Hr' Hs' Ho' Hst'. exists x0, x1, y, y1. simpl. by rewrite Hr', Hs'.
  - eapply (snap_phase (SFind t) ss y0 y1 y0.1); [done|done|exact Es|by compute; lia|done|].
    intros y st' Hr' Hs' Ho' Hst'. exists x0, x1, y, y1. simpl. by rewrite Hr', Hs'.
  - done.
  - apply clear_phase; [done|]. intros -> ->. by exists x0, x1, y0, y1.
Qed.
End op.

End moves.
End guards.
