(* ===== verification/StackCalls.v ===== *)
(** * The pointer calls of the stack

    Where a method of the stack makes its next pointer call, the call is one that
    a program may make, and the thread and the other threads are left as the
    simulation relation wants them ([proceed_ok], [enter_ok]). *)

From S2P Require Import Prelude StickyCounter CountedObject MemoryManager AtomicLoc AcquireRetire HpMachine HpInvariant HpFacts HpEffects HpFrames HpOps HpOpSteps HpProps HpProgress HpRoom HpBounds StackProgram StackMachine StackStable StackSim StackSteps.
Local Open Scope nat_scope.

Section calls.
  Context {V : Type} `{Veq : !EqDecision V} `{Pol : !Policy}.
  Implicit Types (p w : Z) (l : local) (m : mem V) (s : cstate V) (T : thread) (st : status V) (t : V) (q : stack_op V).

(** ** The other threads *)

(** A call of thread [tid] leaves the stack and what the others rely on. *)
Definition others_keep s (tid : nat) m' : Prop :=
  m_roots m' = m_roots (c_mem s) ∧ nodes_ok m' ∧
  ∃ P, stays P (c_mem s) m' ∧ (∀ h, m_roots (c_mem s) = [h] → real h → P (raw h)) ∧
    ∀ u U, c_threads s !! u = Some U → u ≠ tid → guards P (c_mem s) m' U.

Lemma root_owned s h : m_roots (c_mem s) = [h] → 0 < own_mem (raw h) (c_mem s).
Proof. intros Hr. unfold own_mem. rewrite Hr. simpl. rewrite hit_same by done. lia. Qed.

Lemma head_owned s h : m_roots (c_mem s) = [h] → is_owned s (raw h).
Proof. intros Hr. pose proof (root_owned s h Hr). unfold is_owned, owned. lia. Qed.

Lemma keep_same s tid : minv s → nodes_ok (c_mem s) → others_keep s tid (c_mem s).
Proof.
  intros Hi Hn. split; [done|]. split; [done|]. exists (is_owned s). split_and!.
  - split; [done|]. intros w v n Hw _ Hr. by eapply node_owned.
  - intros h Hh _. by apply head_owned.
  - intros u U HU _. destruct (owned_words s u U Hi HU). by constructor.
Qed.

(** An object that is owned, or null, is not at a fresh address. *)
Lemma owned_not_fresh s a p : minv s → fresh_address (c_mem s) a → is_owned s p → p ≠ a.
Proof.
  intros Hi (Ha & _ & Hn) Hp ->. destruct (owned_live s a Hi Ha Hp) as (o & Ho & _). congruence.
Qed.

Lemma keep_new s tid a o m' :
  minv s → nodes_ok (c_mem s) → fresh_address (c_mem s) a →
  (∀ u, storage o = Some u → ∃ n, members u = [MRc n]) →
  m' = Mem (<[a := o]> (m_heap (c_mem s))) (m_roots (c_mem s)) (m_slots (c_mem s)) → others_keep s tid m'.
Proof.
  intros Hi Hn Ha Ho ->. split; [done|]. split; [|exists (is_owned s); split_and!].
  - intros p ob u Hob Hu. simpl in Hob. apply lookup_insert_Some in Hob as [[<- <-]|[_ Hob]]; [by apply Ho|by eapply Hn].
  - split; [|intros w v n Hw _ Hr; by eapply node_owned]. intros p Hp. simpl. rewrite lookup_insert_ne; [done|].
    apply not_eq_sym. by eapply owned_not_fresh.
  - intros h Hh _. by apply head_owned.
  - intros u U HU _. destruct (owned_words s u U Hi HU). constructor; [done..|]. intros w Hw Hr _ H1. simpl.
    rewrite lookup_insert_ne; [done|]. intros ->. destruct Ha as (_ & _ & E). by rewrite E in H1.
Qed.

(** The only reference to [p] is in a variable of thread [tid]. *)
Lemma keep_private s tid T p o m' :
  minv s → nodes_ok (c_mem s) → c_threads s !! tid = Some T → private s T p →
  (∀ u, storage o = Some u → ∃ n, members u = [MRc n]) →
  m' = Mem (<[p := o]> (m_heap (c_mem s))) (m_roots (c_mem s)) (m_slots (c_mem s)) → others_keep s tid m'.
Proof.
  intros Hi Hn HT Hpr Ho ->. destruct (private_alone s tid T p Hi HT Hpr) as [H1 Hno].
  destruct Hpr as (Hp & Hv & _). assert (0 < own_thread p T) as Hown by (unfold own_thread; lia).
  pose proof (sum_lookup_le (own_thread p) _ _ _ HT) as Hle.
  assert (own_mem p (c_mem s) = 0) as Hmem by (unfold owned in H1; lia).
  assert (∀ u U, c_threads s !! u = Some U → u ≠ tid → own_thread p U = 0) as Hoth.
  { intros u U HU Hne. pose proof (sum_two (own_thread p) _ _ _ _ _ Hne HU HT). unfold owned in H1. lia. }
  split; [done|]. split; [|exists (λ x, is_owned s x ∧ x ≠ p); split_and!].
  - intros x ob u Hob Hu. simpl in Hob. apply lookup_insert_Some in Hob as [[<- <-]|[_ Hob]]; [by apply Ho|by eapply Hn].
  - split; [intros x [_ Hx]; simpl; by rewrite lookup_insert_ne|]. intros w v n Hw _ Hr.
    split; [by eapply node_owned|]. intros <-. destruct (stack_node_object _ _ _ _ Hw) as (ob & Hob & Hs).
    enough (0 < own_mem (raw n) (c_mem s)) by lia.
    assert (member_of (c_mem s) (raw w) 0 (MRc n)) as Hm by (by exists ob, (Payload v [MRc n])).
    pose proof (member_not_kept _ _ _ _ Hm). lia.
  - intros h Hh Hr. split; [by apply head_owned|]. intros <-. pose proof (root_owned s h Hh). lia.
  - intros u U HU Hne. destruct (owned_words s u U Hi HU) as [W1 W2]. specialize (Hoth u U HU Hne).
    assert (¬ points (t_local U) p) as Hnp by (eapply (alone_points s tid T u U); try done; apply Hi).
    constructor.
    + intros x Hx. split; [by apply W1|]. by intros ->.
    + intros w Hw Hr. split; [by apply W2|]. intros <-.
      destruct (t_op U) as [o0|] eqn:Ho0; [simpl in Hw|done].
      pose proof (ok_op _ _ _ (inv_thread _ (inv_tinv s Hi) _ _ HU)) as Hop. rewrite Ho0 in Hop.
      destruct o0; simpl in *; simplify_eq.
      * destruct Hop as (_ & _ & E). by destruct Hr.
      * apply (Hno (main_slot u)). exists u, U. split; [done|]. unfold holds. rewrite Ho0. apply elem_of_app. left. by left.
      * destruct r; simplify_eq. unfold own_thread, on_op in Hoth. rewrite Ho0 in Hoth. simpl in Hoth.
        rewrite hit_same in Hoth by done. lia.
    + intros w Hw Hr _ _. simpl. rewrite lookup_insert_ne; [done|]. intros ->. apply Hnp. split; [done|].
      by exists (SRc new_node), w.
Qed.

(** ** What the calls do *)

Section effects.
  Context m l (x0 x1 : Z) (y0 y1 : snapshot) (Er : l_rcs l = [x0; x1]) (Es : l_snaps l = [y0; y1]).

Lemma call_load_eq : call (CLoad temp_rc stack_head) (m, l) = Ok ([], Some (OAcqLoad ForLoad (LCell 0) temp_rc), (m, l)).
Proof. reflexivity. Qed.

Lemma call_snapshot_eq i : call (CSnapshot i stack_head) (m, l) = Ok ([], Some (OSnapSlot (LCell 0) i 0), (m, l)).
Proof. reflexivity. Qed.

Lemma take_rc_eq r w :
  l_rcs l !! r = Some w → take_rc r (m, l) = Ok (w, (m, set_rcs (<[r := 0%Z]> (l_rcs l)) l)).
Proof. intros Hr. unfold take_rc, at_; simpl. unfold mbind, M_bind, local_get, gets; simpl. by rewrite Hr. Qed.

Lemma call_drop_eq :
  call (CDrop new_node) (m, l) = Ok (drop_strong x0, None, (m, set_rcs [0%Z; x1] l)).
Proof.
  unfold call, start_drop, mbind, M_bind. rewrite (take_rc_eq new_node x0); [|by rewrite Er]. by rewrite Er.
Qed.

Lemma call_new_eq a t :
  call (CNew new_node a t [(false, temp_rc)]) (m, l) =
  Ok ([], None, (Mem (<[a := new_counted_object 0 (Payload t [MRc x1])]> (m_heap m)) (m_roots m) (m_slots m),
                 set_allocated (l_allocated l + 1) (set_rcs [a; 0%Z] l))).
Proof.
  unfold call, start_new, take_members, mbind, M_bind. rewrite (take_rc_eq temp_rc x1); [|by rewrite Er].
  rewrite Er. reflexivity.
Qed.

Lemma rc_member_eq w v n l0 : stack_node m w v n → rc_member (raw w) next_member (m, l0) = Ok (n, (m, l0)).
Proof.
  intros Hn. destruct (stack_node_object _ _ _ _ Hn) as (o & Ho & Hs). destruct Hn as [Hr _].
  unfold rc_member, payload_at, object, mbind, M_bind, mem_get, gets; simpl.
  rewrite (proj2 (Z.eqb_neq _ _) Hr), Ho; simpl. by rewrite Hs.
Qed.

Lemma payload_eq w v n l0 : stack_node m w v n → payload_at (raw w) (m, l0) = Ok (Payload v [MRc n], (m, l0)).
Proof.
  intros Hn. destruct (stack_node_object _ _ _ _ Hn) as (o & Ho & Hs). destruct Hn as [Hr _].
  unfold payload_at, object, mbind, M_bind, mem_get, gets; simpl.
  rewrite (proj2 (Z.eqb_neq _ _) Hr), Ho; simpl. by rewrite Hs.
Qed.

Lemma source_eq src w : source_word l src = Some w → word_of src (m, l) = Ok (w, (m, l)).
Proof.
  intros Hw. unfold word_of, local_get, gets, mbind, M_bind; simpl. unfold from_option_m. by rewrite Hw.
Qed.

Lemma call_cas_eq e : call (CCas stack_head e (SRc new_node)) (m, l) = Ok ([], Some (OReserve (LCell 0) e x0 false), (m, l)).
Proof.
  unfold call, start_cas, mbind, M_bind. change (loc_of stack_head (m, l)) with (Ok (LCell 0, (m, l))). cbv beta iota.
  rewrite (source_eq (SRc new_node) x0) by (simpl; by rewrite Er). reflexivity.
Qed.

Lemma call_cas_field_eq e v n :
  stack_node m y0.1 v n →
  call (CCasField stack_head e (SSnap ss) next_member) (m, l) = Ok ([], Some (OReserve (LCell 0) e n true), (m, l)).
Proof.
  intros Hn. unfold call, start_cas_field, mbind, M_bind. change (loc_of stack_head (m, l)) with (Ok (LCell 0, (m, l))). cbv beta iota.
  rewrite (source_eq (SSnap ss) y0.1) by (simpl; by rewrite Es). by erewrite rc_member_eq.
Qed.

Lemma call_assign_eq v n :
  stack_node m x0 v n →
  ∃ o, m_heap m !! raw x0 = Some o ∧
    call (CAssignField new_node next_member temp_rc) (m, l) =
    Ok (drop_strong n, None,
        (Mem (<[raw x0 := set_storage (Some (Payload v [MRc x1])) o]> (m_heap m)) (m_roots m) (m_slots m),
         set_rcs [x0; 0%Z] l)).
Proof.
  intros Hn. destruct (stack_node_object _ _ _ _ Hn) as (o & Ho & Hs). exists o. split; [done|].
  unfold call, start_assign_field, mbind, M_bind.
  rewrite (source_eq (SRc new_node) x0) by (simpl; by rewrite Er). erewrite rc_member_eq by done.
  rewrite (take_rc_eq temp_rc x1) by (by rewrite Er). rewrite (payload_eq _ _ _ _ Hn).
  unfold update, object, mbind, M_bind, mem_get, gets; simpl.
  rewrite (proj2 (Z.eqb_neq _ _) (proj1 Hn)), Ho. simpl. by rewrite Er.
Qed.

Lemma call_drop_snap_eq :
  ∃ fs o', call (CDropSnap ss) (m, l) = Ok (fs, o', (m, set_snaps [(0%Z, None); y1] l)) ∧ leaving o'.
Proof.
  unfold call, start_drop_snap, at_, mbind, M_bind, local_get, gets; simpl. rewrite Es; simpl.
  destruct y0 as [w [k|]]; simpl; [destruct (null w)|]; unfold local_set, modify; simpl; rewrite Es; by eexists _, _.
Qed.

Lemma call_swap_eq : call (CSwapSnap ss temp_snap) (m, l) = Ok ([], None, (m, set_snaps [y1; y0] l)).
Proof.
  unfold call, start_swap_snap, at_, mbind, M_bind, local_get, gets; simpl. rewrite Es; simpl.
  unfold local_set, modify; simpl. by rewrite Es.
Qed.
End effects.

(** ** The methods *)

Section methods.
  Context s (tid : nat) l (Hi : minv s) (HT : c_threads s !! tid = Some (Thread None [] l)).
  Context (Hnodes : nodes_ok (c_mem s)) (h : Z) (Hroot : m_roots (c_mem s) = [h]).

Local Abbreviation m := (c_mem s).

(** The pointer call [c] may be made, and the method goes on at [ph]. *)
Definition may_call (c : cmd) (ph : phase V) st : Prop :=
  strong_cmd c ∧ cmd_ok m l c ∧
  ∃ T' m', call_thread (Thread None [] l) m c = Ok (T', m') ∧ others_keep s tid m' ∧ thread_rel m' T' ph st.

Definition todo_ok st (x : todo V) : Prop :=
  match x with
  | Do c ph => may_call c ph st
  | GoOn ph => thread_rel m (Thread None [] l) ph st
  | Give r => st = Done r ∧ thread_rel m (Thread None [] l) Outside Idle
  end.

(** A call that changes no object. *)
Lemma may_call_same c ph st fs o' l' :
  strong_cmd c → cmd_ok m l c → call c (m, l) = Ok (fs, o', (m, l')) →
  thread_rel m (Thread o' fs l') ph st → may_call c ph st.
Proof.
  intros Hs Hok E Hr. split; [done|]. split; [done|]. unfold call_thread; simpl. rewrite E.
  eexists _, _. split; [done|]. split; [by apply keep_same|done].
Qed.

Lemma head_ok : place_ok m l stack_head.
Proof. simpl. rewrite Hroot. simpl. lia. Qed.

(** An object that is owned is a node. *)
Lemma owned_node w : real w → is_owned s (raw w) → ∃ v n, stack_node m w v n.
Proof.
  intros Hw Ho. destruct (owned_live s (raw w) Hi Hw Ho) as (o & Hob & [_ (_ & _ & [v ms] & Hv & _)] & _).
  destruct (Hnodes _ _ _ Hob Hv) as [n Hn]. simpl in Hn. subst ms. exists v, n. split; [done|]. by rewrite Hob; simpl; rewrite Hv.
Qed.

Lemma source_node src w : source_word l src = Some w → real w → ∃ v n, stack_node m w v n.
Proof. intros Hw Hr. apply owned_node; [done|]. by eapply (source_owned s tid (Thread None [] l)); [apply Hi|..]. Qed.

Lemma rc_member_here src w : source_word l src = Some w → real w → rc_member_ok m l src next_member.
Proof.
  intros Hw Hr w' o v Hw' Ho Hv. destruct (Hnodes _ _ _ Ho Hv) as [n Hn]. rewrite Hn. simpl. eauto.
Qed.

Section vars.
  Context (x0 x1 : Z) (y0 y1 : snapshot) (Er : l_rcs l = [x0; x1]) (Es : l_snaps l = [y0; y1]).

Lemma free_temp : null_word x1 → free_rc l temp_rc.
Proof. intros Hx. exists x1. rewrite Er. split; [done|]. by apply null_true. Qed.

Lemma free_snap0 : free_var y0 → free_snap l ss.
Proof. intros [Hy Hk]. exists y0.1. rewrite Es. destruct y0; simpl in *; subst. split; [done|]. by apply null_true. Qed.

Lemma free_snap1 : free_var y1 → free_snap l temp_snap.
Proof. intros [Hy Hk]. exists y1.1. rewrite Es. destruct y1; simpl in *; subst. split; [done|]. by apply null_true. Qed.

Lemma free_zero : free_var (0%Z, None).
Proof. split; [apply raw_zero|done]. Qed.

Lemma load_may ph st :
  null_word x1 → thread_rel m (Thread (Some (OAcqLoad ForLoad (LCell 0) temp_rc)) [] l) ph st →
  may_call (CLoad temp_rc stack_head) ph st.
Proof. intros Hx Hr. eapply may_call_same; [done| |reflexivity|done]. split; [by apply free_temp|apply head_ok]. Qed.

Lemma snapshot_may i ph st :
  free_snap l i → thread_rel m (Thread (Some (OSnapSlot (LCell 0) i 0)) [] l) ph st →
  may_call (CSnapshot i stack_head) ph st.
Proof. intros Hx Hr. eapply may_call_same; [done| |reflexivity|done]. split; [done|apply head_ok]. Qed.

(** The snapshot goes and the method returns, or goes on. *)
Lemma drop_snap_may ph st :
  (∀ fs o', leaving o' → thread_rel m (Thread o' fs (set_snaps [(0%Z, None); y1] l)) ph st) →
  may_call (CDropSnap ss) ph st.
Proof.
  intros Hr. destruct (call_drop_snap_eq m l y0 y1 Es) as (fs & o' & E & Ho).
  eapply may_call_same; [done| |exact E|by apply Hr]. simpl. rewrite Es. simpl. unfold ss. lia.
Qed.

Lemma leave_may r st :
  null_word x0 → null_word x1 → free_var y1 → st = Done r → may_call (CDropSnap ss) (Leave r) st.
Proof.
  intros H0 H1 H2 ->. apply drop_snap_may. intros fs o' Ho. exists x0, x1, (0%Z, None), y1. simpl. split_and!; try done.
  apply free_zero.
Qed.

(** *** [push_front] *)

Lemma push_new_ok a t :
  fresh_address m a → null_word x0 → free_var y0 → free_var y1 →
  may_call (CNew new_node a t [(false, temp_rc)]) (PushLoop t) (Called (SPush t)).
Proof.
  intros Ha H0 H2 H3. destruct (id Ha) as (Ha0 & Hal & Hnone). split; [done|]. split.
  - split_and!; try done.
    + exists x0. rewrite Er. split; [done|]. by apply null_true.
    + apply NoDup_singleton.
    + by intros ?%list_elem_of_singleton.
    + constructor; [|done]. simpl. rewrite Er. simpl. unfold temp_rc. lia.
  - unfold call_thread; simpl t_local. rewrite (call_new_eq m l x0 x1 Er a t). eexists _, _. split; [done|].
    split; [eapply (keep_new s tid a (new_counted_object 0 (Payload t [MRc x1]))); try done|].
    { simpl. intros u [= <-]. simpl. eauto. }
    exists a, 0%Z, y0, y1. split; [done|]. split; [done|]. simpl. split_and!; try done; [apply raw_zero|].
    split; [|done]. exists x1. unfold fresh_node, stack_node; simpl. rewrite (raw_aligned a Hal), lookup_insert_eq.
    split; [|done]. split; [|done]. unfold real. by rewrite raw_aligned.
Qed.

Lemma push_try_ok t n :
  fresh_node m x0 t n → null_word x1 → free_var y0 → free_var y1 →
  may_call (CCas stack_head n (SRc new_node)) (PushCas t) (Called (SPush t)).
Proof.
  intros Hn H1 H2 H3. eapply may_call_same; [done| |by eapply call_cas_eq|].
  - split; [apply head_ok|]. simpl. rewrite Er. by eexists.
  - by exists x0, x1, y0, y1.
Qed.

Lemma push_drop_ok st :
  null_word x1 → free_var y0 → free_var y1 → st = Done ResUnit → may_call (CDrop new_node) (Leave ResUnit) st.
Proof.
  intros H1 H2 H3 ->. eapply may_call_same; [done| |by eapply call_drop_eq|].
  - simpl. rewrite Er. simpl. unfold new_node. lia.
  - exists 0%Z, x1, y0, y1. split; [done|]. split; [done|]. simpl. split_and!; try done. apply raw_zero.
Qed.

Lemma push_assign_ok t n :
  fresh_node m x0 t n → free_var y0 → free_var y1 →
  may_call (CAssignField new_node next_member temp_rc) (PushLoop t) (Called (SPush t)).
Proof.
  intros [Hn H1] H2 H3. destruct (call_assign_eq m l x0 x1 Er t n Hn) as (o & Ho & E).
  rewrite Ho in H1. injection H1 as H1. destruct (id Hn) as [Hr _].
  assert (l_rcs l !! new_node = Some x0) as Hx0 by (by rewrite Er). split; [done|]. split.
  - split; [done|]. split; [by exists x0; split; [|apply null_false]|]. split; [rewrite Er; simpl; unfold temp_rc; lia|].
    split; [by eapply rc_member_here|]. intros w o' Hw Ho'. by simplify_eq.
  - unfold call_thread; simpl t_local. rewrite E. eexists _, _. split; [done|].
    split; [eapply (keep_private s tid (Thread None [] l) (raw x0)); try done; [|simpl; intros u [= <-]; simpl; eauto]|].
    { split; [done|]. split; [by eapply own_rc|]. split; [done|]. eauto. }
    exists x0, 0%Z, y0, y1. split; [done|]. split; [done|]. simpl. split_and!; try done; [apply raw_zero|].
    split; [|done]. exists x1. unfold fresh_node, stack_node; simpl. rewrite lookup_insert_eq. simpl. by rewrite H1.
Qed.

(** *** [pop_front] *)

Lemma pop_try_ok v n st :
  stack_node m y0.1 v n → null_word x0 → null_word x1 → free_var y1 → st = Called SPop →
  may_call (CCasField stack_head y0.1 (SSnap ss) next_member) PopCas st.
Proof.
  intros Hn H0 H1 H2 ->. destruct (id Hn) as [Hr _].
  assert (source_word l (SSnap ss) = Some y0.1) as Hy by (simpl; by rewrite Es).
  eapply may_call_same; [done| |by eapply call_cas_field_eq|].
  - split; [apply head_ok|]. split; [by exists y0.1; split; [|apply null_false]|]. by eapply rc_member_here.
  - exists x0, x1, y0, y1. simpl. split_and!; try done. eauto.
Qed.

Lemma pop_swap_ok st :
  null_word x0 → null_word x1 → free_var y0 → taken m SPop y1.1 st → may_call (CSwapSnap ss temp_snap) PopLoop st.
Proof.
  intros H0 H1 H2 H3. eapply may_call_same; [done| |by eapply call_swap_eq|].
  - simpl. rewrite Es. simpl. unfold ss, temp_snap. lia.
  - by exists x0, x1, y1, y0.
Qed.

(** [return {ss->t}] *)
Lemma return_value_ok v n st :
  stack_node m y0.1 v n → null_word x0 → null_word x1 → free_var y1 → st = Done (ResVal (Some v)) →
  ∃ x, return_value (m, l) = Ok (x, (m, l)) ∧ todo_ok st x.
Proof.
  intros Hn H0 H1 H2 Hst. unfold return_value, mbind, M_bind.
  rewrite (source_eq m l (SSnap ss) y0.1) by (simpl; by rewrite Es). cbv beta iota. rewrite (payload_eq m _ _ _ l Hn).
  eexists. split; [done|]. by apply leave_may.
Qed.

(** *** [find] *)

Lemma find_next_ok t node st :
  null_word x0 → null_word x1 → free_var y1 → reach m y0.1 node → observed m (SFind t) node st →
  ∃ x, find_next t node (m, l) = Ok (x, (m, l)) ∧ todo_ok st x.
Proof.
  intros H0 H1 H2 Hr (xs & Hc & ->). unfold find_next. destruct (null node) eqn:Hn.
  { eexists. split; [done|]. apply leave_may; try done. by rewrite (spine_inv_null _ _ _ Hn Hc). }
  apply null_false in Hn.
  assert (is_owned s (raw node)) as Ho.
  { destruct (reach_stays (is_owned s) m m) with (w := y0.1) (x := node) as [_ H]; try done; [| |by apply H].
    - split; [done|]. intros w v n Hw _ Hr'. by eapply node_owned.
    - intros Hy. eapply (source_owned s tid (Thread None [] l) (SSnap ss)); [apply Hi|done|simpl; by rewrite Es|done]. }
  destruct (owned_node node Hn Ho) as (v & n & Hnode). destruct (spine_inv_node _ _ _ _ _ Hnode Hc) as (ys & -> & Hys).
  unfold mbind, M_bind. rewrite (payload_eq m _ _ _ l Hnode). cbv beta iota. cbn [data].
  destruct (decide (v = t)) as [->|Hne].
  - eexists. split; [done|]. apply leave_may; try done. simpl. rewrite bool_decide_true; [done|]. by left.
  - rewrite (rc_member_eq m _ _ _ l Hnode). eexists. split; [done|]. exists x0, x1, y0, y1. simpl.
    split_and!; try done.
    + eapply rtc_r; [exact Hr|]. by exists v.
    + exists ys. split; [done|]. simpl. rewrite (bool_decide_ext (t ∈ v :: ys) (t ∈ ys)); [done|].
      rewrite elem_of_cons. naive_solver.
Qed.
End vars.

Lemma proceed_ok a ph st :
  fresh_address m a → ph ≠ Outside → thread_rel m (Thread None [] l) ph st →
  ∃ x, proceed a ph (m, l) = Ok (x, (m, l)) ∧ todo_ok st x.
Proof.
  intros Ha Hph (x0 & x1 & y0 & y1 & Er & Es & H). simpl in Er, Es.
  assert (word_of (SSnap ss) (m, l) = Ok (y0.1, (m, l))) as Hy0 by (apply source_eq; simpl; by rewrite Es).
  destruct ph as [|t|t|t|t| | | | | |t|t node|r]; unfold phase_rel in H; simpl in H; try done.
  - destruct H as (_ & H0 & H2 & H3 & ->). eexists. split; [done|]. by apply (push_new_ok x0 x1 y0 y1).
  - destruct H as (_ & H1 & H2 & H3 & [n Hn] & ->). unfold proceed, push_try, mbind, M_bind.
    rewrite (source_eq m l (SRc new_node) x0) by (simpl; by rewrite Er). cbv beta iota.
    rewrite (rc_member_eq m _ _ _ l (proj1 Hn)). eexists. split; [done|]. by apply (push_try_ok x0 x1 y0 y1).
  - destruct H as (H1 & H2 & H3 & H). eexists. split; [done|]. simpl. destruct (l_result l) eqn:Hb.
    + by apply (push_drop_ok x0 x1 y0 y1).
    + apply (load_may x0 x1 Er); [done|]. by exists x0, x1, y0, y1.
  - destruct H as (_ & H2 & H3 & [n Hn] & ->). eexists. split; [done|]. by apply (push_assign_ok x0 x1 y0 y1 Er Es t n).
  - destruct H as (_ & H0 & H1 & H3 & H). unfold proceed, pop_try, mbind, M_bind. rewrite Hy0. eexists. split; [done|].
    destruct (null y0.1) eqn:Hn; simpl in H.
    + destruct H as (xs & Hc & ->). apply (leave_may x0 x1 y0 y1); try done. by rewrite (spine_inv_null _ _ _ Hn Hc).
    + apply null_false in Hn. destruct (source_node (SSnap ss) y0.1) as (v & n & Hv); [simpl; by rewrite Es|done|].
      by apply (pop_try_ok x0 x1 y0 y1 Er Es v n).
  - destruct H as (H0 & H1 & H3 & v & n & Hn & ->). unfold proceed, pop_decide, mbind, M_bind; simpl.
    destruct (l_result l) eqn:Hb.
    + by apply (return_value_ok x0 x1 y0 y1 Er Es v n).
    + eexists. split; [done|]. apply snapshot_may; [by apply (free_snap1 y0 y1)|]. by exists x0, x1, y0, y1.
  - destruct H as (_ & H0 & H1 & H). eexists. split; [done|]. apply (drop_snap_may y0 y1 Es). intros fs o' Ho.
    exists x0, x1, (0%Z, None), y1. split; [done|]. split; [done|]. simpl. split_and!; try done. apply free_zero.
  - destruct H as (_ & H0 & H1 & H2 & H). eexists. split; [done|]. by apply (pop_swap_ok x0 x1 y0 y1).
  - destruct H as (_ & H0 & H1 & H3 & xs & Hc & ->). unfold proceed, front_read, mbind, M_bind. rewrite Hy0. cbv beta iota.
    destruct (null y0.1) eqn:Hn.
    + eexists. split; [done|]. apply (leave_may x0 x1 y0 y1); try done. by rewrite (spine_inv_null _ _ _ Hn Hc).
    + apply null_false in Hn. destruct (source_node (SSnap ss) y0.1) as (v & n & Hv); [simpl; by rewrite Es|done|].
      destruct (spine_inv_node _ _ _ _ _ Hv Hc) as (ys & -> & _).
      by apply (return_value_ok x0 x1 y0 y1 Er Es v n).
  - destruct H as (_ & H0 & H1 & H3 & H). unfold proceed, find_first, mbind, M_bind. rewrite Hy0. eexists. split; [done|].
    exists x0, x1, y0, y1. simpl. split_and!; try done.
  - destruct H as (_ & H0 & H1 & H3 & Hr & H). by apply (find_next_ok x0 x1 y0 y1).
  - destruct H as (_ & H0 & H1 & H2 & H3 & ->). eexists. split; [done|]. split; [done|]. by exists x0, x1, y0, y1.
Qed.

Lemma enter_ok o st :
  thread_rel m (Thread None [] l) Outside st → st = Idle ∧ may_call (enter o).1 (enter o).2 (Called o).
Proof.
  intros (x0 & x1 & y0 & y1 & Er & Es & H). simpl in Er, Es. destruct H as (_ & H0 & H1 & H2 & H3 & ->). split; [done|].
  destruct o; simpl.
  - apply (load_may x0 x1 Er); [done|]. by exists x0, x1, y0, y1.
  - apply snapshot_may; [by apply (free_snap0 y0 y1)|]. by exists x0, x1, y0, y1.
  - apply snapshot_may; [by apply (free_snap0 y0 y1)|]. by exists x0, x1, y0, y1.
  - apply snapshot_may; [by apply (free_snap0 y0 y1)|]. by exists x0, x1, y0, y1.
Qed.

End methods.
End calls.
