(* ===== verification/StackLin.v ===== *)
(** * The stack is linearizable

    Every run of the machine of the stack, whatever instructions of whatever
    threads it interleaves, makes the calls and returns of a run of the atomic
    stack, and no step of it fails. *)

From S2P Require Import Prelude StickyCounter CountedObject MemoryManager AtomicLoc AcquireRetire HpMachine HpInvariant HpFacts HpEffects HpFrames HpOps HpOpSteps HpProps HpProgress HpRoom HpBounds StackProgram StackMachine StackStable StackSim StackSteps StackCalls.
Local Open Scope nat_scope.

Section simulation.
  Context {V : Type} `{Veq : !EqDecision V} `{Pol : !Policy} (num_threads : nat).
  Implicit Types (p w : Z) (l : local) (m : mem V) (s : cstate V) (T : thread) (st : status V) (ph : phase V).
  Implicit Types (S : stack_state V) (A : atomic_state V).

Record sim S A : Prop := {
  sim_inv : minv (s_core S);
  sim_sane : sane (s_core S);
  sim_nodes : nodes_ok (c_mem (s_core S));
  sim_head : ∃ h, m_roots (c_mem (s_core S)) = [h] ∧ spine (c_mem (s_core S)) h (a_list A);
  sim_threads : ∀ tid T ph, c_threads (s_core S) !! tid = Some T → s_phases S !! tid = Some ph →
    ∃ st, a_threads A !! tid = Some st ∧ thread_rel (c_mem (s_core S)) T ph st
}.

Lemma outside_or ph : ph = Outside ∨ ph ≠ Outside.
Proof. destruct ph; [by left|by right..]. Qed.

(** The state after a step of thread [tid]. *)
Definition stepped S (tid : nat) ph' T' m' : stack_state V :=
  StackState (CState m' (<[tid := T']> (c_threads (s_core S)))) (<[tid := ph']> (s_phases S)).

Definition updated A (tid : nat) st' (xs' : list V) : atomic_state V :=
  AtomicState xs' (<[tid := st']> (a_threads A)).

(** One thread and the stack move; the others keep what they rely on. *)
Lemma sim_step S A tid st ph' T' m' st' xs' h' :
  sim S A → a_threads A !! tid = Some st → minv (CState m' (<[tid := T']> (c_threads (s_core S)))) →
  sane (CState m' (<[tid := T']> (c_threads (s_core S)))) → nodes_ok m' →
  m_roots m' = [h'] → spine m' h' xs' → thread_rel m' T' ph' st' →
  (∀ u U ph su, c_threads (s_core S) !! u = Some U → u ≠ tid →
     thread_rel (c_mem (s_core S)) U ph su → thread_rel m' U ph su) →
  sim (stepped S tid ph' T' m') (updated A tid st' xs').
Proof.
  intros [_ _ _ _ Hth] HA Hi' Hs' Hn' Hr' Hc' Hrel Hoth. constructor; [done|done|done|by exists h'|]. simpl.
  intros u U ph [[<- [<- _]]|[Hne HU]]%list_lookup_insert_Some Hph.
  - apply list_lookup_insert_Some in Hph as [(_ & <- & _)|[[] _]]; [|done]. exists st'. split; [|done]. apply list_lookup_insert_eq. by eapply lookup_lt_Some.
  - rewrite list_lookup_insert_ne in Hph by done. destruct (Hth u U ph HU Hph) as (su & Hsu & Hrel').
    exists su. rewrite list_lookup_insert_ne by done. split; [done|]. by eapply Hoth.
Qed.

Lemma updated_same A tid st : a_threads A !! tid = Some st → updated A tid st (a_list A) = A.
Proof. intros H. unfold updated. rewrite list_insert_id by done. by destruct A. Qed.

(** The atomic stack follows. *)
Lemma effect_astep A tid st st' xs' :
  a_threads A !! tid = Some st → effect st (a_list A) st' xs' →
  updated A tid st' xs' = A ∨ astep A None (updated A tid st' xs').
Proof.
  intros HA [[-> ->]|(q & -> & -> & ->)]; [left; by apply updated_same|right]. destruct A as [xs ts]; simpl in *.
  eapply astep_effect; [done|]. by destruct (list_exec q xs).
Qed.

(** ** Instructions *)

Lemma snap_inc_counts s tid l c d w :
  minv s → c_threads s !! tid = Some (Thread (Some (OSnapInc c d w)) [] l) →
  wlp (strong_step (V := V) (raw w) (IncAdd 1)) (λ c' _, incremented c' = true) (c_mem s, l).
Proof.
  intros Hi HT. apply wlp_strong_exact; [done|]. intros o c' x Ho E.
  destruct (op_was_ok _ _ _ _ Hi HT) as (_ & _ & Hw & _).
  destruct (owned_live s (raw w) Hi Hw) as (o' & Ho' & [Hr _] & _).
  { eapply held_owned; [apply Hi|]. by eapply held_here; [exact HT|left]. }
  rewrite Ho in Ho'. injection Ho' as <-. rewrite thread_step_add in E by done. by injection E as <- <-.
Qed.

Lemma sim_run S A tid T ph T' m' :
  sim S A → c_threads (s_core S) !! tid = Some T → s_phases S !! tid = Some ph → ¬ idle T →
  has_room (c_mem (s_core S)) → run_thread num_threads tid T (c_mem (s_core S)) = Ok (T', m') →
  ∃ A', (A' = A ∨ astep A None A') ∧ sim (stepped S tid ph T' m') A'.
Proof.
  intros Hsim HT Hph Hid Hroom Hrun. destruct (Hsim) as [Hi Hsane Hn (h & Hroot & Hc) Hth].
  destruct (Hth tid T ph HT Hph) as (st & HA & Hrel).
  assert (instr_run num_threads (s_core S) tid T T' m') as Hsr.
  { split_and!; try done; [|by eapply rel_instr]. destruct (inv_thread _ (inv_tinv _ Hi) _ _ HT) as [_ Hst _ _].
    eapply Forall_impl; [exact Hst|]. apply frame_ok_sane. }
  pose proof (run_stays _ _ _ _ _ _ Hsr) as Hstays.
  assert (∀ u U pu su, c_threads (s_core S) !! u = Some U → thread_rel (c_mem (s_core S)) U pu su →
    thread_rel m' U pu su) as Hall by (intros; eapply rel_stays; [done|by eapply run_guards|done]).
  assert (minv (CState m' (<[tid := T']> (c_threads (s_core S))))) as Hi'.
  { eapply (cstep_minv num_threads); [exact Hi|]. by eapply cstep_run. }
  assert (sane (CState m' (<[tid := T']> (c_threads (s_core S))))) as Hsane'.
  { eapply (cstep_sane num_threads strong_cmd); [exact Hsane|]. by eapply cstep_run. }
  assert (nodes_ok m') as Hn'.
  { intros p o u Ho Hu. destruct (run_storage _ _ _ _ _ _ _ _ _ Hsr Ho Hu) as (o0 & ? & ?). by eapply Hn. }
  assert (spine m' h (a_list A)) as Hc'.
  { eapply spine_stays; [done| |done]. intros _. by apply head_owned. }
  specialize (Hall tid T ph st HT Hrel) as Hrel'.
  destruct T as [o [|f stack] l]; unfold run_thread in Hrun; simpl in Hrun.
  - destruct o as [o|]; [|by destruct Hid].
    destruct (exec_op tid o (c_mem (s_core S), l)) as [[[fs o'] [m1 l1]]|] eqn:E; [|done]. injection Hrun as <- <-.
    destruct (op_move tid h (c_mem (s_core S)) l o fs o' m1 l1 Hroot E) with (xs := a_list A) (ph := ph) (st := st)
      as (h' & st' & xs' & H1 & H2 & H3 & H4); [|by intros; subst; eapply snap_inc_counts|done|done|].
    { intros d j w ->. destruct (op_was_ok _ _ _ _ Hi HT) as (_ & _ & ?). by apply null_true. }
    exists (updated A tid st' xs'). split; [by eapply effect_astep|]. eapply sim_step; eauto.
  - destruct (exec_frame num_threads f (c_mem (s_core S), l)) as [[fs [m1 l1]]|] eqn:E; [|done]. injection Hrun as <- <-.
    exists (updated A tid st (a_list A)). split; [left; by apply updated_same|].
    destruct (inv_thread _ (inv_tinv _ Hi) _ _ HT) as [_ Hst _ _]. inversion Hst as [|? ? Hf _]; subst.
    destruct (frame_changes num_threads f (c_mem (s_core S)) l (frame_ok_sane f Hf) _ _ E) as [Hsame _].
    eapply (sim_step S A tid st _ _ _ _ _ h); eauto; [destruct Hsame; simpl in *; congruence|].
    by eapply frame_rel.
Qed.

(** ** Calls *)

Lemma sim_call S A tid l st c ph' T' m' st' :
  sim S A → c_threads (s_core S) !! tid = Some (Thread None [] l) → a_threads A !! tid = Some st →
  may_call (s_core S) tid l c ph' st' → call_thread (Thread None [] l) (c_mem (s_core S)) c = Ok (T', m') →
  sim (stepped S tid ph' T' m') (updated A tid st' (a_list A)).
Proof.
  intros Hsim HT HA (Hst & Hok & T1 & m1 & E & (Hr & Hn' & P & Hstays & Hh & Hg) & Hrel) Hcall.
  rewrite Hcall in E. injection E as <- <-. destruct (Hsim) as [Hi Hsane Hn (h & Hroot & Hc) Hth].
  eapply (sim_step S A tid st _ _ _ _ _ h); eauto; [..|congruence|by eapply spine_stays; eauto|].
  - eapply (cstep_minv num_threads); [exact Hi|]. by eapply cstep_call.
  - eapply (cstep_sane num_threads strong_cmd); [exact Hsane|]. by eapply cstep_call.
  - intros u U pu su HU Hne Hru. eapply rel_stays; eauto.
Qed.

(** The thread goes on without a pointer call. *)
Lemma sim_local S A tid l st ph' st' :
  sim S A → c_threads (s_core S) !! tid = Some (Thread None [] l) → a_threads A !! tid = Some st →
  thread_rel (c_mem (s_core S)) (Thread None [] l) ph' st' →
  sim (stepped S tid ph' (Thread None [] l) (c_mem (s_core S))) (updated A tid st' (a_list A)).
Proof.
  intros Hsim HT HA Hrel. destruct (Hsim) as [Hi Hsane Hn (h & Hroot & Hc) Hth].
  eapply (sim_step S A tid st _ _ _ _ _ h); eauto; rewrite list_insert_id by done; by destruct (s_core S).
Qed.

(** ** Steps *)

(** What the atomic stack does in a step of the machine. *)
Definition follows A (e : option (event V)) A' : Prop := astep A e A' ∨ (e = None ∧ A' = A).

Lemma move_busy tid o a ph T m :
  ¬ idle T →
  move num_threads tid o a ph T m =
  match run_thread num_threads tid T m with Ok (T1, m1) => Ok (None, ph, T1, m1) | Err e => Err e end.
Proof. intros Hid. destruct T as [[] [] l]; simpl; try done. by destruct Hid. Qed.

Lemma sim_tstep S A tid e S' : sim S A → tstep num_threads tid S e S' → ∃ A', follows A e A' ∧ sim S' A'.
Proof.
  intros Hsim Hstep. destruct Hstep as [S o a ph T e ph' T' m' HT Hph Ha Hroom Hmove].
  destruct (Hsim) as [Hi Hsane Hn (h & Hroot & Hc) Hth]. destruct (Hth tid T ph HT Hph) as (st & HA & Hrel).
  fold (stepped S tid ph' T' m').
  destruct (decide (t_op T = None ∧ t_stack T = [])) as [[H1 H2]|Hbusy].
  - destruct T as [o1 stack l]; simpl in H1, H2; subst. simpl in Hmove. destruct (outside_or ph) as [->|Hout].
    + destruct (enter_ok (s_core S) tid l Hi Hn h Hroot o st Hrel) as [-> Hcall].
      destruct (enter o) as [c ph1] eqn:Een. simpl in Hcall.
      destruct (call_thread _ _ c) as [[T1 m1]|] eqn:E; simplify_eq.
      exists (updated A tid (Called o) (a_list A)). split; [left|by eapply sim_call].
      destruct A as [xs ts]. by apply astep_invoke.
    + destruct (proceed_ok (s_core S) tid l Hi HT Hn h Hroot a ph st Ha Hout Hrel) as (x & E & Hx).
      assert (match x with
        | Do c ph1 => match call_thread (Thread None [] l) (c_mem (s_core S)) c with
                      | Ok (T1, m1) => Ok (None, ph1, T1, m1) | Err e => Err e end
        | GoOn ph1 => Ok (None, ph1, Thread None [] l, c_mem (s_core S))
        | Give r => Ok (Some (Return tid r), Outside, Thread None [] l, c_mem (s_core S))
        end = Ok (e, ph', T', m')) as Hm by (destruct ph; try done; rewrite E in Hmove; by destruct x).
      destruct x as [c ph1|ph1|r]; simpl in Hx.
      * destruct (call_thread _ _ c) as [[T1 m1]|] eqn:Ec; simplify_eq.
        exists (updated A tid st (a_list A)). split; [|by eapply sim_call].
        right. split; [done|]. by apply updated_same.
      * simplify_eq. exists (updated A tid st (a_list A)). split; [|by eapply sim_local].
        right. split; [done|]. by apply updated_same.
      * simplify_eq. destruct Hx as [-> Hx]. exists (updated A tid Idle (a_list A)). split; [left|by eapply sim_local].
        destruct A as [xs ts]. by apply astep_return.
  - rewrite move_busy in Hmove by done. destruct (run_thread _ _ _ _) as [[T1 m1]|] eqn:E; simplify_eq.
    destruct (sim_run S A tid T ph' T' m') as (A' & HA' & HS'); try done. exists A'. split; [|done].
    destruct HA' as [->|?]; [right|left]; done.
Qed.

Lemma sim_sstep S A e S' : sim S A → sstep num_threads S e S' → ∃ A', follows A e A' ∧ sim S' A'.
Proof. intros Hsim [tid Hstep]. by eapply sim_tstep. Qed.

Lemma sim_init : sim (stack_init num_threads) (atomic_init num_threads).
Proof.
  constructor; simpl.
  - apply init_minv.
  - intros tid T [-> _]%lookup_replicate. split_and!; [by rewrite Forall_nil|done|by left].
  - done.
  - exists 0%Z. split; [done|]. constructor. apply raw_zero.
  - intros tid T ph [-> Hlt]%lookup_replicate [-> _]%lookup_replicate. exists Idle. split; [by apply lookup_replicate|].
    exists 0%Z, 0%Z, (0%Z, None), (0%Z, None). split; [done|]. split; [done|]. pose proof raw_zero. done.
Qed.

Lemma sim_runs S A tr S' : sim S A → runs (sstep num_threads) S tr S' → ∃ A', runs astep A tr A' ∧ sim S' A'.
Proof.
  intros Hsim Hr. revert A Hsim. induction Hr as [S|S S1 S2 tr Hs Hr IH|S e S1 S2 tr Hs Hr IH]; intros A Hsim.
  - exists A. split; [constructor|done].
  - destruct (sim_sstep _ _ _ _ Hsim Hs) as (A1 & [Ha|[_ ->]] & Hsim1); destruct (IH _ Hsim1) as (A2 & HA2 & ?);
      exists A2; (split; [|done]); [by eapply runs_silent|done].
  - destruct (sim_sstep _ _ _ _ Hsim Hs) as (A1 & [Ha|[? _]] & Hsim1); [|done].
    destruct (IH _ Hsim1) as (A2 & HA2 & ?). exists A2. split; [by eapply runs_event|done].
Qed.
End simulation.

(** ** The theorems *)

Section theorems.
  Context {V : Type} `{Veq : !EqDecision V} `{Pol : !Policy}.
  Implicit Types (S : stack_state V) (T : thread) (ph : phase V).

(** C1. The stack is linearizable over hazard pointers: however the instructions
    of any number of threads inside [push_front], [pop_front], [front] and [find]
    are interleaved, with the scans and destructors inside them, the calls and
    the values they return are those of a stack whose methods each take effect at
    one instant between call and return, and the nodes from [head] on hold the
    contents of that stack. *)
Theorem stack_linearizable n S tr :
  runs (sstep n) (stack_init n) tr S →
  ∃ A : atomic_state V, runs astep (atomic_init n) tr A ∧
    ∃ h, m_roots (c_mem (s_core S)) = [h] ∧ spine (c_mem (s_core S)) h (a_list A).
Proof.
  intros Hr. destruct (sim_runs n _ _ _ _ (sim_init n) Hr) as (A & HA & Hsim). exists A. split; [done|apply Hsim].
Qed.

(** C2. No step of a thread that uses the stack fails: whatever the others are in
    the middle of, no method touches null or freed memory or a destroyed node, and
    every assertion inside the reclamation holds. *)
Theorem stack_never_fails n S tr tid T ph o a :
  runs (sstep n) (stack_init n) tr S →
  c_threads (s_core S) !! tid = Some T → s_phases S !! tid = Some ph →
  fresh_address (c_mem (s_core S)) a → has_room (c_mem (s_core S)) →
  ∃ r, move n tid o a ph T (c_mem (s_core S)) = Ok r.
Proof.
  intros Hr HT Hph Ha Hroom. destruct (sim_runs n _ _ _ _ (sim_init n) Hr) as (A & HA & [Hi Hsane Hn (h & Hroot & Hc) Hth]).
  destruct (Hth tid T ph HT Hph) as (st & _ & Hrel).
  destruct (machine_run_ok n (s_core S) tid T Hi Hroom HT) as (T1 & m1 & E & _).
  destruct T as [[o1|] [|f stack] l]; simpl; rewrite ?E; eauto.
  destruct (outside_or ph) as [->|Hout].
  - destruct (enter_ok (s_core S) tid l Hi Hn h Hroot o st Hrel) as [_ (_ & _ & T2 & m2 & E2 & _)].
    destruct (enter o) as [c ph1]. simpl in E2. rewrite E2. eauto.
  - destruct (proceed_ok (s_core S) tid l Hi HT Hn h Hroot a ph st Ha Hout Hrel) as (x & E2 & Hx).
    destruct ph; try done; rewrite E2; destruct x as [c ph1|ph1|r0]; eauto;
      destruct Hx as (_ & _ & T2 & m2 & E3 & _); rewrite E3; eauto.
Qed.
End theorems.
