(* ===== verification/StackAlone.v ===== *)
(** * A thread alone finishes its method of the stack

    The retry loops of [push_front] and [pop_front] end for a thread that runs
    while the others have stopped: after the next load of [head] it is [aimed], so
    that the [compare_exchange_strong] that follows succeeds. *)

From S2P Require Import Prelude StickyCounter CountedObject MemoryManager AtomicLoc AcquireRetire HpMachine HpInvariant HpFacts HpEffects HpFrames HpOps HpOpSteps HpProps HpProgress HpRoom HpBounds StackProgram StackMachine StackStable StackSim StackSteps StackCalls StackLin.
Local Open Scope nat_scope.

Section aim.
  Context {V : Type} `{Veq : !EqDecision V} `{Pol : !Policy}.
  Implicit Types (w h : Z) (l : local) (m : mem V) (T : thread) (ph : phase V).

(** The [load] that the thread is in gives [h]. *)
Definition load_gets h T : Prop :=
  match t_op T with
  | None => l_rcs (t_local T) !! temp_rc = Some h
  | Some (OAcqStore _ _ _ w | OAcqCheck _ _ _ w | OLoadInc _ w | OLoadClear _ w) => w = h
  | Some _ => True
  end.

(** The snapshot that goes into variable [i] is [h] or null. *)
Definition snap_gets h (i : nat) T : Prop :=
  match t_op T with
  | None => ∃ y, l_snaps (t_local T) !! i = Some y ∧ (y.1 = h ∨ null y.1 = true)
  | Some (OAcqStore _ _ _ w | OAcqCheck _ _ _ w | OSnapStore _ _ _ w | OSnapCheck _ _ _ w |
          OSnapInc _ _ w | OSnapAgain _ _ w | OSnapClear _ _ w _) => w = h
  | Some (OSnapNull _ _ w) => null w = true
  | Some _ => True
  end.

(** The [compare_and_swap] succeeds, or has. *)
Definition cas_wins h T : Prop :=
  match t_op T with
  | None => l_result (t_local T) = true
  | Some (OReserve _ e _ _ | OCas _ e _ _) => e = h
  | Some (OCasClear _ _ b) => b = true
  | Some _ => True
  end.

(** What the thread expects [head] to be is what it is. *)
Definition aimed h m T ph : Prop :=
  match ph with
  | PushLoad _ => False
  | PushReload _ => load_gets h T
  | PushLoop t => ∃ w, l_rcs (t_local T) !! new_node = Some w ∧ fresh_node m w t h
  | PushCas _ | PopCas => cas_wins h T
  | PopReload => snap_gets h temp_snap T
  | PopClear => ∃ y, l_snaps (t_local T) !! temp_snap = Some y ∧ (y.1 = h ∨ null y.1 = true)
  | PopLoop => snap_gets h ss T
  | _ => True
  end.

Definition head_aimed m T ph : Prop := ∃ h, m_roots m = [h] ∧ aimed h m T ph.
End aim.

(** ** Instructions *)

Section instructions.
  Context {V : Type} `{Veq : !EqDecision V} `{Pol : !Policy} (num_threads tid : nat) (h : Z).
  Implicit Types (w : Z) (l : local) (m : mem V) (T : thread) (ph : phase V).

Definition loads_head (o : op) : Prop :=
  match o with
  | OAcqLoad _ c _ | OAcqStore _ c _ _ | OAcqCheck _ c _ _ | OSnapSlot c _ _ | OSnapLoad c _ _ | OSnapStore c _ _ _
  | OSnapCheck c _ _ _ | OSnapInc c _ _ | OSnapAgain c _ _ | OSnapClear c _ _ _ | OReserve c _ _ _ | OCas c _ _ _ =>
      c = LCell 0
  | _ => True
  end.

Lemma peek_root m w : m_roots m = [h] → peek m (LCell 0) = Some w → w = h.
Proof. simpl. intros ->. by intros [= ->]. Qed.

Lemma load_aim o m l x0 x1 :
  m_roots m = [h] → load_at (Some o) → l_rcs l = [x0; x1] → load_gets h (Thread (Some o) [] l) →
  wlp (exec_op tid o) (λ r ml, m_roots ml.1 = [h] ∧ load_gets h (Thread r.2 r.1 ml.2)) (m, l).
Proof.
  intros Hr Ho El Hg. destruct o; simpl in Ho; try done; try (destruct u; [|done]); destruct_and?; subst; op_open; op_walk;
    unfold load_gets in *; simpl in *; (split; [congruence|]); subst; rewrite ?El; try done; by eapply peek_root.
Qed.

Lemma snap_aim i o m l y0 y1 :
  m_roots m = [h] → snap_at i (Some o) → l_snaps l = [y0; y1] → i < 2 → snap_gets h i (Thread (Some o) [] l) →
  wlp (exec_op tid o) (λ r ml, m_roots ml.1 = [h] ∧ snap_gets h i (Thread r.2 r.1 ml.2)) (m, l).
Proof.
  intros Hr Ho El Hi Hg.
  assert (∀ y, (y.1 = h ∨ null y.1 = true) → ∃ y', <[i := y]> (l_snaps l) !! i = Some y' ∧ (y'.1 = h ∨ null y'.1 = true)) as Hset.
  { intros y Hy. exists y. split; [|done]. apply list_lookup_insert_eq. by rewrite El. }
  destruct o; simpl in Ho; try done; try (destruct u; [done|]); try (destruct r; try done); destruct_and?; subst; op_open; op_walk;
    unfold snap_gets in *; simpl in *; (split; [congruence|]); subst; auto; try by eapply peek_root.
  apply Hset. right. unfold null. simpl. by rewrite raw_zero.
Qed.

Lemma cas_aim o m l :
  m_roots m = [h] → loads_head o → cas_wins h (Thread (Some o) [] l) →
  match o with OReserve _ _ _ _ | OCas _ _ _ _ | OCasInc _ _ | OCasClear _ _ _ => True | _ => False end →
  wlp (exec_op tid o) (λ r ml, ∃ h', m_roots ml.1 = [h'] ∧ cas_wins h' (Thread r.2 r.1 ml.2)) (m, l).
Proof.
  intros Hr Hc Hg Ho. destruct o; try done; simpl in Hc; subst; op_open; unfold cas_wins in *; simpl in *.
  - op_walk. exists h. by split; [simpl; congruence|].
  - wlp_step. subst. apply (wlp_head_cas h); [done| |done]. intros _. wlp_step. exists desired. split; [done|].
    simpl. by destruct (null desired).
  - op_walk. exists h. by split; [simpl; congruence|].
  - op_walk; subst; exists h; (split; [simpl; congruence|done]).
Qed.
End instructions.

Section keeps_aim.
  Context {V : Type} `{Veq : !EqDecision V} `{Pol : !Policy} (num_threads : nat).
  Implicit Types (w h : Z) (l : local) (m : mem V) (s : cstate V) (T : thread) (ph : phase V).

Lemma aimed_frame h m m' o f stack fs l l' ph :
  same_vars m l (m', l') → m_roots m = [h] →
  (∀ w t, fresh_node m w t h → l_rcs l !! new_node = Some w → o = None → fresh_node m' w t h) → (∀ t, ph = PushLoop t → o = None) →
  aimed h m (Thread o (f :: stack) l) ph → head_aimed m' (Thread o (fs ++ stack) l') ph.
Proof.
  intros (Hr & Er & Es & Eb) Hroot Hf Ho H. exists h. simpl in *. split; [congruence|].
  destruct ph; simpl in *; try done; unfold load_gets, snap_gets, cas_wins in *; simpl in *; rewrite ?Er, ?Es, ?Eb; try done.
  destruct H as (w & Hw & H). exists w. split; [done|]. eapply Hf; eauto.
Qed.

Lemma aimed_op s tid o l T' m' h ph st :
  m_roots (c_mem s) = [h] → thread_rel (c_mem s) (Thread (Some o) [] l) ph st → (∃ h', m_roots m' = [h']) →
  run_thread num_threads tid (Thread (Some o) [] l) (c_mem s) = Ok (T', m') →
  aimed h (c_mem s) (Thread (Some o) [] l) ph → head_aimed m' T' ph.
Proof.
  intros Hroot (x0 & x1 & y0 & y1 & Er & Es & H) [h' Hr'] Hrun Ha. unfold run_thread in Hrun; simpl in Hrun, Er, Es.
  destruct (exec_op tid o (c_mem s, l)) as [[[fs o'] [m1 l1]]|] eqn:E; [|done]. injection Hrun as <- <-.
  destruct ph; unfold phase_rel in H; simpl in H; destruct_and?; try (by exists h').
  - eapply (cas_aim tid h) in E as (h1 & ? & ?); [by exists h1|done| |done|];
      destruct o; simpl in *; try done; repeat case_match; naive_solver.
  - eapply (load_aim tid h) in E as [? ?]; [by exists h|done..].
  - eapply (snap_aim tid h ss) in E as [? ?]; [by exists h|done|done|done|by compute; lia|done].
  - eapply (cas_aim tid h) in E as (h1 & ? & ?); [by exists h1|done| |done|];
      destruct o; simpl in *; try done; repeat case_match; naive_solver.
  - eapply (snap_aim tid h temp_snap) in E as [? ?]; [by exists h|done|done|done|by compute; lia|done].
  - destruct o; try done. destruct (clear_move tid k (c_mem s) l _ _ E) as (_ & Hr1 & El). simpl in *. subst l1.
    exists h. split; [congruence|done].
Qed.

Lemma aimed_run S A tid T ph T' m' :
  sim S A → c_threads (s_core S) !! tid = Some T → s_phases S !! tid = Some ph → ¬ idle T →
  has_room (c_mem (s_core S)) → run_thread num_threads tid T (c_mem (s_core S)) = Ok (T', m') →
  (∃ h', m_roots m' = [h']) → head_aimed (c_mem (s_core S)) T ph → head_aimed m' T' ph.
Proof.
  intros [Hi _ _ (h & Hroot & _) Hth] HT Hph Hid Hroom Hrun Hr' (h0 & Hroot0 & Ha).
  rewrite Hroot in Hroot0. injection Hroot0 as <-. destruct (Hth tid T ph HT Hph) as (st & _ & Hrel).
  destruct T as [o [|f stack] l].
  - destruct o as [o|]; [|by destruct Hid]. by eapply aimed_op.
  - destruct (inv_thread _ (inv_tinv _ Hi) _ _ HT) as [_ Hst _ _]. simpl in Hst.
    assert (instr_run num_threads (s_core S) tid (Thread o (f :: stack) l) T' m') as Hsr.
    { split_and!; try done; [|by eapply rel_instr]. eapply Forall_impl; [exact Hst|]. apply frame_ok_sane. }
    unfold run_thread in Hrun; simpl in Hrun.
    destruct (exec_frame num_threads f (c_mem (s_core S), l)) as [[fs [m1 l1]]|] eqn:E; [|done]. injection Hrun as <- <-.
    inversion Hst as [|? ? Hf _]; subst.
    destruct (frame_changes num_threads f (c_mem (s_core S)) l (frame_ok_sane f Hf) _ _ E) as [Hsame _].
    eapply aimed_frame; [exact Hsame|done| | |exact Ha].
    + intros w t Hn Hw ->. destruct (run_guards _ _ _ _ _ _ _ _ Hsr HT) as [_ _ Hg]. eapply fresh_stays; [|exact Hn].
      apply Hg; [done|apply Hn|done].
    + intros t ->. by destruct Hrel as (? & ? & ? & ? & _ & _ & ? & _).
Qed.
End keeps_aim.

(** ** Runs *)

Section alone.
  Context {V : Type} `{Veq : !EqDecision V} `{Pol : !Policy} (num_threads tid : nat).
  Implicit Types (w h k : Z) (b : bool) (l : local) (m : mem V) (s : cstate V) (T : thread) (ph : phase V) (S : stack_state V).

(** The thread is at [ph]; counters have room for [k] references after the call it
    is in; with [b] it is aimed. *)
Record on b k S ph T : Prop := {
  on_sim : ∃ A, sim S A;
  on_phase : s_phases S !! tid = Some ph;
  on_thread : c_threads (s_core S) !! tid = Some T;
  on_spare : spare (k + incs (t_op T)) (c_mem (s_core S));
  on_aim : b = true → head_aimed (c_mem (s_core S)) T ph
}.

Lemma address_exists m : ∃ a, fresh_address m a.
Proof.
  set (X := (set_map (λ p, p / 4) (dom (m_heap m)) ∪ {[0]})%Z : gset Z).
  pose proof (is_fresh X) as Hf. exists (4 * fresh X)%Z.
  assert (fresh X ≠ 0%Z) by (intros E; apply Hf; rewrite E; set_solver).
  split_and!; [lia|rewrite Z.mul_comm; by apply Z.mod_mul|].
  apply not_elem_of_dom. intros H1. apply Hf. apply elem_of_union_l, elem_of_map. exists (4 * fresh X)%Z.
  split; [|done]. rewrite Z.mul_comm. by rewrite Z.div_mul.
Qed.

Lemma alone_tstep b k S ph T s' :
  on b k S ph T → alone num_threads tid (s_core S) s' →
  tstep num_threads tid S None (StackState s' (s_phases S)) ∧ ∃ T', on b k (StackState s' (s_phases S)) ph T'.
Proof.
  intros [[A Hsim] Hph HT Hsp Ha] Halone. destruct (alone_roomy num_threads k tid (s_core S) s') as (_ & T' & HT' & Hsp'); [|done|].
  { split; [apply Hsim|eauto]. }
  destruct Halone as (T0 & T1 & m' & HT0 & Hid & Hroom & Hrun & ->). rewrite HT in HT0. injection HT0 as <-.
  destruct (sim_run num_threads S A tid T ph T1 m') as (A' & _ & Hsim'); try done. unfold stepped in Hsim'.
  rewrite (list_insert_id (s_phases S)) in Hsim' by done. split.
  - destruct (address_exists (c_mem (s_core S))) as [a Ha'].
    rewrite <-(list_insert_id (s_phases S) tid ph) by done.
    apply (tstep_move num_threads tid S SPop a ph T); try done. rewrite move_busy by done. by rewrite Hrun.
  - exists T'. constructor; [by exists A'|done|done|done|]. intros Hb. simpl in *.
    rewrite list_lookup_insert_eq in HT' by (by eapply lookup_lt_Some). injection HT' as <-.
    destruct Hsim' as [_ _ _ (h' & Hr' & _) _]. eapply (aimed_run num_threads S A tid T); eauto.
Qed.

Lemma alone_runs b k ph s s' S T :
  rtc (alone num_threads tid) s s' → s_core S = s → on b k S ph T →
  runs (tstep num_threads tid) S [] (StackState s' (s_phases S)) ∧ ∃ T', on b k (StackState s' (s_phases S)) ph T'.
Proof.
  intros Hr. revert S T. induction Hr as [s|s s1 s2 Hs Hr IH]; intros S T HS Hon.
  - subst. destruct S as [s ps]. simpl. split; [constructor|by exists T].
  - subst. destruct (alone_tstep b k S ph T s1 Hon Hs) as [Ht [T1 Hon1]].
    destruct (IH (StackState s1 (s_phases S)) T1 eq_refl Hon1) as [Hruns [T2 Hon2]]. simpl in *.
    split; [by eapply runs_silent|by exists T2].
Qed.

(** The pointer call that the thread is in ends. *)
Lemma finish_call b k S ph T :
  (1 ≤ k)%Z → on b k S ph T → ∃ S' T', runs (tstep num_threads tid) S [] S' ∧ on b k S' ph T' ∧ idle T'.
Proof.
  intros Hk Hon. destruct (id Hon) as [[A Hsim] _ HT _ _].
  destruct (alone_ends num_threads tid _ _ _ (s_core S) T (sim_sane _ _ Hsim) HT eq_refl eq_refl eq_refl) as (s' & Hr & Hh).
  destruct (alone_runs b k ph _ _ S T Hr eq_refl Hon) as [Hruns [T' Hon']]. exists (StackState s' (s_phases S)), T'.
  split; [done|]. split; [done|]. destruct Hon' as [[A' Hsim'] _ HT' Hsp' _].
  destruct (roomy_runs num_threads k tid s' Hk) as (T2 & HT2 & Hid); [|done|].
  - split; [apply Hsim'|eauto].
  - simpl in HT'. congruence.
Qed.

(** ** Pointer calls *)

(** The pointer calls that a thread that is aimed still has to make. *)
Definition rank ph : nat :=
  match ph with
  | Outside | Leave _ => 0
  | PushCas _ | PopCas | FrontSnap | FindLoop _ _ => 1
  | PushLoop _ | PopLoop | FindSnap _ => 2
  | PushLoad _ | PushReload _ | PopClear => 3
  | PopReload => 4
  end.

(** One that is not may first find that [head] has changed. *)
Definition calls b ph : nat := (if b then 0 else 5) + rank ph.

(** The pointer call brings the thread nearer to the end of the method. *)
Definition advances h b ph' T' m' ph : Prop :=
  ph' ≠ Outside ∧ ∃ b', calls b' ph' < calls b ph ∧ (b' = true → aimed h m' T' ph').

Lemma advances_same h b ph' T' m' ph : ph' ≠ Outside → rank ph' < rank ph → (b = true → aimed h m' T' ph') → advances h b ph' T' m' ph.
Proof. intros Hne Hr H. split; [done|]. exists b. split; [unfold calls; lia|done]. Qed.

Lemma advances_leave h b ph' T' m' ph r : ph' = Leave r → 0 < rank ph → advances h b ph' T' m' ph.
Proof. intros -> Hr. split; [done|]. exists true. split; [|done]. destruct b; unfold calls; simpl; lia. Qed.

Lemma push_next h b m l a st c ph' T' m' x0 x1 y0 y1 ph t :
  l_rcs l = [x0; x1] → call_thread (Thread None [] l) m c = Ok (T', m') →
  ph = PushLoad t ∨ ph = PushLoop t ∨ ph = PushCas t ∨ ph = PushReload t → phase_rel m (Thread None [] l) ph st x0 x1 y0 y1 →
  (b = true → aimed h m (Thread None [] l) ph) → proceed a ph (m, l) = Ok (Do c ph', (m, l)) → advances h b ph' T' m' ph.
Proof.
  intros Er Hcall Hph H Ha Hp. unfold call_thread in Hcall; simpl in Hcall. unfold proceed, mbind, M_bind in Hp.
  destruct Hph as [->|[->|[->| ->]]]; unfold phase_rel in H; simpl in H.
  - injection Hp as <- <-. apply advances_same; [done|simpl; lia|]. intros Hb. by destruct (Ha Hb).
  - destruct H as (_ & _ & _ & _ & [n Hn] & _). unfold push_try, mbind, M_bind in Hp.
    rewrite (source_eq m l (SRc new_node) x0) in Hp by (simpl; by rewrite Er).
    rewrite (rc_member_eq m _ _ _ l (proj1 Hn)) in Hp. injection Hp as <- <-.
    rewrite (call_cas_eq m l x0 x1 Er) in Hcall. injection Hcall as <- <-. apply advances_same; [done|simpl; lia|].
    intros Hb. destruct (Ha Hb) as (w & Hw & Hn'). simpl in Hw. rewrite Er in Hw. injection Hw as <-.
    by destruct (node_unique _ _ _ _ _ _ (proj1 Hn) (proj1 Hn')) as [_ ->].
  - unfold push_decide, mbind, M_bind, local_get, gets in Hp; simpl in Hp. destruct (l_result l) eqn:Hl; injection Hp as <- <-.
    + eapply advances_leave; [done|simpl; lia].
    + injection Hcall as <- <-. split; [done|]. exists true. split; [|done]. destruct b; [|unfold calls; simpl; lia].
      specialize (Ha eq_refl). unfold aimed, cas_wins in Ha; simpl in Ha; congruence.
  - destruct H as (_ & _ & _ & [n Hn] & _). injection Hp as <- <-.
    destruct (call_assign_eq m l x0 x1 Er t n (proj1 Hn)) as (o & Ho & E). rewrite E in Hcall. injection Hcall as <- <-.
    apply advances_same; [done|simpl; lia|]. intros Hb. specialize (Ha Hb). unfold aimed, load_gets in Ha. simpl in Ha.
    rewrite Er in Ha. injection Ha as <-. exists x0. split; [done|]. destruct Hn as [[Hr _] H1].
    unfold fresh_node, stack_node; simpl. rewrite lookup_insert_eq. simpl. rewrite Ho in H1. by injection H1 as ->.
Qed.

(** [compare_and_swap] starts with the word that the caller expects. *)
Lemma cas_field_starts m l T' m' e src :
  call_thread (Thread None [] l) m (CCasField stack_head e src next_member) = Ok (T', m') → cas_wins e T'.
Proof.
  intros Hcall. unfold call_thread in Hcall; simpl in Hcall. unfold start_cas_field, mbind, M_bind in Hcall.
  change (loc_of stack_head (m, l)) with (Ok (LCell 0, (m, l))) in Hcall. cbv beta iota in Hcall.
  destruct (word_of src (m, l)) as [[p [m1 l1]]|]; [|done].
  destruct (rc_member (raw p) next_member (m1, l1)) as [[w [m2 l2]]|]; [|done]. by injection Hcall as <- <-.
Qed.

Lemma return_value_leaves m l c ph' ml : return_value (m, l) = Ok (Do c ph', ml) → ∃ r, ph' = Leave r.
Proof.
  unfold return_value, mbind, M_bind. destruct (word_of (SSnap ss) (m, l)) as [[w ml1]|]; [|done].
  destruct (payload_at (raw w) ml1) as [[v ml2]|]; [|done]. intros [= <- <- <-]. eauto.
Qed.

Lemma pop_next h b m l a c ph' T' m' y0 y1 ph :
  l_snaps l = [y0; y1] → call_thread (Thread None [] l) m c = Ok (T', m') →
  ph = PopLoop ∨ ph = PopCas ∨ ph = PopReload ∨ ph = PopClear →
  (b = true → aimed h m (Thread None [] l) ph) → proceed a ph (m, l) = Ok (Do c ph', (m, l)) → advances h b ph' T' m' ph.
Proof.
  intros Es Hcall Hph Ha Hp. pose proof (cas_field_starts m l T' m') as Hcf. unfold call_thread in Hcall; simpl in Hcall. unfold proceed in Hp.
  destruct Hph as [->|[->|[->| ->]]].
  - unfold pop_try, mbind, M_bind in Hp. rewrite (source_eq m l (SSnap ss) y0.1) in Hp by (simpl; by rewrite Es).
    destruct (null y0.1) eqn:Hn; injection Hp as <- <-; [eapply advances_leave; [done|simpl; lia]|].
    apply advances_same; [done|simpl; lia|]. intros Hb. destruct (Ha Hb) as (y & Hy & Hh). simpl in Hy. rewrite Es in Hy.
    injection Hy as <-. destruct Hh as [<-|Hh]; [|congruence]. by eapply Hcf.
  - unfold pop_decide, mbind, M_bind, local_get, gets in Hp; simpl in Hp. destruct (l_result l) eqn:Hl.
    + apply return_value_leaves in Hp as [r ->]. eapply advances_leave; [done|simpl; lia].
    + injection Hp as <- <-. injection Hcall as <- <-. split; [done|]. exists true. split; [|done]. destruct b; [|unfold calls; simpl; lia].
      specialize (Ha eq_refl). unfold aimed, cas_wins in Ha; simpl in Ha; congruence.
  - injection Hp as <- <-. destruct (call_drop_snap_eq m l y0 y1 Es) as (fs & o' & E & Ho). rewrite E in Hcall.
    injection Hcall as <- <-. apply advances_same; [done|simpl; lia|]. intros Hb. specialize (Ha Hb).
    unfold aimed, snap_gets in *. simpl in *. by rewrite Es in Ha.
  - injection Hp as <- <-. rewrite (call_swap_eq m l y0 y1 Es) in Hcall. injection Hcall as <- <-.
    apply advances_same; [done|simpl; lia|]. intros Hb. specialize (Ha Hb). unfold aimed, snap_gets in *. simpl in *.
    by rewrite Es in Ha.
Qed.

Lemma read_next h b m l a c ph' T' m' y0 y1 ph :
  l_snaps l = [y0; y1] →
  ph = FrontSnap ∨ (∃ t node, ph = FindLoop t node) → proceed a ph (m, l) = Ok (Do c ph', (m, l)) → advances h b ph' T' m' ph.
Proof.
  intros Es Hph Hp. unfold proceed in Hp.
  assert (∃ r, ph' = Leave r) as [r Hr].
  { destruct Hph as [->|(t & node & ->)].
    - unfold front_read, mbind, M_bind in Hp. rewrite (source_eq m l (SSnap ss) y0.1) in Hp by (simpl; by rewrite Es).
      destruct (null y0.1); [injection Hp as <- <-; eauto|by eapply return_value_leaves].
    - unfold find_next, mbind, M_bind in Hp. destruct (null node); [injection Hp as <- <-; eauto|].
      destruct (payload_at _ _) as [[v ml]|]; [|done]. destruct (decide _); [injection Hp as <- <- _; eauto|].
      by destruct (rc_member _ _ _) as [[nx ml']|]. }
  eapply advances_leave; [done|]. destruct Hph as [->|(t & node & ->)]; simpl; lia.
Qed.
Lemma aimed_next h b m l a ph st c ph' T' m' :
  thread_rel m (Thread None [] l) ph st → (b = true → aimed h m (Thread None [] l) ph) →
  proceed a ph (m, l) = Ok (Do c ph', (m, l)) → call_thread (Thread None [] l) m c = Ok (T', m') →
  advances h b ph' T' m' ph.
Proof.
  intros (x0 & x1 & y0 & y1 & Er & Es & H) Ha Hp Hc. simpl in Er, Es.
  destruct ph as [|t|t|t|t| | | | | |t|t node|r]; try done.
  1-4: (eapply (push_next h b m l a st c ph' T' m' x0 x1 y0 y1) with (t := t); try done; naive_solver).
  1-4: (eapply (pop_next h b m l a c ph' T' m' y0 y1); try done; naive_solver).
  - eapply (read_next h b m l a c ph' T' m' y0 y1); try done; naive_solver.
  - unfold proceed, find_first, mbind, M_bind in Hp. by destruct (word_of _ _) as [[w ml]|].
  - eapply (read_next h b m l a c ph' T' m' y0 y1); try done; naive_solver.
Qed.

(** ** Methods *)

(** What [find] has still to look at. *)
Definition ahead m ph (xs : list V) : Prop :=
  match ph with FindLoop _ node => spine m node xs | _ => True end.

Lemma on_ahead b k S ph T : on b k S ph T → ∃ xs, ahead (c_mem (s_core S)) ph xs.
Proof.
  intros [[A Hsim] Hph HT _ _]. destruct (sim_threads _ _ Hsim _ _ _ HT Hph) as (st & _ & x0 & x1 & y0 & y1 & _ & _ & H).
  destruct ph; try (by exists []). destruct H as (_ & _ & _ & _ & _ & xs & Hc & _). by exists xs.
Qed.

(** A method goes on without a pointer call only in [find]. *)
Lemma goes_on m l a ph ph' ml xs :
  ahead m ph xs → proceed a ph (m, l) = Ok (GoOn ph', ml) →
  (∃ t w, ph = FindSnap t ∧ ph' = FindLoop t w) ∨
  (∃ t node n v ys, ph = FindLoop t node ∧ ph' = FindLoop t n ∧ xs = v :: ys ∧ spine m n ys).
Proof.
  intros Hx Hp. destruct ph as [|t|t|t|t| | | | | |t|t node|r]; try done;
    unfold proceed, push_try, push_decide, pop_try, pop_decide, front_read, find_first, return_value, mbind, M_bind in Hp.
  all: try (repeat case_match; by simplify_eq).
  { destruct (word_of _ _) as [[w ml1]|]; [|done]. injection Hp as <- <-. left. by exists t, w. }
  unfold find_next in Hp. destruct (null node) eqn:Hn; [done|]. apply null_false in Hn. simpl in Hx.
  destruct Hx as [node Hz|node v n ys Hnode Hys]; [done|]. unfold mbind, M_bind in Hp.
  rewrite (payload_eq m _ _ _ l Hnode) in Hp. simpl in Hp. destruct (decide (v = t)); [done|].
  rewrite (rc_member_eq m _ _ _ l Hnode) in Hp. injection Hp as <- <-. right. by exists t, node, n, v, ys.
Qed.

Lemma next_tstep S ph l a x :
  c_threads (s_core S) !! tid = Some (Thread None [] l) → s_phases S !! tid = Some ph → ph ≠ Outside →
  fresh_address (c_mem (s_core S)) a → has_room (c_mem (s_core S)) →
  proceed a ph (c_mem (s_core S), l) = Ok (x, (c_mem (s_core S), l)) →
  match x with
  | Do c ph' => ∀ T' m', call_thread (Thread None [] l) (c_mem (s_core S)) c = Ok (T', m') →
      tstep num_threads tid S None (stepped S tid ph' T' m')
  | GoOn ph' => tstep num_threads tid S None (stepped S tid ph' (Thread None [] l) (c_mem (s_core S)))
  | Give r => tstep num_threads tid S (Some (Return tid r)) (stepped S tid Outside (Thread None [] l) (c_mem (s_core S)))
  end.
Proof.
  intros HT Hph Hout Ha Hroom Hp. destruct x as [c ph'|ph'|r]; [intros T' m' Hc|..];
    apply (tstep_move num_threads tid S SPop a ph (Thread None [] l)); try done;
    simpl; destruct ph; try done; rewrite Hp; first [by rewrite Hc|done].
Qed.

(** Between two pointer calls: the method returns, makes a pointer call that brings
    it nearer to its end, or looks at the next node. *)
Lemma next_on b (k : Z) S ph l xs :
  (1 ≤ k < 900)%Z → on b (k + 1) S ph (Thread None [] l) → ph ≠ Outside → ahead (c_mem (s_core S)) ph xs →
  (∃ r S', tstep num_threads tid S (Some (Return tid r)) S' ∧ s_phases S' !! tid = Some Outside) ∨
  (∃ S' b' ph' T', tstep num_threads tid S None S' ∧ on b' k S' ph' T' ∧ ph' ≠ Outside ∧ calls b' ph' < calls b ph) ∨
  (∃ S' ph' ys, tstep num_threads tid S None S' ∧ on b (k + 1) S' ph' (Thread None [] l) ∧ ph' ≠ Outside ∧
     calls b ph' = calls b ph ∧ ahead (c_mem (s_core S')) ph' ys ∧ length ys < length xs).
Proof.
  intros Hk [[A Hsim] Hph HT Hsp Ha] Hout Hx. simpl in Hsp. rewrite Z.add_0_r in Hsp.
  assert (has_room (c_mem (s_core S))) as Hroom by (eapply spare_room; [|exact Hsp]; lia).
  destruct (address_exists (c_mem (s_core S))) as [a Hfa].
  destruct (id Hsim) as [Hi _ Hn (h & Hroot & _) Hth]. destruct (Hth tid _ ph HT Hph) as (st & _ & Hrel).
  destruct (proceed_ok (s_core S) tid l Hi HT Hn h Hroot a ph st Hfa Hout Hrel) as (x & Hp & Hok).
  pose proof (next_tstep S ph l a x HT Hph Hout Hfa Hroom Hp) as Hstep.
  assert (∀ ph', <[tid := ph']> (s_phases S) !! tid = Some ph') as Hphases.
  { intros ph'. apply list_lookup_insert_eq. by eapply lookup_lt_Some. }
  assert (∀ T', <[tid := T']> (c_threads (s_core S)) !! tid = Some T') as Hthreads.
  { intros T'. apply list_lookup_insert_eq. by eapply lookup_lt_Some. }
  destruct x as [c ph'|ph'|r].
  - right; left. destruct Hok as (_ & _ & T' & m' & Hcall & (Hr' & _) & _). specialize (Hstep T' m' Hcall).
    destruct (sim_tstep num_threads S A tid _ _ Hsim Hstep) as (A' & _ & Hsim').
    destruct (aimed_next h b (c_mem (s_core S)) l a ph st c ph' T' m') as (Hne & b' & Hlt & Ha'); try done.
    { intros Hb. destruct (Ha Hb) as (h0 & Hh0 & ?). congruence. }
    exists (stepped S tid ph' T' m'), b', ph', T'. split_and!; try done. constructor; simpl; [by exists A'|done|done| |].
    + unfold call_thread in Hcall. destruct (call c _) as [[[fs o'] [m1 l1]]|] eqn:E; [|done]. injection Hcall as <- <-.
      pose proof (call_spare c (k + 1) _ _ Hsp ltac:(lia) _ _ E) as Hsp'. eapply spare_less; [|exact Hsp'].
      pose proof (incs_one o'). simpl. lia.
    + intros Hb'. exists h. split; [congruence|by apply Ha'].
  - destruct (sim_tstep num_threads S A tid _ _ Hsim Hstep) as (A' & _ & Hsim').
    assert (on b (k + 1) (stepped S tid ph' (Thread None [] l) (c_mem (s_core S))) ph' (Thread None [] l)) as Hon'.
    { constructor; simpl; [by exists A'|done|done|by rewrite Z.add_0_r|]. intros _. exists h. split; [done|].
      destruct (goes_on _ _ _ _ _ _ _ Hx Hp) as [(t & w & -> & ->)|(t & node & n & v & ys & -> & -> & _)]; done. }
    right. destruct (goes_on _ _ _ _ _ _ _ Hx Hp) as [(t & w & -> & ->)|(t & node & n & v & ys & -> & -> & -> & Hys)].
    + left. eexists _, b, (FindLoop t w), (Thread None [] l). split; [exact Hstep|]. split_and!; [|done|unfold calls; simpl; lia].
      destruct Hon'. constructor; try done. eapply spare_less; [|exact Hsp]. simpl. lia.
    + right. eexists _, (FindLoop t n), ys. split_and!; try done; simpl; lia.
  - left. exists r. eexists. split; [exact Hstep|]. apply Hphases.
Qed.

(** From between two pointer calls the thread gets to the end. *)
Lemma method_ends d xs b S ph T :
  d < 800 → calls b ph ≤ d → ph ≠ Outside → on b (2 + Z.of_nat d) S ph T → idle T → ahead (c_mem (s_core S)) ph xs →
  ∃ r S', runs (tstep num_threads tid) S [Return tid r] S' ∧ s_phases S' !! tid = Some Outside.
Proof.
  revert xs b S ph T. induction d as [d IHd] using lt_wf_ind.
  induction xs as [xs IHx] using (induction_ltof1 _ length). unfold ltof in IHx.
  intros b S ph [o stack l] Hd Hcalls Hout Hon [Ho Hst] Hx. simpl in Ho, Hst. subst.
  replace (2 + Z.of_nat d)%Z with (1 + Z.of_nat d + 1)%Z in Hon by lia.
  destruct (next_on b (1 + Z.of_nat d) S ph l xs) as [(r & S' & Hs & Hend)|[(S1 & b' & ph' & T1 & Hs & Hon1 & Hne & Hlt)|
    (S1 & ph' & ys & Hs & Hon1 & Hne & Heq & Hys & Hlen)]]; try done; [lia|..].
  - exists r, S'. split; [|done]. by eapply runs_event; [|constructor].
  - destruct (finish_call b' (1 + Z.of_nat d) S1 ph' T1) as (S2 & T2 & Hr2 & Hon2 & Hid2); [lia|done|].
    destruct (on_ahead _ _ _ _ _ Hon2) as [ys Hys].
    destruct (IHd (d - 1) ltac:(lia) ys b' S2 ph' T2) as (r & S' & Hr & Hend); try done; [lia|lia| |].
    { by replace (2 + Z.of_nat (d - 1))%Z with (1 + Z.of_nat d)%Z by lia. }
    exists r, S'. split; [|done]. eapply runs_silent; [exact Hs|]. by eapply (runs_app _ _ []).
  - destruct (IHx ys Hlen b S1 ph' (Thread None [] l)) as (r & S' & Hr & Hend); try done; [lia| |].
    { by replace (2 + Z.of_nat d)%Z with (1 + Z.of_nat d + 1)%Z by lia. }
    exists r, S'. split; [|done]. by eapply runs_silent.
Qed.

Lemma calls_bound b ph : calls b ph ≤ 9.
Proof. unfold calls. destruct b, ph; simpl; lia. Qed.
End alone.

(** ** The theorem *)

Section theorem.
  Context {V : Type} `{Veq : !EqDecision V} `{Pol : !Policy}.
  Implicit Types (S : stack_state V) (ph : phase V).

(** C4. The stack is obstruction free: from every state that threads which use the
    stack can reach and in which no object has more than 2^30 - 13 references, a
    thread in the middle of a method that makes its steps while all others have
    stopped, wherever they have, returns from it; its retry loops, scans and
    destructors end. *)
Theorem stack_alone_finishes n S tr tid T ph :
  runs (sstep n) (stack_init n) tr S → c_threads (s_core S) !! tid = Some T → s_phases S !! tid = Some ph → ph ≠ Outside → spare 12 (c_mem (s_core S)) →
  ∃ r S', runs (tstep n tid) S [Return tid r] S' ∧ s_phases S' !! tid = Some Outside.
Proof.
  intros Hr HT Hph Hout Hsp. destruct (sim_runs n _ _ _ _ (sim_init n) Hr) as (A & _ & Hsim).
  assert (on tid false 11 S ph T) as Hon.
  { constructor; try done; [by exists A|]. eapply spare_less; [|exact Hsp]. pose proof (incs_one (t_op T)). lia. }
  destruct (finish_call n tid false 11 S ph T) as (S1 & T1 & Hr1 & Hon1 & Hid); [lia|done|].
  destruct (on_ahead _ _ _ _ _ _ Hon1) as [xs Hxs]. pose proof (calls_bound false ph).
  destruct (method_ends n tid 9 xs false S1 ph T1) as (r & S2 & Hr2 & Hend); try done; [lia|].
  exists r, S2. split; [|done]. by eapply (runs_app _ _ []).
Qed.
End theorem.
