(* ===== verification/HpDemos.v ===== *)
(** * Runs of the hazard-pointer machine

    A scheduler that plays a given interleaving and checks on the way that it is
    one of [cstep] ([play_sound]); concrete runs in which the theorems of
    HpProps.v, HpRoom.v and HpBounds.v apply; and the interleaving in which [weak_ptr::lock] makes a
    decrement touch freed memory ([weak_lock_race]). *)

From S2P Require Import Prelude StickyCounter CountedObject MemoryManager AtomicLoc AcquireRetire MarkedPtr HpMachine HpInvariant HpProps HpProgress HpRoom HpBounds.
Local Open Scope nat_scope.

Section player.
  Context {V : Type} `{Pol : !Policy} (num_threads : nat).
  Implicit Types (l : local) (m : mem V) (s : cstate V) (T : thread).

(** *** Executable versions of the conditions on programs *)

Definition null_varb (x : option Z) : bool := match x with Some w => null w | None => false end.
Definition free_snapb (x : option snapshot) : bool :=
  match x with Some (w, None) => null w | _ => false end.
Definition liveb (x : option Z) : bool := match x with Some w => negb (null w) | None => false end.

Definition field_of m (w : Z) (k : nat) : option member :=
  o ← m_heap m !! raw w; v ← storage o; members v !! k.

Definition is_rc (x : option member) : bool := match x with Some (MRc _) => true | _ => false end.
Definition is_atomic_rc (x : option member) : bool :=
  match x with Some (MAtomicRc _) => true | _ => false end.

Definition place_okb m l (c : place) : bool :=
  match c with
  | PRoot i => i <? length (m_roots m)
  | PField s k =>
      liveb (source_word l s) &&
      match source_word l s with Some w => is_atomic_rc (field_of m w k) | None => false end
  end.

Definition rc_member_okb m l (s : source) (k : nat) : bool :=
  match source_word l s with Some w => is_rc (field_of m w k) | None => false end.

Definition unsharedb m l (r : nat) : bool :=
  match l_rcs l !! r ≫= λ w, m_heap m !! raw w with Some o => (ref_cnt o =? 1)%Z | None => true end.

Definition apart (c : place) (r : nat) : bool :=
  match c with PField (SRc r') _ => negb (r' =? r) | _ => true end.

Definition cmd_okb m l (c : cmd (V := V)) : bool :=
  match c with
  | CNew dst a v ks =>
      null_varb (l_rcs l !! dst) && negb (a =? 0)%Z && (a mod 4 =? 0)%Z &&
      bool_decide (m_heap m !! a = None ∧ NoDup (ks.*2) ∧ dst ∉ ks.*2) &&
      forallb (λ k : bool * nat, k.2 <? length (l_rcs l)) ks
  | CCopy dst s => null_varb (l_rcs l !! dst) && bool_decide (is_Some (source_word l s))
  | CCopyField dst s k => null_varb (l_rcs l !! dst) && liveb (source_word l s) && rc_member_okb m l s k
  | CMove dst r => null_varb (l_rcs l !! dst) && negb (dst =? r) && (r <? length (l_rcs l))
  | CDrop r => r <? length (l_rcs l)
  | CLoad dst c => null_varb (l_rcs l !! dst) && place_okb m l c
  | CStore c r | CCasMove c _ r => place_okb m l c && (r <? length (l_rcs l)) && apart c r
  | CStoreNull c => place_okb m l c
  | CStoreSnap c r => place_okb m l c && (r <? length (l_snaps l))
  | CCas c _ s => place_okb m l c && bool_decide (is_Some (source_word l s))
  | CCasField c _ s k => place_okb m l c && liveb (source_word l s) && rc_member_okb m l s k
  | CSnapshot dst c => free_snapb (l_snaps l !! dst) && place_okb m l c
  | CDropSnap r => r <? length (l_snaps l)
  | CSwapSnap r r' => negb (r =? r') && (r <? length (l_snaps l)) && (r' <? length (l_snaps l))
  | CAssignField r k r' =>
      negb (r =? r') && liveb (l_rcs l !! r) && (r' <? length (l_rcs l)) && rc_member_okb m l (SRc r) k &&
      unsharedb m l r
  | CDeref s => liveb (source_word l s)
  | CWeak dst r =>
      (dst <? length (l_weaks l)) && bool_decide (l_weaks l !! dst = Some 0%Z) &&
      bool_decide (is_Some (l_rcs l !! r))
  | CLock dst r => null_varb (l_rcs l !! dst) && (r <? length (l_weaks l))
  | CDropWeak r => r <? length (l_weaks l)
  end.

Lemma null_varb_free l dst : null_varb (l_rcs l !! dst) = true → free_rc l dst.
Proof. unfold free_rc. destruct (l_rcs l !! dst); simpl; [eauto|done]. Qed.

Lemma free_snapb_free l dst : free_snapb (l_snaps l !! dst) = true → free_snap l dst.
Proof. unfold free_snap. destruct (l_snaps l !! dst) as [[w []]|]; simpl; [done|eauto|done]. Qed.

Lemma liveb_live l (x : source) : liveb (source_word l x) = true → live_source l x.
Proof. unfold live_source. destruct (source_word l x); simpl; [|done]. intros ?%negb_true_iff. eauto. Qed.

Lemma apart_ne c r : apart c r = true → ∀ k, c ≠ PField (SRc r) k.
Proof. intros H k ->. simpl in H. by rewrite Nat.eqb_refl in H. Qed.

Lemma is_rc_some x : is_rc x = true → ∃ w, x = Some (MRc w).
Proof. destruct x as [[]|]; simpl; eauto; done. Qed.
Lemma is_atomic_rc_some x : is_atomic_rc x = true → ∃ w, x = Some (MAtomicRc w).
Proof. destruct x as [[]|]; simpl; eauto; done. Qed.

(** A check of a member of the object that a variable refers to. *)
Lemma field_checked m l (z : source) k (f : option member → bool) (P : member → Prop) :
  (∀ x, f x = true → ∃ y, x = Some y ∧ P y) →
  match source_word l z with Some w => f (field_of m w k) | None => false end = true →
  ∀ w o v, source_word l z = Some w → m_heap m !! raw w = Some o → storage o = Some v →
    ∃ y, members v !! k = Some y ∧ P y.
Proof.
  intros Hf H w o v Hw Ho Hv. rewrite Hw in H. apply Hf in H as (y & Hy & HP).
  unfold field_of in Hy. rewrite Ho in Hy. simpl in Hy. rewrite Hv in Hy. eauto.
Qed.

Lemma place_okb_ok m l c : place_okb m l c = true → place_ok m l c.
Proof.
  destruct c as [i|s k]; simpl; [by intros ?%Nat.ltb_lt|]. intros [H1 H2]%andb_true_iff.
  split; [by apply liveb_live|]. intros w o v Hw Ho Hv.
  destruct (field_checked m l s k is_atomic_rc (λ y, ∃ x, y = MAtomicRc x)) with (w := w) (o := o) (v := v)
    as (y & Hy & x & ->); eauto.
  intros z [x Hx]%is_atomic_rc_some. eauto.
Qed.

Lemma rc_member_okb_ok m l (x : source) k : rc_member_okb m l x k = true → rc_member_ok m l x k.
Proof.
  intros H w o v Hw Ho Hv.
  destruct (field_checked m l x k is_rc (λ y, ∃ z, y = MRc z)) with (w := w) (o := o) (v := v)
    as (y & Hy & z & ->); eauto.
  intros y [z Hz]%is_rc_some. eauto.
Qed.

Lemma unsharedb_ok m l r : unsharedb m l r = true → unshared m l r.
Proof. unfold unsharedb. intros H w o Hw Ho. rewrite Hw in H. simpl in H. rewrite Ho in H. by apply Z.eqb_eq. Qed.

Hint Resolve null_varb_free free_snapb_free liveb_live apart_ne place_okb_ok rc_member_okb_ok unsharedb_ok : player.

Lemma cmd_okb_ok m l c : cmd_okb m l c = true → cmd_ok m l c.
Proof.
  destruct c; simpl; intros H;
    repeat match goal with
      | H : _ && _ = true |- _ => apply andb_true_iff in H as [? ?]
      | H : (_ <? _) = true |- _ => apply Nat.ltb_lt in H
      | H : negb (_ =? _) = true |- _ => apply negb_true_iff, Nat.eqb_neq in H
      | H : negb (_ =? _)%Z = true |- _ => apply negb_true_iff, Z.eqb_neq in H
      | H : (_ =? _)%Z = true |- _ => apply Z.eqb_eq in H
      | H : bool_decide _ = true |- _ => apply bool_decide_eq_true in H
      end; split_and?; eauto with player.
  - naive_solver.
  - naive_solver.
  - naive_solver.
  - apply Forall_forall. intros k Hk. apply Nat.ltb_lt.
    by eapply forallb_forall in H0; [|by apply list_elem_of_In].
Qed.

Definition has_roomb m : bool :=
  forallb (λ po : Z * counted_object V,
      bool_decide (can_add cnt_width (ref_cnt po.2) 1) && bool_decide (can_add cnt_width (weak_cnt po.2) 1))
    (map_to_list (m_heap m)).

Lemma has_roomb_ok m : has_roomb m = true → has_room m.
Proof.
  intros H p o Ho. eapply forallb_forall in H.
  2: { apply list_elem_of_In, elem_of_map_to_list. exact Ho. }
  apply andb_true_iff in H as [H1%bool_decide_eq_true H2%bool_decide_eq_true]. done.
Qed.

Definition spareb k m : bool :=
  forallb (λ po : Z * counted_object V,
      (low cnt_width (ref_cnt po.2) + k <? 2 ^ (cnt_width - 2))%Z &&
      bool_decide (can_add cnt_width (weak_cnt po.2) 1)) (map_to_list (m_heap m)).

Lemma spareb_ok k m : spareb k m = true → spare k m.
Proof.
  intros H p o Ho. eapply forallb_forall in H.
  2: { apply list_elem_of_In, elem_of_map_to_list. exact Ho. }
  apply andb_true_iff in H as [H1%Z.ltb_lt H2%bool_decide_eq_true]. done.
Qed.

Definition idleb T : bool := match T with Thread None [] _ => true | _ => false end.

Lemma idleb_spec T : idleb T = true ↔ idle T.
Proof. destruct T as [[o|] [|f stack] l]; unfold idle; simpl; naive_solver. Qed.

(** *** The player *)

(** [Call tid c]: thread [tid] starts the call [c]; [Run tid k]: it executes [k]
    instructions, or as many as its call has left. *)
Inductive action := Call (tid : nat) (c : cmd (V := V)) | Run (tid k : nat).

Definition no_wrapb s : bool := forallb (λ T, l_work (t_local T) + 1 <? 2 ^ 32)%Z (c_threads s).

Lemma no_wrapb_ok s : no_wrapb s = true → no_wrap s.
Proof.
  intros H tid T HT. eapply forallb_forall in H; [|by eapply list_elem_of_In, list_elem_of_lookup_2].
  by apply Z.ltb_lt.
Qed.

Definition play_call (allowedb : cmd → bool) tid c s : option (cstate V) :=
  T ← c_threads s !! tid;
  if no_wrapb s && idleb T && allowedb c && cmd_okb (c_mem s) (t_local T) c then
    match call_thread T (c_mem s) c with
    | Ok (T', m') => Some (CState m' (<[tid := T']> (c_threads s)))
    | Err _ => None
    end
  else None.

Fixpoint play_run tid (k : nat) s : option (cstate V) :=
  match k with
  | O => Some s
  | S k =>
      T ← c_threads s !! tid;
      if idleb T then Some s
      else if no_wrapb s && has_roomb (c_mem s) then
        match run_thread num_threads tid T (c_mem s) with
        | Ok (T', m') => play_run tid k (CState m' (<[tid := T']> (c_threads s)))
        | Err _ => None
        end
      else None
  end.

Fixpoint play (allowedb : cmd → bool) (xs : list action) s : option (cstate V) :=
  match xs with
  | [] => Some s
  | Call tid c :: xs => s' ← play_call allowedb tid c s; play allowedb xs s'
  | Run tid k :: xs => s' ← play_run tid k s; play allowedb xs s'
  end.

Section sound.
  Context (allowedb : cmd (V := V) → bool) (allowed : cmd (V := V) → Prop)
    (Hallowed : ∀ c, allowedb c = true → allowed c).

Lemma play_call_sound tid c s s' :
  play_call allowedb tid c s = Some s' → steady_step num_threads allowed s s'.
Proof.
  unfold play_call. destruct (c_threads s !! tid) as [T|] eqn:HT; simpl; [|done].
  destruct (no_wrapb s) eqn:Hw; simpl; [|done].
  destruct (idleb T) eqn:Hid; simpl; [|done]. destruct (allowedb c) eqn:Hc; simpl; [|done].
  destruct (cmd_okb (c_mem s) (t_local T) c) eqn:Hok; [|done].
  destruct (call_thread T (c_mem s) c) as [[T' m']|] eqn:E; [|done]. intros [= <-].
  split; [by apply no_wrapb_ok|]. eapply cstep_call; eauto using cmd_okb_ok. by apply idleb_spec.
Qed.

Lemma play_run_sound tid k s s' :
  play_run tid k s = Some s' → rtc (steady_step num_threads allowed) s s'.
Proof.
  revert s. induction k as [|k IH]; intros s; simpl; [by intros [= ->]|].
  destruct (c_threads s !! tid) as [T|] eqn:HT; simpl; [|done].
  destruct (idleb T) eqn:Hid; [by intros [= ->]|].
  destruct (no_wrapb s) eqn:Hw; simpl; [|done]. destruct (has_roomb (c_mem s)) eqn:Hroom; [|done].
  destruct (run_thread num_threads tid T (c_mem s)) as [[T' m']|] eqn:E; [|done].
  intros H. eapply rtc_l; [|by apply IH]. split; [by apply no_wrapb_ok|].
  eapply cstep_run; eauto using has_roomb_ok. rewrite <-idleb_spec. by rewrite Hid.
Qed.

(** What is played is a run of the machine. *)
Lemma play_steady xs s s' :
  play allowedb xs s = Some s' → rtc (steady_step num_threads allowed) s s'.
Proof.
  revert s. induction xs as [|[tid c|tid k] xs IH]; intros s; simpl; [by intros [= ->]|..].
  - destruct (play_call allowedb tid c s) as [s1|] eqn:E; simpl; [|done]. intros H.
    eapply rtc_l; [by eapply play_call_sound|by apply IH].
  - destruct (play_run tid k s) as [s1|] eqn:E; simpl; [|done]. intros H.
    etrans; [by eapply play_run_sound|by apply IH].
Qed.

Lemma play_sound xs s s' :
  play allowedb xs s = Some s' → rtc (cstep num_threads allowed) s s'.
Proof. intros H. eapply rtc_subrel; [|by eapply play_steady]. by intros ? ? [_ ?]. Qed.
End sound.

Definition strongb (c : cmd (V := V)) : bool :=
  match c with CWeak _ _ | CLock _ _ | CDropWeak _ => false | _ => true end.

Lemma strongb_strong c : strongb c = true → strong_cmd c.
Proof. by destruct c. Qed.

End player.

Arguments action V : clear implicits.

(** ** Runs *)

Section runs.
Local Existing Instance default_pointer_policy.

(** Thread [tid] makes the call [c] and nobody else interferes. *)
Definition whole_call (tid : nat) (c : cmd (V := nat)) : list (action nat) := [Call tid c; Run tid 200].

Definition both : nat := 2.

(** Two threads, one atomic pointer. *)
Definition start : cstate nat := machine_init both 1 3 2 1.

(** Thread 0 stores a copy of the object in its variable 1 again and again, as
    often as it takes to make a scan due. *)
Definition overwrite (n : nat) : list (action nat) :=
  concat (replicate n (whole_call 0 (CCopy 2 (SRc 1)) ++ whole_call 0 (CStore (PRoot 0) 2))).

(** Thread 1 takes a snapshot of the object at 16; thread 0 replaces it by the
    one at 32, of which thread 1 takes a snapshot too, and runs a scan, which has
    to keep the decrement of the first.  Then thread 0 has read the atomic pointer
    for a snapshot and announced the object when thread 1 clears the pointer. *)
Definition snapshot_run : list (action nat) :=
  whole_call 0 (CNew 0 16%Z 7 []) ++ whole_call 0 (CNew 1 32%Z 8 []) ++
  whole_call 0 (CStore (PRoot 0) 0) ++ whole_call 1 (CSnapshot 0 (PRoot 0)) ++
  overwrite 30 ++ whole_call 1 (CSnapshot 1 (PRoot 0)) ++
  [Call 0 (CSnapshot 0 (PRoot 0)); Run 0 3] ++ whole_call 1 (CStoreNull (PRoot 0)).

(** The state after a run that the machine admits. *)
Definition played (xs : list (action nat)) : cstate nat := default start (play both strongb xs start).

Definition snapshot_state : cstate nat := Eval vm_compute in played snapshot_run.

Lemma played_reachable xs s :
  play both strongb xs start = Some s → rtc (cstep both strong_cmd) start s.
Proof. by apply play_sound, strongb_strong. Qed.

Lemma snapshot_reachable : rtc (cstep both strong_cmd) start snapshot_state.
Proof. apply (played_reachable snapshot_run). vm_compute. reflexivity. Qed.

Definition idle_thread : thread := Thread None [] (new_local 0 0 0).

Definition thread_of (s : cstate nat) (tid : nat) : thread := default idle_thread (c_threads s !! tid).

(** Thread 0 is about to find out that the pointer has changed. *)
Lemma hp_interleaved_safe_witness :
  ∃ T' m', run_thread both 0 (thread_of snapshot_state 0) (c_mem snapshot_state) = Ok (T', m').
Proof.
  destruct (hp_interleaved_safe both 1 3 2 1 snapshot_state 0 (thread_of snapshot_state 0)) as [H _].
  - exact snapshot_reachable.
  - vm_compute. reflexivity.
  - apply H. apply has_roomb_ok. vm_compute. reflexivity.
Defined.

(** The object at 16, whose last decrement the scan has put back. *)
Lemma hp_interleaved_snapshot_witness :
  ∃ o v, m_heap (c_mem snapshot_state) !! raw 16%Z = Some o ∧ storage o = Some v ∧ disposed o = false ∧
    (1 ≤ fst (load cnt_width (ref_cnt o)))%Z.
Proof.
  apply (hp_interleaved_snapshot both 1 3 2 1 snapshot_state 1 (thread_of snapshot_state 1) 0 16%Z (Some 9)).
  - exact snapshot_reachable.
  - vm_compute. reflexivity.
  - vm_compute. reflexivity.
  - vm_compute. discriminate.
Defined.

Definition settled_state : cstate nat := Eval vm_compute in played (snapshot_run ++ [Run 0 200]).

Lemma settled_reachable : rtc (cstep both strong_cmd) start settled_state.
Proof. apply (played_reachable (snapshot_run ++ [Run 0 200])). vm_compute. reflexivity. Qed.

(** The object at 32: a variable, a deferred decrement of each thread. *)
Lemma hp_interleaved_counts_witness :
  match m_heap (c_mem settled_state) !! 32%Z with
  | Some o => ref_cnt o = Z.of_nat (references settled_state 32) ∧ 0 < references settled_state 32 ∧
              is_Some (storage o)
  | None => references settled_state 32 = 0
  end.
Proof.
  apply (hp_interleaved_counts both 1 3 2 1 settled_state 32%Z).
  - exact settled_reachable.
  - intros tid T HT. apply idleb_spec. apply list_elem_of_lookup_2 in HT.
    revert T HT. apply Forall_forall. vm_compute. repeat constructor.
  - discriminate.
Defined.

Lemma hp_interleaved_no_garbage_witness :
  match m_heap (c_mem snapshot_state) !! 16%Z with
  | Some o =>
      (0 < owned snapshot_state 16 ∧ (∀ st, staged snapshot_state 16 st = 0)) ∨
      (owned snapshot_state 16 = 0 ∧
       ∃ st, stage_ok st o ∧ ∀ st', staged snapshot_state 16 st' = one (st' = st))
  | None => False
  end.
Proof.
  destruct (m_heap (c_mem snapshot_state) !! 16%Z) as [o|] eqn:E.
  - exact (hp_interleaved_no_garbage both 1 3 2 1 snapshot_state 16 o snapshot_reachable E).
  - vm_compute in E. discriminate.
Defined.

Lemma hp_interleaved_slots_witness :
  raw 32%Z ≠ 0%Z ∧ m_slots (c_mem snapshot_state) !! 10 = Some (raw 32%Z) ∧
  (∃ j, j < snapshot_slots ∧ 10 = snap_slot 1 j).
Proof.
  destruct (hp_interleaved_slots both 1 3 2 1 snapshot_state 1 (thread_of snapshot_state 1) 1 32%Z 10
              1 (thread_of snapshot_state 1) 1 32%Z) as (H1 & H2 & H3 & _).
  - exact snapshot_reachable.
  - vm_compute. reflexivity.
  - vm_compute. reflexivity.
  - split; [exact H1|]. split; [exact H2|exact H3].
Defined.

(** Thread 0 in the middle of its snapshot, thread 1 stopped. *)
Lemma hp_alone_finishes_witness :
  ∃ s' T', rtc (alone both 0) snapshot_state s' ∧ c_threads s' !! 0 = Some T' ∧ idle T'.
Proof.
  apply (hp_alone_finishes both 1 3 2 1 snapshot_state 0 (thread_of snapshot_state 0)).
  - exact snapshot_reachable.
  - vm_compute. reflexivity.
  - apply spareb_ok. vm_compute. reflexivity.
Defined.

(** ** Deferred actions *)

(** Thread 0 just before the store that makes a round due. *)
Definition waiting_run : list (action nat) :=
  whole_call 0 (CNew 0 16%Z 7 []) ++ whole_call 0 (CNew 1 32%Z 8 []) ++
  whole_call 0 (CStore (PRoot 0) 0) ++ overwrite 29.

Definition waiting_state : cstate nat := Eval vm_compute in played waiting_run.

Lemma hp_deferred_bounded_witness :
  (Z.of_nat (length (l_deferred (t_local (thread_of waiting_state 0)))) <
   Z.max 30 (2 * Z.of_nat both) + 48 * Z.of_nat both)%Z.
Proof.
  apply (hp_deferred_bounded both strong_cmd 1 3 2 1 waiting_state 0 (thread_of waiting_state 0)).
  - apply (play_steady both strongb strong_cmd strongb_strong waiting_run). vm_compute. reflexivity.
  - vm_compute. reflexivity.
  - vm_compute. by split.
Defined.

(** The comment on [eject_delay] promises that a thread holds at most
    [eject_delay * #threads] deferred actions, which is 4 here. *)
Example deferred_exceeds_delay :
  ∃ s T, rtc (cstep both strong_cmd) start s ∧ c_threads s !! 0 = Some T ∧ idle T ∧
    length (l_deferred (t_local T)) = 29.
Proof.
  exists waiting_state, (thread_of waiting_state 0). split_and!; [|by vm_compute..].
  apply (played_reachable waiting_run). vm_compute. reflexivity.
Qed.

(** ** Locking a weak pointer while the last reference goes away *)

Definition any_cmd (c : cmd (V := nat)) : Prop := True.

(** Thread 1 has a [weak_ptr] to the object at 16 and thread 0 drops the last
    reference to it, in a scan.  After the subtraction the counter is 0 without
    the flag, and [lock] makes it 1 again.  Thread 1 drops the [weak_ptr] and the
    [rc_ptr], whose decrement sets the flag, finds no weak reference left and
    frees the object; thread 0 is still before its [compare_exchange_strong]. *)
Definition race_run : list (action nat) :=
  whole_call 0 (CNew 0 16%Z 7 []) ++ whole_call 0 (CNew 1 32%Z 8 []) ++
  whole_call 0 (CStore (PRoot 0) 0) ++ whole_call 1 (CLoad 0 (PRoot 0)) ++
  whole_call 1 (CWeak 0 0) ++ whole_call 1 (CDrop 0) ++
  overwrite 29 ++ whole_call 0 (CCopy 2 (SRc 1)) ++
  [Call 0 (CStore (PRoot 0) 2); Run 0 25] ++
  whole_call 1 (CLock 0 0) ++ whole_call 1 (CDropWeak 0) ++ whole_call 1 (CDrop 0).

Definition race_state : cstate nat :=
  Eval vm_compute in default start (play both (λ _, true) race_run start).

(** C34. There is an interleaving of two threads, one of which locks a
    [weak_ptr] while the other drops the last strong reference, in which the
    next instruction of the second, the [compare_exchange_strong] of
    [StickyCounter::decrement], accesses the object after it has been freed. *)
Theorem weak_lock_race :
  ∃ s T, rtc (cstep (V := nat) both any_cmd) (machine_init both 1 3 2 1) s ∧
    c_threads s !! 0 = Some T ∧ head (t_stack T) = Some (FDec 16 DecCas) ∧
    run_thread both 0 T (c_mem s) = Err UseAfterFree.
Proof.
  exists race_state, (thread_of race_state 0). split.
  - apply (play_sound both (λ _, true) any_cmd) with (xs := race_run); [done|]. vm_compute. reflexivity.
  - vm_compute. done.
Qed.

End runs.
