(* ===== verification/StackDemos.v ===== *)
(** * Runs of the stack

    An executable player for the machine of the stack, with runs in which the
    methods of two threads overlap. *)

From S2P Require Import Prelude StickyCounter CountedObject MemoryManager AtomicLoc AcquireRetire MarkedPtr HpMachine HpInvariant HpRoom StackProgram StackMachine StackSim StackLin StackAlone HpDemos.
Local Open Scope nat_scope.

Section player.
  Context {V : Type} `{Veq : !EqDecision V} `{Pol : !Policy} (num_threads : nat).
  Implicit Types (m : mem V) (S : stack_state V).

(** An address above all objects. *)
Definition unused_address m : Z := (4 * (1 + map_fold (λ p _ x, Z.max p x) 0 (m_heap m)))%Z.

Definition freshb m (a : Z) : bool :=
  negb (a =? 0)%Z && (a mod 4 =? 0)%Z && bool_decide (m_heap m !! a = None).

Lemma freshb_ok m a : freshb m a = true → fresh_address m a.
Proof.
  unfold freshb. rewrite !andb_true_iff, negb_true_iff, Z.eqb_neq, Z.eqb_eq, bool_decide_eq_true.
  intros [[? ?] ?]. done.
Qed.

(** One step of thread [tid], which calls [o] if it is outside. *)
Definition play_move (tid : nat) (o : stack_op V) S : option (option (event V) * stack_state V) :=
  let m := c_mem (s_core S) in
  let a := unused_address m in
  match c_threads (s_core S) !! tid, s_phases S !! tid with
  | Some T, Some ph =>
      if freshb m a && has_roomb m then
        match move num_threads tid o a ph T m with
        | Ok (e, ph', T', m') =>
            Some (e, StackState (CState m' (<[tid := T']> (c_threads (s_core S)))) (<[tid := ph']> (s_phases S)))
        | Err _ => None
        end
      else None
  | _, _ => None
  end.

Definition returned (e : option (event V)) : bool :=
  match e with Some (Return _ _) => true | _ => false end.

(** Thread [tid] calls [o], or goes on with its call, and makes [k] steps, or as
    many as its call has left. *)
Fixpoint play_moves (tid : nat) (o : stack_op V) (k : nat) S : option (list (event V) * stack_state V) :=
  match k with
  | 0 => Some ([], S)
  | Datatypes.S k =>
      '(e, S1) ← play_move tid o S;
      if returned e then Some (option_list e, S1)
      else '(tr, S2) ← play_moves tid o k S1; Some (option_list e ++ tr, S2)
  end.

Fixpoint play_stack (xs : list (nat * stack_op V * nat)) S : option (list (event V) * stack_state V) :=
  match xs with
  | [] => Some ([], S)
  | (tid, o, k) :: xs =>
      '(tr1, S1) ← play_moves tid o k S;
      '(tr2, S2) ← play_stack xs S1;
      Some (tr1 ++ tr2, S2)
  end.

Lemma play_move_sound tid o S e S' : play_move tid o S = Some (e, S') → sstep num_threads S e S'.
Proof.
  unfold play_move. destruct (c_threads (s_core S) !! tid) as [T|] eqn:HT; [|done].
  destruct (s_phases S !! tid) as [ph|] eqn:Hph; [|done].
  destruct (freshb _ _ && has_roomb _) eqn:Hok; [|done]. apply andb_true_iff in Hok as [H1%freshb_ok H2%has_roomb_ok].
  destruct (move _ _ _ _ _ _ _) as [[[[e1 ph'] T'] m']|] eqn:E; [|done]. intros [= <- <-]. exists tid. by eapply tstep_move.
Qed.

Lemma play_moves_sound tid o k S tr S' : play_moves tid o k S = Some (tr, S') → runs (sstep num_threads) S tr S'.
Proof.
  revert S tr. induction k as [|k IH]; intros S tr; simpl; [intros [= <- <-]; constructor|].
  destruct (play_move tid o S) as [[e S1]|] eqn:E1; [|done]. apply play_move_sound, runs_one in E1. simpl.
  destruct (returned e); [by intros [= <- <-]|].
  destruct (play_moves tid o k S1) as [[tr2 S2]|] eqn:E2; [|done]. intros [= <- <-].
  by eapply runs_app; [|apply IH].
Qed.

Lemma play_stack_sound xs S tr S' : play_stack xs S = Some (tr, S') → runs (sstep num_threads) S tr S'.
Proof.
  revert S tr. induction xs as [|[[tid o] k] xs IH]; intros S tr; simpl; [intros [= <- <-]; constructor|].
  destruct (play_moves tid o k S) as [[tr1 S1]|] eqn:E1; [|done]. simpl.
  destruct (play_stack xs S1) as [[tr2 S2]|] eqn:E2; [|done]. intros [= <- <-].
  eapply runs_app; [by eapply play_moves_sound|by apply IH].
Qed.
End player.

Section runs.
Local Existing Instance default_pointer_policy.

Definition pair_start : stack_state nat := stack_init 2.

(** A whole call. *)
Definition all_of : nat := 300.

(** Thread 1 is in [pop_front] with a snapshot of the node 1 when thread 0 pops it
    and pushes 2; its [compare_exchange_strong] fails and it pops 2. *)
Definition retry_plan : list (nat * stack_op nat * nat) :=
  [(0, SPush 1, all_of); (1, SPop, 6); (0, SPop, all_of); (0, SPush 2, all_of); (1, SPop, all_of)].

Definition retry_trace : list (event nat) :=
  [Invoke 0 (SPush 1); Return 0 ResUnit; Invoke 1 SPop; Invoke 0 SPop; Return 0 (ResVal (Some 1));
   Invoke 0 (SPush 2); Return 0 ResUnit; Return 1 (ResVal (Some 2))].

(** Thread 1 is on its way through the list of its snapshot when thread 0 pops all
    of it; it finds what was in the stack. *)
Definition walk_plan : list (nat * stack_op nat * nat) :=
  [(0, SPush 1, all_of); (0, SPush 2, all_of); (0, SPush 3, all_of); (1, SFind 1, 7);
   (0, SPop, all_of); (0, SPop, all_of); (0, SPop, all_of); (0, SPop, all_of); (1, SFind 1, all_of)].

Definition state_of (xs : list (nat * stack_op nat * nat)) : stack_state nat :=
  from_option snd pair_start (play_stack 2 xs pair_start).

Definition retry_state : stack_state nat := Eval vm_compute in state_of retry_plan.
(** Thread 1 is in the middle of [find] and nothing is left in the stack. *)
Definition walk_state : stack_state nat := Eval vm_compute in state_of (take 8 walk_plan).

Example walk_finds :
  fst <$> play_stack 2 walk_plan pair_start =
  Some [Invoke 0 (SPush 1); Return 0 ResUnit; Invoke 0 (SPush 2); Return 0 ResUnit; Invoke 0 (SPush 3);
        Return 0 ResUnit; Invoke 1 (SFind 1); Invoke 0 SPop; Return 0 (ResVal (Some 3)); Invoke 0 SPop;
        Return 0 (ResVal (Some 2)); Invoke 0 SPop; Return 0 (ResVal (Some 1)); Invoke 0 SPop;
        Return 0 (ResVal None); Return 1 (ResBool true)].
Proof. vm_compute. reflexivity. Qed.

Lemma stack_linearizable_witness :
  ∃ A : atomic_state nat, runs astep (atomic_init 2) retry_trace A ∧
    ∃ h, m_roots (c_mem (s_core retry_state)) = [h] ∧ spine (c_mem (s_core retry_state)) h (a_list A).
Proof.
  apply (stack_linearizable 2 retry_state retry_trace). apply (play_stack_sound 2 retry_plan).
  vm_compute. reflexivity.
Defined.

Lemma stack_never_fails_witness :
  ∃ r, move 2 1 (SPush 9) 400 (nth 1 (s_phases walk_state) Outside)
         (nth 1 (c_threads (s_core walk_state)) (Thread None [] (new_local 2 2 0))) (c_mem (s_core walk_state)) = Ok r.
Proof.
  apply (stack_never_fails 2 walk_state (from_option fst [] (play_stack 2 (take 8 walk_plan) pair_start))).
  - apply (play_stack_sound 2 (take 8 walk_plan)). vm_compute. reflexivity.
  - vm_compute. reflexivity.
  - vm_compute. reflexivity.
  - apply freshb_ok. vm_compute. reflexivity.
  - apply has_roomb_ok. vm_compute. reflexivity.
Defined.

(** Thread 1 is in [pop_front] with a snapshot that has been popped. *)
Definition stale_state : stack_state nat := Eval vm_compute in state_of (take 4 retry_plan).

Lemma stack_alone_finishes_witness :
  ∃ r S', runs (tstep 2 1) stale_state [Return 1 r] S' ∧ s_phases S' !! 1 = Some Outside.
Proof.
  apply (stack_alone_finishes 2 stale_state (take 7 retry_trace) 1
    (nth 1 (c_threads (s_core stale_state)) (Thread None [] (new_local 2 2 0))) PopCas).
  - apply (play_stack_sound 2 (take 4 retry_plan)). vm_compute. reflexivity.
  - vm_compute. reflexivity.
  - vm_compute. reflexivity.
  - discriminate.
  - apply spareb_ok. vm_compute. reflexivity.
Defined.
End runs.
