(* ===== verification/Hyaline.v ===== *)
(** * The Hyaline backend
    ([hyaline_tracker], [hyaline_guard] and [acquire_retire_hyaline] of
    src/include/cdrc/internal/smr/acquire_retire_hyaline.h)

    A thread collects what it retires in a batch of nodes; a full batch is
    linked into the list of every thread that is in a critical section, and the
    last of these threads to leave applies the batch.  The nodes are kept in a
    memory of their own, with the two unions of the struct: one word is [refc]
    in the first node of a batch and [bnext] in the others; the other is
    [decrement] there and [next] in the others.  [world] is the rest of the
    program, which [ejectf] (the manager's [eject]) acts on.

    The file ends with the specification of the tracker without nodes and
    reference counts, and the programs of both; HyalineRefine.v proves that the
    tracker implements it. *)

From S2P Require Import Prelude MemoryManager.
Local Open Scope Z_scope.

(** [invptr], and [REFC_PROTECT] *)
Definition invptr : Z := 1.
Definition REFC_PROTECT : Z := Z.shiftl 1 62.
Arguments REFC_PROTECT : simpl never.

(** [int64_t] *)
Definition swrap64 (z : Z) : Z := (z + 2 ^ 63) mod 2 ^ 64 - 2 ^ 63.

Inductive hlink :=
  | LNext (next : Z)
  | LDecrement (ty : RetireType).

Record hnode := HNode { n_obj : Z; n_word : Z; n_link : hlink; n_blink : Z }.

Definition set_word (w : Z) (n : hnode) : hnode := HNode (n_obj n) w (n_link n) (n_blink n).
Definition set_link (l : hlink) (n : hnode) : hnode := HNode (n_obj n) (n_word n) l (n_blink n).
Definition set_blink (b : Z) (n : hnode) : hnode := HNode (n_obj n) (n_word n) (n_link n) b.

Record Batch := MkBatch { b_first : Z; b_refs : Z; b_counter : Z }.

Definition empty_batch : Batch := MkBatch 0 0 0.

(** [batch_size], the template's default *)
Definition batch_size : Z := 2.

Record hyaline (W : Type) := Hyaline {
  nodes : gmap Z hnode;
  rsrv : list Z;
  h_critical : list bool;
  local_batch : list Batch;
  h_in_progress : list bool;
  world : W
}.
Arguments Hyaline {W} _ _ _ _ _ _.
Arguments nodes {W} _.
Arguments rsrv {W} _.
Arguments h_critical {W} _.
Arguments local_batch {W} _.
Arguments h_in_progress {W} _.
Arguments world {W} _.

Section hyaline_defs.
  Context {W : Type} `{!Allocator}.
  Local Abbreviation st := (hyaline W).
  Local Abbreviation M := (M st).

Definition set_nodes (m : gmap Z hnode) (s : st) : st :=
  Hyaline m (rsrv s) (h_critical s) (local_batch s) (h_in_progress s) (world s).
Definition set_rsrv (l : list Z) (s : st) : st :=
  Hyaline (nodes s) l (h_critical s) (local_batch s) (h_in_progress s) (world s).
Definition set_critical (l : list bool) (s : st) : st :=
  Hyaline (nodes s) (rsrv s) l (local_batch s) (h_in_progress s) (world s).
Definition set_batches (l : list Batch) (s : st) : st :=
  Hyaline (nodes s) (rsrv s) (h_critical s) l (h_in_progress s) (world s).
Definition set_h_in_progress (l : list bool) (s : st) : st :=
  Hyaline (nodes s) (rsrv s) (h_critical s) (local_batch s) l (world s).

(** Access to a node. *)
Definition node_at (p : Z) : M hnode :=
  m ← gets nodes;
  if p =? 0 then fail NullDereference
  else match m !! p with Some n => mret n | None => fail UseAfterFree end.

Definition write_node (p : Z) (n : hnode) : M unit := modify (λ s, set_nodes (<[p := n]> (nodes s)) s).
Definition delete_node (p : Z) : M unit := modify (λ s, set_nodes (delete p (nodes s)) s).

(** Reading a member of the second union that was not the last one written. *)
Definition read_next (n : hnode) : M Z :=
  match n_link n with LNext p => mret p | LDecrement _ => fail UseAfterFree end.
Definition read_decrement (n : hnode) : M RetireType :=
  match n_link n with LDecrement ty => mret ty | LNext _ => fail NullDereference end.

(** [refs->refc.fetch_add(k)]: the old value *)
Definition refc_fetch_add (refs : Z) (k : Z) : M Z :=
  n ← node_at refs;
  write_node refs (set_word (swrap64 (n_word n + k)) n);;
  mret (n_word n).

Section tracker.
  Context (ejectf : Z → RetireType → M unit).

(** The [do] loop of [free_batch]; there are no more iterations than nodes. *)
Fixpoint free_loop (fuel : nat) (ty : RetireType) (n : Z) : M unit :=
  match fuel with
  | O => fail OutOfFuel
  | S fuel' =>
      assert_ (negb (n =? invptr));;
      nd ← node_at n;
      ejectf (n_obj nd) ty;;
      delete_node n;;
      if n_word nd =? 0 then mret tt else free_loop fuel' ty (n_word nd)
  end.

Definition free_batch (refs : Z) : M unit :=
  nd ← node_at refs;
  ty ← read_decrement nd;
  fuel ← gets (λ s, size (nodes s));
  free_loop fuel ty (n_blink nd).

(** The loop of [traverse]. *)
Fixpoint traverse (fuel : nat) (next : Z) : M unit :=
  match fuel with
  | O => fail OutOfFuel
  | S fuel' =>
      if next =? 0 then mret tt
      else
        assert_ (negb (next =? invptr));;
        nd ← node_at next;
        next' ← read_next nd;
        old ← refc_fetch_add (n_blink nd) (-1);
        when (old =? 1) (free_batch (n_blink nd));;
        traverse fuel' next'
  end.

Definition hy_begin_critical_section (tid : nat) : M bool :=
  s ← get;
  c ← at_ (h_critical s) tid;
  if c : bool then mret false
  else
    _ ← at_ (rsrv s) tid;
    put (set_critical (<[tid := true]> (h_critical s)) (set_rsrv (<[tid := 0]> (rsrv s)) s));;
    mret true.

Definition hy_end_critical_section (tid : nat) : M unit :=
  s ← get;
  c ← at_ (h_critical s) tid;
  assert_ c;;
  p ← at_ (rsrv s) tid;
  modify (set_rsrv (<[tid := invptr]> (rsrv s)));;
  assert_ (negb (p =? invptr));;
  traverse (S (size (nodes s))) p;;
  modify (λ s, set_critical (<[tid := false]> (h_critical s)) s).

Definition hy_in_critical_section (tid : nat) : M bool :=
  c ← gets h_critical;
  at_ c tid.

(** The [while] loop of [add_batch]: [true] if the node was linked in. *)
Fixpoint link_node (rounds : nat) (i : nat) (curr : Z) : M bool :=
  match rounds with
  | O => fail OutOfFuel
  | S rounds' =>
      r ← gets rsrv;
      prev ← at_ r i;
      if prev =? invptr then mret false
      else
        nd ← node_at curr;
        write_node curr (set_link (LNext prev) nd);;
        r' ← gets rsrv;
        now ← at_ r' i;
        if now =? prev then
          modify (set_rsrv (<[i := curr]> r'));;
          mret true
        else link_node rounds' i curr
  end.

(** The [for] loop of [add_batch] over the threads: the final [cnt]. *)
Fixpoint link_batch (ts : list nat) (curr : Z) (cnt : Z) : M Z :=
  match ts with
  | [] => mret cnt
  | i :: ts' =>
      b ← link_node 1 i curr;
      nd ← node_at curr;
      link_batch ts' (n_word nd) (if b : bool then cnt + 1 else cnt)
  end.

Definition add_batch (batch : Batch) : M unit :=
  nd ← node_at (b_refs batch);
  write_node (b_refs batch) (set_blink (b_first batch) nd);;
  num_threads ← gets (λ s, length (rsrv s));
  cnt ← link_batch (seq 0 num_threads) (b_first batch) (- REFC_PROTECT);
  old ← refc_fetch_add (b_refs batch) cnt;
  when (old =? - cnt) (free_batch (b_refs batch)).

(** ** The manager *)

(** The [while] loop of [retire]. *)
Fixpoint flush_loop (fuel : nat) (tid : nat) : M unit :=
  match fuel with
  | O => fail OutOfFuel
  | S fuel' =>
      s ← get;
      busy ← at_ (h_in_progress s) tid;
      batch ← at_ (local_batch s) tid;
      if negb busy && (batch_size * Z.of_nat (length (local_batch s)) <? b_counter batch) then
        put (set_h_in_progress (<[tid := true]> (h_in_progress s))
              (set_batches (<[tid := MkBatch 0 (b_refs batch) 0]> (local_batch s)) s));;
        add_batch batch;;
        modify (λ s, set_h_in_progress (<[tid := false]> (h_in_progress s)) s);;
        flush_loop fuel' tid
      else mret tt
  end.

Definition hy_retire (fuel : nat) (tid : nat) (p : Z) (type : RetireType) : M unit :=
  if p =? 0 then mret tt
  else
    s ← get;
    batch ← at_ (local_batch s) tid;
    let node := malloc (dom (nodes s)) in
    let '(nd, refs) :=
      if b_first batch =? 0
      then (HNode p REFC_PROTECT (LDecrement type) 0, node)
      else (HNode p (b_first batch) (LNext 0) (b_refs batch), b_refs batch) in
    write_node node nd;;
    modify (λ s, set_batches (<[tid := MkBatch node refs (wrap 64 (b_counter batch + 1))]> (local_batch s)) s);;
    flush_loop fuel tid.

(** The inner loop of the destructor, over the nodes of a batch whose first
    node is [refs]. *)
Fixpoint drain_batch (fuel : nat) (tid : nat) (refs : Z) (node : Z) : M unit :=
  match fuel with
  | O => fail OutOfFuel
  | S fuel' =>
      if node =? 0 then mret tt
      else
        nd ← node_at node;
        ip ← gets h_in_progress;
        modify (set_h_in_progress (<[tid := true]> ip));;
        rnd ← node_at refs;
        ty ← read_decrement rnd;
        ejectf (n_obj nd) ty;;
        modify (λ s, set_h_in_progress (<[tid := false]> (h_in_progress s)) s);;
        delete_node node;;
        if node =? refs then mret tt else drain_batch fuel' tid refs (n_word nd)
  end.

(** The loop [while(local_batch[i].first != nullptr)] of the destructor. *)
Fixpoint drain_thread (fuel : nat) (tid : nat) (i : nat) : M unit :=
  match fuel with
  | O => fail OutOfFuel
  | S fuel' =>
      s ← get;
      batch ← at_ (local_batch s) i;
      if b_first batch =? 0 then mret tt
      else
        put (set_batches (<[i := MkBatch 0 (b_refs batch) 0]> (local_batch s)) s);;
        drain_batch (size (nodes s)) tid (b_refs batch) (b_first batch);;
        drain_thread fuel' tid i
  end.

Fixpoint hy_shutdown (fuel : nat) (tid : nat) : M unit :=
  match fuel with
  | O => fail OutOfFuel
  | S fuel' =>
      n ← gets (λ s, length (local_batch s));
      for_each (λ i, r ← gets rsrv;
                     l ← at_ r i;
                     assert_ (l =? invptr);;
                     drain_thread fuel tid i) (seq 0 n);;
      b ← gets local_batch;
      batch ← at_ b tid;
      if b_first batch =? 0 then mret tt else hy_shutdown fuel' tid
  end.

End tracker.

Definition hyaline_init (num_threads : nat) (w : W) : st :=
  Hyaline ∅ (replicate num_threads invptr) (replicate num_threads false)
    (replicate num_threads empty_batch) (replicate num_threads false) w.

End hyaline_defs.

(** ** Guards *)

Definition hyaline_guard {W} (tid : nat) : M (hyaline W) bool := hy_begin_critical_section tid.
Definition hyaline_guard_destruct {W} ejectf (tid : nat) (engaged : bool) : M (hyaline W) unit :=
  when engaged (hy_end_critical_section ejectf tid).

Definition with_hyaline_guard {W A} ejectf (tid : nat) (f : M (hyaline W) A) : M (hyaline W) A :=
  g ← hyaline_guard tid;
  r ← f;
  hyaline_guard_destruct ejectf tid g;;
  mret r.

(** ** The specification

    Without nodes and counts: the objects each thread collected, with the
    action of the batch; the batches handed over, newest first, each with the
    threads it waits for; and the log of the actions applied. *)

Definition hlog : Type := list (Z * RetireType).

Record pbatch := PBatch { p_objs : list Z; p_ty : RetireType; p_holders : list nat }.

Record hspec := HSpec {
  s_critical : list bool;
  s_local : list (list Z * RetireType);
  s_pending : list pbatch;
  s_log : hlog
}.

Definition batch_log (objs : list Z) (ty : RetireType) : hlog := (λ p, (p, ty)) <$> objs.
Arguments batch_log : simpl never.

(** A thread leaves: the batches that waited for it only are applied. *)
Fixpoint spec_leave (tid : nat) (l : list pbatch) : list pbatch * hlog :=
  match l with
  | [] => ([], [])
  | b :: l' =>
      let '(r, log) := spec_leave tid l' in
      if decide (tid ∈ p_holders b) then
        match filter (λ i, i ≠ tid) (p_holders b) with
        | [] => (r, batch_log (p_objs b) (p_ty b) ++ log)
        | h => (PBatch (p_objs b) (p_ty b) h :: r, log)
        end
      else (b :: r, log)
  end.

Definition spec_begin (tid : nat) (sp : hspec) : hspec :=
  HSpec (<[tid := true]> (s_critical sp)) (s_local sp) (s_pending sp) (s_log sp).

Definition spec_end (tid : nat) (sp : hspec) : hspec :=
  let '(r, log) := spec_leave tid (s_pending sp) in
  HSpec (<[tid := false]> (s_critical sp)) (s_local sp) r (s_log sp ++ log).

(** The threads that are in a critical section. *)
Definition inside (c : list bool) : list nat := filter (λ i, c !! i = Some true) (seq 0 (length c)).

(** A batch is handed over to the threads inside; with nobody inside it is
    applied at once. *)
Definition spec_flush (objs : list Z) (ty : RetireType) (sp : hspec) : hspec :=
  match inside (s_critical sp) with
  | [] => HSpec (s_critical sp) (s_local sp) (s_pending sp) (s_log sp ++ batch_log objs ty)
  | h => HSpec (s_critical sp) (s_local sp) (PBatch objs ty h :: s_pending sp) (s_log sp)
  end.

(** The action of a batch is the one of its first object. *)
Definition spec_retire (tid : nat) (p : Z) (ty : RetireType) (sp : hspec) : hspec :=
  match s_local sp !! tid with
  | None => sp
  | Some (objs, ty0) =>
      let ty1 := match objs with [] => ty | _ => ty0 end in
      if (batch_size * Z.of_nat (length (s_local sp)) <? Z.of_nat (length (p :: objs))) then
        spec_flush (p :: objs) ty1
          (HSpec (s_critical sp) (<[tid := ([], ty1)]> (s_local sp)) (s_pending sp) (s_log sp))
      else HSpec (s_critical sp) (<[tid := (p :: objs, ty1)]> (s_local sp)) (s_pending sp) (s_log sp)
  end.

(** The manager whose [eject] logs the action. *)
Definition log_eject (p : Z) (ty : RetireType) : M (hyaline hlog) unit :=
  modify (λ s, Hyaline (nodes s) (rsrv s) (h_critical s) (local_batch s) (h_in_progress s)
                 (world s ++ [(p, ty)])).

(** ** Programs *)

Inductive hop :=
  | HBegin (tid : nat)
  | HEnd (tid : nat)
  | HRetire (tid : nat) (p : Z) (ty : RetireType).

Section hyaline_programs.
  Context `{Alloc : !Allocator}.

Definition hexec (o : hop) : M (hyaline hlog) unit :=
  match o with
  | HBegin tid => hy_begin_critical_section tid;; mret tt
  | HEnd tid => hy_end_critical_section log_eject tid
  | HRetire tid p ty => hy_retire log_eject 2 tid p ty
  end.

Fixpoint hrun (prog : list hop) : M (hyaline hlog) unit :=
  match prog with
  | [] => mret tt
  | o :: prog' => hexec o;; hrun prog'
  end.

(** Entering again while inside does nothing. *)
Definition spec_step (o : hop) (sp : hspec) : hspec :=
  match o with
  | HBegin tid => if decide (s_critical sp !! tid = Some true) then sp else spec_begin tid sp
  | HEnd tid => spec_end tid sp
  | HRetire tid p ty => spec_retire tid p ty sp
  end.

Fixpoint spec_run (prog : list hop) (sp : hspec) : hspec :=
  match prog with
  | [] => sp
  | o :: prog' => spec_run prog' (spec_step o sp)
  end.

(** The calls a program may make: ids in range, a thread leaves only when it is
    inside, and no null pointer is retired. *)
Definition hop_ok (n : nat) (sp : hspec) (o : hop) : Prop :=
  match o with
  | HBegin tid => (tid < n)%nat
  | HEnd tid => s_critical sp !! tid = Some true
  | HRetire tid p ty => (tid < n)%nat ∧ p ≠ 0
  end.

Fixpoint hprog_ok (n : nat) (sp : hspec) (prog : list hop) : Prop :=
  match prog with
  | [] => True
  | o :: prog' => hop_ok n sp o ∧ hprog_ok n (spec_step o sp) prog'
  end.

#[export] Instance hprog_ok_dec n sp prog : Decision (hprog_ok n sp prog).
Proof.
  revert sp. induction prog as [|o prog IH]; intros sp; simpl; [left; done|].
  refine (and_dec _ _). destruct o; simpl; apply _.
Defined.

Definition spec_init (n : nat) : hspec :=
  HSpec (replicate n false) (replicate n ([], decrement_strong_count)) [] [].

(** What was retired and is applied, handed over, or collected. *)
Definition outstanding (sp : hspec) : list Z :=
  (fst <$> s_log sp) ++ concat (map p_objs (s_pending sp)) ++ concat (map fst (s_local sp)).

Definition retired (prog : list hop) : list Z :=
  omap (λ o, match o with HRetire _ p _ => Some p | _ => None end) prog.

End hyaline_programs.
