(* ===== verification/HyalineRefine.v ===== *)
(** * Hyaline implements its specification

    The memory of the tracker of Hyaline.v is described by the batches it holds:
    the chain of nodes of each batch, the counter in its first node, and the
    list of each thread.  Every operation keeps the description and does what
    the specification does; the theorems at the end are about whole programs of
    threads that enter, leave and retire. *)

From S2P Require Import Prelude MemoryManager Hyaline.
Local Open Scope Z_scope.

(** ** Batches in memory *)

(** The nodes of a batch: the others and the first one. *)
Record gbatch := GBatch { g_slots : list Z; g_refs : Z }.

Definition nodes_of (g : gbatch) : list Z := g_slots g ++ [g_refs g].
Definition g_first (g : gbatch) : Z := hd (g_refs g) (g_slots g).

Implicit Types (m : gmap Z hnode) (g : gbatch) (b : pbatch).

Fixpoint slot_chain m (slots : list Z) (refs : Z) (ro : Z) (objs : list Z) : Prop :=
  match slots, objs with
  | [], [o] => o = ro
  | n :: slots', o :: objs' =>
      (∃ lk, m !! n = Some (HNode o (hd refs slots') lk refs)) ∧ slot_chain m slots' refs ro objs'
  | _, _ => False
  end.

Record pbatch_ok m g b : Prop := {
  pb_node : ∃ ro, m !! g_refs g =
      Some (HNode ro (Z.of_nat (length (p_holders b))) (LDecrement (p_ty b)) (g_first g)) ∧
    slot_chain m (g_slots g) (g_refs g) ro (p_objs b);
  pb_nodup : NoDup (p_holders b);
  pb_some : p_holders b ≠ [];
  pb_range i : i ∈ p_holders b → (i < length (g_slots g))%nat
}.

(** The list of a thread. *)
Fixpoint rlist m (p : Z) (l : list Z) : Prop :=
  match l with
  | [] => p = 0
  | n :: l' => p = n ∧ ∃ nd nx, m !! n = Some nd ∧ n_link nd = LNext nx ∧ rlist m nx l'
  end.

Definition my_slot (i : nat) (x : gbatch * pbatch) : option Z :=
  if decide (i ∈ p_holders (snd x)) then g_slots (fst x) !! i else None.
Definition slots_of (i : nat) (G : list (gbatch * pbatch)) : list Z := omap (my_slot i) G.

Arguments slots_of : simpl never.

(** The batch a thread is collecting. *)
Definition local_ok m (bt : Batch) (lg : option gbatch) (o : list Z * RetireType) : Prop :=
  match lg with
  | None => fst o = [] ∧ b_first bt = 0 ∧ b_counter bt = 0
  | Some g =>
      (∃ ro, m !! g_refs g = Some (HNode ro REFC_PROTECT (LDecrement (snd o)) 0) ∧
             slot_chain m (g_slots g) (g_refs g) ro (fst o)) ∧
      b_first bt = g_first g ∧ b_refs bt = g_refs g ∧ b_counter bt = Z.of_nat (length (fst o))
  end.

Definition pend_nodes (G : list (gbatch * pbatch)) : list Z := concat (map (λ x, nodes_of (fst x)) G).
Definition local_nodes (L : list (option gbatch)) : list Z :=
  concat (map (λ lg, match lg with Some g => nodes_of g | None => [] end) L).

(** The memory of the tracker holds the batches [G] and [L] and the nodes [N]
    of a batch that is being worked on; the list of the thread [skip], if any,
    is not looked at. *)
Record mem_ok (skip : option nat) (N : list Z) (G : list (gbatch * pbatch)) (L : list (option gbatch))
    (locs : list (list Z * RetireType)) (s : hyaline hlog) : Prop := {
  mo_nodup : NoDup (N ++ pend_nodes G ++ local_nodes L);
  mo_dom p : is_Some (nodes s !! p) ↔ p ∈ N ++ pend_nodes G ++ local_nodes L;
  mo_addr p : p ∈ N ++ pend_nodes G ++ local_nodes L → p ≠ 0 ∧ p ≠ invptr;
  mo_batches g b : (g, b) ∈ G → pbatch_ok (nodes s) g b;
  mo_holders g b i : (g, b) ∈ G → i ∈ p_holders b → h_critical s !! i = Some true;
  mo_lists i r : Some i ≠ skip → rsrv s !! i = Some r →
    match h_critical s !! i with
    | Some true => rlist (nodes s) r (slots_of i G)
    | _ => r = invptr
    end;
  mo_locals i bt lg o : local_batch s !! i = Some bt → L !! i = Some lg → locs !! i = Some o →
    local_ok (nodes s) bt lg o
}.

Record hrel (sp : hspec) (s : hyaline hlog) : Prop := {
  hr_mem : ∃ G L, snd <$> G = s_pending sp ∧ length L = length (rsrv s) ∧ mem_ok None [] G L (s_local sp) s;
  hr_critical : h_critical s = s_critical sp;
  hr_log : world s = s_log sp;
  hr_len_critical : length (h_critical s) = length (rsrv s);
  hr_len_batch : length (local_batch s) = length (rsrv s);
  hr_len_local : length (s_local sp) = length (rsrv s);
  hr_len_progress : length (h_in_progress s) = length (rsrv s);
  hr_idle i c : h_in_progress s !! i = Some c → c = false;
  hr_small i objs ty : s_local sp !! i = Some (objs, ty) → Z.of_nat (length objs) ≤ batch_size * Z.of_nat (length (rsrv s))
}.

(** ** Frames *)

Lemma slot_chain_agree m m' slots refs ro objs :
  (∀ p, p ∈ slots → m' !! p = m !! p) → slot_chain m slots refs ro objs → slot_chain m' slots refs ro objs.
Proof.
  revert objs. induction slots as [|n slots IH]; intros [|o objs] Hag; simpl; try done.
  intros [[lk Hn] Hc]. split; [exists lk; rewrite Hag; [done|by left]|]. apply IH; [|done].
  intros p Hp. apply Hag. by right.
Qed.

Lemma pbatch_ok_agree m m' g b :
  (∀ p, p ∈ nodes_of g → m' !! p = m !! p) → pbatch_ok m g b → pbatch_ok m' g b.
Proof.
  intros Hag [(ro & Hr & Hc) H1 H2 H3]. split; [|done..]. exists ro. unfold nodes_of in Hag.
  rewrite Hag by (apply elem_of_app; right; by left). split; [done|].
  eapply slot_chain_agree; [|done]. intros p Hp. apply Hag, elem_of_app. by left.
Qed.

Lemma rlist_agree m m' p l : (∀ q, q ∈ l → m' !! q = m !! q) → rlist m p l → rlist m' p l.
Proof.
  revert p. induction l as [|n l IH]; intros p Hag; simpl; [done|].
  intros [-> (nd & nx & Hn & Hl & Hr)]. split; [done|]. exists nd, nx. rewrite Hag by (by left).
  split; [done|]. split; [done|]. apply IH; [|done]. intros q Hq. apply Hag. by right.
Qed.

Lemma local_ok_agree m m' bt lg o :
  (∀ p g, lg = Some g → p ∈ nodes_of g → m' !! p = m !! p) → local_ok m bt lg o → local_ok m' bt lg o.
Proof.
  destruct lg as [g|]; [|done]. intros Hag [(ro & Hr & Hc) H]. split; [|done]. exists ro.
  unfold nodes_of in Hag. rewrite (Hag _ g) by (done || (apply elem_of_app; right; by left)). split; [done|].
  eapply slot_chain_agree; [|done]. intros p Hp. apply (Hag _ g); [done|]. apply elem_of_app. by left.
Qed.

Lemma slots_of_nodes i G p : p ∈ slots_of i G → ∃ g b, (g, b) ∈ G ∧ i ∈ p_holders b ∧ g_slots g !! i = Some p.
Proof.
  unfold slots_of. rewrite list_elem_of_omap. intros ([g b] & Hin & Hs). unfold my_slot in Hs. simpl in Hs.
  case_decide; [|done]. eauto.
Qed.

Lemma pend_nodes_elem G p : p ∈ pend_nodes G ↔ ∃ g b, (g, b) ∈ G ∧ p ∈ nodes_of g.
Proof.
  unfold pend_nodes. induction G as [|[g b] G IH]; simpl.
  - split; [by intros ?%elem_of_nil|]. by intros (? & ? & ?%elem_of_nil & _).
  - rewrite elem_of_app, IH. setoid_rewrite elem_of_cons. split.
    + intros [?|(g' & b' & ? & ?)]; [by exists g, b; auto|]. exists g', b'. auto.
    + intros (g' & b' & [?|?] & ?); [simplify_eq; by left|]. right. eauto.
Qed.

Lemma local_nodes_elem L p : p ∈ local_nodes L ↔ ∃ g, Some g ∈ L ∧ p ∈ nodes_of g.
Proof.
  unfold local_nodes. induction L as [|lg L IH]; simpl.
  - split; [by intros ?%elem_of_nil|]. by intros (? & ?%elem_of_nil & _).
  - rewrite elem_of_app, IH. setoid_rewrite elem_of_cons. split.
    + intros [Hp|(g' & ? & ?)]; [|by eauto]. destruct lg as [g|]; [by eauto|by apply elem_of_nil in Hp].
    + intros (g' & [<-|?] & ?); [by left|]. right. eauto.
Qed.

Lemma pend_nodes_middle G1 x G2 : pend_nodes (G1 ++ x :: G2) ≡ₚ nodes_of (fst x) ++ pend_nodes (G1 ++ G2).
Proof.
  unfold pend_nodes. rewrite !map_app, !concat_app. simpl. rewrite !app_assoc. f_equiv. apply Permutation_app_comm.
Qed.

(** ** Applying a batch *)

Lemma length_le_size m (l : list Z) : NoDup l → (∀ p, p ∈ l → is_Some (m !! p)) → (length l ≤ size m)%nat.
Proof.
  intros Hnd Hin. rewrite <-(size_dom (D := gset Z)), <-(size_list_to_set (C := gset Z) l Hnd).
  apply subseteq_size. intros p Hp%elem_of_list_to_set. by apply elem_of_dom, Hin.
Qed.

Lemma wp_node_at {W} (p : Z) nd (Q : hnode → hyaline W → Prop) s :
  p ≠ 0 → nodes s !! p = Some nd → Q nd s → wp (node_at p) Q s.
Proof.
  intros Hp Hn HQ. unfold node_at. wp_step. wp_step. rewrite (proj2 (Z.eqb_neq _ _) Hp), Hn. by wp_step.
Qed.

(** The state after the nodes [l] are deleted and [log] is applied. *)
Definition freed (l : list Z) (log : hlog) (s s' : hyaline hlog) : Prop :=
  (∀ p, nodes s' !! p = if decide (p ∈ l) then None else nodes s !! p) ∧
  rsrv s' = rsrv s ∧ h_critical s' = h_critical s ∧ local_batch s' = local_batch s ∧
  h_in_progress s' = h_in_progress s ∧ world s' = world s ++ log.

Lemma freed_app l1 l2 log1 log2 s s1 s2 :
  freed l1 log1 s s1 → freed l2 log2 s1 s2 → freed (l1 ++ l2) (log1 ++ log2) s s2.
Proof.
  intros (Hm1 & ? & ? & ? & ? & Hw1) (Hm2 & ? & ? & ? & ? & Hw2). split_and!; try congruence.
  - intros p. rewrite Hm2, Hm1. repeat case_decide; try done; set_solver.
  - by rewrite Hw2, Hw1, <-app_assoc.
Qed.

(** One node deleted and its action applied. *)
Lemma freed_one n o ty s :
  freed [n] [(o, ty)] s (Hyaline (delete n (nodes s)) (rsrv s) (h_critical s) (local_batch s)
                           (h_in_progress s) (world s ++ [(o, ty)])).
Proof.
  split_and!; try done. intros p. simpl. rewrite lookup_delete.
  repeat case_decide; try done; set_solver.
Qed.

Lemma free_loop_ok fuel ty slots refs ro objs lk bl (s : hyaline hlog) :
  (length slots < fuel)%nat → NoDup (slots ++ [refs]) →
  (∀ p, p ∈ slots ++ [refs] → p ≠ 0 ∧ p ≠ invptr) →
  slot_chain (nodes s) slots refs ro objs → nodes s !! refs = Some (HNode ro 0 lk bl) →
  wp (free_loop log_eject fuel ty (hd refs slots)) (λ _ s', freed (slots ++ [refs]) (batch_log objs ty) s s') s.
Proof.
  revert objs fuel s. induction slots as [|n slots IH]; intros objs [|fuel] s Hf Hnd Hne Hc Hr; simpl in Hf; try lia.
  - destruct objs as [|o [|]]; simpl in Hc; try done. subst o. simpl.
    destruct (Hne refs) as [H0 H1]; [by left|].
    wp_step. wp_step; [by apply negb_true_iff, Z.eqb_neq|]. wp_step. eapply wp_node_at; [done..|].
    unfold log_eject, delete_node. wp_step. wp_step. wp_step. wp_step. simpl. wp_step.
    apply freed_one.
  - destruct objs as [|o objs]; simpl in Hc; try done. destruct Hc as [[lk' Hn] Hc]. simpl.
    destruct (Hne n) as [H0 H1]; [by left|].
    simpl in Hnd. apply NoDup_cons in Hnd as [Hni Hnd].
    wp_step. wp_step; [by apply negb_true_iff, Z.eqb_neq|]. wp_step. eapply wp_node_at; [done..|].
    unfold log_eject, delete_node. wp_step. wp_step. wp_step. wp_step. simpl.
    assert (hd refs slots ∈ slots ++ [refs]) as Hhd by (destruct slots; by left).
    destruct (Hne (hd refs slots)) as [Hh0 _]; [by right|]. rewrite (proj2 (Z.eqb_neq _ _) Hh0).
    set (s1 := set_nodes _ _).
    assert (∀ p, p ∈ slots ++ [refs] → nodes s1 !! p = nodes s !! p) as Hag.
    { intros p Hp. simpl. rewrite lookup_delete_ne; [done|]. congruence. }
    eapply wp_mono; [apply (IH objs fuel s1)|].
    + lia.
    + done.
    + intros p Hp. apply Hne. by right.
    + eapply slot_chain_agree; [|done]. intros p Hp. apply Hag, elem_of_app. by left.
    + rewrite Hag; [done|]. apply elem_of_app. right. by left.
    + intros u s' Hfr. exact (freed_app [n] _ [(o, ty)] _ s s1 s' (freed_one n o ty s) Hfr).
Qed.

Lemma free_batch_ok g ro ty objs (s : hyaline hlog) :
  NoDup (nodes_of g) → (∀ p, p ∈ nodes_of g → is_Some (nodes s !! p) ∧ p ≠ 0 ∧ p ≠ invptr) →
  slot_chain (nodes s) (g_slots g) (g_refs g) ro objs →
  nodes s !! g_refs g = Some (HNode ro 0 (LDecrement ty) (g_first g)) →
  wp (free_batch log_eject (g_refs g)) (λ _ s', freed (nodes_of g) (batch_log objs ty) s s') s.
Proof.
  intros Hnd Hin Hc Hr. unfold free_batch.
  assert (g_refs g ∈ nodes_of g) as Href by (apply elem_of_app; right; by left).
  destruct (Hin _ Href) as (_ & H0 & _).
  wp_step. eapply wp_node_at; [done..|]. wp_step. unfold read_decrement. simpl. wp_step. wp_step. wp_step.
  pose proof (length_le_size (nodes s) (nodes_of g) Hnd (λ p Hp, proj1 (Hin p Hp))) as Hsz.
  unfold nodes_of in Hsz. rewrite length_app in Hsz. simpl in Hsz.
  eapply free_loop_ok; [lia|done| |done|done]. intros p Hp. by destruct (Hin p Hp) as (_ & ? & ?).
Qed.

(** ** Leaving *)

(** Changing the count of a batch: [b'] waits for fewer threads, not for
    [tid]. *)
Lemma mem_ok_recount tid G1 g b b' G2 L locs s ro :
  mem_ok (Some tid) [] (G1 ++ (g, b) :: G2) L locs s →
  p_objs b' = p_objs b → p_ty b' = p_ty b →
  p_holders b' = filter (λ i, i ≠ tid) (p_holders b) → p_holders b' ≠ [] →
  nodes s !! g_refs g = Some (HNode ro (Z.of_nat (length (p_holders b))) (LDecrement (p_ty b)) (g_first g)) →
  slot_chain (nodes s) (g_slots g) (g_refs g) ro (p_objs b) →
  mem_ok (Some tid) [] (G1 ++ (g, b') :: G2) L locs
    (set_nodes (<[g_refs g := HNode ro (Z.of_nat (length (p_holders b'))) (LDecrement (p_ty b)) (g_first g)]> (nodes s)) s).
Proof.
  intros [Hnd Hdom Haddr Hb Hh Hl Hloc] Ho Hty Hhold Hne Hr Hc. simpl in Hnd, Hdom, Haddr.
  assert (pend_nodes (G1 ++ (g, b') :: G2) = pend_nodes (G1 ++ (g, b) :: G2)) as Hpn.
  { unfold pend_nodes. rewrite !map_app. done. }
  set (m' := <[_ := _]> (nodes s)).
  pose proof Hnd as Hnd'. rewrite pend_nodes_middle in Hnd'. simpl in Hnd'. rewrite <-app_assoc in Hnd'.
  apply NoDup_app in Hnd' as (Hndg & Hdis & _).
  assert (g_refs g ∈ nodes_of g) as Href by (apply elem_of_app; right; by left).
  assert (∀ p, p ∉ nodes_of g ∨ p ∈ g_slots g → m' !! p = nodes s !! p) as Hag.
  { intros p Hp. unfold m'. rewrite lookup_insert_ne; [done|]. intros <-. destruct Hp as [?|Hp]; [done|].
    unfold nodes_of in Hndg. apply NoDup_app in Hndg as (_ & Hx & _). apply (Hx _ Hp). by left. }
  assert (∀ g0 b0, (g0, b0) ∈ G1 ++ G2 → ∀ p, p ∈ nodes_of g0 → p ∉ nodes_of g) as Hother.
  { intros g0 b0 Hin p Hp Hp'. apply (Hdis p Hp'), elem_of_app. left. apply pend_nodes_elem. eauto. }
  assert (∀ g0 b0, (g0, b0) ∈ G1 ++ (g, b') :: G2 → (g0, b0) = (g, b') ∨ (g0, b0) ∈ G1 ++ G2) as Hsplit.
  { intros g0 b0. rewrite !elem_of_app, elem_of_cons. tauto. }
  assert (∀ g0 b0, (g0, b0) ∈ G1 ++ G2 → (g0, b0) ∈ G1 ++ (g, b) :: G2) as Hin0.
  { intros g0 b0. rewrite !elem_of_app, elem_of_cons. tauto. }
  destruct (Hb g b) as [_ Hndh Hsome Hrange]; [by apply elem_of_app; right; left|].
  split; simpl; rewrite ?Hpn; try done.
  - intros p. rewrite <-Hdom. unfold m'. rewrite lookup_insert. case_decide; [subst p|done].
    rewrite Hr. split; eauto.
  - intros g0 b0 [[= -> ->]|Hin]%Hsplit.
    + split; [|rewrite Hhold; by apply NoDup_filter|done|].
      * exists ro. unfold m'. rewrite lookup_insert_eq, Hty, Ho. split; [done|].
        eapply slot_chain_agree; [|done]. intros p Hp. apply Hag. by right.
      * intros i. rewrite Hhold, list_elem_of_filter. intros [_ ?]. auto.
    + eapply pbatch_ok_agree; [|by apply Hb, Hin0]. intros p Hp. apply Hag. left. by eapply Hother.
  - intros g0 b0 i [[= -> ->]|Hin]%Hsplit Hi.
    + rewrite Hhold, list_elem_of_filter in Hi. eapply (Hh g b); [by apply elem_of_app; right; left|apply Hi].
    + eapply Hh; [by apply Hin0|done].
  - intros i r Hi Hri. specialize (Hl i r Hi Hri). destruct (h_critical s !! i) as [[]|]; try done.
    assert (slots_of i (G1 ++ (g, b') :: G2) = slots_of i (G1 ++ (g, b) :: G2)) as ->.
    { unfold slots_of. rewrite !omap_app. simpl. f_equal. unfold my_slot. simpl.
      destruct (decide (i ∈ p_holders b')) as [Hib|Hib], (decide (i ∈ p_holders b)) as [Hib'|Hib']; try done;
        rewrite Hhold, list_elem_of_filter in Hib; naive_solver congruence. }
    eapply rlist_agree; [|done]. intros q (g0 & b0 & Hin & Hih & Hq)%slots_of_nodes.
    apply list_elem_of_lookup_2 in Hq. apply Hag.
    rewrite elem_of_app, elem_of_cons in Hin. destruct Hin as [Hin|[[= -> ->]|Hin]]; [left|by right|left];
      (eapply Hother; [apply elem_of_app; eauto|apply elem_of_app; by left]).
  - intros i bt lg o H1 H2 H3. eapply local_ok_agree; [|by eapply Hloc]. intros p g0 -> Hp. apply Hag. left.
    intros Hp'. apply (Hdis p Hp'), elem_of_app. right. apply local_nodes_elem. exists g0. split; [|done].
    by eapply list_elem_of_lookup_2.
Qed.

(** Taking a batch that waits for nobody else out of the lists. *)
Lemma mem_ok_take tid G1 g b G2 L locs s :
  mem_ok (Some tid) [] (G1 ++ (g, b) :: G2) L locs s → (∀ i, i ∈ p_holders b → i = tid) →
  mem_ok (Some tid) (nodes_of g) (G1 ++ G2) L locs s.
Proof.
  intros [Hnd Hdom Haddr Hb Hh Hl Hloc] Hhold. simpl in Hnd, Hdom, Haddr.
  assert (pend_nodes (G1 ++ (g, b) :: G2) ++ local_nodes L ≡ₚ nodes_of g ++ pend_nodes (G1 ++ G2) ++ local_nodes L) as Hp
    by (rewrite pend_nodes_middle; simpl; by rewrite app_assoc).
  assert (∀ g0 b0, (g0, b0) ∈ G1 ++ G2 → (g0, b0) ∈ G1 ++ (g, b) :: G2) as Hin0.
  { intros g0 b0. rewrite !elem_of_app, elem_of_cons. tauto. }
  split; [by rewrite <-Hp|intros p; by rewrite <-Hp|intros p; rewrite <-Hp; apply Haddr|..].
  - intros g0 b0 Hin. by apply Hb, Hin0.
  - intros g0 b0 i Hin. by apply (Hh g0), Hin0.
  - intros i r Hi Hr. specialize (Hl i r Hi Hr). destruct (h_critical s !! i) as [[]|]; try done.
    replace (slots_of i (G1 ++ G2)) with (slots_of i (G1 ++ (g, b) :: G2)); [done|].
    unfold slots_of. rewrite !omap_app. simpl. f_equal. unfold my_slot at 1. simpl.
    rewrite decide_False; [done|]. intros ->%Hhold. done.
  - done.
Qed.

(** Deleting the nodes of the batch that is worked on. *)
(** Nodes of the batch that is worked on are deleted. *)
Lemma mem_ok_freed_part skip l N G L locs log s s' :
  mem_ok skip (l ++ N) G L locs s → freed l log s s' → mem_ok skip N G L locs s'.
Proof.
  intros [Hnd Hdom Haddr Hb Hh Hl Hloc] (Hm & Hr & Hcr & Hbt & _ & _).
  setoid_rewrite <-app_assoc in Hdom. setoid_rewrite <-app_assoc in Haddr. rewrite <-app_assoc in Hnd.
  apply NoDup_app in Hnd as (_ & Hdis & Hnd).
  assert (∀ p, p ∈ N ++ pend_nodes G ++ local_nodes L → nodes s' !! p = nodes s !! p) as Hag'.
  { intros p Hp. rewrite Hm, decide_False; [done|]. intros Hp'. by apply (Hdis p Hp'). }
  assert (∀ p, p ∈ pend_nodes G ++ local_nodes L → nodes s' !! p = nodes s !! p) as Hag
    by (intros p Hp; apply Hag', elem_of_app; by right).
  split; simpl; [done| |intros p Hp; apply Haddr, elem_of_app; by right|..].
  - intros p. split.
    + intros Hp. rewrite Hm in Hp. case_decide; [by destruct Hp|]. apply Hdom, elem_of_app in Hp as [?|?]; done.
    + intros Hp. rewrite Hag' by done. apply Hdom, elem_of_app. by right.
  - intros g b Hin. eapply pbatch_ok_agree; [|by apply Hb]. intros p Hp. apply Hag, elem_of_app. left.
    apply pend_nodes_elem. eauto.
  - intros g b i Hin. rewrite Hcr. by eapply Hh.
  - rewrite Hr, Hcr. intros i r Hi Hri. specialize (Hl i r Hi Hri). destruct (h_critical s !! i) as [[]|]; try done.
    eapply rlist_agree; [|done]. intros q (g & b & Hin & _ & Hq)%slots_of_nodes. apply Hag, elem_of_app. left.
    apply pend_nodes_elem. exists g, b. split; [done|]. apply elem_of_app. left. by eapply list_elem_of_lookup_2.
  - rewrite Hbt. intros i bt lg o H1 H2 H3. eapply local_ok_agree; [|by eapply Hloc]. intros p g -> Hp.
    apply Hag, elem_of_app. right. apply local_nodes_elem. exists g. split; [|done]. by eapply list_elem_of_lookup_2.
Qed.

Lemma mem_ok_freed skip N G L locs log s s' :
  mem_ok skip N G L locs s → freed N log s s' → mem_ok skip [] G L locs s'.
Proof. intros Hm. eapply mem_ok_freed_part. by rewrite app_nil_r. Qed.

Lemma spec_leave_app tid G1 G2 :
  spec_leave tid (G1 ++ G2) =
  let '(r1, l1) := spec_leave tid G1 in let '(r2, l2) := spec_leave tid G2 in (r1 ++ r2, l1 ++ l2).
Proof.
  induction G1 as [|b G1 IH]; simpl.
  { by destruct (spec_leave tid G2). }
  rewrite IH. destruct (spec_leave tid G1) as [r1 l1], (spec_leave tid G2) as [r2 l2].
  case_decide; [|done]. destruct (filter _ _); [by rewrite app_assoc|done].
Qed.

Lemma length_filter_ne tid (l : list nat) :
  NoDup l → tid ∈ l → length l = S (length (filter (λ i, i ≠ tid) l)).
Proof.
  induction 1 as [|i l Hi Hnd IH]; [by intros ?%elem_of_nil|].
  intros [->|Hin]%elem_of_cons.
  - rewrite filter_cons_False by tauto. simpl. f_equal.
    assert (filter (λ j, j ≠ i) l = l) as ->; [|done].
    clear -Hi. induction l as [|j l IH]; [done|]. rewrite filter_cons_True.
    + f_equal. apply IH. intros ?. apply Hi. by right.
    + intros ->. apply Hi. by left.
  - rewrite filter_cons_True by congruence. simpl. rewrite <-IH; done.
Qed.

Lemma swrap64_small z : - 2 ^ 63 ≤ z < 2 ^ 63 → swrap64 z = z.
Proof. intros Hz. unfold swrap64. rewrite Z.mod_small; lia. Qed.

Lemma slot_chain_lookup m slots refs ro objs i n :
  slot_chain m slots refs ro objs → slots !! i = Some n →
  ∃ o lk, m !! n = Some (HNode o (default refs (slots !! S i)) lk refs).
Proof.
  revert objs i. induction slots as [|n0 slots IH]; intros [|o objs] i Hc Hi; try done.
  destruct Hc as [[lk Hn] Hc]. destruct i as [|i]; simpl in Hi; simplify_eq.
  - exists o, lk. by destruct slots.
  - by eapply (IH objs).
Qed.

(** Writing to nodes of the batch that is worked on. *)
Lemma mem_ok_touch skip N G L locs s m' :
  mem_ok skip N G L locs s → (∀ p, p ∉ N → m' !! p = nodes s !! p) → (∀ p, p ∈ N → is_Some (m' !! p)) →
  mem_ok skip N G L locs (set_nodes m' s).
Proof.
  intros [Hnd Hdom Haddr Hb Hh Hl Hloc] Hm Hm'. pose proof Hnd as (_ & Hdis & _)%NoDup_app.
  assert (∀ p, p ∈ pend_nodes G ++ local_nodes L → m' !! p = nodes s !! p) as Hag.
  { intros p Hp. apply Hm. intros Hp'. by apply (Hdis p Hp'). }
  split; simpl; try done.
  - intros p. destruct (decide (p ∈ N)) as [Hp|Hp]; [|rewrite Hm by done; apply Hdom].
    split; [|by auto]. intros _. apply elem_of_app. by left.
  - intros g b Hin. eapply pbatch_ok_agree; [|by apply Hb]. intros p Hp. apply Hag, elem_of_app. left.
    apply pend_nodes_elem. eauto.
  - intros i r Hi Hri. specialize (Hl i r Hi Hri). destruct (h_critical s !! i) as [[]|]; try done.
    eapply rlist_agree; [|done]. intros q (g & b & Hin & _ & Hq)%slots_of_nodes. apply Hag, elem_of_app. left.
    apply pend_nodes_elem. exists g, b. split; [done|]. apply elem_of_app. left. by eapply list_elem_of_lookup_2.
  - intros i bt lg o H1 H2 H3. eapply local_ok_agree; [|by eapply Hloc]. intros p g -> Hp.
    apply Hag, elem_of_app. right. apply local_nodes_elem. exists g. split; [|done]. by eapply list_elem_of_lookup_2.
Qed.

(** A batch waits for no more threads than there are. *)
Lemma holders_bound skip N G L locs s g b :
  mem_ok skip N G L locs s → (g, b) ∈ G → (length (p_holders b) ≤ length (h_critical s))%nat.
Proof.
  intros Hm Hin. destruct (mo_batches _ _ _ _ _ _ Hm g b Hin) as [_ Hnd _ _].
  assert (p_holders b ⊆ seq 0 (length (h_critical s))) as Hsub.
  { intros i Hi. apply (mo_holders _ _ _ _ _ _ Hm g b i Hin), lookup_lt_Some in Hi.
    apply elem_of_seq. lia. }
  apply NoDup_submseteq in Hsub; [|done]. apply submseteq_length in Hsub. by rewrite length_seq in Hsub.
Qed.

(** The rest of a thread's list is untouched by work on another batch. *)
Lemma slots_of_rest tid G1 g b G2 L locs s q :
  mem_ok (Some tid) [] (G1 ++ (g, b) :: G2) L locs s → q ∈ slots_of tid G2 → q ∉ nodes_of g.
Proof.
  intros [Hnd _ _ _ _ _ _] (g0 & b0 & Hin & _ & Hq)%slots_of_nodes Hqg. simpl in Hnd.
  rewrite pend_nodes_middle in Hnd. simpl in Hnd. rewrite <-app_assoc in Hnd. apply NoDup_app in Hnd as (_ & Hdis & _).
  apply (Hdis q Hqg), elem_of_app. left. apply pend_nodes_elem. exists g0, b0.
  split; [apply elem_of_app; by right|]. apply elem_of_app. left. by eapply list_elem_of_lookup_2.
Qed.

(** The parts of the state that [traverse] does not touch. *)
Definition same_rest (s s' : hyaline hlog) : Prop :=
  rsrv s' = rsrv s ∧ h_critical s' = h_critical s ∧ local_batch s' = local_batch s ∧
  h_in_progress s' = h_in_progress s.

(** One node of the thread's list: its batch waits for one thread less, and is
    applied if that was the last. *)
Lemma leave_one_ok tid G1 g b G2 L locs n nx nd s :
  Z.of_nat (length (h_critical s)) < 2 ^ 62 →
  mem_ok (Some tid) [] (G1 ++ (g, b) :: G2) L locs s → tid ∈ p_holders b →
  g_slots g !! tid = Some n → nodes s !! n = Some nd → rlist (nodes s) nx (slots_of tid G2) →
  wp (old ← refc_fetch_add (n_blink nd) (-1); when (old =? 1) (free_batch log_eject (n_blink nd)))
     (λ _ s', ∃ G', snd <$> G' = fst (spec_leave tid [b]) ∧ (∀ g0 b0, (g0, b0) ∈ G' → tid ∉ p_holders b0) ∧
        mem_ok (Some tid) [] (G1 ++ G' ++ G2) L locs s' ∧ rlist (nodes s') nx (slots_of tid G2) ∧
        world s' = world s ++ snd (spec_leave tid [b]) ∧ same_rest s s') s.
Proof.
  intros Hsmall Hm Hin Hn Hnd Hrl.
  assert ((g, b) ∈ G1 ++ (g, b) :: G2) as Hgb by (apply elem_of_app; right; by left).
  pose proof (holders_bound _ _ _ _ _ _ _ _ Hm Hgb) as Hbound.
  destruct (mo_batches _ _ _ _ _ _ Hm g b Hgb) as [(ro & Hr & Hc) Hndh Hsome Hrange].
  destruct (slot_chain_lookup _ _ _ _ _ _ _ Hc Hn) as (o & lk & Hn'). simplify_eq. simpl.
  assert (g_refs g ∈ nodes_of g) as Href by (apply elem_of_app; right; by left).
  assert (∀ p, p ∈ nodes_of g → is_Some (nodes s !! p) ∧ p ≠ 0 ∧ p ≠ invptr) as Hok.
  { intros p Hp. assert (p ∈ [] ++ pend_nodes (G1 ++ (g, b) :: G2) ++ local_nodes L) as Hpn.
    { simpl. apply elem_of_app. left. apply pend_nodes_elem. eauto. }
    split; [by apply (mo_dom _ _ _ _ _ _ Hm)|by apply (mo_addr _ _ _ _ _ _ Hm)]. }
  destruct (Hok _ Href) as (_ & H0 & _).
  pose proof (length_filter_ne tid (p_holders b) Hndh Hin) as Hlen.
  wp_step. unfold refc_fetch_add, write_node. wp_step. eapply wp_node_at; [done..|]. simpl. wp_step. wp_step. wp_step.
  rewrite swrap64_small by lia. set (m1 := <[_ := _]> (nodes s)).
  assert (∀ q, q ∈ slots_of tid G2 → m1 !! q = nodes s !! q) as Hag.
  { intros q Hq. unfold m1. rewrite lookup_insert_ne; [done|]. intros <-. by eapply slots_of_rest. }
  simpl spec_leave. rewrite decide_True by done.
  destruct (filter (λ i, i ≠ tid) (p_holders b)) as [|i0 h'] eqn:Hf.
  - rewrite (proj2 (Z.eqb_eq _ _)) by (rewrite Hlen; done). simpl.
    assert (∀ i, i ∈ p_holders b → i = tid) as Honly.
    { intros i Hi. destruct (decide (i = tid)) as [|Hne]; [done|]. exfalso.
      assert (i ∈ filter (λ i, i ≠ tid) (p_holders b)) as Hi' by (by apply list_elem_of_filter).
      rewrite Hf in Hi'. by apply elem_of_nil in Hi'. }
    pose proof (mem_ok_take _ _ _ _ _ _ _ _ Hm Honly) as Hm1.
    pose proof (mo_nodup _ _ _ _ _ _ Hm1) as (Hndg & _ & _)%NoDup_app.
    assert (mem_ok (Some tid) (nodes_of g) (G1 ++ G2) L locs (set_nodes m1 s)) as Hm2.
    { apply mem_ok_touch; [done|..]; intros p Hp; unfold m1; rewrite lookup_insert; case_decide; try done.
      - by subst p.
      - by apply Hok. }
    eapply wp_mono; [apply (free_batch_ok g ro (p_ty b) (p_objs b)); [done| | |]|].
    + intros p Hp. destruct (Hok p Hp) as (Hs & ? & ?). split; [|done]. simpl. unfold m1. rewrite lookup_insert.
      by case_decide.
    + eapply slot_chain_agree; [|done]. intros p Hp. simpl. unfold m1. rewrite lookup_insert_ne; [done|].
      intros <-. unfold nodes_of in Hndg. apply NoDup_app in Hndg as (_ & Hx & _). apply (Hx _ Hp). by left.
    + simpl. unfold m1. rewrite lookup_insert_eq. unfold set_word. simpl. by rewrite Hlen.
    + intros u s' Hfr. pose proof (mem_ok_freed _ _ _ _ _ _ _ _ Hm2 Hfr) as Hm3.
      destruct Hfr as (Hnodes & ? & ? & ? & ? & Hw). exists []. simpl. split; [done|].
      split; [by intros ? ? ?%elem_of_nil|]. split; [done|]. split; [|by rewrite app_nil_r].
      eapply rlist_agree; [|exact Hrl]. intros q Hq. rewrite Hnodes, decide_False; [by apply Hag|].
      by eapply slots_of_rest.
  - assert ((Z.of_nat (length (p_holders b)) =? 1) = false) as -> by (apply Z.eqb_neq; rewrite Hlen; simpl; lia).
    simpl. apply wp_ret. set (b' := PBatch (p_objs b) (p_ty b) (i0 :: h')).
    exists [(g, b')]. split; [done|]. split.
    { intros g0 b0 [= -> ->]%list_elem_of_singleton. simpl. rewrite <-Hf, list_elem_of_filter. tauto. }
    split; [|split; [by eapply rlist_agree|]].
    + pose proof (mem_ok_recount tid G1 g b b' G2 L locs s ro Hm eq_refl eq_refl (eq_sym Hf) ltac:(done) Hr Hc) as Hm'.
      simpl in Hm'. unfold m1, set_word. simpl. replace (Z.of_nat (length (p_holders b)) + -1) with (Z.of_nat (S (length h'))) by (rewrite Hlen; simpl; lia).
      exact Hm'.
    + simpl. by rewrite app_nil_r.
Qed.

Lemma traverse_ok tid fuel G1 G2 L locs p s :
  (length (slots_of tid G2) < fuel)%nat → Z.of_nat (length (h_critical s)) < 2 ^ 62 →
  mem_ok (Some tid) [] (G1 ++ G2) L locs s → (∀ g b, (g, b) ∈ G1 → tid ∉ p_holders b) →
  rlist (nodes s) p (slots_of tid G2) →
  wp (traverse log_eject fuel p)
     (λ _ s', ∃ G, snd <$> G = (snd <$> G1) ++ fst (spec_leave tid (snd <$> G2)) ∧
        (∀ g b, (g, b) ∈ G → tid ∉ p_holders b) ∧ mem_ok (Some tid) [] G L locs s' ∧
        world s' = world s ++ snd (spec_leave tid (snd <$> G2)) ∧ same_rest s s') s.
Proof.
  revert fuel G1 p s. induction G2 as [|[g b] G2 IH]; intros fuel G1 p s Hfuel Hsmall Hm HG1 Hrl.
  { simpl in Hrl, Hfuel. subst p. destruct fuel as [|fuel]; [lia|]. simpl. wp_step. exists G1.
    rewrite app_nil_r in Hm. rewrite !app_nil_r. done. }
  change (snd <$> (g, b) :: G2) with (b :: (snd <$> G2)). rewrite (spec_leave_app tid [b] (snd <$> G2) : spec_leave tid (b :: (snd <$> G2)) = _).
  destruct (decide (tid ∈ p_holders b)) as [Hin|Hin].
  - assert ((g, b) ∈ G1 ++ (g, b) :: G2) as Hgb by (apply elem_of_app; right; by left).
    destruct (lookup_lt_is_Some_2 (g_slots g) tid) as [n Hn]; [by apply (mo_batches _ _ _ _ _ _ Hm g b Hgb)|].
    assert (slots_of tid ((g, b) :: G2) = n :: slots_of tid G2) as Hsl.
    { unfold slots_of. simpl. unfold my_slot at 1. simpl. by rewrite decide_True, Hn. }
    rewrite Hsl in *. destruct Hrl as [-> (nd & nx & Hnd & Hlk & Hrl)]. simpl in Hfuel.
    destruct fuel as [|fuel]; [lia|]. cbn [traverse].
    assert (n ∈ nodes_of g) as Hng by (apply elem_of_app; left; by eapply list_elem_of_lookup_2).
    destruct (mo_addr _ _ _ _ _ _ Hm n) as [H0 H1].
    { simpl. apply elem_of_app. left. apply pend_nodes_elem. eauto. }
    rewrite (proj2 (Z.eqb_neq _ _) H0). wp_step. wp_step; [by apply negb_true_iff, Z.eqb_neq|].
    wp_step. eapply wp_node_at; [done..|]. wp_step. unfold read_next. rewrite Hlk. wp_step.
    pose proof (leave_one_ok tid G1 g b G2 L locs n nx nd s Hsmall Hm Hin Hn Hnd Hrl) as Hone.
    unfold wp in Hone at 1. wp_step. unfold mbind, M_bind in Hone.
    unfold wp at 1. destruct (refc_fetch_add (n_blink nd) (-1) s) as [[old s0]|]; [|done].
    apply wp_bind. unfold wp at 1. destruct (when (old =? 1) _ s0) as [[[] s1]|]; [|done].
    destruct Hone as (G' & HG' & Hno & Hm1 & Hrl1 & Hw1 & Hre1 & Hre2 & Hre3 & Hre4).
    eapply wp_mono; [apply (IH fuel (G1 ++ G') nx s1)|].
    + lia.
    + by rewrite Hre2.
    + by rewrite <-app_assoc.
    + intros g0 b0 [?|?]%elem_of_app; eauto.
    + done.
    + intros _ s' (G & HG & HGno & Hm' & Hw' & Hr1 & Hr2 & Hr3 & Hr4). exists G.
      destruct (spec_leave tid [b]) as [r1 l1], (spec_leave tid (snd <$> G2)) as [r2 l2]. simpl in *.
      rewrite fmap_app, HG', <-app_assoc in HG. split; [done|]. split; [done|]. split; [done|].
      split; [rewrite Hw', Hw1; by rewrite <-app_assoc|]. repeat split; congruence.
  - assert (slots_of tid ((g, b) :: G2) = slots_of tid G2) as Hsl.
    { unfold slots_of. simpl. unfold my_slot at 1. simpl. by rewrite decide_False. }
    rewrite Hsl in *. eapply wp_mono; [apply (IH fuel (G1 ++ [(g, b)]) p s)|].
    + done.
    + done.
    + by rewrite <-app_assoc.
    + intros g0 b0 [?|[= -> ->]%list_elem_of_singleton]%elem_of_app; eauto.
    + done.
    + intros u s' (G & HG & Hx). exists G.
      assert (spec_leave tid [b] = ([b], [])) as -> by (simpl; by rewrite decide_False).
      destruct (spec_leave tid (snd <$> G2)) as [r2 l2]. simpl in *. rewrite HG, fmap_app, <-app_assoc.
      split; [done|exact Hx].
Qed.

(** The list of a thread is not longer than the memory. *)
Lemma slots_of_size i skip G L locs s :
  mem_ok skip [] G L locs s → (length (slots_of i G) ≤ size (nodes s))%nat.
Proof.
  intros Hm. pose proof (mo_nodup _ _ _ _ _ _ Hm) as Hnd. simpl in Hnd. apply NoDup_app in Hnd as (Hnd & _ & _).
  etrans; [|apply (length_le_size (nodes s) (pend_nodes G)); [done|]].
  - clear Hm Hnd. unfold slots_of, pend_nodes. induction G as [|[g b] G IH]; csimpl; [lia|]. unfold my_slot at 1. csimpl.
    rewrite length_app. case_decide; csimpl; [|lia]. destruct (g_slots g !! i) eqn:Hi; csimpl; [|lia].
    assert (1 ≤ length (nodes_of g))%nat by (unfold nodes_of; rewrite length_app; simpl; lia). lia.
  - intros p Hp. apply (mo_dom _ _ _ _ _ _ Hm). simpl. apply elem_of_app. by left.
Qed.

(** Threads that are not in a batch's list hold nothing of it. *)
Lemma slots_of_nil i G : (∀ g b, (g, b) ∈ G → i ∉ p_holders b) → slots_of i G = [].
Proof.
  intros Hno. unfold slots_of. induction G as [|[g b] G IH]; [done|]. simpl. unfold my_slot at 1. simpl.
  rewrite decide_False by (apply (Hno g); by left). apply IH. intros g0 b0 Hin. apply (Hno g0). by right.
Qed.

(** [begin_critical_section] enters unless the thread is inside already. *)
Lemma hy_begin_refines tid sp s :
  hrel sp s → (tid < length (rsrv s))%nat →
  wp (hy_begin_critical_section tid)
     (λ e s', e = negb (bool_decide (s_critical sp !! tid = Some true)) ∧ length (rsrv s') = length (rsrv s) ∧
              hrel (if e : bool then spec_begin tid sp else sp) s') s.
Proof.
  intros [(G & L & HG & HL & Hm) Hcr Hlog Hl1 Hl2 Hl3 Hl4 Hidle Hsm] Ht. unfold hy_begin_critical_section.
  destruct (lookup_lt_is_Some_2 (h_critical s) tid) as [c Hc]; [lia|].
  destruct (lookup_lt_is_Some_2 (rsrv s) tid) as [r Hr]; [lia|].
  wp_step. wp_step. wp_step. wp_step; [done|]. rewrite Hcr in Hc. rewrite Hc. destruct c.
  { wp_step. split; [done|]. split; [done|]. split; eauto. }
  wp_step. wp_step; [done|]. wp_step. wp_step. wp_step. split; [done|]. simpl. rewrite length_insert. split; [done|].
  destruct Hm as [Hnd Hdom Haddr Hb Hh Hli Hloc].
  assert (∀ g b, (g, b) ∈ G → tid ∉ p_holders b) as Hnone.
  { intros g b Hin Hi. apply (Hh g b tid Hin) in Hi. congruence. }
  split; simpl; rewrite ?length_insert; try done; [|by rewrite Hcr].
  exists G, L. split; [done|]. split; [done|]. split; simpl; try done.
  - intros g b i Hin Hi. rewrite list_lookup_insert_ne; [by eapply Hh|]. intros ->. by eapply Hnone.
  - intros i r' Hi. rewrite list_lookup_insert_Some. intros [(<- & <- & _)|[Hne Hri]].
    + rewrite list_lookup_insert_eq by lia. by rewrite slots_of_nil.
    + rewrite list_lookup_insert_ne by done. by apply Hli.
Qed.

(** [end_critical_section] applies what waited for this thread only. *)
Lemma hy_end_refines tid sp s :
  hrel sp s → s_critical sp !! tid = Some true → Z.of_nat (length (rsrv s)) < 2 ^ 62 →
  wp (hy_end_critical_section log_eject tid)
     (λ _ s', length (rsrv s') = length (rsrv s) ∧ hrel (spec_end tid sp) s') s.
Proof.
  intros [(G & L & HG & HL & Hm) Hcr Hlog Hl1 Hl2 Hl3 Hl4 Hidle Hsm] Hc Hsmall. rewrite <-Hcr in Hc.
  destruct (lookup_lt_is_Some_2 (rsrv s) tid) as [r Hr]; [rewrite <-Hl1; by eapply lookup_lt_Some|].
  pose proof (mo_lists _ _ _ _ _ _ Hm tid r ltac:(done) Hr) as Hrl. rewrite Hc in Hrl.
  unfold hy_end_critical_section. wp_step. wp_step. wp_step. wp_step; [done|]. wp_step. wp_step; [done|].
  wp_step. wp_step; [done|]. wp_step. wp_step. wp_step. wp_step.
  { apply negb_true_iff, Z.eqb_neq. destruct (slots_of tid G) as [|n l] eqn:Hsl; simpl in Hrl; [by subst r|].
    destruct Hrl as [-> _]. apply (mo_addr _ _ _ _ _ _ Hm n). simpl. apply elem_of_app. left.
    assert (n ∈ slots_of tid G) as (g & b & Hin & _ & Hn)%slots_of_nodes by (rewrite Hsl; by left).
    apply pend_nodes_elem. exists g, b. split; [done|]. apply elem_of_app. left. by eapply list_elem_of_lookup_2. }
  wp_step. set (s1 := set_rsrv _ s).
  assert (mem_ok (Some tid) [] ([] ++ G) L (s_local sp) s1) as Hm1.
  { destruct Hm as [Hnd Hdom Haddr Hb Hh Hli Hloc]. split; try done. simpl. intros i r' Hi.
    rewrite list_lookup_insert_ne by congruence. by apply Hli. }
  eapply wp_mono; [apply (traverse_ok tid _ [] G L (s_local sp) r s1)|].
  - pose proof (slots_of_size tid _ _ _ _ _ Hm). lia.
  - simpl. by rewrite Hl1.
  - done.
  - by intros ? ? ?%elem_of_nil.
  - done.
  - intros u s' (G' & HG' & Hno & Hm' & Hw & Hr1 & Hr2 & Hr3 & Hr4). wp_step. simpl in *.
    rewrite Hr1, length_insert. split; [done|]. unfold spec_end. rewrite <-HG.
    destruct (spec_leave tid (snd <$> G)) as [rest log]. simpl in *.
    split; simpl; rewrite ?Hr1, ?Hr2, ?Hr3, ?Hr4, ?length_insert; try done; [|by rewrite Hcr|by rewrite Hw, Hlog].
    exists G', L. split; [done|]. split; [done|]. destruct Hm' as [Hnd Hdom Haddr Hb Hh Hli Hloc].
    rewrite Hr2 in Hh, Hli. rewrite Hr1 in Hli. rewrite Hr3 in Hloc.
    split; simpl; rewrite ?Hr1, ?Hr2, ?Hr3; try done.
    + intros g b i Hin Hi. rewrite list_lookup_insert_ne; [by eapply Hh|]. intros ->. by eapply Hno.
    + intros i r' _ Hri. destruct (decide (i = tid)) as [->|Hne].
      * rewrite list_lookup_insert_eq by (by eapply lookup_lt_Some).
        rewrite list_lookup_insert_eq in Hri by (by eapply lookup_lt_Some). congruence.
      * rewrite list_lookup_insert_ne by done. apply Hli; [congruence|done].
Qed.

(** ** Handing a batch over *)

(** [slot_chain] does not depend on the links. *)
Lemma slot_chain_links m m' slots refs ro objs :
  (∀ p nd, p ∈ slots → m !! p = Some nd → ∃ l, m' !! p = Some (set_link l nd)) →
  slot_chain m slots refs ro objs → slot_chain m' slots refs ro objs.
Proof.
  revert objs. induction slots as [|n slots IH]; intros [|o objs] Hm; simpl; try done.
  intros [[lk Hn] Hc]. split.
  - destruct (Hm n _ ltac:(by left) Hn) as [l Hl]. exists l. by rewrite Hl.
  - apply IH; [|done]. intros p nd Hp. apply Hm. by right.
Qed.

Lemma slot_chain_length m slots refs ro objs :
  slot_chain m slots refs ro objs → length objs = S (length slots).
Proof.
  revert objs. induction slots as [|n slots IH]; intros [|o objs]; simpl; try done.
  - by destruct objs.
  - intros [_ Hc]. f_equal. by apply IH.
Qed.

Lemma hd_drop (slots : list Z) refs j : default refs (slots !! j) = hd refs (drop j slots).
Proof.
  revert j. induction slots as [|n slots IH]; intros [|j]; simpl; done || apply IH.
Qed.

(** Whether thread [i], whose list starts at [r], gets a node when the threads
    from [j] on, [k] of them, are visited. *)
Definition gets_node (j k i : nat) (r : Z) : bool := bool_decide (j ≤ i < j + k)%nat && negb (r =? invptr).

Definition new_node (j k i : nat) (o : option Z) (nd : hnode) : hnode :=
  match o with
  | Some r => if gets_node j k i r then set_link (LNext r) nd else nd
  | None => nd
  end.

Lemma gets_node_S j k i r :
  gets_node j (S k) i r = if decide (i = j) then negb (r =? invptr) else gets_node (S j) k i r.
Proof.
  unfold gets_node. case_decide as Hi.
  - rewrite bool_decide_eq_true_2 by lia. done.
  - f_equal. apply bool_decide_ext. lia.
Qed.

Record linked (slots : list Z) (j k : nat) (s s' : hyaline hlog) : Prop := {
  lk_critical : h_critical s' = h_critical s;
  lk_batch : local_batch s' = local_batch s;
  lk_progress : h_in_progress s' = h_in_progress s;
  lk_world : world s' = world s;
  lk_length : length (rsrv s') = length (rsrv s);
  lk_others p : p ∉ slots → nodes s' !! p = nodes s !! p;
  lk_nodes i n nd : slots !! i = Some n → nodes s !! n = Some nd →
    nodes s' !! n = Some (new_node j k i (rsrv s !! i) nd);
  lk_rsrv i r : rsrv s !! i = Some r →
    rsrv s' !! i = Some (if gets_node j k i r then default 0 (slots !! i) else r)
}.

Definition visited (s : hyaline hlog) (j k : nat) : nat :=
  length (filter (λ i, rsrv s !! i ≠ Some invptr) (seq j k)).

(** Linking the node of thread [j]. *)
Lemma link_node_ok slots j n nd r (s : hyaline hlog) :
  NoDup slots → slots !! j = Some n → n ≠ 0 → nodes s !! n = Some nd → rsrv s !! j = Some r →
  wp (link_node 1 j n) (λ e s', e = negb (r =? invptr) ∧ linked slots j 1 s s') s.
Proof.
  intros Hnds Hn Hn0 Hnd Hr. simpl. wp_step. wp_step. wp_step. wp_step; [done|].
  destruct (r =? invptr) eqn:Hri.
  - wp_step. split; [done|]. split; try done.
    + intros i n' nd' Hi Hn'. rewrite Hn'. f_equal. unfold new_node. destruct (rsrv s !! i) as [r'|] eqn:Hr'; [|done].
      rewrite gets_node_S. case_decide; [subst i; simplify_eq; by rewrite Hri|].
      unfold gets_node. rewrite bool_decide_eq_false_2 by lia. done.
    + intros i r' Hr'. rewrite Hr'. f_equal. rewrite gets_node_S. case_decide; [subst i; simplify_eq; by rewrite Hri|].
      unfold gets_node. rewrite bool_decide_eq_false_2 by lia. done.
  - wp_step. eapply wp_node_at; [done..|]. unfold write_node. wp_step. wp_step. wp_step. wp_step. wp_step.
    wp_step; [done|]. rewrite Z.eqb_refl. wp_step. wp_step. wp_step. split; [done|].
    split; simpl; try done; [by rewrite length_insert|..].
    + intros p Hp. rewrite lookup_insert_ne; [done|]. intros <-. by apply Hp, (list_elem_of_lookup_2 _ j).
    + intros i n' nd' Hi Hn'. unfold new_node. destruct (decide (i = j)) as [->|Hij].
      * simplify_eq. rewrite lookup_insert_eq, Hr, gets_node_S, decide_True by done. by rewrite Hri.
      * rewrite lookup_insert_ne by (intros <-; by apply Hij, (NoDup_lookup slots i j n)). rewrite Hn'.
        destruct (rsrv s !! i); [|done]. rewrite gets_node_S, decide_False by done.
        unfold gets_node. by rewrite bool_decide_eq_false_2 by lia.
    + intros i r' Hr'. rewrite gets_node_S. case_decide as Hij.
      * subst i. simplify_eq. rewrite list_lookup_insert_eq by (by eapply lookup_lt_Some). by rewrite Hri, Hn.
      * rewrite list_lookup_insert_ne by done. unfold gets_node. by rewrite bool_decide_eq_false_2 by lia.
Qed.

Lemma linked_trans slots j k s s1 s2 :
  linked slots j 1 s s1 → linked slots (S j) k s1 s2 → linked slots j (S k) s s2.
Proof.
  intros [A1 A2 A3 A4 A5 A6 A7 A8] [B1 B2 B3 B4 B5 B6 B7 B8].
  assert (∀ r, gets_node (S j) k j r = false) as Hlow
    by (intros r; unfold gets_node; by rewrite bool_decide_eq_false_2 by lia).
  assert (∀ i r, gets_node (S j) 0 i r = false) as Hlow'
    by (intros i r; unfold gets_node; by rewrite bool_decide_eq_false_2 by lia).
  assert (∀ i r, rsrv s !! i = Some r → i ≠ j → rsrv s1 !! i = Some r) as Hsame.
  { intros i r Hr Hij. by rewrite (A8 i r Hr), gets_node_S, decide_False, Hlow'. }
  split; try congruence.
  - intros p Hp. by rewrite B6, A6.
  - intros i n nd Hi Hn. rewrite (B7 i n _ Hi (A7 i n nd Hi Hn)). f_equal. unfold new_node.
    destruct (rsrv s !! i) as [r|] eqn:Hr; last first.
    { replace (rsrv s1 !! i) with (@None Z); [done|]. symmetry. apply lookup_ge_None. rewrite A5. by apply lookup_ge_None. }
    rewrite (A8 i r Hr), (gets_node_S j k). destruct (decide (i = j)) as [->|Hij].
    + by rewrite Hlow, (gets_node_S j 0), decide_True by done.
    + rewrite (gets_node_S j 0), decide_False by done. by rewrite Hlow' by done.
  - intros i r Hr. rewrite (gets_node_S j k). destruct (decide (i = j)) as [->|Hij].
    + rewrite (B8 j _ (A8 j r Hr)), Hlow. by rewrite gets_node_S, decide_True by done.
    + by rewrite (B8 i r (Hsame i r Hr Hij)).
Qed.

Lemma filter_ext_in {A} (P Q : A → Prop) `{∀ x, Decision (P x), ∀ x, Decision (Q x)} (l : list A) :
  (∀ x, x ∈ l → P x ↔ Q x) → filter P l = filter Q l.
Proof.
  induction l as [|x l IH]; intros Heq; [done|]. rewrite !filter_cons.
  rewrite IH by (intros y Hy; apply Heq; by right). specialize (Heq x ltac:(by left)).
  destruct (decide (P x)), (decide (Q x)); tauto.
Qed.

Lemma visited_S s j k r :
  rsrv s !! j = Some r → visited s j (S k) = (Nat.b2n (negb (r =? invptr)%Z) + visited s (S j) k)%nat.
Proof.
  intros Hr. unfold visited. simpl. destruct (Z.eqb_spec r invptr) as [->|Hne].
  - rewrite filter_cons_False; [done|]. rewrite Hr. tauto.
  - rewrite filter_cons_True; [done|]. rewrite Hr. congruence.
Qed.

Lemma link_batch_ok slots refs ro objs k j cnt (s : hyaline hlog) :
  (j + k ≤ length slots)%nat → (j + k ≤ length (rsrv s))%nat → NoDup slots → (∀ n, n ∈ slots → n ≠ 0) →
  slot_chain (nodes s) slots refs ro objs →
  wp (link_batch (seq j k) (hd refs (drop j slots)) cnt)
     (λ c s', c = cnt + Z.of_nat (visited s j k) ∧ linked slots j k s s') s.
Proof.
  revert j cnt s. induction k as [|k IH]; intros j cnt s Hj Hjr Hnd Hne Hc.
  { simpl. wp_step. split; [unfold visited; simpl; lia|].
    assert (∀ i r, gets_node j 0 i r = false) as Hno
      by (intros i r; unfold gets_node; by rewrite bool_decide_eq_false_2 by lia).
    split; try done.
    - intros i n nd Hi Hn. unfold new_node. destruct (rsrv s !! i); [by rewrite Hno|done].
    - intros i r Hr. by rewrite Hno. }
  destruct (lookup_lt_is_Some_2 slots j) as [n Hn]; [lia|].
  destruct (lookup_lt_is_Some_2 (rsrv s) j) as [r Hr]; [lia|].
  destruct (slot_chain_lookup _ _ _ _ _ _ _ Hc Hn) as (o & lk & Hnd').
  rewrite <-hd_drop, Hn. cbn [seq link_batch]. simpl default.
  assert (n ≠ 0) as Hn0 by (by eapply Hne, list_elem_of_lookup_2).
  wp_step. eapply wp_mono; [by eapply (link_node_ok slots)|]. intros e s1 [-> Hlk].
  pose proof (lk_nodes _ _ _ _ _ Hlk j n _ Hn Hnd') as Hn1.
  wp_step. eapply wp_node_at; [done|exact Hn1|].
  replace (n_word _) with (hd refs (drop (S j) slots)).
  2: { rewrite <-hd_drop. unfold new_node. destruct (rsrv s !! j); [destruct (gets_node _ _ _ _)|]; done. }
  eapply wp_mono; [apply IH|].
  - lia.
  - rewrite (lk_length _ _ _ _ _ Hlk). lia.
  - done.
  - done.
  - eapply slot_chain_links; [|exact Hc]. intros p nd [i Hi]%list_elem_of_lookup Hp.
    rewrite (lk_nodes _ _ _ _ _ Hlk i p nd Hi Hp). unfold new_node.
    destruct (rsrv s !! i) as [r'|]; [destruct (gets_node _ _ _ _)|]; eauto; exists (n_link nd); by destruct nd.
  - intros c s' [-> Hlk']. split; [|by eapply linked_trans].
    rewrite (visited_S s j k r Hr).
    assert (visited s1 (S j) k = visited s (S j) k) as ->.
    { unfold visited. f_equal. apply filter_ext_in. intros i Hi%elem_of_seq.
      destruct (rsrv s !! i) as [r'|] eqn:Hr'.
      - rewrite (lk_rsrv _ _ _ _ _ Hlk i r' Hr'). unfold gets_node. by rewrite bool_decide_eq_false_2 by lia.
      - apply lookup_ge_None in Hr'. lia. }
    destruct (r =? invptr); simpl; lia.
Qed.

(** The threads whose list is open are those inside. *)
Lemma rsrv_inside N G L locs s i r :
  mem_ok None N G L locs s → length (h_critical s) = length (rsrv s) → rsrv s !! i = Some r →
  negb (r =? invptr) = bool_decide (h_critical s !! i = Some true).
Proof.
  intros Hm Hlen Hr. pose proof (mo_lists _ _ _ _ _ _ Hm i r ltac:(done) Hr) as Hl.
  destruct (h_critical s !! i) as [[]|] eqn:Hc.
  - rewrite bool_decide_eq_true_2 by done. apply negb_true_iff, Z.eqb_neq.
    destruct (slots_of i G) as [|n l] eqn:Hs; simpl in Hl; [by subst r|]. destruct Hl as [-> _].
    apply (mo_addr _ _ _ _ _ _ Hm n). apply elem_of_app. right. apply elem_of_app. left.
    assert (n ∈ slots_of i G) as (g & b & Hin & _ & Hn)%slots_of_nodes by (rewrite Hs; by left).
    apply pend_nodes_elem. exists g, b. split; [done|]. apply elem_of_app. left. by eapply list_elem_of_lookup_2.
  - rewrite bool_decide_eq_false_2 by done. by subst r.
  - apply lookup_ge_None in Hc. apply lookup_lt_Some in Hr. lia.
Qed.

Lemma visited_inside N G L locs s :
  mem_ok None N G L locs s → length (h_critical s) = length (rsrv s) →
  visited s 0 (length (rsrv s)) = length (inside (h_critical s)).
Proof.
  intros Hm Hlen. unfold visited, inside. rewrite Hlen. f_equal. apply filter_ext_in. intros i Hi%elem_of_seq.
  destruct (lookup_lt_is_Some_2 (rsrv s) i) as [r Hr]; [lia|]. rewrite Hr.
  pose proof (rsrv_inside _ _ _ _ _ _ _ Hm Hlen Hr) as Heq.
  destruct (Z.eqb_spec r invptr), (bool_decide_reflect (h_critical s !! i = Some true)); naive_solver.
Qed.

(** The batch that is worked on joins the lists of the threads inside. *)
Lemma mem_ok_handed g ro ty objs G L locs s m1 s1 :
  mem_ok None (nodes_of g) G L locs s → length (h_critical s) = length (rsrv s) →
  (length (rsrv s) ≤ length (g_slots g))%nat → inside (h_critical s) ≠ [] →
  (∀ p, p ≠ g_refs g → m1 !! p = nodes s !! p) → is_Some (m1 !! g_refs g) →
  slot_chain m1 (g_slots g) (g_refs g) ro objs →
  linked (g_slots g) 0 (length (rsrv s)) (set_nodes m1 s) s1 →
  let h := inside (h_critical s) in
  mem_ok None [] ((g, PBatch objs ty h) :: G) L locs
    (set_nodes (<[g_refs g := HNode ro (Z.of_nat (length h)) (LDecrement ty) (g_first g)]> (nodes s1)) s1).
Proof.
  intros Hm Hlen Hsl Hne Hm1 Hrefs Hc [K1 K2 K3 K4 K5 K6 K7 K8] h. simpl in *.
  pose proof Hm as [Hnd Hdom Haddr Hb Hh Hl Hloc].
  pose proof Hnd as (Hndg & Hdis & _)%NoDup_app. pose proof Hndg as (Hnds & Hsr & _)%NoDup_app.
  assert (g_refs g ∉ g_slots g) as Hrs by (intros H; apply (Hsr _ H); by left).
  set (m2 := <[_ := _]> (nodes s1)).
  assert (∀ p, p ∉ nodes_of g → m2 !! p = nodes s !! p) as Hag.
  { intros p Hp. unfold nodes_of in Hp. rewrite elem_of_app, list_elem_of_singleton in Hp. unfold m2.
    rewrite lookup_insert_ne, K6, Hm1; naive_solver. }
  assert (∀ i n nd, g_slots g !! i = Some n → m1 !! n = Some nd →
            m2 !! n = Some (new_node 0 (length (rsrv s)) i (rsrv s !! i) nd)) as Hsn.
  { intros i n nd Hi Hn. unfold m2. rewrite lookup_insert_ne; [by apply K7|]. intros <-.
    by apply Hrs, (list_elem_of_lookup_2 _ i). }
  assert (∀ p, p ∈ nodes_of g ∨ p ∈ pend_nodes G ∨ p ∈ local_nodes L ↔
               p ∈ nodes_of g ++ pend_nodes G ++ local_nodes L) as Hmem by (intros p; rewrite !elem_of_app; tauto).
  assert (∀ i r, rsrv s !! i = Some r → gets_node 0 (length (rsrv s)) i r = bool_decide (h_critical s !! i = Some true)) as Hgn.
  { intros i r Hr. unfold gets_node. rewrite bool_decide_eq_true_2 by (apply lookup_lt_Some in Hr; lia). simpl.
    by eapply rsrv_inside. }
  assert (∀ p, p ∈ pend_nodes G ++ local_nodes L → m2 !! p = nodes s !! p) as Hag'.
  { intros p Hp. apply Hag. intros Hp'. by apply (Hdis p Hp'). }
  assert (∀ g0 b0 p, (g0, b0) ∈ G → p ∈ nodes_of g0 → m2 !! p = nodes s !! p) as HagG.
  { intros g0 b0 p Hin Hp. apply Hag', elem_of_app. left. apply pend_nodes_elem. eauto. }
  assert (pend_nodes ((g, PBatch objs ty h) :: G) ++ local_nodes L =
          nodes_of g ++ pend_nodes G ++ local_nodes L) as Hpn by (unfold pend_nodes; simpl; by rewrite app_assoc).
  split; simpl; rewrite ?Hpn, ?K1, ?K2; try done.
  - intros p. rewrite <-Hdom. destruct (decide (p ∈ nodes_of g)) as [Hp|Hp]; [|by rewrite Hag].
    assert (is_Some (nodes s !! p)) as Hs by (apply Hdom, elem_of_app; by left). split; [done|]. intros _.
    unfold nodes_of in Hp. apply elem_of_app in Hp as [Hp| ->%list_elem_of_singleton].
    + pose proof Hp as [i Hi]%list_elem_of_lookup. rewrite <-Hm1 in Hs by congruence. destruct Hs as [nd Hn].
      rewrite (Hsn i p nd Hi Hn). eauto.
    + unfold m2. rewrite lookup_insert_eq. eauto.
  - intros g0 b0 [[= -> ->]|Hin]%elem_of_cons.
    + split; simpl; [|apply NoDup_filter, NoDup_seq|done|].
      * exists ro. unfold m2 at 1. rewrite lookup_insert_eq. split; [done|].
        eapply slot_chain_links; [|exact Hc]. intros p nd [i Hi]%list_elem_of_lookup Hp.
        rewrite (Hsn i p nd Hi Hp). unfold new_node.
        destruct (rsrv s !! i) as [r|]; [destruct (gets_node _ _ _ _)|]; eauto; exists (n_link nd); by destruct nd.
      * intros i [_ Hi%elem_of_seq]%list_elem_of_filter. lia.
    + eapply pbatch_ok_agree; [|by apply Hb]. intros p. by eapply HagG.
  - intros g0 b0 i [[= -> ->]|Hin]%elem_of_cons Hi; [|by eapply Hh].
    simpl in Hi. by apply list_elem_of_filter in Hi as [? _].
  - intros i r' _ Hr'. destruct (lookup_lt_is_Some_2 (rsrv s) i) as [r Hr].
    { rewrite <-K5. by eapply lookup_lt_Some. }
    rewrite (K8 i r Hr), (Hgn i r Hr) in Hr'. pose proof (Hl i r ltac:(done) Hr) as Hli.
    assert (i < length (rsrv s))%nat as Hi by (by eapply lookup_lt_Some).
    destruct (h_critical s !! i) as [[]|] eqn:Hci.
    + rewrite bool_decide_eq_true_2 in Hr' by done.
      destruct (lookup_lt_is_Some_2 (g_slots g) i) as [n Hn]; [lia|]. rewrite Hn in Hr'. injection Hr' as <-. simpl.
      assert (slots_of i ((g, PBatch objs ty h) :: G) = n :: slots_of i G) as ->.
      { unfold slots_of. simpl. unfold my_slot at 1. simpl. rewrite decide_True, Hn; [done|].
        apply list_elem_of_filter. split; [done|]. apply elem_of_seq. lia. }
      destruct (slot_chain_lookup _ _ _ _ _ _ _ Hc Hn) as (o & lk & Hnd1). split; [done|]. eexists _, r.
      split; [by eapply Hsn|]. rewrite Hr. unfold new_node. rewrite (Hgn i r Hr), Hci, bool_decide_eq_true_2 by done.
      split; [done|]. eapply rlist_agree; [|exact Hli]. intros q (g0 & b0 & Hin & _ & Hq)%slots_of_nodes.
      eapply HagG; [done|]. apply elem_of_app. left. by eapply list_elem_of_lookup_2.
    + rewrite bool_decide_eq_false_2 in Hr' by done. congruence.
    + apply lookup_ge_None in Hci. lia.
  - intros i bt lg o H1 H2 H3. eapply local_ok_agree; [|by eapply Hloc]. intros p g0 -> Hp.
    apply Hag', elem_of_app. right. apply local_nodes_elem. exists g0. split; [|done]. by eapply list_elem_of_lookup_2.
Qed.

Lemma linked_none slots s s1 :
  linked slots 0 (length (rsrv s)) s s1 → (∀ i r, rsrv s !! i = Some r → r = invptr) →
  (∀ p, p ∈ slots → is_Some (nodes s !! p)) → nodes s1 = nodes s ∧ rsrv s1 = rsrv s.
Proof.
  intros [K1 K2 K3 K4 K5 K6 K7 K8] Hinv Hin.
  assert (∀ i r, rsrv s !! i = Some r → gets_node 0 (length (rsrv s)) i r = false) as Hg.
  { intros i r ->%Hinv. unfold gets_node. by rewrite Z.eqb_refl, andb_false_r. }
  split.
  - apply map_eq. intros p. destruct (decide (p ∈ slots)) as [Hp|Hp]; [|by apply K6].
    destruct (Hin p Hp) as [nd Hn]. apply list_elem_of_lookup in Hp as [i Hi]. rewrite (K7 i p nd Hi Hn), Hn.
    unfold new_node. destruct (rsrv s !! i) as [r|] eqn:Hr; [|done]. by rewrite (Hg i r Hr).
  - apply list_eq. intros i. destruct (rsrv s !! i) as [r|] eqn:Hr.
    + by rewrite (K8 i r Hr), (Hg i r Hr).
    + apply lookup_ge_None. rewrite K5. by apply lookup_ge_None.
Qed.

Lemma protect_cmp k : (REFC_PROTECT =? - (- REFC_PROTECT + Z.of_nat k)) = (k =? 0)%nat.
Proof. destruct (Nat.eqb_spec k 0); [apply Z.eqb_eq|apply Z.eqb_neq]; lia. Qed.

(** What [add_batch] leaves: the batch is pending, or was applied. *)
Definition handed_over (g : gbatch) objs ty G L locs (s s' : hyaline hlog) : Prop :=
  h_critical s' = h_critical s ∧ local_batch s' = local_batch s ∧ h_in_progress s' = h_in_progress s ∧
  length (rsrv s') = length (rsrv s) ∧
  match inside (h_critical s) with
  | [] => mem_ok None [] G L locs s' ∧ world s' = world s ++ batch_log objs ty
  | h => mem_ok None [] ((g, PBatch objs ty h) :: G) L locs s' ∧ world s' = world s
  end.

Lemma add_batch_ok bt g ro ty objs bl G L locs s :
  mem_ok None (nodes_of g) G L locs s → length (h_critical s) = length (rsrv s) →
  (length (rsrv s) ≤ length (g_slots g))%nat → Z.of_nat (length (rsrv s)) < 2 ^ 62 →
  b_first bt = g_first g → b_refs bt = g_refs g →
  nodes s !! g_refs g = Some (HNode ro REFC_PROTECT (LDecrement ty) bl) →
  slot_chain (nodes s) (g_slots g) (g_refs g) ro objs →
  wp (add_batch log_eject bt) (λ _ s', handed_over g objs ty G L locs s s') s.
Proof.
  intros Hm Hlen Hsl Hsmall Hf Hrf Hr Hc.
  pose proof (mo_nodup _ _ _ _ _ _ Hm) as (Hndg & _ & _)%NoDup_app. pose proof Hndg as (Hnds & Hsr & _)%NoDup_app.
  assert (g_refs g ∉ g_slots g) as Hrs by (intros H; apply (Hsr _ H); by left).
  assert (∀ p, p ∈ nodes_of g → is_Some (nodes s !! p) ∧ p ≠ 0 ∧ p ≠ invptr) as Hok.
  { intros p Hp. assert (p ∈ nodes_of g ++ pend_nodes G ++ local_nodes L) as Hpn by (apply elem_of_app; by left).
    split; [by apply (mo_dom _ _ _ _ _ _ Hm)|by apply (mo_addr _ _ _ _ _ _ Hm)]. }
  assert (g_refs g ∈ nodes_of g) as Href by (apply elem_of_app; right; by left).
  assert (g_refs g ≠ 0) as H0 by (by apply Hok).
  unfold add_batch. rewrite Hf, Hrf. wp_step. eapply wp_node_at; [done..|]. unfold write_node. wp_step. wp_step.
  wp_step. wp_step. simpl length. set (m1 := <[_ := _]> (nodes s)).
  assert (∀ p, p ≠ g_refs g → m1 !! p = nodes s !! p) as Hm1 by (intros p Hp; by apply lookup_insert_ne).
  assert (m1 !! g_refs g = Some (HNode ro REFC_PROTECT (LDecrement ty) (g_first g))) as Hr1 by (by apply lookup_insert_eq).
  assert (slot_chain m1 (g_slots g) (g_refs g) ro objs) as Hc1.
  { eapply slot_chain_agree; [|done]. intros p Hp. apply Hm1. congruence. }
  wp_step. eapply wp_mono; [apply (link_batch_ok (g_slots g) (g_refs g) ro objs (length (rsrv s)) 0 _ (set_nodes m1 s))|].
  { lia. } { simpl. lia. } { done. } { intros n Hn. apply Hok, elem_of_app. by left. } { done. }
  intros c s1 [-> Hlk]. assert (visited (set_nodes m1 s) 0 (length (rsrv s)) = length (inside (h_critical s))) as ->.
  { change (visited s 0 (length (rsrv s)) = length (inside (h_critical s))). by eapply visited_inside. }
  pose proof (lk_others _ _ _ _ _ Hlk _ Hrs) as Hr2. simpl in Hr2. rewrite Hr1 in Hr2.
  assert (length (inside (h_critical s)) ≤ length (rsrv s))%nat as Hin.
  { unfold inside. rewrite <-Hlen. etrans; [apply length_filter|]. by rewrite length_seq. }
  wp_step. unfold refc_fetch_add, write_node, set_word. wp_step. eapply wp_node_at; [done..|].
  wp_step. wp_step. wp_step. cbn [n_obj n_word n_link n_blink]. rewrite protect_cmp.
  rewrite swrap64_small by (unfold REFC_PROTECT; change (Z.shiftl 1 62) with (2 ^ 62); lia).
  replace (REFC_PROTECT + (- REFC_PROTECT + Z.of_nat (length (inside (h_critical s))))) with
    (Z.of_nat (length (inside (h_critical s)))) by lia.
  pose proof (lk_critical _ _ _ _ _ Hlk) as K1. pose proof (lk_batch _ _ _ _ _ Hlk) as K2.
  pose proof (lk_progress _ _ _ _ _ Hlk) as K3. pose proof (lk_world _ _ _ _ _ Hlk) as K4.
  pose proof (lk_length _ _ _ _ _ Hlk) as K5. simpl in K1, K2, K3, K4, K5. unfold handed_over.
  destruct (inside (h_critical s)) as [|i0 h] eqn:Hins.
  - cbn [length Nat.eqb when].
    destruct (linked_none (g_slots g) (set_nodes m1 s) s1 Hlk) as [Hn1 Hrs1].
    { simpl. intros i r Hri. pose proof (rsrv_inside _ _ _ _ _ _ _ Hm Hlen Hri) as Heq.
      destruct (Z.eqb_spec r invptr) as [|Hne]; [done|]. symmetry in Heq. apply bool_decide_eq_true in Heq.
      assert (i ∈ inside (h_critical s)) as Hi.
      { apply list_elem_of_filter. split; [done|]. apply elem_of_seq. apply lookup_lt_Some in Heq. lia. }
      rewrite Hins in Hi. by apply elem_of_nil in Hi. }
    { intros p Hp. simpl. rewrite Hm1 by congruence. apply Hok, elem_of_app. by left. }
    simpl in Hn1, Hrs1. set (s2 := set_nodes _ s1).
    assert (mem_ok None (nodes_of g) G L locs s2) as Hm2.
    { assert (s2 = set_nodes (nodes s2) s) as ->.
      { unfold s2, set_nodes. simpl. by rewrite K1, K2, K3, K4, Hrs1. }
      apply mem_ok_touch; [done|..]; intros p Hp; unfold s2; simpl; rewrite Hn1, lookup_insert; case_decide as Hpr; try done.
      - by subst p.
      - unfold m1. rewrite lookup_insert. case_decide; [done|]. done.
      - unfold m1. rewrite lookup_insert. case_decide; [done|]. by apply Hok. }
    eapply wp_mono; [apply (free_batch_ok g ro ty objs s2); [done| | |]|].
    + intros p Hp. split; [|by apply Hok]. apply (mo_dom _ _ _ _ _ _ Hm2), elem_of_app. by left.
    + eapply slot_chain_agree; [|exact Hc1]. intros p Hp. unfold s2. simpl.
      rewrite Hn1, lookup_insert_ne; [done|]. congruence.
    + unfold s2. simpl. by rewrite lookup_insert_eq.
    + intros u s3 Hfr. pose proof (mem_ok_freed _ _ _ _ _ _ _ _ Hm2 Hfr) as Hm3.
      destruct Hfr as (_ & F1 & F2 & F3 & F4 & F5). simpl in *.
      split_and!; try congruence; done.
  - cbn [length Nat.eqb when]. wp_step. simpl.
    split_and!; try congruence.
    pose proof (mem_ok_handed g ro ty objs G L locs s m1 s1 Hm Hlen Hsl ltac:(rewrite Hins; done) Hm1 ltac:(rewrite Hr1; eauto) Hc1 Hlk) as Hm'.
    simpl in Hm'. rewrite Hins in Hm'. exact Hm'.
Qed.

(** ** Collecting a batch *)

Definition opt_nodes (lg : option gbatch) : list Z := match lg with Some g => nodes_of g | None => [] end.

Lemma local_nodes_insert L i lg lg' :
  L !! i = Some lg → local_nodes (<[i := lg']> L) ≡ₚ opt_nodes lg' ++ local_nodes (<[i := None]> L).
Proof.
  unfold local_nodes. revert i. induction L as [|l L IH]; intros [|i] Hi; simplify_eq/=.
  - done.
  - rewrite IH by done. rewrite !app_assoc. f_equiv. apply Permutation_app_comm.
Qed.

Lemma local_nodes_take L i lg :
  L !! i = Some lg → local_nodes L ≡ₚ opt_nodes lg ++ local_nodes (<[i := None]> L).
Proof. intros Hi. rewrite <-(local_nodes_insert L i lg lg Hi). by rewrite list_insert_id. Qed.

(** A new node for the batch of [tid]. *)
Lemma mem_ok_push tid a nd g lg o o' bt' N G L locs s :
  mem_ok None N G L locs s → L !! tid = Some lg → locs !! tid = Some o → (tid < length (local_batch s))%nat →
  a ≠ 0 → a ≠ invptr → nodes s !! a = None → nodes_of g ≡ₚ a :: opt_nodes lg →
  (∀ m', (∀ p, p ∈ opt_nodes lg → m' !! p = nodes s !! p) → m' !! a = Some nd → local_ok m' bt' (Some g) o') →
  mem_ok None N G (<[tid := Some g]> L) (<[tid := o']> locs)
    (set_batches (<[tid := bt']> (local_batch s)) (set_nodes (<[a := nd]> (nodes s)) s)).
Proof.
  intros [Hnd Hdom Haddr Hb Hh Hl Hloc] HL Ho Htb Ha0 Ha1 Ha Hg Hlok. 
  assert (N ++ pend_nodes G ++ local_nodes (<[tid := Some g]> L) ≡ₚ a :: N ++ pend_nodes G ++ local_nodes L) as Hperm.
  { rewrite (local_nodes_insert L tid lg (Some g) HL), (local_nodes_take L tid lg HL). simpl opt_nodes at 1. rewrite Hg. simpl.
    by rewrite <-!Permutation_middle. }
  assert (a ∉ N ++ pend_nodes G ++ local_nodes L) as Hfresh by (rewrite <-Hdom, Ha; by intros [? ?]).
  assert (∀ p, p ∈ pend_nodes G ++ local_nodes L → (<[a := nd]> (nodes s)) !! p = nodes s !! p) as Hag.
  { intros p Hp. apply lookup_insert_ne. intros <-. apply Hfresh, elem_of_app. by right. }
  split; simpl; rewrite ?Hperm.
  - by apply NoDup_cons.
  - intros p. rewrite Hperm, elem_of_cons, <-Hdom, lookup_insert. case_decide as Hp; [|naive_solver].
    split; [by left|]. intros _. by eexists.
  - intros p. rewrite Hperm. intros [->|Hp]%elem_of_cons; [done|by apply Haddr].
  - intros g0 b0 Hin. eapply pbatch_ok_agree; [|by apply Hb]. intros p Hp. apply Hag, elem_of_app. left.
    apply pend_nodes_elem. eauto.
  - done.
  - intros i r Hi Hri. specialize (Hl i r Hi Hri). destruct (h_critical s !! i) as [[]|]; try done.
    eapply rlist_agree; [|done]. intros q (g0 & b0 & Hin & _ & Hq)%slots_of_nodes. apply Hag, elem_of_app. left.
    apply pend_nodes_elem. exists g0, b0. split; [done|]. apply elem_of_app. left. by eapply list_elem_of_lookup_2.
  - intros i bt0 lg0 o0. destruct (decide (i = tid)) as [->|Hne].
    + rewrite !list_lookup_insert_eq by (done || by eapply lookup_lt_Some). intros [= <-] [= <-] [= <-].
      apply Hlok; [|apply lookup_insert_eq]. intros p Hp. apply Hag, elem_of_app. right.
      rewrite (local_nodes_take L tid lg HL). apply elem_of_app. by left.
    + rewrite !list_lookup_insert_ne by done. intros H1 H2 H3. eapply local_ok_agree; [|by eapply Hloc].
      intros p g0 -> Hp. apply Hag, elem_of_app. right. apply local_nodes_elem. exists g0. split; [|done].
      by eapply list_elem_of_lookup_2.
Qed.

(** Taking the batch of [tid] out. *)
Lemma mem_ok_flush tid g bt' ty G L locs ip s :
  mem_ok None [] G L locs s → L !! tid = Some (Some g) → b_first bt' = 0 → b_counter bt' = 0 →
  mem_ok None (nodes_of g) G (<[tid := None]> L) (<[tid := ([], ty)]> locs)
    (set_h_in_progress ip (set_batches (<[tid := bt']> (local_batch s)) s)).
Proof.
  intros [Hnd Hdom Haddr Hb Hh Hl Hloc] HL Hf Hc. simpl in Hnd, Hdom, Haddr.
  assert (pend_nodes G ++ local_nodes L ≡ₚ nodes_of g ++ pend_nodes G ++ local_nodes (<[tid := None]> L)) as Hperm.
  { rewrite (local_nodes_take L tid _ HL). simpl. rewrite !app_assoc. f_equiv. apply Permutation_app_comm. }
  split; simpl; try done.
  - by rewrite <-Hperm.
  - intros p. by rewrite <-Hperm.
  - intros p. rewrite <-Hperm. apply Haddr.
  - intros i bt0 lg0 o0. destruct (decide (i = tid)) as [->|Hne].
    + intros H1 H2 H3. apply list_lookup_insert_Some in H1 as [(_ & <- & _)|[? _]]; [|done].
      apply list_lookup_insert_Some in H2 as [(_ & <- & _)|[? _]]; [|done].
      apply list_lookup_insert_Some in H3 as [(_ & <- & _)|[? _]]; [|done]. done.
    + rewrite !list_lookup_insert_ne by done. by apply Hloc.
Qed.

Section hyaline_retire.
  Context `{Alloc : !Allocator}.

Lemma malloc_not_inv used : malloc used ≠ invptr.
Proof. intros Heq. pose proof (malloc_aligned used) as H. by rewrite Heq in H. Qed.

(** The new node of [retire], linked into the batch of the thread. *)
Lemma retire_push_ok tid p ty bt objs ty0 lg N G L locs s :
  mem_ok None N G L locs s → L !! tid = Some lg → locs !! tid = Some (objs, ty0) →
  local_batch s !! tid = Some bt → Z.of_nat (length objs) + 1 < 2 ^ 64 →
  let a := malloc (dom (nodes s)) in
  let ty1 := match objs with [] => ty | _ => ty0 end in
  let '(nd, refs) := if b_first bt =? 0 then (HNode p REFC_PROTECT (LDecrement ty) 0, a)
                     else (HNode p (b_first bt) (LNext 0) (b_refs bt), b_refs bt) in
  ∃ g, mem_ok None N G (<[tid := Some g]> L) (<[tid := (p :: objs, ty1)]> locs)
         (set_batches (<[tid := MkBatch a refs (wrap 64 (b_counter bt + 1))]> (local_batch s))
           (set_nodes (<[a := nd]> (nodes s)) s)).
Proof.
  intros Hm HL Ho Hbt Hsmall a ty1. pose proof (mo_locals _ _ _ _ _ _ Hm tid bt lg _ Hbt HL Ho) as Hlok.
  assert (nodes s !! a = None) as Ha by (apply not_elem_of_dom, malloc_fresh).
  assert (tid < length (local_batch s))%nat as Htb by (by eapply lookup_lt_Some).
  destruct lg as [g|]; simpl in Hlok.
  - destruct Hlok as ((ro & Hr & Hc) & Hf & Hrf & Hcnt).
    assert (objs ≠ []) as Hne by (destruct (g_slots g), objs; done).
    assert (b_first bt ≠ 0) as Hf0.
    { rewrite Hf. apply (mo_addr _ _ _ _ _ _ Hm), elem_of_app. right. apply elem_of_app. right. apply local_nodes_elem.
      exists g. split; [by eapply list_elem_of_lookup_2|]. unfold nodes_of, g_first. destruct (g_slots g); by left. }
    rewrite (proj2 (Z.eqb_neq _ _) Hf0). exists (GBatch (a :: g_slots g) (g_refs g)).
    eapply mem_ok_push; [done..|apply malloc_nonnull|apply malloc_not_inv|done|done|].
    intros m' Hag Hm'. simpl. split; [|split; [done|split; [done|]]].
    + exists ro. rewrite Hag by (simpl; apply elem_of_app; right; by left). subst ty1. destruct objs; [done|].
      split; [done|]. split.
      * eexists. rewrite Hm', Hf, Hrf. done.
      * eapply slot_chain_agree; [|done]. intros q Hq. apply Hag, elem_of_app. by left.
    + rewrite Hcnt. unfold wrap. rewrite Z.mod_small by lia. simpl. lia.
  - destruct Hlok as (-> & Hf & Hcnt). rewrite Hf. simpl. exists (GBatch [] a).
    eapply mem_ok_push; [done..|apply malloc_nonnull|apply malloc_not_inv|done|done|].
    intros m' Hag Hm'. simpl. split; [|split; [done|split; [done|]]].
    + exists p. done.
    + by rewrite Hcnt.
Qed.

Lemma hy_retire_refines fuel tid p ty sp s :
  hrel sp s → (tid < length (rsrv s))%nat → p ≠ 0 → Z.of_nat (length (rsrv s)) < 2 ^ 62 →
  wp (hy_retire log_eject (S (S fuel)) tid p ty)
     (λ _ s', length (rsrv s') = length (rsrv s) ∧ hrel (spec_retire tid p ty sp) s') s.
Proof.
  intros [(G & L & HG & HL & Hm) Hcr Hlog Hl1 Hl2 Hl3 Hl4 Hidle Hsm] Ht Hp Hsmall.
  destruct (lookup_lt_is_Some_2 (local_batch s) tid) as [bt Hbt]; [lia|].
  destruct (lookup_lt_is_Some_2 (s_local sp) tid) as [[objs ty0] Ho]; [lia|].
  destruct (lookup_lt_is_Some_2 L tid) as [lg Hlg]; [lia|].
  destruct (lookup_lt_is_Some_2 (h_in_progress s) tid) as [c Hc]; [lia|].
  pose proof (Hidle tid c Hc) as ->. pose proof (Hsm tid objs ty0 Ho) as Hlen. unfold batch_size in Hlen.
  pose proof (retire_push_ok tid p ty bt objs ty0 lg [] G L (s_local sp) s Hm Hlg Ho Hbt ltac:(lia)) as Hpush.
  unfold hy_retire. rewrite (proj2 (Z.eqb_neq _ _) Hp). wp_step. wp_step. wp_step. wp_step; [done|].
  set (a := malloc (dom (nodes s))) in *. simpl in Hpush.
  destruct (if b_first bt =? 0 then _ else _) as [nd refs]. destruct Hpush as [g Hm1].
  unfold write_node. wp_step. wp_step. wp_step. wp_step. simpl. set (s1 := set_batches _ _) in *.
  set (ty1 := match objs with [] => ty | _ => ty0 end) in *.
  set (bt1 := MkBatch a refs (wrap 64 (b_counter bt + 1))) in *.
  assert (local_batch s1 !! tid = Some bt1) as Hbt1 by (by apply list_lookup_insert_eq; lia).
  pose proof (mo_locals _ _ _ _ _ _ Hm1 tid bt1 (Some g) (p :: objs, ty1) Hbt1
    ltac:(by apply list_lookup_insert_eq; lia) ltac:(by apply list_lookup_insert_eq; lia)) as
    ((ro & Hr & Hch) & Hf & Hrf & Hcnt).
  wp_step. wp_step. wp_step. wp_step; [done|]. wp_step. wp_step; [done|].
  unfold spec_retire. rewrite Ho. fold ty1. simpl negb. cbn [andb]. simpl fst in Hcnt. rewrite Hcnt.
  assert (length (local_batch s1) = length (s_local sp)) as -> by (simpl; rewrite length_insert; lia).
  destruct (Z.ltb_spec (batch_size * Z.of_nat (length (s_local sp))) (Z.of_nat (length (p :: objs)))) as [Hfull|Hroom]; last first.
  { wp_step. split; [done|]. split; simpl; rewrite ?length_insert; try done.
    - exists G, (<[tid := Some g]> L). rewrite length_insert. done.
    - intros i objs' ty'. rewrite list_lookup_insert_Some. intros [(_ & [= <- <-] & _)|[_ Hi]]; [|by eapply Hsm].
      rewrite <-Hl3. exact Hroom. }
  wp_step. wp_step.
  pose proof (mem_ok_flush tid g (MkBatch 0 (b_refs bt1) 0) ty1 G _ _ (<[tid := true]> (h_in_progress s1)) s1 Hm1
    ltac:(by apply list_lookup_insert_eq; lia) eq_refl eq_refl) as Hm2.
  rewrite !list_insert_insert_eq in Hm2. set (s2 := set_h_in_progress _ _) in *.
  assert (length (g_slots g) = length objs) as Hls.
  { apply slot_chain_length in Hch. simpl in Hch. lia. }
  wp_step. eapply wp_mono; [apply (add_batch_ok bt1 g ro ty1 (p :: objs) 0 G (<[tid := None]> L) (<[tid := ([], ty1)]> (s_local sp)) s2)|].
  { done. } { done. } { simpl. simpl in Hfull. unfold batch_size in Hfull. lia. } { done. } { done. } { done. } { done. } { done. }
  intros u s3 (A1 & A2 & A3 & A4 & Hres). wp_step. wp_step. simpl.
  assert (h_critical s2 = s_critical sp) as Hcr2 by done. simpl in A1, A2, A3, A4.
  wp_step. wp_step. wp_step. wp_step; [simpl; rewrite list_lookup_insert_eq; [done|rewrite A3; simpl; rewrite length_insert; lia]|].
  wp_step. wp_step; [simpl; rewrite A2; simpl; by apply list_lookup_insert_eq; rewrite length_insert; lia|]. simpl.
  assert ((batch_size * Z.of_nat (length (local_batch s3)) <? 0) = false) as -> by (apply Z.ltb_ge; unfold batch_size; lia).
  simpl. wp_step. split; [done|]. unfold spec_flush. simpl. rewrite Hcr2 in Hres.
  assert (∀ i c, (<[tid := false]> (h_in_progress s3)) !! i = Some c → c = false) as Hidle3.
  { intros i c. rewrite A3. rewrite list_lookup_insert_Some. intros [(_ & <- & _)|[Hne Hi]]; [done|].
    rewrite list_lookup_insert_ne in Hi by done. by eapply Hidle. }
  assert (∀ i objs' ty', <[tid := ([], ty1)]> (s_local sp) !! i = Some (objs', ty') →
    Z.of_nat (length objs') ≤ batch_size * Z.of_nat (length (rsrv s3))) as Hsm3.
  { intros i objs' ty'. rewrite A4. rewrite list_lookup_insert_Some. intros [(_ & [= <- <-] & _)|[_ Hi]]; [|by eapply Hsm].
    unfold batch_size. simpl. lia. }
  destruct (inside (s_critical sp)) as [|i0 h] eqn:Hins; destruct Hres as [Hm3 Hw3];
    (split; simpl; rewrite ?length_insert; try done; try (rewrite ?A1, ?A2, ?A3, ?length_insert; simpl; rewrite ?length_insert; lia || done)).
  - exists G, (<[tid := None]> L). split; [done|]. split; [rewrite length_insert; lia|].
    destruct Hm3 as [H1 H2 H3 H4 H5 H6 H7]. by split.
  - rewrite Hw3. simpl. by rewrite Hlog.
  - exists ((g, PBatch (p :: objs) ty1 (i0 :: h)) :: G), (<[tid := None]> L). split; [csimpl; by rewrite HG|]. split; [rewrite length_insert; lia|].
    destruct Hm3 as [H1 H2 H3 H4 H5 H6 H7]. by split.
  - rewrite Hw3. done.
Qed.

End hyaline_retire.

Lemma batch_log_objs objs ty : fst <$> batch_log objs ty = objs.
Proof. unfold batch_log. rewrite <-list_fmap_compose. apply list_fmap_id. Qed.

(** Permutations of appends, by counting. *)
Ltac perm_count :=
  let z := fresh "z" in
  apply (Permutation_count_occ Z.eq_dec); intros z;
  repeat match goal with
  | H : _ ≡ₚ _ |- _ => rewrite (Permutation_count_occ Z.eq_dec) in H; specialize (H z)
  end;
  rewrite ?fmap_app, ?batch_log_objs, ?concat_app in *;
  repeat (rewrite ?count_occ_app in *; cbn [count_occ app concat map] in *);
  repeat case_match; lia.

(** ** Programs *)

Section hyaline_programs.
  Context `{Alloc : !Allocator}.

Lemma hyaline_init_rel n : hrel (spec_init n) (hyaline_init n []).
Proof.
  assert (local_nodes (replicate n None) = []) as Hln by (unfold local_nodes; induction n; done).
  split; simpl; rewrite ?length_replicate; try done.
  - exists [], (replicate n None). split; [done|]. split; [by rewrite length_replicate|].
    split; simpl; rewrite ?Hln.
    + apply NoDup_nil_2.
    + intros p. rewrite ?Hln, lookup_empty. split; [by intros [? ?]|by intros ?%elem_of_nil].
    + by intros p ?%elem_of_nil.
    + by intros ? ? ?%elem_of_nil.
    + by intros ? ? ? ?%elem_of_nil.
    + intros i r _ [-> Hi]%lookup_replicate. by rewrite lookup_replicate_2.
    + intros i bt lg o [-> _]%lookup_replicate [-> _]%lookup_replicate [-> _]%lookup_replicate. done.
  - by intros i c [-> _]%lookup_replicate.
  - intros i objs ty [[= -> ->] _]%lookup_replicate. unfold batch_size. simpl. lia.
Qed.

Lemma hexec_refines n o sp s :
  Z.of_nat n < 2 ^ 62 → hrel sp s → length (rsrv s) = n → hop_ok n sp o →
  wp (hexec o) (λ _ s', length (rsrv s') = n ∧ hrel (spec_step o sp) s') s.
Proof.
  intros Hn Hrel Hlen Hok. destruct o as [tid|tid|tid p ty]; simpl in *.
  - wp_step. eapply wp_mono; [apply hy_begin_refines; [done|lia]|]. intros e s' (-> & Hl & Hr). wp_step.
    split; [lia|]. destruct (decide (s_critical sp !! tid = Some true)) as [Hc|Hc].
    + by rewrite bool_decide_eq_true_2 in Hr.
    + by rewrite bool_decide_eq_false_2 in Hr.
  - eapply wp_mono; [apply hy_end_refines; [done|done|lia]|]. intros u s' [Hl Hr]. split; [lia|done].
  - destruct Hok. eapply wp_mono; [apply (hy_retire_refines 0); [done|lia|done|lia]|].
    intros u s' [Hl Hr]. split; [lia|done].
Qed.

Lemma hrun_refines n prog sp s :
  Z.of_nat n < 2 ^ 62 → hrel sp s → length (rsrv s) = n → hprog_ok n sp prog →
  wp (hrun prog) (λ _ s', length (rsrv s') = n ∧ hrel (spec_run prog sp) s') s.
Proof.
  intros Hn. revert sp s. induction prog as [|o prog IH]; intros sp s Hrel Hlen Hok; simpl.
  { by wp_step. }
  destruct Hok as [Ho Hok]. wp_step. eapply wp_mono; [by apply (hexec_refines n)|].
  intros u s' [Hl Hr]. by apply IH.
Qed.

(** *** The specification applies every action exactly once *)

Lemma spec_leave_objs tid l :
  (fst <$> snd (spec_leave tid l)) ++ concat (map p_objs (fst (spec_leave tid l))) ≡ₚ concat (map p_objs l).
Proof.
  induction l as [|b l IH]; simpl; [done|]. destruct (spec_leave tid l) as [r log]. simpl in *.
  case_decide; [destruct (filter _ _)|]; csimpl.
  - rewrite fmap_app, batch_log_objs, <-app_assoc. by rewrite IH.
  - rewrite <-IH, !app_assoc. f_equiv. apply Permutation_app_comm.
  - rewrite <-IH, !app_assoc. f_equiv. apply Permutation_app_comm.
Qed.

Lemma concat_insert_perm (l : list (list Z * RetireType)) i a a' :
  l !! i = Some a → concat (map fst (<[i := a']> l)) ++ fst a ≡ₚ concat (map fst l) ++ fst a'.
Proof.
  revert i. induction l as [|x l IH]; intros [|i] Hi; simplify_eq/=.
  - perm_count.
  - specialize (IH i Hi). perm_count.
Qed.

Lemma spec_step_outstanding n o sp :
  hop_ok n sp o → length (s_local sp) = n →
  outstanding (spec_step o sp) ≡ₚ retired [o] ++ outstanding sp ∧ length (s_local (spec_step o sp)) = n.
Proof.
  intros Hok Hlen. destruct o as [tid|tid|tid p ty]; simpl in *.
  - by case_decide.
  - unfold spec_end. pose proof (spec_leave_objs tid (s_pending sp)) as Hl.
    destruct (spec_leave tid (s_pending sp)) as [r log]. simpl in *. split; [|done].
    unfold outstanding. simpl. perm_count.
  - destruct Hok as [Ht Hp]. unfold spec_retire.
    destruct (lookup_lt_is_Some_2 (s_local sp) tid) as [[objs ty0] Ho]; [lia|]. rewrite Ho.
    set (ty1 := match objs with [] => ty | _ => ty0 end).
    pose proof (concat_insert_perm (s_local sp) tid _ ([], ty1) Ho) as H1.
    pose proof (concat_insert_perm (s_local sp) tid _ (p :: objs, ty1) Ho) as H2. simpl in H1, H2.
    clear Ho. destruct (_ <? _); [|simpl; rewrite length_insert; split; [|done]].
    + unfold spec_flush. destruct (inside _); simpl; rewrite length_insert; (split; [|done]);
        unfold outstanding; simpl; clear H2; clearbody ty1; perm_count.
    + unfold outstanding. simpl. clear H1. clearbody ty1. perm_count.
Qed.

End hyaline_programs.
