(* ===== verification/HyalineProps.v ===== *)
(** * What Hyaline guarantees

    The theorems about whole programs of critical sections and retires: the
    tracker refines its specification, applies every deferred action exactly
    once, and applies nothing that was retired while a thread is inside before
    that thread leaves.  The actions of these programs are logged and retire
    nothing; HyalineShutdown.v has actions that do. *)

From S2P Require Import Prelude MemoryManager Hyaline HyalineRefine.
Local Open Scope Z_scope.

(** ** Programs *)

Lemma spec_run_app p1 p2 sp : spec_run (p1 ++ p2) sp = spec_run p2 (spec_run p1 sp).
Proof. revert sp. induction p1 as [|o p1 IH]; intros sp; simpl; [done|]. apply IH. Qed.

Lemma hprog_ok_app n p1 p2 sp : hprog_ok n sp (p1 ++ p2) ↔ hprog_ok n sp p1 ∧ hprog_ok n (spec_run p1 sp) p2.
Proof. revert sp. induction p1 as [|o p1 IH]; intros sp; simpl; [tauto|]. rewrite IH. tauto. Qed.

Lemma retired_cons o prog : retired (o :: prog) = retired [o] ++ retired prog.
Proof. unfold retired. rewrite <-omap_app. done. Qed.

Lemma spec_run_outstanding n prog sp :
  hprog_ok n sp prog → length (s_local sp) = n →
  outstanding (spec_run prog sp) ≡ₚ retired prog ++ outstanding sp.
Proof.
  revert sp. induction prog as [|o prog IH]; intros sp; [done|]. intros [Ho Hok] Hlen.
  destruct (spec_step_outstanding n o sp Ho Hlen) as [Hs Hl]. cbn [spec_run]. rewrite (IH _ Hok Hl), Hs.
  rewrite (retired_cons o prog), !app_assoc. f_equiv. apply Permutation_app_comm.
Qed.

(** The objects of the batches that do not wait for [tid]. *)
Definition unheld (tid : nat) (l : list pbatch) : list Z :=
  concat (map p_objs (filter (λ b, tid ∉ p_holders b) l)).

Lemma unheld_cons tid b l :
  unheld tid (b :: l) = if decide (tid ∈ p_holders b) then unheld tid l else p_objs b ++ unheld tid l.
Proof. unfold unheld. rewrite filter_cons. repeat case_decide; done. Qed.

Lemma spec_leave_unheld tid t l :
  t ≠ tid → (fst <$> snd (spec_leave t l)) ++ unheld tid (fst (spec_leave t l)) ≡ₚ unheld tid l.
Proof.
  intros Hne. induction l as [|b l IH]; simpl; [done|]. rewrite (unheld_cons tid b l).
  destruct (spec_leave t l) as [r log]. simpl in IH.
  destruct (decide (t ∈ p_holders b)) as [Ht|Ht]; [destruct (filter _ _) as [|i h] eqn:Hf|]; simpl.
  - rewrite decide_False; [rewrite fmap_app, batch_log_objs, <-app_assoc; by rewrite IH|].
    intros Hin. assert (tid ∈ filter (λ i, i ≠ t) (p_holders b)) as Hx by (apply list_elem_of_filter; done).
    rewrite Hf in Hx. by apply elem_of_nil in Hx.
  - rewrite unheld_cons. simpl. rewrite <-Hf.
    assert (tid ∈ filter (λ i, i ≠ t) (p_holders b) ↔ tid ∈ p_holders b) as Hiff
      by (rewrite list_elem_of_filter; naive_solver).
    repeat case_decide; [done|tauto|tauto|]. rewrite <-IH, !app_assoc. f_equiv. apply Permutation_app_comm.
  - rewrite unheld_cons. case_decide; [done|]. rewrite <-IH, !app_assoc. f_equiv. apply Permutation_app_comm.
Qed.

Lemma inside_elem c i : i ∈ inside c ↔ c !! i = Some true.
Proof.
  unfold inside. rewrite list_elem_of_filter, elem_of_seq. split; [tauto|]. intros Hi. split; [done|].
  apply lookup_lt_Some in Hi. lia.
Qed.

Lemma spec_step_protects n tid o sp :
  hop_ok n sp o → o ≠ HEnd tid → s_critical sp !! tid = Some true →
  s_critical (spec_step o sp) !! tid = Some true ∧
  ∃ new, s_log (spec_step o sp) = s_log sp ++ new ∧
         (fst <$> new) ++ unheld tid (s_pending (spec_step o sp)) ≡ₚ unheld tid (s_pending sp).
Proof.
  intros Hok Hne Hc. pose proof (lookup_lt_Some _ _ _ Hc) as Hlt. destruct o as [t|t|t p ty]; simpl.
  - case_decide; simpl.
    + split; [done|]. exists []. by rewrite app_nil_r.
    + split; [rewrite list_lookup_insert; case_decide; naive_solver|]. exists []. by rewrite app_nil_r.
  - assert (t ≠ tid) as Htt by congruence. pose proof (spec_leave_unheld tid t (s_pending sp) Htt) as Hl.
    unfold spec_end. destruct (spec_leave t (s_pending sp)) as [r log]. simpl in *.
    split; [by rewrite list_lookup_insert_ne|]. eauto.
  - unfold spec_retire. destruct (s_local sp !! t) as [[objs ty0]|]; [|split; [done|exists []; by rewrite app_nil_r]].
    destruct (_ <? _); [|split; [done|exists []; by rewrite app_nil_r]].
    unfold spec_flush. simpl. apply inside_elem in Hc as Hin. destruct (inside (s_critical sp)) as [|i h].
    { by apply elem_of_nil in Hin. }
    simpl. split; [done|]. exists []. rewrite app_nil_r, unheld_cons. simpl. by rewrite decide_True.
Qed.

Lemma spec_run_protects n tid prog sp :
  hprog_ok n sp prog → HEnd tid ∉ prog → s_critical sp !! tid = Some true →
  ∃ new, s_log (spec_run prog sp) = s_log sp ++ new ∧ (fst <$> new) ⊆+ unheld tid (s_pending sp).
Proof.
  revert sp. induction prog as [|o prog IH]; intros sp Hok Hne Hc.
  - exists []. simpl. rewrite app_nil_r. split; [done|]. apply submseteq_nil_l.
  - destruct Hok as [Ho Hok]. apply not_elem_of_cons in Hne as [Hno Hne].
    destruct (spec_step_protects n tid o sp Ho (not_eq_sym Hno) Hc) as (Hc' & new & Hlog & Hnew).
    destruct (IH _ Hok Hne Hc') as (new' & Hlog' & Hnew'). exists (new ++ new'). simpl.
    rewrite Hlog', Hlog, app_assoc, fmap_app, <-Hnew. split; [done|]. by apply submseteq_skips_l.
Qed.

Section hyaline_theorems.
  Context `{Alloc : !Allocator}.

Lemma hrun_init n prog :
  Z.of_nat n < 2 ^ 62 → hprog_ok n (spec_init n) prog →
  ∃ s, hrun prog (hyaline_init n []) = Ok (tt, s) ∧ length (rsrv s) = n ∧ hrel (spec_run prog (spec_init n)) s.
Proof.
  intros Hn Hok. pose proof (hrun_refines n prog (spec_init n) (hyaline_init n []) Hn (hyaline_init_rel n)
    ltac:(apply length_replicate) Hok) as Hr.
  apply wp_ok in Hr as ([] & s & Hr & Hl & Hrel). eauto.
Qed.

Lemma outstanding_init n : outstanding (spec_init n) = [].
Proof. unfold outstanding. simpl. induction n; done. Qed.

(** The nodes that are allocated. *)
Lemma hrel_nodes sp s : hrel sp s → size (nodes s) =
  length (concat (map p_objs (s_pending sp)) ++ concat (map fst (s_local sp))).
Proof.
  intros [(G & L & HG & HL & Hm) _ _ _ Hl2 Hl3 _ _ _]. pose proof Hm as [Hnd Hdom _ Hb _ _ Hloc]. simpl in *.
  assert (dom (nodes s) = list_to_set (pend_nodes G ++ local_nodes L) :> gset Z) as Hd.
  { apply set_eq. intros p. rewrite elem_of_dom, elem_of_list_to_set. apply Hdom. }
  rewrite <-(size_dom (D := gset Z)), Hd, size_list_to_set, !length_app by done. f_equal.
  - rewrite <-HG. clear -Hb. induction G as [|[g b] G IH]; [done|]. unfold pend_nodes in *. csimpl.
    rewrite !length_app, IH by (intros; apply Hb; by right). f_equal.
    destruct (Hb g b) as [(ro & _ & Hc) _ _ _]; [by left|]. apply slot_chain_length in Hc.
    unfold nodes_of. rewrite length_app. simpl. lia.
  - clear Hnd Hdom Hd Hm. unfold local_nodes. revert Hloc Hl2 Hl3 HL. generalize (local_batch s) (s_local sp).
    generalize (length (rsrv s)). induction L as [|lg L IH]; intros n bts locs Hloc Hl2 Hl3 HL.
    + destruct locs; [done|simpl in *; lia].
    + destruct bts as [|bt bts], locs as [|o locs]; simpl in *; try lia.
      rewrite !length_app, (IH (length L) bts locs); try lia; [|intros i; apply (Hloc (S i))].
      f_equal. pose proof (Hloc 0%nat bt lg o eq_refl eq_refl eq_refl) as H0. destruct lg as [g|]; simpl in H0.
      * destruct H0 as ((ro & _ & Hc) & _). apply slot_chain_length in Hc. unfold nodes_of. rewrite length_app. simpl. lia.
      * by destruct H0 as [-> _].
Qed.

(** C24. The Hyaline tracker implements its specification: for any threads and
    any program of critical sections and retires, the nodes, the reference
    counters and the lists never lead to a failed assertion, a null or dangling
    node or an exhausted loop, the actions are applied in exactly the order of
    the specification, every retired object is applied, handed over or collected
    exactly once, and no node is leaked. *)
Theorem hyaline_refines n prog :
  Z.of_nat n < 2 ^ 62 → hprog_ok n (spec_init n) prog →
  let sp := spec_run prog (spec_init n) in
  ∃ s, hrun prog (hyaline_init n []) = Ok (tt, s) ∧ world s = s_log sp ∧ h_critical s = s_critical sp ∧
       retired prog ≡ₚ (fst <$> world s) ++ concat (map p_objs (s_pending sp)) ++ concat (map fst (s_local sp)) ∧
       (size (nodes s) + length (world s))%nat = length (retired prog).
Proof.
  intros Hn Hok sp. destruct (hrun_init n prog Hn Hok) as (s & Hr & Hl & Hrel). fold sp in Hrel.
  pose proof (spec_run_outstanding n prog (spec_init n) Hok ltac:(apply length_replicate)) as Hout.
  rewrite outstanding_init, app_nil_r in Hout. fold sp in Hout. unfold outstanding in Hout.
  rewrite <-(hr_log _ _ Hrel) in Hout. exists s. split; [done|]. split; [apply Hrel|]. split; [apply Hrel|].
  split; [done|]. rewrite <-Hout, (hrel_nodes _ _ Hrel), !length_app, length_fmap. lia.
Qed.

(** C25. A critical section protects: while a thread stays inside, whatever the
    others do, the only actions applied are of objects that were already handed
    over when it was seen inside, in batches that do not wait for it.  Nothing
    that is retired, or that was still being collected, is applied before the
    thread leaves. *)
Theorem hyaline_protects n pre mid tid :
  Z.of_nat n < 2 ^ 62 → hprog_ok n (spec_init n) (pre ++ mid) →
  s_critical (spec_run pre (spec_init n)) !! tid = Some true → HEnd tid ∉ mid →
  ∃ s1 s2 new, hrun pre (hyaline_init n []) = Ok (tt, s1) ∧ hrun mid s1 = Ok (tt, s2) ∧
    world s2 = world s1 ++ new ∧ (fst <$> new) ⊆+ unheld tid (s_pending (spec_run pre (spec_init n))).
Proof.
  intros Hn [Hpre Hmid]%hprog_ok_app Hc Hne. destruct (hrun_init n pre Hn Hpre) as (s1 & Hr1 & Hl1 & Hrel1).
  destruct (proj1 (wp_ok _ _ _) (hrun_refines n mid _ s1 Hn Hrel1 Hl1 Hmid)) as ([] & s2 & Hr2 & _ & Hrel2).
  destruct (spec_run_protects n tid mid _ Hmid Hne Hc) as (new & Hlog & Hsub).
  exists s1, s2, new. rewrite (hr_log _ _ Hrel1), (hr_log _ _ Hrel2). done.
Qed.

(** The action of a batch is that of its first object: with one thread, an
    object retired for its weak count and one retired to be disposed of, after
    one retired for its strong count, both have their strong count decremented
    instead. *)
Lemma hyaline_mixes_types :
  ∃ s, hrun [HRetire 0 16 decrement_strong_count; HRetire 0 32 decrement_weak_count; HRetire 0 48 retire_dispose]
         (hyaline_init 1 []) = Ok (tt, s) ∧
       world s = [(48, decrement_strong_count); (32, decrement_strong_count); (16, decrement_strong_count)].
Proof.
  destruct (hrun_init 1 [HRetire 0 16 decrement_strong_count; HRetire 0 32 decrement_weak_count;
    HRetire 0 48 retire_dispose]) as (s & Hr & _ & Hrel); [done|by vm_compute; split_and!; try lia|].
  exists s. split; [done|]. by rewrite (hr_log _ _ Hrel).
Qed.

End hyaline_theorems.
