(* ===== verification/HyalineShutdown.v ===== *)
(** * Shutting Hyaline down

    The destructor of the manager, when the actions it applies retire further
    objects.  Those are collected by the thread that runs the destructor, behind
    the position of its loop or in front of it, and the destructor comes back to
    them: it returns with every node deleted and every action applied that was
    outstanding or that it caused. *)

From S2P Require Import Prelude MemoryManager Hyaline HyalineRefine HyalineProps.
Local Open Scope Z_scope.

(** ** Actions that retire *)

Section cascade.
  Context `{Alloc : !Allocator}.
  (** What an action retires, which may depend on what was applied before it. *)
  Context (children : hlog → Z → RetireType → hlog).

(** An [eject] that logs its action and retires what it releases, to nesting depth
    [depth]. *)
Fixpoint cascade_eject (depth : nat) (tid : nat) (p : Z) (ty : RetireType) : M (hyaline hlog) unit :=
  match depth with
  | O => fail OutOfFuel
  | S depth' =>
      log ← gets world;
      log_eject p ty;;
      for_each (λ x, hy_retire (cascade_eject depth' tid) 1 tid (fst x) (snd x)) (children log p ty)
  end.

(** What the actions [new], applied after [log], retire. *)
Fixpoint spawned (log new : hlog) : hlog :=
  match new with
  | [] => []
  | x :: new' => children log (fst x) (snd x) ++ spawned (log ++ [x]) new'
  end.

Lemma spawned_snoc log new x :
  spawned log (new ++ [x]) = spawned log new ++ children (log ++ new) (fst x) (snd x).
Proof.
  revert log. induction new as [|y new IH]; intros log; simpl; [by rewrite !app_nil_r|].
  rewrite IH, <-!app_assoc. done.
Qed.

(** With a batch being worked on, [retire] only collects. *)
Lemma retire_busy ejectf tid p ty bt (Q : unit → hyaline hlog → Prop) s :
  p ≠ 0 → h_in_progress s !! tid = Some true → local_batch s !! tid = Some bt →
  (let a := malloc (dom (nodes s)) in
   let '(nd, refs) := if b_first bt =? 0 then (HNode p REFC_PROTECT (LDecrement ty) 0, a)
                      else (HNode p (b_first bt) (LNext 0) (b_refs bt), b_refs bt) in
   Q tt (set_batches (<[tid := MkBatch a refs (wrap 64 (b_counter bt + 1))]> (local_batch s))
           (set_nodes (<[a := nd]> (nodes s)) s))) →
  wp (hy_retire ejectf 1 tid p ty) Q s.
Proof.
  intros Hp Hip Hbt HQ. unfold hy_retire. rewrite (proj2 (Z.eqb_neq _ _) Hp). wp_step. wp_step. wp_step. wp_step; [done|].
  simpl in HQ. destruct (if b_first bt =? 0 then _ else _) as [nd refs]. unfold write_node.
  wp_step. wp_step. wp_step. wp_step. cbn [flush_loop]. wp_step. wp_step. wp_step. wp_step; [exact Hip|].
  wp_step. wp_step; [apply list_lookup_insert_eq; by eapply lookup_lt_Some|]. simpl. by wp_step.
Qed.

(** ** Accounts *)

Definition collected (locs : list (list Z * RetireType)) : list Z := concat (map fst locs).

Section accounts.
  Context (pot : hlog → nat) (P : RetireType → Prop) (tid n : nat) (log0 : hlog) (objs0 : list Z).
  Hypothesis Hpot : ∀ log p ty, (pot (log ++ [(p, ty)]) + length (children log p ty) ≤ pot log)%nat.
  Hypothesis Hnonnull : ∀ log p ty, Forall (λ c, fst c ≠ 0) (children log p ty).
  Hypothesis Htypes : ∀ log p ty, P ty → Forall (λ c, P (snd c)) (children log p ty).
  Hypothesis Htid : (tid < n)%nat.

(** From the start, with [log0] applied and [objs0] collected, to a state with [log]
    applied, [locs] collected and [todo] in the hands of the destructor; at most
    [R] actions are left, counting those still to be caused. *)
Record account (todo : list Z) (R : nat) (locs : list (list Z * RetireType)) (log : hlog) : Prop := {
  ac_log : ∃ new, log = log0 ++ new ∧ Forall (λ x, P (snd x)) new ∧
    (fst <$> new) ++ todo ++ collected locs ≡ₚ objs0 ++ (fst <$> spawned log0 new);
  ac_types : Forall (λ o, fst o ≠ [] → P (snd o)) locs;
  ac_bound : (length todo + length (collected locs) + pot log ≤ R)%nat
}.

Lemma account_push p ty objs ty0 todo R locs log :
  account (p :: todo) R locs log → locs !! tid = Some (objs, ty0) → P ty →
  account todo R (<[tid := (p :: objs, match objs with [] => ty | _ => ty0 end)]> locs) log.
Proof.
  intros [(new & Hlog & HP & Hperm) Hty Hb] Ho Ht.
  set (o' := (p :: objs, _)). pose proof (concat_insert_perm locs tid (objs, ty0) o' Ho) as Hc.
  change (concat (map fst ?l)) with (collected l) in Hc. simpl in Hc.
  assert (collected (<[tid := o']> locs) ≡ₚ p :: collected locs) as Hc'.
  { apply (Permutation_app_inv_r objs). rewrite Hc. by rewrite <-Permutation_middle. }
  split.
  - exists new. split; [done|]. split; [done|]. rewrite Hc', <-Hperm. simpl. by rewrite <-Permutation_middle.
  - apply Forall_insert; [done|]. simpl. intros _. destruct objs as [|x objs]; [done|].
    rewrite Forall_lookup in Hty. by apply (Hty tid _ Ho).
  - rewrite Hc'. simpl in *. lia.
Qed.

Lemma account_eject p ty todo R locs log :
  account (p :: todo) R locs log → P ty →
  account ((fst <$> children log p ty) ++ todo) (R - 1) locs (log ++ [(p, ty)]).
Proof.
  intros [(new & -> & HP & Hperm) Hty Hb] Ht. split.
  - exists (new ++ [(p, ty)]). rewrite app_assoc. split; [done|]. split; [by apply Forall_app; split; [|apply Forall_singleton]|].
    rewrite spawned_snoc, !fmap_app, (app_assoc objs0), <-Hperm. simpl. perm_count.
  - done.
  - rewrite length_app, length_fmap. specialize (Hpot (log0 ++ new) p ty). simpl in Hb. lia.
Qed.

Lemma account_take i objs ty R locs log :
  account [] R locs log → locs !! i = Some (objs, ty) → account objs R (<[i := ([], ty)]> locs) log.
Proof.
  intros [(new & Hlog & HP & Hperm) Hty Hb] Ho.
  pose proof (concat_insert_perm locs i (objs, ty) ([], ty) Ho) as Hc.
  change (concat (map fst ?l)) with (collected l) in Hc. simpl in Hc. rewrite app_nil_r in Hc.
  split.
  - exists new. split; [done|]. split; [done|]. rewrite <-Hperm, <-Hc. simpl. perm_count.
  - by apply Forall_insert.
  - simpl in Hb. rewrite <-Hc, length_app in Hb. lia.
Qed.

(** ** The loops *)

Definition idle_batch (s : hyaline hlog) (i : nat) : Prop :=
  ∀ bt, local_batch s !! i = Some bt → b_first bt = 0.

(** In the destructor: [N] are the nodes of the batch it has taken out, and the
    threads before [k], but its own, have nothing collected. *)
Record draining (N todo : list Z) (R k : nat) (s : hyaline hlog) : Prop := {
  dr_mem : ∃ L locs, length L = n ∧ length locs = n ∧ mem_ok None N [] L locs s ∧ account todo R locs (world s);
  dr_rsrv : rsrv s = replicate n invptr;
  dr_batches : length (local_batch s) = n;
  dr_progress : length (h_in_progress s) = n;
  dr_clean j : (j < k)%nat → j ≠ tid → idle_batch s j
}.

(** The flags and the log do not matter to the memory. *)
Lemma mem_ok_same skip N G L locs s s' :
  mem_ok skip N G L locs s → nodes s' = nodes s → rsrv s' = rsrv s → h_critical s' = h_critical s →
  local_batch s' = local_batch s → mem_ok skip N G L locs s'.
Proof. intros [H1 H2 H3 H4 H5 H6 H7] E1 E2 E3 E4. split; rewrite ?E1, ?E2, ?E3, ?E4; done. Qed.

Lemma draining_flag N todo R k b s :
  draining N todo R k s → draining N todo R k (set_h_in_progress (<[tid := b]> (h_in_progress s)) s).
Proof.
  intros [(L & locs & HL & Hlo & Hm & Ha) H1 H2 H3 H4]. split; simpl; rewrite ?length_insert; try done.
  exists L, locs. split_and!; try done. by eapply mem_ok_same.
Qed.

(** A batch of no nodes. *)
Lemma idle_none skip N G L locs s i bt lg o :
  mem_ok skip N G L locs s → local_batch s !! i = Some bt → b_first bt = 0 → L !! i = Some lg → locs !! i = Some o →
  lg = None ∧ fst o = [].
Proof.
  intros Hm Hbt Hf HL Ho. pose proof (mo_locals _ _ _ _ _ _ Hm i bt lg o Hbt HL Ho) as Hlok.
  destruct lg as [g|]; simpl in Hlok; [|by destruct Hlok]. destruct Hlok as (_ & Hfg & _). exfalso.
  assert (g_first g ≠ 0); [|congruence]. apply (mo_addr _ _ _ _ _ _ Hm), elem_of_app. right. apply elem_of_app. right.
  apply local_nodes_elem. exists g. split; [by eapply list_elem_of_lookup_2|]. unfold nodes_of, g_first. destruct (g_slots g); by left.
Qed.

(** One object is retired by an action of the destructor. *)
Lemma drain_push ejectf p ty todo N R k s :
  draining N (p :: todo) R k s → Z.of_nat R < 2 ^ 64 → p ≠ 0 → P ty → h_in_progress s !! tid = Some true →
  wp (hy_retire ejectf 1 tid p ty)
     (λ _ s', draining N todo R k s' ∧ h_in_progress s' = h_in_progress s ∧
              ∀ q, q ∈ N → nodes s' !! q = nodes s !! q) s.
Proof.
  intros [(L & locs & HL & Hlo & Hm & Ha) Hr Hb Hpr Hcl] HR Hp Ht Hip.
  destruct (lookup_lt_is_Some_2 (local_batch s) tid) as [bt Hbt]; [lia|].
  destruct (lookup_lt_is_Some_2 locs tid) as [[objs ty0] Ho]; [lia|].
  destruct (lookup_lt_is_Some_2 L tid) as [lg Hlg]; [lia|].
  assert (length objs ≤ length (collected locs))%nat as Hlen.
  { pose proof (concat_insert_perm locs tid _ ([], ty0) Ho) as Hc%Permutation_length.
    rewrite !length_app in Hc. unfold collected. simpl in Hc. lia. }
  pose proof (ac_bound _ _ _ _ Ha) as Hbound. simpl in Hbound.
  pose proof (retire_push_ok tid p ty bt objs ty0 lg N [] L locs s Hm Hlg Ho Hbt ltac:(lia)) as Hpush.
  apply (retire_busy _ _ _ _ bt); [done..|]. set (a := malloc (dom (nodes s))) in *. simpl in Hpush |- *.
  destruct (if b_first bt =? 0 then _ else _) as [nd refs]. destruct Hpush as [g Hm1]. split; [|split; [done|]].
  - split; simpl; rewrite ?length_insert; try done.
    + eexists _, _. split; [|split; [|split; [exact Hm1|]]]; rewrite ?length_insert; try done.
      simpl. eapply account_push; [exact Ha|exact Ho|exact Ht].
    + intros j Hj Hne bt'. simpl. rewrite list_lookup_insert_ne by done. by apply Hcl.
  - intros q Hq. simpl. apply lookup_insert_ne. intros <-.
    assert (is_Some (nodes s !! a)) as [? Hs] by (apply (mo_dom _ _ _ _ _ _ Hm), elem_of_app; by left).
    assert (a ∉ dom (nodes s)) as Hf by apply malloc_fresh. apply Hf, elem_of_dom. eauto.
Qed.

Lemma drain_children ejectf cs todo N R k s :
  draining N ((fst <$> cs) ++ todo) R k s → Z.of_nat R < 2 ^ 64 → Forall (λ c, fst c ≠ 0) cs →
  Forall (λ c, P (snd c)) cs → h_in_progress s !! tid = Some true →
  wp (for_each (λ x, hy_retire ejectf 1 tid (fst x) (snd x)) cs)
     (λ _ s', draining N todo R k s' ∧ h_in_progress s' = h_in_progress s ∧
              ∀ q, q ∈ N → nodes s' !! q = nodes s !! q) s.
Proof.
  intros Hd HR. revert s Hd. induction cs as [|[p ty] cs IH]; intros s Hd Hnn HP Hip; simpl; [by wp_step|].
  apply Forall_cons in Hnn as [? ?], HP as [? ?]. wp_step.
  eapply wp_mono; [by apply (drain_push _ p ty (cs.*1 ++ todo) N R k s Hd)|]. intros _ s1 (Hd1 & Hip1 & Hn1). cbv beta.
  eapply wp_mono; [apply IH; [done..|by rewrite Hip1]|]. intros _ s2 (Hd2 & Hip2 & Hn2).
  split; [done|]. split; [congruence|]. intros q Hq. by rewrite Hn2, Hn1.
Qed.

(** One action of the destructor. *)
Lemma drain_eject d p ty todo N R k s :
  draining N (p :: todo) R k s → Z.of_nat R < 2 ^ 64 → P ty → h_in_progress s !! tid = Some true →
  wp (cascade_eject (S d) tid p ty)
     (λ _ s', draining N todo (R - 1) k s' ∧ h_in_progress s' = h_in_progress s ∧
              ∀ q, q ∈ N → nodes s' !! q = nodes s !! q) s.
Proof.
  intros [(L & locs & HL & Hlo & Hm & Ha) Hr Hb Hpr Hcl] HR Ht Hip. cbn [cascade_eject]. unfold log_eject.
  wp_step. wp_step. wp_step. wp_step. set (s1 := Hyaline _ _ _ _ _ _).
  apply (drain_children (cascade_eject d tid) (children (world s) p ty) todo N (R - 1) k s1); [|lia|by auto..].
  split; try done. exists L, locs. split_and!; try done; [by eapply mem_ok_same|]. by apply account_eject.
Qed.

Lemma draining_delete m N todo R k s :
  draining (m :: N) todo R k s → draining N todo R k (set_nodes (delete m (nodes s)) s).
Proof.
  intros [(L & locs & HL & Hlo & Hm & Ha) H1 H2 H3 H4]. split; try done. exists L, locs. split_and!; try done.
  apply (mem_ok_freed_part None [m] N [] L locs [] s _ Hm). split_and!; try done; [|by rewrite app_nil_r].
  intros q. simpl. rewrite lookup_delete. repeat case_decide; try done; set_solver.
Qed.

Lemma draining_addr N todo R k s q :
  draining N todo R k s → q ∈ N → q ≠ 0.
Proof. intros [(L & locs & _ & _ & Hm & _) _ _ _ _] Hq. apply (mo_addr _ _ _ _ _ _ Hm), elem_of_app. by left. Qed.

Lemma draining_nodup N todo R k s : draining N todo R k s → NoDup N.
Proof. intros [(L & locs & _ & _ & Hm & _) _ _ _ _]. by apply mo_nodup, NoDup_app in Hm as [? _]. Qed.

(** One round of the loop over the nodes of a batch. *)
Lemma drain_node d fuel m nd refs ro w ty bl N todo R k s (Q : unit → hyaline hlog → Prop) :
  draining (m :: N) (n_obj nd :: todo) R k s → Z.of_nat R < 2 ^ 64 → P ty →
  nodes s !! m = Some nd → refs ∈ m :: N → nodes s !! refs = Some (HNode ro w (LDecrement ty) bl) →
  (∀ s', draining N todo (R - 1) k s' → (∀ q, q ∈ N → nodes s' !! q = nodes s !! q) →
     if m =? refs then Q tt s' else wp (drain_batch (cascade_eject (S d) tid) fuel tid refs (n_word nd)) Q s') →
  wp (drain_batch (cascade_eject (S d) tid) (S fuel) tid refs m) Q s.
Proof.
  intros Hd HR Ht Hm Hin Hr HQ. cbn [drain_batch].
  assert (m ≠ 0) as Hm0 by (eapply draining_addr; [done|by left]).
  assert (refs ≠ 0) as Hr0 by (by eapply draining_addr).
  rewrite (proj2 (Z.eqb_neq _ _) Hm0). wp_step. eapply wp_node_at; [done..|]. wp_step. wp_step. wp_step. wp_step.
  wp_step. eapply wp_node_at; [done|exact Hr|]. wp_step. unfold read_decrement. simpl. wp_step. wp_step.
  eapply wp_mono.
  { apply (drain_eject d (n_obj nd) ty todo (m :: N) R k); [by apply draining_flag|done..|].
    simpl. apply list_lookup_insert_eq. by rewrite (dr_progress _ _ _ _ _ Hd). }
  intros _ s1 (Hd1 & _ & Hn1). cbv beta. wp_step. wp_step. wp_step. unfold delete_node. wp_step.
  apply (draining_flag _ _ _ _ false), draining_delete in Hd1. specialize (HQ _ Hd1).
  assert (∀ q, q ∈ N → nodes (set_nodes (delete m (nodes s1)) s1) !! q = nodes s !! q) as Hag.
  { intros q Hq. simpl. rewrite lookup_delete_ne; [apply Hn1; by right|]. intros <-.
    by apply draining_nodup, NoDup_cons in Hd as [? _]. }
  specialize (HQ Hag). destruct (m =? refs); [by wp_step|done].
Qed.

Lemma drain_nodes d fuel slots refs ro objs w ty bl R k s :
  (length slots < fuel)%nat → draining (slots ++ [refs]) objs R k s → Z.of_nat R < 2 ^ 64 → P ty →
  slot_chain (nodes s) slots refs ro objs → nodes s !! refs = Some (HNode ro w (LDecrement ty) bl) →
  wp (drain_batch (cascade_eject (S d) tid) fuel tid refs (hd refs slots))
     (λ _ s', draining [] [] (R - length objs) k s') s.
Proof.
  revert objs fuel R s. induction slots as [|m slots IH]; intros objs [|fuel] R s Hf Hd HR Ht Hc Hr; simpl in Hf; try lia.
  - destruct objs as [|o [|]]; simpl in Hc; try done. subst o. simpl hd.
    apply (drain_node d fuel refs (HNode ro w (LDecrement ty) bl) refs ro w ty bl [] [] R k s); [exact Hd|done|done|done|by left|done|].
    intros s' Hd' _. by rewrite Z.eqb_refl.
  - destruct objs as [|o objs]; simpl in Hc; try done. destruct Hc as [[lk Hn] Hc]. simpl hd.
    apply (drain_node d fuel m (HNode o (hd refs slots) lk refs) refs ro w ty bl (slots ++ [refs]) objs R k s); [exact Hd|done|done|done| |done|].
    { right. apply elem_of_app. right. by left. }
    intros s' Hd' Hag. pose proof (draining_nodup _ _ _ _ _ Hd) as Hnd. simpl in Hnd.
    apply NoDup_cons in Hnd as [Hni _]. assert (m ≠ refs) as Hmr by set_solver. rewrite (proj2 (Z.eqb_neq _ _) Hmr). simpl.
    eapply wp_mono; [apply (IH objs fuel (R - 1)%nat s')|].
    + lia.
    + done.
    + lia.
    + done.
    + eapply slot_chain_agree; [|done]. intros q Hq. apply Hag, elem_of_app. by left.
    + rewrite Hag; [done|]. apply elem_of_app. right. by left.
    + intros u s2 Hd2. simpl. by replace (R - S (length objs))%nat with (R - 1 - length objs)%nat by lia.
Qed.

(** The batch of a thread is taken out. *)
Lemma draining_take i bt R k s :
  draining [] [] R k s → local_batch s !! i = Some bt → b_first bt ≠ 0 → (i < n)%nat →
  ∃ slots ro objs ty, objs ≠ [] ∧ (length objs ≤ R)%nat ∧ P ty ∧ (length slots < size (nodes s))%nat ∧
    b_first bt = hd (b_refs bt) slots ∧
    slot_chain (nodes s) slots (b_refs bt) ro objs ∧
    nodes s !! b_refs bt = Some (HNode ro REFC_PROTECT (LDecrement ty) 0) ∧
    draining (slots ++ [b_refs bt]) objs R k (set_batches (<[i := MkBatch 0 (b_refs bt) 0]> (local_batch s)) s).
Proof.
  intros [(L & locs & HL & Hlo & Hm & Ha) Hr Hb Hpr Hcl] Hbt Hf0 Hi.
  destruct (lookup_lt_is_Some_2 L i) as [lg Hlg]; [lia|].
  destruct (lookup_lt_is_Some_2 locs i) as [[objs ty] Ho]; [lia|].
  pose proof (mo_locals _ _ _ _ _ _ Hm i bt lg _ Hbt Hlg Ho) as Hlok.
  destruct lg as [g|]; simpl in Hlok; [|by destruct Hlok as (_ & ? & _)].
  destruct Hlok as ((ro & Hrn & Hch) & Hf & Hrf & _). rewrite Hrf.
  pose proof (mem_ok_flush i g (MkBatch 0 (g_refs g) 0) ty [] L locs (h_in_progress s) s Hm Hlg eq_refl eq_refl) as Hm1.
  pose proof (account_take i objs ty R locs _ Ha Ho) as Ha1.
  assert (objs ≠ []) as Hne by (by intros ->; destruct (g_slots g)).
  exists (g_slots g), ro, objs, ty. split; [done|].
  split; [destruct Ha1 as [_ _ Hbd]; lia|].
  split; [apply ac_types in Ha; rewrite Forall_lookup in Ha; by apply (Ha i (objs, ty))|].
  split; [|split; [done|split; [done|split; [done|]]]].
  - pose proof (mo_nodup _ _ _ _ _ _ Hm1) as Hnd. apply NoDup_app in Hnd as [Hnd _].
    assert (length (nodes_of g) ≤ size (nodes s))%nat as Hsz.
    { apply length_le_size; [done|]. intros q Hq. apply (mo_dom _ _ _ _ _ _ Hm1), elem_of_app. by left. }
    unfold nodes_of in Hsz. rewrite length_app in Hsz. simpl in Hsz. lia.
  - split; simpl; rewrite ?length_insert; try done.
    + exists (<[i := None]> L), (<[i := ([], ty)]> locs). rewrite !length_insert. by split_and!.
    + intros j Hj Hne' bt'. simpl. rewrite list_lookup_insert. case_decide as Hij; [|by apply Hcl].
      by intros [= <-].
Qed.

(** The loop over what a thread has collected. *)
Lemma drain_thread_done d fuel i R k s :
  (R < fuel)%nat → draining [] [] R k s → Z.of_nat R < 2 ^ 64 → (i < n)%nat →
  wp (drain_thread (cascade_eject (S d) tid) fuel tid i)
     (λ _ s', idle_batch s' i ∧ ∃ R', draining [] [] R' k s' ∧ ((R' < R)%nat ∨ R' = R ∧ s' = s)) s.
Proof.
  revert R s. induction fuel as [|fuel IH]; intros R s HRf Hd HR Hi; [lia|]. cbn [drain_thread].
  destruct (lookup_lt_is_Some_2 (local_batch s) i) as [bt Hbt]; [rewrite (dr_batches _ _ _ _ _ Hd); lia|].
  wp_step. wp_step. wp_step. wp_step; [done|]. destruct (Z.eqb_spec (b_first bt) 0) as [Hf|Hf].
  - wp_step. split; [intros bt'; congruence|]. exists R. auto.
  - destruct (draining_take i bt R k s Hd Hbt Hf Hi) as (slots & ro & objs & ty & Hne & HoR & Ht & Hsz & Hfst & Hch & Hrn & Hd1).
    wp_step. wp_step. wp_step. rewrite Hfst.
    eapply wp_mono; [by eapply (drain_nodes d (size (nodes s)) slots (b_refs bt) ro objs)|]. intros u s1 Hd2. cbv beta.
    assert (0 < length objs)%nat by (destruct objs; [done|simpl; lia]).
    eapply wp_mono; [apply (IH (R - length objs)%nat s1); [lia|done|lia|done]|].
    intros _ s2 (Hid & R' & Hd3 & HR'). split; [done|]. exists R'. split; [done|]. left.
    destruct HR' as [?|[-> _]]; lia.
Qed.

Lemma draining_weaken N todo R k k' s : (k' ≤ k)%nat → draining N todo R k s → draining N todo R k' s.
Proof. intros Hk [H1 H2 H3 H4 H5]. split; try done. intros j Hj. apply H5. lia. Qed.

(** One pass over the threads: what the thread of the destructor has collected at
    the end was retired by actions of the pass. *)
Lemma drain_pass d fuel R s :
  (R < fuel)%nat → draining [] [] R 0 s → Z.of_nat R < 2 ^ 64 →
  wp (for_each (λ i, r ← gets rsrv; l ← at_ r i; assert_ (l =? invptr);;
                     drain_thread (cascade_eject (S d) tid) fuel tid i) (seq 0 n))
     (λ _ s', ∃ R', draining [] [] R' n s' ∧ (R' ≤ R)%nat ∧ (idle_batch s' tid ∨ (R' < R)%nat)) s.
Proof.
  intros HRf Hd HR. eapply wp_mono.
  { apply (wp_for_each _ (λ l s', ∃ k R', l = seq k (n - k) ∧ (k ≤ n)%nat ∧ draining [] [] R' k s' ∧ (R' ≤ R)%nat ∧
                                          ((tid < k)%nat → idle_batch s' tid ∨ (R' < R)%nat))).
    - exists 0%nat, R. rewrite Nat.sub_0_r. split_and!; try done; lia.
    - intros i l' s1 (k & R1 & Hseq & Hk & Hd1 & HR1 & Htk). destruct (n - k)%nat as [|m] eqn:Hnk; [done|].
      simpl in Hseq. injection Hseq as -> ->. wp_step. wp_step. wp_step.
      eapply wp_at; [rewrite (dr_rsrv _ _ _ _ _ Hd1); apply lookup_replicate; split; [done|lia]|].
      wp_step. wp_step; [done|]. eapply wp_mono; [apply (drain_thread_done d fuel k R1 k s1); [lia|done|lia|lia]|].
      intros u s2 (Hid & R2 & Hd2 & HR2). exists (S k), R2.
      split; [f_equal; lia|]. split; [lia|]. split; [|split; [lia|]].
      + destruct Hd2 as [H1 H2 H3 H4 H5]. split; try done. intros j Hj Hne.
        destruct (decide (j = k)) as [->|]; [done|]. apply H5; [lia|done].
      + intros Hlt. destruct (decide (tid = k)) as [->|]; [by left|].
        destruct HR2 as [?|[-> ->]]; [right; lia|]. apply Htk. lia. }
  intros u s' (k & R' & Hseq & Hk & Hd' & HR' & Hid). destruct (n - k)%nat eqn:Hnk; [|done].
  replace k with n in * by lia. eauto.
Qed.

Lemma shutdown_done d fuel R s :
  (R < fuel)%nat → draining [] [] R 0 s → Z.of_nat R < 2 ^ 64 →
  wp (hy_shutdown (cascade_eject (S d) tid) fuel tid) (λ _ s', ∃ R', draining [] [] R' n s' ∧ idle_batch s' tid) s.
Proof.
  revert R s. induction fuel as [|fuel IH]; intros R s HRf Hd HR; [lia|]. cbn [hy_shutdown].
  wp_step. wp_step. wp_step. rewrite (dr_batches _ _ _ _ _ Hd). eapply wp_mono; [by apply (drain_pass d (S fuel) R)|].
  intros u s1 (R1 & Hd1 & HR1 & Hid). cbv beta. wp_step. wp_step. wp_step.
  destruct (lookup_lt_is_Some_2 (local_batch s1) tid) as [bt Hbt]; [by rewrite (dr_batches _ _ _ _ _ Hd1)|].
  wp_step; [done|]. destruct (Z.eqb_spec (b_first bt) 0) as [Hf|Hf].
  - wp_step. exists R1. split; [done|]. intros bt'. congruence.
  - destruct Hid as [Hid|Hlt]; [by apply Hid in Hbt|]. apply (IH R1); [lia| |lia]. eapply draining_weaken; [|done]. lia.
Qed.

(** Nothing is left when nobody has anything collected. *)
Lemma drained_all R s :
  draining [] [] R n s → idle_batch s tid →
  nodes s = ∅ ∧ ∃ new, world s = log0 ++ new ∧ Forall (λ x, P (snd x)) new ∧
    (fst <$> new) ≡ₚ objs0 ++ (fst <$> spawned log0 new).
Proof.
  intros [(L & locs & HL & Hlo & Hm & Ha) Hr Hb Hpr Hcl] Hid.
  assert (∀ i lg o, L !! i = Some lg → locs !! i = Some o → lg = None ∧ fst o = []) as Hall.
  { intros i lg o Hlg Ho. assert (i < n)%nat as Hi by (rewrite <-HL; by eapply lookup_lt_Some).
    destruct (lookup_lt_is_Some_2 (local_batch s) i) as [bt Hbt]; [lia|].
    eapply idle_none; [done..| |done|done]. destruct (decide (i = tid)) as [->|]; [by apply Hid|]. by eapply Hcl. }
  assert (collected locs = []) as Hc.
  { unfold collected. apply concat_nil_Forall, Forall_fmap, Forall_lookup. intros i o Ho.
    destruct (lookup_lt_is_Some_2 L i) as [lg Hlg]; [rewrite HL, <-Hlo; by eapply lookup_lt_Some|].
    by destruct (Hall i lg o Hlg Ho). }
  split.
  - apply map_empty. intros p. destruct (nodes s !! p) as [nd|] eqn:Hp; [|done]. exfalso.
    assert (p ∈ local_nodes L) as Hin by (apply (mo_dom _ _ _ _ _ _ Hm p); by eexists).
    apply local_nodes_elem in Hin as (g & (i & Hlg)%list_elem_of_lookup & _).
    destruct (lookup_lt_is_Some_2 locs i) as [o Ho]; [rewrite Hlo, <-HL; by eapply lookup_lt_Some|].
    by destruct (Hall i _ o Hlg Ho).
  - destruct Ha as [(new & Hlog & HP & Hperm) _ _]. exists new. split; [done|]. split; [done|].
    rewrite <-Hperm, Hc. simpl. by rewrite app_nil_r.
Qed.

End accounts.

(** ** The destructor *)

(** The actions of the batch a thread collected. *)
Definition thread_log (o : list Z * RetireType) : hlog := batch_log (fst o) (snd o).

Lemma same_type_perm ty0 (l l' : hlog) :
  Forall (λ x, snd x = ty0) l → Forall (λ x, snd x = ty0) l' → l.*1 ≡ₚ l'.*1 → l ≡ₚ l'.
Proof.
  assert (∀ l : hlog, Forall (λ x, snd x = ty0) l → l = batch_log l.*1 ty0) as Heq.
  { clear. intros l. induction 1 as [|[p ty] l Hx Hl IH]; [done|]. unfold batch_log in *. csimpl in *. congruence. }
  intros Hl%Heq Hl'%Heq Hp. rewrite Hl, Hl'. unfold batch_log. by rewrite Hp.
Qed.

Lemma spawned_types ty0 log new :
  (∀ log p, Forall (λ c, snd c = ty0) (children log p ty0)) → Forall (λ x, snd x = ty0) new →
  Forall (λ c, snd c = ty0) (spawned log new).
Proof.
  intros Hc Hn. revert log. induction Hn as [|[p ty] new Hx Hn IH]; intros log; simpl in *; [done|]. subst ty.
  by apply Forall_app.
Qed.

(** The start of the destructor, with no thread inside. *)
Lemma hrel_draining pot (P : RetireType → Prop) tid sp s :
  hrel sp s → (∀ i, s_critical sp !! i ≠ Some true) → Forall (λ o, fst o ≠ [] → P (snd o)) (s_local sp) →
  draining pot P tid (length (rsrv s)) (s_log sp) (collected (s_local sp)) [] []
    (length (collected (s_local sp)) + pot (s_log sp)) 0 s.
Proof.
  intros [(G & L & HG & HL & Hm) Hcr Hlog Hl1 Hl2 Hl3 Hl4 _ _] Hout Hty.
  assert (G = []) as ->.
  { destruct G as [|[g b] G]; [done|]. destruct (mo_batches _ _ _ _ _ _ Hm g b) as [_ _ Hne _]; [by left|].
    destruct (p_holders b) as [|i h] eqn:Hh; [done|]. exfalso. apply (Hout i). rewrite <-Hcr.
    apply (mo_holders _ _ _ _ _ _ Hm g b); [by left|]. rewrite Hh. by left. }
  split; try done; [| |lia].
  - exists L, (s_local sp). split_and!; try done. rewrite Hlog. split; [|done|simpl; lia].
    exists []. simpl. by rewrite !app_nil_r.
  - apply list_eq. intros i. destruct (rsrv s !! i) as [r|] eqn:Hr; symmetry; last first.
    { apply lookup_ge_None_2. rewrite length_replicate. by apply lookup_ge_None. }
    apply lookup_replicate. split; [|by eapply lookup_lt_Some].
    pose proof (mo_lists _ _ _ _ _ _ Hm i r ltac:(done) Hr) as Hi. specialize (Hout i). rewrite <-Hcr in Hout.
    destruct (h_critical s !! i) as [[]|]; congruence.
Qed.

(** The destructor returns, for actions whose types all satisfy [P]. *)
Lemma shutdown_returns (pot : hlog → nat) (P : RetireType → Prop) d fuel tid sp s :
  (∀ log p ty, (pot (log ++ [(p, ty)]) + length (children log p ty) ≤ pot log)%nat) →
  (∀ log p ty, Forall (λ c, fst c ≠ 0) (children log p ty)) →
  (∀ log p ty, P ty → Forall (λ c, P (snd c)) (children log p ty)) →
  hrel sp s → (∀ i, s_critical sp !! i ≠ Some true) → Forall (λ o, fst o ≠ [] → P (snd o)) (s_local sp) →
  (tid < length (rsrv s))%nat → Z.of_nat (length (collected (s_local sp)) + pot (s_log sp)) < 2 ^ 64 →
  (length (collected (s_local sp)) + pot (s_log sp) < fuel)%nat →
  ∃ s' new, hy_shutdown (cascade_eject (S d) tid) fuel tid s = Ok (tt, s') ∧ nodes s' = ∅ ∧
    world s' = s_log sp ++ new ∧ Forall (λ x, P (snd x)) new ∧
    new.*1 ≡ₚ collected (s_local sp) ++ (spawned (s_log sp) new).*1.
Proof.
  intros Hpot Hnn HtyP Hrel Hout Hty Ht HR Hf.
  pose proof (hrel_draining pot P tid sp s Hrel Hout Hty) as Hd.
  pose proof (shutdown_done pot P tid _ _ _ Hpot Hnn HtyP Ht d fuel _ s Hf Hd HR) as Hw.
  apply wp_ok in Hw as ([] & s' & Hs' & R' & Hd' & Hid).
  destruct (drained_all _ _ _ _ _ _ Ht _ _ Hd' Hid) as (Hn & new & Hlog & HP & Hperm). by exists s', new.
Qed.

(** C37. Shutting Hyaline down, when the actions it applies retire further objects.
    From any state of the tracker with nobody inside, whatever an action retires, as
    long as there is a bound on how much is retired in all, the destructor returns
    (its loops end and its assertions hold), every node is deleted, and an action is
    applied exactly once to every object that was collected and to every object that
    an applied action retired.  Where everything is retired for the same action,
    the actions applied are those that were asked for. *)
Theorem hyaline_shutdown_complete (pot : hlog → nat) d fuel tid sp s :
  (∀ log p ty, (pot (log ++ [(p, ty)]) + length (children log p ty) ≤ pot log)%nat) →
  (∀ log p ty, Forall (λ c, fst c ≠ 0) (children log p ty)) →
  hrel sp s → (∀ i, s_critical sp !! i ≠ Some true) → (tid < length (rsrv s))%nat →
  Z.of_nat (length (collected (s_local sp)) + pot (s_log sp)) < 2 ^ 64 →
  (length (collected (s_local sp)) + pot (s_log sp) < fuel)%nat →
  ∃ s' new, hy_shutdown (cascade_eject (S d) tid) fuel tid s = Ok (tt, s') ∧ nodes s' = ∅ ∧
    world s' = s_log sp ++ new ∧
    new.*1 ≡ₚ collected (s_local sp) ++ (spawned (s_log sp) new).*1 ∧
    ∀ ty0, Forall (λ o, fst o ≠ [] → snd o = ty0) (s_local sp) →
      (∀ log p, Forall (λ c, snd c = ty0) (children log p ty0)) →
      new ≡ₚ concat (thread_log <$> s_local sp) ++ spawned (s_log sp) new.
Proof.
  intros Hpot Hnn Hrel Hout Ht HR Hf.
  destruct (shutdown_returns pot (λ _, True) d fuel tid sp s) as (s' & new & Hs' & Hn & Hlog & _ & Hperm); try done.
  { intros. by apply Forall_true. } { by apply Forall_true. }
  exists s', new. split_and!; try done. intros ty0 Hty Hc.
  destruct (shutdown_returns pot (λ ty, ty = ty0) d fuel tid sp s) as (s2 & new2 & Hs2 & _ & Hlog2 & HP2 & _); try done.
  { by intros log p ty ->. }
  assert (s2 = s') as -> by congruence. rewrite Hlog in Hlog2. apply app_inv_head in Hlog2 as <-.
  apply (same_type_perm ty0); [done| |].
  - apply Forall_app. split; [|by apply spawned_types]. apply Forall_concat, Forall_fmap.
    eapply Forall_impl; [exact Hty|]. intros [objs ty] Ho. simpl in *. unfold thread_log, batch_log. simpl.
    apply Forall_fmap, Forall_forall. intros p Hp. simpl. apply Ho. by intros ->; apply elem_of_nil in Hp.
  - rewrite Hperm, fmap_app. f_equiv. clear. unfold collected. induction (s_local sp) as [|o l IH]; csimpl; [done|].
    unfold thread_log at 1. by rewrite fmap_app, batch_log_objs, IH.
Qed.

End cascade.
