(* ===== verification/HyalineManager.v ===== *)
(** * The manager that uses Hyaline
    ([acquire_retire_hyaline] of
    src/include/cdrc/internal/smr/acquire_retire_hyaline.h)

    The tracker of Hyaline.v with [memory_manager_base] on top: [eject] of the
    base is what a batch is applied with, and what it destroys retires again.
    The memory of the tracker is the part [announcements] of the state; the
    deferred lists of the other backends stay empty. *)

From S2P Require Import Prelude StickyCounter CountedObject MemoryManager AtomicLoc AcquireRetireEBR Backend Hyaline.
Local Open Scope Z_scope.

Section hyaline_manager.
  Context {V : Type} `{Pol : !Policy} `{Alloc : !Allocator}.
  Local Abbreviation st := (state V (hyaline unit) unit).
  Local Abbreviation M := (M st).

(** The tracker acts on its part of the state, and [eject] on the whole. *)
Definition to_tracker (s : st) : hyaline st :=
  let x := announcements s in
  Hyaline (nodes x) (rsrv x) (h_critical x) (local_batch x) (h_in_progress x) s.

Definition of_tracker (h : hyaline st) : st :=
  set_announcements (Hyaline (nodes h) (rsrv h) (h_critical h) (local_batch h) (h_in_progress h) tt) (world h).

Definition run_tracker {A} (m : Prelude.M (hyaline st) A) : M A := λ s,
  match m (to_tracker s) with
  | Ok (a, h) => Ok (a, of_tracker h)
  | Err e => Err e
  end.

Definition in_tracker {A} (m : M A) : Prelude.M (hyaline st) A := λ h,
  match m (of_tracker h) with
  | Ok (a, s) => Ok (a, to_tracker s)
  | Err e => Err e
  end.

(** [strong_eject], [weak_eject] and [dispose_eject] *)
Definition hyaline_eject (self : derived V (hyaline unit) unit) (tid : nat) (obj : Z) (type : RetireType) :
    Prelude.M (hyaline st) unit :=
  in_tracker (eject self tid obj type).

Fixpoint hyaline_manager (n : nat) : derived V (hyaline unit) unit :=
  match n with
  | O => Derived (λ _ _ _, fail OutOfFuel) (λ _ _, fail OutOfFuel)
  | S n' =>
      Derived (λ tid p type, run_tracker (hy_retire (hyaline_eject (hyaline_manager n') tid) (S n) tid p type))
              (destruct_members (hyaline_manager n'))
  end.

Definition hyaline_create_object (tid : nat) (v : payload V) : M Z :=
  increment_allocations tid;;
  new_object 0 v.

Definition hyaline_delete_object (tid : nat) (p : Z) : M unit :=
  o ← deref p;
  assert_ (disposed o);;
  modify (λ s, set_heap (delete p (heap s)) s);;
  decrement_allocations tid.

Definition hyaline_acquire (tid : nat) (p : loc) : M basic_acquired_pointer :=
  v ← loc_load p;
  mret (BasicAcquired v).

Definition hyaline_reserve (tid : nat) (p : Z) : M basic_acquired_pointer := mret (BasicAcquired p).
Definition hyaline_reserve_nothing : basic_acquired_pointer := basic_null.

Definition hyaline_protect_snapshot (tid : nat) (p : loc) : M basic_acquired_pointer :=
  ptr ← loc_load p;
  dead ← (if raw ptr =? 0 then mret false
          else n ← with_obj (raw ptr) get_use_count; mret (n =? 0));
  mret (BasicAcquired (if dead : bool then 0 else ptr)).

(** A guard around calls of the pointer library. *)
Definition with_guard (n : nat) (tid : nat) {A} (f : M A) : M A :=
  run_tracker (with_hyaline_guard (hyaline_eject (hyaline_manager n) tid) tid (in_tracker f)).

(** [~acquire_retire_hyaline] *)
Definition hyaline_shutdown (n : nat) (fuel : nat) (tid : nat) : M unit :=
  run_tracker (hy_shutdown (hyaline_eject (hyaline_manager n) tid) fuel tid).

Definition acquire_retire_hyaline_init (num_threads : nat) : st :=
  State ∅ ∅ (replicate num_threads 0) (hyaline_init num_threads tt)
    (replicate num_threads false) (replicate num_threads []) (replicate num_threads 0).

End hyaline_manager.

#[export] Instance hyaline_backend {V : Type} `{Pol : !Policy} `{Alloc : !Allocator} :
    Backend V (hyaline unit) unit := {
  acquired := basic_acquired_pointer;
  acq_value := bvalue;
  acq_set := basic_set;
  acq_null := basic_null;
  acq_is_protected := basic_is_protected;
  acq_clear := basic_clear;
  acq_destruct := basic_clear_protection;
  mm_acquire := hyaline_acquire;
  mm_reserve := hyaline_reserve;
  mm_reserve_nothing := hyaline_reserve_nothing;
  mm_protect_snapshot := hyaline_protect_snapshot;
  mm_create_object := hyaline_create_object
}.

(** Running the manager's code inside the tracker and back changes nothing. *)
Lemma run_in_tracker {V A} (m : M (state V (hyaline unit) unit) A) s : run_tracker (in_tracker m) s = m s.
Proof.
  unfold run_tracker, in_tracker, of_tracker, to_tracker. destruct s as [h c na [n r cr lb ip []] i d w]. simpl.
  destruct (m _) as [[a [h' c' na' [n' r' cr' lb' ip' []] i' d' w']]|e]; done.
Qed.
