(* ===== verification/Demos.v ===== *)
(** * Concrete runs

    The theorems about the pointers applied to concrete states of the
    hazard-pointer and epoch-based backends, evaluated; and the run that shows
    what [exchange] does to a snapshot. *)

From S2P Require Import Prelude StickyCounter CountedObject MemoryManager Accounting ManagerSafety AtomicLoc Backend MarkedPtr EpochTracker AcquireRetire AcquireRetireEBR AcquireRetireIBR InvCheck Reclamation RcPtr SnapshotPtr AtomicRcPtr AtomicWeakPtr Client Hyaline HyalineRefine HyalineProps HyalineShutdown HyalineManager.

(** An allocator: the first multiple of 16 above every address in use. *)
Definition bump_malloc (used : gset Z) : Z :=
  (16 * (1 + foldr Z.max 0 (Z.abs <$> elements used)))%Z.

Lemma bump_above used p : p ∈ used → (p < bump_malloc used)%Z.
Proof.
  intros Hp. unfold bump_malloc.
  assert (p ≤ foldr Z.max 0 (Z.abs <$> elements used))%Z as Hle.
  { apply elem_of_elements in Hp. induction (elements used) as [|q l IH]; [by apply elem_of_nil in Hp|].
    csimpl. apply elem_of_cons in Hp as [<-|Hp]; [lia|]. specialize (IH Hp). lia. }
  assert (0 ≤ foldr Z.max 0 (Z.abs <$> elements used))%Z.
  { clear. induction (elements used); csimpl; lia. }
  lia.
Qed.

Lemma bump_positive used : (0 < bump_malloc used)%Z.
Proof.
  unfold bump_malloc. assert (0 ≤ foldr Z.max 0 (Z.abs <$> elements used))%Z; [|lia].
  induction (elements used); csimpl; lia.
Qed.

Definition bump_allocator : Allocator.
Proof.
  refine {| malloc := bump_malloc |}.
  - intros used Hin%bump_above. lia.
  - intros used. pose proof (bump_positive used). lia.
  - intros used. unfold bump_malloc. rewrite Z.mul_comm.
    replace (16)%Z with (4 * 4)%Z by done. by rewrite Z.mul_assoc, Z.mod_mul.
Defined.

Section demos.
Local Existing Instance default_pointer_policy.
Local Existing Instance bump_allocator.

Definition hp_state : Type := state nat (list LocalSlot) hp_entry.

(** Two threads; root 0 is an [atomic_rc_ptr] to the object at 16, whose member
    is an [atomic_rc_ptr] to the one at 32; root 1 is an [atomic_weak_ptr] to
    the object at 32.  A client holds a reference to the object at 48. *)
Definition demo_heap : gmap Z (counted_object nat) :=
  {[16%Z := CountedObject (Some (Payload 7 [MAtomicRc 32])) 1 1 false 0;
    32%Z := CountedObject (Some (Payload 8 [])) 1 2 false 0;
    48%Z := CountedObject (Some (Payload 9 [MWeak 0])) 1 1 false 0]}.

Definition demo_cells : gmap nat member := {[0 := MAtomicRc 16; 1 := MAtomicWeak 32]}.

Definition demo_hp : hp_state :=
  State demo_heap demo_cells [3%Z; 0%Z] [new_slot; new_slot] [false; false] [[]; []] [0%Z; 0%Z].

Definition demo_owned : list (obl hp_entry) := [OStrong 48].

Lemma demo_hp_inv : Inv (Laws := hp_laws) [] [] demo_owned demo_hp.
Proof.
  apply inv_check_ok; [|done|by vm_compute]. by intros t [?%elem_of_nil|?%elem_of_nil].
Qed.

Lemma demo_hp_read tid : tid < 2 → hp_may_read (announcements demo_hp) tid.
Proof. intros Ht. exists new_slot. split; [|done]. by destruct tid as [|[|tid]]; [..|lia]. Qed.

(** ** Witnesses *)

Lemma arc_store_correct_witness :
  wp (arc_store (manager 20) 1 (LCell 0) 48)
     (λ _ s', preserves (Laws := hp_laws) [] [] [] (put_member (LCell 0) (MAtomicRc 48) demo_hp) s' ∧
              (loc_held (V := nat) (Laws := hp_laws) [] [] [] (LCell 0) → member_at s' (LCell 0) (MAtomicRc 48)) ∧
              announcements s' = announcements demo_hp) demo_hp.
Proof.
  apply (arc_store_correct (Laws := hp_laws) 20 1 [] [] [] (LCell 0) 48 16 demo_hp).
  - simpl. lia.
  - exact demo_hp_inv.
  - reflexivity.
  - vm_compute. lia.
Defined.

Lemma arc_load_correct_witness :
  wp (arc_load 0 (LField 16 0))
     (λ r s', r = 32%Z ∧
              Inv (Laws := hp_laws) [] [] (member_obls (MRc 32) ++ demo_owned) s' ∧
              same_values demo_hp s' ∧
              reads_kept (BackendLaws := hp_backend_laws (V := nat)) (announcements demo_hp) (announcements s')) demo_hp.
Proof.
  apply (arc_load_correct (Laws := hp_laws) 0 [] [] demo_owned (LField 16 0) 32 demo_hp).
  - simpl. lia.
  - apply demo_hp_read. lia.
  - exact demo_hp_inv.
  - split; [done|]. by eexists _, _.
  - by vm_compute.
Defined.

Lemma compare_and_swap_correct_witness :
  wp (compare_and_swap (manager 20) 0 (LCell 0) 16 48 false)
     (λ b s', b = true ∧ reads_kept (BackendLaws := hp_backend_laws (V := nat)) (announcements demo_hp) (announcements s') ∧
        preserves (Laws := hp_laws) [] [] (member_obls (MRc 48) ++ [])
          (if b then put_member (LCell 0) (MAtomicRc 48) demo_hp else demo_hp) s' ∧
        member_at s' (LCell 0) (MAtomicRc (if b then 48 else 16))) demo_hp.
Proof.
  apply (compare_and_swap_correct (Laws := hp_laws) 20 0 [] [] [] (LCell 0) 16 48 16 demo_hp).
  - simpl. lia.
  - apply demo_hp_read. lia.
  - exact demo_hp_inv.
  - reflexivity.
  - done.
  - vm_compute. lia.
  - by vm_compute.
Defined.

Lemma arc_get_snapshot_correct_witness :
  wp (a ← arc_get_snapshot 0 (LCell 0); v ← snap_deref a; mret (a, v))
     (λ r s', acq_value (fst r) = 16%Z ∧ same_values demo_hp s' ∧
        (∃ o, heap demo_hp !! raw 16 = Some o ∧ storage o = Some (snd r)) ∧
        ((∃ t, acq_token (fst r) t ∧ snap_ptr t = raw 16 ∧ Inv (Laws := hp_laws) [t] [] demo_owned s') ∨
         (acq_is_protected (fst r) = false ∧ Inv (Laws := hp_laws) [] [] (OStrong (raw 16) :: demo_owned) s')))
     demo_hp.
Proof.
  apply (arc_get_snapshot_correct (Laws := hp_laws) 0 [] [] demo_owned (LCell 0) 16 demo_hp).
  - simpl. lia.
  - apply demo_hp_read. lia.
  - exact demo_hp_inv.
  - reflexivity.
  - reflexivity.
  - by vm_compute.
Defined.

Lemma arc_exchange_correct_witness :
  wp (arc_exchange (LCell 0) 48)
     (λ r s', r = 16%Z ∧ s' = put_member (LCell 0) (MAtomicRc 48) demo_hp ∧
              Inv (Laws := hp_laws) [] [] (member_obls (MRc 16) ++ []) s') demo_hp.
Proof.
  apply (arc_exchange_correct (Laws := hp_laws) [] [] [] (LCell 0) 48 16 demo_hp).
  - exact demo_hp_inv.
  - reflexivity.
  - intros t Ht. by apply elem_of_nil in Ht.
Defined.

(** The client also holds a weak reference to the object at 48. *)
Definition demo_weak : hp_state :=
  State (<[48%Z := CountedObject (Some (Payload 9 [MWeak 0])) 1 2 false 0]> demo_heap) demo_cells
    [3%Z; 0%Z] [new_slot; new_slot] [false; false] [[]; []] [0%Z; 0%Z].

Lemma aw_store_correct_witness :
  wp (aw_store (manager 20) 1 (LCell 1) 48)
     (λ _ s', preserves (Laws := hp_laws) [] [] demo_owned (put_member (LCell 1) (MAtomicWeak 48) demo_weak) s' ∧
              (loc_held (V := nat) (Laws := hp_laws) [] [] demo_owned (LCell 1) →
               member_at s' (LCell 1) (MAtomicWeak 48)) ∧
              announcements s' = announcements demo_weak) demo_weak.
Proof.
  apply (aw_store_correct (Laws := hp_laws) 20 1 [] [] demo_owned (LCell 1) 48 32 demo_weak).
  - simpl. lia.
  - apply inv_check_ok; [|done|by vm_compute]. by intros t [?%elem_of_nil|?%elem_of_nil].
  - reflexivity.
  - vm_compute. lia.
Defined.

(** For the epoch-based backend: thread 0 holds a guard. *)
Definition demo_ebr : state nat ebr_state RetiredObj :=
  State demo_heap demo_cells [3%Z; 0%Z]
    (EbrState (EpochTracker 5 [3%Z; no_epoch] [true; false]) [0%Z; 0%Z])
    [false; false] [[]; []] [0%Z; 0%Z].

Lemma aw_get_snapshot_correct_witness :
  wp (aw_get_snapshot 0 1 (LCell 1))
     (λ a s', same_values demo_ebr s' ∧ reads_kept (BackendLaws := ebr_backend_laws (V := nat)) (announcements demo_ebr) (announcements s') ∧
        ((a = acq_null ∧ Inv (Laws := ebr_laws) [] [] [OStrong 48] s' ∧
          (is_null 32 = true ∨
           total (on (V := nat) (X := ebr_state) (raw 32) decrement_strong_count) [OStrong 48] demo_ebr = 0%nat)) ∨
         (acq_value a = 32%Z ∧ live s' (raw 32) ∧
          ((∃ t, acq_token a t ∧ (∀ t', t' ∈ [] ∨ t' ∈ [] → apart t t') ∧
                 Inv (Laws := ebr_laws) [] [t] [OStrong 48] s') ∨
           (acq_is_protected a = false ∧ Inv (Laws := ebr_laws) [] [] [OStrong (raw 32); OStrong 48] s')))))
     demo_ebr.
Proof.
  apply (aw_get_snapshot_correct (Laws := ebr_laws) 0 0 [] [] [OStrong 48] (LCell 1) 32 demo_ebr).
  - simpl. lia.
  - exists 3%Z. by split.
  - apply inv_check_ok; [|done|by vm_compute]. by intros t [?%elem_of_nil|?%elem_of_nil].
  - reflexivity.
  - intros o Ho. vm_compute in Ho. injection Ho as <-. split; [done|by vm_compute].
Defined.

(** ** What [exchange] does to a snapshot *)

(** Thread 0 takes a snapshot of the object at 16 and reads it; thread 1
    exchanges the root with null, drops what it got, and thread 0 reads
    again. *)
Definition exchange_race : M hp_state (payload nat) :=
  a ← arc_get_snapshot 0 (LCell 0);
  v ← snap_deref a;
  old ← arc_exchange (LCell 0) 0;
  rc_clear (manager 20) 1 old;;
  snap_deref a.

(** C35. [exchange] (and likewise [swap]) hands out the location's own reference,
    whose destructor decrements at once instead of retiring, so an announced
    snapshot does not protect against it: from a state whose accounts balance,
    a thread that holds a snapshot reads freed memory after another thread
    exchanged the location and dropped the result. *)
Theorem exchange_frees_snapshot :
  Inv (Laws := hp_laws) [] [] demo_owned demo_hp ∧ exchange_race demo_hp = Err UseAfterFree.
Proof. split; [exact demo_hp_inv|]. by vm_compute. Qed.

(** With [store] in place of [exchange] the snapshot stays readable. *)
Definition store_race : M hp_state (payload nat) :=
  a ← arc_get_snapshot 0 (LCell 0);
  v ← snap_deref a;
  arc_store_null (manager 20) 1 (LCell 0);;
  snap_deref a.

Example store_race_safe : fst <$> (match store_race demo_hp with Ok r => Some r | Err _ => None end) =
  Some (Payload 7 [MAtomicRc 32]).
Proof. by vm_compute. Qed.

(** ** A client program *)

(** Every counter of a state has room for one more reference, decided. *)
Definition roomy_check (s : hp_state) : bool :=
  forallb (λ '(_, o), (low cnt_width (ref_cnt o) + 1 <? 2 ^ (cnt_width - 2))%Z) (map_to_list (heap s)).

Lemma roomy_check_ok s : roomy_check s = true → roomy s.
Proof.
  unfold roomy_check. rewrite forallb_forall. intros H p o Ho.
  specialize (H (p, o)). simpl in H. split; [done|]. apply Z.ltb_lt, H.
  by apply list_elem_of_In, elem_of_map_to_list.
Qed.

(** The states after every prefix of a program have room. *)
Definition prefixes_check (prog : list (nat * cmd nat)) (cl : client (X := list LocalSlot)) : bool :=
  forallb (λ k, match run 100 (take k prog) cl with
                | Ok (_, cl') => roomy_check (shared cl')
                | Err _ => true
                end) (seq 0 (S (length prog))).

Lemma prefixes_check_ok prog cl :
  prefixes_check prog cl = true →
  ∀ pre cl', pre `prefix_of` prog → run 100 pre cl = Ok (tt, cl') → resources cl'.
Proof.
  unfold prefixes_check. rewrite forallb_forall. intros H pre cl' [post Hpre] Hr. split; [|done].
  apply roomy_check_ok. specialize (H (length pre)). rewrite Hpre, take_app_length in H.
  rewrite Hr in H. apply H, in_seq. rewrite length_app. lia.
Qed.

(** Two empty roots and two threads. *)
Definition demo_start : client (V := nat) (X := list LocalSlot) (En := hp_entry) :=
  Client ∅ (State ∅ {[0 := MAtomicRc 0; 1 := MAtomicWeak 0]} [0%Z; 0%Z] [new_slot; new_slot]
    [false; false] [[]; []] [0%Z; 0%Z]).

(** Thread 0 publishes an object and a weak pointer to it; thread 1 takes a
    snapshot of it and reads it, while thread 0 replaces it by an object that
    points to it; thread 1 reads again, follows the pointer inside the new
    object, locks the weak pointer, and drops what it holds. *)
Definition demo_prog : list (nat * cmd nat) :=
  [(0, CMake 0 7 [(KAtomicRc, None)]); (0, CWeak 1 0); (0, CCopy 2 0);
   (0, CStore (PRoot 0) 0); (0, CStore (PRoot 1) 1);
   (1, CSnapshot 0 (PRoot 0)); (1, CRead 0);
   (0, CMake 3 8 [(KAtomicRc, Some 2)]); (0, CStore (PRoot 0) 3);
   (1, CRead 0); (1, CSnapshot 1 (PRoot 0)); (1, CLoad 2 (PField 1 0));
   (1, CLoad 3 (PRoot 1)); (1, CLock 4 3); (1, CCas (PRoot 0) 1 4);
   (1, CDrop 0); (1, CDrop 1); (1, CDrop 2); (1, CDrop 3); (1, CDrop 4)].

Lemma client_safe_witness :
  ∃ cl', run 100 demo_prog demo_start = Ok (tt, cl') ∧
         client_inv (Laws := hp_laws) 2 (prog_cost demo_prog) cl'.
Proof.
  apply (client_safe (Laws := hp_laws) 100 2 demo_prog demo_start).
  - exists ∅. split; [|done]. split.
    + by split.
    + apply inv_check_ok; [|done|by vm_compute]. by intros t [?%elem_of_nil|?%elem_of_nil].
    + intros tid Ht. simpl in Ht. exists new_slot. split; [|done]. by destruct tid as [|[|tid]]; [..|lia].
    + vm_compute. lia.
  - repeat (apply Forall_cons; split; [lia|]). by apply Forall_nil.
  - vm_compute. lia.
  - by vm_compute.
  - apply prefixes_check_ok. by vm_compute.
Defined.




End demos.

(** The same program in critical sections of the interval-based backend, with
    the threads' guards taken in epoch 3. *)
Section ibr_demo.
Local Existing Instance default_pointer_policy.
Local Existing Instance bump_allocator.

Definition ibr_start : client (V := nat) (X := ibr_state) (En := IbrRetired) :=
  Client ∅ (State ∅ {[0 := MAtomicRc 0; 1 := MAtomicWeak 0]} [0%Z; 0%Z]
    (IbrState (EpochTracker 5 [3%Z; 3%Z] [true; true]) [3%Z; 4%Z] [0%Z; 0%Z])
    [false; false] [[]; []] [0%Z; 0%Z]).

Example ibr_demo_runs : (λ '(_, c), endTS_ann (announcements (shared c))) <$>
    (match run 100 demo_prog ibr_start with Ok r => Some r | Err _ => None end) = Some [3%Z; 5%Z].
Proof. by vm_compute. Qed.




End ibr_demo.

(** ** Hyaline *)

Section hyaline_demos.
Local Existing Instance default_pointer_policy.
Local Existing Instance bump_allocator.

(** Thread 1 is inside while thread 0 retires five objects, which fills its
    batch; thread 1 retires one and leaves. *)
Definition hyaline_demo : list hop :=
  [HBegin 1; HRetire 0 16 decrement_strong_count; HRetire 0 32 decrement_strong_count;
   HRetire 0 48 decrement_strong_count; HRetire 0 64 decrement_strong_count;
   HRetire 0 80 decrement_strong_count].

Definition hyaline_rest : list hop := [HRetire 1 96 decrement_weak_count; HBegin 0; HEnd 0].

Lemma hyaline_refines_witness :
  let sp := spec_run (hyaline_demo ++ hyaline_rest) (spec_init 2) in
  ∃ s, hrun (hyaline_demo ++ hyaline_rest) (hyaline_init 2 []) = Ok (tt, s) ∧ world s = s_log sp ∧
       h_critical s = s_critical sp ∧
       retired (hyaline_demo ++ hyaline_rest) ≡ₚ
         (fst <$> world s) ++ concat (map p_objs (s_pending sp)) ++ concat (map fst (s_local sp)) ∧
       size (nodes s) + length (world s) = length (retired (hyaline_demo ++ hyaline_rest)).
Proof.
  apply (hyaline_refines 2 (hyaline_demo ++ hyaline_rest)).
  - lia.
  - apply (bool_decide_unpack _). by vm_compute.
Defined.

Lemma hyaline_protects_witness :
  ∃ s1 s2 new, hrun hyaline_demo (hyaline_init 2 []) = Ok (tt, s1) ∧ hrun hyaline_rest s1 = Ok (tt, s2) ∧
    world s2 = world s1 ++ new ∧ (fst <$> new) ⊆+ unheld 1 (s_pending (spec_run hyaline_demo (spec_init 2))).
Proof.
  apply (hyaline_protects 2 hyaline_demo hyaline_rest 1).
  - lia.
  - apply (bool_decide_unpack _). by vm_compute.
  - reflexivity.
  - set_solver.
Defined.

(** Thread 0 has collected the object at 16 and thread 1 the one at 96; the first
    retires one object when it is ejected, and the second two.  Thread 0 shuts
    down: it meets the first in its own batch again, and the other two behind it. *)
Definition demo_children (log : hlog) (p : Z) (ty : RetireType) : hlog :=
  if decide (p ∈ log.*1) then []
  else if (p =? 16)%Z then [(32%Z, decrement_strong_count)]
  else if (p =? 96)%Z then [(112%Z, decrement_strong_count); (128%Z, decrement_strong_count)]
  else [].

Definition demo_pot (log : hlog) : nat :=
  (if decide (16%Z ∈ log.*1) then 0 else 1) + (if decide (96%Z ∈ log.*1) then 0 else 2).

Definition demo_collect : list hop := [HRetire 0 16 decrement_strong_count; HRetire 1 96 decrement_strong_count].

Lemma demo_pot_ok log p ty : demo_pot (log ++ [(p, ty)]) + length (demo_children log p ty) ≤ demo_pot log.
Proof.
  unfold demo_pot, demo_children. rewrite fmap_app. simpl.
  assert (∀ q, q ∈ log.*1 ++ [p] ↔ q ∈ log.*1 ∨ q = p) as Hq by (intros q; by rewrite elem_of_app, list_elem_of_singleton).
  pose proof (Hq 16%Z). pose proof (Hq 96%Z).
  destruct (Z.eqb_spec p 16), (Z.eqb_spec p 96); repeat case_decide; subst; simpl; try lia; exfalso; naive_solver.
Qed.

Lemma hyaline_shutdown_complete_witness :
  ∃ s s', hrun demo_collect (hyaline_init 2 []) = Ok (tt, s) ∧
    hy_shutdown (cascade_eject demo_children 1 0) 6 0 s = Ok (tt, s') ∧ nodes s' = ∅ ∧
    world s' ≡ₚ [(16%Z, decrement_strong_count); (96%Z, decrement_strong_count)] ++ spawned demo_children [] (world s').
Proof.
  destruct (hrun_init 2 demo_collect) as (s & Hs & Hlen & Hrel);
    [lia|apply (bool_decide_unpack _); by vm_compute|].
  destruct (hyaline_shutdown_complete demo_children demo_pot 0 6 0 (spec_run demo_collect (spec_init 2)) s demo_pot_ok)
    as (s' & new & Hs' & Hn & Hlog & _ & Hall).
  - intros log p ty. unfold demo_children. repeat case_match; repeat constructor; simpl; lia.
  - done.
  - intros [|[|i]]; by vm_compute.
  - rewrite Hlen. lia.
  - by vm_compute.
  - vm_compute. lia.
  - exists s, s'. split; [done|]. split; [done|]. split; [done|]. simpl in Hlog. subst new.
    apply (Hall decrement_strong_count).
    + repeat constructor.
    + intros log p. unfold demo_children. repeat case_match; repeat constructor.
Defined.

Example demo_shutdown_order :
  (λ '(_, s), (world s).*1) <$>
    (match (hrun demo_collect;; hy_shutdown (cascade_eject demo_children 1 0) 6 0) (hyaline_init 2 []) with
     | Ok r => Some r | Err _ => None end) = Some [16%Z; 32%Z; 96%Z; 128%Z; 112%Z].
Proof. by vm_compute. Qed.

(** A program of the pointer library: [b] has a reference in a local [rc_ptr]
    and a weak one in an [atomic_weak_ptr]; two other objects are in
    [atomic_rc_ptr]s.  The three atomic pointers are reset; the result is [b]. *)
Definition weak_program {X En : Type} `{!Backend nat X En} (self : derived nat X En)
    (guarded : M (state nat X En) unit → M (state nat X En) unit) : M (state nat X En) Z :=
  modify (set_cells {[0 := MAtomicRc 0; 1 := MAtomicWeak 0; 2 := MAtomicRc 0]});;
  a ← make_shared 0 (Payload 1 []);
  b ← make_shared 0 (Payload 2 []);
  c ← make_shared 0 (Payload 3 []);
  w ← weak_from_rc b;
  arc_store self 0 (LCell 0) a;;
  aw_store self 0 (LCell 1) w;;
  arc_store self 0 (LCell 2) c;;
  guarded (arc_store_null self 0 (LCell 0);;
           aw_store self 0 (LCell 1) 0;;
           arc_store_null self 0 (LCell 2));;
  mret b.

Definition outcome {S A} (r : result (A * S)) : result A :=
  match r with Ok (a, _) => Ok a | Err e => Err e end.

(** C38. Weak pointers are unsafe with the Hyaline manager: a batch applies the
    action of its first object to all, so the object whose weak reference was
    retired loses its strong reference instead.  The [rc_ptr] that still owns
    it sees a use count of zero, and its destructor fails the assertion that
    the count is positive.  With the epoch-based manager the same program sees
    the count 1 and drops the pointer. *)
Theorem hyaline_weak_unsafe :
  outcome ((b ← weak_program (hyaline_manager 10) (with_guard 10 0); rc_use_count b)
             (acquire_retire_hyaline_init 1)) = Ok 0%Z ∧
  outcome ((b ← weak_program (hyaline_manager 10) (with_guard 10 0); rc_clear (hyaline_manager 10) 0 b)
             (acquire_retire_hyaline_init 1)) = Err AssertionFailed ∧
  outcome ((b ← weak_program (manager 10) (λ m, m); rc_use_count b) (ebr_init 1)) = Ok 1%Z ∧
  outcome ((b ← weak_program (manager 10) (λ m, m); rc_clear (manager 10) 0 b) (ebr_init 1)) = Ok 0%Z.
Proof. split_and!; by vm_compute. Qed.

End hyaline_demos.

(** ** Marks *)

Section mark_demos.
Local Existing Instance marked_ptr_policy.

Definition marked_hp : hp_state :=
  State demo_heap {[0 := MAtomicRc 18; 1 := MAtomicWeak 32]} [3%Z; 0%Z] [new_slot; new_slot]
    [false; false] [[]; []] [0%Z; 0%Z].

Lemma marked_hp_inv : Inv (Laws := hp_laws) [] [] demo_owned marked_hp.
Proof.
  apply inv_check_ok; [|done|by vm_compute]. by intros t [?%elem_of_nil|?%elem_of_nil].
Qed.

Lemma arc_set_mark_correct_witness :
  wp (arc_set_mark 3 (LCell 0) 1;; arc_get_mark (LCell 0))
     (λ r s', r = 1%Z ∧ Inv (Laws := hp_laws) [] [] demo_owned s' ∧
        potential demo_owned s' = potential demo_owned marked_hp ∧
        ∃ w, s' = put_member (LCell 0) (MAtomicRc w) marked_hp ∧ get_ptr w = 16%Z ∧ get_mark w = 1%Z) marked_hp.
Proof.
  apply (arc_set_mark_correct (Laws := hp_laws) 2 [] [] demo_owned marked_hp (LCell 0) (MAtomicRc 18) 1).
  - exact marked_hp_inv.
  - reflexivity.
  - reflexivity.
  - lia.
Defined.

Lemma compare_and_set_mark_correct_witness :
  wp (compare_and_set_mark (LCell 0) 16 1)
     (λ r s', Inv (Laws := hp_laws) [] [] demo_owned s' ∧
        potential demo_owned s' = potential demo_owned marked_hp ∧
        if r : bool then (18 = 16)%Z ∧
          ∃ w, s' = put_member (LCell 0) (MAtomicRc w) marked_hp ∧ get_ptr w = 16%Z ∧ get_mark w = 1%Z
        else (18 ≠ 16)%Z ∧ s' = marked_hp) marked_hp.
Proof.
  apply (compare_and_set_mark_correct (Laws := hp_laws) [] [] demo_owned marked_hp (LCell 0) (MAtomicRc 18) 16 1).
  - exact marked_hp_inv.
  - reflexivity.
  - reflexivity.
  - lia.
Defined.

End mark_demos.
