(* ===== verification/ExampleDemos.v ===== *)
(** * Concrete runs of the example structures

    The theorems about the stack and the linked list applied to concrete states
    of the hazard-pointer backend; and the run that shows what [remove] does to
    the last sentinel of the list. *)

From stdpp Require Import sorting.
From S2P Require Import Prelude StickyCounter CountedObject MemoryManager Accounting ManagerSafety AtomicLoc Backend MarkedPtr EpochTracker AcquireRetire AcquireRetireEBR InvCheck Reclamation RcPtr SnapshotPtr AtomicRcPtr Held Stack StackProgram LinkedList LinkedListOk LinkedListOps LinkedListProgram Demos.

Section stack_demos.
Local Existing Instance default_pointer_policy.
Local Existing Instance bump_allocator.

(** A stack of 5 and 6. *)
Definition stack_start : hp_state :=
  State {[16%Z := CountedObject (Some (Node 5 32)) 1 1 false 0;
          32%Z := CountedObject (Some (Node 6 0)) 1 1 false 0]}
    {[0 := MAtomicRc 16]} [2%Z; 0%Z] [new_slot; new_slot] [false; false] [[]; []] [0%Z; 0%Z].

Lemma stack_start_inv : stack_inv (Laws := hp_laws) 0 2 20 stack_start [5; 6].
Proof.
  split; [split|].
  - apply inv_check_ok; [|done|by vm_compute]. by intros t [?%elem_of_nil|?%elem_of_nil].
  - vm_compute. lia.
  - done.
  - intros tid Ht. exists new_slot. split; [|done]. by destruct tid as [|[|tid]]; [..|lia].
  - exists 16%Z. split; [done|]. split; [done|]. eexists _, _. split; [done|]. split; [done|]. split; [done|].
    eexists _, _. by split_and!.
Qed.

Definition stack_prog : list (nat * stack_op nat) :=
  [(0, SPush 7); (1, SFind 6); (1, SPop); (0, SFront); (1, SPop); (0, SPop); (1, SPop)].

Lemma stack_prog_list : list_run stack_prog [5; 6] =
  ([ResUnit; ResBool true; ResVal (Some 7); ResVal (Some 5); ResVal (Some 5); ResVal (Some 6); ResVal None], []).
Proof. by vm_compute. Qed.

Lemma stack_refines_witness :
  ∃ s', stack_run 100 0 20 stack_prog stack_start =
          Ok ([ResUnit; ResBool true; ResVal (Some 7); ResVal (Some 5); ResVal (Some 5); ResVal (Some 6); ResVal None], s') ∧
        stack_inv (Laws := hp_laws) 0 2 55 s' [].
Proof.
  pose proof (stack_refines (Laws := hp_laws) 100 0 20 2 stack_prog 20 stack_start [5; 6]) as Hrun.
  rewrite stack_prog_list in Hrun. apply Hrun; clear Hrun.
  - exact stack_start_inv.
  - repeat (apply Forall_cons; split; [lia|]). by apply Forall_nil.
  - simpl. lia.
  - by vm_compute.
  - simpl. lia.
  - done.
Defined.

Lemma stack_no_leak_witness :
  wp (stack_run 100 0 100 stack_prog;; stack_destruct (manager 100) 1 0 100;; shutdown (eject (manager 100) 1) 100;; currently_allocated)
     (λ r s', r = 0%Z ∧ heap s' = ∅ ∧ concat (deferred_destructs s') = []) stack_start.
Proof.
  apply (stack_no_leak (Laws := hp_laws) 100 0 100 2 stack_prog 20 stack_start [5; 6] 1).
  - exact stack_start_inv.
  - exists (λ p, if decide (p = 16%Z) then 1 else 0).
    intros q p (Hp & o & v & m & Ho & Hv & Hm & Hw). unfold stack_start in Ho; simpl in Ho.
    apply lookup_insert_Some in Ho as [[<- <-]|[_ [<- <-]%lookup_singleton_Some]];
      injection Hv as <-; apply list_elem_of_singleton in Hm as ->; simpl in Hw; subst p; [vm_compute; lia|done].
  - intros j m Hj. unfold stack_start; simpl. by intros [<- <-]%lookup_singleton_Some.
  - repeat (apply Forall_cons; split; [lia|]). by apply Forall_nil.
  - lia.
  - simpl. lia.
  - by vm_compute.
  - simpl. lia.
  - done.
Defined.

End stack_demos.

Section list_demos.
Local Existing Instance marked_ptr_policy.
Local Existing Instance bump_allocator.

Definition hp_list_state : Type := state Z (list LocalSlot) hp_entry.

(** The list of 3 and 5 between its sentinels, in which 3 is marked and still
    linked: [tail] is cell 0 and [head] cell 1. *)
Definition list_start : hp_list_state :=
  State {[16%Z := CountedObject (Some (ListNode INT_MIN 32)) 1 1 false 0;
          32%Z := CountedObject (Some (ListNode 3 49)) 1 1 false 0;
          48%Z := CountedObject (Some (ListNode 5 64)) 1 1 false 0;
          64%Z := CountedObject (Some (ListNode INT_MAX 0)) 2 1 false 0]}
    {[0 := MAtomicRc 64; 1 := MAtomicRc 16]} [4%Z; 0%Z] [new_slot; new_slot] [false; false] [[]; []] [0%Z; 0%Z].

Lemma list_start_inv : list_inv (Laws := hp_laws) 0 1 2 20 list_start {[5%Z]} 4.
Proof.
  split; [split|].
  - apply inv_check_ok; [|done|by vm_compute]. by intros t [?%elem_of_nil|?%elem_of_nil].
  - vm_compute. lia.
  - done.
  - intros tid Ht. exists new_slot. split; [|done]. by destruct tid as [|[|tid]]; [..|lia].
  - exists [LNode 16 INT_MIN false; LNode 32 3 true; LNode 48 5 false; LNode 64 INT_MAX false]. split; [split|split; [|done]].
    + by exists 16%Z.
    + by exists 64%Z.
    + repeat (split; [split; [done|split; [done|eexists; split; [done|by vm_compute]]]|]). done.
    + simpl. repeat (apply NoDup_cons; split; [set_solver by lia|]). apply NoDup_nil_2.
    + simpl. repeat constructor.
    + intros k. split.
      * intros ->%elem_of_singleton. split; [done|]. eexists. split; [right; by left|done].
      * intros [Hk (a & Ha & Hg & Hka)]. simpl in Ha. set_solver.
Qed.

(** Inserting 3 again, whose marked node the search unlinks. *)
Definition list_prog : list (nat * set_op) :=
  [(0, LFind 3%Z); (1, LInsert 3%Z); (0, LInsert 5%Z); (1, LFind 3%Z); (0, LRemove 5%Z); (1, LRemove 5%Z); (0, LFind 5%Z)].

Lemma list_prog_set : fst (set_run list_prog {[5%Z]}) = [false; true; false; true; true; false; false].
Proof. by vm_compute. Qed.

Lemma linked_list_refines_witness :
  ∃ s', list_calls 100 1 20 list_prog list_start = Ok ([false; true; false; true; true; false; false], s') ∧
        list_inv (Laws := hp_laws) 0 1 2 76 s' (snd (set_run list_prog {[5%Z]})) 11.
Proof.
  rewrite <-list_prog_set. apply (linked_list_refines (Laws := hp_laws) 100 0 1 20 2 list_prog 20 list_start {[5%Z]} 4).
  - exact list_start_inv.
  - repeat (apply Forall_cons; split; [split; [lia|done]|]). by apply Forall_nil.
  - simpl. lia.
  - simpl. lia.
  - by vm_compute.
  - done.
Defined.

Lemma linked_list_no_leak_witness :
  wp (list_calls 100 1 100 list_prog;; list_destruct (manager 100) 1 0 1;; shutdown (eject (manager 100) 1) 100;; currently_allocated)
     (λ r s', r = 0%Z ∧ heap s' = ∅ ∧ concat (deferred_destructs s') = []) list_start.
Proof.
  apply (linked_list_no_leak (Laws := hp_laws) 100 0 1 100 2 list_prog 20 list_start {[5%Z]} 4 1).
  - exact list_start_inv.
  - exists (λ p, Z.to_nat (64 - p)).
    intros q p (Hp & o & v & m & Ho & Hv & Hm & Hw). unfold list_start in Ho; simpl in Ho.
    repeat (apply lookup_insert_Some in Ho as [[<- <-]|[_ Ho]];
      [injection Hv as <-; apply list_elem_of_singleton in Hm as ->; vm_compute in Hw; subst p; vm_compute; lia|]).
    apply lookup_singleton_Some in Ho as [<- <-]. injection Hv as <-. apply list_elem_of_singleton in Hm as ->. done.
  - lia.
  - intros j m Hj1 Hj0. unfold list_start; simpl. intros [[<- _]|[_ [<- _]%lookup_singleton_Some]]%lookup_insert_Some; done.
  - repeat (apply Forall_cons; split; [split; [lia|done]|]). by apply Forall_nil.
  - lia.
  - simpl. lia.
  - simpl. lia.
  - by vm_compute.
  - done.
Defined.

(** A fresh manager of two threads. *)
Definition fresh : hp_list_state := hp_init 2.

Lemma linked_list_init_witness :
  wp (list_init 0 0 1)
     (λ _ s', list_inv (Laws := hp_laws) 0 1 2 9 s' ∅ 2 ∧ (acyclic (heap fresh) → acyclic (heap s')) ∧
              ∀ j, j ≠ 0 → j ≠ 1 → cells s' !! j = cells fresh !! j) fresh.
Proof.
  apply (linked_list_init (Laws := hp_laws) 0 1 2 0 0 fresh); try done.
  - split.
    + apply inv_check_ok; [|done|by vm_compute]. by intros t [?%elem_of_nil|?%elem_of_nil].
    + vm_compute. lia.
    + done.
    + intros tid Ht. exists new_slot. split; [|done]. by destruct tid as [|[|tid]]; [..|lia].
  - lia.
Defined.

(** What a computation on a fresh manager returns. *)
Definition outcome {A} (m : M hp_list_state A) : A + error :=
  match m fresh with Ok (a, _) => inl a | Err e => inr e end.

(** C40. The key of the last sentinel is not like the others: [find] of [INT_MAX]
    is true on a list that was never given it, and [remove] of [INT_MAX] returns
    true and unlinks the sentinel, after which a [find] past the last key
    dereferences a null pointer. *)
Theorem linked_list_sentinel_removable :
  let remove_max := (list_init 0 0 1;; list_insert (manager 50) 0 1 5 5 5;; list_remove (manager 50) 0 1 5 5 INT_MAX) in
  outcome (list_init 0 0 1;; list_find (manager 50) 0 1 5 5 INT_MAX) = inl true ∧
  outcome remove_max = inl true ∧
  outcome (remove_max;; list_find (manager 50) 0 1 5 5 6) = inr NullDereference.
Proof. split; [|split]; by vm_compute. Qed.

End list_demos.
